(* ===== verification/_CoqProject ===== *)
-Q . S2P
Prelude.v
MsgQueue.v
PeerWorker.v
Locking.v
Types.v
ConfigGen.v
NetInterceptor.v
RandGen.v
Logger.v
Tracing.v
Channel.v
RaftState.v
RaftNode.v
RaftNodeFacts.v
NodeProps.v
Cluster.v
RaftSpec.v
LogSpec.v
LogInv.v
LogSafety.v
Refinement.v
RefinementSteps.v
Simulation.v
Races.v
Widths.v
Lease.v
Safety.v
Replication.v
Partition.v
KvCodec.v
KvServer.v
KvService.v
KvClient.v
EndToEnd.v
Session.v
Deployment.v
Linearize.v
LeaseReads.v
Progress.v
Availability.v
NodeApp.v
Wrapper.v
KvNode.v
TestCtrl.v
CtrlLife.v
Setup.v
Fixture.v
NodeMain.v
Double.v
Bench.v
BenchProps.v
TestConfig.v
Watchdog.v
Oracle.v
Script.v
RaftTests.v
Scenarios.v
KvTests.v
QueueTests.v
