(* ===== verification/Prelude.v ===== *)
(** * A verified model of Rafty: Raft consensus and a replicated key-value store

    The program is a C++ implementation of the Raft consensus protocol over gRPC
    with a key-value service on top.  Its parts, and the files that model them:

    - _The Raft node_, class [Raft] ([inc/rafty/raft.hpp], [src/raft.cpp],
      [inc/rafty/impl/raft.ipp]).  [Types.v] has the messages and results
      ([proto/raft.proto], [inc/common]), [RaftState.v] the members of the class,
      [RaftNode.v] one function per critical section of its methods,
      [RaftNodeFacts.v] their algebra and [NodeProps.v] what each guarantees.
    - _The worker threads_ that send AppendEntries to the peers
      ([Raft::PeerWorker]): [PeerWorker.v].
    - _A cluster_: the thread that [Raft::run] starts, the gRPC service
      [RaftServiceImpl], and the network: [Cluster.v].  Its state is one process per
      node (the node and the control state of its thread), the messages sent and a
      history of votes, elections and acknowledgements; a step is one critical
      section of one thread, so that schedules are sequences of labels.
    - _The protocol_ that the cluster implements: [RaftSpec.v], a transition system
      without threads, timers and machine arithmetic.  [Refinement.v],
      [RefinementSteps.v] and [Simulation.v] prove the simulation, [Safety.v] what
      follows for the cluster, [Races.v] the schedules that the discipline excludes.
      [LogSpec.v] adds the ledger of what every leader wrote and what the nodes
      acknowledged, [LogInv.v] the invariant that every step keeps, [LogSafety.v] log
      matching, leader completeness and state machine safety of the protocol;
      [Replication.v] carries them over to the cluster, [Partition.v] runs the cluster
      under the fault injection, [Widths.v] types it and [Lease.v] follows its leases.  [Progress.v] and
      [Availability.v] build the schedules with which a quorum elects and commits.
    - _The channel_ between a node and the consumer of its committed entries,
      [MessageQueue] ([inc/toolings/msg_queue.hpp]): [MsgQueue.v]; [Locking.v] has the
      threads of a node that use it under the node's mutex.
    - _The key-value service_ ([inc/kv/kv_server.hpp], [inc/kv/kv_client.hpp]):
      [KvCodec.v] (the wire format), [KvServer.v] ([on_apply] and its reference
      semantics), [KvService.v] (the gRPC handlers beside the apply thread, against
      the interface [RaftApi] of a Raft node), [KvClient.v] (the retry loop),
      [EndToEnd.v] (the servers on top of the nodes of a cluster), [Session.v] (a
      client, the service and the cluster together), [Deployment.v], [Linearize.v] and
      [LeaseReads.v] (any number of clients and nodes with their services, and the order
      in which their operations take effect).
    - _The executables and tools_ ([app], [inc/toolings], [inc/common/utils]):
      [ConfigGen.v] (cluster configurations), [NetInterceptor.v] (fault injection),
      [NodeApp.v] (flags, operator commands, port layouts), [Wrapper.v] (the service
      of the tester), [KvNode.v] (the apply loop of a key-value node), [NodeMain.v]
      (the [main] functions, the command loop and SIGINT), [RandGen.v], [Logger.v]
      (loggers, sinks and verbosity), [Tracing.v] (the tracing interceptors) and
      [Channel.v] (a call through the interceptors of a channel, the set-up of the
      telemetry).
    - _The benchmarks_ ([app/tput.cpp], [app/latency.cpp]): [Double.v] (binary64
      arithmetic, sorting, printing), [Bench.v] (the threads of a round, the statistics,
      the report) and [BenchProps.v] (what a round measures).
    - _The tester_ ([inc/toolings/test_ctrl.hpp], [inc/toolings/test_config.hpp]):
      [TestCtrl.v] (command lines, connections, proposals), [CtrlLife.v] (the
      controller among its processes and threads, from constructor to destructor),
      [Setup.v] (how tests and benchmarks bring a cluster up with it), [TestConfig.v] (the
      checks that the integration tests run on a cluster) and [Watchdog.v] (the thread
      that ends a test after its time limit, and how it is joined); [Oracle.v] runs those checks on the outputs of the modelled cluster.
      [Script.v] has scripts over the tester's operations and what a script may ask of
      the nodes; [RaftTests.v] the scenarios of [integration_tests/raft_test.cpp] as
      scripts, [Scenarios.v] those of [extra_cases.cpp], [extra_tests_lab2.cpp] and
      [raft_test_extra.cpp], and the theorem about all of them.  [KvTests.v] has the
      tests of [kv_test.cpp] and what they ask of the store, [QueueTests.v] the unit tests
      of the channel ([unittests/internals/test_msg_queue.cpp]).
      [Fixture.v] has the fixture, [main] and the SIGINT handler of these programs.

    ** How the code is read

    A [uint64_t] is an [N]; additions and subtractions that can leave the range are
    written with their wrap-around ([+₆₄], [-₆₄], and [wrap32] in the codec).  A
    [std::vector] access out of range, the call of an empty function and a write
    outside a buffer are undefined behaviour: [None], or an outcome [Undefined].
    The random engine and the clock are inputs (the raw output of the engine, a
    reading in nanoseconds); the iteration order of [unordered_map] is fixed but the
    theorems do not depend on it.  Reads that the code makes without its mutex (the
    fields of a vote request, the loads of [get_lease_state]) are separate atomic steps;
    [peers_], which does not change while a node runs, is read with the section before.
    gRPC is a network that may lose, delay and repeat messages and answers; Abseil
    and the stubs of the client are parameters; the interceptor chain of a gRPC channel,
    spdlog and the OpenTelemetry propagator are type classes ([Grpc], [Spdlog],
    [Propagator]) whose laws are their documented behaviour, each with an instance.  A [double] is a binary64 number of
    the Standard Library's [SpecFloat].

    Loops: [drain] runs [commit_index_ - last_applied_] turns, [scan_commit] one turn
    per log entry, [operate] [max_attempts_] turns; each is proved to end within that
    fuel ([drain_spec], [scan_commit_spec], [operate_spec]).  [propose_sync] polls a
    given sequence of readings, and is proved to return once the clock passes its
    deadline.  The rounds of the benchmark have 32 turns: the number of clients doubles
    and is an [int] ([rounds_spec]).

    ** What is proved

    - The cluster refines the protocol, for every full mesh of configurations and
      every disciplined schedule: at most one leader per term, terms that never go
      back, leaders that only append ([Safety.v]).  The discipline ([disciplined] in
      [Refinement.v]) excludes the wrap-around of a term or log index and two races
      of the code that break election safety; [Races.v] runs both.
    - On every such schedule no access is out of range, logs that agree on an entry
      agree up to it, the leader of a term holds all that earlier terms committed,
      committed prefixes are never rewritten and two nodes never hand over different
      commands under one index ([Replication.v]).  So the key-value servers of a
      cluster are states of one sequential store ([EndToEnd.v]), and an operation that
      a client reports as successful was executed exactly once, with the answer of
      that store ([Session.v]); with any number of clients, on orderly schedules ([orderly]
      in [Deployment.v]: disciplined, results taken up in sequence, requests that fit), the
      store is linearizable for the operations that go through the log ([Linearize.v]), and
      for all operations, the reads under the lease included, while one node gives the
      answers ([LeaseReads.v]); what the tests of [kv_test.cpp] assert follows
      ([KvTests.v]).  A node
      that is cut off from the majority wins no election and commits nothing new
      ([Partition.v]).  On every schedule, disciplined or not, all fields keep to their C++
      types while the logs fit into memory ([Widths.v]), and a lease comes from a round that
      a majority confirmed no longer than its duration ago ([Lease.v]).
    - From every state of a disciplined execution a quorum can, by itself, elect its member
      with the most up-to-date log and commit and apply a new command ([Availability.v]).
    - Every operation of a node on every branch: the AppendEntries handler and the
      log that it leaves, votes once per term and only for up-to-date logs, requests
      cut from the leader's log at [nextIndex_], the effect of every reply on the indices,
      the commit index and the lease, the in-order delivery of committed entries,
      [propose_sync] ([NodeProps.v]).
    - The hand-over to a worker thread and the channel lose no wake-up, the channel is
      first in first out and bounded ([PeerWorker.v], [MsgQueue.v]); its unit tests hold on
      every schedule, up to a race in what they measure ([QueueTests.v]).  While the consumer
      of the channel runs, every call on a node returns; without it the first full
      channel stops the node ([Locking.v]).
    - The codec is a round trip, reads nothing outside its input, accepts exactly its own
      layout and refuses truncation ([KvCodec.v]); the server executes every command at most once and
      answers retries like the original, refining a plain map; every answer of the
      concurrent service is the answer of that map to a committed command
      ([KvServer.v], [KvService.v]); the client terminates, sends one command under
      one sequence number and sweeps the replicas ([KvClient.v]).
    - Fault injection cuts exactly the calls it announces; the peer flag is a round
      trip; the tester's stream follows the server and ends; a killed node stays
      killed ([NetInterceptor.v], [NodeApp.v], [Wrapper.v], [KvNode.v]).  Calls are
      counted whether they are cut or not, and a cut call leaves no trace ([Channel.v]).
    - The controller that its constructor and the reports build does not depend on how
      they interleave; after [kill] its destructor returns ([CtrlLife.v]); a cluster comes
      up whatever the order of the reports ([Setup.v]), and the timeout thread of a test
      ends, within 100 ms of the stop signal or after the limit ([Watchdog.v]).  Suppressing the
      output is a round trip, and what SIGINT and the cleanup of a test reach is exact
      ([Fixture.v]).
    - The tester's record of applied commands accepts exactly the histories that are
      in order and agree; its loops end and report what they waited for; it accepts
      every disciplined schedule of the cluster and rejects a hand-over out of order
      ([TestConfig.v], [Oracle.v]).  The scenarios run without undefined behaviour and
      ask only for what the nodes they have left connected can give ([Scenarios.v]).
    - A round of the throughput benchmark times exactly the requests it should, inside
      the window that it divides by, never deadlocks, and reports percentiles with the
      ranks they claim ([BenchProps.v]).
    - A verbosity reaches exactly the sinks that it names ([Logger.v]); the span registry
      follows the open calls and a server span is the child of the client's
      ([Tracing.v]); without a signal the command loop never uses a null pointer, and the
      destructor of a node always returns ([NodeMain.v], [Wrapper.v]).

    ** What is not modelled

    gRPC, protobuf, spdlog and OpenTelemetry themselves; the exporters that the tracing
    set-up configures; the debugger connection (DDB).  That elections end under random
    timeouts is not claimed, only that they can at any time ([Availability.v]); so that the
    operations of a test succeed in time is a hypothesis where a test is judged.

    This file holds what the components share: the scope and hint databases, 64-bit
    arithmetic, vectors, strings and sorted lists, control-flow tactics and majorities. *)
From stdpp Require Import sorting.
From stdpp Require Export strings numbers prelude gmap list.

#[export] Set Default Proof Using "Type".

(** ** Scope, tactics and hint databases *)

Declare Scope rafty_scope.
Delimit Scope rafty_scope with rafty.

(** [rewrite] base of the record-update and machine-arithmetic equations,
    and the [auto] base of the facts the components share. *)
Create HintDb rafty discriminated.
Create Rewrite HintDb rafty_rw.

(** ** Unsigned 64-bit arithmetic

    A [uint64_t] is an [N] below [2^64]; the operations of the source that can
    leave that range are written with their wrap-around. *)

Definition pow64 : N := 18446744073709551616.

Definition wrap64 (x : N) : N := (x mod pow64)%N.
Definition add64 (a b : N) : N := wrap64 (a + b).
Definition sub64 (a b : N) : N := wrap64 (a + pow64 - b).

Notation "a +₆₄ b" := (add64 a b) (at level 50, left associativity) : rafty_scope.
Notation "a -₆₄ b" := (sub64 a b) (at level 50, left associativity) : rafty_scope.

Lemma wrap64_small (x : N) : (x < pow64)%N → wrap64 x = x.
Proof. apply N.mod_small. Qed.

Lemma wrap64_lt (x : N) : (wrap64 x < pow64)%N.
Proof. apply N.mod_lt. done. Qed.

Lemma add64_small (a b : N) : (a + b < pow64)%N → add64 a b = (a + b)%N.
Proof. apply wrap64_small. Qed.

Lemma sub64_small (a b : N) : (b ≤ a)%N → (a < pow64)%N → sub64 a b = (a - b)%N.
Proof.
  intros Hle Hlt. unfold sub64, wrap64.
  replace (a + pow64 - b)%N with ((a - b) + 1 * pow64)%N by lia.
  rewrite N.Div0.mod_add. apply N.mod_small. lia.
Qed.

(** ** Vectors

    [std::vector] as a list indexed by [N]; an access out of range is undefined
    behaviour and yields [None]. *)

Definition vsize {A} (l : list A) : N := N.of_nat (length l).
Definition vat {A} (l : list A) (i : N) : option A := l !! N.to_nat i.

Lemma vat_Some_lt {A} (l : list A) i x : vat l i = Some x → (i < vsize l)%N.
Proof. unfold vat, vsize. intros H%lookup_lt_Some. lia. Qed.

Lemma vat_lt_is_Some {A} (l : list A) i : (i < vsize l)%N → is_Some (vat l i).
Proof. unfold vat, vsize. intros H. apply lookup_lt_is_Some. lia. Qed.

Lemma vsize_app {A} (l k : list A) : vsize (l ++ k) = (vsize l + vsize k)%N.
Proof. unfold vsize. rewrite length_app. lia. Qed.

Lemma vsize_nil {A} : vsize (@nil A) = 0%N.
Proof. done. Qed.

Lemma vsize_cons {A} (x : A) l : vsize (x :: l) = (1 + vsize l)%N.
Proof. unfold vsize. simpl. lia. Qed.

Lemma vsize_take {A} (l : list A) (n : nat) :
  vsize (take n l) = N.min (N.of_nat n) (vsize l).
Proof. unfold vsize. rewrite length_take. lia. Qed.

#[export] Hint Rewrite @vsize_app @vsize_nil @vsize_cons @vsize_take : rafty_rw.

(** ** Strings and sorted lists *)

Lemma string_app_assoc (s t u : string) : ((s +:+ t) +:+ u)%string = (s +:+ (t +:+ u))%string.
Proof. induction s as [|c s IH]; [done|]. exact (f_equal (String.String c) IH). Qed.

Lemma string_app_nil_r (s : string) : (s +:+ EmptyString)%string = s.
Proof. induction s as [|c s IH]; [done|]. exact (f_equal (String.String c) IH). Qed.

Lemma StronglySorted_seq n m : StronglySorted lt (seq n m).
Proof.
  revert n. induction m as [|m IH]; intros n; simpl; constructor; [done|].
  apply Forall_forall. intros k Hk%elem_of_seq. lia.
Qed.

Lemma StronglySorted_omap {A B} (R : relation A) (R' : relation B) (g : A → option B) l :
  (∀ a a' b b', R a a' → g a = Some b → g a' = Some b' → R' b b') →
  StronglySorted R l → StronglySorted R' (omap g l).
Proof.
  intros HR. induction 1 as [|a l _ IH Ha]; simpl; [constructor|].
  destruct (g a) as [b|] eqn:Hb; [|done]. constructor; [done|].
  apply Forall_forall. intros b' (a' & Ha' & Hb')%list_elem_of_omap.
  rewrite Forall_forall in Ha. eauto.
Qed.

Lemma StronglySorted_lt {A} (R : relation A) l i j x y :
  StronglySorted R l → l !! i = Some x → l !! j = Some y → (i < j)%nat → R x y.
Proof.
  intros Hl Hi Hj Hlt. rewrite <- (take_drop_middle _ _ _ Hi) in Hl.
  apply StronglySorted_app in Hl as (_ & _ & Hl). apply StronglySorted_cons in Hl as [Hx _].
  rewrite Forall_forall in Hx. apply Hx. apply (list_elem_of_lookup_2 _ (j - S i)).
  rewrite lookup_drop. by replace (S i + (j - S i))%nat with j by lia.
Qed.

Lemma StronglySorted_lookup {A} (R : relation A) l i j x y :
  StronglySorted R l → (∀ x y, R x y → ¬ R y x) → l !! i = Some x → l !! j = Some y → R x y → (i < j)%nat.
Proof.
  intros Hl Has Hi Hj Hxy. destruct (Nat.lt_total i j) as [|[->|Hlt]]; [done|simplify_eq|].
  - by destruct (Has _ _ Hxy).
  - destruct (Has _ _ Hxy). by eapply StronglySorted_lt.
Qed.

Lemma StronglySorted_alt {A} (R : relation A) l :
  (∀ i j x y, l !! i = Some x → l !! j = Some y → (i < j)%nat → R x y) → StronglySorted R l.
Proof.
  induction l as [|x l IH]; intros Hl; constructor.
  - apply IH. intros i j y z Hi Hj Hlt. apply (Hl (S i) (S j)); [done..|lia].
  - apply Forall_forall. intros y (j & Hj)%list_elem_of_lookup. apply (Hl 0%nat (S j)); [done..|lia].
Qed.

Lemma StronglySorted_filter {A} (R R' : relation A) (P : A → Prop) `{!∀ x, Decision (P x)} l :
  (∀ x y, P x → P y → R x y → R' x y) → StronglySorted R l → StronglySorted R' (filter P l).
Proof.
  intros HR. induction 1 as [|x l _ IH Hx]; [constructor|].
  rewrite filter_cons. case_decide; [|done]. constructor; [done|].
  rewrite Forall_forall in Hx |- *. intros y [Hy Hin]%list_elem_of_filter. by apply HR, Hx.
Qed.

(** ** Control-flow inversion *)

(** Split every [if]/[match] of the hypotheses on a decidable scrutinee. *)
Ltac case_guards :=
  repeat match goal with
  | H : context [match ?b with true => _ | false => _ end] |- _ =>
      destruct b eqn:?; simplify_eq/=
  | |- context [match ?b with true => _ | false => _ end] =>
      destruct b eqn:?; simplify_eq/=
  end.

(** Turn boolean comparisons on [N], [Z] and [nat] into propositions. *)
Ltac bool_to_prop :=
  repeat match goal with
  | H : (_ && _)%bool = true |- _ => apply andb_true_iff in H; destruct H
  | H : (_ || _)%bool = false |- _ => apply orb_false_iff in H; destruct H
  | H : negb _ = true |- _ => apply negb_true_iff in H
  | H : negb _ = false |- _ => apply negb_false_iff in H
  | H : (_ =? _)%N = true |- _ => apply N.eqb_eq in H
  | H : (_ =? _)%N = false |- _ => apply N.eqb_neq in H
  | H : (_ <=? _)%N = true |- _ => apply N.leb_le in H
  | H : (_ <=? _)%N = false |- _ => apply N.leb_gt in H
  | H : (_ <? _)%N = true |- _ => apply N.ltb_lt in H
  | H : (_ <? _)%N = false |- _ => apply N.ltb_ge in H
  | H : (_ <=? _)%Z = true |- _ => apply Z.leb_le in H
  | H : (_ <=? _)%Z = false |- _ => apply Z.leb_gt in H
  | H : (_ <? _)%Z = true |- _ => apply Z.ltb_lt in H
  | H : (_ <? _)%Z = false |- _ => apply Z.ltb_ge in H
  end.

(** Take apart a successful bind of the option monad. *)
Ltac undo_bind :=
  repeat match goal with
  | H : (_ ≫= _) = Some _ |- _ =>
      apply bind_Some in H; destruct H as (? & ? & ?); simplify_eq/=
  | H : (_ <$> _) = Some _ |- _ =>
      apply fmap_Some in H; destruct H as (? & ? & ?); simplify_eq/=
  end.

(** ** Finite sets and majorities *)

(** Two subsets of a set that together outnumber it meet. *)
Lemma quorums_meet {A} `{Countable A} (U P Q : gset A) :
  P ⊆ U → Q ⊆ U → (size U < size P + size Q)%nat → ∃ x, x ∈ P ∧ x ∈ Q.
Proof.
  intros HP HQ Hsz.
  destruct (decide (P ∩ Q = ∅)) as [He|Hne].
  - exfalso.
    assert (size (P ∪ Q) = size P + size Q)%nat as Hu.
    { apply size_union. clear Hsz. set_solver. }
    assert (size (P ∪ Q) ≤ size U)%nat by (apply subseteq_size; set_solver).
    lia.
  - apply set_choose_L in Hne as [x Hx]. exists x. set_solver.
Qed.

(** [std::uniform_int_distribution<int>(a, b)] applied to raw engine output. *)
Definition uniform_int (a b r : N) : N := (a + r mod (b - a + 1))%N.

Lemma uniform_int_range (a b r : N) :
  (a ≤ b)%N → (a ≤ uniform_int a b r ≤ b)%N.
Proof.
  intros Hab. unfold uniform_int.
  assert (r mod (b - a + 1) < b - a + 1)%N as Hm by (apply N.mod_lt; lia).
  generalize dependent (r mod (b - a + 1))%N. lia.
Qed.
