(* ===== verification/MsgQueue.v ===== *)
(** [MessageQueue] of [inc/toolings/msg_queue.hpp]: the channel between a Raft
    node and the consumer of its committed entries, with the two condition
    variables and the threads that block on them.

    A step is one critical section of [mutex_]: a call, or the continuation of a
    thread that was woken up.  A thread that finds its predicate false goes to
    sleep in the same step, as [std::condition_variable::wait] does; [close]
    sets the atomic flag in one step and notifies in the next. *)
From S2P Require Import Prelude.

#[local] Open Scope N_scope.

Module Queue.

Section queue.
Context {T : Type}.

Record MessageQueue := mkMessageQueue {
  buffer_size_ : N;
  closed_ : bool;
  queue_ : list T }.

(** The constructor. *)
Definition MessageQueue_init (buffer_size : N) : MessageQueue :=
  mkMessageQueue buffer_size false [].

(** The predicates of the waits: in [enqueue] before and after the push, and
    in [dequeue]. *)
Definition may_push (q : MessageQueue) : bool :=
  if buffer_size_ q =? 0 then (vsize (queue_ q) =? 0) || closed_ q
  else (vsize (queue_ q) <? buffer_size_ q) || closed_ q.
Definition handed_over (q : MessageQueue) : bool := (vsize (queue_ q) =? 0) || closed_ q.
Definition may_pop (q : MessageQueue) : bool := negb (vsize (queue_ q) =? 0) || closed_ q.

Definition push (v : T) (q : MessageQueue) : MessageQueue :=
  mkMessageQueue (buffer_size_ q) (closed_ q) (queue_ q ++ [v]).

(** [queue_.front()] and [queue_.pop()]. *)
Definition pop (q : MessageQueue) : option (T * MessageQueue) :=
  match queue_ q with
  | [] => None
  | v :: vs => Some (v, mkMessageQueue (buffer_size_ q) (closed_ q) vs)
  end.

(** [try_dequeue]: the value, or nothing when the queue is empty. *)
Definition try_dequeue (q : MessageQueue) : option T * MessageQueue :=
  match pop q with Some (v, q') => (Some v, q') | None => (None, q) end.

Definition empty (q : MessageQueue) : bool := vsize (queue_ q) =? 0.
Definition size (q : MessageQueue) : N := vsize (queue_ q).

(** ** Threads

    [asleep] is set while the thread sleeps on its condition variable:
    [prod_ready_] for the two waits of [enqueue], [con_ready_] for the wait of
    [dequeue]. *)
Inductive thread :=
| Idle
| Pushing (v : T) (asleep : bool)
| Handing (asleep : bool)
| Popping (asleep : bool)
| Closing.

(** What a call returns; [None] stands for the [T{}] of a closed queue. *)
Inductive result := RUnit | RValue (v : option T).

(** [pushed] and [popped] record the traffic, oldest first. *)
Record state := mkState {
  mq : MessageQueue;
  threads : gmap N thread;
  returned : list (N * result);
  pushed : list T;
  popped : list T }.

(** [prod_ready_.notify_all()] and [con_ready_.notify_all()]. *)
Definition wake_prod (t : thread) : thread :=
  match t with
  | Pushing v _ => Pushing v false
  | Handing _ => Handing false
  | _ => t
  end.
Definition wake_con (t : thread) : thread :=
  match t with Popping _ => Popping false | _ => t end.

Definition goto (i : N) (t : thread) (s : state) : state :=
  mkState (mq s) (<[i := t]> (threads s)) (returned s) (pushed s) (popped s).
Definition return_ (i : N) (r : result) (s : state) : state :=
  mkState (mq s) (<[i := Idle]> (threads s)) (returned s ++ [(i, r)]) (pushed s) (popped s).
Definition notify (wake : thread → thread) (s : state) : state :=
  mkState (mq s) (wake <$> threads s) (returned s) (pushed s) (popped s).

(** The second wait of [enqueue]. *)
Definition hand_over (i : N) (s : state) : state :=
  if handed_over (mq s) then return_ i RUnit s else goto i (Handing true) s.

(** [enqueue] from its first wait on. *)
Definition enqueue (i : N) (v : T) (s : state) : state :=
  if may_push (mq s) then
    if closed_ (mq s) then return_ i RUnit s
    else
      let s := notify wake_con
                 (mkState (push v (mq s)) (threads s) (returned s)
                    (pushed s ++ [v]) (popped s)) in
      if buffer_size_ (mq s) =? 0 then hand_over i s else return_ i RUnit s
  else goto i (Pushing v true) s.

(** [dequeue] from its wait on. *)
Definition dequeue (i : N) (s : state) : state :=
  if may_pop (mq s) then
    if closed_ (mq s) then return_ i (RValue None) s
    else match pop (mq s) with
         | Some (v, q) =>
             return_ i (RValue (Some v))
               (notify wake_prod
                  (mkState q (threads s) (returned s) (pushed s) (popped s ++ [v])))
         | None => s
         end
  else goto i (Popping true) s.

(** [try_dequeue] as a step: it notifies nobody. *)
Definition try_dequeue_step (i : N) (s : state) : state :=
  let '(v, q) := try_dequeue (mq s) in
  return_ i (RValue v)
    (mkState q (threads s) (returned s) (pushed s) (popped s ++ option_list v)).

(** [close], up to the exchange of the flag and after it. *)
Definition close (i : N) (s : state) : state :=
  if closed_ (mq s) then return_ i RUnit s
  else goto i Closing
         (mkState (mkMessageQueue (buffer_size_ (mq s)) true (queue_ (mq s)))
            (threads s) (returned s) (pushed s) (popped s)).
Definition close_notify (i : N) (s : state) : state :=
  return_ i RUnit (notify wake_con (notify wake_prod s)).

(** The destructor closes a queue that is open. *)
Definition destroy (i : N) (s : state) : state :=
  if closed_ (mq s) then return_ i RUnit s else close i s.

(** Move assignment from another queue, and the move constructor, whose members have
    their initial values ([b0] for the uninitialised size).  The queue that was moved
    from holds an unspecified [rest]; [closed_] is not carried over. *)
Definition move_assign (rest : list T) (this other : MessageQueue) : MessageQueue * MessageQueue :=
  (mkMessageQueue (buffer_size_ other) (closed_ this) (queue_ other),
   mkMessageQueue 0 false rest).
Definition move_init (rest : list T) (b0 : N) (other : MessageQueue) : MessageQueue * MessageQueue :=
  move_assign rest (mkMessageQueue b0 false []) other.

(** The assignment as a step of the threads of [this]: it notifies nobody. *)
Definition move_step (rest : list T) (other : MessageQueue) (s : state) : state * MessageQueue :=
  let '(this, other) := move_assign rest (mq s) other in
  (mkState this (threads s) (returned s) (pushed s) (popped s), other).

(** ** Steps *)

Inductive label :=
| CallEnqueue (i : N) (v : T)
| CallDequeue (i : N)
| CallTryDequeue (i : N)
| CallClose (i : N)
| Resume (i : N)
| Spurious (i : N).

Definition actor (l : label) : N :=
  match l with
  | CallEnqueue i _ | CallDequeue i | CallTryDequeue i | CallClose i
  | Resume i | Spurious i => i
  end.

(** A call starts on an idle thread; a thread that is awake resumes; a
    sleeping thread may wake up for no reason. *)
Definition step (l : label) (s : state) : option state :=
  t ← threads s !! actor l;
  match l, t with
  | CallEnqueue i v, Idle => Some (enqueue i v s)
  | CallDequeue i, Idle => Some (dequeue i s)
  | CallTryDequeue i, Idle => Some (try_dequeue_step i s)
  | CallClose i, Idle => Some (close i s)
  | Resume i, Pushing v false => Some (enqueue i v s)
  | Resume i, Handing false => Some (hand_over i s)
  | Resume i, Popping false => Some (dequeue i s)
  | Resume i, Closing => Some (close_notify i s)
  | Spurious i, Pushing _ _ => Some (goto i (wake_prod t) s)
  | Spurious i, Handing _ => Some (goto i (wake_prod t) s)
  | Spurious i, Popping _ => Some (goto i (wake_con t) s)
  | _, _ => None
  end.

Definition start (buffer_size : N) (n : nat) : state :=
  mkState (MessageQueue_init buffer_size)
    (list_to_map ((λ i, (N.of_nat i, Idle)) <$> seq 0 n)) [] [] [].

Fixpoint run (ls : list label) (s : state) : option state :=
  match ls with [] => Some s | l :: ls => s ← step l s; run ls s end.
End queue.

#[global] Arguments MessageQueue : clear implicits.
#[global] Arguments thread : clear implicits.
#[global] Arguments result : clear implicits.
#[global] Arguments state : clear implicits.
#[global] Arguments label : clear implicits.

Section facts.
Context {T : Type}.
Implicit Types (q : MessageQueue T) (s : state T) (t : thread T) (l : label T).

(** ** Traffic: first in, first out, and never more than the buffer *)

Record traffic s : Prop := {
  tr_fifo : pushed s = popped s ++ queue_ (mq s);
  tr_bound : vsize (queue_ (mq s)) ≤ N.max 1 (buffer_size_ (mq s)) }.

Lemma traffic_frame s s' :
  mq s' = mq s → pushed s' = pushed s → popped s' = popped s → traffic s → traffic s'.
Proof. intros E1 E2 E3 [H1 H2]. split; rewrite E1; [by rewrite E2, E3|done]. Qed.

Lemma may_push_room q : may_push q = true → closed_ q = false →
  vsize (queue_ q) < N.max 1 (buffer_size_ q).
Proof.
  unfold may_push. intros Hp Hc. rewrite Hc, !orb_false_r in Hp.
  destruct (N.eqb_spec (buffer_size_ q) 0); bool_to_prop; lia.
Qed.

Lemma pop_Some q v q' : pop q = Some (v, q') →
  queue_ q = v :: queue_ q' ∧ buffer_size_ q' = buffer_size_ q ∧ closed_ q' = closed_ q.
Proof. unfold pop. destruct (queue_ q) eqn:E; intros H; simplify_eq. done. Qed.

Lemma traffic_hand i s : traffic s → traffic (hand_over i s).
Proof. intros H. unfold hand_over. case_guards; by apply (traffic_frame s). Qed.

Lemma traffic_enqueue i v s : traffic s → traffic (enqueue i v s).
Proof.
  intros H. unfold enqueue. destruct (may_push (mq s)) eqn:Hp; [|by apply (traffic_frame s)].
  destruct (closed_ (mq s)) eqn:Hc; [by apply (traffic_frame s)|].
  pose proof (may_push_room _ Hp Hc) as Hroom. destruct H as [Hf Hb].
  assert (traffic (notify wake_con (mkState (push v (mq s)) (threads s) (returned s)
            (pushed s ++ [v]) (popped s)))) as Ht.
  { split; simpl; [by rewrite Hf, app_assoc|]. rewrite vsize_app, vsize_cons, vsize_nil. lia. }
  case_match; [by apply traffic_hand|by eapply traffic_frame, Ht].
Qed.

Lemma traffic_dequeue i s : traffic s → traffic (dequeue i s).
Proof.
  intros H. unfold dequeue. destruct (may_pop (mq s)); [|by apply (traffic_frame s)].
  destruct (closed_ (mq s)); [by apply (traffic_frame s)|].
  destruct (pop (mq s)) as [[v q]|] eqn:Hq; [|done].
  apply pop_Some in Hq as (Hq & Hb & _). destruct H as [Hf Hbd].
  rewrite Hq in Hf, Hbd. rewrite vsize_cons in Hbd.
  split; simpl; [by rewrite Hf, <- app_assoc|]. rewrite Hb. lia.
Qed.

Lemma traffic_try i s : traffic s → traffic (try_dequeue_step i s).
Proof.
  intros [Hf Hb]. unfold try_dequeue_step, try_dequeue.
  destruct (pop (mq s)) as [[v q]|] eqn:Hq; [|split; simpl; [by rewrite app_nil_r|done]].
  apply pop_Some in Hq as (Hq & Hbd & _). rewrite Hq in Hf, Hb. rewrite vsize_cons in Hb.
  split; simpl; [by rewrite Hf, <- app_assoc|]. rewrite Hbd. lia.
Qed.

Lemma traffic_step l s s' : step l s = Some s' → traffic s → traffic s'.
Proof.
  intros Hs H. unfold step in Hs. undo_bind. case_match; case_match; case_guards; simplify_eq;
    eauto using traffic_enqueue, traffic_dequeue, traffic_try, traffic_hand;
    try (by apply (traffic_frame s)).
  unfold close. case_guards; [by apply (traffic_frame s)|by destruct H].
Qed.

(** ** No lost wake-up

    A sleeping thread has a false predicate, unless a [close] is between its two
    steps.  [try_dequeue] is excluded: it makes room and notifies nobody. *)

Definition sleeps t : bool :=
  match t with
  | Pushing _ b | Handing b | Popping b => b
  | _ => false
  end.

(** The predicate that the thread waits for. *)
Definition waits_for q t : bool :=
  match t with
  | Pushing _ _ => may_push q
  | Handing _ => handed_over q
  | Popping _ => may_pop q
  | _ => true
  end.

Definition rests q t : Prop := sleeps t = true → waits_for q t = false.

Definition no_lost_wakeup s : Prop :=
  (∃ j, threads s !! j = Some Closing ∧ closed_ (mq s) = true) ∨
  map_Forall (λ _ t, rests (mq s) t) (threads s).

Lemma wakes q t : closed_ q = true → rests q t → sleeps t = false.
Proof.
  intros Hc Hr. destruct t as [|v []|[]|[]|]; try done; specialize (Hr eq_refl); simpl in Hr;
    unfold may_push, handed_over, may_pop in Hr; rewrite Hc in Hr;
    rewrite ?orb_true_r in Hr; [|done|done]. by case_match.
Qed.

Lemma sleeps_wake_prod t : sleeps (wake_prod t) = true → sleeps t = true ∧ ∃ b, t = Popping b.
Proof. destruct t; naive_solver. Qed.

Lemma sleeps_wake_con t : sleeps (wake_con t) = true →
  sleeps t = true ∧ ((∃ v b, t = Pushing v b) ∨ ∃ b, t = Handing b).
Proof. destruct t; naive_solver. Qed.

(** The two ways in which a step of thread [i] ends. *)
Lemma rests_insert q i t (ts : gmap N (thread T)) :
  rests q t → map_Forall (λ _ t, rests q t) ts → map_Forall (λ _ t, rests q t) (<[i := t]> ts).
Proof. intros. by apply map_Forall_insert_2. Qed.

Lemma rests_idle q : rests q Idle.
Proof. done. Qed.

(** After a push the sleepers are producers, and the queue is not empty. *)
Lemma rests_after_push q v (ts : gmap N (thread T)) :
  may_push q = true → closed_ q = false →
  map_Forall (λ _ t, rests q t) ts →
  map_Forall (λ _ t, rests (push v q) t) (wake_con <$> ts).
Proof.
  intros Hp Hc Hts i t Ht. apply lookup_fmap_Some in Ht as (u & <- & Hu).
  intros Hs. apply sleeps_wake_con in Hs as [Hs [(w & b & ->)|(b & ->)]].
  - specialize (Hts _ _ Hu Hs). simpl in Hts. congruence.
  - simpl. unfold handed_over. simpl. rewrite Hc, vsize_app, vsize_cons, orb_false_r.
    apply N.eqb_neq. lia.
Qed.

(** After a pop the sleepers would be consumers, but the queue was not empty. *)
Lemma rests_after_pop q q' (ts : gmap N (thread T)) :
  may_pop q = true → map_Forall (λ _ t, rests q t) ts →
  map_Forall (λ _ t, rests q' t) (wake_prod <$> ts).
Proof.
  intros Hp Hts i t Ht. apply lookup_fmap_Some in Ht as (u & <- & Hu).
  intros Hs. apply sleeps_wake_prod in Hs as [Hs [b ->]].
  specialize (Hts _ _ Hu Hs). simpl in Hts. congruence.
Qed.

Lemma rests_hand i s :
  map_Forall (λ _ t, rests (mq s) t) (threads s) →
  map_Forall (λ _ t, rests (mq (hand_over i s)) t) (threads (hand_over i s)).
Proof.
  intros H. unfold hand_over. destruct (handed_over (mq s)) eqn:Hh; simpl;
    apply rests_insert; try done. by intros _.
Qed.

Lemma rests_enqueue i v s :
  map_Forall (λ _ t, rests (mq s) t) (threads s) →
  map_Forall (λ _ t, rests (mq (enqueue i v s)) t) (threads (enqueue i v s)).
Proof.
  intros H. unfold enqueue. destruct (may_push (mq s)) eqn:Hp.
  - destruct (closed_ (mq s)) eqn:Hc; [by apply rests_insert|].
    pose proof (rests_after_push (mq s) v _ Hp Hc H) as Hpush.
    case_match; [by apply rests_hand|by apply rests_insert].
  - apply rests_insert; [|done]. by intros _.
Qed.

Lemma rests_dequeue i s :
  map_Forall (λ _ t, rests (mq s) t) (threads s) →
  map_Forall (λ _ t, rests (mq (dequeue i s)) t) (threads (dequeue i s)).
Proof.
  intros H. unfold dequeue. destruct (may_pop (mq s)) eqn:Hp.
  - destruct (closed_ (mq s)) eqn:Hc; [by apply rests_insert|].
    destruct (pop (mq s)) as [[v q]|] eqn:Hq; [|done].
    apply rests_insert; [done|]. by apply (rests_after_pop (mq s)).
  - apply rests_insert; [|done]. by intros _.
Qed.

Lemma rests_close_notify i s :
  map_Forall (λ _ t, rests (mq (close_notify i s)) t) (threads (close_notify i s)).
Proof.
  apply rests_insert; [done|]. intros j t Ht. simpl in Ht.
  rewrite !lookup_fmap in Ht. destruct (threads s !! j) as [[]|]; simpl in Ht; by simplify_eq.
Qed.

(** A [close] in progress is disturbed by no other thread. *)
Lemma closing_kept l s s' j :
  step l s = Some s' → actor l ≠ j → threads s !! j = Some Closing → closed_ (mq s) = true →
  threads s' !! j = Some Closing ∧ closed_ (mq s') = true.
Proof.
  intros Hs Hne Hj Hc. unfold step in Hs. undo_bind.
  assert (∀ i t (ts : gmap N (thread T)), i ≠ j → ts !! j = Some Closing →
    <[i := t]> ts !! j = Some Closing) as Hkeep by (intros; by rewrite lookup_insert_ne).
  case_match; simpl in *; case_match; case_guards; simplify_eq;
    unfold enqueue, dequeue, hand_over, try_dequeue_step, try_dequeue, close, close_notify;
    rewrite ?Hc; unfold may_push, may_pop, handed_over; rewrite ?Hc, ?orb_true_r;
    repeat case_match; simplify_eq; simpl; split; auto;
    try (apply Hkeep; [done|]); rewrite ?lookup_fmap, ?Hj; try done.
  all: by apply pop_Some in H1 as (_ & _ & ->).
Qed.

Definition no_try l : bool := match l with CallTryDequeue _ => false | _ => true end.

Lemma wakeup_step l s s' :
  step l s = Some s' → no_try l = true → no_lost_wakeup s → no_lost_wakeup s'.
Proof.
  intros Hs Hl [(j & Hj & Hc)|H].
  - destruct (decide (actor l = j)) as [<-|Hne].
    + right. unfold step in Hs. rewrite Hj in Hs. simpl in Hs. destruct l; simplify_eq.
      apply rests_close_notify.
    + left. exists j. by eapply closing_kept.
  - unfold step in Hs. undo_bind. case_match; case_match; case_guards; simplify_eq;
      try (by right; eauto using rests_enqueue, rests_dequeue, rests_hand, rests_close_notify);
      try (by right; apply rests_insert).
    unfold close. destruct (closed_ (mq s)) eqn:Hc; [right; by apply rests_insert|].
    left. exists i. simpl. by rewrite lookup_insert_eq.
Qed.

Lemma run_invariant (P : state T → Prop) (ok : label T → bool) ls : ∀ s s',
  (∀ l s s', step l s = Some s' → ok l = true → P s → P s') →
  forallb ok ls = true → run ls s = Some s' → P s → P s'.
Proof.
  induction ls as [|l ls IH]; intros s s' Hstep Hok Hrun HP; simpl in *; [by simplify_eq|].
  undo_bind. bool_to_prop. eauto.
Qed.

Lemma start_threads b n i t : threads (start (T:=T) b n) !! i = Some t → t = Idle.
Proof.
  intros H. apply elem_of_list_to_map_2, list_elem_of_fmap in H as (k & E & _). by simplify_eq.
Qed.

Lemma traffic_start b n : traffic (start (T:=T) b n).
Proof. split; simpl; [done|]. rewrite vsize_nil. lia. Qed.

Lemma wakeup_start b n : no_lost_wakeup (start (T:=T) b n).
Proof. right. intros i t ->%start_threads. done. Qed.

(** ** The channel *)

(** C27: values leave the queue in the order in which they entered, each at most
    once, and the queue never holds more values than its buffer, or than one if it is
    unbuffered, whatever the calls, wake-ups and closes are. *)
Theorem queue_fifo_bounded b n ls s :
  run ls (start b n) = Some s →
  pushed s = popped s ++ queue_ (mq s) ∧ vsize (queue_ (mq s)) ≤ N.max 1 (buffer_size_ (mq s)).
Proof.
  intros Hrun. cut (traffic s); [by intros []|].
  eapply (run_invariant traffic (λ _, true)); [|by apply forallb_forall|exact Hrun|apply traffic_start].
  intros. by eapply traffic_step.
Qed.

Lemma wakeup_run b n ls s i t :
  forallb no_try ls = true → run ls (start b n) = Some s →
  (∀ j, threads s !! j ≠ Some Closing) →
  threads s !! i = Some t → sleeps t = true → waits_for (mq s) t = false.
Proof.
  intros Hok Hrun Hopen Ht Hs.
  assert (no_lost_wakeup s) as [(j & Hj & _)|H].
  { eapply (run_invariant no_lost_wakeup no_try); eauto using wakeup_step, wakeup_start. }
  - by destruct (Hopen j).
  - by eapply H.
Qed.

(** C28: as long as consumers use [dequeue], no thread sleeps through its
    wake-up and the two sides never wait for each other: when no [close] is half
    done, a sleeping thread waits for a condition that is false, a sleeping
    producer leaves a value to take and a sleeping consumer room to push. *)
Theorem queue_no_lost_wakeup b n ls s i t :
  forallb no_try ls = true → run ls (start b n) = Some s →
  (∀ j, threads s !! j ≠ Some Closing) →
  threads s !! i = Some t → sleeps t = true →
  waits_for (mq s) t = false ∧
  match t with Popping _ => may_push (mq s) = true | _ => may_pop (mq s) = true end.
Proof.
  intros Hok Hrun Hopen Ht Hs.
  pose proof (wakeup_run b n ls s i t Hok Hrun Hopen Ht Hs) as Hw.
  split; [done|]. destruct t as [|v []|[]|[]|]; try done; simpl in Hw;
    unfold may_push, handed_over, may_pop in *; revert Hw;
    destruct (closed_ (mq s)); rewrite ?orb_true_r, ?orb_false_r; try done.
  - case_match; [by intros ->|]. bool_to_prop. intros Hge%N.ltb_ge.
    apply negb_true_iff, N.eqb_neq. lia.
  - by intros ->.
  - intros Hz%negb_false_iff. case_match; [done|]. bool_to_prop. apply N.ltb_lt. lia.
Qed.

(** Where an [enqueue] can return, with the queue open and unbuffered. *)
Lemma hand_over_returns i s :
  returned (hand_over i s) ≠ returned s → closed_ (mq s) = false → queue_ (mq s) = [].
Proof.
  unfold hand_over, handed_over. intros Hret Hc. rewrite Hc, orb_false_r in Hret.
  destruct (N.eqb_spec (vsize (queue_ (mq s))) 0) as [Hz|]; [|done].
  apply length_zero_iff_nil. unfold vsize in Hz. lia.
Qed.

Lemma enqueue_returns i v s :
  returned (enqueue i v s) ≠ returned s → closed_ (mq s) = false → buffer_size_ (mq s) = 0 →
  queue_ (mq (enqueue i v s)) = [].
Proof.
  unfold enqueue. intros Hret Hc Hb. rewrite Hc in *. destruct (may_push (mq s)); [|done].
  simpl in *. rewrite Hb in *. simpl in *.
  match type of Hret with returned (hand_over i ?t) ≠ _ =>
    assert (queue_ (mq t) = []) as Hq by (by apply (hand_over_returns i)) end.
  simpl in Hq. by destruct (queue_ (mq s)).
Qed.

(** An unbuffered [enqueue] is a rendezvous: the step in which it returns
    leaves a queue whose values have all been taken, unless it is closed. *)
Lemma queue_rendezvous b n ls s i v s' :
  run ls (start b n) = Some s →
  (step (CallEnqueue i v) s = Some s' ∨
   step (Resume i) s = Some s' ∧
     (threads s !! i = Some (Pushing v false) ∨ threads s !! i = Some (Handing false))) →
  returned s' ≠ returned s →
  buffer_size_ (mq s) = 0 → closed_ (mq s) = false → pushed s' = popped s'.
Proof.
  intros Hrun Hs Hret Hb Hc.
  assert (traffic s) as Ht.
  { eapply (run_invariant traffic (λ _, true));
      [|by apply forallb_forall|exact Hrun|apply traffic_start]. eauto using traffic_step. }
  assert (s' = enqueue i v s ∨ s' = hand_over i s) as Hs'.
  { destruct Hs as [Hs|[Hs [Hi|Hi]]]; unfold step in Hs; simpl in Hs; [|rewrite Hi in Hs..];
      undo_bind; case_guards; simplify_eq; auto. by case_match; simplify_eq; left. }
  destruct Hs' as [->| ->].
  - rewrite (tr_fifo _ (traffic_enqueue i v s Ht)), enqueue_returns by done.
    by rewrite app_nil_r.
  - pose proof (hand_over_returns _ _ Hret Hc) as Hq.
    rewrite (tr_fifo _ (traffic_hand i s Ht)). unfold hand_over.
    case_match; simpl; by rewrite Hq, app_nil_r.
Qed.

End facts.

(** ** Executions *)

(** A producer fills a buffer of one, sleeps on the next value, and is served. *)
Definition fill_and_serve : list (label N) :=
  [CallEnqueue 0 10; CallEnqueue 0 20; CallDequeue 1; Resume 0; CallDequeue 1].

Lemma queue_fifo_bounded_witness :
  ∃ s, run fill_and_serve (start 1 2) = Some s ∧ popped s = [10; 20] ∧
       pushed s = popped s ++ queue_ (mq s) ∧
       vsize (queue_ (mq s)) ≤ N.max 1 (buffer_size_ (mq s)).
Proof.
  eexists. split; [vm_compute; reflexivity|]. split; [reflexivity|].
  apply (queue_fifo_bounded 1 2 fill_and_serve). vm_compute; reflexivity.
Defined.

Lemma queue_no_lost_wakeup_witness :
  ∃ s, run (take 2 fill_and_serve) (start 1 2) = Some s ∧
       waits_for (mq s) (Pushing 20 true) = false ∧ may_pop (mq s) = true.
Proof.
  eexists. split; [vm_compute; reflexivity|].
  apply (queue_no_lost_wakeup 1 2 (take 2 fill_and_serve) _ 0 (Pushing 20 true));
    [reflexivity|vm_compute; reflexivity| |reflexivity|reflexivity].
  intros j Hj%elem_of_map_to_list%list_elem_of_In. vm_compute in Hj. intuition discriminate.
Defined.

(** An unbuffered hand-over: the producer sleeps until its value is taken. *)
Definition hand_over_run : list (label N) := [CallEnqueue 0 10; CallDequeue 1].

Lemma queue_rendezvous_witness :
  ∃ s s', run hand_over_run (start 0 2) = Some s ∧ step (Resume 0) s = Some s' ∧
          pushed s' = [10] ∧ pushed s' = popped s'.
Proof.
  do 2 eexists. split; [vm_compute; reflexivity|]. split; [vm_compute; reflexivity|].
  split; [reflexivity|].
  eapply (queue_rendezvous 0 2 hand_over_run _ 0 10);
    [vm_compute; reflexivity| |discriminate|reflexivity|reflexivity].
  right. split; [vm_compute; reflexivity|right; reflexivity].
Defined.

(** [try_dequeue] makes room but leaves the producer asleep. *)
Lemma try_dequeue_loses_wakeup :
  ∃ s, run [CallEnqueue 0 10; CallEnqueue 0 20; CallTryDequeue 1] (start 1 2) = Some s ∧
       threads s !! 0 = Some (Pushing 20 true) ∧ may_push (mq s) = true.
Proof. eexists. split; [vm_compute; reflexivity|]. done. Qed.

(** A moved queue keeps its values, their order and its capacity, so it stays within the
    bound. *)
Lemma move_keeps_values {T} rest b0 (q : MessageQueue T) :
  let q' := (move_init rest b0 q).1 in
  queue_ q' = queue_ q ∧ buffer_size_ q' = buffer_size_ q ∧
  (vsize (queue_ q) ≤ N.max 1 (buffer_size_ q) → vsize (queue_ q') ≤ N.max 1 (buffer_size_ q')).
Proof. done. Qed.

(** But it is open again, and so is the queue that it was moved from. *)
Lemma move_reopens {T} rest b0 (q : MessageQueue T) :
  closed_ (move_init rest b0 q).1 = false ∧ closed_ (move_init rest b0 q).2 = false.
Proof. done. Qed.

(** A consumer that sleeps on an empty queue is not woken when a queue with values is
    moved into it. *)
Lemma move_loses_wakeup :
  ∃ s, run [CallDequeue 1] (start 4 2) = Some s ∧
    let s' := (move_step [] (mkMessageQueue 4 false [10]) s).1 in
    threads s' !! 1 = Some (Popping true) ∧ may_pop (mq s') = true.
Proof. eexists. split; [vm_compute; reflexivity|]. done. Qed.

(** A closed queue gives up the values it still holds. *)
Lemma close_drops_values :
  ∃ s, run [CallEnqueue 0 10; CallClose 0; Resume 0; CallDequeue 1] (start 4 2) = Some s ∧
       returned s = [(0, RUnit); (0, RUnit); (1, RValue None)] ∧ queue_ (mq s) = [10].
Proof. eexists. split; [vm_compute; reflexivity|]. done. Qed.
End Queue.
