(* ===== verification/PeerWorker.v ===== *)
(** The worker thread of a peer: [Raft::PeerWorker] of [inc/rafty/raft.hpp], the
    loop that [connect_peers] starts for it ([inc/rafty/impl/raft.ipp]) and the
    two waits of [send_heartbeats] on it ([src/raft.cpp]).

    The poster (the thread of [run]) and the worker share one condition variable
    and use [notify_one].  A step is one critical section of [w.mtx], or the
    execution of the task outside of it; a task is named by a number. *)
From S2P Require Import Prelude.

#[local] Open Scope N_scope.

Module Worker.

Record PeerWorker := mkPeerWorker {
  task : option N;
  has_task : bool;
  done : bool;
  stop : bool }.

Definition PeerWorker_init : PeerWorker := mkPeerWorker None false true false.

(** The worker: before its wait, asleep in it, running a task, after the task,
    gone. *)
Inductive worker_pc := WTop | WSleep | WTask (k : N) | WAfter | WExit.

(** The poster: before and asleep in the wait that precedes the hand-over, and
    before and asleep in the wait for the result. *)
Inductive poster_pc := PIdle | PTop (k : N) | PSleep1 (k : N) | PPosted (k : N) | PSleep2 (k : N).

(** [executed] and [returned] record the tasks that ran and the hand-overs that
    completed. *)
Record state := mkState {
  w : PeerWorker;
  wpc : worker_pc;
  ppc : poster_pc;
  executed : list N;
  returned : list N }.

Definition wake_worker (p : worker_pc) : worker_pc :=
  match p with WSleep => WTop | _ => p end.
Definition wake_poster (p : poster_pc) : poster_pc :=
  match p with PSleep1 k => PTop k | PSleep2 k => PPosted k | _ => p end.

Definition asleep_poster (p : poster_pc) : bool :=
  match p with PSleep1 _ | PSleep2 _ => true | _ => false end.

Definition asleep_worker (p : worker_pc) : bool :=
  match p with WSleep => true | _ => false end.

(** [cv.notify_one()]: one of the sleepers wakes up; [who] picks the poster when
    both sleep. *)
Definition notify_one (who : bool) (s : state) : state :=
  if asleep_poster (ppc s) && (who || negb (asleep_worker (wpc s)))
  then mkState (w s) (wpc s) (wake_poster (ppc s)) (executed s) (returned s)
  else mkState (w s) (wake_worker (wpc s)) (ppc s) (executed s) (returned s).

(** The worker from the top of its loop; [None] is the call of an empty
    [std::function]. *)
Definition worker_section (s : state) : option state :=
  let pw := w s in
  if negb (has_task pw || stop pw)
  then Some (mkState pw WSleep (ppc s) (executed s) (returned s))
  else if stop pw then Some (mkState pw WExit (ppc s) (executed s) (returned s))
  else k ← task pw;
       Some (mkState (mkPeerWorker None false (done pw) (stop pw)) (WTask k) (ppc s)
               (executed s) (returned s)).

(** The worker after its task. *)
Definition worker_done (s : state) : state :=
  let pw := w s in
  let s := notify_one true
             (mkState (mkPeerWorker (task pw) (has_task pw) true (stop pw)) (wpc s) (ppc s)
                (executed s) (returned s)) in
  mkState (w s) WTop (ppc s) (executed s) (returned s).

(** The hand-over in [send_heartbeats]. *)
Definition post (k : N) (s : state) : state :=
  let pw := w s in
  if done pw then
    notify_one false
      (mkState (mkPeerWorker (Some k) true false (stop pw)) (wpc s) (PPosted k)
         (executed s) (returned s))
  else mkState pw (wpc s) (PSleep1 k) (executed s) (returned s).

(** The wait for the result. *)
Definition await (k : N) (s : state) : state :=
  if done (w s)
  then mkState (w s) (wpc s) PIdle (executed s) (returned s ++ [k])
  else mkState (w s) (wpc s) (PSleep2 k) (executed s) (returned s).

(** [kill]: set [stop] and notify. *)
Definition stop_worker (who : bool) (s : state) : state :=
  let pw := w s in
  notify_one who
    (mkState (mkPeerWorker (task pw) (has_task pw) (done pw) true) (wpc s) (ppc s)
       (executed s) (returned s)).

Inductive label := Begin (k : N) | RunPoster | RunWorker | Kill (who : bool)
                 | SpuriousPoster | SpuriousWorker.

Inductive outcome := Next (s : state) | Undefined | Disabled.

Definition step (l : label) (s : state) : outcome :=
  match l with
  | Begin k =>
      match ppc s with
      | PIdle => Next (mkState (w s) (wpc s) (PTop k) (executed s) (returned s))
      | _ => Disabled
      end
  | RunPoster =>
      match ppc s with
      | PTop k => Next (post k s)
      | PPosted k => Next (await k s)
      | _ => Disabled
      end
  | RunWorker =>
      match wpc s with
      | WTop => match worker_section s with Some s' => Next s' | None => Undefined end
      | WTask k => Next (mkState (w s) WAfter (ppc s) (executed s ++ [k]) (returned s))
      | WAfter => Next (worker_done s)
      | _ => Disabled
      end
  | Kill who => Next (stop_worker who s)
  | SpuriousPoster =>
      if asleep_poster (ppc s)
      then Next (mkState (w s) (wpc s) (wake_poster (ppc s)) (executed s) (returned s))
      else Disabled
  | SpuriousWorker =>
      match wpc s with
      | WSleep => Next (mkState (w s) WTop (ppc s) (executed s) (returned s))
      | _ => Disabled
      end
  end.

Definition start : state := mkState PeerWorker_init WTop PIdle [] [].

Inductive reachable : state → Prop :=
| reach_start : reachable start
| reach_step l s s' : reachable s → step l s = Next s' → reachable s'.

Fixpoint run (ls : list label) (s : state) : option state :=
  match ls with
  | [] => Some s
  | l :: ls => match step l s with Next s' => run ls s' | _ => None end
  end.

Lemma run_reachable ls : ∀ s s', reachable s → run ls s = Some s' → reachable s'.
Proof.
  induction ls as [|l ls IH]; intros s s' Hs Hrun; simpl in Hrun; [by simplify_eq|].
  destruct (step l s) eqn:Hl; try done. eauto using reach_step.
Qed.

(** ** The hand-over protocol

    Either nothing is handed over, or a task waits for the worker, or the worker
    runs it, or it has run. *)
Definition phase (s : state) : Prop :=
  match wpc s, ppc s with
  | WTask k, PPosted j | WTask k, PSleep2 j =>
      k = j ∧ has_task (w s) = false ∧ done (w s) = false ∧ executed s = returned s
  | WAfter, PPosted j | WAfter, PSleep2 j =>
      has_task (w s) = false ∧ done (w s) = false ∧ executed s = returned s ++ [j]
  | WTask _, _ | WAfter, _ => False
  | _, PIdle | _, PTop _ =>
      has_task (w s) = false ∧ done (w s) = true ∧ executed s = returned s
  | _, PSleep1 _ => False
  | WSleep, PSleep2 _ => False
  | WSleep, PPosted j =>
      has_task (w s) = false ∧ done (w s) = true ∧ executed s = returned s ++ [j]
  | WTop, PSleep2 j | WExit, PSleep2 j =>
      has_task (w s) = true ∧ done (w s) = false ∧ task (w s) = Some j ∧
      executed s = returned s
  | _, PPosted j =>
      (has_task (w s) = true ∧ done (w s) = false ∧ task (w s) = Some j ∧ executed s = returned s) ∨
      (has_task (w s) = false ∧ done (w s) = true ∧ executed s = returned s ++ [j])
  end.

Record inv (s : state) : Prop := {
  inv_phase : phase s;
  inv_exit : wpc s = WExit → stop (w s) = true }.

Lemma worker_inv_step l s s' : inv s → step l s = Next s' → inv s'.
Proof.
  intros [Hph Hex] Hs. destruct s as [[t ht d st] wp pp ex re]. unfold phase in Hph.
  destruct wp, pp; simpl in Hph; try done;
    destruct ht, d; try (solve [intuition congruence]);
    destruct l as [| | |who| |], st; simpl in Hs; try done;
    try destruct who; try destruct t; simplify_eq/=; (split; [|done]); unfold phase; simpl;
    intuition congruence.
Qed.

(** Take the description of a phase apart. *)
Ltac split_phase :=
  repeat match goal with
  | H : _ ∧ _ |- _ => destruct H
  | H : _ ∨ _ |- _ => destruct H
  end.

Lemma worker_inv_reachable s : reachable s → inv s.
Proof. induction 1; eauto using worker_inv_step. by split. Qed.

(** A hand-over returns only after its own task has run: the completed
    hand-overs are the executed tasks, in order, but for a last one whose poster
    has not looked yet.  An empty task is never called. *)
Lemma handover_executed s :
  reachable s →
  (executed s = returned s ∨ ∃ k, executed s = returned s ++ [k] ∧
     (ppc s = PPosted k ∨ ppc s = PSleep2 k)) ∧
  ∀ l, step l s ≠ Undefined.
Proof.
  intros [Hph _]%worker_inv_reachable. destruct s as [[t ht d st] wp pp ex re].
  unfold phase in Hph. simpl in *. split.
  - destruct wp, pp; simpl in *; try done; split_phase; subst; eauto 10.
  - intros l. destruct wp, pp; simpl in Hph; try done; destruct l; simpl; try done;
      unfold worker_section; simpl; destruct ht, st; simpl; try done; split_phase; by subst.
Qed.

(** How far a round is from its end. *)
Definition rank (s : state) : nat :=
  match wpc s with
  | WTask _ => 5 | WAfter => 4
  | WTop => if has_task (w s) then 6 else 1
  | _ => 0
  end +
  match ppc s with PIdle => 0 | PTop _ => 10 | PSleep1 _ => 9 | PPosted _ => 2 | PSleep2 _ => 1 end.

Lemma round_step s l s' :
  inv s → stop (w s) = false → l = RunPoster ∨ l = RunWorker → step l s = Next s' →
  stop (w s') = false ∧ (rank s' < rank s)%nat.
Proof.
  intros [Hph Hex] Hst Hl Hs. destruct s as [[t ht d st] wp pp ex re]. unfold phase in Hph.
  simpl in Hst. subst st.
  destruct wp, pp; simpl in Hph; try done; destruct ht, d; try (solve [intuition congruence]);
    destruct Hl as [-> | ->]; simpl in Hs; try done; try destruct t; simplify_eq/=;
    unfold rank; simpl; (split; [done|lia]).
Qed.

Lemma round_enabled s :
  inv s → stop (w s) = false → ppc s ≠ PIdle →
  ∃ l s', (l = RunPoster ∨ l = RunWorker) ∧ step l s = Next s'.
Proof.
  intros [Hph Hex] Hst Hp. destruct s as [[t ht d st] wp pp ex re]. unfold phase in Hph.
  simpl in *. subst st. destruct pp; try done; destruct wp; try done;
    try (by eexists RunPoster, _; split; [left|]);
    try (by eexists RunWorker, _; split; [right|]).
  - destruct Hph as (-> & _ & -> & _). by eexists RunWorker, _; split; [right|].
  - by specialize (Hex eq_refl).
Qed.

(** As long as the node is not killed, a hand-over cannot be lost: from every
    reachable state the two threads, without spurious wake-ups, bring the poster
    back, and no order of their steps takes more than [rank s] of them. *)
Lemma handover_completes s :
  reachable s → stop (w s) = false →
  (∀ l s', l = RunPoster ∨ l = RunWorker → step l s = Next s' → (rank s' < rank s)%nat) ∧
  ∃ ls s', Forall (λ l, l = RunPoster ∨ l = RunWorker) ls ∧ (length ls ≤ rank s)%nat ∧
           run ls s = Some s' ∧ ppc s' = PIdle.
Proof.
  intros Hinv%worker_inv_reachable Hst. split.
  { intros l s' Hl Hs. by apply (round_step s l s'). }
  remember (rank s) as m eqn:Hm. revert s Hm Hinv Hst.
  induction m as [m IH] using lt_wf_ind. intros s -> Hinv Hst.
  destruct (ppc s) eqn:Hp; [by exists [], s; split_and!; simpl; [|lia|..]|..];
    (destruct (round_enabled s Hinv Hst ltac:(by rewrite Hp)) as (l & s1 & Hl & Hs);
     destruct (round_step s l s1 Hinv Hst Hl Hs) as [Hst1 Hlt];
     destruct (IH (rank s1) Hlt s1) as (ls & s' & Hls & Hlen & Hrun & Hidle);
       [done|by eapply worker_inv_step|done|];
     exists (l :: ls), s'; split_and!; [by constructor|simpl; lia|by simpl; rewrite Hs|done]).
Qed.

(** ** Executions *)

(** One round, in which the poster waits for the worker. *)
Definition one_round : list label :=
  [RunWorker; Begin 7; RunPoster; RunPoster; RunWorker; RunWorker; RunWorker; RunPoster].

Lemma handover_executed_witness :
  ∃ s, run one_round start = Some s ∧ returned s = [7] ∧
    (executed s = returned s ∨ ∃ k, executed s = returned s ++ [k] ∧
       (ppc s = PPosted k ∨ ppc s = PSleep2 k)).
Proof.
  eexists. split; [vm_compute; reflexivity|]. split; [reflexivity|].
  apply handover_executed. eapply (run_reachable one_round start); [constructor|].
  vm_compute. reflexivity.
Defined.

Lemma handover_completes_witness :
  ∃ s ls s', run (take 4 one_round) start = Some s ∧ ppc s = PSleep2 7 ∧
    run ls s = Some s' ∧ ppc s' = PIdle.
Proof.
  eexists. destruct (handover_completes
    (mkState (mkPeerWorker (Some 7) true false false) WTop (PSleep2 7) [] [])) as [_ H].
  - eapply (run_reachable (take 4 one_round) start); [constructor|]. vm_compute. reflexivity.
  - reflexivity.
  - destruct H as (ls & s' & _ & _ & Hrun & Hidle). exists ls, s'.
    split; [vm_compute; reflexivity|]. split; [reflexivity|]. split; [exact Hrun|exact Hidle].
Defined.

(** A node that is killed between the hand-over and the start of the task leaves
    its heartbeat thread waiting for ever: the worker is gone, and a woken poster
    goes back to sleep. *)
Lemma kill_strands_poster :
  ∃ s, run [RunWorker; Begin 7; RunPoster; RunPoster; Kill true; RunPoster; RunWorker] start = Some s ∧
    ppc s = PSleep2 7 ∧ wpc s = WExit ∧
    (∀ l s', step l s = Next s' → match l with Kill _ | SpuriousPoster => True | _ => False end) ∧
    run [SpuriousPoster; RunPoster] s = Some s.
Proof.
  eexists. split; [vm_compute; reflexivity|]. split_and!; try done.
  intros [] s' Hs; done.
Qed.
End Worker.
