(* ===== verification/Locking.v ===== *)
(** The ready queue under the node's mutex.  [handle_append_entries] hands committed entries
    to the queue ([MsgQueue.v]) while it holds [Raft::mtx], and the queue has a bound (65536
    in [kv_node.cpp], none at all in [raft_node.cpp], where every value is handed over): a
    full queue stops every thread that needs the node.  [Cluster.v] appends to the queue
    in one step; here the waits are explicit.

    Threads are the rest of their code, as the actions that can wait or that matter to
    those who wait.  The sections of [state_mu_] and [store_mu_] wait for nothing, so each
    of them is one action. *)
From S2P Require Import Prelude MsgQueue.
Import Queue.

#[local] Open Scope N_scope.

Section locking.
Context {T : Type}.

Inductive action :=
| ALock
| AUnlock
| APush (v : T)
| AHand
| ALeaf.

(** [enqueue]: the wait for room and the push, then the wait for the hand-over. *)
Definition enqueue_code (v : T) : list action := [APush v; AHand].

(** [handle_append_entries] that commits [rs]: the lock is held to the end. *)
Definition append_handler (rs : list T) : list action :=
  ALock :: (rs ≫= enqueue_code) ++ [AUnlock].

(** The second section of [send_heartbeats], which commits [rs], and what follows it. *)
Definition heartbeat_tail (rs : list T) : list action := [ALock; AUnlock] ++ (rs ≫= enqueue_code).

(** [handle_request_vote], [get_state], and the sections of [run]. *)
Definition short_section : list action := [ALock; AUnlock].

(** [propose_and_wait]: [propose], the registration, and the removal after a timeout. *)
Definition client_call (timed_out : bool) : list action :=
  [ALock; AUnlock; ALeaf] ++ (if timed_out then [ALeaf] else []).

(** The sections of [on_apply]. *)
Definition on_apply_sections : nat := 3.

(** [owner] holds [mtx]; the consumer has [todo] sections of [on_apply] to go, and
    [consuming] tells whether its loop still runs. *)
Record node_locks := mkLocks {
  lk_owner : option nat;
  lk_queue : @MessageQueue T;
  lk_threads : list (list action);
  lk_consuming : bool;
  lk_todo : nat;
  lk_applied : list T }.

(** A thread takes its next action, if that need not wait.  A push into a closed queue
    returns at once, as [enqueue] does. *)
Definition act (i : nat) (a : action) (s : node_locks) : option (option nat * @MessageQueue T) :=
  match a with
  | ALock => match lk_owner s with Some _ => None | None => Some (Some i, lk_queue s) end
  | AUnlock => if bool_decide (lk_owner s = Some i) then Some (None, lk_queue s) else None
  | APush v =>
      if may_push (lk_queue s)
      then Some (lk_owner s, if closed_ (lk_queue s) then lk_queue s else push v (lk_queue s))
      else None
  | AHand =>
      if negb (buffer_size_ (lk_queue s) =? 0) || handed_over (lk_queue s)
      then Some (lk_owner s, lk_queue s) else None
  | ALeaf => Some (lk_owner s, lk_queue s)
  end.

Inductive who := Thread (i : nat) | Consumer.

Definition lstep (w : who) (s : node_locks) : option node_locks :=
  match w with
  | Thread i =>
      match lk_threads s !! i with
      | Some (a :: code) =>
          '(o, q) ← act i a s;
          Some (mkLocks o q (<[i := code]> (lk_threads s)) (lk_consuming s) (lk_todo s) (lk_applied s))
      | _ => None
      end
  | Consumer =>
      match lk_todo s with
      | S todo => Some (mkLocks (lk_owner s) (lk_queue s) (lk_threads s) (lk_consuming s) todo (lk_applied s))
      | O =>
          if lk_consuming s && negb (closed_ (lk_queue s)) then
            '(v, q) ← pop (lk_queue s);
            Some (mkLocks (lk_owner s) q (lk_threads s) (lk_consuming s) on_apply_sections
                    (lk_applied s ++ [v]))
          else None
      end
  end.

Fixpoint lrun (ws : list who) (s : node_locks) : option node_locks :=
  match ws with
  | [] => Some s
  | w :: ws => s ← lstep w s; lrun ws s
  end.

(** ** The invariant *)

(** Code that locks and unlocks in turn, from a state in which it holds the mutex or not. *)
Fixpoint balanced (held : bool) (code : list action) : bool :=
  match code with
  | [] => negb held
  | ALock :: code => negb held && balanced true code
  | AUnlock :: code => held && balanced false code
  | _ :: code => balanced held code
  end.

Record locks_ok (s : node_locks) : Prop := {
  lo_owner : ∀ i, lk_owner s = Some i → is_Some (lk_threads s !! i);
  lo_code : ∀ i code, lk_threads s !! i = Some code →
    balanced (bool_decide (lk_owner s = Some i)) code = true }.

Lemma balanced_enqueues held rs code :
  balanced held ((rs ≫= enqueue_code) ++ code) = balanced held code.
Proof. induction rs as [|v rs IH]; [done|]. simpl. exact IH. Qed.

(** The code of the node and of the service. *)
Lemma code_balanced rs b :
  Forall (λ code, balanced false code = true)
    [append_handler rs; heartbeat_tail rs; short_section; client_call b].
Proof.
  repeat constructor; simpl.
  - by rewrite balanced_enqueues.
  - by rewrite <- (app_nil_r (rs ≫= enqueue_code)), balanced_enqueues.
  - by destruct b.
Qed.

Lemma lstep_ok w s s' : locks_ok s → lstep w s = Some s' → locks_ok s'.
Proof.
  intros [Ho Hc] Hs. destruct w as [i|]; simpl in Hs.
  2: { destruct (lk_todo s); [|by simplify_eq]. destruct (_ && _); [|done].
       undo_bind. case_match. by simplify_eq. }
  destruct (lk_threads s !! i) as [[|a code]|] eqn:Hi; try done.
  destruct (act i a s) as [[o q]|] eqn:Ha; simplify_eq/=.
  pose proof (Hc i _ Hi) as Hb. pose proof (lookup_lt_Some _ _ _ Hi) as Hlt.
  assert (∀ k c, <[i := code]> (lk_threads s) !! k = Some c →
            (k = i ∧ c = code) ∨ (k ≠ i ∧ lk_threads s !! k = Some c)) as Hins.
  { intros k c. destruct (decide (k = i)) as [->|Hne].
    - rewrite list_lookup_insert_eq by done. intros [= <-]. by left.
    - rewrite list_lookup_insert_ne by done. by right. }
  assert (∀ k, is_Some (<[i := code]> (lk_threads s) !! k) ↔ is_Some (lk_threads s !! k)) as Hsome.
  { intros k. by rewrite !lookup_lt_is_Some, length_insert. }
  destruct a; simpl in Ha.
  - destruct (lk_owner s) eqn:Howner; simplify_eq. split; simpl.
    + intros k [= ->]. by apply Hsome; rewrite Hi.
    + intros k c [[-> ->]|[Hne Hk]]%Hins.
      * rewrite bool_decide_true by done. simpl in Hb. by destruct (balanced true code).
      * rewrite bool_decide_false by congruence. specialize (Hc k c Hk). done.
  - case_bool_decide as Howner; simplify_eq. split; [done|]. simpl.
    intros k c [[-> ->]|[Hne Hk]]%Hins; [done|].
    specialize (Hc k c Hk). by rewrite bool_decide_false in Hc by congruence.
  - destruct (may_push _); simplify_eq. split; simpl.
    + intros k Hk. by apply Hsome, Ho.
    + intros k c [[-> ->]|[Hne Hk]]%Hins; [done|by apply Hc].
  - destruct (_ || _); simplify_eq. split; simpl.
    + intros k Hk. by apply Hsome, Ho.
    + intros k c [[-> ->]|[Hne Hk]]%Hins; [done|by apply Hc].
  - simplify_eq. split; simpl.
    + intros k Hk. by apply Hsome, Ho.
    + intros k c [[-> ->]|[Hne Hk]]%Hins; [done|by apply Hc].
Qed.

(** ** Nobody waits for ever *)

Definition finished (s : node_locks) : Prop := Forall (λ code, code = []) (lk_threads s).

(** An empty queue stops nobody. *)
Lemma act_empty i a code s :
  queue_ (lk_queue s) = [] → lk_threads s !! i = Some (a :: code) → locks_ok s →
  lk_owner s = Some i ∨ lk_owner s = None → is_Some (act i a s).
Proof.
  intros Hq Hi [_ Hc] Ho. specialize (Hc i _ Hi). unfold act, may_push, handed_over. rewrite Hq.
  destruct a; simpl in Hc.
  - destruct Ho as [E|E]; rewrite E in *; [by rewrite bool_decide_true in Hc|done].
  - case_bool_decide; [done|by simpl in Hc].
  - destruct (N.eqb_spec (buffer_size_ (lk_queue s)) 0) as [|Hb]; [by eexists|].
    change (vsize (@nil T)) with 0. destruct (N.ltb_spec 0 (buffer_size_ (lk_queue s))); [by eexists|lia].
  - unfold vsize. simpl. rewrite orb_true_r. by eexists.
  - done.
Qed.

(** While the consumer runs and the queue is open, some thread can go on until all are
    finished. *)
Lemma someone_goes_on s :
  locks_ok s → lk_consuming s = true → closed_ (lk_queue s) = false → ¬ finished s →
  ∃ w, is_Some (lstep w s).
Proof.
  intros Hok Hcons Hopen Hnot. destruct (lk_todo s) as [|todo] eqn:Htodo.
  2: { exists Consumer. simpl. rewrite Htodo. by eexists. }
  destruct (queue_ (lk_queue s)) as [|v vs] eqn:Hq.
  2: { exists Consumer. simpl. rewrite Htodo, Hcons, Hopen. unfold pop. rewrite Hq. by eexists. }
  assert (∀ i a code, lk_threads s !! i = Some (a :: code) →
            lk_owner s = Some i ∨ lk_owner s = None → ∃ w, is_Some (lstep w s)) as Hgo.
  { intros i a code Hi Ho. exists (Thread i). simpl. rewrite Hi.
    destruct (act_empty i a code s Hq Hi Hok Ho) as [[o q] ->]. by eexists. }
  destruct (lk_owner s) as [i|] eqn:Howner.
  - destruct (lo_owner s Hok i Howner) as [[|a code] Hi].
    + pose proof (lo_code s Hok i _ Hi) as Hb. by rewrite bool_decide_true in Hb.
    + apply (Hgo i a code Hi). by left.
  - apply not_Forall_Exists in Hnot; [|solve_decision]. apply Exists_exists in Hnot as (code & Hin & Hne).
    apply list_elem_of_lookup in Hin as [i Hi]. destruct code as [|a code]; [by destruct Hne|].
    apply (Hgo i a code Hi). by right.
Qed.

(** Every step makes the work that is left smaller. *)
Definition work (s : node_locks) : nat :=
  (sum_list_with (λ code, 5 * length code) (lk_threads s) + 4 * length (queue_ (lk_queue s)) +
   lk_todo s)%nat.

Lemma sum_insert (f : list action → nat) l i x y :
  l !! i = Some x →
  (sum_list_with f (<[i := y]> l) + f x = sum_list_with f l + f y)%nat.
Proof.
  revert i. induction l as [|z l IH]; intros [|i] H; simpl in *; [done..|simplify_eq; lia|].
  specialize (IH i H). lia.
Qed.

Lemma lstep_work w s s' : lstep w s = Some s' → (work s' < work s)%nat.
Proof.
  intros Hs. unfold work. destruct w as [i|]; simpl in Hs.
  - destruct (lk_threads s !! i) as [[|a code]|] eqn:Hi; try done.
    destruct (act i a s) as [[o q]|] eqn:Ha; simplify_eq/=.
    pose proof (sum_insert (λ code, 5 * length code)%nat _ _ _ code Hi) as Hsum. simpl in Hsum.
    assert (length (queue_ q) ≤ S (length (queue_ (lk_queue s))))%nat; [|lia].
    destruct a; simpl in Ha; repeat case_match; simplify_eq/=; try lia.
    rewrite length_app. simpl. lia.
  - destruct (lk_todo s) eqn:Htodo; [|simplify_eq/=; lia]. destruct (_ && _); [|done].
    unfold pop in Hs. destruct (queue_ (lk_queue s)) eqn:Hq; [done|]. simplify_eq/=.
    unfold on_apply_sections. lia.
Qed.

Lemma lstep_keeps w s s' :
  lstep w s = Some s' →
  lk_consuming s' = lk_consuming s ∧ closed_ (lk_queue s') = closed_ (lk_queue s).
Proof.
  intros Hs. destruct w as [i|]; simpl in Hs.
  - destruct (lk_threads s !! i) as [[|a code]|]; try done.
    destruct (act i a s) as [[o q]|] eqn:Ha; simplify_eq/=. split; [done|].
    destruct a; simpl in Ha; repeat case_match; simplify_eq/=; done.
  - destruct (lk_todo s); [|by simplify_eq]. destruct (_ && _); [|done].
    unfold pop in Hs. destruct (queue_ (lk_queue s)); by simplify_eq/=.
Qed.

Lemma calls_return_from ws : ∀ s s',
  locks_ok s → lk_consuming s = true → closed_ (lk_queue s) = false → lrun ws s = Some s' →
  (length ws ≤ work s)%nat ∧
  ((∀ w, lstep w s' = None) →
   finished s' ∧ lk_owner s' = None ∧ queue_ (lk_queue s') = [] ∧ lk_todo s' = 0%nat).
Proof.
  induction ws as [|w ws IH]; intros s s' Hok Hcons Hopen Hrun; simpl in Hrun.
  - simplify_eq. split; [simpl; lia|]. intros Hstuck.
    destruct (decide (finished s')) as [Hfin|Hnot].
    2: { destruct (someone_goes_on s' Hok Hcons Hopen Hnot) as [w [? E]]. by rewrite Hstuck in E. }
    specialize (Hstuck Consumer). simpl in Hstuck.
    destruct (lk_todo s'); [|done]. rewrite Hcons, Hopen in Hstuck. simpl in Hstuck.
    unfold pop in Hstuck. destruct (queue_ (lk_queue s')); [|done]. split_and!; [done| |done|done].
    destruct (lk_owner s') as [i|] eqn:Ho; [|done]. destruct (lo_owner s' Hok i Ho) as [code Hi].
    pose proof (lo_code s' Hok i code Hi) as Hb. rewrite Ho, bool_decide_true in Hb by done.
    unfold finished in Hfin. rewrite Forall_lookup in Hfin. by rewrite (Hfin i code Hi) in Hb.
  - destruct (lstep w s) as [s1|] eqn:Hs; [|done]. simpl in Hrun.
    destruct (lstep_keeps w s s1 Hs) as [E1 E2]. pose proof (lstep_work w s s1 Hs).
    destruct (IH s1 s') as [Hlen Hend]; [by eapply lstep_ok|congruence|congruence|done|].
    split; [simpl; lia|done].
Qed.

(** ** Everything is applied once *)

(** The values that the rest of the code pushes. *)
Definition pushes (code : list action) : list T :=
  omap (λ a, match a with APush v => Some v | _ => None end) code.

(** All values of the system, wherever they are. *)
Definition traffic (s : node_locks) : list T :=
  lk_applied s ++ queue_ (lk_queue s) ++ (lk_threads s ≫= pushes).

Lemma pending_insert (l : list (list action)) i a code :
  l !! i = Some (a :: code) →
  l ≫= pushes ≡ₚ pushes [a] ++ (<[i := code]> l ≫= pushes).
Proof.
  intros Hi. rewrite <- (take_drop_middle l i _ Hi) at 1.
  rewrite insert_take_drop by (by eapply lookup_lt_Some).
  rewrite !bind_app, !bind_cons. change (a :: code) with ([a] ++ code). unfold pushes at 2.
  rewrite omap_app. fold (pushes [a]) (pushes code). by solve_Permutation.
Qed.

Lemma lstep_traffic w s s' :
  closed_ (lk_queue s) = false → lstep w s = Some s' → traffic s' ≡ₚ traffic s.
Proof.
  intros Hopen Hs. unfold traffic. destruct w as [i|]; simpl in Hs.
  - destruct (lk_threads s !! i) as [[|a code]|] eqn:Hi; try done.
    destruct (act i a s) as [[o q]|] eqn:Ha; simplify_eq/=. rewrite (pending_insert _ _ _ _ Hi).
    destruct a; simpl in Ha; repeat case_match; simplify_eq/=; try done.
    by rewrite <- !app_assoc.
  - destruct (lk_todo s); [|by simplify_eq]. destruct (_ && _); [|done].
    unfold pop in Hs. destruct (queue_ (lk_queue s)) as [|v vs] eqn:Hq; simplify_eq/=.
    by rewrite <- app_assoc.
Qed.

Lemma lrun_traffic ws : ∀ s s',
  closed_ (lk_queue s) = false → lrun ws s = Some s' → traffic s' ≡ₚ traffic s.
Proof.
  induction ws as [|w ws IH]; intros s s' Hopen Hrun; simpl in Hrun; [by simplify_eq|].
  destruct (lstep w s) as [s1|] eqn:Hs; [|done]. simpl in Hrun.
  destruct (lstep_keeps w s s1 Hs) as [_ E]. rewrite (IH s1 s'); [|congruence|done].
  by eapply lstep_traffic.
Qed.

(** ** Start *)

Definition lstart (buffer : N) (codes : list (list action)) : node_locks :=
  mkLocks None (MessageQueue_init buffer) codes true 0 [].

Lemma lstart_ok buffer codes :
  Forall (λ code, balanced false code = true) codes → locks_ok (lstart buffer codes).
Proof. intros H. split; simpl; [done|]. intros i code Hi. by apply (Forall_lookup_1 _ _ _ _ H Hi). Qed.
(** The code of the threads of a node. *)
Definition node_code (code : list action) : Prop :=
  ∃ rs timed_out,
    code ∈ [append_handler rs; heartbeat_tail rs; short_section; client_call timed_out].

(** C30: while the consumer of the ready queue runs, every call on the node returns,
    whatever the bound of the queue and the schedule: a run of the threads has no more
    steps than the work they had to do, and when none of them can go on, all of them have
    finished, the mutex is free, and what they committed has been applied, each entry
    once. *)
Theorem calls_return buffer codes ws s' :
  Forall node_code codes → lrun ws (lstart buffer codes) = Some s' →
  (length ws ≤ work (lstart buffer codes))%nat ∧
  ((∀ w, lstep w s' = None) →
   finished s' ∧ lk_owner s' = None ∧ lk_applied s' ≡ₚ codes ≫= pushes).
Proof.
  intros Hcodes Hrun.
  assert (locks_ok (lstart buffer codes)) as Hok.
  { apply lstart_ok. eapply List.Forall_impl; [|exact Hcodes]. intros code (rs & b & Hin).
    pose proof (code_balanced rs b) as H. rewrite Forall_forall in H. by apply H. }
  destruct (calls_return_from ws _ _ Hok eq_refl eq_refl Hrun) as [Hlen Hend].
  split; [done|]. intros (Hfin & Ho & Hq & _)%Hend. split_and!; [done|done|].
  pose proof (lrun_traffic ws (lstart buffer codes) s' eq_refl Hrun) as Ht. unfold traffic in Ht. simpl in Ht.
  rewrite <- Ht, Hq. simpl. assert (lk_threads s' ≫= pushes = []) as ->; [|by rewrite app_nil_r].
  unfold finished in Hfin. clear -Hfin. induction Hfin as [|x l -> _ IH]; [done|exact IH].
Qed.

(** ** Without a consumer *)

(** A handler that holds the mutex and meets a full queue. *)
Record frozen (i : nat) (s : node_locks) : Prop := {
  fz_owner : lk_owner s = Some i;
  fz_code : ∃ v code, lk_threads s !! i = Some (APush v :: code);
  fz_full : may_push (lk_queue s) = false;
  fz_idle : lk_consuming s = false ∧ lk_todo s = 0%nat }.

(** It waits for ever, and with it every thread that needs the node. *)
Lemma frozen_for_ever i ws : ∀ s s',
  frozen i s → lrun ws s = Some s' →
  frozen i s' ∧ lk_queue s' = lk_queue s ∧
  ∀ k code, lk_threads s !! k = Some (ALock :: code) → lk_threads s' !! k = Some (ALock :: code).
Proof.
  induction ws as [|w ws IH]; intros s s' Hf Hrun; simpl in Hrun; [by simplify_eq|].
  destruct (lstep w s) as [s1|] eqn:Hs; [|done]. simpl in Hrun. destruct Hf as [Ho (v & code & Hi) Hfull [Hc Ht]].
  destruct w as [k|]; simpl in Hs; [|by rewrite Ht, Hc in Hs].
  destruct (lk_threads s !! k) as [[|a rest]|] eqn:Hk; try done.
  assert (k ≠ i) as Hne by (intros ->; rewrite Hi in Hk; simplify_eq; simpl in Hs; by rewrite Hfull in Hs).
  assert ((a = AHand ∨ a = ALeaf) ∧
          s1 = mkLocks (lk_owner s) (lk_queue s) (<[k := rest]> (lk_threads s)) (lk_consuming s) (lk_todo s)
                 (lk_applied s)) as [Ha ->].
  { destruct a; simpl in Hs; rewrite ?Hfull in Hs; try done.
    - by rewrite Ho in Hs.
    - rewrite bool_decide_false in Hs by congruence. done.
    - destruct (_ || _); [|done]. injection Hs as <-. by auto.
    - injection Hs as <-. by auto. }
  edestruct IH as (Hf' & Hq' & Hl'); [|exact Hrun|].
  { split; simpl; [done| |done|done]. exists v, code. by rewrite list_lookup_insert_ne. }
  split_and!; [done|done|]. intros k' code' Hk'. apply Hl'. simpl.
  destruct (decide (k' = k)) as [->|]; [destruct Ha; congruence|by rewrite list_lookup_insert_ne].
Qed.

(** [close], which the destructor of the wrapper calls, lets it go. *)
Definition shut (s : node_locks) : node_locks :=
  mkLocks (lk_owner s) (mkMessageQueue (buffer_size_ (lk_queue s)) true (queue_ (lk_queue s)))
    (lk_threads s) (lk_consuming s) (lk_todo s) (lk_applied s).

Lemma close_thaws i s : frozen i s → is_Some (lstep (Thread i) (shut s)).
Proof.
  intros [_ (v & code & Hi) _ _].
  assert (may_push (lk_queue (shut s)) = true) as Hm.
  { unfold may_push. cbn. by destruct (buffer_size_ (lk_queue s) =? 0); rewrite orb_true_r. }
  cbn [lstep shut lk_threads]. rewrite Hi. cbn [act]. rewrite Hm. by eexists.
Qed.

End locking.

(** A node of [raft_node.cpp]: a handler that commits two entries, a round that commits
    one, a vote and a client, over an unbuffered queue. *)
Definition four_threads : list (list (@action N)) :=
  [append_handler [1; 2]; heartbeat_tail [3]; short_section; client_call false].

Definition four_run : list who :=
  [Thread 0; Thread 0; Consumer; Thread 0; Consumer; Consumer; Consumer; Thread 0; Consumer; Thread 0;
   Consumer; Consumer; Consumer; Thread 0; Thread 2; Thread 2; Thread 1; Thread 1; Thread 3; Thread 3;
   Thread 3; Thread 1; Consumer; Thread 1; Consumer; Consumer; Consumer].

Lemma calls_return_witness :
  ∃ s', lrun four_run (lstart 0 four_threads) = Some s' ∧ finished s' ∧ lk_applied s' ≡ₚ [1; 2; 3].
Proof.
  eexists. split; [vm_compute; reflexivity|].
  edestruct (calls_return 0 four_threads four_run) as [_ Hend]; [|vm_compute; reflexivity|].
  - unfold four_threads. repeat constructor; [exists [1; 2], false|exists [3], false|exists [], false..];
      rewrite !elem_of_cons; auto.
  - destruct Hend as (Hfin & _ & Hall).
    + intros [i|]; [|done]. do 4 (destruct i as [|i]; [done|]). done.
    + by split.
Defined.

(** Without a consumer the first committed entry takes the node out of service. *)
Lemma no_consumer_freezes :
  let s0 := mkLocks None (MessageQueue_init 1) four_threads false 0 [] in
  ∃ s, lrun [Thread 0; Thread 0; Thread 0] s0 = Some s ∧ frozen 0 s ∧ lstep (Thread 2) s = None.
Proof.
  eexists. split; [vm_compute; reflexivity|]. split; [|done].
  split; [done| |done|done]. by eexists _, _.
Qed.
