(* ===== verification/Types.v ===== *)
(** The plain data of the program: the messages of [proto/raft.proto] and the
    structs of [inc/common/common.hpp] and [inc/common/config.hpp], with
    decidable equality. *)
From S2P Require Import Prelude.

#[local] Open Scope N_scope.

(** ** proto/raft.proto *)

Record Entry := mkEntry { term : N; command : string }.

Record AppendEntriesRequest := mkAppendEntriesRequest {
  aeq_term : N;
  leaderId : N;
  prevLogIndex : N;
  prevLogTerm : N;
  entries : list Entry;
  leaderCommit : N }.

Record AppendEntriesReply := mkAppendEntriesReply {
  aer_term : N;
  success : bool }.

Record RequestVoteReq := mkRequestVoteReq {
  rvq_term : N;
  candidateId : N;
  lastLogIndex : N;
  lastLogTerm : N }.

Record RequestVoteReply := mkRequestVoteReply {
  rvr_term : N;
  voteGranted : bool }.

(** A protobuf message starts with every field at its default. *)
Definition AppendEntriesReply_default : AppendEntriesReply :=
  mkAppendEntriesReply 0 false.
Definition RequestVoteReply_default : RequestVoteReply :=
  mkRequestVoteReply 0 false.

(** ** inc/common *)

Record ProposalResult := mkProposalResult {
  pr_index : N;
  pr_term : N;
  pr_is_leader : bool }.

Record ApplyResult := mkApplyResult {
  valid : bool;
  data : string;
  index : N }.

Record State := mkState { st_term : N; st_is_leader : bool }.

Record Config := mkConfig {
  cfg_id : N;
  cfg_addr : string;
  cfg_peer_addrs : gmap N string }.

#[export] Instance Entry_eq_dec : EqDecision Entry.
Proof. solve_decision. Defined.
#[export] Instance ApplyResult_eq_dec : EqDecision ApplyResult.
Proof. solve_decision. Defined.
#[export] Instance AppendEntriesRequest_eq_dec : EqDecision AppendEntriesRequest.
Proof. solve_decision. Defined.
#[export] Instance AppendEntriesReply_eq_dec : EqDecision AppendEntriesReply.
Proof. solve_decision. Defined.
#[export] Instance RequestVoteReq_eq_dec : EqDecision RequestVoteReq.
Proof. solve_decision. Defined.
#[export] Instance RequestVoteReply_eq_dec : EqDecision RequestVoteReply.
Proof. solve_decision. Defined.
