(* ===== verification/ConfigGen.v ===== *)
(** Cluster configurations: [ConfigGen] of [inc/toolings/config_gen.hpp].

    A generated set of configurations is a full mesh: every node knows every
    other node, and no node is its own peer. *)
From stdpp Require Import pretty.
From S2P Require Import Prelude Types.

#[local] Open Scope N_scope.
#[local] Open Scope rafty_scope.

Record RaftInstanceConfig := mkRaftInstanceConfig {
  ric_id : N;
  ric_port : N;
  ric_listening_addr : string;
  ric_external_addr : string }.

(** [std::to_string] of an unsigned integer. *)
Definition to_string (x : N) : string := pretty x.

(** The indices [0 .. n - 1] of a counting loop. *)
Definition upto (n : N) : list N := N.of_nat <$> seq 0 (N.to_nat n).

Definition gen_local_instances (num_instances start_port : N) : list RaftInstanceConfig :=
  (λ i, let port := start_port +₆₄ i in
        let addr := ("localhost:" +:+ to_string port)%string in
        mkRaftInstanceConfig i port addr addr) <$> upto num_instances.

(** [gen_net_instances] leaves [port] uninitialised; [port0] stands for the
    indeterminate value, which nothing reads. *)
Definition gen_net_instances (port0 : N) (addrs : list string) (listening_port : N)
    : list RaftInstanceConfig :=
  imap (λ i addr,
          mkRaftInstanceConfig (N.of_nat i) port0
            ("0.0.0.0:" +:+ to_string listening_port)%string
            (addr +:+ ":" +:+ to_string listening_port)%string) addrs.

(** The inner loop: a map from the id of every other instance to its address. *)
Definition peers_of (self : N) (instances : list RaftInstanceConfig) : gmap N string :=
  foldl (λ peers peer,
           if ric_id peer =? self then peers
           else <[ric_id peer := ric_external_addr peer]> peers) ∅ instances.

Definition gen_raft_configs (instances : list RaftInstanceConfig) : list Config :=
  (λ inst, mkConfig (ric_id inst) (ric_listening_addr inst)
             (peers_of (ric_id inst) instances)) <$> instances.

(** ** Facts *)

Lemma elem_of_upto n i : i ∈ upto n ↔ i < n.
Proof.
  unfold upto. rewrite list_elem_of_fmap. split.
  - intros (k & -> & Hk%elem_of_seq). lia.
  - intros Hi. exists (N.to_nat i). split; [lia|]. apply elem_of_seq. lia.
Qed.

Lemma NoDup_upto n : NoDup (upto n).
Proof.
  unfold upto. apply NoDup_fmap_2; [intros ? ?; lia | apply NoDup_seq].
Qed.

Lemma gen_local_ids n p : ric_id <$> gen_local_instances n p = upto n.
Proof.
  unfold gen_local_instances. rewrite <- list_fmap_compose.
  rewrite <- (list_fmap_id (upto n)) at 2. done.
Qed.

Lemma gen_net_ids p0 addrs p :
  ric_id <$> gen_net_instances p0 addrs p = upto (vsize addrs).
Proof.
  unfold gen_net_instances, upto, vsize. rewrite Nnat.Nat2N.id.
  apply list_eq. intros i. rewrite !list_lookup_fmap, list_lookup_imap.
  destruct (addrs !! i) eqn:Ha; simpl.
  - rewrite lookup_seq_lt by (by eapply lookup_lt_Some). done.
  - rewrite lookup_seq_ge; [done|]. by apply lookup_ge_None.
Qed.

(** The peers of a node are exactly the other instances. *)
Lemma lookup_peers_of self insts j a :
  NoDup (ric_id <$> insts) →
  peers_of self insts !! j = Some a ↔
  j ≠ self ∧ ∃ x, x ∈ insts ∧ ric_id x = j ∧ ric_external_addr x = a.
Proof.
  unfold peers_of. induction insts as [|x insts IH] using rev_ind; intros Hnd.
  { simpl. rewrite lookup_empty. split; [done|]. intros (_ & x & []%not_elem_of_nil & _). }
  rewrite fmap_app, NoDup_app in Hnd. destruct Hnd as (Hnd & Hx & _).
  specialize (IH Hnd). rewrite foldl_app. simpl.
  setoid_rewrite elem_of_app. setoid_rewrite list_elem_of_singleton.
  destruct (N.eqb_spec (ric_id x) self) as [Hs|Hs].
  - rewrite IH. split; [naive_solver|].
    intros (? & y & [Hy| ->] & ? & ?); [|by simplify_eq]. naive_solver.
  - rewrite lookup_insert_Some, IH. split.
    + intros [[<- <-]|(? & ? & y & ? & ? & ?)]; [naive_solver|].
      split; [done|]. exists y. naive_solver.
    + intros (? & y & [Hy| ->] & <- & <-); [|by left]. right.
      split; [|naive_solver]. intros Heq.
      apply (Hx (ric_id y)); [apply list_elem_of_fmap; eauto|]. rewrite <- Heq.
      apply list_elem_of_fmap. exists x. split; [done|]. by apply list_elem_of_singleton.
Qed.
