(* ===== verification/NetInterceptor.v ===== *)
(** The fault injection of [inc/common/utils/net_intercepter.hpp]: the gRPC
    client interceptor that simulates disconnected nodes and partitions, the
    metadata that [Raft::create_context] attaches to every call, and the counter
    of RPCs and bytes. *)
From S2P Require Import Prelude ConfigGen.

#[local] Open Scope N_scope.

Inductive NetInterceptionType := NETWORK_FAILURE | NETWORK_PARTITION.

(** The static members; [type] is zero initialised. *)
Record NetInterceptor := mkNetInterceptor {
  type_ : NetInterceptionType;
  rank1 : gset string;
  rank2 : gset string }.

Definition NetInterceptor_init : NetInterceptor := mkNetInterceptor NETWORK_FAILURE ∅ ∅.

Definition disconnect (id : string) (n : NetInterceptor) : NetInterceptor :=
  if bool_decide (id ∈ rank1 n)
  then mkNetInterceptor (type_ n) (rank1 n ∖ {[id]}) ({[id]} ∪ rank2 n) else n.

Definition reconnect (id : string) (n : NetInterceptor) : NetInterceptor :=
  if bool_decide (id ∈ rank2 n)
  then mkNetInterceptor (type_ n) ({[id]} ∪ rank1 n) (rank2 n ∖ {[id]}) else n.

Definition setup_rank (ids : gset string) (n : NetInterceptor) : NetInterceptor :=
  mkNetInterceptor (type_ n) ids ∅.

Definition set_type (t : NetInterceptionType) (n : NetInterceptor) : NetInterceptor :=
  mkNetInterceptor t (rank1 n) (rank2 n).

(** The loop over the metadata: the last value of a key wins. *)
Definition find_meta (key : string) (meta : list (string * string)) : option string :=
  foldl (λ acc kv, if bool_decide (kv.1 = key) then Some kv.2 else acc) None meta.

(** Is a call with both endpoints cut off? *)
Definition cut (n : NetInterceptor) (from to : string) : bool :=
  match type_ n with
  | NETWORK_FAILURE => bool_decide (from ∈ rank2 n) || bool_decide (to ∈ rank2 n)
  | NETWORK_PARTITION =>
      (bool_decide (from ∈ rank1 n) && bool_decide (to ∈ rank2 n)) ||
      (bool_decide (to ∈ rank1 n) && bool_decide (from ∈ rank2 n))
  end.

(** [Intercept]: [true] hijacks the call with status UNAVAILABLE, [false] lets it
    proceed.  [pre_send] is the hook point query. *)
Definition Intercept (pre_send : bool) (meta : list (string * string)) (n : NetInterceptor)
    : bool :=
  if pre_send then
    match find_meta "from" meta, find_meta "to" meta with
    | Some from, Some to => cut n from to
    | _, _ => false
    end
  else false.

(** [Raft::create_context] *)
Definition create_context (id to : N) : list (string * string) :=
  [("from", to_string id); ("to", to_string to)].

(** ** [ByteCountingInterceptor] *)

Record RpcMonitor := mkRpcMonitor { total_bytes_sent : N; total_rpc_count : N }.

Definition setup_rpc_monitor (m : RpcMonitor) : RpcMonitor := mkRpcMonitor 0 0.

(** [slices] is the dump of the serialized message when it succeeded. *)
Definition count_rpc (pre_send : bool) (slices : option (list N)) (m : RpcMonitor) : RpcMonitor :=
  if pre_send then
    mkRpcMonitor
      (match slices with
       | Some sizes => add64 (total_bytes_sent m) (foldl add64 0 sizes)
       | None => total_bytes_sent m
       end)
      (add64 (total_rpc_count m) 1)
  else m.

(** ** What the interceptor does to the cluster *)

(** The world [W] is split into the two ranks. *)
Definition splits (W : gset string) (n : NetInterceptor) : Prop :=
  rank1 n ∪ rank2 n = W ∧ rank1 n ## rank2 n.

Lemma splits_setup W n : splits W (setup_rank W n).
Proof. split; simpl; set_solver. Qed.

Lemma splits_disconnect W id n : splits W n → splits W (disconnect id n).
Proof.
  intros [HW Hd]. unfold disconnect. case_bool_decide as Hin; [|done].
  split; simpl; [|set_solver]. apply set_eq. intros x.
  destruct (decide (x = id)) as [->|]; set_solver.
Qed.

Lemma splits_reconnect W id n : splits W n → splits W (reconnect id n).
Proof.
  intros [HW Hd]. unfold reconnect. case_bool_decide as Hin; [|done].
  split; simpl; [|set_solver]. apply set_eq. intros x.
  destruct (decide (x = id)) as [->|]; set_solver.
Qed.

(** A command of the operator. *)
Inductive net_op := Disconnect (id : string) | Reconnect (id : string).

Definition apply_op (n : NetInterceptor) (o : net_op) : NetInterceptor :=
  match o with Disconnect id => disconnect id n | Reconnect id => reconnect id n end.

(** Reference: the last command that names [id] disconnects it. *)
Fixpoint down_after (down : bool) (ops : list net_op) (id : string) : bool :=
  match ops with
  | [] => down
  | Disconnect i :: ops => down_after (if decide (i = id) then true else down) ops id
  | Reconnect i :: ops => down_after (if decide (i = id) then false else down) ops id
  end.

Lemma down_spec ops : ∀ W n id,
  splits W n → id ∈ W →
  bool_decide (id ∈ rank2 (foldl apply_op n ops)) =
  down_after (bool_decide (id ∈ rank2 n)) ops id.
Proof.
  induction ops as [|[i|i] ops IH]; intros W n id Hs Hid; simpl; [done|..].
  - rewrite (IH W) by (by try apply splits_disconnect). f_equal.
    destruct Hs as [HW Hd]. unfold disconnect. case_decide; subst.
    + apply bool_decide_eq_true. case_bool_decide; set_solver.
    + apply bool_decide_ext. case_bool_decide; set_solver.
  - rewrite (IH W) by (by try apply splits_reconnect). f_equal.
    destruct Hs as [HW Hd]. unfold reconnect. case_decide; subst.
    + apply bool_decide_eq_false. case_bool_decide; set_solver.
    + apply bool_decide_ext. case_bool_decide; set_solver.
Qed.

Lemma splits_ops ops : ∀ W n, splits W n → splits W (foldl apply_op n ops).
Proof.
  induction ops as [|[i|i] ops IH]; intros W n Hs; simpl; [done|..]; apply IH;
    auto using splits_disconnect, splits_reconnect.
Qed.

Lemma type_ops ops : ∀ n, type_ (foldl apply_op n ops) = type_ n.
Proof.
  induction ops as [|[i|i] ops IH]; intros n; simpl; [done|..]; rewrite IH;
    unfold disconnect, reconnect; by case_bool_decide.
Qed.

Lemma intercept_context i j n :
  Intercept true (create_context i j) n = cut n (to_string i) (to_string j).
Proof. done. Qed.

Lemma in_rank1 W n id :
  splits W n → id ∈ W → bool_decide (id ∈ rank1 n) = negb (bool_decide (id ∈ rank2 n)).
Proof. intros [HW Hd] Hid. repeat case_bool_decide; try done; set_solver. Qed.

(** Between two members of the world, after any commands of the operator: in
    the failure mode a call is cut exactly when the last command on one of its
    ends disconnected it, and in the partition mode exactly when its ends are on
    different sides; in particular, the ways back and forth are cut together. *)
Lemma intercept_spec W n ops i j :
  to_string i ∈ W → to_string j ∈ W →
  let down k := down_after false ops (to_string k) in
  Intercept true (create_context i j) (foldl apply_op (setup_rank W n) ops) =
  match type_ n with
  | NETWORK_FAILURE => down i || down j
  | NETWORK_PARTITION => xorb (down i) (down j)
  end.
Proof.
  intros Hi Hj down. rewrite intercept_context. unfold cut. rewrite type_ops. simpl.
  pose proof (splits_ops ops W _ (splits_setup W n)) as Hs.
  rewrite !(in_rank1 W) by done.
  rewrite !(down_spec ops W _ _ (splits_setup W n)) by done. simpl.
  rewrite !bool_decide_eq_false_2 by set_solver. fold (down i) (down j).
  destruct (type_ n); [done|]. by destruct (down i), (down j).
Qed.

Lemma intercept_spec_witness :
  Intercept true (create_context 0 1)
    (foldl apply_op (setup_rank {["0"; "1"; "2"]} NetInterceptor_init)
       [Disconnect "1"; Disconnect "2"; Reconnect "2"]) = true.
Proof.
  etransitivity.
  - apply (intercept_spec {["0"; "1"; "2"]} NetInterceptor_init
             [Disconnect "1"; Disconnect "2"; Reconnect "2"] 0 1).
    + apply (bool_decide_unpack _). vm_compute. exact I.
    + apply (bool_decide_unpack _). vm_compute. exact I.
  - vm_compute. reflexivity.
Defined.
