(* ===== verification/RandGen.v ===== *)
(** The random numbers of [inc/common/utils/rand_gen.hpp].

    The engine of a thread is an input: its raw output.  [intn] hands [n - 1] to a
    distribution over [int], so that the bound is truncated to 32 bits; a negative
    upper bound violates the precondition of the distribution: [None]. *)
From S2P Require Import Prelude.

#[local] Open Scope N_scope.

(** The conversion of a [uint64_t] to [int]. *)
Definition to_int (x : N) : Z :=
  let low := Z.of_N (x mod 4294967296) in
  (if low <? 2147483648 then low else low - 4294967296)%Z.

Definition intn (n raw : N) : option N :=
  let b := to_int (sub64 n 1) in
  if (b <? 0)%Z then None else Some (uniform_int 0 (Z.to_N b) raw).

(** For every bound that an [int] can express the result is below the bound. *)
Lemma intn_below n raw : 0 < n ≤ 2147483648 → ∃ x, intn n raw = Some x ∧ x < n.
Proof.
  intros [H0 H1]. unfold intn, to_int. rewrite sub64_small by (unfold pow64; lia).
  rewrite N.mod_small by lia. destruct (Z.ltb_spec (Z.of_N (n - 1)) 2147483648); [|lia].
  destruct (Z.ltb_spec (Z.of_N (n - 1)) 0); [lia|].
  eexists. split; [reflexivity|]. rewrite N2Z.id.
  pose proof (uniform_int_range 0 (n - 1) raw). lia.
Qed.

(** No bound, and bounds whose predecessor is negative as an [int], violate the
    precondition. *)
Lemma intn_undefined raw : intn 0 raw = None ∧ intn 2147483649 raw = None.
Proof. by split. Qed.
