(* ===== verification/Logger.v ===== *)
(** Logging: [inc/common/logger.hpp] and the [prepare_logging] of the executables.

    spdlog is outside the source.  The part of it that the code uses is an interface:
    a registry of named loggers, of which the code relies on the documented behaviour
    of [get], [register_logger] (which throws when the name is taken) and
    [load_env_levels] (which sets levels of loggers only).  What the source decides is
    modelled: which logger a node gets, with which sinks, and which of them a
    verbosity silences.  A registered logger is shared, so that a handle is its name. *)
From S2P Require Import Prelude ConfigGen.

#[local] Open Scope N_scope.

Inductive level := l_trace | l_debug | l_info | l_warn | l_err | l_critical | l_off.

Definition level_rank (l : level) : N :=
  match l with
  | l_trace => 0 | l_debug => 1 | l_info => 2 | l_warn => 3 | l_err => 4
  | l_critical => 5 | l_off => 6
  end.

Inductive sink_kind :=
| stdout_sink_mt
| stdout_color_sink_mt
| basic_file_sink_mt (file : string)
| opentelemetry_sink_mt.

#[export] Instance sink_kind_eq_dec : EqDecision sink_kind.
Proof. solve_decision. Defined.

Record sink := mkSink { sk_kind : sink_kind; sk_level : level }.

(** [lg_async] is the dynamic type [async_logger]. *)
Record spd_logger := mkLogger {
  lg_name : string;
  lg_async : bool;
  lg_sinks : list sink;
  lg_level : level }.

Definition set_sinks (sinks : list sink) (l : spd_logger) : spd_logger :=
  mkLogger (lg_name l) (lg_async l) sinks (lg_level l).

(** All but the level. *)
Definition shape (l : spd_logger) : string * bool * list sink :=
  (lg_name l, lg_async l, lg_sinks l).

(** What the code relies on of spdlog. *)
Class Spdlog (R : Type) := {
  spd_get : string → R → option spd_logger;
  spd_register : spd_logger → R → option R;
  spd_update : spd_logger → R → R;
  load_env_levels : R → R;
  spd_register_taken : ∀ l r, is_Some (spd_get (lg_name l) r) → spd_register l r = None;
  spd_register_free : ∀ l r, spd_get (lg_name l) r = None →
    ∃ r', spd_register l r = Some r' ∧
          ∀ n, spd_get n r' = if bool_decide (n = lg_name l) then Some l else spd_get n r;
  spd_update_spec : ∀ l r n, is_Some (spd_get (lg_name l) r) →
    spd_get n (spd_update l r) = if bool_decide (n = lg_name l) then Some l else spd_get n r;
  spd_get_name : ∀ n r l, spd_get n r = Some l → lg_name l = n;
  env_levels_spec : ∀ r n, shape <$> spd_get n (load_env_levels r) = shape <$> spd_get n r }.

Section logger.
Context `{Spdlog R}.

(** Whether the build has [TRACING] defined. *)
Context (TRACING : bool).

Definition node_logger_name (id : N) : string := ("rafty_node_" +:+ to_string id)%string.

(** The logger that the constructor makes when the name has none. *)
Definition fresh_logger (name : string) : spd_logger :=
  if TRACING then mkLogger name false [mkSink opentelemetry_sink_mt l_trace] l_info
  else mkLogger name true
         [mkSink stdout_color_sink_mt l_trace;
          mkSink (basic_file_sink_mt ("logs/" +:+ name +:+ ".log")%string) l_trace] l_info.

(** The constructor: [_logger], null when the registration threw.  The exception skips
    [load_env_levels]. *)
Definition logger_init (name : string) (r : R) : option string * R :=
  match spd_get name r with
  | Some l =>
      if TRACING || lg_async l then (Some name, load_env_levels r)
      else match spd_register (fresh_logger name) r with
           | Some r' => (Some name, load_env_levels r')
           | None => (None, r)
           end
  | None =>
      match spd_register (fresh_logger name) r with
      | Some r' => (Some name, load_env_levels r')
      | None => (None, r)
      end
  end.

Definition get_logger (id : N) (r : R) : option string * R := logger_init (node_logger_name id) r.

(** The sinks that a message reaches; the call through a null pointer is [None]. *)
Definition emit (lvl : level) (l : spd_logger) : list sink_kind :=
  if level_rank (lg_level l) <=? level_rank lvl then
    sk_kind <$> filter (λ s, level_rank (sk_level s) ≤ level_rank lvl) (lg_sinks l)
  else [].

Definition log (lvl : level) (handle : option string) (r : R) : option (list sink_kind) :=
  name ← handle; l ← spd_get name r; Some (emit lvl l).

Definition set_level (lvl : level) (handle : option string) (r : R) : option R :=
  name ← handle; l ← spd_get name r;
  Some (spd_update (mkLogger (lg_name l) (lg_async l) (lg_sinks l) lvl) r).

(** One turn of the loop of [disable_console_logging]. *)
Definition silence (disable_file_sink : bool) (s : sink) : sink :=
  match sk_kind s with
  | stdout_sink_mt | stdout_color_sink_mt => mkSink (sk_kind s) l_off
  | basic_file_sink_mt _ => if disable_file_sink then mkSink (sk_kind s) l_off else s
  | opentelemetry_sink_mt => s
  end.

Definition disable_console_logging (logger : option spd_logger) (disable_file_sink : bool) (r : R)
    : option R :=
  l ← logger;
  Some (spd_update (set_sinks (silence disable_file_sink <$> lg_sinks l) l) r).

Definition prepare_logging (verbosity : Z) (id : N) (r : R) : option R :=
  let logger := spd_get (node_logger_name id) r in
  if (verbosity <? 1)%Z then disable_console_logging logger true r
  else if (verbosity <? 2)%Z then disable_console_logging logger false r
  else Some r.

(** The logger of a benchmark or of [multinode]: looked up, or a file logger. *)
Definition tool_logger (name : string) (r : R) : option R :=
  match spd_get name r with
  | Some _ => Some r
  | None =>
      spd_register (mkLogger name false
        [mkSink (basic_file_sink_mt ("logs/" +:+ name +:+ ".log")%string) l_trace] l_info) r
  end.

(** ** What a node logs to *)

Lemma fresh_name name : lg_name (fresh_logger name) = name.
Proof. unfold fresh_logger. by destruct TRACING. Qed.

(** The constructor gives a usable logger under every name that has none, or one of the
    type it makes; it is the registered one, with the sinks of a fresh logger when it
    is new. *)
Lemma logger_init_spec name r :
  (∀ l, spd_get name r = Some l → TRACING || lg_async l = true) →
  ∃ l, (logger_init name r).1 = Some name ∧ spd_get name (logger_init name r).2 = Some l ∧
    lg_sinks l = lg_sinks (default (fresh_logger name) (spd_get name r)).
Proof.
  intros Hty. unfold logger_init. destruct (spd_get name r) as [l|] eqn:Hg.
  - rewrite (Hty l eq_refl). pose proof (env_levels_spec r name) as He. rewrite Hg in He.
    apply fmap_Some_1 in He as (l' & Hl' & Hsh). exists l'. injection Hsh as _ _ Hsk. split_and!; [done|done|by simpl; congruence].
  - destruct (spd_register_free (fresh_logger name) r) as (r' & -> & Hr');
      [by rewrite fresh_name|].
    pose proof (env_levels_spec r' name) as He.
    rewrite Hr', fresh_name, bool_decide_eq_true_2 in He by done.
    apply fmap_Some_1 in He as (l' & Hl' & Hsh). exists l'. injection Hsh as _ _ Hsk. split_and!; [done|done|by simpl; congruence].
Qed.

(** With a logger of another type under its name a node has none: the registration
    throws and every message is a call through a null pointer. *)
Lemma logger_init_clash name l r lvl :
  TRACING = false → spd_get name r = Some l → lg_async l = false →
  logger_init name r = (None, r) ∧ log lvl (logger_init name r).1 r = None.
Proof.
  intros HT Hg Ha. assert (logger_init name r = (None, r)) as ->; [|done].
  unfold logger_init. rewrite Hg, Ha, HT. simpl. rewrite spd_register_taken; [done|].
  rewrite fresh_name. by eexists.
Qed.
End logger.

(** ** Verbosity *)

Section verbosity.
Context `{Spdlog R}.

(** The sinks that the flag promises: 0 is silent, 1 is the file, 2 everything. *)
Definition promised (verbosity : Z) (name : string) : list sink_kind :=
  let file := basic_file_sink_mt ("logs/" +:+ name +:+ ".log")%string in
  if (verbosity <? 1)%Z then [] else if (verbosity <? 2)%Z then [file]
  else [stdout_color_sink_mt; file].

Lemma emit_prepared lvl l verbosity name :
  lg_sinks l = lg_sinks (fresh_logger false name) → lvl ≠ l_off →
  let quiet := set_sinks (silence (verbosity <? 1)%Z <$> lg_sinks l) l in
  emit lvl (if (verbosity <? 2)%Z then quiet else l) =
  if level_rank (lg_level l) <=? level_rank lvl then promised verbosity name else [].
Proof.
  intros Hs Hlvl quiet. unfold emit, quiet, promised.
  destruct (Z.ltb_spec verbosity 1), (Z.ltb_spec verbosity 2); try lia;
    cbn [lg_level lg_sinks set_sinks]; rewrite Hs; destruct (lg_level l), lvl;
    first [done|reflexivity].
Qed.

(** The first logger of a node, prepared with a verbosity, writes a message that its
    level lets through to exactly the sinks that the flag promises. *)
Lemma verbosity_spec (r : R) id verbosity lvl :
  let name := node_logger_name id in
  spd_get name r = None → lvl ≠ l_off →
  ∃ r2 l, prepare_logging verbosity id (get_logger false id r).2 = Some r2 ∧
    spd_get name r2 = Some l ∧
    log lvl (get_logger false id r).1 r2 =
      Some (if level_rank (lg_level l) <=? level_rank lvl then promised verbosity name else []).
Proof.
  intros name Hnone Hlvl. unfold get_logger. fold name.
  destruct (logger_init_spec false name r) as (l & Hh & Hl & Hs); [by rewrite Hnone|].
  rewrite Hh. rewrite Hnone in Hs. simpl in Hs. set (r1 := (logger_init false name r).2) in *.
  pose proof (emit_prepared lvl l verbosity name Hs Hlvl) as He. cbv zeta in He.
  pose proof (spd_get_name _ _ _ Hl) as Hn.
  assert (∀ b, spd_get name (spd_update (set_sinks (silence b <$> lg_sinks l) l) r1) =
               Some (set_sinks (silence b <$> lg_sinks l) l)) as Hupd.
  { intros b. rewrite spd_update_spec; simpl; rewrite Hn; [|by eexists].
    by rewrite bool_decide_eq_true_2. }
  unfold prepare_logging. fold name. rewrite Hl. unfold log. cbn [mbind option_bind].
  destruct (Z.ltb_spec verbosity 1), (Z.ltb_spec verbosity 2); try lia; eexists _, _;
    (split; [reflexivity|]); (split; [by first [apply Hupd|exact Hl]|]);
    rewrite ?Hupd, ?Hl; cbn [mbind option_bind]; f_equal; exact He.
Qed.

(** A build with tracing has one sink, which no verbosity silences: level 0, announced
    as silent, still exports every message. *)
Lemma tracing_not_silent (r : R) id lvl :
  let name := node_logger_name id in
  spd_get name r = None → lvl ≠ l_off →
  ∃ r2 l, prepare_logging 0 id (get_logger true id r).2 = Some r2 ∧
    spd_get name r2 = Some l ∧
    log lvl (get_logger true id r).1 r2 =
      Some (if level_rank (lg_level l) <=? level_rank lvl then [opentelemetry_sink_mt] else []).
Proof.
  intros name Hnone Hlvl. unfold get_logger. fold name.
  destruct (logger_init_spec true name r) as (l & Hh & Hl & Hs); [by rewrite Hnone|].
  rewrite Hh. rewrite Hnone in Hs. simpl in Hs. set (r1 := (logger_init true name r).2) in *.
  pose proof (spd_get_name _ _ _ Hl) as Hn.
  unfold prepare_logging. fold name. rewrite Hl. cbn -[silence].
  eexists _, _. split; [reflexivity|]. unfold log. cbn [mbind option_bind].
  rewrite spd_update_spec by (simpl; rewrite Hn; by eexists). simpl.
  rewrite Hn, bool_decide_eq_true_2 by done. split; [reflexivity|]. cbn [mbind option_bind].
  f_equal. unfold emit. simpl. rewrite Hs. simpl. case_match; [|done].
  rewrite filter_cons. case_decide as Hd; [done|]. simpl in Hd. lia.
Qed.
End verbosity.

(** ** A registry that satisfies the interface *)

Module Registry.
Definition get (n : string) (r : gmap string spd_logger) : option spd_logger :=
  (λ l, mkLogger n (lg_async l) (lg_sinks l) (lg_level l)) <$> r !! n.

Definition register (l : spd_logger) (r : gmap string spd_logger) : option (gmap string spd_logger) :=
  match r !! lg_name l with Some _ => None | None => Some (<[lg_name l := l]> r) end.

Lemma get_insert l r n :
  get n (<[lg_name l := l]> r) = if bool_decide (n = lg_name l) then Some l else get n r.
Proof.
  unfold get. case_bool_decide as Hn.
  - subst n. rewrite lookup_insert_eq. by destruct l.
  - by rewrite lookup_insert_ne.
Qed.

#[export] Instance spdlog : Spdlog (gmap string spd_logger).
Proof.
  refine {| spd_get := get; spd_register := register;
            spd_update := λ l r, <[lg_name l := l]> r; load_env_levels := λ r, r |}.
  - intros l r [x Hx]. unfold get, register in *. by destruct (r !! lg_name l).
  - intros l r Hg. unfold get, register in *. destruct (r !! lg_name l); [done|].
    eexists. split; [done|]. intros n. apply get_insert.
  - intros l r n _. apply get_insert.
  - intros n r l Hg. unfold get in Hg. apply fmap_Some in Hg as (x & _ & ->). done.
  - done.
Defined.
End Registry.

#[local] Existing Instance Registry.spdlog.

Lemma verbosity_spec_witness :
  ∃ r2 l, prepare_logging 1 3 (get_logger false 3 (∅ : gmap string spd_logger)).2 = Some r2 ∧
    spd_get (node_logger_name 3) r2 = Some l ∧
    log l_info (Some (node_logger_name 3)) r2 =
      Some [basic_file_sink_mt "logs/rafty_node_3.log"%string].
Proof.
  destruct (verbosity_spec (∅ : gmap string spd_logger) 3 1 l_info)
    as (r2 & l & H1 & H2 & H3); [reflexivity|discriminate|].
  exists r2, l. split; [exact H1|]. split; [exact H2|].
  vm_compute in H1. injection H1 as <-. vm_compute. reflexivity.
Defined.
