(* ===== verification/Tracing.v ===== *)
(** Tracing: [inc/common/utils/tracing.hpp], compiled in with [TRACING].

    gRPC calls an interceptor once per batch, with the hook points that the batch
    covers; OpenTelemetry keeps the spans.  Both are outside the source.  A batch is
    an input; the context of a new span is an input too, and the propagator that
    writes a context into headers and reads it back is the interface [Propagator],
    with the documented behaviour of the W3C propagator as its laws.  What the source
    decides is modelled: when spans start, what they are told, the registry that
    leads a handler to its span, and the headers that link a server span to the
    client's.  The span that is current on a thread (the [Scope]s) is an input. *)
From S2P Require Import Prelude.

#[local] Open Scope N_scope.

Class Propagator (C : Type) := {
  ctx_valid : C → bool;
  Inject : C → list (string * string);
  Extract : (string → string) → option C → option C;
  inject_keys : ∀ c k v, (k, v) ∈ Inject c → k = "traceparent"%string ∨ k = "tracestate"%string;
  inject_nodup : ∀ c, NoDup (Inject c).*1;
  inject_nonempty : ∀ c k v, (k, v) ∈ Inject c → v ≠ EmptyString;
  extract_injected : ∀ c get current, ctx_valid c = true →
    (∀ k v, (k, v) ∈ Inject c → get k = v) →
    (∀ k, k ∉ (Inject c).*1 → get k = EmptyString) → Extract get current = Some c }.

Inductive HookPoint :=
| PRE_SEND_INITIAL_METADATA
| PRE_SEND_MESSAGE
| PRE_SEND_STATUS
| POST_RECV_INITIAL_METADATA
| POST_RECV_MESSAGE
| POST_RECV_STATUS
| POST_RECV_CLOSE.

#[export] Instance HookPoint_eq_dec : EqDecision HookPoint.
Proof. solve_decision. Defined.

(** A batch: its hook points and what its accessors give; a message is the text of
    [MsgStr], empty for a null message. *)
Record batch := mkBatch {
  hooks : list HookPoint;
  send_message : string;
  recv_message : string;
  send_status : N;
  recv_status : option N }.

Definition at_hook (h : HookPoint) (b : batch) : bool := bool_decide (h ∈ hooks b).

Inductive span_kind := kServer | kClient.

Inductive attribute := AString (v : string) | AInt (v : N).

#[export] Instance attribute_eq_dec : EqDecision attribute.
Proof. solve_decision. Defined.

Section tracing.
Context `{Propagator C}.

(** What the tracer was told about a span. *)
Record span := mkSpan {
  sp_method : string;
  sp_kind : span_kind;
  sp_context : C;
  sp_parent : option C;
  sp_attrs : gmap string attribute;
  sp_events : list string;
  sp_ended : nat }.

Definition SetAttribute (k : string) (v : attribute) (s : span) : span :=
  mkSpan (sp_method s) (sp_kind s) (sp_context s) (sp_parent s) (<[k := v]> (sp_attrs s))
    (sp_events s) (sp_ended s).
Definition span_event (name : string) (s : span) : span :=
  mkSpan (sp_method s) (sp_kind s) (sp_context s) (sp_parent s) (sp_attrs s)
    (sp_events s ++ [name]) (sp_ended s).
Definition End_ (s : span) : span :=
  mkSpan (sp_method s) (sp_kind s) (sp_context s) (sp_parent s) (sp_attrs s)
    (sp_events s) (S (sp_ended s)).

(** [StartSpan] and the two attributes that follow it. *)
Definition start_span (kind : span_kind) (method : string) (c : C) (parent : option C) : span :=
  SetAttribute "rpc.method" (AString method)
    (SetAttribute "rpc.system" (AString "grpc") (mkSpan method kind c parent ∅ [] 0)).

(** ** Headers *)

(** [find] on a multimap of headers. *)
Fixpoint md_find (k : string) (md : list (string * string)) : option string :=
  match md with
  | [] => None
  | (k', v) :: md => if bool_decide (k' = k) then Some v else md_find k md
  end.

(** The carrier of [MakeServerStartOptions] knows two headers. *)
Definition carrier_get (md : list (string * string)) (k : string) : string :=
  if bool_decide (k = "traceparent"%string ∨ k = "tracestate"%string)
  then default EmptyString (md_find k md) else EmptyString.

(** The parent that the server's span is started with. *)
Definition MakeServerStartOptions (md : list (string * string)) (current : option C) : option C :=
  match Extract (carrier_get md) current with
  | Some c => if ctx_valid c then Some c else None
  | None => None
  end.

(** Every [Set] of the carrier is an [emplace]. *)
Definition InjectClientContext (current : option C) (md : list (string * string))
    : list (string * string) :=
  match current with Some c => md ++ Inject c | None => md end.

(** ** The registry *)

Definition Put (ctx : option N) (i : nat) (spans_ : gmap N nat) : gmap N nat :=
  match ctx with Some call => <[call := i]> spans_ | None => spans_ end.
Definition Erase (ctx : option N) (spans_ : gmap N nat) : gmap N nat :=
  match ctx with Some call => delete call spans_ | None => spans_ end.
Definition Get (ctx : option N) (spans_ : gmap N nat) : option nat :=
  call ← ctx; spans_ !! call.

(** ** The interceptors *)

(** The spans of the process, by number, and the registry. *)
Record world := mkWorld { w_spans : list span; w_registry : gmap N nat }.

(** [if (hook && span_) f]. *)
Definition on_span (cond : bool) (f : span → span) (sp : option nat) (ss : list span) : list span :=
  match sp with Some i => if cond then alter f i ss else ss | None => ss end.

Definition set_message (k m : string) (s : span) : span :=
  if bool_decide (m = EmptyString) then s else SetAttribute k (AString m) s.

(** [ServerInterceptor::Intercept]: [sp] is [span_], [ctx] the call of the server
    context, [c] the context of a span that this call starts. *)
Definition server_intercept (ctx : option N) (method : string) (md : list (string * string))
    (current : option C) (c : C) (b : batch) (sp : option nat) (w : world) : option nat * world :=
  let '(sp, w) :=
    match sp with
    | None =>
        if at_hook POST_RECV_INITIAL_METADATA b then
          let i := length (w_spans w) in
          (Some i,
           mkWorld (w_spans w ++ [start_span kServer method c (MakeServerStartOptions md current)])
             (Put ctx i (w_registry w)))
        else (None, w)
    | Some _ => (sp, w)
    end in
  let ss := on_span (at_hook POST_RECV_MESSAGE b) (set_message "rpc.request" (recv_message b)) sp
              (w_spans w) in
  let ss := on_span (at_hook PRE_SEND_MESSAGE b) (set_message "rpc.response" (send_message b)) sp ss in
  let ss := on_span (at_hook PRE_SEND_STATUS b)
              (SetAttribute "rpc.grpc.status_code" (AInt (send_status b))) sp ss in
  let ss := on_span (at_hook POST_RECV_CLOSE b) End_ sp ss in
  let reg := match sp with
             | Some _ => if at_hook POST_RECV_CLOSE b then Erase ctx (w_registry w) else w_registry w
             | None => w_registry w
             end in
  (sp, mkWorld ss reg).

(** [ClientInterceptor::Intercept]; [parent] is the span active on the thread, [md] the
    headers to be sent, if there are any. *)
Definition client_intercept (method : string) (parent : option C) (c : C) (b : batch)
    (md : option (list (string * string))) (sp : option nat) (ss : list span)
    : option nat * list span * option (list (string * string)) :=
  let '(sp, ss, md) :=
    if at_hook PRE_SEND_INITIAL_METADATA b then
      (Some (length ss), ss ++ [start_span kClient method c parent],
       InjectClientContext (Some c) <$> md)
    else (sp, ss, md) in
  let ss := on_span (at_hook PRE_SEND_MESSAGE b) (set_message "rpc.request" (send_message b)) sp ss in
  let ss := on_span (at_hook POST_RECV_MESSAGE b) (set_message "rpc.response" (recv_message b)) sp ss in
  let ss := on_span (at_hook POST_RECV_STATUS b)
              (λ s, End_ (match recv_status b with
                          | Some st => SetAttribute "rpc.grpc.status_code" (AInt st) s
                          | None => s
                          end)) sp ss in
  (sp, ss, md).

(** [AddEvent] from a handler. *)
Definition AddEvent (ctx : option N) (name : string) (w : world) : world :=
  match Get ctx (w_registry w) with
  | Some i =>
      match w_spans w !! i with
      | Some s => if ctx_valid (sp_context s)
                  then mkWorld (alter (span_event name) i (w_spans w)) (w_registry w) else w
      | None => w
      end
  | None => w
  end.

(** ** A server span is the child of the client's span *)

Lemma md_find_app k md1 md2 :
  md_find k (md1 ++ md2) = match md_find k md1 with Some v => Some v | None => md_find k md2 end.
Proof. induction md1 as [|[k' v] md1 IH]; [done|]. simpl. by case_bool_decide. Qed.

Lemma md_find_None k md : md_find k md = None ↔ k ∉ md.*1.
Proof.
  induction md as [|[k' v] md IH]; [by split; [intros _ ?%elem_of_nil|]|].
  cbn [md_find fmap list_fmap fst]. case_bool_decide as Hk.
  - subst. split; [done|]. intros Hn. exfalso. apply Hn. by left.
  - rewrite IH, not_elem_of_cons. naive_solver.
Qed.

Lemma md_find_Some k v md : NoDup md.*1 → (k, v) ∈ md → md_find k md = Some v.
Proof.
  induction md as [|[k' v'] md IH]; [by intros _ ?%elem_of_nil|].
  intros [Hn Hnd]%NoDup_cons [Heq|Hin]%elem_of_cons; simpl.
  - simplify_eq. by rewrite bool_decide_eq_true_2.
  - rewrite bool_decide_eq_false_2; [by apply IH|]. intros ->. apply Hn.
    apply list_elem_of_fmap. by exists (k, v).
Qed.

(** The server starts its span as a child of the client's span, when the call had no
    trace headers of its own and its two headers arrive. *)
Lemma server_options_linked c md smd current :
  ctx_valid c = true → md_find "traceparent" md = None → md_find "tracestate" md = None →
  (∀ k, carrier_get smd k = carrier_get (InjectClientContext (Some c) md) k) →
  MakeServerStartOptions smd current = Some c.
Proof.
  intros Hv Htp Hts Hsmd. unfold MakeServerStartOptions.
  rewrite (extract_injected c); [by rewrite Hv|done| |].
  - intros k v Hin. rewrite Hsmd. unfold carrier_get.
    pose proof (inject_keys c k v Hin) as Hk. rewrite bool_decide_eq_true_2 by done.
    simpl. rewrite md_find_app. replace (md_find k md) with (@None string) by (by destruct Hk; subst).
    by rewrite (md_find_Some k v _ (inject_nodup c) Hin).
  - intros k Hk. rewrite Hsmd. unfold carrier_get. case_bool_decide as Hkk; [|done].
    simpl. rewrite md_find_app. replace (md_find k md) with (@None string) by (by destruct Hkk; subst).
    by apply md_find_None in Hk as ->.
Qed.

(** What no later call to the tracer changes. *)
Definition origin (s : span) : string * span_kind * C * option C :=
  (sp_method s, sp_kind s, sp_context s, sp_parent s).

Lemma origin_message k m s : origin (set_message k m s) = origin s.
Proof. unfold set_message. by case_bool_decide. Qed.

Lemma ended_message k m s : sp_ended (set_message k m s) = sp_ended s.
Proof. unfold set_message. by case_bool_decide. Qed.

(** A step on the span of a call leaves the others alone. *)
Lemma on_span_lookup cond f sp ss i :
  on_span cond f sp ss !! i =
  if cond && bool_decide (sp = Some i) then f <$> ss !! i else ss !! i.
Proof.
  unfold on_span. destruct sp as [j|].
  - destruct cond; simpl; [|done]. case_bool_decide as Hj.
    + simplify_eq. apply list_lookup_alter_eq.
    + apply list_lookup_alter_ne. congruence.
  - rewrite bool_decide_eq_false_2, andb_false_r by done. done.
Qed.

Lemma on_span_length cond f sp ss : length (on_span cond f sp ss) = length ss.
Proof. unfold on_span. destruct sp, cond; try done. apply length_alter. Qed.

#[local] Arguments on_span : simpl never.

(** The spans that an [Intercept] of the server leaves: a span it started, and its own
    span ended if the batch closes the call; every other span is as it was. *)
Definition started (sp : option nat) (b : batch) (w : world) : bool :=
  match sp with None => at_hook POST_RECV_INITIAL_METADATA b | Some _ => false end.

Definition own_span (sp : option nat) (b : batch) (w : world) : option nat :=
  if started sp b w then Some (length (w_spans w)) else sp.

Lemma server_intercept_span ctx method md current c b sp w :
  (server_intercept ctx method md current c b sp w).1 = own_span sp b w.
Proof.
  unfold server_intercept, own_span, started. destruct sp as [i|]; [done|].
  by destruct (at_hook POST_RECV_INITIAL_METADATA b).
Qed.

Lemma server_intercept_registry ctx method md current c b sp w :
  w_registry (server_intercept ctx method md current c b sp w).2 =
  let reg := if started sp b w then Put ctx (length (w_spans w)) (w_registry w) else w_registry w in
  match own_span sp b w with
  | Some _ => if at_hook POST_RECV_CLOSE b then Erase ctx reg else reg
  | None => reg
  end.
Proof.
  unfold server_intercept, own_span, started. destruct sp as [i|]; [done|].
  by destruct (at_hook POST_RECV_INITIAL_METADATA b).
Qed.

Lemma server_intercept_other ctx method md current c b sp w i :
  own_span sp b w ≠ Some i →
  w_spans (server_intercept ctx method md current c b sp w).2 !! i = w_spans w !! i.
Proof.
  unfold server_intercept, own_span, started. intros Hi. destruct sp as [j|].
  - simpl. rewrite !on_span_lookup, !bool_decide_eq_false_2, !andb_false_r by done. done.
  - destruct (at_hook POST_RECV_INITIAL_METADATA b); [|done]. simpl.
    rewrite !on_span_lookup, !bool_decide_eq_false_2, !andb_false_r by done.
    rewrite lookup_app. destruct (w_spans w !! i) as [s|] eqn:Hs; [done|].
    apply lookup_ge_None in Hs. apply lookup_ge_None. simpl.
    assert (i ≠ length (w_spans w)) by congruence. lia.
Qed.

Lemma server_intercept_own ctx method md current c b sp w i s :
  own_span sp b w = Some i →
  (if started sp b w then s = start_span kServer method c (MakeServerStartOptions md current)
   else w_spans w !! i = Some s) →
  ∃ s', w_spans (server_intercept ctx method md current c b sp w).2 !! i = Some s' ∧
    origin s' = origin s ∧
    sp_ended s' = (if at_hook POST_RECV_CLOSE b then S (sp_ended s) else sp_ended s).
Proof.
  unfold server_intercept, own_span, started. intros Hi Hs.
  assert (∀ ss, ss !! i = Some s → ∃ s',
    on_span (at_hook POST_RECV_CLOSE b) End_ (Some i)
      (on_span (at_hook PRE_SEND_STATUS b)
         (SetAttribute "rpc.grpc.status_code" (AInt (send_status b))) (Some i)
         (on_span (at_hook PRE_SEND_MESSAGE b) (set_message "rpc.response" (send_message b)) (Some i)
            (on_span (at_hook POST_RECV_MESSAGE b) (set_message "rpc.request" (recv_message b))
               (Some i) ss))) !! i = Some s' ∧ origin s' = origin s ∧
    sp_ended s' = (if at_hook POST_RECV_CLOSE b then S (sp_ended s) else sp_ended s)) as Hall.
  { intros ss Hss. rewrite !on_span_lookup, bool_decide_eq_true_2, !andb_true_r, Hss by done.
    destruct (at_hook POST_RECV_MESSAGE b), (at_hook PRE_SEND_MESSAGE b),
      (at_hook PRE_SEND_STATUS b), (at_hook POST_RECV_CLOSE b); simpl; eexists;
      (split; [reflexivity|]); cbn; unfold set_message; by repeat case_bool_decide. }
  destruct sp as [j|]; [simplify_eq; by apply Hall|].
  destruct (at_hook POST_RECV_INITIAL_METADATA b); [|done]. simplify_eq.
  apply Hall. cbn [w_spans]. rewrite lookup_app_r by lia. by rewrite Nat.sub_diag.
Qed.

Lemma server_intercept_length ctx method md current c b sp w :
  length (w_spans (server_intercept ctx method md current c b sp w).2) =
  (length (w_spans w) + if started sp b w then 1 else 0)%nat.
Proof.
  unfold server_intercept, started. destruct sp as [i|]; [simpl; rewrite !on_span_length; lia|].
  destruct (at_hook POST_RECV_INITIAL_METADATA b); simpl; rewrite ?on_span_length, ?length_app;
    simpl; lia.
Qed.
(** ** The calls of a server *)

(** The interceptor of a call; [sc_closed] remembers that its close was delivered. *)
Record server_call := mkCall {
  sc_method : string;
  sc_md : list (string * string);
  sc_span : option nat;
  sc_closed : bool }.

Record server := mkServer { sv_calls : gmap N server_call; sv_world : world }.

Inductive tlabel :=
| TAccept (call : N) (method : string) (md : list (string * string))
| TBatch (call : N) (b : batch) (current : option C) (c : C)
| TEvent (call : N) (name : string).

(** gRPC does not use the pointer of a call for another one while the first is under way,
    and delivers nothing after the close. *)
Definition finished (sc : server_call) : bool :=
  match sc_span sc with Some _ => sc_closed sc | None => true end.

Definition tstep (l : tlabel) (s : server) : option server :=
  match l with
  | TAccept call method md =>
      if default true (finished <$> sv_calls s !! call)
      then Some (mkServer (<[call := mkCall method md None false]> (sv_calls s)) (sv_world s))
      else None
  | TBatch call b current c =>
      sc ← sv_calls s !! call;
      if sc_closed sc then None
      else
        let '(sp, w) := server_intercept (Some call) (sc_method sc) (sc_md sc) current c b
                          (sc_span sc) (sv_world s) in
        Some (mkServer
          (<[call := mkCall (sc_method sc) (sc_md sc) sp
                       (match sp with Some _ => at_hook POST_RECV_CLOSE b | None => false end)]>
             (sv_calls s)) w)
  | TEvent call name => Some (mkServer (sv_calls s) (AddEvent (Some call) name (sv_world s)))
  end.

Fixpoint tsteps (ls : list tlabel) (s : server) : option server :=
  match ls with [] => Some s | l :: ls => s' ← tstep l s; tsteps ls s' end.

Definition server_start : server := mkServer ∅ (mkWorld [] ∅).

(** A call whose span is running. *)
Definition open_span (s : server) (call : N) (i : nat) : Prop :=
  ∃ sc, sv_calls s !! call = Some sc ∧ sc_span sc = Some i ∧ sc_closed sc = false.

Record server_ok (s : server) : Prop := {
  so_registry : ∀ call i, w_registry (sv_world s) !! call = Some i ↔ open_span s call i;
  so_inj : ∀ call1 call2 i, w_registry (sv_world s) !! call1 = Some i →
    w_registry (sv_world s) !! call2 = Some i → call1 = call2;
  so_range : ∀ call i, w_registry (sv_world s) !! call = Some i →
    (i < length (w_spans (sv_world s)))%nat;
  so_ended : ∀ i sp, w_spans (sv_world s) !! i = Some sp →
    (sp_ended sp = 0%nat ∧ ∃ call, w_registry (sv_world s) !! call = Some i) ∨
    (sp_ended sp = 1%nat ∧ ∀ call, w_registry (sv_world s) !! call ≠ Some i) }.

Lemma accept_ok call method md s :
  server_ok s → default true (finished <$> sv_calls s !! call) = true →
  server_ok (mkServer (<[call := mkCall method md None false]> (sv_calls s)) (sv_world s)).
Proof.
  intros [Hreg Hinj Hr He] Hfin. split; simpl; try done. intros call' i. rewrite Hreg.
  unfold open_span. simpl. split; intros (sc & Hsc & Hsp & Hcl).
  - exists sc. rewrite lookup_insert_ne; [done|]. intros ->. rewrite Hsc in Hfin. simpl in Hfin.
    unfold finished in Hfin. rewrite Hsp in Hfin. congruence.
  - apply lookup_insert_Some in Hsc as [(<- & <-)|[_ Hsc]]; [done|]. by exists sc.
Qed.

(** The registry after a batch. *)
Definition batch_registry (call : N) (o : option nat) (closes : bool) (reg : gmap N nat) : gmap N nat :=
  match o with
  | Some i => if closes then delete call reg else <[call := i]> reg
  | None => reg
  end.

Lemma batch_registry_spec call o closes reg call' i :
  (o = None → reg !! call = None) →
  batch_registry call o closes reg !! call' = Some i ↔
  (call' = call ∧ o = Some i ∧ closes = false) ∨ (call' ≠ call ∧ reg !! call' = Some i).
Proof.
  intros Hn. unfold batch_registry. destruct o as [j|].
  - destruct closes.
    + rewrite lookup_delete_Some. naive_solver.
    + rewrite lookup_insert_Some. naive_solver.
  - specialize (Hn eq_refl). split.
    + intros Hi. right. split; [|done]. intros ->. congruence.
    + by intros [(_ & ? & _)|[_ ?]].
Qed.

Section one_batch.
Context (s : server) (call : N) (sc : server_call) (b : batch) (current : option C) (c : C).
Context (Hok : server_ok s) (Hsc : sv_calls s !! call = Some sc) (Hopen : sc_closed sc = false).

Abbreviation w := (sv_world s).
Abbreviation own := (own_span (sc_span sc) b w).
Abbreviation closes := (at_hook POST_RECV_CLOSE b).
Abbreviation w' := ((server_intercept (Some call) (sc_method sc) (sc_md sc) current c b (sc_span sc) w).2).

Lemma registered_span i : sc_span sc = Some i → w_registry w !! call = Some i.
Proof using Hok Hsc Hopen. intros Hi. apply (so_registry s Hok). by exists sc. Qed.

Lemma unregistered : sc_span sc = None → w_registry w !! call = None.
Proof using Hok Hsc Hopen.
  intros Hi. destruct (w_registry w !! call) as [i|] eqn:E; [|done].
  apply (so_registry s Hok) in E as (sc' & ? & ? & _). congruence.
Qed.

Lemma registry_after call' i :
  w_registry w' !! call' = Some i ↔
  (call' = call ∧ own = Some i ∧ closes = false) ∨ (call' ≠ call ∧ w_registry w !! call' = Some i).
Proof using Hok Hsc Hopen.
  rewrite <- batch_registry_spec.
  - rewrite server_intercept_registry.
    unfold own_span, started, batch_registry. destruct (sc_span sc) as [j|] eqn:Hj.
    + simpl. destruct closes; [done|]. by rewrite insert_id by (by apply registered_span).
    + destruct (at_hook POST_RECV_INITIAL_METADATA b); [|done]. simpl.
      destruct closes; [|done]. by rewrite delete_insert_eq.
  - intros Ho. apply unregistered. unfold own_span in Ho. by case_match.
Qed.

(** The span of another call is not this call's. *)
Lemma others_span call' i : call' ≠ call → w_registry w !! call' = Some i → own ≠ Some i.
Proof using Hok Hsc Hopen.
  intros Hne Hi Ho. unfold own_span, started in Ho. destruct (sc_span sc) as [j|] eqn:Hj.
  - simplify_eq. apply Hne. apply (so_inj s Hok _ _ i Hi). by apply registered_span.
  - pose proof (so_range s Hok _ _ Hi) as Hlt.
    case_match; simplify_eq. lia.
Qed.

Lemma own_range i : own = Some i → (i < length (w_spans w'))%nat.
Proof using Hok Hsc Hopen.
  rewrite server_intercept_length. unfold own_span, started.
  destruct (sc_span sc) as [j|] eqn:Hj; intros Ho.
  - simplify_eq. pose proof (so_range s Hok _ _ (registered_span i Hj)) as Hlt.
    lia.
  - case_match; simplify_eq. lia.
Qed.

(** Before the batch this call's span, if it is there, is running. *)
Lemma own_running i :
  own = Some i → ∃ x, sp_ended x = 0%nat ∧
    if started (sc_span sc) b w
    then x = start_span kServer (sc_method sc) c (MakeServerStartOptions (sc_md sc) current)
    else w_spans w !! i = Some x.
Proof using Hok Hsc Hopen.
  unfold own_span, started. destruct (sc_span sc) as [j|] eqn:Hj; intros Ho.
  - simplify_eq. pose proof (registered_span i Hj) as Hi.
    destruct (lookup_lt_is_Some_2 (w_spans w) i) as [x Hx]; [by apply (so_range s Hok call)|].
    exists x. split; [|done]. destruct (so_ended s Hok i x Hx) as [[? _]|[_ Hno]]; [done|].
    by destruct (Hno call).
  - case_match; [|done]. eexists. by split; [|reflexivity].
Qed.

Lemma ended_after i x :
  w_spans w' !! i = Some x →
  (sp_ended x = 0%nat ∧ ∃ call', w_registry w' !! call' = Some i) ∨
  (sp_ended x = 1%nat ∧ ∀ call', w_registry w' !! call' ≠ Some i).
Proof using Hok Hsc Hopen.
  intros Hx. destruct (decide (own = Some i)) as [Ho|Ho].
  - destruct (own_running i Ho) as (x0 & Hx0 & Horig).
    destruct (server_intercept_own (Some call) _ _ _ _ _ _ _ _ _ Ho Horig) as (x1 & Hx1 & _ & Hend).
    simplify_eq.
    destruct closes eqn:Hc; rewrite Hend, Hx0; [right|left]; (split; [done|]).
    + intros call'. rewrite registry_after, Hc. intros [(_ & _ & ?)|[? Hi]]; [done|].
      by eapply others_span.
    + exists call. rewrite registry_after, Hc. by left.
  - rewrite server_intercept_other in Hx by done.
    destruct (so_ended s Hok i x Hx) as [[? [call' Hi]]|[? Hno]]; [left|right]; (split; [done|]).
    + exists call'. rewrite registry_after. right. split; [|done]. intros ->.
      apply (so_registry s Hok) in Hi as (sc' & ? & Hsp & _). simplify_eq. apply Ho.
      unfold own_span, started. by rewrite Hsp.
    + intros call'. rewrite registry_after. intros [(_ & ? & _)|[_ ?]]; [done|]. by eapply Hno.
Qed.

Lemma batch_ok :
  server_ok (mkServer
    (<[call := mkCall (sc_method sc) (sc_md sc) own
                 (match own with Some _ => closes | None => false end)]> (sv_calls s)) w').
Proof using Hok Hsc Hopen.
  split; simpl.
  - intros call' i. rewrite registry_after. unfold open_span. simpl.
    destruct (decide (call' = call)) as [->|Hne].
    + rewrite lookup_insert_eq. split.
      * intros [(_ & Ho & Hc)|[? _]]; [|done]. eexists. split; [done|]. simpl. by rewrite Ho, Hc.
      * intros (sc' & ? & Ho & Hc). simplify_eq/=. left. by rewrite Ho in Hc.
    + rewrite lookup_insert_ne by done. pose proof (so_registry s Hok call' i) as Hr.
      rewrite Hr. unfold open_span. naive_solver.
  - intros c1 c2 i. rewrite !registry_after. intros [(-> & Ho & _)|[Hn1 Hi1]] [(-> & Ho2 & _)|[Hn2 Hi2]];
      [done|by destruct (others_span c2 i)|by destruct (others_span c1 i)|].
    by apply (so_inj s Hok c1 c2 i).
  - intros call' i. rewrite registry_after. intros [(_ & Ho & _)|[_ Hi]]; [by apply own_range|].
    apply (so_range s Hok) in Hi. rewrite server_intercept_length. lia.
  - apply ended_after.
Qed.
End one_batch.

Lemma alter_event i name (ss : list span) j x :
  alter (span_event name) i ss !! j = Some x →
  ∃ y, ss !! j = Some y ∧ sp_ended x = sp_ended y.
Proof.
  destruct (decide (i = j)) as [->|Hne].
  - rewrite list_lookup_alter_eq. intros (y & -> & ->)%fmap_Some. eauto.
  - rewrite list_lookup_alter_ne by done. eauto.
Qed.

Lemma tstep_ok l s s' : server_ok s → tstep l s = Some s' → server_ok s'.
Proof.
  intros Hok Hstep. destruct l as [call method md|call b current c|call name]; simpl in Hstep.
  - destruct (default true _) eqn:Hf; [|done]. simplify_eq. by apply accept_ok.
  - undo_bind. rename x into sc. destruct (sc_closed sc) eqn:Hcl; [done|].
    pose proof (batch_ok s call sc b current c Hok ltac:(done) Hcl) as Hb.
    rewrite <- (server_intercept_span (Some call) (sc_method sc) (sc_md sc) current c) in Hb.
    destruct (server_intercept _ _ _ _ _ _ _ _) as [sp w]. by simplify_eq/=.
  - simplify_eq. unfold AddEvent. destruct (Get _ _) as [i|]; [|by destruct s].
    destruct (w_spans (sv_world s) !! i) as [x|]; [|by destruct s].
    case_match; [|by destruct s]. destruct Hok as [Hreg Hinj Hr He]. split; simpl; try done.
    + intros call' j Hj. rewrite length_alter. eauto.
    + intros j y Hy. apply alter_event in Hy as (y0 & Hy0 & ->). eauto.
Qed.

(** While calls are accepted, intercepted and closed in any order, the registry leads
    from a call to a span exactly while the call is open, no two calls share a span, and
    every span is ended exactly once, when its call closes: nothing leaks. *)
Lemma registry_tracks_calls ls s :
  tsteps ls server_start = Some s →
  (∀ call i, Get (Some call) (w_registry (sv_world s)) = Some i ↔ open_span s call i) ∧
  (∀ call1 call2 i, open_span s call1 i → open_span s call2 i → call1 = call2) ∧
  (∀ i sp, w_spans (sv_world s) !! i = Some sp →
     (sp_ended sp = 0%nat ∧ ∃ call, open_span s call i) ∨
     (sp_ended sp = 1%nat ∧ ∀ call, ¬ open_span s call i)).
Proof.
  assert (∀ s0, server_ok s0 → tsteps ls s0 = Some s → server_ok s) as Hsteps.
  { induction ls as [|l ls IH]; intros s0 Hok; simpl; [by intros; simplify_eq|].
    intros (s1 & Hs1 & Hs)%bind_Some. eauto using tstep_ok. }
  intros Hs. destruct (Hsteps server_start) as [Hreg Hinj Hr He]; [|done|].
  { split; simpl; try done. intros call i. split; [done|]. by intros (sc & Hsc & _). }
  split_and!; [intros; apply Hreg| |].
  - intros c1 c2 i H1%Hreg H2%Hreg. by eapply Hinj.
  - intros i sp Hsp. destruct (He i sp Hsp) as [[? [call Hi]]|[? Hno]]; [left|right].
    + split; [done|]. exists call. by apply Hreg.
    + split; [done|]. intros call Hi%Hreg. by eapply Hno.
Qed.

(** The two sides of a call are one trace.  When the client's interceptor sends the
    initial metadata of a call that had no trace headers, and these headers arrive, the
    span that the server's interceptor starts is a server span of the same method whose
    parent is the client's span. *)
Lemma trace_linked method parent c cb md ss smd ctx current c' sb w :
  ctx_valid c = true → md_find "traceparent" md = None → md_find "tracestate" md = None →
  PRE_SEND_INITIAL_METADATA ∈ hooks cb → POST_RECV_INITIAL_METADATA ∈ hooks sb →
  let '(csp, css, sent) := client_intercept method parent c cb (Some md) None ss in
  ∃ headers, sent = Some headers ∧ csp = Some (length ss) ∧
    ((∀ k, carrier_get smd k = carrier_get headers k) →
     let '(sp, w') := server_intercept ctx method smd current c' sb None w in
     ∃ x, sp = Some (length (w_spans w)) ∧ w_spans w' !! length (w_spans w) = Some x ∧
       origin x = (method, kServer, c', Some c)).
Proof.
  intros Hv Htp Hts Hcb Hsb. unfold client_intercept.
  replace (at_hook PRE_SEND_INITIAL_METADATA cb) with true
    by (symmetry; by apply bool_decide_eq_true_2).
  eexists. split; [reflexivity|]. split; [done|]. intros Hsmd.
  assert (at_hook POST_RECV_INITIAL_METADATA sb = true) as Hst by (by apply bool_decide_eq_true_2).
  pose proof (server_intercept_span ctx method smd current c' sb None w) as H1.
  destruct (server_intercept_own ctx method smd current c' sb None w (length (w_spans w))
    (start_span kServer method c' (MakeServerStartOptions smd current)))
    as (x & Hx & Ho & _); [by unfold own_span, started; rewrite Hst|by unfold started; rewrite Hst|].
  destruct (server_intercept ctx method smd current c' sb None w) as [sp w'].
  exists x. simpl in *. split_and!; [by rewrite H1; unfold own_span, started; rewrite Hst|done|].
  rewrite Ho. rewrite (server_options_linked c md smd current); done.
Qed.
(** An event of a handler goes to the span of its own call, and to no other. *)
Lemma add_event_spec s call name i x :
  server_ok s → open_span s call i → w_spans (sv_world s) !! i = Some x →
  ctx_valid (sp_context x) = true →
  let w' := AddEvent (Some call) name (sv_world s) in
  w_spans w' !! i = Some (span_event name x) ∧
  ∀ j, j ≠ i → w_spans w' !! j = w_spans (sv_world s) !! j.
Proof.
  intros Hok Hopen Hx Hv w'. apply (so_registry s Hok) in Hopen.
  unfold w', AddEvent, Get. cbn [mbind option_bind]. rewrite Hopen, Hx, Hv. simpl. split.
  - by rewrite list_lookup_alter_eq, Hx.
  - intros j Hj. by rewrite list_lookup_alter_ne by done.
Qed.
End tracing.

Arguments span : clear implicits.
Arguments world : clear implicits.

(** ** A propagator, and a call through both interceptors *)

Module Header.
(** A context is its header; the empty one is invalid. *)
#[export] Instance propagator : Propagator string.
Proof.
  refine {| ctx_valid := λ c, negb (bool_decide (c = EmptyString));
            Inject := λ c, if bool_decide (c = EmptyString) then [] else [("traceparent"%string, c)];
            Extract := λ get current,
              if bool_decide (get "traceparent"%string = EmptyString) then current
              else Some (get "traceparent"%string) |}.
  - intros c k v. case_bool_decide; [by intros ?%elem_of_nil|]. intros Hk%list_elem_of_singleton.
    simplify_eq. by left.
  - intros c. case_bool_decide; [apply NoDup_nil_2|apply NoDup_singleton].
  - intros c k v. case_bool_decide; [by intros ?%elem_of_nil|]. intros Hk%list_elem_of_singleton.
    by simplify_eq.
  - intros c get current Hv Hin _. case_bool_decide as Hc; [done|].
    rewrite (Hin "traceparent"%string c) by (by left). by rewrite bool_decide_eq_false_2.
Defined.
End Header.

#[local] Existing Instance Header.propagator.

Definition opening : batch :=
  mkBatch [PRE_SEND_INITIAL_METADATA; PRE_SEND_MESSAGE; POST_RECV_INITIAL_METADATA; POST_RECV_MESSAGE]
    "ping" "ping" 0 None.
Definition closing : batch := mkBatch [PRE_SEND_MESSAGE; PRE_SEND_STATUS; POST_RECV_CLOSE] "pong" "" 0 None.

Lemma trace_linked_witness :
  let '(csp, css, sent) := client_intercept "Vote" None "c1"%string opening (Some []) None [] in
  ∃ headers, sent = Some headers ∧
    let '(sp, w') := server_intercept (Some 4) "Vote" headers None "s1"%string opening None (mkWorld [] ∅) in
    ∃ x, w_spans w' !! 0%nat = Some x ∧ sp_parent x = Some "c1"%string ∧
         sp_attrs x !! "rpc.request"%string = Some (AString "ping").
Proof.
  assert (PRE_SEND_INITIAL_METADATA ∈ hooks opening) as H1 by (apply list_elem_of_In; simpl; tauto).
  assert (POST_RECV_INITIAL_METADATA ∈ hooks opening) as H2 by (apply list_elem_of_In; simpl; tauto).
  pose proof (trace_linked "Vote" None "c1"%string opening [] [] [("traceparent", "c1")]%string
    (Some 4) None "s1"%string opening (mkWorld [] ∅) eq_refl eq_refl eq_refl H1 H2) as H.
  destruct (client_intercept "Vote" None "c1"%string opening (Some []) None []) as [[csp css] sent] eqn:E.
  vm_compute in E. injection E as <- <- <-. destruct H as (headers & Hh & _ & H).
  exists headers. split; [exact Hh|]. injection Hh as <-. specialize (H (λ k, eq_refl)).
  destruct (server_intercept (Some 4) "Vote" [("traceparent", "c1")]%string None "s1"%string opening None
              (mkWorld [] ∅)) as [sp w'] eqn:E.
  vm_compute in E. injection E as <- <-. destruct H as (x & _ & Hx & Ho).
  exists x. split; [exact Hx|]. injection Hx as <-. split; reflexivity.
Defined.

Definition two_calls : list (tlabel (C := string)) :=
  [TAccept 4 "Vote" []; TBatch 4 opening None "s1"%string; TAccept 9 "Append" [];
   TBatch 9 opening None "s2"%string; TEvent 9 "granted"; TBatch 4 closing None "s3"%string].

Lemma registry_tracks_calls_witness :
  ∃ s, tsteps two_calls server_start = Some s ∧
    Get (Some 4) (w_registry (sv_world s)) = None ∧ open_span s 9 1.
Proof.
  destruct (tsteps two_calls server_start) as [s|] eqn:Hs; [|vm_compute in Hs; discriminate].
  exists s. destruct (registry_tracks_calls two_calls s Hs) as (Hreg & _ & _).
  vm_compute in Hs. injection Hs as <-. split; [reflexivity|]. split; [reflexivity|].
  apply Hreg. reflexivity.
Defined.
