(* ===== verification/Channel.v ===== *)
(** The channel to a peer: [Raft::connect_peers] puts the interceptors of
    [NetInterceptor.v] and [Tracing.v] one behind the other on every channel, and the
    executables set up the telemetry that the last of them writes to.

    How gRPC runs the interceptors of a channel is the class [Grpc], whose laws are what its
    documentation says; the theorems hold for every instance.  Of OpenTelemetry's globals,
    the source relies on what they are before they are set: a tracer whose spans have no
    valid context, and a propagator that writes nothing. *)
From S2P Require Import Prelude ConfigGen NetInterceptor Tracing.

#[local] Open Scope N_scope.

(** ** Telemetry *)

(** The provider's service and endpoint. *)
Record otel := mkOtel {
  tracer_provider : option (string * string);
  has_propagator : bool;
  logger_provider : option (string * string) }.

Definition otel_unset : otel := mkOtel None false None.

Definition default_endpoint : string := "http://localhost:4317".

Definition InitTracing (service endpoint : string) (o : otel) : otel :=
  mkOtel (Some (service, endpoint)) true (logger_provider o).

Definition InitLogger (service endpoint : string) (o : otel) : otel :=
  mkOtel (tracer_provider o) (has_propagator o) (Some (service, endpoint)).

Definition InitOtelInfra (service : string) (o : otel) : otel :=
  InitLogger service default_endpoint (InitTracing service default_endpoint o).

(** ** gRPC *)

(** What an interceptor answers to the batch with which a call is sent. *)
Inductive reaction := Proceed | Hijack (status : N).

(** The two batches of a unary call that an interceptor sees: the one that is sent and the
    one of the results, with the status.  [S] is what the interceptors read and write. *)
Record Interceptor (S : Type) := mkInterceptor {
  on_send : S → S * reaction;
  on_recv : N → S → S }.
Arguments mkInterceptor {S} on_send on_recv.
Arguments on_send {S} i s.
Arguments on_recv {S} i status s.

(** A unary call on a channel: the interceptors see it in the order of their creators; if
    all proceed it goes to the transport; one that hijacks it keeps it from the later ones
    and from the transport, and gives the status; the results pass those that proceeded, the
    last first. *)
Class Grpc := {
  unary_call {S} : list (Interceptor S) → (S → N * S) → S → N * S;
  unary_transport S (transport : S → N * S) s : unary_call [] transport s = transport s;
  unary_proceed S i rest (transport : S → N * S) s s' :
    on_send i s = (s', Proceed) →
    unary_call (i :: rest) transport s =
    let '(status, s'') := unary_call rest transport s' in (status, on_recv i status s'');
  unary_hijack S i rest (transport : S → N * S) s s' status :
    on_send i s = (s', Hijack status) → unary_call (i :: rest) transport s = (status, s') }.

(** The laws can be met. *)
Fixpoint run_interceptors {S} (rest : list (Interceptor S)) (transport : S → N * S) (s : S) : N * S :=
  match rest with
  | [] => transport s
  | i :: rest =>
      match on_send i s with
      | (s', Proceed) =>
          let '(status, s'') := run_interceptors rest transport s' in (status, on_recv i status s'')
      | (s', Hijack status) => (status, s')
      end
  end.

Definition reference_grpc : Grpc.
Proof.
  refine {| unary_call := @run_interceptors |}.
  - done.
  - intros S i rest transport s s' H. simpl. by rewrite H.
  - intros S i rest transport s s' status H. simpl. by rewrite H.
Defined.

(** ** A call through the interceptors *)

Inductive interceptor := ByteCounting | Net | TracingClient.

Definition CreateClientTracingInterceptors : list interceptor := [TracingClient].

(** The creators of [connect_peers]; [tracing] is the build option. *)
Definition interceptor_creators (tracing : bool) : list interceptor :=
  [ByteCounting; Net] ++ (if tracing then [TracingClient] else []).

(** [grpc::StatusCode::UNAVAILABLE] *)
Definition UNAVAILABLE : N := 14.

Section channel.
Context `{Propagator C} (o : otel).

(** A call: its method, the sizes of the slices of its request if the dump succeeds, the
    texts of its messages, the context of the span that the tracer would start and the
    span active on the thread. *)
Record rpc := mkRpc {
  rpc_method : string;
  rpc_slices : option (list N);
  rpc_request : string;
  rpc_reply : string;
  rpc_context : C;
  rpc_active : option C }.

(** What the interceptors of a process write to, and the headers of the calls that have
    arrived at their peers. *)
Record io := mkIo {
  io_monitor : RpcMonitor;
  io_spans : list (@span C);
  io_arrived : list (list (string * string)) }.

(** The state of one call: its headers, the [span_] of its tracer, the process. *)
Record call_state := mkCallState {
  cs_headers : list (string * string);
  cs_span : option nat;
  cs_io : io }.

(** The batch of a unary call that is sent, and the one of its results. *)
Definition send_batch (r : rpc) : batch :=
  mkBatch [PRE_SEND_INITIAL_METADATA; PRE_SEND_MESSAGE] (rpc_request r) EmptyString 0 None.
Definition recv_batch (r : rpc) (status : N) : batch :=
  mkBatch [POST_RECV_INITIAL_METADATA; POST_RECV_MESSAGE; POST_RECV_STATUS] EmptyString
    (rpc_reply r) 0 (Some status).

(** [ByteCountingInterceptor::Intercept] *)
Definition ByteCountingInterceptor (r : rpc) : Interceptor call_state :=
  let count pre_send s :=
    mkCallState (cs_headers s) (cs_span s)
      (mkIo (count_rpc pre_send (rpc_slices r) (io_monitor (cs_io s))) (io_spans (cs_io s))
         (io_arrived (cs_io s))) in
  mkInterceptor (λ s, (count true s, Proceed)) (λ _ s, count false s).

(** [NetInterceptor::Intercept] *)
Definition NetInterceptor_Intercept (net : NetInterceptor) : Interceptor call_state :=
  mkInterceptor
    (λ s, (s, if Intercept true (cs_headers s) net then Hijack UNAVAILABLE else Proceed))
    (λ _ s, s).

(** Before [InitTracing], the propagator writes nothing. *)
Definition headers_sent (md md' : list (string * string)) : list (string * string) :=
  if has_propagator o then md' else md.

(** [ClientInterceptor::Intercept] of [tracing.hpp] *)
Definition ClientInterceptor (r : rpc) : Interceptor call_state :=
  let intercept b md s :=
    let '(sp, ss, md') := client_intercept (rpc_method r) (rpc_active r) (rpc_context r) b md
                            (cs_span s) (io_spans (cs_io s)) in
    mkCallState (headers_sent (cs_headers s) (default (cs_headers s) md')) sp
      (mkIo (io_monitor (cs_io s)) ss (io_arrived (cs_io s))) in
  mkInterceptor (λ s, (intercept (send_batch r) (Some (cs_headers s)) s, Proceed))
    (λ status s, intercept (recv_batch r status) None s).

Definition create_interceptor (net : NetInterceptor) (r : rpc) (i : interceptor) : Interceptor call_state :=
  match i with
  | ByteCounting => ByteCountingInterceptor r
  | Net => NetInterceptor_Intercept net
  | TracingClient => ClientInterceptor r
  end.

Context `{!Grpc}.

(** A call of node [id] to peer [to]: [create_context] and the stub; [serve] is what the
    peer answers to the headers that arrive.  The result is the status that the caller
    sees. *)
Definition stub_call (tracing : bool) (net : NetInterceptor) (id to : N) (r : rpc)
    (serve : list (string * string) → N) (w : io) : N * io :=
  let transport s :=
    (serve (cs_headers s),
     mkCallState (cs_headers s) (cs_span s)
       (mkIo (io_monitor (cs_io s)) (io_spans (cs_io s)) (io_arrived (cs_io s) ++ [cs_headers s]))) in
  let '(status, s) := unary_call (create_interceptor net r <$> interceptor_creators tracing) transport
                        (mkCallState (create_context id to) None w) in
  (status, cs_io s).

(** ** What becomes of a call *)

(** The span of a call that went through, once its results are in. *)
Definition call_span (r : rpc) (status : N) : @span C :=
  End_ (SetAttribute "rpc.grpc.status_code" (AInt status)
    (set_message "rpc.response" (rpc_reply r)
      (set_message "rpc.request" (rpc_request r)
        (start_span kClient (rpc_method r) (rpc_context r) (rpc_active r))))).

(** The headers with which a call that is not cut arrives. *)
Definition call_headers (tracing : bool) (id to : N) (r : rpc) : list (string * string) :=
  create_context id to ++ if tracing && has_propagator o then Inject (rpc_context r) else [].

Lemma on_last_span f (x : @span C) ss : on_span true f (Some (length ss)) (ss ++ [x]) = ss ++ [f x].
Proof.
  unfold on_span. rewrite alter_app_r_alt by lia. by rewrite Nat.sub_diag.
Qed.

Lemma on_no_span f sp (ss : list (@span C)) : on_span false f sp ss = ss.
Proof. by destruct sp. Qed.

Lemma send_hook h r :
  at_hook h (send_batch r) =
  match h with PRE_SEND_INITIAL_METADATA | PRE_SEND_MESSAGE => true | _ => false end.
Proof. by destruct h. Qed.

Lemma recv_hook h r status :
  at_hook h (recv_batch r status) =
  match h with
  | POST_RECV_INITIAL_METADATA | POST_RECV_MESSAGE | POST_RECV_STATUS => true
  | _ => false
  end.
Proof. by destruct h. Qed.

Lemma client_span r status ss md :
  ∃ sp ss1 md1,
    client_intercept (rpc_method r) (rpc_active r) (rpc_context r) (send_batch r) (Some md) None ss =
      (sp, ss1, md1) ∧
    md1 = Some (md ++ Inject (rpc_context r)) ∧
    (client_intercept (rpc_method r) (rpc_active r) (rpc_context r) (recv_batch r status) None sp ss1).1.2 =
      ss ++ [call_span r status].
Proof.
  eexists _, _, _. split; [reflexivity|]. split; [reflexivity|].
  unfold client_intercept. rewrite !send_hook, !recv_hook. cbn -[on_span call_span].
  by rewrite !on_no_span, !on_last_span.
Qed.

Lemma net_send net id to sp w :
  on_send (NetInterceptor_Intercept net) (mkCallState (create_context id to) sp w) =
  (mkCallState (create_context id to) sp w,
   if cut net (to_string id) (to_string to) then Hijack UNAVAILABLE else Proceed).
Proof. reflexivity. Qed.

(** A call through the chain of the channel. *)
Lemma stub_call_spec tracing net id to r serve w :
  let counted := count_rpc true (rpc_slices r) (io_monitor w) in
  stub_call tracing net id to r serve w =
  if cut net (to_string id) (to_string to) then (UNAVAILABLE, mkIo counted (io_spans w) (io_arrived w))
  else
    let md := call_headers tracing id to r in
    (serve md, mkIo counted (io_spans w ++ if tracing then [call_span r (serve md)] else [])
                 (io_arrived w ++ [md])).
Proof using Type.
  unfold stub_call, interceptor_creators, call_headers. rewrite fmap_app. cbn [fmap list_fmap app create_interceptor].
  erewrite unary_proceed by reflexivity. cbn [cs_headers].
  destruct (cut net (to_string id) (to_string to)) eqn:Hc.
  { erewrite unary_hijack by (rewrite net_send, Hc; reflexivity). reflexivity. }
  erewrite unary_proceed by (rewrite net_send, Hc; reflexivity).
  destruct tracing; cbn [fmap list_fmap create_interceptor].
  2:{ rewrite unary_transport. simpl. by rewrite !app_nil_r. }
  erewrite unary_proceed by reflexivity. rewrite unary_transport. simpl andb.
  set (md := create_context id to ++ _).
  destruct (client_span r (serve md) (io_spans w) (create_context id to)) as (sp & ss1 & md1 & E1 & -> & Hss).
  cbn -[client_intercept create_context]. rewrite E1. cbn -[client_intercept create_context].
  assert (headers_sent (create_context id to) (create_context id to ++ Inject (rpc_context r)) = md) as ->.
  { unfold headers_sent, md. destruct (has_propagator o); [done|by rewrite app_nil_r]. }
  destruct (client_intercept _ _ _ _ None sp ss1) as [[? ss2] ?]. simpl in Hss. by subst ss2.
Qed.
End channel.

Lemma wrap64_add_l a b : wrap64 (wrap64 a + b) = wrap64 (a + b).
Proof. unfold wrap64. by rewrite N.Div0.add_mod_idemp_l. Qed.
Lemma wrap64_add_r a b : wrap64 (a + wrap64 b) = wrap64 (a + b).
Proof. unfold wrap64. by rewrite N.Div0.add_mod_idemp_r. Qed.

Definition sum (sizes : list N) : N := foldr N.add 0 sizes.

Lemma slices_sum sizes : ∀ a, a < pow64 → foldl add64 a sizes = wrap64 (a + sum sizes).
Proof.
  induction sizes as [|x sizes IH]; intros a Ha; simpl.
  - rewrite N.add_0_r. symmetry. by apply wrap64_small.
  - rewrite IH by apply wrap64_lt. unfold add64. rewrite wrap64_add_l. f_equal. lia.
Qed.

(** Are the nodes [i] and [j] separated after the commands [ops] of the operator?  In the
    failure mode one of them is disconnected, in the partition mode exactly one. *)
Definition separated (t : NetInterceptionType) (ops : list net_op) (i j : N) : bool :=
  let down k := down_after false ops (to_string k) in
  match t with NETWORK_FAILURE => down i || down j | NETWORK_PARTITION => xorb (down i) (down j) end.

Section calls.
Context `{Propagator C} (o : otel) `{!Grpc}.


(** Several calls of one node, one after the other. *)
Definition stub_calls (tracing : bool) (net : NetInterceptor) (id : N)
    (calls : list (N * @rpc C * (list (string * string) → N))) (w : io) : io :=
  foldl (λ w call, (stub_call o tracing net id call.1.1 call.1.2 call.2 w).2) w calls.

Lemma stub_call_counts tracing net id to r serve w :
  total_rpc_count (io_monitor (stub_call o tracing net id to r serve w).2) =
  wrap64 (total_rpc_count (io_monitor w) + 1).
Proof using Type. rewrite stub_call_spec. by destruct (cut _ _ _). Qed.

(** The counter that the tester reads tells how many calls were made, not how many
    arrived. *)
Lemma calls_counted tracing net id calls : ∀ w,
  total_rpc_count (io_monitor w) < pow64 →
  total_rpc_count (io_monitor (stub_calls tracing net id calls w)) =
  wrap64 (total_rpc_count (io_monitor w) + N.of_nat (length calls)).
Proof using Type.
  induction calls as [|[[to r] serve] calls IH]; intros w Hw.
  - simpl. rewrite N.add_0_r. symmetry. by apply wrap64_small.
  - set (w1 := (stub_call o tracing net id to r serve w).2).
    change (stub_calls _ _ _ (_ :: calls) w) with (stub_calls tracing net id calls w1).
    assert (total_rpc_count (io_monitor w1) = wrap64 (total_rpc_count (io_monitor w) + 1)) as Hc
      by apply stub_call_counts.
    rewrite IH, Hc by (rewrite Hc; apply wrap64_lt). rewrite wrap64_add_l. f_equal. simpl length. lia.
Qed.

(** Without [InitTracing] a call carries no headers of a trace, whatever the build. *)
Lemma untraced_headers tracing net id to r serve w :
  has_propagator o = false → cut net (to_string id) (to_string to) = false →
  (stub_call o tracing net id to r serve w).1 = serve (create_context id to).
Proof using Type.
  intros Hp Hc. rewrite stub_call_spec, Hc. unfold call_headers.
  rewrite Hp, andb_false_r, app_nil_r. done.
Qed.

(** In a node of a build with [TRACING], the span that the peer starts for a call is the
    child of the caller's. *)
Lemma peer_continues_trace service net id to (r : @rpc C) serve w current :
  ctx_valid (rpc_context r) = true → cut net (to_string id) (to_string to) = false →
  ∃ md, io_arrived (stub_call (InitOtelInfra service o) true net id to r serve w).2 = io_arrived w ++ [md] ∧
    MakeServerStartOptions md current = Some (rpc_context r).
Proof using Type.
  intros Hv Hc. rewrite stub_call_spec, Hc. eexists. split; [reflexivity|].
  by apply (server_options_linked _ (create_context id to)).
Qed.
End calls.

Import Header.

(** Node 1 is disconnected and node 0 calls it: seven bytes are counted, nothing arrives. *)
Definition probe : @rpc string := mkRpc "AppendEntries" (Some [3; 4]) "" "" "" None.

