(* ===== verification/RaftState.v ===== *)
(** The data members of the class [Raft] of [inc/rafty/raft.hpp] as a record,
    with one update function per member ([set_role_] is [role_ = v], ...). *)
From S2P Require Import Prelude Types.

#[local] Open Scope N_scope.

(** ** State *)

Inductive Role := FOLLOWER | CANDIDATE | LEADER.

#[export] Instance Role_eq_dec : EqDecision Role.
Proof. solve_decision. Defined.

(** [peers_] and [peer_workers_] are unordered maps that are filled once by
    [connect_peers]: [peers_] is kept in its (arbitrary) iteration order with
    the flag "the stub is not null".  [ready_queue] holds every value handed to
    [MessageQueue::enqueue], oldest first; the queue itself is [MsgQueue.v]. *)
Record Raft := mkRaft {
  role_ : Role;
  current_term_ : N;
  voted_for_ : option N;
  heartbeat_timeout : N;
  election_timeout_ : N;
  lease_granted_at_ : Z;
  last_majority_at_ : Z;
  is_leader_atomic_ : bool;
  lease_expires_ns_ : Z;
  last_term_commit_idx_ : N;
  raft_id : N;
  listening_addr : string;
  peer_addrs : gmap N string;
  received_heartbeat_ : bool;
  dead : bool;
  ready_queue : list ApplyResult;
  peers_ : list (N * bool);
  log_ : list Entry;
  commit_index_ : N;
  last_applied_ : N;
  nextIndex_ : gmap N N;
  matchIndex_ : gmap N N;
  peer_workers_ : gset N }.

Definition set_role_ (v : Role) (n : Raft) : Raft :=
  mkRaft v (current_term_ n) (voted_for_ n) (heartbeat_timeout n)
    (election_timeout_ n) (lease_granted_at_ n) (last_majority_at_ n)
    (is_leader_atomic_ n) (lease_expires_ns_ n) (last_term_commit_idx_ n)
    (raft_id n) (listening_addr n) (peer_addrs n) (received_heartbeat_ n)
    (dead n) (ready_queue n) (peers_ n) (log_ n) (commit_index_ n)
    (last_applied_ n) (nextIndex_ n) (matchIndex_ n) (peer_workers_ n).
Definition set_current_term_ (v : N) (n : Raft) : Raft :=
  mkRaft (role_ n) v (voted_for_ n) (heartbeat_timeout n)
    (election_timeout_ n) (lease_granted_at_ n) (last_majority_at_ n)
    (is_leader_atomic_ n) (lease_expires_ns_ n) (last_term_commit_idx_ n)
    (raft_id n) (listening_addr n) (peer_addrs n) (received_heartbeat_ n)
    (dead n) (ready_queue n) (peers_ n) (log_ n) (commit_index_ n)
    (last_applied_ n) (nextIndex_ n) (matchIndex_ n) (peer_workers_ n).
Definition set_voted_for_ (v : option N) (n : Raft) : Raft :=
  mkRaft (role_ n) (current_term_ n) v (heartbeat_timeout n)
    (election_timeout_ n) (lease_granted_at_ n) (last_majority_at_ n)
    (is_leader_atomic_ n) (lease_expires_ns_ n) (last_term_commit_idx_ n)
    (raft_id n) (listening_addr n) (peer_addrs n) (received_heartbeat_ n)
    (dead n) (ready_queue n) (peers_ n) (log_ n) (commit_index_ n)
    (last_applied_ n) (nextIndex_ n) (matchIndex_ n) (peer_workers_ n).
Definition set_heartbeat_timeout (v : N) (n : Raft) : Raft :=
  mkRaft (role_ n) (current_term_ n) (voted_for_ n) v (election_timeout_ n)
    (lease_granted_at_ n) (last_majority_at_ n) (is_leader_atomic_ n)
    (lease_expires_ns_ n) (last_term_commit_idx_ n) (raft_id n)
    (listening_addr n) (peer_addrs n) (received_heartbeat_ n) (dead n)
    (ready_queue n) (peers_ n) (log_ n) (commit_index_ n) (last_applied_ n)
    (nextIndex_ n) (matchIndex_ n) (peer_workers_ n).
Definition set_election_timeout_ (v : N) (n : Raft) : Raft :=
  mkRaft (role_ n) (current_term_ n) (voted_for_ n) (heartbeat_timeout n) v
    (lease_granted_at_ n) (last_majority_at_ n) (is_leader_atomic_ n)
    (lease_expires_ns_ n) (last_term_commit_idx_ n) (raft_id n)
    (listening_addr n) (peer_addrs n) (received_heartbeat_ n) (dead n)
    (ready_queue n) (peers_ n) (log_ n) (commit_index_ n) (last_applied_ n)
    (nextIndex_ n) (matchIndex_ n) (peer_workers_ n).
Definition set_lease_granted_at_ (v : Z) (n : Raft) : Raft :=
  mkRaft (role_ n) (current_term_ n) (voted_for_ n) (heartbeat_timeout n)
    (election_timeout_ n) v (last_majority_at_ n) (is_leader_atomic_ n)
    (lease_expires_ns_ n) (last_term_commit_idx_ n) (raft_id n)
    (listening_addr n) (peer_addrs n) (received_heartbeat_ n) (dead n)
    (ready_queue n) (peers_ n) (log_ n) (commit_index_ n) (last_applied_ n)
    (nextIndex_ n) (matchIndex_ n) (peer_workers_ n).
Definition set_last_majority_at_ (v : Z) (n : Raft) : Raft :=
  mkRaft (role_ n) (current_term_ n) (voted_for_ n) (heartbeat_timeout n)
    (election_timeout_ n) (lease_granted_at_ n) v (is_leader_atomic_ n)
    (lease_expires_ns_ n) (last_term_commit_idx_ n) (raft_id n)
    (listening_addr n) (peer_addrs n) (received_heartbeat_ n) (dead n)
    (ready_queue n) (peers_ n) (log_ n) (commit_index_ n) (last_applied_ n)
    (nextIndex_ n) (matchIndex_ n) (peer_workers_ n).
Definition set_is_leader_atomic_ (v : bool) (n : Raft) : Raft :=
  mkRaft (role_ n) (current_term_ n) (voted_for_ n) (heartbeat_timeout n)
    (election_timeout_ n) (lease_granted_at_ n) (last_majority_at_ n) v
    (lease_expires_ns_ n) (last_term_commit_idx_ n) (raft_id n)
    (listening_addr n) (peer_addrs n) (received_heartbeat_ n) (dead n)
    (ready_queue n) (peers_ n) (log_ n) (commit_index_ n) (last_applied_ n)
    (nextIndex_ n) (matchIndex_ n) (peer_workers_ n).
Definition set_lease_expires_ns_ (v : Z) (n : Raft) : Raft :=
  mkRaft (role_ n) (current_term_ n) (voted_for_ n) (heartbeat_timeout n)
    (election_timeout_ n) (lease_granted_at_ n) (last_majority_at_ n)
    (is_leader_atomic_ n) v (last_term_commit_idx_ n) (raft_id n)
    (listening_addr n) (peer_addrs n) (received_heartbeat_ n) (dead n)
    (ready_queue n) (peers_ n) (log_ n) (commit_index_ n) (last_applied_ n)
    (nextIndex_ n) (matchIndex_ n) (peer_workers_ n).
Definition set_last_term_commit_idx_ (v : N) (n : Raft) : Raft :=
  mkRaft (role_ n) (current_term_ n) (voted_for_ n) (heartbeat_timeout n)
    (election_timeout_ n) (lease_granted_at_ n) (last_majority_at_ n)
    (is_leader_atomic_ n) (lease_expires_ns_ n) v (raft_id n)
    (listening_addr n) (peer_addrs n) (received_heartbeat_ n) (dead n)
    (ready_queue n) (peers_ n) (log_ n) (commit_index_ n) (last_applied_ n)
    (nextIndex_ n) (matchIndex_ n) (peer_workers_ n).
Definition set_raft_id (v : N) (n : Raft) : Raft :=
  mkRaft (role_ n) (current_term_ n) (voted_for_ n) (heartbeat_timeout n)
    (election_timeout_ n) (lease_granted_at_ n) (last_majority_at_ n)
    (is_leader_atomic_ n) (lease_expires_ns_ n) (last_term_commit_idx_ n) v
    (listening_addr n) (peer_addrs n) (received_heartbeat_ n) (dead n)
    (ready_queue n) (peers_ n) (log_ n) (commit_index_ n) (last_applied_ n)
    (nextIndex_ n) (matchIndex_ n) (peer_workers_ n).
Definition set_listening_addr (v : string) (n : Raft) : Raft :=
  mkRaft (role_ n) (current_term_ n) (voted_for_ n) (heartbeat_timeout n)
    (election_timeout_ n) (lease_granted_at_ n) (last_majority_at_ n)
    (is_leader_atomic_ n) (lease_expires_ns_ n) (last_term_commit_idx_ n)
    (raft_id n) v (peer_addrs n) (received_heartbeat_ n) (dead n)
    (ready_queue n) (peers_ n) (log_ n) (commit_index_ n) (last_applied_ n)
    (nextIndex_ n) (matchIndex_ n) (peer_workers_ n).
Definition set_peer_addrs (v : gmap N string) (n : Raft) : Raft :=
  mkRaft (role_ n) (current_term_ n) (voted_for_ n) (heartbeat_timeout n)
    (election_timeout_ n) (lease_granted_at_ n) (last_majority_at_ n)
    (is_leader_atomic_ n) (lease_expires_ns_ n) (last_term_commit_idx_ n)
    (raft_id n) (listening_addr n) v (received_heartbeat_ n) (dead n)
    (ready_queue n) (peers_ n) (log_ n) (commit_index_ n) (last_applied_ n)
    (nextIndex_ n) (matchIndex_ n) (peer_workers_ n).
Definition set_received_heartbeat_ (v : bool) (n : Raft) : Raft :=
  mkRaft (role_ n) (current_term_ n) (voted_for_ n) (heartbeat_timeout n)
    (election_timeout_ n) (lease_granted_at_ n) (last_majority_at_ n)
    (is_leader_atomic_ n) (lease_expires_ns_ n) (last_term_commit_idx_ n)
    (raft_id n) (listening_addr n) (peer_addrs n) v (dead n) (ready_queue n)
    (peers_ n) (log_ n) (commit_index_ n) (last_applied_ n) (nextIndex_ n)
    (matchIndex_ n) (peer_workers_ n).
Definition set_dead (v : bool) (n : Raft) : Raft :=
  mkRaft (role_ n) (current_term_ n) (voted_for_ n) (heartbeat_timeout n)
    (election_timeout_ n) (lease_granted_at_ n) (last_majority_at_ n)
    (is_leader_atomic_ n) (lease_expires_ns_ n) (last_term_commit_idx_ n)
    (raft_id n) (listening_addr n) (peer_addrs n) (received_heartbeat_ n) v
    (ready_queue n) (peers_ n) (log_ n) (commit_index_ n) (last_applied_ n)
    (nextIndex_ n) (matchIndex_ n) (peer_workers_ n).
Definition set_ready_queue (v : list ApplyResult) (n : Raft) : Raft :=
  mkRaft (role_ n) (current_term_ n) (voted_for_ n) (heartbeat_timeout n)
    (election_timeout_ n) (lease_granted_at_ n) (last_majority_at_ n)
    (is_leader_atomic_ n) (lease_expires_ns_ n) (last_term_commit_idx_ n)
    (raft_id n) (listening_addr n) (peer_addrs n) (received_heartbeat_ n)
    (dead n) v (peers_ n) (log_ n) (commit_index_ n) (last_applied_ n)
    (nextIndex_ n) (matchIndex_ n) (peer_workers_ n).
Definition set_peers_ (v : list (N * bool)) (n : Raft) : Raft :=
  mkRaft (role_ n) (current_term_ n) (voted_for_ n) (heartbeat_timeout n)
    (election_timeout_ n) (lease_granted_at_ n) (last_majority_at_ n)
    (is_leader_atomic_ n) (lease_expires_ns_ n) (last_term_commit_idx_ n)
    (raft_id n) (listening_addr n) (peer_addrs n) (received_heartbeat_ n)
    (dead n) (ready_queue n) v (log_ n) (commit_index_ n) (last_applied_ n)
    (nextIndex_ n) (matchIndex_ n) (peer_workers_ n).
Definition set_log_ (v : list Entry) (n : Raft) : Raft :=
  mkRaft (role_ n) (current_term_ n) (voted_for_ n) (heartbeat_timeout n)
    (election_timeout_ n) (lease_granted_at_ n) (last_majority_at_ n)
    (is_leader_atomic_ n) (lease_expires_ns_ n) (last_term_commit_idx_ n)
    (raft_id n) (listening_addr n) (peer_addrs n) (received_heartbeat_ n)
    (dead n) (ready_queue n) (peers_ n) v (commit_index_ n) (last_applied_ n)
    (nextIndex_ n) (matchIndex_ n) (peer_workers_ n).
Definition set_commit_index_ (v : N) (n : Raft) : Raft :=
  mkRaft (role_ n) (current_term_ n) (voted_for_ n) (heartbeat_timeout n)
    (election_timeout_ n) (lease_granted_at_ n) (last_majority_at_ n)
    (is_leader_atomic_ n) (lease_expires_ns_ n) (last_term_commit_idx_ n)
    (raft_id n) (listening_addr n) (peer_addrs n) (received_heartbeat_ n)
    (dead n) (ready_queue n) (peers_ n) (log_ n) v (last_applied_ n)
    (nextIndex_ n) (matchIndex_ n) (peer_workers_ n).
Definition set_last_applied_ (v : N) (n : Raft) : Raft :=
  mkRaft (role_ n) (current_term_ n) (voted_for_ n) (heartbeat_timeout n)
    (election_timeout_ n) (lease_granted_at_ n) (last_majority_at_ n)
    (is_leader_atomic_ n) (lease_expires_ns_ n) (last_term_commit_idx_ n)
    (raft_id n) (listening_addr n) (peer_addrs n) (received_heartbeat_ n)
    (dead n) (ready_queue n) (peers_ n) (log_ n) (commit_index_ n) v
    (nextIndex_ n) (matchIndex_ n) (peer_workers_ n).
Definition set_nextIndex_ (v : gmap N N) (n : Raft) : Raft :=
  mkRaft (role_ n) (current_term_ n) (voted_for_ n) (heartbeat_timeout n)
    (election_timeout_ n) (lease_granted_at_ n) (last_majority_at_ n)
    (is_leader_atomic_ n) (lease_expires_ns_ n) (last_term_commit_idx_ n)
    (raft_id n) (listening_addr n) (peer_addrs n) (received_heartbeat_ n)
    (dead n) (ready_queue n) (peers_ n) (log_ n) (commit_index_ n)
    (last_applied_ n) v (matchIndex_ n) (peer_workers_ n).
Definition set_matchIndex_ (v : gmap N N) (n : Raft) : Raft :=
  mkRaft (role_ n) (current_term_ n) (voted_for_ n) (heartbeat_timeout n)
    (election_timeout_ n) (lease_granted_at_ n) (last_majority_at_ n)
    (is_leader_atomic_ n) (lease_expires_ns_ n) (last_term_commit_idx_ n)
    (raft_id n) (listening_addr n) (peer_addrs n) (received_heartbeat_ n)
    (dead n) (ready_queue n) (peers_ n) (log_ n) (commit_index_ n)
    (last_applied_ n) (nextIndex_ n) v (peer_workers_ n).
Definition set_peer_workers_ (v : gset N) (n : Raft) : Raft :=
  mkRaft (role_ n) (current_term_ n) (voted_for_ n) (heartbeat_timeout n)
    (election_timeout_ n) (lease_granted_at_ n) (last_majority_at_ n)
    (is_leader_atomic_ n) (lease_expires_ns_ n) (last_term_commit_idx_ n)
    (raft_id n) (listening_addr n) (peer_addrs n) (received_heartbeat_ n)
    (dead n) (ready_queue n) (peers_ n) (log_ n) (commit_index_ n)
    (last_applied_ n) (nextIndex_ n) (matchIndex_ n) v.
