(* ===== verification/RaftNode.v ===== *)
(** The methods of the class [Raft] in [src/raft.cpp] and the methods of
    [inc/rafty/impl/raft.ipp] that are not gRPC plumbing.

    A method that runs entirely under [mtx] is one function on the state; a
    method that releases [mtx] between critical sections ([run],
    [send_heartbeats]) is one function per critical section, and [Cluster.v]
    composes them.  [None] stands for undefined behaviour (a vector access out
    of range).  The clock and the random engine are inputs: [now] is a
    [steady_clock] reading in nanoseconds and [r] the raw output of the engine
    that [reset_election_timer] draws from. *)
From S2P Require Import Prelude Types RaftState.

#[local] Open Scope N_scope.
#[local] Open Scope rafty_scope.

(** [std::chrono::milliseconds] on the nanosecond clock. *)
Definition ms (t : N) : Z := (Z.of_N t * 1000000)%Z.

(** [kLeaseDuration] *)
Definition kLeaseDuration : N := 250.

(** [(peers_.size() + 1) / 2 + 1] *)
Definition majority (n : Raft) : N := (vsize (peers_ n) + 1) / 2 + 1.

(** ** Construction, peers, shutdown *)

Definition reset_election_timer (r : N) (n : Raft) : Raft :=
  set_election_timeout_ (uniform_int 300 600 r) n.

(** [Raft::Raft]; the atomics and indices take their in-class initialisers. *)
Definition Raft_init (config : Config) (r : N) : Raft :=
  reset_election_timer r
    (mkRaft FOLLOWER 0 None 50 0 0%Z 0%Z false 0%Z 0
       (cfg_id config) (cfg_addr config) (cfg_peer_addrs config)
       false false [] [] [] 0 0 ∅ ∅ ∅).

(** [connect_peers]: a stub (never null) and a worker for every entry of
    [peer_addrs]; an entry that was there already is replaced. *)
Definition connect_peers (n : Raft) : Raft :=
  set_peer_workers_ (peer_workers_ n ∪ dom (peer_addrs n))
    (set_peers_
       (filter (λ p, peer_addrs n !! p.1 = None) (peers_ n)
          ++ ((λ p, (p.1, true)) <$> map_to_list (peer_addrs n))) n).

Definition is_dead (n : Raft) : bool := dead n.

(** [kill]: the flag; stopping the workers is [PeerWorker.v]. *)
Definition kill (n : Raft) : Raft := set_dead true n.

(** [apply]: hand one result to the ready queue. *)
Definition apply (result : ApplyResult) (n : Raft) : Raft :=
  set_ready_queue (ready_queue n ++ [result]) n.

(** ** Applying committed entries

    [while (last_applied_ < commit_index_) { last_applied_++; ... }], the loop
    shared by [send_heartbeats] and [handle_append_entries]; every turn moves
    [last_applied_] one up, so [commit_index_ - last_applied_] turns suffice. *)
Fixpoint drain_loop (fuel : nat) (log : list Entry) (last_applied commit : N)
    : option (N * list ApplyResult) :=
  if last_applied <? commit then
    match fuel with
    | O => None
    | S fuel =>
        let last_applied := last_applied +₆₄ 1 in
        e ← vat log (last_applied -₆₄ 1);
        '(la, rest) ← drain_loop fuel log last_applied commit;
        Some (la, mkApplyResult true (command e) last_applied :: rest)
    end
  else Some (last_applied, []).

Definition drain (log : list Entry) (last_applied commit : N)
    : option (N * list ApplyResult) :=
  drain_loop (N.to_nat (commit - last_applied)) log last_applied commit.

(** ** [handle_append_entries] *)

(** One turn of the loop over [request->entries()]. *)
Definition append_entry (st : list Entry * N) (entry : Entry)
    : option (list Entry * N) :=
  let '(log, idx) := st in
  let idx := idx +₆₄ 1 in
  if idx <=? vsize log then
    e ← vat log (idx -₆₄ 1);
    if term e =? term entry then Some (log, idx)
    else Some (take (N.to_nat (idx -₆₄ 1)) log ++ [entry], idx)
  else Some (log ++ [entry], idx).

Fixpoint append_entries (st : list Entry * N) (es : list Entry)
    : option (list Entry * N) :=
  match es with
  | [] => Some st
  | e :: es => st ← append_entry st e; append_entries st es
  end.

(** The guard [prevLogIndex > 0 && log_[prevLogIndex-1].term() != prevlogterm],
    read after the size check. *)
Definition prev_mismatch (log : list Entry) (req : AppendEntriesRequest)
    : option bool :=
  if 0 <? prevLogIndex req then
    e ← vat log (prevLogIndex req -₆₄ 1);
    Some (negb (term e =? prevLogTerm req))
  else Some false.

(** The tail of the handler, once the entries are in the log. *)
Definition advance_commit (req : AppendEntriesRequest) (n : Raft) : option Raft :=
  let n := if commit_index_ n <? leaderCommit req
           then set_commit_index_ (N.min (leaderCommit req) (vsize (log_ n))) n
           else n in
  '(la, out) ← drain (log_ n) (last_applied_ n) (commit_index_ n);
  Some (set_ready_queue (ready_queue n ++ out) (set_last_applied_ la n)).

(** What a request of a current leader does first: adopt its term, follow it. *)
Definition follow_leader (req : AppendEntriesRequest) (r : N) (n : Raft) : Raft :=
  let n := if current_term_ n <? aeq_term req
           then set_voted_for_ None (set_current_term_ (aeq_term req) n)
           else n in
  let n := if decide (role_ n = LEADER) then set_is_leader_atomic_ false n else n in
  reset_election_timer r (set_received_heartbeat_ true (set_role_ FOLLOWER n)).

Definition handle_append_entries (req : AppendEntriesRequest) (r : N) (n : Raft)
    : option (Raft * AppendEntriesReply) :=
  if aeq_term req <? current_term_ n then
    Some (n, mkAppendEntriesReply (current_term_ n) false)
  else
    let n := follow_leader req r n in
    let refuse := mkAppendEntriesReply (current_term_ n) false in
    if vsize (log_ n) <? prevLogIndex req then Some (n, refuse)
    else
      bad ← prev_mismatch (log_ n) req;
      if (bad : bool) then Some (n, refuse)
      else
        '(log, _) ← append_entries (log_ n, prevLogIndex req) (entries req);
        n ← advance_commit req (set_log_ log n);
        Some (n, mkAppendEntriesReply (current_term_ n) true).

(** ** [handle_request_vote] *)

(** [log_.empty() ? 0 : log_.back().term()] *)
Definition last_term (log : list Entry) : option N :=
  if vsize log =? 0 then Some 0
  else e ← vat log (vsize log -₆₄ 1); Some (term e).

Definition up_to_date (req : RequestVoteReq) (myLastIndex myLastTerm : N) : bool :=
  if myLastTerm <? lastLogTerm req then true
  else (lastLogTerm req =? myLastTerm) && (myLastIndex <=? lastLogIndex req).

(** [!voted_for_.has_value() || voted_for_.value() == candidateid] *)
Definition vote_free (n : Raft) (candidate : N) : bool :=
  match voted_for_ n with None => true | Some c => c =? candidate end.

(** A request of a later term makes the node a follower of that term. *)
Definition adopt_term (t : N) (r : N) (n : Raft) : Raft :=
  if current_term_ n <? t
  then reset_election_timer r
         (set_role_ FOLLOWER (set_voted_for_ None (set_current_term_ t n)))
  else n.

(** The timer is drawn in up to two places; only the last draw, [r], is kept. *)
Definition handle_request_vote (req : RequestVoteReq) (r : N) (n : Raft)
    : option (Raft * RequestVoteReply) :=
  if rvq_term req <? current_term_ n then
    Some (n, mkRequestVoteReply (current_term_ n) false)
  else
    let n := adopt_term (rvq_term req) r n in
    myLastTerm ← last_term (log_ n);
    if vote_free n (candidateId req) && up_to_date req (vsize (log_ n)) myLastTerm
    then Some (reset_election_timer r (set_voted_for_ (Some (candidateId req)) n),
               mkRequestVoteReply (current_term_ n) true)
    else Some (n, mkRequestVoteReply (current_term_ n) false).

(** ** Clients of the node *)

Definition propose (d : string) (n : Raft) : Raft * ProposalResult :=
  if decide (role_ n = LEADER) then
    let n' := set_log_ (log_ n ++ [mkEntry (current_term_ n) d]) n in
    (n', mkProposalResult (vsize (log_ n')) (current_term_ n) true)
  else (n, mkProposalResult 0 (current_term_ n) false).

Definition get_state (n : Raft) : State :=
  mkState (current_term_ n) (bool_decide (role_ n = LEADER)).

(** [get_lease_state] loads three atomics without [mtx], the clock in between: [n1], [n2]
    and [n3] are the node at the three loads. *)
Definition get_lease_state (n1 : Raft) (now : Z) (n2 n3 : Raft) : bool * N :=
  if negb (is_leader_atomic_ n1) then (false, 0)
  else if (lease_expires_ns_ n2 <=? now)%Z then (false, 0)
  else if last_term_commit_idx_ n3 =? 0 then (false, 0)
  else (true, last_term_commit_idx_ n3).

(** What one turn of the polling loop of [propose_sync] reads: the clock tested
    against the deadline, and the node under [mtx]. *)
Record Poll := mkPoll { poll_now : Z; poll_node : Raft }.

(** The polling loop over the sequence of readings; [None] when the readings
    end while the loop is still waiting. *)
Fixpoint propose_sync_loop (result : ProposalResult) (deadline : Z)
    (polls : list Poll) : option ProposalResult :=
  let gave_up := mkProposalResult (pr_index result) (pr_term result) false in
  match polls with
  | [] => None
  | p :: polls =>
      if is_dead (poll_node p) || (deadline <=? poll_now p)%Z then Some gave_up
      else if pr_index result <=? last_applied_ (poll_node p) then Some result
      else if decide (role_ (poll_node p) = LEADER)
           then propose_sync_loop result deadline polls
           else Some gave_up
  end.

Definition propose_sync (d : string) (now : Z) (polls : list Poll) (n : Raft)
    : Raft * option ProposalResult :=
  let '(n', result) := propose d n in
  if pr_is_leader result
  then (n', propose_sync_loop result (now + ms 5000)%Z polls)
  else (n', Some result).

(** ** The election part of [run] *)

(** Top of the main loop: is this node the leader, and if not, forget the
    heartbeats seen so far. *)
Definition run_top (n : Raft) : bool * Raft :=
  if decide (role_ n = LEADER) then (true, n)
  else (false, set_received_heartbeat_ false n).

(** Does the inner waiting loop stop at this reading of the clock? *)
Definition wait_over (start now : Z) (n : Raft) : bool :=
  is_dead n || received_heartbeat_ n || (ms (election_timeout_ n) <=? now - start)%Z.

(** The section that decides whether to stand for election. *)
Definition start_election (r : N) (n : Raft) : bool * Raft :=
  if negb (received_heartbeat_ n) && negb (bool_decide (role_ n = LEADER)) then
    (true,
     reset_election_timer r
       (set_voted_for_ (Some (raft_id n))
          (set_current_term_ (current_term_ n +₆₄ 1)
             (set_role_ CANDIDATE n))))
  else (false, n).

(** The fields of the request, read without the lock. *)
Definition vote_request (n : Raft) : option RequestVoteReq :=
  t ← last_term (log_ n);
  Some (mkRequestVoteReq (current_term_ n) (raft_id n) (vsize (log_ n)) t).

(** [reply.term() > my_term]: the second critical section of the reply. *)
Definition vote_step_down (reply : RequestVoteReply) (r : N) (n : Raft) : Raft :=
  reset_election_timer r
    (set_voted_for_ None (set_role_ FOLLOWER (set_current_term_ (rvr_term reply) n))).

(** The section after the vote loop. *)
Definition finish_election (votes maj : N) (r : N) (n : Raft) : bool * Raft :=
  if bool_decide (role_ n = CANDIDATE) && (maj <=? votes) then
    (true, set_role_ LEADER n)
  else if bool_decide (role_ n = CANDIDATE) then
    (false, reset_election_timer r (set_role_ FOLLOWER n))
  else (false, n).

(** The section entered with [became_leader]. *)
Definition become_leader (now : Z) (n : Raft) : Raft :=
  set_is_leader_atomic_ true
    (set_last_majority_at_ now
       (set_matchIndex_ (foldr (λ p m, <[p.1 := 0]> m) (matchIndex_ n) (peers_ n))
          (set_nextIndex_
             (foldr (λ p m, <[p.1 := vsize (log_ n) + 1]> m) (nextIndex_ n) (peers_ n)) n))).

(** ** [send_heartbeats] *)

Record PeerReq := mkPeerReq {
  pq_peer_id : N;
  pq_request : AppendEntriesRequest;
  pq_prev_idx : N;
  pq_entries_sent : N }.

Record PeerResult := mkPeerResult {
  ps_peer_id : N;
  ps_prev_idx : N;
  ps_entries_sent : N;
  ps_reply : AppendEntriesReply;
  ps_rpc_ok : bool }.

(** One turn of the loop that builds the requests. *)
Definition build_request (peer_id : N) (n : Raft) : option (Raft * PeerReq) :=
  let n := match nextIndex_ n !! peer_id with
           | None => set_nextIndex_ (<[peer_id := vsize (log_ n) + 1]> (nextIndex_ n)) n
           | Some _ => n
           end in
  let nextIdx := default 0 (nextIndex_ n !! peer_id) in
  let prevIdx := nextIdx -₆₄ 1 in
  prevTerm ← (if prevIdx =? 0 then Some 0
              else e ← vat (log_ n) (prevIdx -₆₄ 1); Some (term e));
  let es := drop (N.to_nat (nextIdx -₆₄ 1)) (log_ n) in
  Some (n, mkPeerReq peer_id
             (mkAppendEntriesRequest (current_term_ n) (raft_id n) prevIdx prevTerm
                es (commit_index_ n))
             prevIdx (vsize es)).

Fixpoint build_requests (peers : list (N * bool)) (n : Raft)
    : option (Raft * list PeerReq) :=
  match peers with
  | [] => Some (n, [])
  | (peer_id, stub) :: peers =>
      if (stub : bool) then
        '(n, q) ← build_request peer_id n;
        '(n, qs) ← build_requests peers n;
        Some (n, q :: qs)
      else build_requests peers n
  end.

(** First critical section; [None] of the inner option is the early return. *)
Definition heartbeat_requests (n : Raft) : option (Raft * option (list PeerReq)) :=
  if decide (role_ n = LEADER) then
    '(n, qs) ← build_requests (peers_ n) n; Some (n, Some qs)
  else Some (n, None).

(** The result slot of a request before its worker runs: [results] is value
    initialised, and a request whose peer has no worker leaves it so. *)
Definition result_slot (n : Raft) (q : PeerReq) : PeerResult :=
  if bool_decide (pq_peer_id q ∈ peer_workers_ n) then
    mkPeerResult (pq_peer_id q) (pq_prev_idx q) (pq_entries_sent q)
      AppendEntriesReply_default false
  else mkPeerResult 0 0 0 AppendEntriesReply_default false.

(** What the worker's task stores when the RPC returns: [Some reply] for an OK
    status. *)
Definition rpc_result (reply : option AppendEntriesReply) (s : PeerResult) : PeerResult :=
  match reply with
  | Some rep => mkPeerResult (ps_peer_id s) (ps_prev_idx s) (ps_entries_sent s) rep true
  | None => s
  end.

(** One turn of the loop over [results]: [inl] is the early return. *)
Definition process_result (r : N) (st : Raft * N) (res : PeerResult)
    : Raft + (Raft * N) :=
  let '(n, confirmations) := st in
  if negb (ps_rpc_ok res) then inr (n, confirmations)
  else if current_term_ n <? aer_term (ps_reply res) then
    inl (reset_election_timer r
           (set_is_leader_atomic_ false
              (set_voted_for_ None
                 (set_role_ FOLLOWER
                    (set_current_term_ (aer_term (ps_reply res)) n)))))
  else
    let confirmations :=
      if aer_term (ps_reply res) =? current_term_ n
      then confirmations +₆₄ 1 else confirmations in
    if success (ps_reply res) then
      let m := ps_prev_idx res +₆₄ ps_entries_sent res in
      inr (set_nextIndex_ (<[ps_peer_id res := m +₆₄ 1]> (nextIndex_ n))
             (set_matchIndex_ (<[ps_peer_id res := m]> (matchIndex_ n)) n),
           confirmations)
    else
      let next := default 0 (nextIndex_ n !! ps_peer_id res) in
      inr (set_nextIndex_
             (<[ps_peer_id res := if 1 <? next then next -₆₄ 1 else next]> (nextIndex_ n)) n,
           confirmations).

Fixpoint process_results (r : N) (st : Raft * N) (results : list PeerResult)
    : Raft + (Raft * N) :=
  match results with
  | [] => inr st
  | res :: results =>
      match process_result r st res with
      | inl n => inl n
      | inr st => process_results r st results
      end
  end.

(** [1 +] the peers whose [matchIndex_] reaches [idx]. *)
Definition replicated_on (n : Raft) (idx : N) : N :=
  1 + N.of_nat (size (filter (λ kv : N * N, idx ≤ kv.2) (matchIndex_ n))).

(** The downward scan for a new commit index, [fuel] turns of it. *)
Fixpoint commit_scan (fuel : nat) (idx : N) (n : Raft) : option Raft :=
  if commit_index_ n <? idx then
    match fuel with
    | O => None
    | S fuel =>
        e ← vat (log_ n) (idx -₆₄ 1);
        if (term e =? current_term_ n) && (majority n <=? replicated_on n idx)
        then Some (set_commit_index_ idx n)
        else commit_scan fuel (idx -₆₄ 1) n
    end
  else Some n.

Definition scan_commit (n : Raft) : option Raft :=
  commit_scan (length (log_ n)) (vsize (log_ n)) n.

(** The lease bookkeeping that ends the section. *)
Definition renew_lease (confirmations : N) (r : N) (now : Z) (n : Raft) : option Raft :=
  if majority n <=? confirmations then
    let n := set_lease_expires_ns_ (now + ms kLeaseDuration)%Z
               (set_last_majority_at_ now (set_lease_granted_at_ now n)) in
    if 0 <? commit_index_ n then
      e ← vat (log_ n) (commit_index_ n -₆₄ 1);
      if term e =? current_term_ n
      then Some (set_last_term_commit_idx_ (commit_index_ n) n)
      else Some n
    else Some n
  else if (ms (election_timeout_ n) <? now - last_majority_at_ n)%Z then
    Some (reset_election_timer r
            (set_is_leader_atomic_ false (set_voted_for_ None (set_role_ FOLLOWER n))))
  else Some n.

(** Second critical section: the new state and [to_apply], which the caller
    applies after releasing the lock. *)
Definition process_replies (results : list PeerResult) (r : N) (now : Z) (n : Raft)
    : option (Raft * list ApplyResult) :=
  if decide (role_ n = LEADER) then
    match process_results r (n, 1) results with
    | inl n => Some (n, [])
    | inr (n, confirmations) =>
        n ← scan_commit n;
        '(la, to_apply) ← drain (log_ n) (last_applied_ n) (commit_index_ n);
        n ← renew_lease confirmations r now (set_last_applied_ la n);
        Some (n, to_apply)
    end
  else Some (n, []).

(** [propose_cv_.wait_for(..., pred)]: the predicate. *)
Definition cv_ready (n : Raft) : bool := (commit_index_ n <? vsize (log_ n)) || is_dead n.

#[global] Arguments follow_leader : simpl never.
#[global] Arguments adopt_term : simpl never.
#[global] Arguments majority : simpl never.
#[global] Arguments drain : simpl never.
#[global] Arguments add64 : simpl never.
#[global] Arguments sub64 : simpl never.
