(* ===== verification/RaftNodeFacts.v ===== *)
(** Theorems about a single Raft node: what each critical section of
    [RaftNode.v] does, that it never leaves a vector, and which local
    invariants it keeps. *)
From S2P Require Import Prelude Types RaftState RaftNode.

#[local] Open Scope N_scope.
#[local] Open Scope rafty_scope.

(** ** Reference definitions *)

(** Every entry of a log as the result that applying it produces. *)
Definition results_of (log : list Entry) : list ApplyResult :=
  imap (λ i e, mkApplyResult true (command e) (N.of_nat i + 1)) log.

(** The results numbered [la + 1 .. ci]. *)
Definition results_between (log : list Entry) (la ci : N) : list ApplyResult :=
  drop (N.to_nat la) (take (N.to_nat ci) (results_of log)).

(** Overwrite a log suffix: entries are kept while their terms agree with the
    incoming ones, and the first disagreement replaces the whole rest. *)
Fixpoint merge (tail es : list Entry) : list Entry :=
  match es, tail with
  | [], _ => tail
  | _, [] => es
  | e :: es', t :: tail' =>
      if term t =? term e then t :: merge tail' es' else es
  end.

Definition merge_log (log : list Entry) (prev : N) (es : list Entry) : list Entry :=
  take (N.to_nat prev) log ++ merge (drop (N.to_nat prev) log) es.

(** Does the log contain the entry [(prev, t)] a request refers to? *)
Definition prev_matches (log : list Entry) (prev t : N) : Prop :=
  prev = 0 ∨ ∃ e, vat log (prev - 1) = Some e ∧ term e = t.

(** The vectors of the node fit the address space. *)
Definition log_fits (log : list Entry) : Prop := vsize log + 1 < pow64.

(** ** Applying *)

Lemma results_of_app (l k : list Entry) :
  results_of (l ++ k) =
  results_of l ++ imap (λ i e, mkApplyResult true (command e) (N.of_nat (length l + i) + 1)) k.
Proof. unfold results_of. rewrite imap_app. done. Qed.

Lemma length_results_of log : length (results_of log) = length log.
Proof. apply length_imap. Qed.

Lemma results_of_lookup log i e :
  log !! i = Some e →
  results_of log !! i = Some (mkApplyResult true (command e) (N.of_nat i + 1)).
Proof. intros H. unfold results_of. rewrite list_lookup_imap, H. done. Qed.

Lemma take_results_of log k : take k (results_of log) = results_of (take k log).
Proof.
  apply list_eq. intros i. destruct (decide (i < k)%nat) as [Hi|Hi].
  - rewrite lookup_take_lt by done. unfold results_of.
    rewrite !list_lookup_imap, lookup_take_lt by done. done.
  - rewrite (lookup_ge_None_2 (take k _)) by (rewrite length_take; lia).
    rewrite lookup_ge_None_2; [done|].
    rewrite length_results_of, length_take. lia.
Qed.

Lemma results_between_nil log la ci : ci ≤ la → results_between log la ci = [].
Proof.
  intros H. unfold results_between. apply drop_ge. rewrite length_take. lia.
Qed.

Lemma results_between_cons log la ci e :
  la < ci → vat log la = Some e →
  results_between log la ci =
  mkApplyResult true (command e) (la + 1) :: results_between log (la + 1) ci.
Proof.
  intros Hlt He. unfold results_between, vat in *.
  erewrite drop_S with (n := N.to_nat la) (x := mkApplyResult true (command e) (la + 1)).
  - f_equal. f_equal. lia.
  - rewrite lookup_take_lt by lia.
    rewrite (results_of_lookup _ _ _ He). do 2 f_equal. lia.
Qed.

Lemma drain_loop_spec log fuel : ∀ la ci,
  log_fits log → ci ≤ vsize log → (N.to_nat (ci - la) ≤ fuel)%nat →
  drain_loop fuel log la ci = Some (N.max la ci, results_between log la ci).
Proof.
  unfold log_fits. induction fuel as [|fuel IH]; intros la ci Hfit Hci Hfuel; simpl.
  - destruct (N.ltb_spec la ci); [lia|].
    rewrite results_between_nil by lia. do 2 f_equal; lia.
  - destruct (N.ltb_spec la ci) as [Hlt|Hge].
    + rewrite add64_small by lia.
      rewrite sub64_small by lia.
      replace (la + 1 - 1) with la by lia.
      destruct (vat_lt_is_Some log la) as [e He]; [lia|].
      rewrite He. simpl. rewrite IH by (try done; lia). simpl.
      rewrite (results_between_cons log la ci e) by done.
      do 2 f_equal; lia.
    + rewrite results_between_nil by lia. do 2 f_equal; lia.
Qed.

Lemma drain_spec log la ci :
  log_fits log → ci ≤ vsize log →
  drain log la ci = Some (N.max la ci, results_between log la ci).
Proof. intros. apply drain_loop_spec; done. Qed.

(** Nothing is left to apply: the loop body is not entered, whatever the log. *)
Lemma drain_idle log la ci : ci ≤ la → drain log la ci = Some (la, []).
Proof.
  intros H. unfold drain. replace (ci - la) with 0 by lia. simpl.
  destruct (N.ltb_spec la ci); [lia|done].
Qed.

(** ** Appending *)

Lemma merge_nil_l es : merge [] es = es.
Proof. by destruct es. Qed.

Lemma merge_nil_r tail : merge tail [] = tail.
Proof. by destruct tail. Qed.

Lemma length_merge tail es :
  (length es ≤ length (merge tail es))%nat.
Proof.
  revert es. induction tail as [|t tail IH]; intros [|e es]; simpl; try lia.
  destruct (term t =? term e); simpl; [specialize (IH es); lia | lia].
Qed.

Lemma append_entries_spec es : ∀ log prev,
  prev ≤ vsize log → vsize log + vsize es + 1 < pow64 →
  append_entries (log, prev) es = Some (merge_log log prev es, prev + vsize es).
Proof.
  induction es as [|e es IH]; intros log prev Hprev Hfit; simpl.
  - unfold merge_log. rewrite merge_nil_r, take_drop, vsize_nil. do 2 f_equal; lia.
  - autorewrite with rafty_rw in Hfit.
    rewrite add64_small by lia.
    destruct (N.leb_spec (prev + 1) (vsize log)) as [Hin|Hout].
    + rewrite sub64_small by lia. replace (prev + 1 - 1) with prev by lia.
      destruct (vat_lt_is_Some log prev) as [t Ht]; [lia|]. rewrite Ht. simpl.
      unfold merge_log. unfold vat in Ht.
      rewrite (drop_S _ _ _ Ht). simpl.
      destruct (term t =? term e) eqn:Heq; simpl.
      * rewrite IH by lia. unfold merge_log.
        replace (N.to_nat (prev + 1)) with (S (N.to_nat prev)) by lia.
        rewrite (take_S_r _ _ _ Ht), <- app_assoc. simpl.
        autorewrite with rafty_rw. do 2 f_equal; lia.
      * rewrite IH; autorewrite with rafty_rw; [|lia..]. unfold merge_log.
        rewrite take_ge, drop_ge, merge_nil_l, <- app_assoc;
          [|rewrite length_app, length_take; unfold vsize in *; simpl; lia..].
        simpl. do 2 f_equal; lia.
    + assert (prev = vsize log) as -> by lia.
      unfold merge_log at 1. simpl.
      rewrite IH by (autorewrite with rafty_rw; lia). unfold merge_log.
      rewrite !take_ge, !drop_ge, !merge_nil_l, <- app_assoc;
        [|unfold vsize; rewrite ?length_app; simpl; lia..].
      simpl. autorewrite with rafty_rw. do 2 f_equal; lia.
Qed.

Lemma merge_log_take log prev es :
  prev ≤ vsize log → take (N.to_nat prev) (merge_log log prev es) = take (N.to_nat prev) log.
Proof.
  intros H. unfold merge_log. rewrite take_app_le.
  - rewrite take_take. f_equal. lia.
  - rewrite length_take. unfold vsize in H. lia.
Qed.

(** The merged log is long enough to hold every incoming entry. *)
Lemma vsize_merge_log log prev es :
  prev ≤ vsize log → prev + vsize es ≤ vsize (merge_log log prev es).
Proof.
  intros H. unfold merge_log. rewrite vsize_app, vsize_take.
  pose proof (length_merge (drop (N.to_nat prev) log) es). unfold vsize in *. lia.
Qed.

Lemma length_merge_le tail es :
  (length (merge tail es) ≤ length tail + length es)%nat.
Proof.
  revert es. induction tail as [|t tail IH]; intros [|e es]; simpl; try lia.
  destruct (term t =? term e); simpl; [specialize (IH es); lia | lia].
Qed.

Lemma vsize_merge_log_le log prev es :
  vsize (merge_log log prev es) ≤ vsize log + vsize es.
Proof.
  unfold merge_log. rewrite vsize_app.
  pose proof (length_merge_le (drop (N.to_nat prev) log) es) as H.
  rewrite length_drop in H. rewrite vsize_take. unfold vsize. lia.
Qed.

(** Entries that agree with the incoming ones wherever their terms do are not
    disturbed: the merge is then the incoming list, or the longer old suffix. *)
Lemma merge_prefix tail es :
  (∀ i t e, tail !! i = Some t → es !! i = Some e → term t = term e → t = e) →
  es `prefix_of` merge tail es.
Proof.
  revert es. induction tail as [|t tail IH]; intros [|e es] Hm; simpl;
    try apply prefix_nil; try done.
  destruct (N.eqb_spec (term t) (term e)) as [Ht|Ht]; [|done].
  rewrite (Hm 0%nat t e) by done. apply prefix_cons, IH.
  intros i. apply (Hm (S i)).
Qed.

Lemma merge_agrees tail es :
  es `prefix_of` tail → merge tail es = tail.
Proof.
  revert es. induction tail as [|t tail IH]; intros [|e es] Hp; simpl; try done.
  - by apply prefix_nil_inv in Hp.
  - apply prefix_cons_inv_1 in Hp as Heq. subst.
    rewrite N.eqb_refl. f_equal. apply IH. by apply prefix_cons_inv_2 in Hp.
Qed.

(** ** [handle_append_entries] *)

(** The consistency check of the handler as one test. *)
Definition prev_ok (log : list Entry) (req : AppendEntriesRequest) : bool :=
  (prevLogIndex req <=? vsize log) &&
  ((prevLogIndex req =? 0) ||
   match vat log (prevLogIndex req - 1) with
   | Some e => term e =? prevLogTerm req
   | None => false
   end).

(** The commit index after a request is accepted into the log [log']. *)
Definition commit_after (req : AppendEntriesRequest) (ci : N) (log' : list Entry) : N :=
  if ci <? leaderCommit req then N.min (leaderCommit req) (vsize log') else ci.

(** The state after a request is accepted. *)
Definition accepted (req : AppendEntriesRequest) (r : N) (n : Raft) : Raft :=
  let log' := merge_log (log_ n) (prevLogIndex req) (entries req) in
  let ci := commit_after req (commit_index_ n) log' in
  set_ready_queue (ready_queue n ++ results_between log' (last_applied_ n) ci)
    (set_last_applied_ (N.max (last_applied_ n) ci)
       (set_commit_index_ ci (set_log_ log' (follow_leader req r n)))).

(** [follow_leader] touches the fields of the election only. *)
Lemma follow_leader_frame req r n :
  let n' := follow_leader req r n in
  log_ n' = log_ n ∧ commit_index_ n' = commit_index_ n ∧
  last_applied_ n' = last_applied_ n ∧ ready_queue n' = ready_queue n ∧
  current_term_ n' = N.max (current_term_ n) (aeq_term req) ∧
  role_ n' = FOLLOWER ∧ received_heartbeat_ n' = true.
Proof.
  unfold follow_leader. destruct (N.ltb_spec (current_term_ n) (aeq_term req));
    simpl; case_decide; simpl; repeat split; lia.
Qed.

Lemma prev_ok_spec log req :
  log_fits log →
  match vsize log <? prevLogIndex req with
  | true => prev_ok log req = false
  | false => prev_mismatch log req = Some (negb (prev_ok log req))
  end.
Proof.
  unfold log_fits, prev_ok, prev_mismatch. intros Hfit.
  destruct (N.ltb_spec (vsize log) (prevLogIndex req)) as [Hlt|Hge].
  { by replace (prevLogIndex req <=? vsize log) with false
      by (symmetry; apply N.leb_gt; lia). }
  replace (prevLogIndex req <=? vsize log) with true
    by (symmetry; apply N.leb_le; lia).
  destruct (N.ltb_spec 0 (prevLogIndex req)) as [Hpos|Hz]; simpl.
  - rewrite sub64_small by lia.
    destruct (vat_lt_is_Some log (prevLogIndex req - 1)) as [e He]; [lia|].
    rewrite He. simpl.
    by replace (prevLogIndex req =? 0) with false by (symmetry; apply N.eqb_neq; lia).
  - by replace (prevLogIndex req =? 0) with true by (symmetry; apply N.eqb_eq; lia).
Qed.

Lemma advance_commit_spec req n :
  commit_index_ n ≤ last_applied_ n → log_fits (log_ n) →
  let ci := commit_after req (commit_index_ n) (log_ n) in
  advance_commit req n =
  Some (set_ready_queue (ready_queue n ++ results_between (log_ n) (last_applied_ n) ci)
          (set_last_applied_ (N.max (last_applied_ n) ci) (set_commit_index_ ci n))).
Proof.
  intros Hci Hfit. unfold advance_commit, commit_after.
  destruct (N.ltb_spec (commit_index_ n) (leaderCommit req)) as [Hlt|Hge]; simpl.
  - rewrite drain_spec by (try done; lia). done.
  - rewrite drain_idle by done. simpl.
    rewrite results_between_nil, N.max_l by done. by destruct n.
Qed.

(** What the handler computes, on every branch. *)
Lemma handle_append_entries_eq req r n :
  commit_index_ n ≤ last_applied_ n →
  vsize (log_ n) + vsize (entries req) + 1 < pow64 →
  handle_append_entries req r n =
  Some (if aeq_term req <? current_term_ n
        then (n, mkAppendEntriesReply (current_term_ n) false)
        else if prev_ok (log_ n) req
             then (accepted req r n, mkAppendEntriesReply (aeq_term req) true)
             else (follow_leader req r n, mkAppendEntriesReply (aeq_term req) false)).
Proof.
  intros Hci Hfit. unfold handle_append_entries.
  destruct (N.ltb_spec (aeq_term req) (current_term_ n)) as [Hst|Hge]; [done|].
  destruct (follow_leader_frame req r n)
    as (Hlog & Hcm & Hla & Hrq & Hterm & _ & _).
  rewrite N.max_r in Hterm by lia. unfold accepted.
  generalize dependent (follow_leader req r n). intros n0 Hlog Hcm Hla Hrq Hterm.
  rewrite Hlog, Hterm.
  pose proof (prev_ok_spec (log_ n) req) as Hprev.
  destruct (N.ltb_spec (vsize (log_ n)) (prevLogIndex req)) as [Hlt|Hle].
  { rewrite Hprev by (unfold log_fits; lia). done. }
  rewrite Hprev by (unfold log_fits; lia). simpl.
  destruct (prev_ok (log_ n) req) eqn:Hok; simpl; [|done].
  rewrite append_entries_spec by lia. simpl.
  rewrite advance_commit_spec; simpl.
  - rewrite Hcm, Hla, Hrq, Hterm. done.
  - rewrite Hcm, Hla. done.
  - unfold log_fits.
    pose proof (vsize_merge_log_le (log_ n) (prevLogIndex req) (entries req)). lia.
Qed.

(** ** In-order delivery *)

(** The queue received the results [1 .. last_applied_], each once, in order. *)
Definition queue_in_order (n : Raft) : Prop :=
  index <$> ready_queue n = N.of_nat <$> seq 1 (N.to_nat (last_applied_ n)).

Lemma index_results_of log :
  index <$> results_of log = N.of_nat <$> seq 1 (length log).
Proof.
  apply list_eq. intros i. rewrite !list_lookup_fmap. unfold results_of.
  rewrite list_lookup_imap. destruct (log !! i) as [e|] eqn:He; simpl.
  - rewrite lookup_seq_lt by (by eapply lookup_lt_Some). simpl. f_equal. lia.
  - rewrite lookup_seq_ge; [done|]. by apply lookup_ge_None.
Qed.

Lemma index_results_between log la ci :
  la ≤ ci → ci ≤ vsize log →
  (N.of_nat <$> seq 1 (N.to_nat la)) ++ (index <$> results_between log la ci)
  = N.of_nat <$> seq 1 (N.to_nat ci).
Proof.
  intros Hle Hci. unfold results_between.
  rewrite fmap_drop, fmap_take, index_results_of.
  rewrite <- fmap_take, <- fmap_drop, <- fmap_app. f_equal.
  rewrite take_seq, drop_seq, <- seq_app. f_equal. unfold vsize in Hci. lia.
Qed.

(** Appending results beyond [last_applied_] keeps the queue in order. *)
Lemma queue_in_order_extend n la ci log :
  queue_in_order n → last_applied_ n = la → (la < ci → ci ≤ vsize log) →
  index <$> (ready_queue n ++ results_between log la ci)
  = N.of_nat <$> seq 1 (N.to_nat (N.max la ci)).
Proof.
  unfold queue_in_order. intros Hq <- Hci. rewrite fmap_app, Hq.
  destruct (N.le_gt_cases ci (last_applied_ n)) as [Hle|Hlt].
  - rewrite results_between_nil, app_nil_r, N.max_l by done. done.
  - rewrite N.max_r by lia. apply index_results_between; [lia|]. by apply Hci.
Qed.

(** ** The commit rule *)

(** May the leader commit up to [idx]: the entry is of the current term and a
    majority holds it. *)
Definition committable (n : Raft) (idx : N) : Prop :=
  ∃ e, vat (log_ n) (idx - 1) = Some e ∧ term e = current_term_ n ∧
       majority n ≤ replicated_on n idx.

(** [c] is the greatest committable index above the commit index, or the commit
    index when there is none. *)
Definition best_commit (n : Raft) (c : N) : Prop :=
  commit_index_ n ≤ c ∧
  (c = commit_index_ n ∨ (c ≤ vsize (log_ n) ∧ committable n c)) ∧
  ∀ idx, c < idx ≤ vsize (log_ n) → ¬ committable n idx.

Lemma commit_scan_spec fuel : ∀ idx n,
  log_fits (log_ n) → idx ≤ vsize (log_ n) → (N.to_nat idx ≤ fuel)%nat →
  (∀ i, idx < i ≤ vsize (log_ n) → ¬ committable n i) →
  ∃ c, commit_scan fuel idx n = Some (set_commit_index_ c n) ∧
       (commit_index_ n ≤ vsize (log_ n) → best_commit n c) ∧
       (vsize (log_ n) < commit_index_ n → c = commit_index_ n).
Proof.
  unfold log_fits. induction fuel as [|fuel IH]; intros idx n Hfit Hidx Hfuel Hnone; simpl.
  - destruct (N.ltb_spec (commit_index_ n) idx); [lia|].
    exists (commit_index_ n). split; [by destruct n|]. split; [|done]. intros _.
    split; [lia|]. split; [by left|]. intros i Hi. apply Hnone. lia.
  - destruct (N.ltb_spec (commit_index_ n) idx) as [Hlt|Hge].
    2:{ exists (commit_index_ n). split; [by destruct n|]. split; [|done]. intros _.
        split; [lia|]. split; [by left|]. intros i Hi. apply Hnone. lia. }
    rewrite sub64_small by lia.
    destruct (vat_lt_is_Some (log_ n) (idx - 1)) as [e He]; [lia|]. rewrite He. simpl.
    destruct ((term e =? current_term_ n) && (majority n <=? replicated_on n idx)) eqn:Hc.
    + bool_to_prop. exists idx. split; [done|]. split; [|lia]. intros _.
      split; [lia|]. split; [right; split; [done|]; exists e; eauto|]. done.
    + apply IH; [done|lia|lia|].
      intros i Hi. destruct (decide (i = idx)) as [->|]; [|apply Hnone; lia].
      intros (e' & He' & Ht & Hm). rewrite He in He'. simplify_eq.
      apply andb_false_iff in Hc as [Hc|Hc]; bool_to_prop; [done|lia].
Qed.

Lemma scan_commit_spec n :
  log_fits (log_ n) →
  ∃ c, scan_commit n = Some (set_commit_index_ c n) ∧
       (commit_index_ n ≤ vsize (log_ n) → best_commit n c) ∧
       (vsize (log_ n) < commit_index_ n → c = commit_index_ n).
Proof.
  intros Hfit. apply commit_scan_spec; [done|done|unfold vsize; lia|lia].
Qed.

(** ** The replication indices of a leader *)

(** Every [nextIndex_] points into the log or just past it. *)
Definition next_in_range (n : Raft) : Prop :=
  map_Forall (λ _ i, 1 ≤ i ≤ vsize (log_ n) + 1) (nextIndex_ n).

Definition match_in_range (n : Raft) : Prop :=
  map_Forall (λ _ i, i ≤ vsize (log_ n)) (matchIndex_ n).

(** The next index of a peer: [nextIndex_], or the end of the log if there is no entry. *)
Definition next_of (n : Raft) (p : N) : N := default (vsize (log_ n) + 1) (nextIndex_ n !! p).

(** The request for a peer: the rest of the log from its next index on. *)
Definition request_of (n : Raft) (q : PeerReq) : Prop :=
  pq_prev_idx q = next_of n (pq_peer_id q) - 1 ∧
  pq_prev_idx q ≤ vsize (log_ n) ∧
  prevLogIndex (pq_request q) = pq_prev_idx q ∧
  entries (pq_request q) = drop (N.to_nat (pq_prev_idx q)) (log_ n) ∧
  pq_entries_sent q = vsize (entries (pq_request q)) ∧
  prev_matches (log_ n) (pq_prev_idx q) (prevLogTerm (pq_request q)) ∧
  aeq_term (pq_request q) = current_term_ n ∧
  leaderId (pq_request q) = raft_id n ∧
  leaderCommit (pq_request q) = commit_index_ n.

(** What [build_request] leaves alone. *)
Definition same_but_next (n n' : Raft) : Prop := n' = set_nextIndex_ (nextIndex_ n') n.

Lemma build_request_spec p n :
  log_fits (log_ n) → next_in_range n →
  ∃ n' q, build_request p n = Some (n', q) ∧ same_but_next n n' ∧
          next_in_range n' ∧ request_of n q ∧ pq_peer_id q = p ∧
          nextIndex_ n' !! p = Some (pq_prev_idx q + 1) ∧
          dom (nextIndex_ n') = {[p]} ∪ dom (nextIndex_ n) ∧ ∀ k, next_of n' k = next_of n k.
Proof.
  unfold log_fits. intros Hfit Hnx. unfold build_request.
  set (n0 := match nextIndex_ n !! p with None => _ | Some _ => n end).
  assert (same_but_next n n0 ∧ next_in_range n0 ∧ is_Some (nextIndex_ n0 !! p) ∧
          dom (nextIndex_ n0) = {[p]} ∪ dom (nextIndex_ n) ∧ ∀ k, next_of n0 k = next_of n k)
    as (Hsame & Hnx0 & [i Hi] & Hdom & Hof).
  { subst n0. unfold same_but_next. destruct (nextIndex_ n !! p) eqn:Hp.
    - split; [by destruct n|]. split; [done|]. rewrite Hp.
      apply elem_of_dom_2 in Hp. split_and!; [done|set_solver|done].
    - simpl. split; [by destruct n|]. split_and!.
      + unfold next_in_range in *. simpl. apply map_Forall_insert_2; [lia|done].
      + by rewrite lookup_insert_eq.
      + apply dom_insert_L.
      + intros k. unfold next_of. simpl. destruct (decide (k = p)) as [->|].
        * by rewrite lookup_insert_eq, Hp.
        * by rewrite lookup_insert_ne. }
  assert (next_of n p = i) as Hnp by (by rewrite <- Hof; unfold next_of; rewrite Hi).
  pose proof (Hnx0 p i Hi) as Hr. simpl in Hr.
  assert (log_ n0 = log_ n ∧ current_term_ n0 = current_term_ n ∧
          raft_id n0 = raft_id n ∧ commit_index_ n0 = commit_index_ n)
    as (Hl & Ht & Hid & Hc) by (rewrite Hsame; done).
  rewrite Hi, Hl, Ht, Hid, Hc in *. simpl. rewrite sub64_small by lia.
  assert (∃ t, (if i - 1 =? 0 then Some 0
                else e ← vat (log_ n) (i - 1 -₆₄ 1); Some (term e)) = Some t ∧
               prev_matches (log_ n) (i - 1) t) as (t & -> & Hm).
  { destruct (N.eqb_spec (i - 1) 0) as [Hz|Hnz].
    - exists 0. split; [done|]. left. lia.
    - rewrite sub64_small by lia.
      destruct (vat_lt_is_Some (log_ n) (i - 1 - 1)) as [e He]; [lia|].
      rewrite He. exists (term e). split; [done|]. right. eauto. }
  simpl. eexists _, _. split; [done|]. split; [done|]. split; [done|].
  split; [|split_and!; [done|rewrite Hi; simpl; f_equal; lia|done|done]].
  repeat split; simpl; rewrite ?Hnp; try done; lia.
Qed.

Lemma build_requests_spec ps : ∀ n,
  log_fits (log_ n) → next_in_range n →
  ∃ n' qs, build_requests ps n = Some (n', qs) ∧ same_but_next n n' ∧
           next_in_range n' ∧ Forall (request_of n) qs ∧
           pq_peer_id <$> qs = (filter (λ p, p.2 = true) ps).*1 ∧
           dom (nextIndex_ n') = list_to_set (pq_peer_id <$> qs) ∪ dom (nextIndex_ n) ∧
           ∀ k, next_of n' k = next_of n k.
Proof.
  induction ps as [|[p [|]] ps IH]; intros n Hfit Hnx; cbn [build_requests].
  - exists n, []. unfold same_but_next. split_and!; try done; [by destruct n|set_solver].
  - destruct (build_request_spec p n Hfit Hnx)
      as (n1 & q & -> & Hs & Hnx1 & Hq & Hp & _ & Hd1 & Hof).
    assert (log_ n1 = log_ n) as Hl by (rewrite Hs; done). cbn [mbind option_bind].
    destruct (IH n1) as (n2 & qs & -> & Hs2 & Hnx2 & Hqs & Hids & Hd2 & Hof2);
      [by rewrite Hl|done|].
    exists n2, (q :: qs). split; [done|].
    split. { unfold same_but_next in *. rewrite Hs2, Hs. done. }
    split; [done|]. split_and!.
    + constructor; [done|]. eapply List.Forall_impl; [|exact Hqs].
      intros q'. unfold request_of. rewrite Hof, Hs. done.
    + rewrite filter_cons_True by done. csimpl. by rewrite Hids, Hp.
    + csimpl. rewrite Hd2, Hd1, Hp. set_solver.
    + intros k. by rewrite Hof2.
  - destruct (IH n Hfit Hnx) as (n' & qs & H). exists n', qs.
    by rewrite filter_cons_False.
Qed.

(** An index map that differs only in entries that were missing. *)
Lemma filled_in n n' ids k :
  dom (nextIndex_ n') = list_to_set ids ∪ dom (nextIndex_ n) →
  (∀ k, next_of n' k = next_of n k) → same_but_next n n' →
  nextIndex_ n' !! k = if decide (k ∈ ids) then Some (next_of n k) else nextIndex_ n !! k.
Proof.
  intros Hd Hn Hs. specialize (Hn k). unfold next_of in *.
  assert (log_ n' = log_ n) as El by (by rewrite Hs). rewrite El in Hn.
  assert (k ∈ dom (nextIndex_ n') ↔ k ∈ ids ∨ k ∈ dom (nextIndex_ n)) as Hk by (rewrite Hd; set_solver).
  rewrite !elem_of_dom in Hk. case_decide as Hin.
  - destruct (nextIndex_ n' !! k) as [v|]; simpl in *; [by rewrite Hn|].
    destruct Hk as [_ Hk]. destruct Hk as [? ?]; [by left|done].
  - destruct (nextIndex_ n' !! k) as [v|], (nextIndex_ n !! k) as [w|]; simpl in *; try done.
    + by rewrite Hn.
    + destruct Hk as [Hk _]. destruct Hk as [?|[? ?]]; [by eexists|done|done].
    + destruct Hk as [_ Hk]. destruct Hk as [? ?]; [by right; eexists|done].
Qed.

(** A result that belongs to a request of this leader: its peer is being
    replicated to, and a success covers entries the leader has. *)
Definition result_ok (n : Raft) (res : PeerResult) : Prop :=
  ps_rpc_ok res = true →
  is_Some (nextIndex_ n !! ps_peer_id res) ∧
  (success (ps_reply res) = true → ps_prev_idx res + ps_entries_sent res ≤ vsize (log_ n)).

(** The early return of the second section: a later term was seen. *)
Definition deposed (n n' : Raft) : Prop :=
  role_ n' = FOLLOWER ∧ voted_for_ n' = None ∧ is_leader_atomic_ n' = false ∧
  current_term_ n < current_term_ n' ∧
  log_ n' = log_ n ∧ commit_index_ n' = commit_index_ n ∧
  last_applied_ n' = last_applied_ n ∧ ready_queue n' = ready_queue n ∧
  raft_id n' = raft_id n ∧ peers_ n' = peers_ n ∧ dead n' = dead n ∧
  received_heartbeat_ n' = received_heartbeat_ n.

Definition same_but_indices (n n' : Raft) : Prop :=
  n' = set_matchIndex_ (matchIndex_ n') (set_nextIndex_ (nextIndex_ n') n).

Lemma same_but_indices_refl n : same_but_indices n n.
Proof. by destruct n. Qed.

Lemma same_but_indices_trans n1 n2 n3 :
  same_but_indices n1 n2 → same_but_indices n2 n3 → same_but_indices n1 n3.
Proof. unfold same_but_indices. intros H1 H2. rewrite H2, H1. done. Qed.

Section results.
(** What is known about every entry of [matchIndex_]. *)
Context (P : N → N → Prop).

Definition match_ok (n : Raft) : Prop := map_Forall P (matchIndex_ n).

Definition result_match (res : PeerResult) : Prop :=
  ps_rpc_ok res = true → success (ps_reply res) = true →
  P (ps_peer_id res) (ps_prev_idx res + ps_entries_sent res).

Lemma process_result_spec r n c res :
  log_fits (log_ n) → next_in_range n → match_ok n →
  result_ok n res → result_match res →
  match process_result r (n, c) res with
  | inl n' => deposed n n' ∧ current_term_ n' = aer_term (ps_reply res) ∧
              ps_rpc_ok res = true ∧ match_ok n' ∧ dom (nextIndex_ n') = dom (nextIndex_ n)
  | inr (n', _) =>
      same_but_indices n n' ∧ next_in_range n' ∧ match_ok n' ∧
      dom (nextIndex_ n') = dom (nextIndex_ n)
  end.
Proof.
  unfold log_fits. intros Hfit Hnx Hm Hres HP. unfold process_result.
  destruct (ps_rpc_ok res) eqn:Hok; simpl; [|by auto using same_but_indices_refl].
  destruct Hres as [[i Hi] Hsucc]; [done|].
  assert (∀ v, dom (<[ps_peer_id res := v]> (nextIndex_ n)) = dom (nextIndex_ n)) as Hdom.
  { intros v. rewrite dom_insert_L. apply elem_of_dom_2 in Hi. set_solver. }
  destruct (N.ltb_spec (current_term_ n) (aer_term (ps_reply res))) as [Hlt|Hge].
  { unfold deposed. simpl. repeat split; done. }
  destruct (success (ps_reply res)) eqn:Hs; simpl.
  - specialize (Hsucc eq_refl). rewrite !add64_small by (rewrite ?add64_small; lia).
    split; [by destruct n|]. split; [|split; [|apply Hdom]].
    + unfold next_in_range in *. simpl. apply map_Forall_insert_2; [lia|done].
    + unfold match_ok in *. simpl. apply map_Forall_insert_2; [by apply HP|done].
  - rewrite Hi. simpl. pose proof (Hnx _ _ Hi) as Hr. simpl in Hr.
    split; [by destruct n|]. split; [|split; [done|apply Hdom]].
    unfold next_in_range in *. simpl. apply map_Forall_insert_2; [|done].
    destruct (N.ltb_spec 1 i); [rewrite sub64_small by lia|]; lia.
Qed.

Lemma process_results_spec r results : ∀ n c,
  log_fits (log_ n) → next_in_range n → match_ok n →
  Forall (result_ok n) results → Forall result_match results →
  match process_results r (n, c) results with
  | inl n' => deposed n n' ∧ match_ok n' ∧ dom (nextIndex_ n') = dom (nextIndex_ n) ∧
              ∃ res, res ∈ results ∧ ps_rpc_ok res = true ∧
                     current_term_ n' = aer_term (ps_reply res)
  | inr (n', _) => same_but_indices n n' ∧ next_in_range n' ∧ match_ok n' ∧
                   dom (nextIndex_ n') = dom (nextIndex_ n)
  end.
Proof.
  induction results as [|res results IH]; intros n c Hfit Hnx Hm Hok HP;
    cbn [process_results].
  { by auto using same_but_indices_refl. }
  apply Forall_cons_1 in Hok as [Hok1 Hok2]. apply Forall_cons_1 in HP as [HP1 HP2].
  pose proof (process_result_spec r n c res Hfit Hnx Hm Hok1 HP1) as Hstep.
  destruct (process_result r (n, c) res) as [n'|[n' c']].
  { destruct Hstep as (? & ? & ? & ? & ?). split_and!; try done.
    exists res. split; [by left|done]. }
  destruct Hstep as (Hs & Hnx' & Hm' & Hd).
  assert (log_ n' = log_ n) as Hl by (rewrite Hs; done).
  specialize (IH n' c'). rewrite Hl in IH.
  assert (Forall (result_ok n') results) as Hok'.
  { eapply List.Forall_impl; [|exact Hok2]. unfold result_ok. rewrite Hl.
    intros res' H Hrpc. destruct (H Hrpc) as [Hin ?]. split; [|done].
    apply elem_of_dom. rewrite Hd. by apply elem_of_dom. }
  specialize (IH Hfit Hnx' Hm' Hok' HP2).
  destruct (process_results r (n', c') results) as [n2|[n2 c2]].
  - destruct IH as (Hdep & ? & Hd2 & res' & ? & ?). split_and!; [|done|congruence|].
    + unfold deposed in *. rewrite Hs in Hdep. done.
    + exists res'. split; [by right|done].
  - destruct IH as (? & ? & ? & ?). split_and!; [|done|done|congruence].
    by eapply same_but_indices_trans.
Qed.
End results.

(** *** What the replies do to the indices *)

(** A reply that arrived and names a later term, one that confirms the leader's term, and
    one by which peer [p] acknowledges what it was sent. *)
Definition later (t : N) (res : PeerResult) : Prop :=
  ps_rpc_ok res = true ∧ t < aer_term (ps_reply res).
Definition confirms (t : N) (res : PeerResult) : Prop :=
  ps_rpc_ok res = true ∧ aer_term (ps_reply res) = t.
Definition acknowledges (p : N) (res : PeerResult) : Prop :=
  ps_rpc_ok res = true ∧ success (ps_reply res) = true ∧ ps_peer_id res = p.

#[export] Instance later_dec t res : Decision (later t res).
Proof. unfold later. apply _. Defined.
#[export] Instance confirms_dec t res : Decision (confirms t res).
Proof. unfold confirms. apply _. Defined.
#[export] Instance acknowledges_dec p res : Decision (acknowledges p res).
Proof. unfold acknowledges. apply _. Defined.

(** The leader and the peers that confirm its term. *)
Definition confirmations (t : N) (results : list PeerResult) : N :=
  1 + vsize (filter (confirms t) results).

(** What a peer is known to hold after a round: the end of what it acknowledged last. *)
Definition match_after (results : list PeerResult) (m : gmap N N) (p : N) : option N :=
  match list.last (filter (acknowledges p) results) with
  | Some res => Some (ps_prev_idx res + ps_entries_sent res)
  | None => m !! p
  end.

(** The next index of a peer after its reply: past what it acknowledged, or one back, but
    not below 1. *)
Definition next_after (n : Raft) (res : PeerResult) : N :=
  if success (ps_reply res) then ps_prev_idx res + ps_entries_sent res + 1
  else N.max 1 (next_of n (ps_peer_id res) - 1).

(** The indices of a leader that has seen [results], none of a later term. *)
Record round_counted (n n' : Raft) (results : list PeerResult) : Prop := {
  rc_match : ∀ p, matchIndex_ n' !! p = match_after results (matchIndex_ n) p;
  rc_next : NoDup (ps_peer_id <$> filter (λ res, ps_rpc_ok res = true) results) →
    ∀ res, res ∈ results → ps_rpc_ok res = true →
      nextIndex_ n' !! ps_peer_id res = Some (next_after n res);
  rc_other : ∀ p, p ∉ ps_peer_id <$> filter (λ res, ps_rpc_ok res = true) results →
    nextIndex_ n' !! p = nextIndex_ n !! p }.

Lemma match_after_cons res results m p :
  match_after (res :: results) m p =
  match_after results (if decide (ps_rpc_ok res = true ∧ success (ps_reply res) = true)
                       then <[ps_peer_id res := ps_prev_idx res + ps_entries_sent res]> m else m) p.
Proof.
  unfold match_after. rewrite filter_cons. unfold acknowledges at 1.
  case_decide as Hp; case_decide as Ha; try naive_solver.
  - destruct Hp as (_ & _ & <-). rewrite last_cons. destruct (list.last _); [done|].
    by rewrite lookup_insert_eq.
  - destruct (list.last _); [done|]. rewrite lookup_insert_ne; naive_solver.
Qed.

Lemma process_result_counts r n c res :
  log_fits (log_ n) → next_in_range n → result_ok n res → ¬ later (current_term_ n) res →
  ∃ n' c', process_result r (n, c) res = inr (n', c') ∧ same_but_indices n n' ∧ next_in_range n' ∧
    dom (nextIndex_ n') = dom (nextIndex_ n) ∧
    c' = (if decide (confirms (current_term_ n) res) then c +₆₄ 1 else c) ∧
    matchIndex_ n' = (if decide (ps_rpc_ok res = true ∧ success (ps_reply res) = true)
                      then <[ps_peer_id res := ps_prev_idx res + ps_entries_sent res]> (matchIndex_ n)
                      else matchIndex_ n) ∧
    nextIndex_ n' = (if ps_rpc_ok res then <[ps_peer_id res := next_after n res]> (nextIndex_ n)
                     else nextIndex_ n).
Proof.
  unfold log_fits. intros Hfit Hnx Hok Hl.
  pose proof (process_result_spec (λ _ _, True) r n c res Hfit Hnx) as Hsp.
  assert (match_ok (λ _ _, True) n) as Hany by done.
  assert (result_match (λ _ _, True) res) as Hanyr by done.
  specialize (Hsp Hany Hok Hanyr). unfold process_result, next_after, next_of in *.
  assert (confirms (current_term_ n) res ↔ ps_rpc_ok res = true ∧ aer_term (ps_reply res) = current_term_ n)
    as Hcf by done. unfold later in Hl.
  destruct (ps_rpc_ok res) eqn:Hrpc; simpl in *.
  2:{ exists n, c. rewrite !decide_False by naive_solver. by destruct Hsp as (? & ? & _ & ?). }
  destruct (Hok Hrpc) as [[i Hi] Hsucc].
  destruct (N.ltb_spec (current_term_ n) (aer_term (ps_reply res))); [naive_solver|].
  destruct (success (ps_reply res)) eqn:Hs; simpl in *.
  - specialize (Hsucc eq_refl). destruct Hsp as (? & ? & _ & ?).
    eexists _, _. split; [reflexivity|]. split_and!; try done; simpl.
    + destruct (N.eqb_spec (aer_term (ps_reply res)) (current_term_ n)); case_decide; [done|tauto|tauto|done].
    + by rewrite add64_small by lia.
    + by rewrite !add64_small by (rewrite ?add64_small; lia).
  - destruct Hsp as (? & ? & _ & ?). eexists _, _. split; [reflexivity|]. split_and!; try done; simpl.
    + destruct (N.eqb_spec (aer_term (ps_reply res)) (current_term_ n)); case_decide; [done|tauto|tauto|done].
    + rewrite Hi. simpl. pose proof (Hnx _ _ Hi) as Hr. simpl in Hr. f_equal.
      destruct (N.ltb_spec 1 i); [rewrite sub64_small by lia|]; lia.
Qed.

Lemma result_ok_kept n n' res :
  same_but_indices n n' → dom (nextIndex_ n') = dom (nextIndex_ n) → result_ok n res → result_ok n' res.
Proof.
  unfold result_ok. intros Hs Hd H Hrpc. destruct (H Hrpc) as [Hin Hsz].
  assert (log_ n' = log_ n) as -> by (by rewrite Hs). split; [|done].
  apply elem_of_dom. rewrite Hd. by apply elem_of_dom.
Qed.

(** The loop over the replies, while none names a later term. *)
Lemma process_results_counts r results : ∀ n c,
  log_fits (log_ n) → next_in_range n → Forall (result_ok n) results →
  Forall (λ res, ¬ later (current_term_ n) res) results →
  c + vsize results < pow64 →
  ∃ n', process_results r (n, c) results =
          inr (n', c + vsize (filter (confirms (current_term_ n)) results)) ∧
    same_but_indices n n' ∧ next_in_range n' ∧ round_counted n n' results.
Proof.
  induction results as [|res results IH]; intros n c Hfit Hnx Hok Hl Hsz; cbn [process_results].
  { exists n. split_and!; [|apply same_but_indices_refl|done|].
    - change (filter _ []) with (@nil PeerResult). by rewrite vsize_nil, N.add_0_r.
    - split; [done|by intros _ res ?%not_elem_of_nil|done]. }
  apply Forall_cons_1 in Hok as [Hok1 Hok2]. apply Forall_cons_1 in Hl as [Hl1 Hl2].
  rewrite vsize_cons in Hsz.
  destruct (process_result_counts r n c res Hfit Hnx Hok1 Hl1)
    as (n1 & c1 & -> & Hs & Hnx1 & Hd & Hc1 & Hm1 & Hn1).
  assert (log_ n1 = log_ n ∧ current_term_ n1 = current_term_ n) as [El Et] by (by rewrite Hs).
  assert (c1 ≤ c + 1) as Hc1le.
  { rewrite Hc1. destruct (decide (confirms (current_term_ n) res)); [rewrite add64_small by lia|]; lia. }
  destruct (IH n1 c1) as (n2 & Hrun & Hs2 & Hnx2 & [Hm2 Hn2 Ho2]).
  { by rewrite El. }
  { done. }
  { eapply List.Forall_impl; [|exact Hok2]. intros res'. by apply result_ok_kept. }
  { by rewrite Et. }
  { lia. }
  exists n2. rewrite Et in Hrun. split_and!; [|by eapply same_but_indices_trans|done|].
  - rewrite Hrun. do 2 f_equal. rewrite Hc1, filter_cons. clear Hm1.
    destruct (decide (confirms (current_term_ n) res)); [|done].
    rewrite vsize_cons, add64_small by lia. lia.
  - split.
    + intros p. rewrite Hm2, match_after_cons, Hm1. done.
    + rewrite filter_cons. intros Hnd res' Hin Hrpc.
      apply elem_of_cons in Hin as [->|Hin].
      * rewrite decide_True in Hnd by done. csimpl in Hnd. apply NoDup_cons in Hnd as [Hni _].
        rewrite (Ho2 _ Hni), Hn1, Hrpc. by rewrite lookup_insert_eq.
      * assert (ps_rpc_ok res = true → ps_peer_id res ≠ ps_peer_id res') as Hne.
        { intros Hr E. rewrite decide_True in Hnd by done. csimpl in Hnd.
          apply NoDup_cons in Hnd as [Hni _]. apply Hni. rewrite E.
          apply list_elem_of_fmap. exists res'. split; [done|]. by apply list_elem_of_filter. }
        rewrite (Hn2 ltac:(case_decide; [csimpl in Hnd; by apply NoDup_cons in Hnd as [_ ?]|done]) res' Hin Hrpc).
        unfold next_after, next_of. rewrite El, Hn1.
        destruct (ps_rpc_ok res) eqn:Hr; [|done]. by rewrite lookup_insert_ne by (by apply Hne).
    + intros p. rewrite filter_cons. intros Hp. rewrite Ho2, Hn1.
      * destruct (ps_rpc_ok res); [|done]. rewrite decide_True in Hp by done. csimpl in Hp.
        rewrite lookup_insert_ne; [done|]. set_solver.
      * case_decide; [csimpl in Hp; set_solver|done].
Qed.

(** The first reply of a later term ends the loop. *)
Lemma process_results_later r results : ∀ n c i res,
  log_fits (log_ n) → next_in_range n → Forall (result_ok n) results →
  list_find (later (current_term_ n)) results = Some (i, res) →
  ∃ n', process_results r (n, c) results = inl n' ∧ deposed n n' ∧
        current_term_ n' = aer_term (ps_reply res).
Proof.
  induction results as [|x results IH]; intros n c i res Hfit Hnx Hok Hf; [done|].
  apply Forall_cons_1 in Hok as [Hok1 Hok2]. cbn [process_results].
  simpl in Hf. destruct (decide (later (current_term_ n) x)) as [[Hrpc Hlt]|Hl].
  - simplify_eq. unfold process_result. rewrite Hrpc. simpl.
    apply N.ltb_lt in Hlt as Hlt'. rewrite Hlt'. eexists. split; [done|].
    unfold deposed. simpl. by repeat split.
  - destruct (list_find _ results) as [[j y]|] eqn:Hfind; [|done]. injection Hf as <- <-.
    destruct (process_result_counts r n c x Hfit Hnx Hok1 Hl)
      as (n1 & c1 & -> & Hs & Hnx1 & Hd & _).
    assert (log_ n1 = log_ n ∧ current_term_ n1 = current_term_ n) as [El Et] by (by rewrite Hs).
    destruct (IH n1 c1 j y) as (n' & Hrun & Hdep & Ht).
    { by rewrite El. }
    { done. }
    { eapply List.Forall_impl; [|exact Hok2]. intros res'. by apply result_ok_kept. }
    { by rewrite Et. }
    exists n'. split_and!; [done| |done]. unfold deposed in *. by rewrite Hs in Hdep.
Qed.

(** ** The second critical section of [send_heartbeats] *)

(** The state of a leader between two rounds of heartbeats. *)
Record leader_ok (n : Raft) : Prop := {
  lo_fits : log_fits (log_ n);
  lo_next : next_in_range n;
  lo_match : match_in_range n;
  lo_commit : commit_index_ n ≤ vsize (log_ n) }.

(** What the lease bookkeeping leaves alone. *)
Definition same_but_lease (n n' : Raft) : Prop :=
  log_ n' = log_ n ∧ commit_index_ n' = commit_index_ n ∧
  last_applied_ n' = last_applied_ n ∧ ready_queue n' = ready_queue n ∧
  current_term_ n' = current_term_ n ∧ raft_id n' = raft_id n ∧ peers_ n' = peers_ n ∧
  nextIndex_ n' = nextIndex_ n ∧ matchIndex_ n' = matchIndex_ n ∧
  dead n' = dead n ∧ received_heartbeat_ n' = received_heartbeat_ n.

(** The section has no defined result only when the commit index lies past the
    end of the log. *)
Lemma renew_lease_spec c r now n :
  log_fits (log_ n) →
  match renew_lease c r now n with
  | None => vsize (log_ n) < commit_index_ n
  | Some n' =>
      same_but_lease n n' ∧
      ((role_ n' = role_ n ∧ voted_for_ n' = voted_for_ n) ∨
       (role_ n' = FOLLOWER ∧ voted_for_ n' = None ∧ is_leader_atomic_ n' = false ∧
        c < majority n ∧ (ms (election_timeout_ n) < now - last_majority_at_ n)%Z))
  end.
Proof.
  unfold log_fits. intros Hfit. unfold renew_lease, same_but_lease.
  destruct (N.leb_spec (majority n) c) as [Hm|Hm]; simpl.
  - destruct (N.ltb_spec 0 (commit_index_ n)) as [Hp|Hz]; [|by repeat split; left].
    destruct (vat (log_ n) (commit_index_ n -₆₄ 1)) as [e|] eqn:He; simpl.
    + by destruct (term e =? current_term_ n); simpl; repeat split; left.
    + destruct (N.le_gt_cases (commit_index_ n) (vsize (log_ n))) as [Hle|]; [|done].
      rewrite sub64_small in He by lia.
      destruct (vat_lt_is_Some (log_ n) (commit_index_ n - 1)) as [e' ?]; [lia|congruence].
  - destruct (Z.ltb_spec (ms (election_timeout_ n)) (now - last_majority_at_ n)).
    + simpl. split; [by repeat split|]. right. by repeat split.
    + split; [by repeat split|]. by left.
Qed.

(** The entry at the commit index [ci] is of the leader's own term. *)
Definition own_commit (n : Raft) (ci : N) : bool :=
  (0 <? ci) && match vat (log_ n) (ci - 1) with Some e => term e =? current_term_ n | None => false end.

(** The lease after a round with [k] confirmations, whose commit index is [ci]: renewed by a
    majority, given up with the office when there has been none for an election timeout. *)
Definition lease_settled (n n' : Raft) (k ci : N) (now : Z) : Prop :=
  if majority n <=? k then
    role_ n' = role_ n ∧ lease_expires_ns_ n' = (now + ms kLeaseDuration)%Z ∧
    last_majority_at_ n' = now ∧
    last_term_commit_idx_ n' = if own_commit n ci then ci else last_term_commit_idx_ n
  else
    role_ n' = (if (ms (election_timeout_ n) <? now - last_majority_at_ n)%Z then FOLLOWER else role_ n) ∧
    lease_expires_ns_ n' = lease_expires_ns_ n ∧ last_majority_at_ n' = last_majority_at_ n ∧
    last_term_commit_idx_ n' = last_term_commit_idx_ n.

Lemma renew_lease_settled k r now n n' :
  log_fits (log_ n) → commit_index_ n ≤ vsize (log_ n) → renew_lease k r now n = Some n' →
  lease_settled n n' k (commit_index_ n) now.
Proof.
  unfold log_fits, renew_lease, lease_settled, own_commit. intros Hfit Hci Hr.
  destruct (majority n <=? k); simpl in Hr.
  - destruct (N.ltb_spec 0 (commit_index_ n)) as [Hp|Hz]; [|by simplify_eq].
    rewrite sub64_small in Hr by lia.
    destruct (vat (log_ n) (commit_index_ n - 1)) as [e|]; [|done]. simpl in *.
    by destruct (term e =? current_term_ n); simplify_eq.
  - by destruct (_ <? _)%Z; simplify_eq.
Qed.

(** A node that processed its replies as a leader. *)
Record replies_processed (n n' : Raft) (out : list ApplyResult) : Prop := {
  rp_log : log_ n' = log_ n;
  rp_term : current_term_ n' = current_term_ n;
  rp_id : raft_id n' = raft_id n;
  rp_peers : peers_ n' = peers_ n;
  rp_queue : ready_queue n' = ready_queue n;
  rp_dead : dead n' = dead n;
  rp_heard : received_heartbeat_ n' = received_heartbeat_ n;
  rp_next : next_in_range n';
  rp_mono : commit_index_ n ≤ commit_index_ n';
  rp_commit : commit_index_ n ≤ vsize (log_ n) → commit_index_ n' ≤ vsize (log_ n);
  rp_committable : commit_index_ n' = commit_index_ n ∨
    (commit_index_ n < commit_index_ n' ≤ vsize (log_ n) ∧ committable n' (commit_index_ n'));
  rp_greatest : commit_index_ n ≤ vsize (log_ n) →
    ∀ idx, commit_index_ n' < idx ≤ vsize (log_ n') → ¬ committable n' idx;
  rp_applied : last_applied_ n' = N.max (last_applied_ n) (commit_index_ n');
  rp_out : out = results_between (log_ n) (last_applied_ n) (commit_index_ n');
  rp_role : (role_ n' = LEADER ∧ voted_for_ n' = voted_for_ n) ∨
            (role_ n' = FOLLOWER ∧ voted_for_ n' = None ∧ is_leader_atomic_ n' = false) }.

(** [committable] reads the log, the term, the peers and [matchIndex_] only. *)
Lemma committable_frame n n' idx :
  log_ n' = log_ n → current_term_ n' = current_term_ n → peers_ n' = peers_ n →
  matchIndex_ n' = matchIndex_ n → committable n' idx ↔ committable n idx.
Proof.
  intros Hl Ht Hp Hm. unfold committable, majority, replicated_on.
  by rewrite Hl, Ht, Hp, Hm.
Qed.

(** The part of the section after the replies were counted. *)
Lemma commit_and_lease_spec c r now n :
  role_ n = LEADER → log_fits (log_ n) → next_in_range n →
  commit_index_ n ≤ last_applied_ n →
  match (n1 ← scan_commit n;
         '(la, to_apply) ← drain (log_ n1) (last_applied_ n1) (commit_index_ n1);
         n2 ← renew_lease c r now (set_last_applied_ la n1);
         Some (n2, to_apply)) with
  | None => vsize (log_ n) < commit_index_ n
  | Some (n', out) =>
      replies_processed n n' out ∧ matchIndex_ n' = matchIndex_ n ∧
      nextIndex_ n' = nextIndex_ n
  end.
Proof.
  intros Hrole Hfit Hnx Hla.
  destruct (scan_commit_spec n Hfit) as (k & -> & Hbest & Hpast).
  cbn [mbind option_bind].
  assert (drain (log_ n) (last_applied_ n) k =
          Some (N.max (last_applied_ n) k, results_between (log_ n) (last_applied_ n) k))
    as Hdrain.
  { destruct (N.le_gt_cases (commit_index_ n) (vsize (log_ n))) as [Hle|Hgt].
    - destruct (Hbest Hle) as (_ & Hk & _). apply drain_spec; [done|].
      destruct Hk as [->|[]]; done.
    - rewrite (Hpast Hgt), drain_idle, results_between_nil, N.max_l by done. done. }
  change (log_ (set_commit_index_ k n)) with (log_ n).
  change (last_applied_ (set_commit_index_ k n)) with (last_applied_ n).
  change (commit_index_ (set_commit_index_ k n)) with k.
  rewrite Hdrain. cbn [mbind option_bind].
  set (n2 := set_last_applied_ _ _).
  pose proof (renew_lease_spec c r now n2 Hfit) as Hren.
  assert (vsize (log_ n) < k → vsize (log_ n) < commit_index_ n) as Hk.
  { intros Hk. destruct (N.le_gt_cases (commit_index_ n) (vsize (log_ n))) as [Hle|]; [|done].
    destruct (Hbest Hle) as (_ & [->|[]] & _); lia. }
  destruct (renew_lease c r now n2) as [n3|]; cbn [mbind option_bind]; [|by apply Hk].
  destruct Hren as [(El & Ec & Ela & Eq & Et & Eid & Ep & Enx & Em & Ed & Eh) Hrv].
  simpl in El, Ec, Ela, Eq, Et, Eid, Ep, Enx, Em, Ed, Eh, Hrv.
  assert (∀ i, committable n3 i ↔ committable n i) as Hcb
    by (intros i; by apply committable_frame).
  split_and!; [|done|done]. split; try done.
  - unfold next_in_range. by rewrite Enx, El.
  - rewrite Ec. destruct (N.le_gt_cases (commit_index_ n) (vsize (log_ n))) as [Hle|Hgt].
    + apply (Hbest Hle).
    + by rewrite (Hpast Hgt).
  - intros Hle. rewrite Ec. by destruct (Hbest Hle) as (_ & [->|[]] & _).
  - rewrite Ec. destruct (N.le_gt_cases (commit_index_ n) (vsize (log_ n))) as [Hle|Hgt].
    + destruct (Hbest Hle) as (Hge & [->|[Hk1 Hk2]] & _); [by left|].
      destruct (decide (k = commit_index_ n)); [by left|right].
      split; [lia|]. by apply Hcb.
    + left. by apply Hpast.
  - intros Hle i. rewrite Ec, El. intros Hi Hci%Hcb.
    destruct (Hbest Hle) as (_ & _ & Hmax). by apply (Hmax i).
  - by rewrite Ela, Ec.
  - by rewrite Ec.
  - destruct Hrv as [[-> ->]|(-> & -> & -> & _)]; [left|right]; done.
Qed.

Lemma process_replies_spec (P : N → N → Prop) results r now n :
  role_ n = LEADER → log_fits (log_ n) → next_in_range n →
  commit_index_ n ≤ last_applied_ n → map_Forall P (matchIndex_ n) →
  Forall (result_ok n) results → Forall (result_match P) results →
  match process_replies results r now n with
  | None => vsize (log_ n) < commit_index_ n
  | Some (n', out) =>
      map_Forall P (matchIndex_ n') ∧ dom (nextIndex_ n') = dom (nextIndex_ n) ∧
      ((deposed n n' ∧ out = [] ∧
        ∃ res, res ∈ results ∧ ps_rpc_ok res = true ∧
               current_term_ n' = aer_term (ps_reply res))
       ∨ replies_processed n n' out)
  end.
Proof.
  intros Hrole Hfit Hnx Hla Hm Hok HP. unfold process_replies.
  rewrite decide_True by done.
  pose proof (process_results_spec P r results n 1 Hfit Hnx Hm Hok HP) as Hres.
  destruct (process_results r (n, 1) results) as [n1|[n1 c1]].
  { destruct Hres as (? & ? & ? & ?). split_and!; [done|done|]. by left. }
  destruct Hres as (Hs & Hnx1 & Hm1 & Hd1).
  pose proof (commit_and_lease_spec c1 r now n1) as Hcl.
  assert (role_ n1 = LEADER) as Hr1 by (by rewrite Hs).
  assert (log_ n1 = log_ n) as Hl1 by (by rewrite Hs).
  assert (commit_index_ n1 = commit_index_ n) as Hc1 by (by rewrite Hs).
  assert (last_applied_ n1 = last_applied_ n) as Ha1 by (by rewrite Hs).
  rewrite Hl1, Hc1, Ha1 in Hcl. specialize (Hcl Hr1 Hfit Hnx1 Hla).
  destruct (_ ≫= _) as [[n' out]|]; [|done].
  destruct Hcl as ([] & Em & En). rewrite Em, En. split_and!; [done|done|]. right.
  split; rewrite ?Hl1, ?Hc1, ?Ha1 in *; try done; try by rewrite Hs in *.
Qed.

(** The same section, with the replies counted. *)
Lemma process_replies_counts results r now n :
  role_ n = LEADER → log_fits (log_ n) → next_in_range n → commit_index_ n ≤ vsize (log_ n) →
  commit_index_ n ≤ last_applied_ n → vsize results + 1 < pow64 → Forall (result_ok n) results →
  Forall (λ res, ¬ later (current_term_ n) res) results →
  ∃ n' out, process_replies results r now n = Some (n', out) ∧ replies_processed n n' out ∧
    round_counted n n' results ∧
    lease_settled n n' (confirmations (current_term_ n) results) (commit_index_ n') now.
Proof.
  intros Hrole Hfit Hnx Hci Hla Hsz Hok Hl. unfold process_replies. rewrite decide_True by done.
  destruct (process_results_counts r results n 1 Hfit Hnx Hok Hl) as (n1 & -> & Hs & Hnx1 & Hrc); [lia|].
  change (1 + vsize _) with (confirmations (current_term_ n) results).
  set (k := confirmations _ _).
  assert (role_ n1 = LEADER ∧ log_ n1 = log_ n ∧ commit_index_ n1 = commit_index_ n ∧
          last_applied_ n1 = last_applied_ n) as (Hr1 & Hl1 & Hc1 & Ha1) by (by rewrite Hs).
  pose proof (commit_and_lease_spec k r now n1) as Hcl. rewrite Hl1, Hc1, Ha1 in Hcl.
  specialize (Hcl Hr1 Hfit Hnx1 Hla).
  destruct (scan_commit n1 ≫= _) as [[n' out]|] eqn:Hrun; [|lia].
  destruct Hcl as (Hrp & Em & En). exists n', out. split; [done|].
  assert (replies_processed n n' out) as Hrp'.
  { destruct Hrp. split; rewrite ?Hl1, ?Hc1, ?Ha1 in *; try done; try by rewrite Hs in *. }
  split_and!; [done| |].
  - destruct Hrc as [R1 R2 R3]. split; intros *; rewrite ?Em, ?En; auto.
  - destruct (scan_commit_spec n1) as (ci & Hsc & _ & _); [by rewrite Hl1|]. rewrite Hsc in Hrun.
    apply bind_Some in Hrun as (? & [= <-] & Hrun).
    apply bind_Some in Hrun as ([la o] & _ & Hrun).
    apply bind_Some in Hrun as (n2 & Hren & [= <- <-]).
    assert (commit_index_ n2 = ci) as Eci.
    { pose proof (renew_lease_spec k r now (set_last_applied_ la (set_commit_index_ ci n1))) as H.
      rewrite Hren in H. destruct H as [(_ & H & _) _]; [by rewrite <- Hl1 in Hfit|done]. }
    apply renew_lease_settled in Hren; simpl in *; [|by rewrite Hl1|].
    + rewrite Eci. unfold lease_settled, own_commit, majority in *. rewrite Hs in Hren. exact Hren.
    + rewrite Hl1, <- Eci. by apply (rp_commit _ _ _ Hrp').
Qed.

(** ** [handle_request_vote] *)

Lemma last_term_total log : log_fits log → ∃ t, last_term log = Some t.
Proof.
  unfold log_fits, last_term. intros Hfit. destruct (N.eqb_spec (vsize log) 0); [eauto|].
  rewrite sub64_small by lia.
  destruct (vat_lt_is_Some log (vsize log - 1)) as [e ->]; [lia|]. eauto.
Qed.

(** The term of the last entry, 0 for an empty log. *)
Definition last_term_of (log : list Entry) : N :=
  match list.last log with Some e => term e | None => 0 end.

Lemma last_term_eq log : log_fits log → last_term log = Some (last_term_of log).
Proof.
  unfold log_fits, last_term, last_term_of. intros Hfit.
  destruct (N.eqb_spec (vsize log) 0) as [Hz|Hnz].
  - destruct log; [done|]. unfold vsize in Hz. simpl in Hz. lia.
  - rewrite sub64_small by lia. unfold vat.
    replace (N.to_nat (vsize log - 1)) with (pred (length log)) by (unfold vsize; lia).
    rewrite <- last_lookup.
    destruct (list.last log) eqn:Hl; [done|]. apply last_None in Hl. subst. done.
Qed.

(** The vote decision, on every branch. *)
Lemma handle_request_vote_eq req r n :
  log_fits (log_ n) →
  handle_request_vote req r n =
  Some (if rvq_term req <? current_term_ n
        then (n, mkRequestVoteReply (current_term_ n) false)
        else let n0 := adopt_term (rvq_term req) r n in
             if vote_free n0 (candidateId req) &&
                up_to_date req (vsize (log_ n)) (last_term_of (log_ n))
             then (reset_election_timer r (set_voted_for_ (Some (candidateId req)) n0),
                   mkRequestVoteReply (rvq_term req) true)
             else (n0, mkRequestVoteReply (rvq_term req) false)).
Proof.
  intros Hfit. unfold handle_request_vote.
  destruct (N.ltb_spec (rvq_term req) (current_term_ n)) as [|Hge]; [done|].
  assert (log_ (adopt_term (rvq_term req) r n) = log_ n ∧
          current_term_ (adopt_term (rvq_term req) r n) = rvq_term req) as [Hl Ht].
  { unfold adopt_term. destruct (N.ltb_spec (current_term_ n) (rvq_term req)); simpl; [done|].
    split; [done|lia]. }
  simpl. generalize dependent (adopt_term (rvq_term req) r n). intros n0 Hl Ht.
  rewrite Hl, last_term_eq by done. simpl. rewrite Ht.
  by destruct (vote_free n0 (candidateId req) && _).
Qed.
