(* ===== verification/NodeProps.v ===== *)
(** What each operation of a Raft node guarantees: the theorems about
    [RaftNode.v], proved from the lemmas of [RaftNodeFacts.v]. *)
From S2P Require Import Prelude Types RaftState RaftNode RaftNodeFacts.

#[local] Open Scope N_scope.

(** ** A sample node *)

Definition follower0 : Raft :=
  connect_peers (Raft_init (mkConfig 0 "localhost:0" {[1 := "a"%string; 2 := "b"%string]}) 0).

Definition e1 : Entry := mkEntry 1 "x".
Definition e2 : Entry := mkEntry 1 "y".

(** A leader of term 1 with two entries, both of which its peer 1 has. *)
Definition leader1 : Raft :=
  set_matchIndex_ {[1 := 2; 2 := 0]} (set_nextIndex_ {[1 := 3; 2 := 1]}
    (set_log_ [e1; e2] (set_role_ LEADER (set_voted_for_ (Some 0)
       (set_current_term_ 1 follower0))))).

(** ** [handle_append_entries] *)

(** C17: the handler is defined on every branch: a request of an older term is
    refused and changes nothing; otherwise the node follows the sender, and
    either refuses because its log has no matching entry at [prevLogIndex], with
    log and commit index untouched, or merges the entries, advances the commit
    index and hands the newly committed entries to the queue. *)
Theorem append_entries_outcome req r n :
  commit_index_ n ≤ last_applied_ n →
  vsize (log_ n) + vsize (entries req) + 1 < pow64 →
  ∃ n' rep, handle_append_entries req r n = Some (n', rep) ∧
    aer_term rep = N.max (current_term_ n) (aeq_term req) ∧
    if aeq_term req <? current_term_ n then n' = n ∧ success rep = false
    else
      role_ n' = FOLLOWER ∧ current_term_ n' = aeq_term req ∧ received_heartbeat_ n' = true ∧
      success rep = prev_ok (log_ n) req ∧
      if prev_ok (log_ n) req then
        log_ n' = merge_log (log_ n) (prevLogIndex req) (entries req) ∧
        commit_index_ n' = commit_after req (commit_index_ n) (log_ n') ∧
        last_applied_ n' = N.max (last_applied_ n) (commit_index_ n') ∧
        ready_queue n' =
          ready_queue n ++ results_between (log_ n') (last_applied_ n) (commit_index_ n')
      else log_ n' = log_ n ∧ commit_index_ n' = commit_index_ n ∧
           last_applied_ n' = last_applied_ n ∧ ready_queue n' = ready_queue n.
Proof.
  intros Hc Hsz. rewrite handle_append_entries_eq by done.
  destruct (N.ltb_spec (aeq_term req) (current_term_ n)) as [Hlt|Hge].
  { eexists _, _. split; [done|]. simpl. split; [lia|done]. }
  destruct (follow_leader_frame req r n) as (Hl & Hci & Hla & Hq & Ht & Hr & Hh).
  rewrite N.max_r in Ht by lia.
  destruct (prev_ok (log_ n) req); eexists _, _; (split; [done|]); simpl;
    split_and!; try done; try lia; by rewrite ?Hl, ?Hci, ?Hla, ?Hq.
Qed.

Lemma append_entries_outcome_witness :
  ∃ n', handle_append_entries (mkAppendEntriesRequest 1 1 0 0 [e1; e2] 1) 0 follower0 =
        Some (n', mkAppendEntriesReply 1 true) ∧
        ready_queue n' = [mkApplyResult true "x" 1].
Proof.
  destruct (append_entries_outcome (mkAppendEntriesRequest 1 1 0 0 [e1; e2] 1) 0 follower0)
    as (n' & rep & Hh & _); [apply N.leb_le; reflexivity|apply N.ltb_lt; reflexivity|].
  exists n'. split; [|vm_compute in Hh; injection Hh as <- _; vm_compute; reflexivity].
  rewrite Hh. vm_compute in Hh. injection Hh as _ <-. reflexivity.
Defined.

(** Two logs agree wherever they have entries of one term at one index. *)
Definition logs_match (l k : list Entry) : Prop :=
  ∀ i a b, l !! i = Some a → k !! i = Some b → term a = term b → take (S i) l = take (S i) k.

Lemma logs_match_prefix L l prev t :
  logs_match L l → prev ≤ vsize L → prev ≤ vsize l →
  prev_matches L prev t → prev_matches l prev t →
  take (N.to_nat prev) l = take (N.to_nat prev) L.
Proof.
  intros Hm HL Hl [->|(a & Ha & Hta)] [Hz|(b & Hb & Htb)]; subst; try done.
  unfold vat in *. destruct (N.eq_dec prev 0) as [->|Hne]; [done|].
  replace (N.to_nat prev) with (S (N.to_nat (prev - 1))) by lia.
  symmetry. by eapply Hm.
Qed.

Lemma prev_ok_matches log req :
  prev_ok log req = true →
  prevLogIndex req ≤ vsize log ∧ prev_matches log (prevLogIndex req) (prevLogTerm req).
Proof.
  unfold prev_ok. intros H. apply andb_true_iff in H as [Hle%N.leb_le Hor]. split; [done|].
  apply orb_true_iff in Hor as [Hz%N.eqb_eq|Hv]; [by left|].
  destruct (vat log (prevLogIndex req - 1)) as [e|] eqn:He; [|done].
  right. exists e. bool_to_prop. done.
Qed.

(** A follower whose log matches the leader's and that accepts a request cut
    from the leader's log holds the leader's log up to the last entry sent. *)
Lemma append_entries_copies L req r n n' rep :
  commit_index_ n ≤ last_applied_ n →
  vsize (log_ n) + vsize (entries req) + 1 < pow64 →
  logs_match L (log_ n) → prevLogIndex req ≤ vsize L →
  prev_matches L (prevLogIndex req) (prevLogTerm req) →
  entries req = drop (N.to_nat (prevLogIndex req)) L →
  handle_append_entries req r n = Some (n', rep) → success rep = true →
  L `prefix_of` log_ n'.
Proof.
  intros Hc Hsz Hm HL Hprev Hes Hh Hs. rewrite handle_append_entries_eq in Hh by done.
  destruct (aeq_term req <? current_term_ n); [by simplify_eq|].
  destruct (prev_ok (log_ n) req) eqn:Hok; simplify_eq.
  apply prev_ok_matches in Hok as [Hl Hpl]. cbn [accepted set_ready_queue set_last_applied_
    set_commit_index_ set_log_ log_]. unfold merge_log.
  rewrite (logs_match_prefix L (log_ n) (prevLogIndex req) (prevLogTerm req)) by done.
  rewrite <- (take_drop (N.to_nat (prevLogIndex req)) L) at 1.
  apply prefix_app. rewrite Hes. apply merge_prefix.
  intros i a b Ha Hb Hab. rewrite lookup_drop in Ha, Hb.
  specialize (Hm _ _ _ Hb Ha (eq_sym Hab)).
  pose proof (f_equal (.!! (N.to_nat (prevLogIndex req) + i)%nat) Hm) as E.
  rewrite !lookup_take in E. rewrite !decide_True in E by lia. congruence.
Qed.

Lemma append_entries_copies_witness :
  ∃ n' rep, handle_append_entries (mkAppendEntriesRequest 1 1 0 0 [e1; e2] 1) 0 follower0 =
            Some (n', rep) ∧ [e1; e2] `prefix_of` log_ n'.
Proof.
  eexists _, _. split; [vm_compute; reflexivity|].
  apply (append_entries_copies [e1; e2] (mkAppendEntriesRequest 1 1 0 0 [e1; e2] 1) 0 follower0
           _ (mkAppendEntriesReply 1 true)).
  - apply N.leb_le. reflexivity.
  - apply N.ltb_lt. reflexivity.
  - intros i a b _ Hb. vm_compute in Hb. destruct i; discriminate.
  - apply N.leb_le. reflexivity.
  - left. reflexivity.
  - reflexivity.
  - vm_compute. reflexivity.
  - reflexivity.
Defined.

(** Committed entries reach the queue once each and in order: if the queue has
    received exactly the results 1 to [last_applied_], it still has after any
    request, whatever was truncated beyond the commit index. *)
Lemma append_entries_in_order req r n n' rep :
  commit_index_ n ≤ last_applied_ n →
  vsize (log_ n) + vsize (entries req) + 1 < pow64 →
  queue_in_order n → handle_append_entries req r n = Some (n', rep) →
  queue_in_order n' ∧ last_applied_ n ≤ last_applied_ n'.
Proof.
  intros Hc Hsz Hq Hh. rewrite handle_append_entries_eq in Hh by done.
  destruct (aeq_term req <? current_term_ n); [by simplify_eq|].
  destruct (follow_leader_frame req r n) as (_ & _ & Hla & Hqu & _).
  destruct (prev_ok (log_ n) req); simplify_eq.
  - split; [|simpl; lia].
    unfold queue_in_order, accepted. cbn [ready_queue last_applied_ set_ready_queue
      set_last_applied_ set_commit_index_ set_log_]. apply queue_in_order_extend; [done..|].
    unfold commit_after. case_match; bool_to_prop; lia.
  - split; [|by rewrite Hla]. unfold queue_in_order. by rewrite Hla, Hqu.
Qed.

Lemma append_entries_in_order_witness :
  ∃ n' rep, handle_append_entries (mkAppendEntriesRequest 1 1 0 0 [e1; e2] 2) 0 follower0 =
            Some (n', rep) ∧ queue_in_order n' ∧ last_applied_ follower0 ≤ last_applied_ n'.
Proof.
  eexists _, _. split; [vm_compute; reflexivity|].
  apply (append_entries_in_order (mkAppendEntriesRequest 1 1 0 0 [e1; e2] 2) 0 follower0
           _ (mkAppendEntriesReply 1 true)).
  - apply N.leb_le. reflexivity.
  - apply N.ltb_lt. reflexivity.
  - reflexivity.
  - vm_compute. reflexivity.
Defined.

(** ** [handle_request_vote] *)

(** The replies of a node to a sequence of requests, each with its draw of the
    election timer. *)
Fixpoint vote_run (reqs : list (RequestVoteReq * N)) (n : Raft)
    : option (Raft * list (RequestVoteReq * RequestVoteReply)) :=
  match reqs with
  | [] => Some (n, [])
  | (req, r) :: reqs =>
      '(n, rep) ← handle_request_vote req r n;
      '(n, reps) ← vote_run reqs n;
      Some (n, (req, rep) :: reps)
  end.

Definition granted (reps : list (RequestVoteReq * RequestVoteReply)) (req : RequestVoteReq) : Prop :=
  ∃ rep, (req, rep) ∈ reps ∧ voteGranted rep = true.

(** What one request does to the ballot of the node. *)
Lemma request_vote_ballot req r n n' rep :
  log_fits (log_ n) → handle_request_vote req r n = Some (n', rep) →
  log_ n' = log_ n ∧ current_term_ n ≤ current_term_ n' ∧
  (current_term_ n' = current_term_ n → voted_for_ n ≠ None → voted_for_ n' = voted_for_ n) ∧
  (voteGranted rep = true →
     rvq_term req = current_term_ n' ∧ voted_for_ n' = Some (candidateId req) ∧
     rvr_term rep = rvq_term req ∧
     up_to_date req (vsize (log_ n)) (last_term_of (log_ n)) = true).
Proof.
  intros Hfit Hh. rewrite handle_request_vote_eq in Hh by done.
  destruct (N.ltb_spec (rvq_term req) (current_term_ n)) as [Hlt|Hge].
  { simplify_eq. by split_and!; [|lia|..]. }
  unfold adopt_term in Hh. destruct (N.ltb_spec (current_term_ n) (rvq_term req)) as [Hlt|Hle].
  - destruct (_ && _) eqn:Hg in Hh; simplify_eq; simpl; split_and!; try done; try lia.
  - assert (rvq_term req = current_term_ n) as Heq by lia.
    destruct (_ && _) eqn:Hg in Hh; simplify_eq; simpl; split_and!; try done; try lia.
    + intros _ Hv. apply andb_true_iff in Hg as [Hf _]. unfold vote_free in Hf.
      destruct (voted_for_ n); [|done]. bool_to_prop. by subst.
    + intros _. apply andb_true_iff in Hg as [_ Hup]. by split_and!.
Qed.

(** Later grants of the term in which [n] has voted go to the same candidate. *)
Lemma vote_run_bound reqs : ∀ n n' reps c req,
  log_fits (log_ n) → vote_run reqs n = Some (n', reps) →
  voted_for_ n = Some c → granted reps req → rvq_term req = current_term_ n →
  candidateId req = c.
Proof.
  induction reqs as [|[q r] reqs IH]; intros n n' reps c req Hfit Hrun Hv (rep & Hin & Hg) Ht;
    simpl in Hrun; [simplify_eq; by apply elem_of_nil in Hin|].
  apply bind_Some in Hrun as ([n1 rep1] & Hh & Hrun).
  apply bind_Some in Hrun as ([n2 reps1] & Hrun & E). injection E as <- <-.
  destruct (request_vote_ballot q r n n1 rep1 Hfit Hh) as (Hl & Hle & Hkeep & Hgr).
  apply elem_of_cons in Hin as [[= -> ->]|Hin].
  - destruct (Hgr Hg) as (E1 & E2 & _). rewrite Hkeep in E2; congruence.
  - assert (current_term_ n1 = current_term_ n ∨ current_term_ n < current_term_ n1) as [E|Hlt] by lia.
    + eapply (IH n1); [by rewrite Hl|done| |by exists rep|congruence].
      rewrite Hkeep; congruence.
    + exfalso. assert (current_term_ n1 ≤ rvq_term req); [|lia].
      clear -Hrun Hin Hg Hfit Hl. rewrite <- Hl in Hfit. clear Hl n.
      revert n1 n2 reps1 Hrun Hin Hfit.
      induction reqs as [|[q' r'] reqs IH]; intros n n2 reps Hrun Hin Hfit; simpl in Hrun;
        [simplify_eq; by apply elem_of_nil in Hin|].
      apply bind_Some in Hrun as ([n1 rep1] & Hh & Hrun).
      apply bind_Some in Hrun as ([n3 reps1] & Hrun & E). injection E as <- <-.
      destruct (request_vote_ballot q' r' n n1 rep1 Hfit Hh) as (Hl & Hle & _ & Hgr).
      apply elem_of_cons in Hin as [[= -> ->]|Hin].
      * destruct (Hgr Hg) as (E1 & _). lia.
      * assert (current_term_ n1 ≤ rvq_term req); [|lia].
        eapply IH; [done|done|by rewrite Hl].
Qed.

(** A node votes once per term: over any sequence of vote requests, two granted
    requests of one term are for the same candidate. *)
Lemma vote_once reqs n n' reps q1 q2 :
  log_fits (log_ n) → vote_run reqs n = Some (n', reps) →
  granted reps q1 → granted reps q2 → rvq_term q1 = rvq_term q2 →
  candidateId q1 = candidateId q2.
Proof.
  revert n n' reps. induction reqs as [|[q r] reqs IH]; intros n n' reps Hfit Hrun H1 H2 Ht;
    simpl in Hrun; [simplify_eq; destruct H1 as (? & Hin & _); by apply elem_of_nil in Hin|].
  apply bind_Some in Hrun as ([n1 rep1] & Hh & Hrun).
  apply bind_Some in Hrun as ([n2 reps1] & Hrun & E). injection E as <- <-.
  destruct (request_vote_ballot q r n n1 rep1 Hfit Hh) as (Hl & _ & _ & Hgr).
  rewrite <- Hl in Hfit.
  destruct H1 as (p1 & [[= -> ->]|H1]%elem_of_cons & Hg1), H2 as (p2 & [[= -> ->]|H2]%elem_of_cons & Hg2).
  - done.
  - destruct (Hgr Hg1) as (E1 & E2 & _). symmetry.
    eapply vote_run_bound; [done|done|done|by exists p2|congruence].
  - destruct (Hgr Hg2) as (E1 & E2 & _).
    eapply vote_run_bound; [done|done|done|by exists p1|congruence].
  - eapply IH; [done|done|by exists p1|by exists p2|done].
Qed.

Definition rival_requests : list (RequestVoteReq * N) :=
  [(mkRequestVoteReq 1 1 0 0, 0); (mkRequestVoteReq 1 2 0 0, 0); (mkRequestVoteReq 1 1 0 0, 5)].

Lemma vote_once_witness :
  ∃ n' reps, vote_run rival_requests follower0 = Some (n', reps) ∧
    (voteGranted ∘ snd) <$> reps = [true; false; true] ∧
    ∀ q1 q2, granted reps q1 → granted reps q2 → rvq_term q1 = rvq_term q2 →
             candidateId q1 = candidateId q2.
Proof.
  eexists _, _. split; [vm_compute; reflexivity|]. split; [vm_compute; reflexivity|].
  intros q1 q2. eapply (vote_once rival_requests follower0);
    [apply N.ltb_lt; reflexivity|vm_compute; reflexivity].
Defined.

(** C19: a vote is granted exactly when the request is not of an older term, the
    ballot of that term is free or already that candidate's, and the candidate's
    log is at least as up to date: a later last term, or the same and no shorter. *)
Theorem vote_granted_iff req r n :
  log_fits (log_ n) →
  ∃ n' rep, handle_request_vote req r n = Some (n', rep) ∧
    (voteGranted rep = true ↔
       current_term_ n ≤ rvq_term req ∧
       (current_term_ n < rvq_term req ∨ voted_for_ n = None ∨
        voted_for_ n = Some (candidateId req)) ∧
       (last_term_of (log_ n) < lastLogTerm req ∨
        lastLogTerm req = last_term_of (log_ n) ∧ vsize (log_ n) ≤ lastLogIndex req)).
Proof.
  intros Hfit. rewrite handle_request_vote_eq by done.
  destruct (N.ltb_spec (rvq_term req) (current_term_ n)) as [Hlt|Hge].
  { eexists _, _. split; [done|]. simpl. split; [done|lia]. }
  assert (up_to_date req (vsize (log_ n)) (last_term_of (log_ n)) = true ↔
    (last_term_of (log_ n) < lastLogTerm req ∨
        lastLogTerm req = last_term_of (log_ n) ∧ vsize (log_ n) ≤ lastLogIndex req)) as Hup.
  { unfold up_to_date. destruct (N.ltb_spec (last_term_of (log_ n)) (lastLogTerm req)); [naive_solver|].
    rewrite andb_true_iff, N.eqb_eq, N.leb_le. lia. }
  assert (vote_free (adopt_term (rvq_term req) r n) (candidateId req) = true ↔
    (current_term_ n < rvq_term req ∨ voted_for_ n = None ∨
     voted_for_ n = Some (candidateId req))) as Hfree.
  { unfold vote_free, adopt_term. destruct (N.ltb_spec (current_term_ n) (rvq_term req)); simpl.
    - naive_solver.
    - destruct (voted_for_ n) as [c|]; [rewrite N.eqb_eq|]; naive_solver lia. }
  cbv zeta.
  destruct (vote_free _ _) eqn:Hf, (up_to_date _ _ _) eqn:Hu; simpl;
    (eexists _, _; split; [reflexivity|]); simpl; intuition congruence.
Qed.

Lemma vote_granted_iff_witness :
  ∃ n' rep, handle_request_vote (mkRequestVoteReq 1 2 0 0) 0 follower0 = Some (n', rep) ∧
            voteGranted rep = true.
Proof.
  destruct (vote_granted_iff (mkRequestVoteReq 1 2 0 0) 0 follower0) as (n' & rep & Hh & _);
    [apply N.ltb_lt; reflexivity|].
  exists n', rep. split; [exact Hh|]. vm_compute in Hh. injection Hh as _ <-. reflexivity.
Defined.

(** ** [send_heartbeats] *)

(** C20: the first section of a round is defined for a leader whose indices are in
    range.  It builds one request for every connected peer: [prevLogIndex] is one below the
    peer's [nextIndex_] (the end of the log for a peer without an entry), with the term of
    the entry there, all entries after it, the leader's term, id and commit index.  Nothing
    changes but that the missing [nextIndex_] entries of these peers are filled in. *)
Theorem heartbeat_requests_spec n :
  role_ n = LEADER → log_fits (log_ n) → next_in_range n →
  ∃ n' qs, heartbeat_requests n = Some (n', Some qs) ∧
    pq_peer_id <$> qs = (filter (λ p, p.2 = true) (peers_ n)).*1 ∧ Forall (request_of n) qs ∧
    n' = set_nextIndex_ (nextIndex_ n') n ∧ next_in_range n' ∧
    ∀ k, nextIndex_ n' !! k =
         if decide (k ∈ pq_peer_id <$> qs) then Some (next_of n k) else nextIndex_ n !! k.
Proof.
  intros Hr Hfit Hnext.
  destruct (build_requests_spec (peers_ n) n Hfit Hnext)
    as (n' & qs & Hb & H1 & H2 & H3 & H4 & H5 & H6).
  exists n', qs. unfold heartbeat_requests. rewrite decide_True by done. rewrite Hb.
  split_and!; try done. intros k. by apply (filled_in n n' (pq_peer_id <$> qs)).
Qed.

Lemma heartbeat_requests_spec_witness :
  ∃ n' qs, heartbeat_requests leader1 = Some (n', Some qs) ∧
           (entries ∘ pq_request) <$> qs = [[e1; e2]; []].
Proof.
  destruct (heartbeat_requests_spec leader1) as (n' & qs & Hb & _).
  - reflexivity.
  - apply N.ltb_lt. reflexivity.
  - intros k i Hk. apply elem_of_map_to_list, list_elem_of_In in Hk. vm_compute in Hk.
    destruct Hk as [Hk|[Hk|[]]]; injection Hk as <- <-; split; apply N.leb_le; reflexivity.
  - exists n', qs. split; [exact Hb|]. vm_compute in Hb. injection Hb as _ <-. reflexivity.
Defined.


Definition round_results : list PeerResult :=
  [mkPeerResult 1 0 2 (mkAppendEntriesReply 1 true) true;
   mkPeerResult 2 0 2 (mkAppendEntriesReply 0 false) false].

Lemma leader1_ok : leader_ok leader1.
Proof.
  split.
  - apply N.ltb_lt. reflexivity.
  - intros k i Hk. apply elem_of_map_to_list, list_elem_of_In in Hk. vm_compute in Hk.
    destruct Hk as [Hk|[Hk|[]]]; injection Hk as <- <-; split; apply N.leb_le; reflexivity.
  - intros k i Hk. apply elem_of_map_to_list, list_elem_of_In in Hk. vm_compute in Hk.
    destruct Hk as [Hk|[Hk|[]]]; injection Hk as <- <-; apply N.leb_le; reflexivity.
  - apply N.leb_le. reflexivity.
Qed.


(** ** [propose_sync] *)

Lemma propose_sync_loop_spec result deadline polls :
  (∃ p, p ∈ polls ∧ (deadline ≤ poll_now p)%Z) →
  ∃ res, propose_sync_loop result deadline polls = Some res ∧
    pr_index res = pr_index result ∧ pr_term res = pr_term result ∧
    (pr_is_leader res = true → pr_is_leader result = true ∧
       ∃ p, p ∈ polls ∧ (poll_now p < deadline)%Z ∧ is_dead (poll_node p) = false ∧
            pr_index result ≤ last_applied_ (poll_node p)).
Proof.
  induction polls as [|q polls IH]; intros (p & Hp & Hd); [by apply elem_of_nil in Hp|]. simpl.
  destruct (is_dead (poll_node q)) eqn:Hq; simpl; [by eexists|].
  destruct (Z.leb_spec deadline (poll_now q)) as [Hle|Hlt]; [by eexists|].
  destruct (N.leb_spec (pr_index result) (last_applied_ (poll_node q))).
  { exists result. split_and!; try done. intros Hl. split; [done|]. exists q. by split_and!; [left|..]. }
  case_decide; [|by eexists].
  destruct IH as (res & -> & H1 & H2 & H3).
  { apply elem_of_cons in Hp as [->|Hp]; [lia|]. by exists p. }
  exists res. split_and!; try done. intros Hl. destruct (H3 Hl) as (? & p' & ? & ? & ? & ?).
  split; [done|]. exists p'. by split_and!; [right|..].
Qed.

(** C32: [propose_sync] returns as soon as the clock passes its deadline of five
    seconds, if not before; it appends its entry when the node leads, and it
    reports success only if the node led and was seen, alive and in time, with that
    index applied. *)
Theorem propose_sync_returns d now polls n :
  (∃ p, p ∈ polls ∧ (now + ms 5000 ≤ poll_now p)%Z) →
  ∃ res, (propose_sync d now polls n).2 = Some res ∧
    (propose_sync d now polls n).1 = (propose d n).1 ∧
    (pr_is_leader res = true →
       role_ n = LEADER ∧ pr_index res = vsize (log_ n) + 1 ∧ pr_term res = current_term_ n ∧
       log_ (propose d n).1 = log_ n ++ [mkEntry (current_term_ n) d] ∧
       ∃ p, p ∈ polls ∧ (poll_now p < now + ms 5000)%Z ∧ is_dead (poll_node p) = false ∧
            vsize (log_ n) + 1 ≤ last_applied_ (poll_node p)).
Proof.
  intros Hp. unfold propose_sync, propose. case_decide as Hr; simpl; [|by eexists].
  edestruct (propose_sync_loop_spec (mkProposalResult (vsize (log_ n ++ [mkEntry (current_term_ n) d]))
    (current_term_ n) true) (now + ms 5000)%Z polls Hp) as (res & -> & H1 & H2 & H3).
  exists res. split_and!; try done. intros Hl. destruct (H3 Hl) as (_ & p & Hin & Hlt & Hd & Hle).
  simpl in *. rewrite vsize_app in *. change (vsize [_]) with 1 in *.
  split_and!; try done. exists p. by split_and!.
Qed.

Lemma propose_sync_returns_witness :
  ∃ res, (propose_sync "z" 0 [mkPoll 0 leader1; mkPoll (ms 5000) leader1] leader1).2 = Some res ∧
         pr_is_leader res = false.
Proof.
  destruct (propose_sync_returns "z" 0 [mkPoll 0 leader1; mkPoll (ms 5000) leader1] leader1)
    as (res & Hres & _).
  - exists (mkPoll (ms 5000) leader1). split; [right; left|apply Z.leb_le; reflexivity].
  - exists res. split; [exact Hres|]. vm_compute in Hres. injection Hres as <-. reflexivity.
Defined.

(** The index is not the entry: the node can lose its entry to another leader, win
    the next election and apply somebody else's command at that index between two
    polls; [propose_sync] then reports success. *)
Definition replaced : Raft :=
  set_last_applied_ 3 (set_commit_index_ 3
    (set_log_ [e1; e2; mkEntry 2 "other"] (set_current_term_ 3 leader1))).

Lemma propose_sync_other_entry :
  (propose_sync "z" 0 [mkPoll 0 replaced] leader1).2 = Some (mkProposalResult 3 1 true) ∧
  (command <$> log_ replaced !! 2%nat) = Some "other"%string.
Proof. split; reflexivity. Qed.

(** ** The election *)

(** A follower or candidate that hears no heartbeat stands for the next term
    with its own vote; the section after the vote loop makes it leader exactly when
    it is still a candidate with a majority, and otherwise a candidate falls back to
    follower; a new leader starts with every peer at the end of its log. *)
Lemma election_sections n r votes now :
  current_term_ n + 1 < pow64 →
  (let '(go, n') := start_election r n in
   go = negb (received_heartbeat_ n) && negb (bool_decide (role_ n = LEADER)) ∧
   if go then role_ n' = CANDIDATE ∧ current_term_ n' = current_term_ n + 1 ∧
              voted_for_ n' = Some (raft_id n) ∧ log_ n' = log_ n
   else n' = n) ∧
  (let '(won, n') := finish_election votes (majority n) r n in
   (won = true ↔ role_ n = CANDIDATE ∧ majority n ≤ votes) ∧
   role_ n' = (if won then LEADER
               else match role_ n with CANDIDATE => FOLLOWER | x => x end) ∧
   current_term_ n' = current_term_ n ∧ voted_for_ n' = voted_for_ n ∧ log_ n' = log_ n) ∧
  (∀ p, p ∈ (peers_ n).*1 →
     nextIndex_ (become_leader now n) !! p = Some (vsize (log_ n) + 1) ∧
     matchIndex_ (become_leader now n) !! p = Some 0).
Proof.
  intros Hfit. split_and!.
  - unfold start_election. destruct (negb _ && negb _); split; try done.
    simpl. by rewrite add64_small.
  - unfold finish_election.
    destruct (role_ n) eqn:Hr; simpl; rewrite ?Hr; try (by split_and!; [naive_solver|..]).
    destruct (N.leb_spec (majority n) votes); simpl; split_and!; try done; naive_solver lia.
  - assert (∀ (v : N) (m : gmap N N) p, p ∈ (peers_ n).*1 →
      foldr (λ p m, <[p.1 := v]> m) m (peers_ n) !! p = Some v) as Hfold.
    { intros v m p. induction (peers_ n) as [|[q b] ps IH]; simpl;
        [by intros ?%elem_of_nil|].
      rewrite elem_of_cons, lookup_insert. case_decide as E; [done|]. intros [->|Hp]; [done|auto]. }
    intros p Hp. simpl. by rewrite !Hfold.
Qed.

Lemma election_sections_witness :
  let n := set_received_heartbeat_ false follower0 in
  (start_election 0 n).1 = true ∧ current_term_ (start_election 0 n).2 = 1.
Proof.
  destruct (election_sections (set_received_heartbeat_ false follower0) 0 2 0) as (H & _ & _);
    [apply N.ltb_lt; reflexivity|].
  split; reflexivity.
Defined.
