(* ===== verification/Cluster.v ===== *)
(** A cluster of Raft nodes: the thread that [Raft::run] starts on every node
    as a control state, the gRPC service [RaftServiceImpl] as the delivery of
    requests, and the network between them.

    One step is one critical section (or one access outside [mtx]) of one
    thread, so every interleaving of the program is a sequence of labels.
    [step] is executable; [Undefined] is undefined behaviour, [Disabled] a label
    that does not apply. *)
From S2P Require Import Prelude Types RaftState RaftNode.

#[local] Open Scope N_scope.
#[local] Open Scope rafty_scope.

(** ** The network

    A message stays in the network after it is delivered, so it can be delivered
    late, repeatedly or never: the network of the model does everything gRPC
    does and more.  [rpc] is the number of the call at its client [src]. *)
Inductive msg :=
| MRequestVote (src dst rpc : N) (req : RequestVoteReq)
| MRequestVoteReply (src dst rpc : N) (rep : RequestVoteReply)
| MAppendEntries (src dst rpc : N) (req : AppendEntriesRequest)
| MAppendEntriesReply (src dst rpc : N) (rep : AppendEntriesReply).

#[export] Instance msg_eq_dec : EqDecision msg.
Proof. solve_decision. Defined.

(** ** The thread of [run]

    [votes], [maj], [todo] are the locals [votes], [majority] and the rest of
    [peers_snapshot].  [cv] tells the call of [send_heartbeats] at the top of
    the loop, which is followed by the wait on [propose_cv_], from the call made
    by a new leader. *)
Record inflight := mkInflight {
  if_rpc : N;
  if_slot : PeerResult;
  if_done : bool }.

Inductive pc :=
| PcTop
| PcWait (start : Z)
| PcDecide
| PcVote (votes maj : N) (todo : list N)
| PcReqTerm (votes maj peer t : N) (todo : list N)
| PcReqIndex (votes maj peer t idx : N) (todo : list N)
| PcVoteRpc (votes maj peer rpc : N) (req : RequestVoteReq) (todo : list N)
| PcVoteReply (votes maj peer : N) (rep : RequestVoteReply) (todo : list N)
| PcVoteTerm (votes maj peer : N) (rep : RequestVoteReply) (my_term : N) (todo : list N)
| PcFinish (votes maj : N)
| PcBecome
| PcHb (cv : bool)
| PcHbRpc (cv : bool) (calls : list inflight)
| PcApply (cv : bool) (to_apply : list ApplyResult)
| PcCv.

Record proc := mkProc { node : Raft; ctl : pc; next_rpc : N }.

(** ** History

    What the nodes have done, newest first: granted votes (with the request
    that was granted and the voter's log), won elections (with the leader's
    log) and accepted AppendEntries requests. *)
Inductive event :=
| EVote (voter : N) (req : RequestVoteReq) (vlog : list Entry)
| EElected (leader t : N) (log : list Entry)
| EAck (follower t idx : N).

#[export] Instance event_eq_dec : EqDecision event.
Proof. solve_decision. Defined.

Record cluster := mkCluster {
  procs : gmap N proc;
  net : list msg;
  history : list event }.

Definition upd (i : N) (p : proc) (c : cluster) : cluster :=
  mkCluster (<[i := p]> (procs c)) (net c) (history c).
Definition send (ms : list msg) (c : cluster) : cluster :=
  mkCluster (procs c) (ms ++ net c) (history c).
Definition record (evs : list event) (c : cluster) : cluster :=
  mkCluster (procs c) (net c) (evs ++ history c).

(** ** Steps *)

(** [LDecide] is the section that starts an election and the snapshot of [peers_] after it;
    [peers_] does not change once the thread runs, so that it is read in one step. *)
Inductive label :=
| LTop (i : N) (now : Z)
| LWait (i : N) (now : Z)
| LDecide (i r : N)
| LVote (i : N)
| LReadIndex (i : N)
| LSendVote (i : N)
| LVoteReply (i : N) (rep : RequestVoteReply)
| LVoteFail (i : N)
| LReadMyTerm (i : N)
| LVoteCount (i r : N)
| LFinish (i r : N)
| LBecome (i : N) (now : Z)
| LHb (i : N)
| LHbReply (i rpc : N) (rep : AppendEntriesReply)
| LHbFail (i rpc : N)
| LProcess (i r : N) (now : Z)
| LApply (i : N)
| LCv (i : N)
| LDeliverRV (src dst rpc : N) (req : RequestVoteReq) (r : N)
| LDeliverAE (src dst rpc : N) (req : AppendEntriesRequest) (r : N)
| LPropose (i : N) (d : string)
| LKill (i : N).

Inductive outcome := Next (c : cluster) | Undefined | Disabled.

Definition after_heartbeats (cv : bool) : pc := if cv then PcCv else PcTop.

(** Number the calls of a round and post those whose peer has a worker. *)
Fixpoint post_calls (n : Raft) (k : N) (qs : list PeerReq) : list inflight * list msg :=
  match qs with
  | [] => ([], [])
  | q :: qs =>
      let '(calls, ms) := post_calls n (k + 1) qs in
      let posted := bool_decide (pq_peer_id q ∈ peer_workers_ n) in
      (mkInflight k (result_slot n q) (negb posted) :: calls,
       if posted then MAppendEntries (raft_id n) (pq_peer_id q) k (pq_request q) :: ms else ms)
  end.

(** Complete the call numbered [k]. *)
Definition complete (k : N) (reply : option AppendEntriesReply) (x : inflight) : inflight :=
  if (if_rpc x =? k) && negb (if_done x)
  then mkInflight (if_rpc x) (rpc_result reply (if_slot x)) true
  else x.

(** One step of the thread of node [i], whose process is [p]. *)
Definition thread_step (l : label) (i : N) (p : proc) (c : cluster) : outcome :=
  let n := node p in
  let goto pc' := Next (upd i (mkProc n pc' (next_rpc p)) c) in
  let put n' pc' := upd i (mkProc n' pc' (next_rpc p)) c in
  match l, ctl p with
  | LTop _ now, PcTop =>
      if is_dead n then Disabled
      else let '(am_leader, n') := run_top n in
           Next (put n' (if (am_leader : bool) then PcHb true else PcWait now))
  | LWait _ now, PcWait start =>
      goto (if wait_over start now n then PcDecide else PcWait start)
  | LDecide _ r, PcDecide =>
      let '(go, n') := start_election r n in
      if (go : bool) then
        match vote_request n' with
        | None => Undefined
        | Some req =>
            Next (record [EVote i req (log_ n')]
                    (put n' (PcVote 1 (majority n') (peers_ n').*1)))
        end
      else Next (put n' PcTop)
  | LVote _, PcVote votes maj [] => goto (PcFinish votes maj)
  | LVote _, PcVote votes maj (peer :: todo) =>
      goto (PcReqTerm votes maj peer (current_term_ n) todo)
  | LReadIndex _, PcReqTerm votes maj peer t todo =>
      goto (PcReqIndex votes maj peer t (vsize (log_ n)) todo)
  | LSendVote _, PcReqIndex votes maj peer t idx todo =>
      match last_term (log_ n) with
      | None => Undefined
      | Some lt =>
          let req := mkRequestVoteReq t (raft_id n) idx lt in
          Next (send [MRequestVote i peer (next_rpc p) req]
                  (upd i (mkProc n (PcVoteRpc votes maj peer (next_rpc p) req todo)
                            (next_rpc p + 1)) c))
      end
  | LVoteReply _ rep, PcVoteRpc votes maj peer rpc _ todo =>
      if bool_decide (MRequestVoteReply peer i rpc rep ∈ net c)
      then goto (PcVoteReply votes maj peer rep todo) else Disabled
  | LVoteFail _, PcVoteRpc votes maj _ _ _ todo => goto (PcVote votes maj todo)
  | LReadMyTerm _, PcVoteReply votes maj peer rep todo =>
      goto (PcVoteTerm votes maj peer rep (current_term_ n) todo)
  | LVoteCount _ r, PcVoteTerm votes maj peer rep my_term todo =>
      if my_term <? rvr_term rep then
        Next (put (vote_step_down rep r n) (PcFinish votes maj))
      else if voteGranted rep then
        let votes := votes +₆₄ 1 in
        goto (if maj <=? votes then PcFinish votes maj else PcVote votes maj todo)
      else goto (PcVote votes maj todo)
  | LFinish _ r, PcFinish votes maj =>
      let '(became_leader, n') := finish_election votes maj r n in
      if (became_leader : bool)
      then Next (record [EElected i (current_term_ n') (log_ n')] (put n' PcBecome))
      else Next (put n' PcTop)
  | LBecome _ now, PcBecome => Next (put (become_leader now n) (PcHb false))
  | LHb _, PcHb cv =>
      match heartbeat_requests n with
      | None => Undefined
      | Some (n', None) => Next (put n' (after_heartbeats cv))
      | Some (n', Some qs) =>
          let '(calls, ms) := post_calls n' (next_rpc p) qs in
          Next (send ms (upd i (mkProc n' (PcHbRpc cv calls)
                                  (next_rpc p + N.of_nat (length qs))) c))
      end
  | LHbReply _ k rep, PcHbRpc cv calls =>
      if existsb (λ x, (if_rpc x =? k) && negb (if_done x) &&
                       bool_decide (MAppendEntriesReply (ps_peer_id (if_slot x)) i k rep ∈ net c))
           calls
      then goto (PcHbRpc cv (complete k (Some rep) <$> calls)) else Disabled
  | LHbFail _ k, PcHbRpc cv calls => goto (PcHbRpc cv (complete k None <$> calls))
  | LProcess _ r now, PcHbRpc cv calls =>
      if forallb if_done calls then
        match process_replies (if_slot <$> calls) r now n with
        | None => Undefined
        | Some (n', to_apply) => Next (put n' (PcApply cv to_apply))
        end
      else Disabled
  | LApply _, PcApply cv (a :: to_apply) => Next (put (apply a n) (PcApply cv to_apply))
  | LApply _, PcApply cv [] => goto (after_heartbeats cv)
  | LCv _, PcCv => goto PcTop
  | _, _ => Disabled
  end.

(** [RaftServiceImpl::RequestVote] / [AppendEntries] and the calls of clients:
    handlers that run beside the thread and leave its control state alone. *)
Definition deliver_vote (src dst rpc : N) (req : RequestVoteReq) (r : N)
    (p : proc) (c : cluster) : outcome :=
  if bool_decide (MRequestVote src dst rpc req ∈ net c) then
    match handle_request_vote req r (node p) with
    | None => Undefined
    | Some (n', rep) =>
        Next (record (if voteGranted rep then [EVote dst req (log_ n')] else [])
                (send [MRequestVoteReply dst src rpc rep]
                   (upd dst (mkProc n' (ctl p) (next_rpc p)) c)))
    end
  else Disabled.

Definition deliver_append (src dst rpc : N) (req : AppendEntriesRequest) (r : N)
    (p : proc) (c : cluster) : outcome :=
  if bool_decide (MAppendEntries src dst rpc req ∈ net c) then
    match handle_append_entries req r (node p) with
    | None => Undefined
    | Some (n', rep) =>
        Next (record (if success rep
                      then [EAck dst (aeq_term req) (prevLogIndex req + vsize (entries req))]
                      else [])
                (send [MAppendEntriesReply dst src rpc rep]
                   (upd dst (mkProc n' (ctl p) (next_rpc p)) c)))
    end
  else Disabled.

(** The node whose state a label changes. *)
Definition actor (l : label) : N :=
  match l with
  | LTop i _ | LWait i _ | LDecide i _ | LVote i | LReadIndex i | LSendVote i
  | LVoteReply i _ | LVoteFail i | LReadMyTerm i | LVoteCount i _ | LFinish i _
  | LBecome i _ | LHb i | LHbReply i _ _ | LHbFail i _ | LProcess i _ _
  | LApply i | LCv i | LPropose i _ | LKill i => i
  | LDeliverRV _ dst _ _ _ | LDeliverAE _ dst _ _ _ => dst
  end.

Definition step (l : label) (c : cluster) : outcome :=
  match procs c !! actor l with
  | None => Disabled
  | Some p =>
      match l with
      | LDeliverRV src dst rpc req r => deliver_vote src dst rpc req r p c
      | LDeliverAE src dst rpc req r => deliver_append src dst rpc req r p c
      | LPropose i d =>
          Next (upd i (mkProc (propose d (node p)).1 (ctl p) (next_rpc p)) c)
      | LKill i => Next (upd i (mkProc (kill (node p)) (ctl p) (next_rpc p)) c)
      | _ => thread_step l (actor l) p c
      end
  end.

(** Run a schedule; [None] when a label is disabled or undefined. *)
Fixpoint run_schedule (ls : list label) (c : cluster) : option cluster :=
  match ls with
  | [] => Some c
  | l :: ls => match step l c with Next c' => run_schedule ls c' | _ => None end
  end.

(** ** Start-up: every configured node constructed and connected. *)
Definition boot_proc (config : Config) (r : N) : proc :=
  mkProc (connect_peers (Raft_init config r)) PcTop 0.

Definition boot (configs : list Config) (r : N) : cluster :=
  mkCluster (list_to_map ((λ cfg, (cfg_id cfg, boot_proc cfg r)) <$> configs)) [] [].
