(* ===== verification/RaftSpec.v ===== *)
(** The consensus protocol as an abstract transition system: what the cluster of
    [Cluster.v] promises, without threads, timers, leases, call numbers or
    machine arithmetic.  [Refinement.v] proves that the cluster implements it;
    the safety theorems are proved here, by rule induction. *)
From S2P Require Import Prelude Types RaftState RaftNode RaftNodeFacts Cluster.

#[local] Open Scope N_scope.

(** ** States *)

Record anode := mkANode {
  a_role : Role;
  a_term : N;
  a_voted : option N;
  a_log : list Entry;
  a_commit : N }.

(** The nodes, every AppendEntries request sent so far, and the history. *)
Record astate := mkAState {
  a_nodes : gmap N anode;
  a_reqs : list AppendEntriesRequest;
  a_hist : list event }.

Definition aupd (i : N) (x : anode) (s : astate) : astate :=
  mkAState (<[i := x]> (a_nodes s)) (a_reqs s) (a_hist s).
Definition arecord (e : event) (s : astate) : astate :=
  mkAState (a_nodes s) (a_reqs s) (e :: a_hist s).
Definition asend (q : AppendEntriesRequest) (s : astate) : astate :=
  mkAState (a_nodes s) (q :: a_reqs s) (a_hist s).

(** More than half of the members [D]. *)
Definition quorum (D Q : gset N) : Prop := Q ⊆ D ∧ (size D < 2 * size Q)%nat.

(** Node [i] has won the election of term [t]. *)
Definition elected (h : list event) (i t : N) : Prop := ∃ l, EElected i t l ∈ h.

(** Node [v] granted a request for candidate [i] in term [t] that announced a
    log of [len] entries ending in term [lt]. *)
Definition voted (h : list event) (v i t len lt : N) : Prop :=
  ∃ vl, EVote v (mkRequestVoteReq t i len lt) vl ∈ h.

(** Node [v] acknowledged to the leader of term [t] a log of at least [c] entries. *)
Definition acked (h : list event) (v t c : N) : Prop := ∃ m, c ≤ m ∧ EAck v t m ∈ h.

(** ** Transitions *)

Inductive astep (s : astate) : astate → Prop :=
| A_bump i x t :
    a_nodes s !! i = Some x → a_term x < t →
    astep s (aupd i (mkANode FOLLOWER t None (a_log x) (a_commit x)) s)
| A_follow i x :
    a_nodes s !! i = Some x →
    astep s (aupd i (mkANode FOLLOWER (a_term x) (a_voted x) (a_log x) (a_commit x)) s)
| A_resign i x :
    a_nodes s !! i = Some x → a_role x = LEADER →
    astep s (aupd i (mkANode FOLLOWER (a_term x) None (a_log x) (a_commit x)) s)
| A_timeout i x :
    a_nodes s !! i = Some x → a_role x ≠ LEADER →
    astep s
      (arecord (EVote i (mkRequestVoteReq (a_term x + 1) i (vsize (a_log x))
                           (last_term_of (a_log x))) (a_log x))
         (aupd i (mkANode CANDIDATE (a_term x + 1) (Some i) (a_log x) (a_commit x)) s))
| A_grant i x req :
    a_nodes s !! i = Some x → rvq_term req = a_term x →
    (a_voted x = None ∨ a_voted x = Some (candidateId req)) →
    up_to_date req (vsize (a_log x)) (last_term_of (a_log x)) = true →
    ¬ elected (a_hist s) i (a_term x) →
    astep s
      (arecord (EVote i req (a_log x))
         (aupd i (mkANode (a_role x) (a_term x) (Some (candidateId req))
                    (a_log x) (a_commit x)) s))
| A_elect i x Q :
    a_nodes s !! i = Some x → a_role x = CANDIDATE →
    quorum (dom (a_nodes s)) Q →
    (∀ v, v ∈ Q →
      voted (a_hist s) v i (a_term x) (vsize (a_log x)) (last_term_of (a_log x))) →
    astep s
      (arecord (EElected i (a_term x) (a_log x))
         (aupd i (mkANode LEADER (a_term x) (a_voted x) (a_log x) (a_commit x)) s))
| A_append i x d :
    a_nodes s !! i = Some x → a_role x = LEADER →
    astep s (aupd i (mkANode LEADER (a_term x) (a_voted x)
                       (a_log x ++ [mkEntry (a_term x) d]) (a_commit x)) s)
| A_send i x q :
    a_nodes s !! i = Some x → a_role x = LEADER →
    aeq_term q = a_term x → leaderId q = i →
    prevLogIndex q ≤ vsize (a_log x) →
    prev_matches (a_log x) (prevLogIndex q) (prevLogTerm q) →
    entries q = drop (N.to_nat (prevLogIndex q)) (a_log x) →
    leaderCommit q = a_commit x →
    astep s (asend q s)
| A_accept i x q :
    a_nodes s !! i = Some x → q ∈ a_reqs s →
    aeq_term q = a_term x → a_role x = FOLLOWER →
    prev_ok (a_log x) q = true →
    astep s
      (let log' := merge_log (a_log x) (prevLogIndex q) (entries q) in
       arecord (EAck i (a_term x) (prevLogIndex q + vsize (entries q)))
         (aupd i (mkANode FOLLOWER (a_term x) (a_voted x) log'
                    (commit_after q (a_commit x) log')) s))
| A_commit i x c e Q :
    a_nodes s !! i = Some x → a_role x = LEADER →
    a_commit x < c → c ≤ vsize (a_log x) →
    vat (a_log x) (c - 1) = Some e → term e = a_term x →
    quorum (dom (a_nodes s)) Q → i ∈ Q →
    (∀ v, v ∈ Q → v ≠ i → acked (a_hist s) v (a_term x) c) →
    astep s (aupd i (mkANode LEADER (a_term x) (a_voted x) (a_log x) c) s).

Definition asteps : relation astate := rtc astep.

(** A cluster that has just booted. *)
Definition ainitial (s : astate) : Prop :=
  a_reqs s = [] ∧ a_hist s = [] ∧
  map_Forall (λ _ x, x = mkANode FOLLOWER 0 None [] 0) (a_nodes s).

Definition areachable (s : astate) : Prop := ∃ s0, ainitial s0 ∧ asteps s0 s.

(** ** Votes are cast once per term *)

Record vote_inv (s : astate) : Prop := {
  vi_past : ∀ v req vl, EVote v req vl ∈ a_hist s →
    ∃ x, a_nodes s !! v = Some x ∧ rvq_term req ≤ a_term x ∧
         (rvq_term req = a_term x →
          a_voted x = Some (candidateId req) ∨
          (candidateId req = v ∧ elected (a_hist s) v (a_term x)));
  vi_self : ∀ i x, a_nodes s !! i = Some x → a_role x ≠ FOLLOWER → a_voted x = Some i;
  vi_lead : ∀ i x, a_nodes s !! i = Some x → a_role x = LEADER →
    elected (a_hist s) i (a_term x);
  vi_once : ∀ v req1 l1 req2 l2,
    EVote v req1 l1 ∈ a_hist s → EVote v req2 l2 ∈ a_hist s →
    rvq_term req1 = rvq_term req2 → candidateId req1 = candidateId req2;
  vi_quorum : ∀ i t l, EElected i t l ∈ a_hist s →
    ∃ Q, quorum (dom (a_nodes s)) Q ∧
         ∀ v, v ∈ Q → voted (a_hist s) v i t (vsize l) (last_term_of l) }.

Lemma elected_mono h h' i t : h ⊆ h' → elected h i t → elected h' i t.
Proof. intros Hs [l Hl]. exists l. by apply Hs. Qed.

Lemma voted_mono h h' v i t len lt : h ⊆ h' → voted h v i t len lt → voted h' v i t len lt.
Proof. intros Hs [l Hl]. exists l. by apply Hs. Qed.

Lemma acked_mono h h' v t c : h ⊆ h' → acked h v t c → acked h' v t c.
Proof. intros Hs (m & ? & ?). exists m. split; [done|]. by apply Hs. Qed.

#[export] Hint Resolve elected_mono voted_mono acked_mono : rafty.

Lemma dom_aupd s i x : is_Some (a_nodes s !! i) → dom (<[i := x]> (a_nodes s)) = dom (a_nodes s).
Proof. intros Hi. rewrite dom_insert_L. apply elem_of_dom in Hi. set_solver. Qed.

(** A step that changes one node without casting a vote or deciding an election. *)
Lemma vote_inv_quiet s i x x' reqs h :
  vote_inv s → a_nodes s !! i = Some x →
  a_hist s ⊆ h →
  (∀ v req l, EVote v req l ∈ h → EVote v req l ∈ a_hist s) →
  (∀ j t l, EElected j t l ∈ h → EElected j t l ∈ a_hist s) →
  a_term x ≤ a_term x' →
  (a_term x' = a_term x → a_voted x' = a_voted x ∨ (a_voted x = Some i ∧ elected h i (a_term x))) →
  (a_role x' ≠ FOLLOWER → a_voted x' = Some i) →
  (a_role x' = LEADER → elected h i (a_term x')) →
  vote_inv (mkAState (<[i := x']> (a_nodes s)) reqs h).
Proof.
  intros Hinv Hi Hsub Hv He Hterm Hvoted Hself Hlead.
  split; simpl.
  - intros v req vl H%Hv. destruct (vi_past s Hinv _ _ _ H) as (y & Hy & Hle & Heq).
    destruct (decide (v = i)) as [->|Hne]; simplify_map_eq.
    + exists x'. split; [done|]. split; [lia|]. intros Ht.
      destruct (Heq ltac:(lia)) as [Hyv|[Hc Hel]].
      * destruct (Hvoted ltac:(lia)) as [->|[Hxi Hel]]; [by left|right].
        split; [congruence|]. by replace (a_term x') with (a_term x) by lia.
      * right. split; [done|]. replace (a_term x') with (a_term x) by lia. eauto with rafty.
    + exists y. split; [by simplify_map_eq|]. split; [done|].
      intros Ht. destruct (Heq Ht) as [|[? ?]]; [by left|right]. eauto with rafty.
  - intros j y Hj. destruct (decide (j = i)) as [->|]; simplify_map_eq; [done|].
    by apply (vi_self s Hinv).
  - intros j y Hj. destruct (decide (j = i)) as [->|]; simplify_map_eq; [done|].
    intros Hl. pose proof (vi_lead s Hinv _ _ Hj Hl). eauto with rafty.
  - intros v r1 l1 r2 l2 H1%Hv H2%Hv. by apply (vi_once s Hinv _ _ _ _ _ H1 H2).
  - intros j t l H%He. rewrite dom_aupd by eauto.
    destruct (vi_quorum s Hinv _ _ _ H) as (Q & HQ & Hvs). exists Q.
    split; [done|]. intros v Hin. eapply voted_mono; [exact Hsub|]. by apply Hvs.
Qed.

(** A step in which node [i] casts a vote it was free to cast. *)
Lemma vote_inv_cast s i x x' req l :
  vote_inv s → a_nodes s !! i = Some x →
  a_term x ≤ a_term x' → rvq_term req = a_term x' → a_voted x' = Some (candidateId req) →
  (a_term x' = a_term x →
   (a_voted x = None ∨ a_voted x = Some (candidateId req)) ∧
   ¬ elected (a_hist s) i (a_term x)) →
  (a_role x' ≠ FOLLOWER → candidateId req = i) → a_role x' ≠ LEADER →
  vote_inv (arecord (EVote i req l) (aupd i x' s)).
Proof.
  intros Hinv Hi Hterm Hreq Hvoted Hfree Hself Hlead.
  assert (∀ h e, a_hist s ⊆ h → a_hist s ⊆ e :: h) as Hsub by set_solver.
  assert (∀ r1 l1, EVote i r1 l1 ∈ a_hist s → rvq_term r1 = rvq_term req →
                   candidateId r1 = candidateId req) as Honce.
  { intros r1 l1 H Ht. destruct (vi_past s Hinv _ _ _ H) as (y & Hy & Hle & Heq).
    simplify_map_eq. assert (a_term x' = a_term x) as Hxy by lia.
    destruct (Hfree Hxy) as [Hv Hne].
    destruct (Heq ltac:(lia)) as [Hyv|[_ Hel]]; [|done].
    destruct Hv as [Hv|Hv]; congruence. }
  split; simpl.
  - intros v r1 l1 [[= -> -> ->]|H]%elem_of_cons.
    { exists x'. simplify_map_eq. split; [done|]. split; [lia|]. by left. }
    destruct (vi_past s Hinv _ _ _ H) as (y & Hy & Hle & Heq).
    destruct (decide (v = i)) as [->|Hne]; simplify_map_eq.
    + exists x'. split; [done|]. split; [lia|]. intros Ht. left.
      rewrite Hvoted. f_equal. symmetry. apply (Honce _ _ H). lia.
    + exists y. split; [by simplify_map_eq|]. split; [done|].
      intros Ht. destruct (Heq Ht) as [|[? ?]]; [by left|right].
      split; [done|]. eapply elected_mono; [|done]. set_solver.
  - intros j y Hj. destruct (decide (j = i)) as [->|]; simplify_map_eq.
    + intros Hr. rewrite Hvoted. f_equal. by apply Hself.
    + by apply (vi_self s Hinv).
  - intros j y Hj. destruct (decide (j = i)) as [->|]; simplify_map_eq; [done|].
    intros Hl. eapply elected_mono; [|by apply (vi_lead s Hinv)]. set_solver.
  - intros v r1 l1 r2 l2 [E1|H1]%elem_of_cons [E2|H2]%elem_of_cons Ht;
      simplify_eq; [done| | |].
    + symmetry. by apply (Honce _ _ H2).
    + by apply (Honce _ _ H1).
    + by apply (vi_once s Hinv _ _ _ _ _ H1 H2).
  - intros j t k [|H]%elem_of_cons; [done|]. rewrite dom_aupd by eauto.
    destruct (vi_quorum s Hinv _ _ _ H) as (Q & HQ & Hvs). exists Q.
    split; [done|]. intros v Hin. eapply voted_mono; [|by apply Hvs]. set_solver.
Qed.

Lemma vote_inv_elect s i x Q :
  vote_inv s → a_nodes s !! i = Some x → a_role x = CANDIDATE →
  quorum (dom (a_nodes s)) Q →
  (∀ v, v ∈ Q →
    voted (a_hist s) v i (a_term x) (vsize (a_log x)) (last_term_of (a_log x))) →
  vote_inv (arecord (EElected i (a_term x) (a_log x))
              (aupd i (mkANode LEADER (a_term x) (a_voted x) (a_log x) (a_commit x)) s)).
Proof.
  intros Hinv Hi Hrole HQ Hvotes.
  assert (a_hist s ⊆ EElected i (a_term x) (a_log x) :: a_hist s) as Hsub by set_solver.
  assert (a_voted x = Some i) as Hself.
  { apply (vi_self s Hinv _ _ Hi). by rewrite Hrole. }
  split; simpl.
  - intros v req vl [|H]%elem_of_cons; [done|].
    destruct (vi_past s Hinv _ _ _ H) as (y & Hy & Hle & Heq).
    destruct (decide (v = i)) as [->|Hne]; simplify_map_eq.
    + eexists. split; [done|]. split; [done|]. intros Ht.
      destruct (Heq Ht) as [|[? ?]]; [by left|right]. eauto with rafty.
    + exists y. split; [by simplify_map_eq|]. split; [done|].
      intros Ht. destruct (Heq Ht) as [|[? ?]]; [by left|right]. eauto with rafty.
  - intros j y Hj. destruct (decide (j = i)) as [->|]; simplify_map_eq; [done|].
    by apply (vi_self s Hinv).
  - intros j y Hj. destruct (decide (j = i)) as [->|]; simplify_map_eq.
    + intros _. exists (a_log x). by left.
    + intros Hl. eapply elected_mono; [exact Hsub|]. by apply (vi_lead s Hinv).
  - intros v r1 l1 r2 l2 [|H1]%elem_of_cons [|H2]%elem_of_cons; [done..|].
    by apply (vi_once s Hinv _ _ _ _ _ H1 H2).
  - intros j t l H. rewrite dom_aupd by eauto.
    apply elem_of_cons in H as [[= -> -> ->]|H].
    + exists Q. split; [done|]. intros v Hv. eapply voted_mono; [exact Hsub|]. by apply Hvotes.
    + destruct (vi_quorum s Hinv _ _ _ H) as (Q' & HQ' & Hvs). exists Q'.
      split; [done|]. intros v Hv. eapply voted_mono; [exact Hsub|]. by apply Hvs.
Qed.

Lemma vote_inv_initial s : ainitial s → vote_inv s.
Proof.
  intros (_ & Hh & Hn). split; rewrite ?Hh; try by intros * []%not_elem_of_nil.
  - intros i x Hi. rewrite (Hn _ _ Hi). done.
  - intros i x Hi. rewrite (Hn _ _ Hi). done.
Qed.

Lemma vote_inv_step s s' : vote_inv s → astep s s' → vote_inv s'.
Proof.
  intros Hinv Hstep. destruct Hstep as
    [i x t Hi Ht|i x Hi|i x Hi Hr|i x Hi Hr|i x req Hi Hreq Hv Hu Hne|i x Q Hi Hr HQ Hvs
    |i x d Hi Hr|i x q Hi Hr|i x q Hi Hq Ht Hr Hp|i x c e Q Hi Hr].
  - apply (vote_inv_quiet s i x); simpl; try done; try lia.
  - apply (vote_inv_quiet s i x); simpl; try done; by left.
  - apply (vote_inv_quiet s i x); simpl; try done.
    right. split; [apply (vi_self s Hinv _ _ Hi); by rewrite Hr|].
    by apply (vi_lead s Hinv).
  - apply (vote_inv_cast s i x); simpl; try done; lia.
  - apply (vote_inv_cast s i x); simpl; try done.
    + intros Hf. destruct Hv as [Hv|Hv]; pose proof (vi_self s Hinv _ _ Hi Hf); congruence.
    + intros Hl. by apply Hne, (vi_lead s Hinv).
  - by apply (vote_inv_elect s i x Q).
  - apply (vote_inv_quiet s i x); simpl; try done; [by left| |].
    + intros _. apply (vi_self s Hinv _ _ Hi). by rewrite Hr.
    + intros _. by apply (vi_lead s Hinv).
  - destruct s as [ns reqs h]. destruct Hinv. by split.
  - apply (vote_inv_quiet s i x); simpl; try done; [set_solver|..].
    + by intros v req l [|?]%elem_of_cons.
    + by intros j t l [|?]%elem_of_cons.
    + by left.
  - apply (vote_inv_quiet s i x); simpl; try done; [by left| |].
    + intros _. apply (vi_self s Hinv _ _ Hi). by rewrite Hr.
    + intros _. by apply (vi_lead s Hinv).
Qed.

Lemma vote_inv_reachable s : areachable s → vote_inv s.
Proof.
  intros (s0 & Hinit & Hsteps). apply vote_inv_initial in Hinit.
  induction Hsteps; eauto using vote_inv_step.
Qed.

(** At most one node wins the election of a term. *)
Lemma spec_election_safety s i j t :
  areachable s → elected (a_hist s) i t → elected (a_hist s) j t → i = j.
Proof.
  intros Hinv%vote_inv_reachable [l1 H1] [l2 H2].
  destruct (vi_quorum s Hinv _ _ _ H1) as (Q1 & [Hs1 Hq1] & Hv1).
  destruct (vi_quorum s Hinv _ _ _ H2) as (Q2 & [Hs2 Hq2] & Hv2).
  destruct (quorums_meet (dom (a_nodes s)) Q1 Q2) as (v & Hin1 & Hin2); [done|done|lia|].
  destruct (Hv1 v Hin1) as [vl1 E1]. destruct (Hv2 v Hin2) as [vl2 E2].
  exact (vi_once s Hinv _ _ _ _ _ E1 E2 eq_refl).
Qed.
