(* ===== verification/LogSpec.v ===== *)
(** The log of the protocol of [RaftSpec.v]: log matching, leader completeness and
    state machine safety.

    A ghost ledger gives every term in which a leader was elected the log that this
    leader has built so far.  Every log of the cluster is, entry by entry, a copy of
    the ledger ([coherent]), and the history tells which voters held which part of it
    when they voted; a strong induction on terms then shows that a later leader has
    every entry that an earlier one has committed. *)
From S2P Require Import Prelude Types RaftState RaftNode RaftNodeFacts Cluster RaftSpec.

#[local] Open Scope N_scope.

(** ** Ledgers *)

Abbreviation ledger := (gmap N (list Entry)).

(** Leaders only append. *)
Definition grows (L L' : ledger) : Prop :=
  ∀ t l, L !! t = Some l → ∃ l', L' !! t = Some l' ∧ l `prefix_of` l'.

(** Up to any of its entries, a log is what the leader of that entry's term had. *)
Definition coherent (L : ledger) (l : list Entry) : Prop :=
  ∀ k e, l !! k = Some e → ∃ lu, L !! term e = Some lu ∧ take (S k) l `prefix_of` lu.

Definition nondecreasing (l : list Entry) : Prop :=
  ∀ i j e f, l !! i = Some e → l !! j = Some f → (i ≤ j)%nat → term e ≤ term f.

Record good (L : ledger) (t : N) (l : list Entry) : Prop := {
  good_coherent : coherent L l;
  good_sorted : nondecreasing l;
  good_bound : ∀ e, e ∈ l → term e ≤ t }.

Lemma grows_refl L : grows L L.
Proof. intros t l H. by exists l. Qed.

Lemma grows_insert_new L t l : L !! t = None → grows L (<[t := l]> L).
Proof. intros Hn u k Hk. exists k. by rewrite lookup_insert_ne by congruence. Qed.

Lemma grows_insert_more L t l k :
  L !! t = Some l → l `prefix_of` k → grows L (<[t := k]> L).
Proof.
  intros Hl Hp u m Hm. destruct (decide (u = t)) as [->|Hne].
  - simplify_eq. exists k. by rewrite lookup_insert_eq.
  - exists m. by rewrite lookup_insert_ne.
Qed.

(** A prefix holds what its list holds, as far as it goes. *)
Lemma prefix_lookup_lt (l k : list Entry) i e :
  l `prefix_of` k → k !! i = Some e → (i < length l)%nat → l !! i = Some e.
Proof. intros [r ->] H Hi. by rewrite lookup_app_l in H. Qed.

Lemma take_prefix_lt (l k : list Entry) n :
  l `prefix_of` k → (n ≤ length l)%nat → take n k = take n l.
Proof. intros [r ->] Hn. by rewrite take_app_le. Qed.

Lemma take_prefix (l : list Entry) n : take n l `prefix_of` l.
Proof. exists (drop n l). by rewrite take_drop. Qed.

#[export] Hint Resolve grows_refl take_prefix : rafty.

Lemma good_le L t u l : t ≤ u → good L t l → good L u l.
Proof. intros Hle []. split; [done|done|]. intros e He. specialize (good_bound0 e He). lia. Qed.

Lemma good_grows L L' t l : grows L L' → good L t l → good L' t l.
Proof.
  intros Hg [Hc Hs Hb]. split; [|done|done]. intros k e He.
  destruct (Hc k e He) as (lu & Hlu & Hp). destruct (Hg _ _ Hlu) as (lu' & ? & ?).
  exists lu'. split; [done|]. by etrans.
Qed.

Lemma good_prefix L t l k : k `prefix_of` l → good L t l → good L t k.
Proof.
  intros Hp [Hc Hs Hb].
  assert (∀ i e, k !! i = Some e → l !! i = Some e) as Hl
    by (intros i e He; by eapply prefix_lookup_Some).
  split.
  - intros i e He. destruct (Hc i e (Hl _ _ He)) as (lu & ? & Hu). exists lu. split; [done|].
    apply lookup_lt_Some in He. by rewrite (take_prefix_lt k l) in Hu by (done || lia).
  - intros i j e f He Hf. by apply Hs; apply Hl.
  - intros e (i & Hi)%list_elem_of_lookup. apply Hb, list_elem_of_lookup. eauto.
Qed.

(** Appending an entry of the leader's own term. *)
Lemma good_snoc L t l d :
  L !! t = Some l → good L t l →
  good (<[t := l ++ [mkEntry t d]]> L) t (l ++ [mkEntry t d]).
Proof.
  intros Hl Hg.
  assert (l `prefix_of` l ++ [mkEntry t d]) as Hp by (by apply prefix_app_r).
  destruct (good_grows _ _ _ _ (grows_insert_more _ _ _ _ Hl Hp) Hg) as [Hc Hs Hb].
  assert (∀ k e, (l ++ [mkEntry t d]) !! k = Some e →
                 l !! k = Some e ∨ (k = length l ∧ e = mkEntry t d)) as Hk.
  { intros k e He. apply lookup_app_Some in He as [He|[Hge He]]; [by left|].
    apply list_lookup_singleton_Some in He as [? <-]. right. split; [lia|done]. }
  split.
  - intros k e [He| [? ->]]%Hk.
    + destruct (Hc k e He) as (lu & ? & ?). exists lu. split; [done|].
      rewrite take_app_le by (apply lookup_lt_Some in He; lia). done.
    + subst k. exists (l ++ [mkEntry t d]). simpl. split; [by rewrite lookup_insert_eq|].
      rewrite take_ge; [done|]. rewrite length_app. simpl. lia.
  - intros i j e f [He| [? ->]]%Hk [Hf| [? ->]]%Hk Hij; simpl; try done.
    + by eapply Hs.
    + apply Hb, list_elem_of_lookup. eauto.
    + apply lookup_lt_Some in Hf. lia.
  - intros e [He|He]%elem_of_app; [by apply Hb|].
    apply list_elem_of_singleton in He. by subst.
Qed.

(** Log matching, for any two logs that copy the ledger. *)
Lemma coherent_agree L l1 l2 k e1 e2 :
  coherent L l1 → coherent L l2 → l1 !! k = Some e1 → l2 !! k = Some e2 →
  term e1 = term e2 → take (S k) l1 = take (S k) l2.
Proof.
  intros Hc1 Hc2 He1 He2 Ht.
  destruct (Hc1 k e1 He1) as (lu & Hlu & Hp1). destruct (Hc2 k e2 He2) as (lv & Hlv & Hp2).
  rewrite Ht in Hlu. simplify_eq. apply lookup_lt_Some in He1, He2.
  assert (∀ l : list Entry, (k < length l)%nat → take (S k) l `prefix_of` lu →
                            take (S k) l = take (S k) lu) as Hq.
  { intros l Hl Hp. rewrite (take_prefix_lt _ _ (S k) Hp) by (rewrite length_take; lia).
    by rewrite take_take, Nat.min_id. }
  by rewrite (Hq l1), (Hq l2).
Qed.

Lemma merge_cases tail es :
  (∀ i t e, tail !! i = Some t → es !! i = Some e → term t = term e → t = e) →
  (es `prefix_of` tail ∧ merge tail es = tail) ∨
  (¬ es `prefix_of` tail ∧ merge tail es = es).
Proof.
  revert es. induction tail as [|t tail IH]; intros [|e es] Hm; simpl.
  - by left.
  - right. split; [by intros ?%prefix_nil_inv|done].
  - left. split; [apply prefix_nil|done].
  - destruct (N.eqb_spec (term t) (term e)) as [Ht|Ht].
    + rewrite (Hm 0%nat t e) by done.
      destruct (IH es (λ i, Hm (S i))) as [[Hp ->]|[Hp ->]]; [left|right].
      * split; [by apply prefix_cons|done].
      * split; [by intros ?%prefix_cons_inv_2|done].
    + right. split; [|done]. intros Hp%prefix_cons_inv_1. by subst.
Qed.

(** A request that was cut from the log [l]. *)
Definition cut_from (l : list Entry) (q : AppendEntriesRequest) : Prop :=
  prevLogIndex q ≤ vsize l ∧ prev_matches l (prevLogIndex q) (prevLogTerm q) ∧
  entries q = drop (N.to_nat (prevLogIndex q)) l.

(** What a follower makes of it: its own log when that has all of [l], else [l]. *)
Lemma merge_log_cases L log l q :
  coherent L log → coherent L l → cut_from l q → prev_ok log q = true →
  let log' := merge_log log (prevLogIndex q) (entries q) in
  (l `prefix_of` log ∧ log' = log) ∨ (¬ l `prefix_of` log ∧ log' = l).
Proof.
  intros Hc1 Hc2 (Hle & Hm & ->) Hok. cbn zeta.
  unfold prev_ok in Hok. apply andb_true_iff in Hok as [Hlen%N.leb_le Hok].
  set (p := N.to_nat (prevLogIndex q)) in *.
  assert (take p log = take p l) as Hpre.
  { destruct Hm as [Hz|(e & He & Ht)]; [subst p; by rewrite Hz|].
    destruct (N.eqb_spec (prevLogIndex q) 0) as [Hz|Hnz]; [subst p; by rewrite Hz|].
    simpl in Hok. destruct (vat log (prevLogIndex q - 1)) as [f|] eqn:Hf; [|done].
    apply N.eqb_eq in Hok. unfold vat in He, Hf.
    replace p with (S (N.to_nat (prevLogIndex q - 1))) by lia.
    eapply coherent_agree; [exact Hc1|exact Hc2|exact Hf|exact He|congruence]. }
  pose proof (take_drop p log) as E1. pose proof (take_drop p l) as E2. rewrite <- Hpre in E2.
  unfold merge_log. fold p.
  destruct (merge_cases (drop p log) (drop p l)) as [[Hp ->]|[Hp ->]].
  - intros i t e Ht He Hte. rewrite lookup_drop in Ht, He.
    pose proof (coherent_agree L log l _ _ _ Hc1 Hc2 Ht He Hte) as Heq.
    apply (f_equal (.!! (p + i)%nat)) in Heq. rewrite !lookup_take_lt in Heq by lia. congruence.
  - left. split; [|done]. rewrite <- E1, <- E2. by apply prefix_app.
  - right. split; [|done]. intros H. rewrite <- E1, <- E2 in H. by apply prefix_app_inv in H.
Qed.
