(* ===== verification/LogInv.v ===== *)
(** The invariant behind leader completeness, over the ledger of [LogSpec.v], and
    that every transition of [RaftSpec.v] keeps it. *)
From S2P Require Import Prelude Types RaftState RaftNode RaftNodeFacts Cluster RaftSpec LogSpec.

#[local] Open Scope N_scope.

(** ** Vocabulary *)

(** [l] starts with the first [c] entries of the leader of term [t]. *)
Definition contains (L : ledger) (t : N) (c : nat) (l : list Entry) : Prop :=
  ∀ lt, L !! t = Some lt → take c lt `prefix_of` l.

(** The ledger has [c] entries of term [t]'s leader. *)
Definition reaches (L : ledger) (t : N) (c : nat) : Prop :=
  ∃ lt, L !! t = Some lt ∧ (c ≤ length lt)%nat.

(** Node [v] has had these [c] entries in its log while in term [t]: it acknowledged
    them, or it is their leader. *)
Definition held (h : list event) (L : ledger) (v t : N) (c : nat) : Prop :=
  (∃ m, EAck v t m ∈ h ∧ (c ≤ N.to_nat m)%nat) ∨ (elected h v t ∧ reaches L t c).

(** The leaders after [t], up to [u], were elected with these entries. *)
Definition kept (h : list event) (L : ledger) (t : N) (c : nat) (u : N) : Prop :=
  ∀ u' j l, t < u' ≤ u → EElected j u' l ∈ h → contains L t c l.

(** A majority has held [c] entries in term [t], the last one of that term. *)
Definition certified (D : gset N) (h : list event) (L : ledger) (t : N) (c : nat) : Prop :=
  (0 < c)%nat ∧
  (∃ lt e, L !! t = Some lt ∧ lt !! pred c = Some e ∧ term e = t) ∧
  ∃ Q, quorum D Q ∧ ∀ v, v ∈ Q → held h L v t c.

(** The first [ci] entries of [l] are committed, by term [u] at the latest. *)
Definition backed (D : gset N) (h : list event) (L : ledger) (u : N) (ci : nat)
    (l : list Entry) : Prop :=
  ci = 0%nat ∨
  ∃ t c, certified D h L t c ∧ t ≤ u ∧ (ci ≤ c)%nat ∧ contains L t ci l.

(** ** The invariant *)

Record node_ok (D : gset N) (h : list event) (L : ledger) (i : N) (x : anode) : Prop := {
  no_good : good L (a_term x) (a_log x);
  no_lead : a_role x = LEADER → L !! a_term x = Some (a_log x);
  no_cand : a_role x = CANDIDATE → ¬ elected h i (a_term x);
  no_held : ∀ t c, held h L i t c → kept h L t c (a_term x) → contains L t c (a_log x);
  no_commit : backed D h L (a_term x) (N.to_nat (a_commit x)) (a_log x) }.

Definition req_ok (D : gset N) (h : list event) (L : ledger) (q : AppendEntriesRequest) : Prop :=
  ∃ l lt, L !! aeq_term q = Some lt ∧ l `prefix_of` lt ∧ cut_from l q ∧
          backed D h L (aeq_term q) (N.to_nat (leaderCommit q)) l.

Record vote_ok (h : list event) (L : ledger) (v : N) (req : RequestVoteReq)
    (vl : list Entry) : Prop := {
  vo_good : good L (rvq_term req) vl;
  vo_utd : up_to_date req (vsize vl) (last_term_of vl) = true;
  vo_held : ∀ t c, held h L v t c → t < rvq_term req →
    kept h L t c (rvq_term req) → contains L t c vl }.

(** The votes of the electors, with what their logs held before the election. *)
Definition elector_ok (h : list event) (L : ledger) (j u : N) (l : list Entry) (v : N) : Prop :=
  ∃ vl, EVote v (mkRequestVoteReq u j (vsize l) (last_term_of l)) vl ∈ h ∧
        ∀ t c, held h L v t c → t < u → kept h L t c (u - 1) → contains L t c vl.

Record elect_ok (ns : gmap N anode) (h : list event) (L : ledger) (j u : N)
    (l : list Entry) : Prop := {
  eo_good : good L u l;
  eo_older : ∀ e, e ∈ l → term e < u;
  eo_base : ∃ lt, L !! u = Some lt ∧ l `prefix_of` lt;
  eo_term : ∃ x, ns !! j = Some x ∧ u ≤ a_term x;
  eo_quorum : ∃ Q, quorum (dom ns) Q ∧ ∀ v, v ∈ Q → elector_ok h L j u l v }.

Definition ack_ok (ns : gmap N anode) (L : ledger) (v t m : N) : Prop :=
  reaches L t (N.to_nat m) ∧ ∃ x, ns !! v = Some x ∧ t ≤ a_term x.

Record log_inv (s : astate) (L : ledger) : Prop := {
  li_dom : ∀ t, is_Some (L !! t) → ∃ j, elected (a_hist s) j t;
  li_terms : ∀ t lt, L !! t = Some lt → good L t lt;
  li_nodes : ∀ i x, a_nodes s !! i = Some x →
    node_ok (dom (a_nodes s)) (a_hist s) L i x;
  li_reqs : ∀ q, q ∈ a_reqs s → req_ok (dom (a_nodes s)) (a_hist s) L q;
  li_votes : ∀ v req vl, EVote v req vl ∈ a_hist s → vote_ok (a_hist s) L v req vl;
  li_elected : ∀ j u l, EElected j u l ∈ a_hist s → elect_ok (a_nodes s) (a_hist s) L j u l;
  li_acks : ∀ v t m, EAck v t m ∈ a_hist s → ack_ok (a_nodes s) L v t m }.

(** ** Consequences in one state *)

Lemma contains_le L t c c' l : (c' ≤ c)%nat → contains L t c l → contains L t c' l.
Proof.
  intros Hc H lt Hlt. etrans; [|by apply H].
  replace (take c' lt) with (take c' (take c lt)) by (rewrite take_take; f_equal; lia).
  apply take_prefix.
Qed.

Lemma contains_prefix L t c l l' : l `prefix_of` l' → contains L t c l → contains L t c l'.
Proof. intros Hp H lt Hlt. etrans; [by apply H|done]. Qed.

Lemma contains_self L t c l : L !! t = Some l → contains L t c l.
Proof. intros Hl lt Hlt. simplify_eq. apply take_prefix. Qed.

Lemma contains_length L t c l : reaches L t c → contains L t c l → (c ≤ length l)%nat.
Proof.
  intros (lt & Hlt & Hc) H. specialize (H lt Hlt). apply prefix_length in H.
  rewrite length_take in H. lia.
Qed.

Lemma reaches_le L t c c' : (c' ≤ c)%nat → reaches L t c → reaches L t c'.
Proof. intros ? (lt & ? & ?). exists lt. split; [done|lia]. Qed.

Lemma held_le h L v t c c' : (c' ≤ c)%nat → held h L v t c → held h L v t c'.
Proof.
  intros Hc [(m & ? & ?)|[? ?]]; [left; exists m; split; [done|lia]|right].
  split; [done|]. by eapply reaches_le.
Qed.

Section state.
Context (s : astate) (L : ledger) (Hinv : log_inv s L).

#[local] Abbreviation h := (a_hist s).
#[local] Abbreviation D := (dom (a_nodes s)).

Lemma held_reaches v t c : held h L v t c → reaches L t c.
Proof using Hinv.
  intros [(m & Hm & Hc)|[_ H]]; [|done]. eapply reaches_le; [exact Hc|].
  by apply (li_acks s L Hinv v t m).
Qed.

Lemma held_term v t c x : held h L v t c → a_nodes s !! v = Some x → t ≤ a_term x.
Proof using Hinv.
  intros [(m & Hm & _)|[[l Hl] _]] Hx.
  - destruct (li_acks s L Hinv _ _ _ Hm) as (_ & y & Hy & ?). by simplify_eq.
  - destruct (eo_term _ _ _ _ _ _ (li_elected s L Hinv _ _ _ Hl)) as (y & Hy & ?).
    by simplify_eq.
Qed.

(** The log with which a leader was elected starts the leader's log. *)
Lemma kept_contains t c u lu :
  t ≤ u → L !! u = Some lu → kept h L t c u → contains L t c lu.
Proof using Hinv.
  intros Htu Hlu Hk. destruct (N.eq_dec t u) as [->|Hne].
  { by apply contains_self. }
  destruct (li_dom s L Hinv u) as (j & l & Hl); [by eexists|].
  destruct (eo_base _ _ _ _ _ _ (li_elected s L Hinv _ _ _ Hl)) as (lu' & Hlu' & Hp).
  simplify_eq. eapply contains_prefix; [exact Hp|]. apply (Hk u j l); [lia|done].
Qed.

Lemma last_term_of_ge l k e : nondecreasing l → l !! k = Some e → term e ≤ last_term_of l.
Proof using.
  intros Hs He. unfold last_term_of. rewrite last_lookup.
  destruct (l !! pred (length l)) as [f|] eqn:Hf.
  - eapply Hs; [exact He|exact Hf|]. apply lookup_lt_Some in He. lia.
  - apply lookup_ge_None in Hf. apply lookup_lt_Some in He. lia.
Qed.

(** A candidate that is at least as up to date as a voter with the certified
    entries has them too, if the leaders between have. *)
Lemma up_to_date_contains t c u j l vl :
  certified D h L t c → t < u → EElected j u l ∈ h → good L u vl →
  contains L t c vl → kept h L t c (u - 1) →
  up_to_date (mkRequestVoteReq u j (vsize l) (last_term_of l)) (vsize vl) (last_term_of vl) = true →
  contains L t c l.
Proof using Hinv.
  intros (Hpos & (lt & e & Hlt & He & Hte) & _) Htu Hel Hvl Hcv Hk Hutd.
  pose proof (li_elected s L Hinv _ _ _ Hel) as Hok.
  assert (reaches L t c) as Hr by (exists lt; apply lookup_lt_Some in He; split; [done|lia]).
  pose proof (contains_length _ _ _ _ Hr Hcv) as Hcl.
  assert (t ≤ last_term_of vl) as Hlv.
  { rewrite <- Hte. apply (last_term_of_ge vl (pred c)); [apply Hvl|].
    eapply prefix_lookup_Some; [|by apply Hcv]. rewrite lookup_take_lt by lia. done. }
  assert (last_term_of vl < last_term_of l ∨
          (last_term_of l = last_term_of vl ∧ (length vl ≤ length l)%nat)) as Hcmp.
  { unfold up_to_date in Hutd. simpl in Hutd.
    destruct (N.ltb_spec (last_term_of vl) (last_term_of l)); [by left|right].
    bool_to_prop. unfold vsize in *. split; [done|lia]. }
  destruct (l !! pred (length l)) as [f|] eqn:Hf.
  2:{ apply lookup_ge_None in Hf. destruct l; simpl in Hf; [|lia].
      unfold last_term_of at 2 3 in Hcmp. simpl in Hcmp. lia. }
  assert (last_term_of l = term f) as Hlf by (unfold last_term_of; by rewrite last_lookup, Hf).
  destruct (good_coherent _ _ _ (eo_good _ _ _ _ _ _ Hok) _ _ Hf) as (lw & Hlw & Hp).
  assert (length l ≠ 0%nat) as Hl0 by (apply lookup_lt_Some in Hf; lia).
  rewrite take_ge in Hp by lia.
  assert (term f < u) as Hfu.
  { apply (eo_older _ _ _ _ _ _ Hok), list_elem_of_lookup. eauto. }
  assert (contains L t c lw) as Hcw.
  { eapply (kept_contains t c (term f)); [lia|done|]. intros u' j' l' Hu'. apply (Hk u'). lia. }
  specialize (Hcw lt Hlt). intros lt' Hlt'. simplify_eq.
  destruct (prefix_weak_total _ _ _ Hp Hcw) as [Hp'|Hp']; [|done].
  (* the candidate's log is the shorter one: then its last term is [term e] *)
  assert (take c lt !! pred (length l) = Some f) as Hff by (by eapply prefix_lookup_Some).
  rewrite lookup_take_lt in Hff.
  2:{ apply lookup_lt_Some in Hff. rewrite length_take in Hff. lia. }
  assert (length l ≤ c)%nat as Hle.
  { apply prefix_length in Hp'. rewrite length_take in Hp'. lia. }
  assert (term f ≤ term e) as Hfe.
  { eapply (good_sorted _ _ _ (li_terms s L Hinv _ _ Hlt)); [exact Hff|exact He|lia]. }
  destruct Hcmp as [Hcmp|[Hcmp Hlen]]; [lia|].
  assert (length l = c) as Hlc by lia.
  apply prefix_length_eq in Hp'; [by rewrite Hp'|]. rewrite length_take. lia.
Qed.

(** Leader completeness: what a leader has certified is in the log of every later
    leader when it is elected. *)
Lemma certified_kept t c u :
  certified D h L t c → kept h L t c u.
Proof using Hinv.
  intros Hcert. induction (N.lt_wf_0 u) as [u _ IH]. intros u' j l Hu' Hel.
  destruct (N.eq_dec u' u) as [->|Hne]; [|by eapply (IH u'); [lia|split;[|reflexivity]; lia|done]].
  assert (kept h L t c (u - 1)) as Hk by (apply IH; lia).
  destruct Hcert as (Hpos & Hent & Q & [HQ1 HQ2] & Hheld).
  destruct (eo_quorum _ _ _ _ _ _ (li_elected s L Hinv _ _ _ Hel)) as (Q' & [HQ1' HQ2'] & Hvs).
  destruct (quorums_meet D Q Q') as (v & Hv & Hv'); [done|done|lia|].
  destruct (Hvs v Hv') as (vl & Hvote & Hvl).
  destruct (li_votes s L Hinv _ _ _ Hvote) as [Hg Hutd _]. simpl in Hg.
  eapply up_to_date_contains; [|apply Hu'|exact Hel|exact Hg| |exact Hk|exact Hutd].
  - split_and!; [done|done|]. by exists Q.
  - apply Hvl; [by apply Hheld|lia|done].
Qed.
End state.

(** ** Growing the history and the ledger *)

Lemma reaches_grows L L' t c : grows L L' → reaches L t c → reaches L' t c.
Proof.
  intros Hg (lt & Hlt & Hc). destruct (Hg _ _ Hlt) as (lt' & Hlt' & Hp).
  exists lt'. split; [done|]. apply prefix_length in Hp. lia.
Qed.

Lemma contains_grows L L' t c l :
  grows L L' → reaches L t c → contains L t c l ↔ contains L' t c l.
Proof.
  intros Hg (lt & Hlt & Hc). destruct (Hg _ _ Hlt) as (lt' & Hlt' & Hp).
  unfold contains. rewrite Hlt, Hlt'. pose proof (take_prefix_lt lt lt' c Hp Hc) as E.
  split; intros H k [= <-]; [rewrite E|rewrite <- E]; by apply H.
Qed.

Lemma held_grows h h' L L' v t c :
  h ⊆ h' → grows L L' → held h L v t c → held h' L' v t c.
Proof.
  intros Hh Hg [(m & ? & ?)|[? ?]]; [left; exists m; auto|right].
  split; [by eapply elected_mono|by eapply reaches_grows].
Qed.

(** Old leaders with the entries are among the new ones. *)
Lemma kept_shrinks h h' L L' t c u :
  h ⊆ h' → grows L L' → reaches L t c → kept h' L' t c u → kept h L t c u.
Proof.
  intros Hh Hg Hr Hk u' j l Hu Hel. apply (contains_grows L L'); [done|done|].
  apply (Hk u' j l Hu). by apply Hh.
Qed.

Lemma certified_grows D h h' L L' t c :
  h ⊆ h' → grows L L' → certified D h L t c → certified D h' L' t c.
Proof.
  intros Hh Hg (Hpos & (lt & e & Hlt & He & Ht) & Q & HQ & Hv). split; [done|]. split.
  - destruct (Hg _ _ Hlt) as (lt' & ? & Hp). exists lt', e. split_and!; [done| |done].
    by eapply prefix_lookup_Some.
  - exists Q. split; [done|]. intros v Hin. eapply held_grows; [done|done|]. by apply Hv.
Qed.

Lemma certified_reaches D h L t c : certified D h L t c → reaches L t c.
Proof.
  intros (? & (lt & e & Hlt & He & _) & _). exists lt. apply lookup_lt_Some in He.
  split; [done|lia].
Qed.

Lemma backed_grows D h h' L L' u u' ci l l' :
  h ⊆ h' → grows L L' → u ≤ u' → l `prefix_of` l' →
  backed D h L u ci l → backed D h' L' u' ci l'.
Proof.
  intros Hh Hg Hu Hp [->|(t & c & Hcert & Ht & Hc & Hin)]; [by left|right].
  exists t, c. split_and!; [by eapply certified_grows|lia|done|].
  eapply contains_prefix; [exact Hp|]. apply (contains_grows L L'); [done| |done].
  eapply reaches_le; [exact Hc|]. by eapply certified_reaches.
Qed.

(** The commit index lies in the log. *)
Lemma backed_length D h L u ci l : backed D h L u ci l → (ci ≤ length l)%nat.
Proof.
  intros [->|(t & c & Hcert & _ & Hc & Hin)]; [lia|].
  eapply contains_length; [|exact Hin]. eapply reaches_le; [exact Hc|].
  by eapply certified_reaches.
Qed.

(** ** One node moves *)

Section evolve.
Context (s : astate) (L L' : ledger) (i : N) (x x' : anode) (reqs' : list AppendEntriesRequest)
  (h' : list event).
Context (Hvi : vote_inv s) (Hinv : log_inv s L) (Hi : a_nodes s !! i = Some x).
Context (Hterm : a_term x ≤ a_term x') (Hh : a_hist s ⊆ h') (Hg : grows L L').

(** Entries come to be held only by the node that moves, in its current term. *)
Context (Hfresh : ∀ v t c, held h' L' v t c →
  held (a_hist s) L v t c ∨ (v = i ∧ t = a_term x')).

#[local] Abbreviation h := (a_hist s).
#[local] Abbreviation D := (dom (a_nodes s)).
#[local] Abbreviation ns' := (<[i := x']> (a_nodes s)).

Lemma voted_term v req vl :
  EVote v req vl ∈ h → v = i → rvq_term req ≤ a_term x'.
Proof using Hvi Hi Hterm.
  intros Hv ->. destruct (vi_past s Hvi _ _ _ Hv) as (y & Hy & Hle & _).
  simplify_eq. lia.
Qed.

(** What an earlier vote saw is still true. *)
Lemma past_vote_grows v req vl t c u :
  EVote v req vl ∈ h → t < rvq_term req → held h' L' v t c → kept h' L' t c u →
  (held h L v t c → kept h L t c u → contains L t c vl) → contains L' t c vl.
Proof using Hvi Hi Hterm Hinv Hh Hg Hfresh.
  intros Hv Ht [Hold|[Hvi' ->]]%Hfresh Hk H.
  - pose proof (held_reaches s L Hinv _ _ _ Hold) as Hr.
    apply (contains_grows L L'); [done|done|]. apply H; [done|].
    by eapply kept_shrinks.
  - pose proof (voted_term _ _ _ Hv Hvi'). lia.
Qed.

Lemma node_term_grows j y u : a_nodes s !! j = Some y → u ≤ a_term y →
  ∃ z, ns' !! j = Some z ∧ u ≤ a_term z.
Proof using Hi Hterm.
  intros Hj Hu. destruct (decide (j = i)) as [->|Hne].
  - simplify_eq. exists x'. rewrite lookup_insert_eq. split; [done|lia].
  - exists y. by rewrite lookup_insert_ne.
Qed.

Lemma elect_ok_grows j u l :
  elect_ok (a_nodes s) h L j u l → elect_ok ns' h' L' j u l.
Proof using Hvi Hi Hterm Hinv Hh Hg Hfresh.
  intros [Hgd Hold (lt & Hlt & Hp) (y & Hy & Hu) (Q & HQ & Hvs)]. split.
  - by eapply good_grows.
  - done.
  - destruct (Hg _ _ Hlt) as (lt' & ? & ?). exists lt'. split; [done|]. by etrans.
  - by eapply node_term_grows.
  - exists Q. split; [rewrite dom_aupd by eauto; done|]. intros v Hv.
    destruct (Hvs v Hv) as (vl & Hvote & Hvl). exists vl. split; [by apply Hh|].
    intros t c Hheld Ht Hk. eapply past_vote_grows; [exact Hvote|done|done|exact Hk|].
    intros H1 H2. by apply Hvl.
Qed.

Lemma node_ok_grows j y :
  j ≠ i → a_nodes s !! j = Some y → node_ok D h L j y →
  (a_role y = LEADER → L' !! a_term y = L !! a_term y) →
  (a_role y = CANDIDATE → elected h' j (a_term y) → elected h j (a_term y)) →
  node_ok D h' L' j y.
Proof using Hinv Hh Hg Hfresh.
  intros Hne Hj [Hgd Hl Hc Hhd Hcm] Hl' Hc'. split.
  - by eapply good_grows.
  - intros Hr. rewrite Hl' by done. by apply Hl.
  - intros Hr He. by apply (Hc Hr), Hc'.
  - intros t c [Hold|[-> _]]%Hfresh Hk; [|done].
    pose proof (held_reaches s L Hinv _ _ _ Hold) as Hr.
    apply (contains_grows L L'); [done|done|]. apply Hhd; [done|]. by eapply kept_shrinks.
  - by eapply backed_grows.
Qed.

Lemma req_ok_grows q : req_ok D h L q → req_ok D h' L' q.
Proof using Hh Hg.
  intros (l & lt & Hlt & Hp & Hcut & Hb). destruct (Hg _ _ Hlt) as (lt' & ? & ?).
  exists l, lt'. split_and!; [done|by etrans|done|]. by eapply backed_grows.
Qed.

(** The invariant after the step, from what is new in it. *)
Lemma log_inv_evolve :
  (∀ t lt, L' !! t = Some lt → L !! t = Some lt ∨ (good L' t lt ∧ elected h' i t)) →
  (∀ j y, j ≠ i → a_nodes s !! j = Some y → a_role y = LEADER →
          L' !! a_term y = L !! a_term y) →
  (∀ q, q ∈ reqs' → q ∈ a_reqs s ∨ req_ok D h' L' q) →
  (∀ v req vl, EVote v req vl ∈ h' → EVote v req vl ∈ h ∨ vote_ok h' L' v req vl) →
  (∀ j u l, EElected j u l ∈ h' →
            EElected j u l ∈ h ∨ (j = i ∧ elect_ok ns' h' L' j u l)) →
  (∀ v t m, EAck v t m ∈ h' → EAck v t m ∈ h ∨ ack_ok ns' L' v t m) →
  node_ok D h' L' i x' →
  log_inv (mkAState ns' reqs' h') L'.
Proof using Hvi Hi Hterm Hinv Hh Hg Hfresh.
  intros Hterms Hleads Hreqs Hvotes Hels Hacks Hx'.
  split; simpl; rewrite ?dom_aupd by eauto.
  - intros t [lt [Hlt|[_ ?]]%Hterms]; [|by exists i].
    destruct (li_dom s L Hinv t) as (j & Hj); [by eexists|]. exists j. by eapply elected_mono.
  - intros t lt [Hlt|[? _]]%Hterms; [|done]. eapply good_grows; [done|].
    by apply (li_terms s L Hinv).
  - intros j y Hj. destruct (decide (j = i)) as [->|Hne]; simplify_map_eq; [done|].
    apply node_ok_grows; [done|done|by apply (li_nodes s L Hinv)|by eapply Hleads|].
    intros _ [l [Hl|[-> _]]%Hels]; [by exists l|done].
  - intros q [Hq|?]%Hreqs; [|done]. by apply req_ok_grows, (li_reqs s L Hinv).
  - intros v req vl [Hv|?]%Hvotes; [|done].
    destruct (li_votes s L Hinv _ _ _ Hv) as [Hgd Hutd Hhd]. split; [by eapply good_grows|done|].
    intros t c Hheld Ht Hk. eapply past_vote_grows; [exact Hv|done|done|exact Hk|].
    intros H1 H2. by apply Hhd.
  - intros j u l [He|[_ ?]]%Hels; [|done]. by apply elect_ok_grows, (li_elected s L Hinv).
  - intros v t m [Ha|?]%Hacks; [|done].
    destruct (li_acks s L Hinv _ _ _ Ha) as (Hr & y & Hy & Hle).
    split; [by eapply reaches_grows|by eapply node_term_grows].
Qed.
End evolve.
