(* ===== verification/LogSafety.v ===== *)
(** Every transition of [RaftSpec.v] keeps the invariant of [LogInv.v]; what follows
    for the reachable states of the protocol: log matching, leader completeness and
    state machine safety. *)
From S2P Require Import Prelude Types RaftState RaftNode RaftNodeFacts Cluster RaftSpec.
From S2P Require Import LogSpec LogInv.

#[local] Open Scope N_scope.

(** One election per term, from the invariant on votes. *)
Lemma elected_unique s i j t :
  vote_inv s → elected (a_hist s) i t → elected (a_hist s) j t → i = j.
Proof.
  intros Hinv [l1 H1] [l2 H2].
  destruct (vi_quorum s Hinv _ _ _ H1) as (Q1 & [Hs1 Hq1] & Hv1).
  destruct (vi_quorum s Hinv _ _ _ H2) as (Q2 & [Hs2 Hq2] & Hv2).
  destruct (quorums_meet (dom (a_nodes s)) Q1 Q2) as (v & Hin1 & Hin2); [done|done|lia|].
  destruct (Hv1 v Hin1) as [vl1 E1]. destruct (Hv2 v Hin2) as [vl2 E2].
  exact (vi_once s Hinv _ _ _ _ _ E1 E2 eq_refl).
Qed.

Section step.
Context (s : astate) (L : ledger) (i : N) (x : anode).
Context (Hvi : vote_inv s) (Hinv : log_inv s L) (Hi : a_nodes s !! i = Some x).

#[local] Abbreviation h := (a_hist s).
#[local] Abbreviation D := (dom (a_nodes s)).

Lemma self_ok : node_ok D h L i x.
Proof using Hinv Hi. by apply (li_nodes s L Hinv). Qed.

Lemma elected_in_ledger j t : elected h j t → is_Some (L !! t).
Proof using Hinv.
  intros [l Hl]. destruct (eo_base _ _ _ _ _ _ (li_elected s L Hinv _ _ _ Hl)) as (lt & ? & _).
  by eexists.
Qed.

(** Votes do not make a node hold anything. *)
Lemma held_vote req vl v t c : held (EVote i req vl :: h) L v t c → held h L v t c.
Proof using.
  intros [(m & [|]%elem_of_cons & Hm)|[[l [|]%elem_of_cons] ?]]; try done.
  - left. by exists m.
  - right. split; [by exists l|done].
Qed.

(** A node keeps the log that it was known to hold when its term rises. *)
Lemma log_kept x' h' :
  a_log x' = a_log x → a_term x ≤ a_term x' → h ⊆ h' →
  ∀ t c u, a_term x ≤ u → held h L i t c → kept h' L t c u → contains L t c (a_log x').
Proof using Hinv Hi.
  intros -> Hterm Hh t c u Hu Hheld Hk. apply (no_held _ _ _ _ _ self_ok); [done|].
  intros u' j l Hu' He. apply (Hk u' j l); [lia|by apply Hh].
Qed.

Lemma log_inv_quiet x' :
  a_term x ≤ a_term x' → a_log x' = a_log x → a_commit x' = a_commit x →
  a_role x' = FOLLOWER → log_inv (aupd i x' s) L.
Proof using Hvi Hinv Hi.
  intros Hterm Hlog Hc Hr.
  apply (log_inv_evolve s L L i x x' (a_reqs s) h Hvi Hinv Hi Hterm); auto with rafty.
  split; rewrite ?Hlog, ?Hc, ?Hr; try done.
  - eapply good_le; [done|]. apply self_ok.
  - intros t c Hheld Hk. rewrite <- Hlog. by eapply (log_kept x' h).
  - eapply backed_grows; [..|apply self_ok]; auto with rafty.
Qed.

Lemma log_inv_vote x' req :
  a_term x ≤ a_term x' → a_log x' = a_log x → a_commit x' = a_commit x →
  a_role x' ≠ LEADER → (a_role x' = CANDIDATE → ¬ elected h i (a_term x')) →
  rvq_term req = a_term x' →
  up_to_date req (vsize (a_log x)) (last_term_of (a_log x)) = true →
  log_inv (arecord (EVote i req (a_log x)) (aupd i x' s)) L.
Proof using Hvi Hinv Hi.
  intros Hterm Hlog Hc Hl Hcand Hreq Hutd.
  assert (h ⊆ EVote i req (a_log x) :: h) as Hh by set_solver.
  assert (good L (a_term x') (a_log x)) as Hgd.
  { eapply good_le; [done|]. apply self_ok. }
  apply (log_inv_evolve s L L i x x' (a_reqs s) _ Hvi Hinv Hi Hterm Hh); auto with rafty.
  - intros v t c Hheld%held_vote. by left.
  - intros v r vl [[= -> -> ->]|?]%elem_of_cons; [right|by left]. split; [by rewrite Hreq|done|].
    intros t c Hheld%held_vote Ht Hk. rewrite <- Hlog.
    eapply (log_kept x' _ Hlog Hterm Hh); [|done|exact Hk]. lia.
  - intros j u l [|?]%elem_of_cons; [done|by left].
  - intros v t m [|?]%elem_of_cons; [done|by left].
  - split; rewrite ?Hlog, ?Hc; try done.
    + intros Hr [l [|He]%elem_of_cons]; [done|]. apply (Hcand Hr). by exists l.
    + intros t c Hheld%held_vote Hk. rewrite <- Hlog. by eapply (log_kept x' _ Hlog Hterm Hh).
    + eapply backed_grows; [..|apply self_ok]; auto with rafty.
Qed.

(** A term without a leader has no entries. *)
Lemma older_entries : L !! a_term x = None → ∀ e, e ∈ a_log x → term e < a_term x.
Proof using Hinv Hi.
  intros Hn e He. pose proof (good_bound _ _ _ (no_good _ _ _ _ _ self_ok) e He) as Hle.
  apply list_elem_of_lookup in He as [k Hk].
  destruct (good_coherent _ _ _ (no_good _ _ _ _ _ self_ok) k e Hk) as (lu & Hlu & _).
  assert (term e ≠ a_term x) by congruence. lia.
Qed.

(** *** Winning an election *)
Section elect.
Context (Hnew : L !! a_term x = None).

#[local] Abbreviation h' := (EElected i (a_term x) (a_log x) :: h).
#[local] Abbreviation L' := (<[a_term x := a_log x]> L).
#[local] Abbreviation x' := (mkANode LEADER (a_term x) (a_voted x) (a_log x) (a_commit x)).

Lemma elect_hist : h ⊆ h'.
Proof using. intros e He. by right. Qed.

Lemma elect_grows : grows L L'.
Proof using Hnew. by apply grows_insert_new. Qed.

Lemma elect_fresh v t c : held h' L' v t c → held h L v t c ∨ (v = i ∧ t = a_term x).
Proof using Hinv Hnew.
  intros [(m & [|Hm]%elem_of_cons & Hc)|[[l [?|Hl]%elem_of_cons] Hr]]; [done|..].
  - left. left. by exists m.
  - right. by simplify_eq.
  - left. right. assert (elected h v t) as He by (by exists l). split; [done|].
    unfold reaches in *. rewrite lookup_insert_ne in Hr; [done|]. intros <-.
    apply elected_in_ledger in He as [??]. congruence.
Qed.

(** What the electors held when they voted. *)
Lemma elect_elector v :
  voted h v i (a_term x) (vsize (a_log x)) (last_term_of (a_log x)) →
  elector_ok h' L' i (a_term x) (a_log x) v.
Proof using Hinv Hnew.
  intros [vl Hvl]. exists vl. split; [by right|].
  intros t c [Hheld|[_ ->]]%elect_fresh Ht Hk; [|lia].
  pose proof (held_reaches s L Hinv _ _ _ Hheld) as Hr.
  apply (contains_grows L L'); [apply elect_grows|done|].
  apply (vo_held _ _ _ _ _ (li_votes s L Hinv _ _ _ Hvl)); [done|done|]. simpl.
  intros u' j l Hu He. apply (contains_grows L L'); [apply elect_grows|done|].
  apply (Hk u' j l); [|by right]. assert (u' ≠ a_term x); [|lia]. intros ->.
  destruct (elected_in_ledger j (a_term x)) as [? ?]; [by exists l|congruence].
Qed.

Lemma elect_node : node_ok D h' L' i x'.
Proof using Hinv Hi Hnew.
  split; simpl; try done.
  - eapply good_grows; [apply elect_grows|]. apply self_ok.
  - intros _. apply lookup_insert_eq.
  - intros t c [Hheld|[_ ->]]%elect_fresh Hk; [|apply contains_self, lookup_insert_eq].
    pose proof (held_reaches s L Hinv _ _ _ Hheld) as Hr.
    apply (contains_grows L L'); [apply elect_grows|done|].
    apply (no_held _ _ _ _ _ self_ok); [done|].
    eapply kept_shrinks; [apply elect_hist|apply elect_grows|done|done].
  - eapply backed_grows; [apply elect_hist|apply elect_grows|..|apply self_ok]; done.
Qed.

Lemma log_inv_elect Q :
  quorum D Q →
  (∀ v, v ∈ Q → voted h v i (a_term x) (vsize (a_log x)) (last_term_of (a_log x))) →
  log_inv (arecord (EElected i (a_term x) (a_log x)) (aupd i x' s)) L'.
Proof using Hvi Hinv Hi Hnew.
  intros HQ Hvotes. pose proof elect_node as Hx'.
  apply (log_inv_evolve s L L' i x x' (a_reqs s) h' Hvi Hinv Hi (N.le_refl _) elect_hist
    elect_grows elect_fresh); auto.
  - intros t lt. rewrite lookup_insert_Some. intros [[<- <-]|[_ ?]]; [right|by left].
    split; [apply Hx'|]. eexists. by left.
  - intros j y Hne Hj Hr. apply lookup_insert_ne. intros E.
    pose proof (no_lead _ _ _ _ _ (li_nodes s L Hinv _ _ Hj) Hr). congruence.
  - intros v r vl [|?]%elem_of_cons; [done|by left].
  - intros j u l [[= -> -> ->]|?]%elem_of_cons; [right|by left]. split; [done|]. split.
    + apply Hx'.
    + by apply older_entries.
    + exists (a_log x). split; [apply lookup_insert_eq|done].
    + exists x'. rewrite lookup_insert_eq. by split.
    + exists Q. split; [by rewrite dom_aupd by eauto|]. intros v Hv. by apply elect_elector, Hvotes.
  - intros v t m [|?]%elem_of_cons; [done|by left].
Qed.
End elect.

(** *** Leaders *)
Section lead.
Context (Hlead : a_role x = LEADER).

Lemma own_ledger : L !! a_term x = Some (a_log x).
Proof using Hinv Hi Hlead. by apply (no_lead _ _ _ _ _ self_ok). Qed.

Lemma own_term v : elected h v (a_term x) → v = i.
Proof using Hvi Hi Hlead.
  intros He. apply (elected_unique s v i (a_term x)); [done|done|]. by apply (vi_lead s Hvi).
Qed.

Lemma log_inv_append d :
  let log' := a_log x ++ [mkEntry (a_term x) d] in
  log_inv (aupd i (mkANode LEADER (a_term x) (a_voted x) log' (a_commit x)) s)
    (<[a_term x := log']> L).
Proof using Hvi Hinv Hi Hlead.
  intros log'. set (x' := mkANode _ _ _ _ _). set (L' := <[a_term x := log']> L).
  pose proof own_ledger as Hown.
  assert (a_log x `prefix_of` log') as Hp by (by apply prefix_app_r).
  assert (grows L L') as Hg by (by eapply grows_insert_more).
  assert (good L' (a_term x) log') as Hgd by (apply good_snoc; [done|apply self_ok]).
  assert (∀ v t c, held h L' v t c → held h L v t c ∨ (v = i ∧ t = a_term x)) as Hfresh.
  { intros v t c [Ha|[He Hr]]; [left; by left|].
    destruct (decide (t = a_term x)) as [->|Hne]; [right; split; [by apply own_term|done]|].
    left. right. split; [done|]. unfold reaches, L' in *. by rewrite lookup_insert_ne in Hr. }
  apply (log_inv_evolve s L L' i x x' (a_reqs s) h Hvi Hinv Hi (N.le_refl _) (reflexivity _) Hg
    Hfresh); auto.
  - intros t lt. unfold L'. rewrite lookup_insert_Some. intros [[<- <-]|[_ ?]]; [right|by left].
    split; [done|]. by apply (vi_lead s Hvi).
  - intros j y Hne Hj Hr. apply lookup_insert_ne. intros E. apply Hne, own_term.
    rewrite E. by apply (vi_lead s Hvi).
  - split; simpl; try done.
    + intros _. apply lookup_insert_eq.
    + intros t c [Hheld|[_ ->]]%Hfresh Hk; [|apply contains_self, lookup_insert_eq].
      pose proof (held_reaches s L Hinv _ _ _ Hheld) as Hr.
      apply (contains_grows L L'); [done|done|]. eapply contains_prefix; [exact Hp|].
      apply (no_held _ _ _ _ _ self_ok); [done|]. by eapply kept_shrinks.
    + eapply backed_grows; [done|exact Hg|done|exact Hp|apply self_ok].
Qed.

Lemma log_inv_send q :
  aeq_term q = a_term x → cut_from (a_log x) q → leaderCommit q = a_commit x →
  log_inv (asend q s) L.
Proof using Hinv Hi Hlead.
  intros Ht Hcut Hc. split; try apply Hinv. simpl.
  intros q' [->|Hq]%elem_of_cons; [|by apply (li_reqs s L Hinv)].
  exists (a_log x), (a_log x). rewrite Ht, Hc. split_and!; [apply own_ledger|done|done|].
  apply self_ok.
Qed.

Lemma log_inv_commit c e Q :
  0 < c ≤ vsize (a_log x) → vat (a_log x) (c - 1) = Some e → term e = a_term x →
  quorum D Q → (∀ v, v ∈ Q → v ≠ i → acked h v (a_term x) c) →
  log_inv (aupd i (mkANode LEADER (a_term x) (a_voted x) (a_log x) c) s) L.
Proof using Hvi Hinv Hi Hlead.
  intros Hc He Ht HQ Hacks. pose proof self_ok as Hok.
  set (x' := mkANode _ _ _ _ _).
  apply (log_inv_evolve s L L i x x' (a_reqs s) h Hvi Hinv Hi (N.le_refl _)); auto with rafty.
  split; simpl; try done; [apply Hok|by intros; apply Hok|apply Hok|].
  right. exists (a_term x), (N.to_nat c). split_and!; [|done|done|].
  - split; [lia|]. split.
    + exists (a_log x), e. split_and!; [apply own_ledger| |done].
      unfold vat in He. by replace (pred (N.to_nat c)) with (N.to_nat (c - 1)) by lia.
    + exists Q. split; [done|]. intros v Hv. destruct (decide (v = i)) as [->|Hne].
      * right. split; [by apply (vi_lead s Hvi)|]. exists (a_log x).
        split; [apply own_ledger|]. unfold vsize in Hc. lia.
      * left. destruct (Hacks v Hv Hne) as (m & Hm & Hin). exists m. split; [done|lia].
  - apply contains_self, own_ledger.
Qed.
End lead.

(** *** Followers *)
Section accept.
Context (q : AppendEntriesRequest) (Hq : q ∈ a_reqs s).
Context (Hterm : aeq_term q = a_term x) (Hok : prev_ok (a_log x) q = true).

#[local] Abbreviation log' := (merge_log (a_log x) (prevLogIndex q) (entries q)).
#[local] Abbreviation m := (prevLogIndex q + vsize (entries q)).

(** The leader's log [l] when it sent the request, and what has become of it. *)
Record accepts (l lt : list Entry) : Prop := {
  ac_ledger : L !! a_term x = Some lt;
  ac_sent : l `prefix_of` lt;
  ac_all : vsize l = m;
  ac_backed : backed D h L (a_term x) (N.to_nat (leaderCommit q)) l;
  ac_copied : l `prefix_of` log';
  ac_good : good L (a_term x) log';
  ac_kept : ∀ t c, contains L t c (a_log x) → contains L t c lt → contains L t c log' }.

Lemma accept_log : ∃ l lt, accepts l lt.
Proof using Hinv Hi Hq Hterm Hok.
  destruct (li_reqs s L Hinv q Hq) as (l & lt & Hlt & Hp & Hcut & Hb).
  rewrite Hterm in Hlt, Hb. pose proof (no_good _ _ _ _ _ self_ok) as Hgx.
  pose proof (good_prefix _ _ _ _ Hp (li_terms s L Hinv _ _ Hlt)) as Hgl.
  exists l, lt. destruct (merge_log_cases L (a_log x) l q) as [[Hin Hlog]|[Hin Hlog]];
    [apply Hgx|apply Hgl|done|done|..];
    (split; [done|done| |done|by rewrite Hlog|by rewrite Hlog|]).
  1,3: destruct Hcut as (Hle & _ & ->); unfold vsize in *; rewrite length_drop; lia.
  - intros t c Hc _. by rewrite Hlog.
  - intros t c Hc Hct lc Hlc. rewrite Hlog. specialize (Hc lc Hlc). specialize (Hct lc Hlc).
    destruct (prefix_weak_total _ _ _ Hp Hct) as [Hs|]; [|done]. destruct Hin. by etrans.
Qed.

Lemma accept_fresh v t c :
  held (EAck i (a_term x) m :: h) L v t c →
  held h L v t c ∨ (v = i ∧ t = a_term x ∧ (c ≤ N.to_nat m)%nat).
Proof using.
  intros [(k & [?|Hk]%elem_of_cons & Hc)|[[l [|Hl]%elem_of_cons] Hr]]; [|..|done|].
  - right. by simplify_eq.
  - left. left. by exists k.
  - left. right. split; [by exists l|done].
Qed.

(** The leader's commit index lies in the part that was sent. *)
Lemma accept_commit :
  commit_after q (a_commit x) log' = N.max (a_commit x) (leaderCommit q).
Proof using Hinv Hi Hq Hterm Hok.
  destruct accept_log as (l & lt & Ha). unfold commit_after.
  pose proof (backed_length _ _ _ _ _ _ (ac_backed _ _ Ha)) as Hlc.
  pose proof (prefix_length _ _ (ac_copied _ _ Ha)) as Hlen.
  destruct (N.ltb_spec (a_commit x) (leaderCommit q)); unfold vsize; lia.
Qed.

Lemma accept_backed :
  backed D h L (a_term x) (N.to_nat (commit_after q (a_commit x) log')) log'.
Proof using Hinv Hi Hq Hterm Hok.
  destruct accept_log as (l & lt & Ha). rewrite accept_commit.
  destruct (N.max_spec (a_commit x) (leaderCommit q)) as [[_ ->]|[_ ->]].
  - eapply backed_grows; [done|apply grows_refl|done|apply (ac_copied _ _ Ha)|apply Ha].
  - destruct (no_commit _ _ _ _ _ self_ok) as [Hz|(t & c & Hcert & Ht & Hc & Hin)]; [by left|].
    right. exists t, c. split_and!; [done|done|done|]. apply (ac_kept _ _ Ha); [done|].
    eapply contains_le; [exact Hc|]. eapply (kept_contains s L Hinv); [done|apply Ha|].
    by apply (certified_kept s L Hinv).
Qed.

Lemma log_inv_accept :
  log_inv (arecord (EAck i (a_term x) m)
             (aupd i (mkANode FOLLOWER (a_term x) (a_voted x) log'
                        (commit_after q (a_commit x) log')) s)) L.
Proof using Hvi Hinv Hi Hq Hterm Hok.
  destruct accept_log as (l & lt & Ha). set (x' := mkANode _ _ _ _ _).
  assert (h ⊆ EAck i (a_term x) m :: h) as Hh by (intros ev Hev; by right).
  apply (log_inv_evolve s L L i x x' (a_reqs s) _ Hvi Hinv Hi (N.le_refl _) Hh (grows_refl _));
    auto.
  - intros v t c [?|(-> & -> & _)]%accept_fresh; auto.
  - intros v r vl [|?]%elem_of_cons; [done|by left].
  - intros j u k [|?]%elem_of_cons; [done|by left].
  - intros v t k [[= -> -> ->]|?]%elem_of_cons; [right|by left]. split.
    + exists lt. split; [apply Ha|]. rewrite <- (ac_all _ _ Ha). unfold vsize.
      pose proof (prefix_length _ _ (ac_sent _ _ Ha)). lia.
    + exists x'. by rewrite lookup_insert_eq.
  - split; simpl; try done; [apply Ha| |].
    + intros t c [Hheld|(_ & -> & Hc)]%accept_fresh Hk.
      * pose proof (kept_shrinks _ _ _ _ _ _ _ Hh (grows_refl L)
          (held_reaches s L Hinv _ _ _ Hheld) Hk) as Hk0.
        apply (ac_kept _ _ Ha); [by apply (no_held _ _ _ _ _ self_ok)|].
        eapply (kept_contains s L Hinv); [by eapply held_term|apply Ha|done].
      * intros lt' Hlt'. rewrite (ac_ledger _ _ Ha) in Hlt'. simplify_eq.
        rewrite (take_prefix_lt l lt') by (apply Ha || (pose proof (ac_all _ _ Ha); unfold vsize in *; lia)).
        etrans; [apply take_prefix|apply Ha].
    + eapply backed_grows; [exact Hh|apply grows_refl|done|done|apply accept_backed].
Qed.
End accept.
End step.

(** ** Every transition *)

Lemma log_inv_step s s' L :
  vote_inv s → log_inv s L → astep s s' →
  ∃ L', grows L L' ∧ log_inv s' L'.
Proof.
  intros Hvi Hinv Hstep. pose proof (vote_inv_step s s' Hvi Hstep) as Hvi'.
  destruct Hstep as
    [i x t Hi Ht|i x Hi|i x Hi Hr|i x Hi Hr|i x req Hi Hreq Hv Hu Hne|i x Q Hi Hr HQ Hvs
    |i x d Hi Hr|i x q Hi Hr Ht Hid Hle Hm He Hc|i x q Hi Hq Ht Hr Hp|i x c e Q Hi Hr Hc Hle He Ht HQ _ Ha].
  - exists L. split; [apply grows_refl|]. apply (log_inv_quiet s L i x); simpl; try done. lia.
  - exists L. split; [apply grows_refl|]. by apply (log_inv_quiet s L i x).
  - exists L. split; [apply grows_refl|]. by apply (log_inv_quiet s L i x).
  - exists L. split; [apply grows_refl|]. apply (log_inv_vote s L i x); simpl; try done; [lia| |].
    + intros _ [l Hl].
      destruct (eo_term _ _ _ _ _ _ (li_elected s L Hinv _ _ _ Hl)) as (y & Hy & ?).
      simplify_eq. lia.
    + unfold up_to_date. simpl. rewrite N.ltb_irrefl, N.eqb_refl. by apply N.leb_le.
  - exists L. split; [apply grows_refl|]. apply (log_inv_vote s L i x); simpl; try done.
    intros Hl. by apply Hne, (vi_lead s Hvi).
  - assert (L !! a_term x = None) as Hnew.
    2:{ eexists. split; [by apply grows_insert_new|]. by eapply (log_inv_elect s L i x). }
    apply eq_None_not_Some. intros Hs. destruct (li_dom s L Hinv _ Hs) as (j & l & Hj).
    apply (no_cand _ _ _ _ _ (li_nodes s L Hinv _ _ Hi) Hr). exists l.
    assert (j = i) as ->; [|done]. eapply (elected_unique _ j i (a_term x)); [exact Hvi'|..].
    + exists l. by right.
    + eexists. by left.
  - eexists. split; [|by apply (log_inv_append s L i x)].
    eapply grows_insert_more; [by apply (own_ledger s L i x)|by apply prefix_app_r].
  - exists L. split; [apply grows_refl|]. by apply (log_inv_send s L i x).
  - exists L. split; [apply grows_refl|]. by apply (log_inv_accept s L i x).
  - exists L. split; [apply grows_refl|]. apply (log_inv_commit s L i x Hvi Hinv Hi Hr c e Q); try done. lia.
Qed.

Lemma log_inv_initial s : ainitial s → log_inv s ∅.
Proof.
  intros (Hq & Hh & Hn). split; rewrite ?Hq, ?Hh; try by intros * []%not_elem_of_nil.
  - intros t [? Ht]. by rewrite lookup_empty in Ht.
  - intros t lt Ht. by rewrite lookup_empty in Ht.
  - intros i x Hx. rewrite (Hn _ _ Hx). split; try done.
    + split; [intros k e ?|intros k j e f ?|intros e ?%not_elem_of_nil]; done.
    + by left.
Qed.

Lemma log_inv_reachable s : areachable s → vote_inv s ∧ ∃ L, log_inv s L.
Proof.
  intros (s0 & Hinit & Hst).
  assert (vote_inv s0 ∧ ∃ L, log_inv s0 L) as H0
    by eauto using vote_inv_initial, log_inv_initial.
  clear Hinit. induction Hst as [s|s s1 s' Hs _ IH]; [done|].
  apply IH. destruct H0 as [Hvi [L Hinv]].
  split; [by eapply vote_inv_step|].
  destruct (log_inv_step s s1 L Hvi Hinv Hs) as (L' & _ & ?). by exists L'.
Qed.

(** ** Executions *)

Lemma grows_trans L1 L2 L3 : grows L1 L2 → grows L2 L3 → grows L1 L3.
Proof.
  intros H1 H2 t l (l2 & Hl2 & Hp2)%H1. destruct (H2 _ _ Hl2) as (l3 & ? & ?).
  exists l3. split; [done|]. by etrans.
Qed.

Lemma astep_frame s s' :
  astep s s' → a_hist s ⊆ a_hist s' ∧ dom (a_nodes s') = dom (a_nodes s).
Proof.
  intros Hs. destruct Hs; simpl; (split; [set_solver +|]); try done; by apply dom_aupd.
Qed.

(** The commit index of a node never goes back. *)
Lemma astep_commit s s' L j y :
  log_inv s L → astep s s' → a_nodes s !! j = Some y →
  ∃ y', a_nodes s' !! j = Some y' ∧ a_commit y ≤ a_commit y'.
Proof.
  intros Hinv Hs Hj.
  destruct Hs; simpl; eauto; destruct (decide (j = i)) as [->|];
    (rewrite lookup_insert_eq || rewrite lookup_insert_ne by done); eauto;
    simplify_eq; (eexists; split; [done|]); simpl; try lia.
  rewrite (accept_commit s L i x) by done. lia.
Qed.

(** An execution extends the history and the ledger and keeps the members. *)
Lemma log_inv_asteps s s' :
  asteps s s' → ∀ L, vote_inv s → log_inv s L →
  ∃ L', grows L L' ∧ log_inv s' L' ∧ a_hist s ⊆ a_hist s' ∧
        dom (a_nodes s') = dom (a_nodes s).
Proof.
  induction 1 as [s|s s1 s' Hs _ IH]; intros L Hvi Hinv; [by exists L; auto with rafty|].
  destruct (log_inv_step s s1 L Hvi Hinv Hs) as (L1 & Hg1 & Hinv1).
  destruct (astep_frame s s1 Hs) as [Hh1 Hd1].
  destruct (IH L1 (vote_inv_step _ _ Hvi Hs) Hinv1) as (L' & Hg & Hinv' & Hh & Hd).
  exists L'. split_and!; [by eapply grows_trans|done|by etrans|congruence].
Qed.

Lemma asteps_commit s s' :
  asteps s s' → ∀ L j y, vote_inv s → log_inv s L → a_nodes s !! j = Some y →
  ∃ y', a_nodes s' !! j = Some y' ∧ a_commit y ≤ a_commit y'.
Proof.
  induction 1 as [s|s s1 s' Hs _ IH]; intros L j y Hvi Hinv Hj; [by exists y|].
  destruct (astep_commit s s1 L j y Hinv Hs Hj) as (y1 & Hj1 & Hle).
  destruct (log_inv_step s s1 L Hvi Hinv Hs) as (L1 & _ & Hinv1).
  destruct (IH L1 j y1 (vote_inv_step _ _ Hvi Hs) Hinv1 Hj1) as (y' & ? & ?).
  exists y'. split; [done|lia].
Qed.

(** Committed prefixes agree. *)
Lemma backed_agree s L u1 ci1 l1 u2 ci2 l2 n :
  log_inv s L →
  backed (dom (a_nodes s)) (a_hist s) L u1 ci1 l1 →
  backed (dom (a_nodes s)) (a_hist s) L u2 ci2 l2 →
  (n ≤ ci1)%nat → (n ≤ ci2)%nat → take n l1 = take n l2.
Proof.
  intros Hinv [->|(t1 & c1 & Hc1 & _ & Hn1 & Hin1)] [->|(t2 & c2 & Hc2 & _ & Hn2 & Hin2)] H1 H2;
    try by (replace n with 0%nat by lia).
  assert (∀ t c ci l, certified (dom (a_nodes s)) (a_hist s) L t c → (ci ≤ c)%nat →
            contains L t ci l → (n ≤ ci)%nat →
            ∃ lt, L !! t = Some lt ∧ take n l = take n lt) as Htake.
  { intros t c ci l Hc Hci Hin Hn. destruct (certified_reaches _ _ _ _ _ Hc) as (lt & Hlt & Hlen).
    exists lt. split; [done|]. specialize (Hin lt Hlt).
    rewrite (take_prefix_lt _ _ n Hin) by (rewrite length_take; lia).
    rewrite take_take. f_equal. lia. }
  destruct (Htake _ _ _ _ Hc1 Hn1 Hin1 H1) as (lt1 & Hlt1 & ->).
  destruct (Htake _ _ _ _ Hc2 Hn2 Hin2 H2) as (lt2 & Hlt2 & ->).
  destruct (N.le_ge_cases t1 t2) as [Hle|Hle].
  - pose proof (kept_contains s L Hinv t1 c1 t2 lt2 Hle Hlt2 (certified_kept s L Hinv _ _ _ Hc1)) as H.
    destruct (Htake _ _ c1 lt2 Hc1 (le_n _) H ltac:(lia)) as (lt & ? & ?). congruence.
  - pose proof (kept_contains s L Hinv t2 c2 t1 lt1 Hle Hlt1 (certified_kept s L Hinv _ _ _ Hc2)) as H.
    destruct (Htake _ _ c2 lt1 Hc2 (le_n _) H ltac:(lia)) as (lt & ? & ?). congruence.
Qed.

Section execution.
Context (s s' : astate) (Hreach : areachable s) (Hsteps : asteps s s').
Context (i j : N) (x y : anode).
Context (Hi : a_nodes s !! i = Some x) (Hj : a_nodes s' !! j = Some y).

(** What a node had committed is still committed later in the execution. *)
Lemma spec_committed :
  ∃ L', log_inv s' L' ∧
    backed (dom (a_nodes s')) (a_hist s') L' (a_term x) (N.to_nat (a_commit x)) (a_log x).
Proof using Hreach Hsteps Hi.
  destruct (log_inv_reachable s Hreach) as (Hvi & L & Hinv).
  destruct (log_inv_asteps s s' Hsteps L Hvi Hinv) as (L' & Hg & Hinv' & Hh & Hd).
  exists L'. split; [done|]. rewrite Hd.
  eapply backed_grows; [exact Hh|exact Hg|done|done|]. by apply (li_nodes s L Hinv _ _ Hi).
Qed.

Lemma spec_commit_mono : i = j → a_commit x ≤ a_commit y.
Proof using Hreach Hsteps Hi Hj.
  intros <-. destruct (log_inv_reachable s Hreach) as (Hvi & L & Hinv).
  destruct (asteps_commit s s' Hsteps L i x Hvi Hinv Hi) as (y' & ? & ?). by simplify_eq.
Qed.

(** State machine safety: two nodes, at two points of an execution, agree on what
    both have committed. *)
Lemma spec_committed_agree n :
  (n ≤ N.to_nat (a_commit x))%nat → (n ≤ N.to_nat (a_commit y))%nat →
  take n (a_log x) = take n (a_log y).
Proof using Hreach Hsteps Hi Hj.
  intros Hx Hy. destruct spec_committed as (L' & Hinv' & Hb).
  pose proof (no_commit _ _ _ _ _ (li_nodes s' L' Hinv' _ _ Hj)) as Hb'.
  by eapply backed_agree.
Qed.

(** Leader completeness: what a node has committed is in the log of every leader of
    its term or a later one, from then on. *)
Lemma spec_leader_complete :
  a_role y = LEADER → a_term x ≤ a_term y →
  take (N.to_nat (a_commit x)) (a_log x) `prefix_of` a_log y.
Proof using Hreach Hsteps Hi Hj.
  intros Hr Ht. destruct spec_committed as (L' & Hinv' & Hb).
  destruct Hb as [->|(t & c & Hcert & Htx & Hc & Hin)]; [apply prefix_nil|].
  pose proof (no_lead _ _ _ _ _ (li_nodes s' L' Hinv' _ _ Hj) Hr) as Hly.
  pose proof (certified_kept s' L' Hinv' t c (a_term y) Hcert) as Hk.
  pose proof (kept_contains s' L' Hinv' t c _ _ (N.le_trans _ _ _ Htx Ht) Hly Hk) as Hcy.
  destruct (certified_reaches _ _ _ _ _ Hcert) as (lt & Hlt & Hlen).
  specialize (Hin lt Hlt). apply (contains_le _ _ _ _ _ Hc) in Hcy. specialize (Hcy lt Hlt).
  rewrite (take_prefix_lt _ _ (N.to_nat (a_commit x)) Hin) by (rewrite length_take; lia).
  by rewrite take_take, Nat.min_id.
Qed.
End execution.

(** Log matching: two logs with an entry of one term at one index agree up to it. *)
Lemma spec_log_matching s i j x y k e f :
  areachable s → a_nodes s !! i = Some x → a_nodes s !! j = Some y →
  a_log x !! k = Some e → a_log y !! k = Some f → term e = term f →
  take (S k) (a_log x) = take (S k) (a_log y).
Proof.
  intros Hreach Hi Hj. destruct (log_inv_reachable s Hreach) as (_ & L & Hinv).
  apply (coherent_agree L); [apply (li_nodes s L Hinv _ _ Hi)|apply (li_nodes s L Hinv _ _ Hj)].
Qed.

(** The commit index of a node lies in its log. *)
Lemma spec_commit_bound s i x :
  areachable s → a_nodes s !! i = Some x → a_commit x ≤ vsize (a_log x).
Proof.
  intros Hreach Hi. destruct (log_inv_reachable s Hreach) as (_ & L & Hinv).
  pose proof (backed_length _ _ _ _ _ _ (no_commit _ _ _ _ _ (li_nodes s L Hinv _ _ Hi))).
  unfold vsize. lia.
Qed.
