(* ===== verification/Refinement.v ===== *)
(** The cluster implements the protocol: every disciplined step of [Cluster.v]
    is a sequence of transitions of [RaftSpec.v].

    The discipline excludes exactly what the code does not guard against: the
    wrap-around of a term or a log index, a step-down of a candidate that would
    not raise its term (the term is compared in one critical section of [run]
    and assigned in the next), and a vote of a node in a term that it has itself
    led (a leader that loses its majority forgets its vote). *)
From S2P Require Import Prelude Types RaftState RaftNode RaftNodeFacts Cluster RaftSpec.

#[local] Open Scope N_scope.

(** ** The discipline *)

Definition has_led (h : list event) (i t : N) : bool :=
  existsb (λ e, match e with
                | EElected j u _ => (j =? i) && (u =? t)
                | _ => false
                end) h.

Definition disciplined (l : label) (c : cluster) : bool :=
  match procs c !! actor l with
  | None => true
  | Some p =>
      let n := node p in
      match l, ctl p with
      | LVoteCount _ _, PcVoteTerm _ _ _ rep my_term _ =>
          if my_term <? rvr_term rep then current_term_ n <? rvr_term rep else true
      | LDecide _ _, _ => current_term_ n + 1 <? pow64
      | LPropose _ _, _ => vsize (log_ n) + 2 <? pow64
      | LDeliverAE _ _ _ req _, _ => vsize (log_ n) + vsize (entries req) + 1 <? pow64
      | LDeliverRV _ dst _ req r, _ =>
          match handle_request_vote req r n with
          | Some (_, rep) => negb (voteGranted rep && has_led (history c) dst (rvq_term req))
          | None => true
          end
      | _, _ => true
      end
  end.

Lemma has_led_spec h i t : has_led h i t = true ↔ elected h i t.
Proof.
  unfold has_led, elected. rewrite existsb_exists. split.
  - intros ([| j u l|] & Hin & He); try done. bool_to_prop. subst.
    exists l. by apply list_elem_of_In.
  - intros [l Hl]. exists (EElected i t l). split; [by apply list_elem_of_In|].
    by rewrite !N.eqb_refl.
Qed.

(** ** The abstraction *)

Definition abs_node (n : Raft) : anode :=
  mkANode (role_ n) (current_term_ n) (voted_for_ n) (log_ n) (commit_index_ n).

Definition ae_of (m : msg) : option AppendEntriesRequest :=
  match m with MAppendEntries _ _ _ q => Some q | _ => None end.

Definition abs (c : cluster) : astate :=
  mkAState ((λ p, abs_node (node p)) <$> procs c) (omap ae_of (net c)) (history c).

Lemma abs_lookup c i p :
  procs c !! i = Some p → a_nodes (abs c) !! i = Some (abs_node (node p)).
Proof. intros H. simpl. by rewrite lookup_fmap, H. Qed.

Lemma abs_dom c : dom (a_nodes (abs c)) = dom (procs c).
Proof. simpl. apply dom_fmap_L. Qed.

Lemma abs_upd c i p : abs (upd i p c) = aupd i (abs_node (node p)) (abs c).
Proof. unfold abs, upd, aupd. simpl. by rewrite fmap_insert. Qed.

(** A step that only moves the thread is invisible. *)
Lemma abs_upd_same c i p p' :
  procs c !! i = Some p → abs_node (node p') = abs_node (node p) → abs (upd i p' c) = abs c.
Proof.
  intros Hi He. rewrite abs_upd, He. unfold aupd. rewrite insert_id by (by apply abs_lookup).
  done.
Qed.

Lemma abs_record c e : abs (record [e] c) = arecord e (abs c).
Proof. done. Qed.

Lemma abs_send_quiet c ms : omap ae_of ms = [] → abs (send ms c) = abs c.
Proof. intros H. unfold abs, send. simpl. rewrite omap_app, H. done. Qed.

(** ** The invariant of the cluster *)

(** The members other than [i] are its peers. *)
Record base_inv (D : gset N) (i : N) (n : Raft) : Prop := {
  bi_id : raft_id n = i;
  bi_member : i ∈ D;
  bi_nodup : NoDup (peers_ n).*1;
  bi_peers : ∀ j, j ∈ (peers_ n).*1 ↔ j ∈ D ∧ j ≠ i;
  bi_stubs : Forall (λ p, p.2 = true) (peers_ n);
  bi_applied : commit_index_ n ≤ last_applied_ n;
  bi_fits : log_fits (log_ n);
  bi_match : map_Forall (λ j _, j ∈ D ∧ j ≠ i) (matchIndex_ n);
  bi_next : ∀ j, j ∈ dom (nextIndex_ n) → j ∈ D ∧ j ≠ i }.

(** [v] voted for [i] as it now is. *)
Definition backs (h : list event) (i : N) (n : Raft) (v : N) : Prop :=
  voted h v i (current_term_ n) (vsize (log_ n)) (last_term_of (log_ n)).

(** The votes counted so far come from distinct members that are not going to
    be asked again. *)
Definition ballot (D : gset N) (h : list event) (i : N) (n : Raft)
    (votes maj : N) (rest : list N) : Prop :=
  maj = majority n ∧ NoDup rest ∧ (∀ v, v ∈ rest → v ∈ D) ∧
  ∃ Q : gset N, Q ⊆ D ∧ N.of_nat (size Q) = votes ∧
    (∀ v, v ∈ Q → backs h i n v) ∧ (∀ v, v ∈ Q → v ∉ rest).

Definition cand_inv (D : gset N) (ms : list msg) (h : list event) (i : N)
    (n : Raft) (k : pc) : Prop :=
  match k with
  | PcVote votes maj todo => ballot D h i n votes maj todo
  | PcReqTerm votes maj peer t todo =>
      ballot D h i n votes maj (peer :: todo) ∧ t = current_term_ n
  | PcReqIndex votes maj peer t idx todo =>
      ballot D h i n votes maj (peer :: todo) ∧ t = current_term_ n ∧ idx = vsize (log_ n)
  | PcVoteRpc votes maj peer rpc req todo =>
      ballot D h i n votes maj (peer :: todo) ∧ MRequestVote i peer rpc req ∈ ms ∧
      req = mkRequestVoteReq (current_term_ n) i (vsize (log_ n)) (last_term_of (log_ n))
  | PcVoteReply votes maj peer rep todo =>
      ballot D h i n votes maj (peer :: todo) ∧ (voteGranted rep = true → backs h i n peer)
  | PcVoteTerm votes maj peer rep _ todo =>
      ballot D h i n votes maj (peer :: todo) ∧ (voteGranted rep = true → backs h i n peer)
  | PcFinish votes maj => ballot D h i n votes maj []
  | _ => True
  end.

(** A call of the current round of heartbeats. *)
Record call_inv (D : gset N) (ms : list msg) (h : list event) (i : N)
    (n : Raft) (x : inflight) : Prop := {
  ca_open : if_done x = false →
    ps_rpc_ok (if_slot x) = false ∧
    ∃ q, MAppendEntries i (ps_peer_id (if_slot x)) (if_rpc x) q ∈ ms ∧
         aeq_term q = current_term_ n ∧ prevLogIndex q = ps_prev_idx (if_slot x) ∧
         vsize (entries q) = ps_entries_sent (if_slot x);
  ca_live : if_done x = false ∨ ps_rpc_ok (if_slot x) = true →
    is_Some (nextIndex_ n !! ps_peer_id (if_slot x)) ∧
    ps_peer_id (if_slot x) ∈ D ∧ ps_peer_id (if_slot x) ≠ i ∧
    ps_prev_idx (if_slot x) + ps_entries_sent (if_slot x) ≤ vsize (log_ n);
  ca_acked : ps_rpc_ok (if_slot x) = true → success (ps_reply (if_slot x)) = true →
    EAck (ps_peer_id (if_slot x)) (current_term_ n)
      (ps_prev_idx (if_slot x) + ps_entries_sent (if_slot x)) ∈ h }.

(** A replication index is one the peer acknowledged in this term. *)
Definition acked_index (D : gset N) (h : list event) (i : N) (n : Raft) (j m : N) : Prop :=
  j ∈ D ∧ j ≠ i ∧ (m = 0 ∨ EAck j (current_term_ n) m ∈ h).

Definition lead_inv (D : gset N) (ms : list msg) (h : list event) (i : N)
    (n : Raft) (k : pc) : Prop :=
  match k with
  | PcBecome => True
  | _ =>
      next_in_range n ∧ map_Forall (acked_index D h i n) (matchIndex_ n) ∧
      match k with
      | PcHbRpc _ calls => Forall (call_inv D ms h i n) calls
      | _ => True
      end
  end.

Record proc_inv (D : gset N) (ms : list msg) (h : list event) (i : N) (p : proc) : Prop := {
  pi_base : base_inv D i (node p);
  pi_cand : role_ (node p) = CANDIDATE → cand_inv D ms h i (node p) (ctl p);
  pi_lead : role_ (node p) = LEADER → lead_inv D ms h i (node p) (ctl p) }.

(** Requests carry their sender and a number that the sender has used; a reply
    answers a request and is backed by what its sender did. *)
Record net_inv (ps : gmap N proc) (ms : list msg) (h : list event) : Prop := {
  ni_rv : ∀ src dst k req, MRequestVote src dst k req ∈ ms →
    candidateId req = src ∧ ∃ p, ps !! src = Some p ∧ k < next_rpc p;
  ni_rv_fun : ∀ src dst dst' k req req',
    MRequestVote src dst k req ∈ ms → MRequestVote src dst' k req' ∈ ms → req = req';
  ni_rv_reply : ∀ src dst k rep, MRequestVoteReply src dst k rep ∈ ms →
    voteGranted rep = true →
    ∃ req vl, MRequestVote dst src k req ∈ ms ∧ EVote src req vl ∈ h;
  ni_ae : ∀ src dst k q, MAppendEntries src dst k q ∈ ms →
    ∃ p, ps !! src = Some p ∧ k < next_rpc p;
  ni_ae_fun : ∀ src dst dst' k q q',
    MAppendEntries src dst k q ∈ ms → MAppendEntries src dst' k q' ∈ ms →
    dst = dst' ∧ q = q';
  ni_ae_reply : ∀ src dst k rep, MAppendEntriesReply src dst k rep ∈ ms →
    success rep = true →
    ∃ q, MAppendEntries dst src k q ∈ ms ∧
         EAck src (aeq_term q) (prevLogIndex q + vsize (entries q)) ∈ h }.

Record cluster_inv (c : cluster) : Prop := {
  ci_size : N.of_nat (size (dom (procs c))) < pow64;
  ci_net : net_inv (procs c) (net c) (history c);
  ci_procs : ∀ i p, procs c !! i = Some p →
    proc_inv (dom (procs c)) (net c) (history c) i p }.

(** ** Monotonicity *)

Lemma ballot_mono D h h' i n votes maj rest :
  h ⊆ h' → ballot D h i n votes maj rest → ballot D h' i n votes maj rest.
Proof.
  intros Hs (Hm & Hnd & Hin & Q & HQ & Hsz & Hb & Hr). split_and!; try done.
  exists Q. split_and!; try done. intros v Hv. eapply voted_mono; [exact Hs|]. by apply Hb.
Qed.

Lemma backs_mono h h' i n v : h ⊆ h' → backs h i n v → backs h' i n v.
Proof. apply voted_mono. Qed.

Lemma cand_inv_mono D ms ms' h h' i n k :
  ms ⊆ ms' → h ⊆ h' → cand_inv D ms h i n k → cand_inv D ms' h' i n k.
Proof.
  intros Hm Hh. destruct k; simpl; try done; intros H; destruct_and?; split_and?;
    eauto using ballot_mono, backs_mono.
Qed.

Lemma call_inv_mono D ms ms' h h' i n x :
  ms ⊆ ms' → h ⊆ h' → call_inv D ms h i n x → call_inv D ms' h' i n x.
Proof.
  intros Hm Hh [Ho Hl Ha]. split; [|done|].
  - intros Hd. destruct (Ho Hd) as (? & q & ? & ?). split; [done|]. exists q. auto.
  - intros. apply Hh. by apply Ha.
Qed.

Lemma lead_inv_mono D ms ms' h h' i n k :
  ms ⊆ ms' → h ⊆ h' → lead_inv D ms h i n k → lead_inv D ms' h' i n k.
Proof.
  intros Hm Hh.
  assert (map_Forall (acked_index D h i n) (matchIndex_ n) →
          map_Forall (acked_index D h' i n) (matchIndex_ n)) as Hi.
  { intros H. eapply map_Forall_impl; [exact H|]. unfold acked_index. naive_solver. }
  destruct k; simpl; try naive_solver.
  intros (? & ? & Hc). split_and!; [done|auto|].
  eapply List.Forall_impl; [|exact Hc]. intros x. by apply call_inv_mono.
Qed.

Lemma proc_inv_mono D ms ms' h h' i p :
  ms ⊆ ms' → h ⊆ h' → proc_inv D ms h i p → proc_inv D ms' h' i p.
Proof.
  intros Hm Hh [Hb Hc Hl]. split; [done|..]; intros Hr;
    eauto using cand_inv_mono, lead_inv_mono.
Qed.

(** ** Steps that leave an election and a round of heartbeats undisturbed *)

(** What a handler may do beside the thread: only demote the node, or extend
    the log of a leader. *)
Record calm (n n' : Raft) : Prop := {
  cm_id : raft_id n' = raft_id n;
  cm_peers : peers_ n' = peers_ n;
  cm_match : matchIndex_ n' = matchIndex_ n;
  cm_next : nextIndex_ n' = nextIndex_ n;
  cm_applied : commit_index_ n' ≤ last_applied_ n';
  cm_fits : log_fits (log_ n');
  cm_cand : role_ n' = CANDIDATE →
    role_ n = CANDIDATE ∧ current_term_ n' = current_term_ n ∧ log_ n' = log_ n;
  cm_lead : role_ n' = LEADER →
    role_ n = LEADER ∧ current_term_ n' = current_term_ n ∧ vsize (log_ n) ≤ vsize (log_ n') }.

Lemma base_inv_calm D i n n' : base_inv D i n → calm n n' → base_inv D i n'.
Proof. intros [] [E1 E2 E3 E4]. split; by rewrite ?E1, ?E2, ?E3, ?E4. Qed.

Lemma cand_inv_calm D ms h i n n' k :
  peers_ n' = peers_ n → current_term_ n' = current_term_ n → log_ n' = log_ n →
  cand_inv D ms h i n k → cand_inv D ms h i n' k.
Proof.
  intros E1 E2 E3. destruct k; simpl; unfold ballot, backs, majority;
    rewrite ?E1, ?E2, ?E3; done.
Qed.

Lemma call_inv_calm D ms h i n n' x :
  current_term_ n' = current_term_ n → nextIndex_ n' = nextIndex_ n →
  vsize (log_ n) ≤ vsize (log_ n') →
  call_inv D ms h i n x → call_inv D ms h i n' x.
Proof.
  intros E1 E2 E3 [Ho Hl Ha]. split; rewrite ?E1, ?E2; try done.
  intros Hd. destruct (Hl Hd) as (? & ? & ? & ?). split_and!; try done. lia.
Qed.

Lemma lead_inv_calm D ms h i n n' k :
  current_term_ n' = current_term_ n → nextIndex_ n' = nextIndex_ n →
  matchIndex_ n' = matchIndex_ n → vsize (log_ n) ≤ vsize (log_ n') →
  lead_inv D ms h i n k → lead_inv D ms h i n' k.
Proof.
  intros E1 E2 E3 E4.
  assert (next_in_range n → next_in_range n') as Hn.
  { unfold next_in_range. rewrite E2. intros H j m Hj. specialize (H j m Hj). simpl in *. lia. }
  assert (map_Forall (acked_index D h i n) (matchIndex_ n) →
          map_Forall (acked_index D h i n') (matchIndex_ n')) as Hm.
  { unfold acked_index. by rewrite E1, E3. }
  destruct k; simpl; try naive_solver.
  intros (? & ? & Hc). split_and!; [auto|auto|].
  eapply List.Forall_impl; [|exact Hc]. intros x. by apply call_inv_calm.
Qed.

Lemma proc_inv_calm D ms h i p n' k :
  proc_inv D ms h i p → calm (node p) n' → proc_inv D ms h i (mkProc n' (ctl p) k).
Proof.
  intros [Hb Hc Hl] Hcalm. split; simpl.
  - by eapply base_inv_calm.
  - intros (Hr & Ht & Hlog)%(cm_cand _ _ Hcalm). eapply cand_inv_calm; [..|by apply Hc];
      [apply Hcalm|done..].
  - intros (Hr & Ht & Hlog)%(cm_lead _ _ Hcalm). eapply lead_inv_calm; [..|by apply Hl];
      [done|apply Hcalm|apply Hcalm|done].
Qed.

(** The fields an election-only update can touch. *)
Lemma calm_demoted n n' :
  raft_id n' = raft_id n → peers_ n' = peers_ n → matchIndex_ n' = matchIndex_ n →
  nextIndex_ n' = nextIndex_ n →
  log_ n' = log_ n → commit_index_ n' = commit_index_ n → last_applied_ n' = last_applied_ n →
  role_ n' = FOLLOWER → commit_index_ n ≤ last_applied_ n → log_fits (log_ n) → calm n n'.
Proof.
  intros E1 E2 E3 E0 E4 E5 E6 E7 Ha Hf.
  split; rewrite ?E4, ?E5, ?E6, ?E7; done.
Qed.

Lemma calm_kept n n' :
  raft_id n' = raft_id n → peers_ n' = peers_ n → matchIndex_ n' = matchIndex_ n →
  log_ n' = log_ n → commit_index_ n' = commit_index_ n → last_applied_ n' = last_applied_ n →
  role_ n' = role_ n → current_term_ n' = current_term_ n → nextIndex_ n' = nextIndex_ n →
  commit_index_ n ≤ last_applied_ n → log_fits (log_ n) → calm n n'.
Proof.
  intros E1 E2 E3 E4 E5 E6 E7 E8 E9 Ha Hf.
  split; rewrite ?E4, ?E5, ?E6, ?E7, ?E8, ?E9; done.
Qed.

Lemma calm_refl n :
  commit_index_ n ≤ last_applied_ n → log_fits (log_ n) → calm n n.
Proof. intros. by apply calm_kept. Qed.

Lemma calm_adopt t r n :
  commit_index_ n ≤ last_applied_ n → log_fits (log_ n) → calm n (adopt_term t r n).
Proof.
  intros. unfold adopt_term. destruct (current_term_ n <? t); [|by apply calm_refl].
  by apply calm_demoted.
Qed.

Lemma calm_trans n1 n2 n3 : calm n1 n2 → calm n2 n3 → calm n1 n3.
Proof.
  intros [] []. split; try congruence.
  - intros (?&?&?)%cm_cand1. destruct cm_cand0 as (?&?&?); [done|]. split_and!; congruence.
  - intros (?&?&?)%cm_lead1. destruct cm_lead0 as (?&?&?); [done|].
    split_and!; try congruence. lia.
Qed.

Lemma calm_request_vote req r n n' rep :
  commit_index_ n ≤ last_applied_ n → log_fits (log_ n) →
  handle_request_vote req r n = Some (n', rep) → calm n n'.
Proof.
  intros Ha Hf. rewrite handle_request_vote_eq by done. intros [= H].
  destruct (rvq_term req <? current_term_ n); [simplify_eq; by apply calm_refl|].
  pose proof (calm_adopt (rvq_term req) r n Ha Hf) as Hc.
  cbn zeta in H. destruct (vote_free _ _ && _); simplify_eq; [|done].
  eapply calm_trans; [exact Hc|]. apply calm_kept; try done; apply Hc.
Qed.

Lemma calm_follow req r n :
  commit_index_ n ≤ last_applied_ n → log_fits (log_ n) → calm n (follow_leader req r n).
Proof.
  intros. apply calm_demoted; try done; unfold follow_leader;
    destruct (_ <? _); simpl; by case_decide.
Qed.

Lemma calm_append_entries req r n n' rep :
  commit_index_ n ≤ last_applied_ n → vsize (log_ n) + vsize (entries req) + 1 < pow64 →
  handle_append_entries req r n = Some (n', rep) → calm n n'.
Proof.
  intros Ha Hf. rewrite handle_append_entries_eq by done. intros [= H].
  assert (log_fits (log_ n)) as Hl by (unfold log_fits; lia).
  destruct (aeq_term req <? current_term_ n); [simplify_eq; by apply calm_refl|].
  pose proof (calm_follow req r n Ha Hl) as Hc.
  destruct (prev_ok (log_ n) req); simplify_eq; [|done].
  assert (role_ (accepted req r n) = FOLLOWER) as Hr by done.
  split; rewrite ?Hr; try done.
  - apply (cm_id _ _ Hc).
  - apply (cm_peers _ _ Hc).
  - apply (cm_match _ _ Hc).
  - apply (cm_next _ _ Hc).
  - unfold accepted. cbn -[follow_leader N.max]. lia.
  - change (log_ (accepted req r n)) with (merge_log (log_ n) (prevLogIndex req) (entries req)).
    unfold log_fits.
    pose proof (vsize_merge_log_le (log_ n) (prevLogIndex req) (entries req)). lia.
Qed.

Lemma calm_propose d n :
  commit_index_ n ≤ last_applied_ n → vsize (log_ n) + 2 < pow64 → calm n (propose d n).1.
Proof.
  intros Ha Hf. unfold propose. case_decide as Hr; simpl.
  - split; simpl; try done; unfold log_fits; rewrite ?Hr, ?vsize_app, ?vsize_cons, ?vsize_nil;
      try done; try lia. intros _. split_and!; try done. lia.
  - apply calm_refl; [done|]. unfold log_fits. lia.
Qed.

(** ** Growing the network and the history *)

Lemma net_inv_procs ps ms h i p p' :
  ps !! i = Some p → next_rpc p ≤ next_rpc p' →
  net_inv ps ms h → net_inv (<[i := p']> ps) ms h.
Proof.
  intros Hi Hle [].
  assert (∀ src k, (∃ q, ps !! src = Some q ∧ k < next_rpc q) →
                   ∃ q, <[i := p']> ps !! src = Some q ∧ k < next_rpc q) as Hlt.
  { intros src k (q & Hq & Hk). destruct (decide (src = i)) as [->|].
    - simplify_eq. exists p'. simplify_map_eq. split; [done|lia].
    - exists q. by simplify_map_eq. }
  split; try done; naive_solver.
Qed.

Lemma net_inv_history ps ms h h' : h ⊆ h' → net_inv ps ms h → net_inv ps ms h'.
Proof.
  intros Hs []. split; try done.
  - intros src dst k rep Hin Hg. destruct (ni_rv_reply0 _ _ _ _ Hin Hg) as (req & vl & ? & ?).
    exists req, vl. auto.
  - intros src dst k rep Hin Hg. destruct (ni_ae_reply0 _ _ _ _ Hin Hg) as (q & ? & ?).
    exists q. auto.
Qed.

Lemma net_inv_send_vote ps ms h src dst req p p' :
  ps !! src = Some p → next_rpc p' = next_rpc p + 1 → candidateId req = src →
  net_inv ps ms h →
  net_inv (<[src := p']> ps) (MRequestVote src dst (next_rpc p) req :: ms) h.
Proof.
  intros Hi Hn Hc Hinv. pose proof (net_inv_procs ps ms h src p p' Hi ltac:(lia) Hinv) as [].
  split.
  - intros s d k q [[= -> -> -> ->]|Hin]%elem_of_cons; [|by eapply ni_rv0].
    split; [done|]. exists p'. simplify_map_eq. split; [done|lia].
  - intros s d d' k q q' [E|Hin]%elem_of_cons [E'|Hin']%elem_of_cons; simplify_eq.
    + done.
    + destruct (ni_rv _ _ _ Hinv _ _ _ _ Hin') as (_ & y & Hy & Hlt). simplify_eq. lia.
    + destruct (ni_rv _ _ _ Hinv _ _ _ _ Hin) as (_ & y & Hy & Hlt). simplify_eq. lia.
    + by eapply ni_rv_fun0.
  - intros s d k rep [|Hin]%elem_of_cons Hg; [done|].
    destruct (ni_rv_reply0 _ _ _ _ Hin Hg) as (q & vl & ? & ?). exists q, vl. split; [by right|done].
  - intros s d k q [|Hin]%elem_of_cons; [done|]. by eapply ni_ae0.
  - intros s d d' k q q' [|Hin]%elem_of_cons [|Hin']%elem_of_cons; try done. by eapply ni_ae_fun0.
  - intros s d k rep [|Hin]%elem_of_cons Hg; [done|].
    destruct (ni_ae_reply0 _ _ _ _ Hin Hg) as (q & ? & ?). exists q. split; [by right|done].
Qed.

Lemma net_inv_vote_reply ps ms h src dst k rep :
  net_inv ps ms h →
  (voteGranted rep = true →
   ∃ req vl, MRequestVote dst src k req ∈ ms ∧ EVote src req vl ∈ h) →
  net_inv ps (MRequestVoteReply src dst k rep :: ms) h.
Proof.
  intros [] Hg. split.
  - intros s d j q [|Hin]%elem_of_cons; [done|]. by eapply ni_rv0.
  - intros s d d' j q q' [|Hin]%elem_of_cons [|Hin']%elem_of_cons; try done. by eapply ni_rv_fun0.
  - intros s d j rp [[= -> -> -> ->]|Hin]%elem_of_cons Hr.
    + destruct (Hg Hr) as (q & vl & ? & ?). exists q, vl. split; [by right|done].
    + destruct (ni_rv_reply0 _ _ _ _ Hin Hr) as (q & vl & ? & ?). exists q, vl. split; [by right|done].
  - intros s d j q [|Hin]%elem_of_cons; [done|]. by eapply ni_ae0.
  - intros s d d' j q q' [|Hin]%elem_of_cons [|Hin']%elem_of_cons; try done. by eapply ni_ae_fun0.
  - intros s d j rp [|Hin]%elem_of_cons Hr; [done|].
    destruct (ni_ae_reply0 _ _ _ _ Hin Hr) as (q & ? & ?). exists q. split; [by right|done].
Qed.

Lemma net_inv_append_reply ps ms h src dst k rep :
  net_inv ps ms h →
  (success rep = true →
   ∃ q, MAppendEntries dst src k q ∈ ms ∧
        EAck src (aeq_term q) (prevLogIndex q + vsize (entries q)) ∈ h) →
  net_inv ps (MAppendEntriesReply src dst k rep :: ms) h.
Proof.
  intros [] Hg. split.
  - intros s d j q [|Hin]%elem_of_cons; [done|]. by eapply ni_rv0.
  - intros s d d' j q q' [|Hin]%elem_of_cons [|Hin']%elem_of_cons; try done. by eapply ni_rv_fun0.
  - intros s d j rp [|Hin]%elem_of_cons Hr; [done|].
    destruct (ni_rv_reply0 _ _ _ _ Hin Hr) as (q & vl & ? & ?). exists q, vl. split; [by right|done].
  - intros s d j q [|Hin]%elem_of_cons; [done|]. by eapply ni_ae0.
  - intros s d d' j q q' [|Hin]%elem_of_cons [|Hin']%elem_of_cons; try done. by eapply ni_ae_fun0.
  - intros s d j rp [[= -> -> -> ->]|Hin]%elem_of_cons Hr.
    + destruct (Hg Hr) as (q & ? & ?). exists q. split; [by right|done].
    + destruct (ni_ae_reply0 _ _ _ _ Hin Hr) as (q & ? & ?). exists q. split; [by right|done].
Qed.

(** The calls of one round: numbered from [k], to distinct numbers. *)
Definition fresh_calls (src k k' : N) (new : list msg) : Prop :=
  (∀ m, m ∈ new → ∃ dst j q, m = MAppendEntries src dst j q ∧ k ≤ j < k') ∧
  (∀ dst dst' j q q', MAppendEntries src dst j q ∈ new →
     MAppendEntries src dst' j q' ∈ new → dst = dst' ∧ q = q').

Lemma net_inv_send_appends ps ms h src new p p' :
  ps !! src = Some p → fresh_calls src (next_rpc p) (next_rpc p') new →
  next_rpc p ≤ next_rpc p' →
  net_inv ps ms h → net_inv (<[src := p']> ps) (new ++ ms) h.
Proof.
  intros Hi [Hshape Hfun] Hle Hinv.
  pose proof (net_inv_procs ps ms h src p p' Hi Hle Hinv) as [].
  assert (∀ s d k q, MRequestVote s d k q ∈ new ++ ms → MRequestVote s d k q ∈ ms) as Hrv.
  { intros s d k q [(? & ? & ? & ? & ?)%Hshape|]%elem_of_app; done. }
  split.
  - intros s d k q Hin%Hrv. by eapply ni_rv0.
  - intros s d d' k q q' H%Hrv H'%Hrv. by eapply ni_rv_fun0.
  - intros s d k rep [(? & ? & ? & ? & ?)%Hshape|Hin]%elem_of_app Hg; [done|].
    destruct (ni_rv_reply0 _ _ _ _ Hin Hg) as (q & vl & ? & ?).
    exists q, vl. split; [|done]. apply elem_of_app. by right.
  - intros s d k q [(? & ? & ? & E & ?)%Hshape|Hin]%elem_of_app; [|by eapply ni_ae0].
    simplify_eq. exists p'. simplify_map_eq. split; [done|lia].
  - assert (∀ d d' k q q', MAppendEntries src d k q ∈ new →
              MAppendEntries src d' k q' ∈ ms → False) as Hno.
    { intros d d' k q q' (? & ? & ? & E & Hk)%Hshape Hin'.
      destruct (ni_ae _ _ _ Hinv _ _ _ _ Hin') as (y & Hy & Hlt). simplify_eq. lia. }
    intros s d d' k q q' [H|H]%elem_of_app [H'|H']%elem_of_app.
    + destruct (Hshape _ H) as (? & ? & ? & E & _). simplify_eq. by eapply Hfun.
    + destruct (Hshape _ H) as (? & ? & ? & E & _). simplify_eq. by edestruct Hno.
    + destruct (Hshape _ H') as (? & ? & ? & E & _). simplify_eq. by edestruct Hno.
    + by eapply ni_ae_fun0.
  - intros s d k rep [(? & ? & ? & ? & ?)%Hshape|Hin]%elem_of_app Hg; [done|].
    destruct (ni_ae_reply0 _ _ _ _ Hin Hg) as (q & ? & ?).
    exists q. split; [|done]. apply elem_of_app. by right.
Qed.

(** ** Putting a step together *)

Lemma dom_procs_insert c i p p' :
  procs c !! i = Some p → dom (<[i := p']> (procs c)) = dom (procs c).
Proof. intros Hi. rewrite dom_insert_L. apply elem_of_dom_2 in Hi. set_solver. Qed.

Lemma cluster_inv_upd c i p p' ms' h' :
  cluster_inv c → procs c !! i = Some p → net c ⊆ ms' → history c ⊆ h' →
  net_inv (<[i := p']> (procs c)) ms' h' →
  proc_inv (dom (procs c)) ms' h' i p' →
  cluster_inv (mkCluster (<[i := p']> (procs c)) ms' h').
Proof.
  intros [Hsz Hnet Hps] Hi Hms Hh Hnet' Hp'. split; simpl; rewrite ?(dom_procs_insert c i p) by done.
  - done.
  - done.
  - intros j q Hj. destruct (decide (j = i)) as [->|]; simplify_map_eq; [done|].
    eapply proc_inv_mono; [done|done|]. by apply Hps.
Qed.

(** The thread moves on and touches neither the network nor the history. *)
Lemma cluster_inv_thread c i p n' k :
  cluster_inv c → procs c !! i = Some p →
  proc_inv (dom (procs c)) (net c) (history c) i (mkProc n' k (next_rpc p)) →
  cluster_inv (upd i (mkProc n' k (next_rpc p)) c).
Proof.
  intros Hinv Hi Hp. eapply cluster_inv_upd; try done.
  eapply net_inv_procs; [done|simpl; lia|]. apply Hinv.
Qed.
