(* ===== verification/RefinementSteps.v ===== *)
(** The simulation, step by step: what each label of [Cluster.v] does to the
    invariant of [Refinement.v] and to the abstract state. *)
From S2P Require Import Prelude Types RaftState RaftNode RaftNodeFacts Cluster RaftSpec Refinement.

#[local] Open Scope N_scope.

(** A step keeps the invariant and is a sequence of protocol transitions. *)
Definition refines (c c' : cluster) : Prop := cluster_inv c' ∧ asteps (abs c) (abs c').

Lemma majority_size D i n : base_inv D i n → majority n = N.of_nat (size D) / 2 + 1.
Proof.
  intros [_ Hin Hnd Hp _ _ _ _ _].
  assert (list_to_set (peers_ n).*1 = D ∖ {[i]}) as Hset.
  { apply set_eq. intros j. rewrite elem_of_list_to_set, Hp. set_solver. }
  assert (length (peers_ n) = size D - 1)%nat as Hlen.
  { rewrite <- (length_fmap fst), <- (size_list_to_set (C := gset N)) by done. rewrite Hset.
    rewrite size_difference by set_solver. by rewrite size_singleton. }
  assert (size D ≠ 0)%nat as Hne.
  { intros H0. apply size_empty_inv in H0. set_solver. }
  unfold majority, vsize. rewrite Hlen. do 2 f_equal. lia.
Qed.

(** A majority of [majority n] votes is more than half of the members, and every
    quorum has as many. *)
Lemma majority_quorum D i n :
  base_inv D i n → (size D < 2 * N.to_nat (majority n))%nat.
Proof.
  intros Hb. rewrite (majority_size D i n Hb).
  pose proof (N.div_mod (N.of_nat (size D)) 2 ltac:(lia)) as Hdm.
  pose proof (N.mod_lt (N.of_nat (size D)) 2 ltac:(lia)). lia.
Qed.

Lemma quorum_majority D i n Q :
  base_inv D i n → quorum D Q → majority n ≤ N.of_nat (size Q).
Proof.
  intros Hb [_ HQ]. rewrite (majority_size D i n Hb).
  assert (N.of_nat (size D) / 2 < N.of_nat (size Q)); [|lia].
  apply N.Div0.div_lt_upper_bound. lia.
Qed.

Section steps.
Context (c : cluster) (i : N) (p : proc).
Context (Hinv : cluster_inv c) (Hi : procs c !! i = Some p).

#[local] Abbreviation D := (dom (procs c)).
#[local] Abbreviation n := (node p).

Lemma self_inv : proc_inv D (net c) (history c) i p.
Proof using Hinv Hi. by apply Hinv. Qed.

Lemma self_base : base_inv D i n.
Proof using Hinv Hi. apply self_inv. Qed.

(** The thread moves, the node may change in fields the protocol does not see. *)
Lemma thread_refines n' k :
  abs_node n' = abs_node n →
  proc_inv D (net c) (history c) i (mkProc n' k (next_rpc p)) →
  refines c (upd i (mkProc n' k (next_rpc p)) c).
Proof using Hinv Hi.
  intros Habs Hp. split; [by apply cluster_inv_thread|].
  rewrite (abs_upd_same c i p) by done. apply rtc_refl.
Qed.

(** The thread takes one protocol transition of its node. *)
Lemma thread_step_refines n' k s' :
  astep (abs c) s' → s' = aupd i (abs_node n') (abs c) →
  proc_inv D (net c) (history c) i (mkProc n' k (next_rpc p)) →
  refines c (upd i (mkProc n' k (next_rpc p)) c).
Proof using Hinv Hi.
  intros Hstep -> Hp. split; [by apply cluster_inv_thread|].
  rewrite abs_upd. by apply rtc_once.
Qed.

(** Moving the thread between two control states, same node. *)
Lemma goto_inv k :
  (role_ n = CANDIDATE → cand_inv D (net c) (history c) i n k) →
  (role_ n = LEADER → lead_inv D (net c) (history c) i n k) →
  proc_inv D (net c) (history c) i (mkProc n k (next_rpc p)).
Proof using Hinv Hi. intros. split; simpl; [apply self_base|done..]. Qed.

(** Outside the two special control states, [lead_inv] does not depend on
    where the thread is. *)
Definition plain_pc (k : pc) : bool :=
  match k with PcBecome | PcHbRpc _ _ => false | _ => true end.

Lemma lead_plain k : plain_pc k = true →
  next_in_range n ∧ map_Forall (acked_index D (history c) i n) (matchIndex_ n) →
  lead_inv D (net c) (history c) i n k.
Proof. destruct k; simpl; naive_solver. Qed.

Lemma lead_from k : k ≠ PcBecome → lead_inv D (net c) (history c) i n k →
  next_in_range n ∧ map_Forall (acked_index D (history c) i n) (matchIndex_ n).
Proof. destruct k; simpl; naive_solver. Qed.

Lemma goto_refines k :
  ctl p ≠ PcBecome → plain_pc k = true →
  (role_ n = CANDIDATE → cand_inv D (net c) (history c) i n k) →
  refines c (upd i (mkProc n k (next_rpc p)) c).
Proof using Hinv Hi.
  intros Hne Hk Hc. apply thread_refines; [done|]. apply goto_inv; [done|].
  intros Hr. apply lead_plain; [done|]. eapply lead_from; [exact Hne|].
  by apply (pi_lead _ _ _ _ _ self_inv).
Qed.

(** ** Elections *)

Lemma top_refines n' am k :
  ctl p = PcTop → run_top n = (am, n') → plain_pc k = true →
  (∀ m, cand_inv D (net c) (history c) i m k) →
  refines c (upd i (mkProc n' k (next_rpc p)) c).
Proof using Hinv Hi.
  intros Hctl Hrun Hk Hc. pose proof self_inv as [Hb _ Hl].
  unfold run_top in Hrun. case_decide as Hr; simplify_eq.
  - apply goto_refines; [by rewrite Hctl|done|auto].
  - apply thread_refines; [done|].
    assert (calm n (set_received_heartbeat_ false n)) as Hcalm
      by (apply calm_kept; try done; apply Hb).
    split; [by eapply base_inv_calm|auto|done].
Qed.

Lemma start_refines r req n' :
  current_term_ n + 1 < pow64 →
  start_election r n = (true, n') → vote_request n' = Some req →
  refines c (record [EVote i req (log_ n')]
               (upd i (mkProc n' (PcVote 1 (majority n') (peers_ n').*1) (next_rpc p)) c)).
Proof using Hinv Hi.
  intros Hterm Hstart Hreq. pose proof self_base as Hb.
  unfold start_election in Hstart. destruct (negb _ && _) eqn:Hg; simplify_eq.
  bool_to_prop. apply bool_decide_eq_false in H0.
  set (n' := reset_election_timer _ _) in *.
  unfold vote_request in Hreq.
  rewrite last_term_eq in Hreq by apply Hb. simpl in Hreq. rewrite add64_small in Hreq by done.
  rewrite (bi_id _ _ _ Hb) in Hreq. simplify_eq.
  assert (abs_node n' = mkANode CANDIDATE (current_term_ n + 1) (Some i) (log_ n) (commit_index_ n))
    as Habs.
  { unfold abs_node, n'. simpl. rewrite add64_small by done. by rewrite (bi_id _ _ _ Hb). }
  split.
  - eapply (cluster_inv_upd c i p _ (net c) _); try done.
    + set_solver.
    + eapply net_inv_history; [|eapply net_inv_procs; [done|simpl; lia|apply Hinv]]. set_solver.
    + split; simpl; [|intros _|done].
      { destruct Hb. by split. }
      split_and!; [done|apply Hb| |].
      { intros v Hv. by apply (bi_peers _ _ _ Hb) in Hv as [? _]. }
      exists {[i]}. split_and!.
      * apply singleton_subseteq_l, Hb.
      * by rewrite size_singleton.
      * intros v ->%elem_of_singleton. unfold backs. simpl. rewrite add64_small by done.
        eexists. by left.
      * intros v ->%elem_of_singleton Hv. by apply (bi_peers _ _ _ Hb) in Hv as [_ ?].
  - rewrite abs_record, abs_upd. simpl. rewrite Habs. apply rtc_once.
    apply (A_timeout (abs c) i (abs_node n)); [by apply abs_lookup|done].
Qed.

Lemma send_vote_refines votes maj peer t idx todo lt :
  ctl p = PcReqIndex votes maj peer t idx todo → last_term (log_ n) = Some lt →
  let req := mkRequestVoteReq t (raft_id n) idx lt in
  refines c (send [MRequestVote i peer (next_rpc p) req]
               (upd i (mkProc n (PcVoteRpc votes maj peer (next_rpc p) req todo)
                         (next_rpc p + 1)) c)).
Proof using Hinv Hi.
  intros Hctl Hlt req. pose proof self_inv as [Hb Hc Hl].
  rewrite last_term_eq in Hlt by apply Hb. simplify_eq.
  rewrite Hctl in Hc, Hl. split.
  - eapply (cluster_inv_upd c i p _ _ (history c)); try done; [set_solver|..].
    + simpl. apply (net_inv_send_vote _ _ _ i peer req p); [done|done| |apply Hinv].
      apply Hb.
    + split; simpl; [done| |].
      * intros Hr. destruct (Hc Hr) as (Hbal & -> & ->).
        split_and!; [done|by left|]. unfold req. by rewrite (bi_id _ _ _ Hb).
      * exact Hl.
  - rewrite abs_send_quiet by done. rewrite (abs_upd_same c i p) by done. apply rtc_refl.
Qed.

Lemma vote_reply_refines votes maj peer rpc req todo rep :
  ctl p = PcVoteRpc votes maj peer rpc req todo →
  MRequestVoteReply peer i rpc rep ∈ net c →
  refines c (upd i (mkProc n (PcVoteReply votes maj peer rep todo) (next_rpc p)) c).
Proof using Hinv Hi.
  intros Hctl Hrep. apply goto_refines; [by rewrite Hctl|done|].
  intros Hr. pose proof (pi_cand _ _ _ _ _ self_inv Hr) as Hc. rewrite Hctl in Hc.
  destruct Hc as (Hbal & Hreq & Heq). split; [done|]. intros Hg.
  destruct (ni_rv_reply _ _ _ (ci_net c Hinv) _ _ _ _ Hrep Hg) as (req' & vl & Hreq' & Hev).
  rewrite (ni_rv_fun _ _ _ (ci_net c Hinv) _ _ _ _ _ _ Hreq' Hreq), Heq in Hev.
  by exists vl.
Qed.

(** Counting one more vote. *)
Lemma ballot_count votes maj peer todo :
  ballot D (history c) i n votes maj (peer :: todo) →
  backs (history c) i n peer →
  ballot D (history c) i n (add64 votes 1) maj todo.
Proof using Hinv Hi.
  intros (Hm & Hnd & Hin & Q & HQ & Hsz & Hb & Hr) Hback.
  apply NoDup_cons in Hnd as [Hpeer Hnd].
  assert (peer ∉ Q) as HpQ by (intros H; apply (Hr _ H); left).
  assert ({[peer]} ∪ Q ⊆ D) as Hsub.
  { apply union_subseteq. split; [|done]. apply singleton_subseteq_l, Hin. left. }
  assert (size ({[peer]} ∪ Q) = S (size Q)) as Hsz'.
  { rewrite size_union by set_solver. by rewrite size_singleton. }
  split_and!; [done|done|intros v Hv; apply Hin; by right|].
  exists ({[peer]} ∪ Q). split_and!; [done| | |].
  - rewrite Hsz', add64_small; [lia|].
    apply subseteq_size in Hsub. rewrite Hsz' in Hsub. pose proof (ci_size c Hinv). lia.
  - intros v [->%elem_of_singleton|Hv]%elem_of_union; auto.
  - intros v [->%elem_of_singleton|Hv]%elem_of_union; [done|].
    intros Hv'. apply (Hr v Hv). by right.
Qed.

(** Passing over a peer that gave no vote. *)
Lemma ballot_skip votes maj peer todo :
  ballot D (history c) i n votes maj (peer :: todo) →
  ballot D (history c) i n votes maj todo.
Proof.
  intros (Hm & Hnd & Hin & Q & HQ & Hsz & Hb & Hr).
  apply NoDup_cons in Hnd as [_ Hnd].
  split_and!; [done|done|intros v Hv; apply Hin; by right|].
  exists Q. split_and!; try done. intros v Hv Hv'. apply (Hr v Hv). by right.
Qed.

Lemma ballot_stop votes maj todo :
  ballot D (history c) i n votes maj todo → ballot D (history c) i n votes maj [].
Proof. induction todo; eauto using ballot_skip. Qed.

(** A step-down that raises the term. *)
Lemma bump_refines n' k :
  role_ n' = FOLLOWER → voted_for_ n' = None → current_term_ n < current_term_ n' →
  log_ n' = log_ n → commit_index_ n' = commit_index_ n → base_inv D i n' →
  refines c (upd i (mkProc n' k (next_rpc p)) c).
Proof using Hinv Hi.
  intros Hr Hv Ht Hlog Hc Hb. eapply thread_step_refines.
  - apply (A_bump (abs c) i (abs_node n) (current_term_ n')); [by apply abs_lookup|done].
  - unfold abs_node. simpl. by rewrite Hr, Hv, Hlog, Hc.
  - split; simpl; [done|by rewrite Hr..].
Qed.

Lemma count_refines votes maj peer rep my_term todo r c' :
  ctl p = PcVoteTerm votes maj peer rep my_term todo →
  disciplined (LVoteCount i r) c = true →
  thread_step (LVoteCount i r) i p c = Next c' → refines c c'.
Proof using Hinv Hi.
  intros Hctl Hdis Hstep. unfold disciplined in Hdis. simpl in Hdis, Hstep.
  rewrite Hi, Hctl in Hdis. rewrite Hctl in Hstep.
  destruct (N.ltb_spec my_term (rvr_term rep)) as [Hlt|Hge]; simplify_eq.
  { bool_to_prop. apply bump_refines; try done. destruct self_base. by split. }
  assert (∀ k, plain_pc k = true →
               (role_ n = CANDIDATE → cand_inv D (net c) (history c) i n k) →
               refines c (upd i (mkProc n k (next_rpc p)) c)) as Hgo.
  { intros. apply goto_refines; [by rewrite Hctl|done..]. }
  pose proof (pi_cand _ _ _ _ _ self_inv) as Hcand. rewrite Hctl in Hcand. simpl in Hcand.
  destruct (voteGranted rep); simplify_eq.
  - apply Hgo; [by destruct (maj <=? _)|]. intros Hr. destruct (Hcand Hr) as [Hbal Hback].
    pose proof (ballot_count _ _ _ _ Hbal (Hback eq_refl)).
    destruct (maj <=? _); simpl; [by eapply ballot_stop|done].
  - apply Hgo; [done|]. intros Hr. destruct (Hcand Hr) as [Hbal _]. by eapply ballot_skip.
Qed.

Lemma finish_refines votes maj r c' :
  ctl p = PcFinish votes maj → thread_step (LFinish i r) i p c = Next c' → refines c c'.
Proof using Hinv Hi.
  intros Hctl Hstep. simpl in Hstep. rewrite Hctl in Hstep.
  pose proof self_inv as [Hb Hc Hl]. rewrite Hctl in Hc, Hl.
  unfold finish_election in Hstep.
  destruct (decide (role_ n = CANDIDATE)) as [Hr|Hr].
  2:{ rewrite (bool_decide_eq_false_2 (role_ n = CANDIDATE)) in Hstep by done.
      simplify_eq/=. apply goto_refines; [by rewrite Hctl|done..]. }
  rewrite (bool_decide_eq_true_2 (role_ n = CANDIDATE)) in Hstep by done.
  simpl in Hstep. destruct (N.leb_spec maj votes) as [Hmaj|Hmaj]; simplify_eq/=.
  - specialize (Hc Hr). destruct Hc as (-> & _ & _ & Q & HQ & Hsz & Hback & _). split.
    + eapply (cluster_inv_upd c i p _ (net c) _); try done.
      * set_solver.
      * eapply net_inv_history; [|eapply net_inv_procs; [done|simpl; lia|apply Hinv]].
        set_solver.
      * split; simpl; [|done..]. destruct Hb. by split.
    + rewrite abs_record, abs_upd. apply rtc_once.
      apply (A_elect (abs c) i (abs_node n) Q); [by apply abs_lookup|done| |done].
      split; rewrite abs_dom; [done|].
      pose proof (majority_quorum D i n Hb). lia.
  - eapply thread_step_refines.
    + apply (A_follow (abs c) i (abs_node n)). by apply abs_lookup.
    + done.
    + split; simpl; [|done..]. destruct Hb. by split.
Qed.

(** ** Heartbeats *)

Lemma lookup_reset (f : N) (l : list (N * bool)) (m : gmap N N) j :
  foldr (λ q m, <[q.1 := f]> m) m l !! j =
  if decide (j ∈ l.*1) then Some f else m !! j.
Proof.
  induction l as [|[k b] l IH].
  { rewrite decide_False by apply not_elem_of_nil. done. }
  cbn [foldr fst fmap list_fmap].
  destruct (decide (j = k)) as [->|Hne].
  - rewrite lookup_insert_eq, decide_True by left. done.
  - rewrite lookup_insert_ne by done. rewrite IH.
    destruct (decide (j ∈ l.*1)) as [Hj|Hj].
    + rewrite decide_True by (by right). done.
    + rewrite decide_False; [done|]. by intros [|]%elem_of_cons.
Qed.

Lemma become_refines now :
  refines c (upd i (mkProc (become_leader now n) (PcHb false) (next_rpc p)) c).
Proof using Hinv Hi.
  pose proof self_base as Hb. apply thread_refines; [done|].
  assert (∀ j, j ∈ dom (nextIndex_ (become_leader now n)) → j ∈ D ∧ j ≠ i) as Hnext.
  { intros j Hj. apply elem_of_dom in Hj as [m Hm]. simpl in Hm. rewrite lookup_reset in Hm.
    case_decide as Hp; [by apply (bi_peers _ _ _ Hb)|].
    apply (bi_next _ _ _ Hb). by apply elem_of_dom_2 in Hm. }
  assert (map_Forall (λ j m, (j ∈ D ∧ j ≠ i) ∧ m = 0) (matchIndex_ (become_leader now n))) as Hmatch.
  { intros j m. simpl. rewrite lookup_reset. case_decide as Hp.
    - intros [= <-]. split; [by apply (bi_peers _ _ _ Hb)|done].
    - intros Hm. pose proof (bi_match _ _ _ Hb j m Hm) as Hj.
      by apply (bi_peers _ _ _ Hb) in Hj. }
  split; simpl; [|done|intros _; split_and!; [| |done]].
  - destruct Hb. split; try done. intros j m Hj. by destruct (Hmatch j m Hj).
  - intros j m Hm. assert (j ∈ (peers_ n).*1) as Hp.
    { apply (bi_peers _ _ _ Hb), Hnext. by apply elem_of_dom_2 in Hm. }
    simpl in Hm. rewrite lookup_reset, decide_True in Hm by done. simplify_eq. simpl. lia.
  - intros j m Hj. destruct (Hmatch j m Hj) as [[? ?] ->]. split_and!; [done|done|by left].
Qed.
End steps.

(** ** Posting the calls of a round *)

Lemma post_calls_spec n qs : ∀ k calls new,
  post_calls n k qs = (calls, new) →
  fresh_calls (raft_id n) k (k + N.of_nat (length qs)) new ∧
  (∀ m, m ∈ new → ∃ q j, q ∈ qs ∧ m = MAppendEntries (raft_id n) (pq_peer_id q) j (pq_request q)) ∧
  (∀ x, x ∈ calls → ∃ q, q ∈ qs ∧
     if_slot x = result_slot n q ∧
     (if_done x = false →
      pq_peer_id q ∈ peer_workers_ n ∧
      MAppendEntries (raft_id n) (pq_peer_id q) (if_rpc x) (pq_request q) ∈ new)).
Proof.
  induction qs as [|q qs IH]; intros k calls new Hpost; cbn [post_calls] in Hpost.
  { simplify_eq. unfold fresh_calls. split_and!; intros; set_solver. }
  destruct (post_calls n (k + 1) qs) as [calls' new'] eqn:Hrec.
  destruct (IH _ _ _ Hrec) as ([Hfr Hfun] & Hms & Hcalls). clear IH Hrec.
  assert (∀ m, m ∈ new' → ∃ dst j x, m = MAppendEntries (raft_id n) dst j x ∧
            k + 1 ≤ j < k + N.of_nat (length (q :: qs))) as Hfr'.
  { intros m Hm. destruct (Hfr m Hm) as (d & j & x & -> & Hj). exists d, j, x.
    split; [done|]. simpl. lia. }
  unfold fresh_calls.
  destruct (bool_decide (pq_peer_id q ∈ peer_workers_ n)) eqn:Hw; simplify_eq.
  - apply bool_decide_eq_true in Hw. split_and!.
    + intros m [->|Hm]%elem_of_cons.
      * eexists _, _, _. split; [done|]. simpl. lia.
      * destruct (Hfr' m Hm) as (d & j & x & -> & Hj). exists d, j, x. split; [done|lia].
    + intros d d' j x x' [E|H]%elem_of_cons [E'|H']%elem_of_cons; simplify_eq; [done| | |by eauto].
      * destruct (Hfr' _ H') as (? & ? & ? & E & Hj). simplify_eq. lia.
      * destruct (Hfr' _ H) as (? & ? & ? & E & Hj). simplify_eq. lia.
    + intros m [->|Hm]%elem_of_cons; [exists q, k; split; [by left|done]|].
      destruct (Hms m Hm) as (q' & j & ? & ->). exists q', j. split; [by right|done].
    + intros x [->|Hx]%elem_of_cons.
      * exists q. split; [by left|]. split; [done|]. intros _. split; [done|]. by left.
      * destruct (Hcalls x Hx) as (q' & ? & Hs & Hd). exists q'. split; [by right|].
        split; [done|]. intros Hopen. destruct (Hd Hopen). split; [done|]. by right.
  - split_and!; [| |by (intros m Hm; destruct (Hms m Hm) as (q' & j & ? & ->);
                          exists q', j; split; [right|])|].
    + intros m Hm. destruct (Hfr' m Hm) as (d & j & x & -> & Hj). exists d, j, x. split; [done|lia].
    + done.
    + intros x [->|Hx]%elem_of_cons.
      * exists q. split; [by left|]. by split.
      * destruct (Hcalls x Hx) as (q' & ? & Hs & Hd). exists q'. by split; [right|].
Qed.

(** A leader may send any number of requests made from its log. *)
Lemma send_all s i x qs :
  a_nodes s !! i = Some x → a_role x = LEADER →
  (∀ q, q ∈ qs →
     aeq_term q = a_term x ∧ leaderId q = i ∧ prevLogIndex q ≤ vsize (a_log x) ∧
     prev_matches (a_log x) (prevLogIndex q) (prevLogTerm q) ∧
     entries q = drop (N.to_nat (prevLogIndex q)) (a_log x) ∧ leaderCommit q = a_commit x) →
  asteps s (mkAState (a_nodes s) (qs ++ a_reqs s) (a_hist s)).
Proof.
  intros Hi Hr. induction qs as [|q qs IH]; intros Hq.
  { destruct s. apply rtc_refl. }
  eapply rtc_r; [apply IH; intros; apply Hq; by right|].
  destruct (Hq q) as (? & ? & ? & ? & ? & ?); [by left|].
  apply (A_send (mkAState (a_nodes s) (qs ++ a_reqs s) (a_hist s)) i x q); done.
Qed.

Section more_steps.
Context (c : cluster) (i : N) (p : proc).
Context (Hinv : cluster_inv c) (Hi : procs c !! i = Some p).

#[local] Abbreviation D := (dom (procs c)).
#[local] Abbreviation n := (node p).

Lemma base_inv_next n' :
  same_but_next n n' → (∀ j, j ∈ dom (nextIndex_ n') → j ∈ D ∧ j ≠ i) → base_inv D i n'.
Proof using Hinv Hi.
  intros Hs Hn. pose proof (self_base c i p Hinv Hi) as Hb.
  destruct Hb. split; try done; by rewrite Hs.
Qed.

(** The slots of a fresh round of calls. *)
Lemma fresh_call_inv n' qs new x q :
  same_but_next n n' → Forall (request_of n) qs →
  (∀ q, q ∈ qs → pq_peer_id q ∈ dom (nextIndex_ n') ∧ pq_peer_id q ∈ D ∧ pq_peer_id q ≠ i) →
  q ∈ qs → if_slot x = result_slot n' q →
  (if_done x = false →
   pq_peer_id q ∈ peer_workers_ n' ∧
   MAppendEntries (raft_id n') (pq_peer_id q) (if_rpc x) (pq_request q) ∈ new) →
  call_inv D (new ++ net c) (history c) i n' x.
Proof using Hinv Hi.
  intros Hs Hqs Hpeer Hq Hslot Hopen.
  pose proof (self_base c i p Hinv Hi) as Hb.
  assert (ps_rpc_ok (if_slot x) = false) as Hrpc
    by (rewrite Hslot; unfold result_slot; by case_bool_decide).
  rewrite Forall_forall in Hqs.
  destruct (Hqs q Hq) as (_ & Hle & Hpi & Hes & Hsent & _ & Ht & _ & _).
  assert (log_ n' = log_ n ∧ current_term_ n' = current_term_ n ∧ raft_id n' = i)
    as (Hl & Ht' & Hid) by (rewrite Hs; simpl; by rewrite (bi_id _ _ _ Hb)).
  assert (if_done x = false → if_slot x =
    mkPeerResult (pq_peer_id q) (pq_prev_idx q) (pq_entries_sent q)
      AppendEntriesReply_default false) as Hsl.
  { intros Hd. rewrite Hslot. unfold result_slot.
    rewrite bool_decide_eq_true_2 by (by apply Hopen). done. }
  split.
  - intros Hd. split; [done|]. rewrite (Hsl Hd). simpl. destruct (Hopen Hd) as [_ Hin].
    rewrite Hid in Hin. exists (pq_request q). split_and!.
    + apply elem_of_app. by left.
    + by rewrite Ht, Ht'.
    + done.
    + by rewrite Hsent.
  - intros [Hd|?]; [|congruence]. rewrite (Hsl Hd). simpl.
    destruct (Hpeer q Hq) as (Hdom & ? & ?). split_and!; try done.
    + by apply elem_of_dom.
    + rewrite Hl, Hsent, Hes. unfold vsize in *. rewrite length_drop. lia.
  - congruence.
Qed.

Lemma heartbeat_refines cv n' qs calls new :
  ctl p = PcHb cv → role_ n = LEADER →
  build_requests (peers_ n) n = Some (n', qs) →
  post_calls n' (next_rpc p) qs = (calls, new) →
  refines c (send new (upd i (mkProc n' (PcHbRpc cv calls)
                               (next_rpc p + N.of_nat (length qs))) c)).
Proof using Hinv Hi.
  intros Hctl Hr Hbuild Hpost.
  pose proof (self_inv c i p Hinv Hi) as [Hb _ Hl].
  specialize (Hl Hr). rewrite Hctl in Hl. destruct Hl as (Hnx & Hm & _).
  destruct (build_requests_spec (peers_ n) n (bi_fits _ _ _ Hb) Hnx)
    as (n1 & qs1 & E & Hs & Hnx' & Hqs & Hids & Hdom & _).
  rewrite Hbuild in E. symmetry in E. simplify_eq.
  assert (∀ j, j ∈ pq_peer_id <$> qs → j ∈ D ∧ j ≠ i) as Hpeer.
  { intros j. rewrite Hids. intros (q & -> & Hq)%list_elem_of_fmap.
    apply list_elem_of_filter in Hq as [_ Hq]. apply (bi_peers _ _ _ Hb).
    apply list_elem_of_fmap. eauto. }
  assert (base_inv D i n') as Hb'.
  { apply base_inv_next; [done|]. intros j. rewrite Hdom.
    intros [Hj%elem_of_list_to_set|Hj]%elem_of_union; [by apply Hpeer|by apply (bi_next _ _ _ Hb)]. }
  assert (abs_node n' = abs_node n) as Habs by (rewrite Hs; done).
  destruct (post_calls_spec n' qs _ _ _ Hpost) as (Hfresh & Hms & Hcalls).
  rewrite (bi_id _ _ _ Hb') in Hfresh.
  split.
  - apply (cluster_inv_upd c i p _ (new ++ net c) (history c)); [done|done| |done|..].
    + intros m Hin. apply elem_of_app. by right.
    + simpl. eapply (net_inv_send_appends _ _ _ i new p); [done| |simpl; lia|apply Hinv]. done.
    + split; cbn [node ctl]; [done|done|]. intros _. split_and!; [done| |].
      * assert (matchIndex_ n' = matchIndex_ n ∧ current_term_ n' = current_term_ n)
          as [E1 E2] by (rewrite Hs; done).
        unfold acked_index. by rewrite E1, E2.
      * apply Forall_forall. intros x Hx. destruct (Hcalls x Hx) as (q & Hq & Hslot & Hopen).
        eapply fresh_call_inv; try done. intros q' Hq'.
        assert (pq_peer_id q' ∈ pq_peer_id <$> qs) as Hin by (apply list_elem_of_fmap; eauto).
        split; [|by apply Hpeer]. rewrite Hdom. apply elem_of_union_l.
        by apply elem_of_list_to_set.
  - unfold abs at 2, send, upd. simpl. rewrite fmap_insert, omap_app. simpl.
    rewrite Habs, insert_id by (by apply abs_lookup).
    apply (send_all (abs c) i (abs_node n) (omap ae_of new)); [by apply abs_lookup|done|].
    intros q Hq. apply list_elem_of_omap in Hq as (m & Hm' & Hq).
    destruct (Hms m Hm') as (q' & j & Hq' & ->). simplify_eq/=.
    rewrite Forall_forall in Hqs.
    destruct (Hqs q' Hq') as (_ & ? & Hpi & ? & ? & ? & ? & Hld & ?). rewrite Hpi.
    split_and!; try done. by rewrite Hld, (bi_id _ _ _ Hb).
Qed.

(** ** Replies of a round *)

Lemma complete_inv k reply x :
  (if_rpc x = k → if_done x = false →
   ∀ rep, reply = Some rep → success rep = true →
   MAppendEntriesReply (ps_peer_id (if_slot x)) i k rep ∈ net c) →
  call_inv D (net c) (history c) i n x →
  call_inv D (net c) (history c) i n (complete k reply x).
Proof using Hinv Hi.
  intros Hrep [Ho Hl Ha]. unfold complete.
  destruct ((if_rpc x =? k) && negb (if_done x)) eqn:Hk; [|done].
  apply andb_true_iff in Hk as [Hk%N.eqb_eq Hd%negb_true_iff].
  destruct (Ho Hd) as (Hrpc & q & Hq & Ht & Hpi & Hes).
  destruct reply as [rep|]; simpl.
  - split; simpl; [done|intros _; by apply Hl; left|]. intros _ Hs.
    specialize (Hrep Hk Hd rep eq_refl Hs).
    destruct (ni_ae_reply _ _ _ (ci_net c Hinv) _ _ _ _ Hrep Hs) as (q' & Hq' & Hack).
    rewrite Hk in Hq.
    destruct (ni_ae_fun _ _ _ (ci_net c Hinv) _ _ _ _ _ _ Hq' Hq) as [_ ->].
    by rewrite Ht, Hpi, Hes in Hack.
  - split; simpl; [done| |congruence]. intros [?|?]; [done|congruence].
Qed.

Lemma calls_refines cv calls k reply :
  ctl p = PcHbRpc cv calls →
  (∀ x rep, x ∈ calls → if_rpc x = k → if_done x = false → reply = Some rep →
     success rep = true → role_ n = LEADER →
     MAppendEntriesReply (ps_peer_id (if_slot x)) i k rep ∈ net c) →
  refines c (upd i (mkProc n (PcHbRpc cv (complete k reply <$> calls)) (next_rpc p)) c).
Proof using Hinv Hi.
  intros Hctl Hrep. apply (thread_refines c i p Hinv Hi); [done|].
  pose proof (self_inv c i p Hinv Hi) as [Hb _ Hl]. rewrite Hctl in Hl.
  split; cbn [node ctl]; [done|done|]. intros Hr.
  destruct (Hl Hr) as (? & ? & Hc). split_and!; [done|done|].
  apply Forall_fmap. rewrite Forall_forall in *. intros x Hx. simpl.
  apply complete_inv; [|by apply Hc]. intros. by eapply Hrep.
Qed.

(** The replies of a round are fit for the second critical section. *)
Lemma replies_spec cv calls r now :
  ctl p = PcHbRpc cv calls → role_ n = LEADER →
  match process_replies (if_slot <$> calls) r now n with
  | None => vsize (log_ n) < commit_index_ n
  | Some (n', out) =>
      map_Forall (acked_index D (history c) i n) (matchIndex_ n') ∧
      dom (nextIndex_ n') = dom (nextIndex_ n) ∧
      ((deposed n n' ∧ out = []) ∨ replies_processed n n' out)
  end.
Proof using Hinv Hi.
  intros Hctl Hr. pose proof (self_inv c i p Hinv Hi) as [Hb _ Hl]. rewrite Hctl in Hl.
  destruct (Hl Hr) as (Hnx & Hm & Hcalls). rewrite Forall_forall in Hcalls.
  pose proof (process_replies_spec (acked_index D (history c) i n) (if_slot <$> calls) r now n
    Hr (bi_fits _ _ _ Hb) Hnx (bi_applied _ _ _ Hb) Hm) as Hspec.
  destruct (process_replies _ _ _ _) as [[n' out]|].
  1: destruct Hspec as (? & ? & [(? & ? & _)|?]); [..|by auto|by auto].
  3: apply Hspec.
  1,3: apply Forall_fmap, Forall_forall; intros x Hx Hok; destruct (Hcalls x Hx) as [_ Hlive _];
       destruct (Hlive (or_intror Hok)) as (? & _ & _ & ?); done.
  all: apply Forall_fmap, Forall_forall; intros x Hx Hok Hs;
       destruct (Hcalls x Hx) as [_ Hlive Hack];
       destruct (Hlive (or_intror Hok)) as (_ & ? & ? & _);
       split_and!; [done|done|right; by apply Hack].
Qed.

(** Raising the commit index is a transition of the leader. *)
Lemma commit_asteps n' out :
  role_ n = LEADER → base_inv D i n' → replies_processed n n' out →
  map_Forall (acked_index D (history c) i n) (matchIndex_ n') →
  asteps (abs c) (aupd i (mkANode LEADER (current_term_ n) (voted_for_ n) (log_ n)
                            (commit_index_ n')) (abs c)).
Proof using Hinv Hi.
  intros Hr Hb' Hrp Hm'. pose proof (self_base c i p Hinv Hi) as Hb.
  destruct (rp_committable _ _ _ Hrp) as [->|[Hlt (e & He & Hte & Hmaj)]].
  { replace (aupd _ _ _) with (abs c); [apply rtc_refl|].
    rewrite <- Hr. change (mkANode _ _ _ _ _) with (abs_node n).
    unfold aupd. by rewrite insert_id by (by apply abs_lookup). }
  apply rtc_once.
  set (F := dom (filter (λ kv : N * N, commit_index_ n' ≤ kv.2) (matchIndex_ n'))).
  assert (∀ v, v ∈ F → v ∈ D ∧ v ≠ i ∧
            acked (history c) v (current_term_ n) (commit_index_ n')) as HF.
  { intros v Hv. apply elem_of_dom in Hv as [m Hv].
    apply map_lookup_filter_Some in Hv as [Hv Hle]. simpl in Hle.
    destruct (Hm' v m Hv) as (? & ? & [->|Hack]); [lia|].
    split_and!; [done|done|]. by exists m. }
  apply (A_commit (abs c) i (abs_node n) (commit_index_ n') e ({[i]} ∪ F));
    [by apply abs_lookup|done|simpl; lia|simpl; lia| | | |set_solver|].
  - simpl. by rewrite <- (rp_log _ _ _ Hrp).
  - simpl. by rewrite <- (rp_term _ _ _ Hrp).
  - split; rewrite abs_dom.
    + apply union_subseteq. split; [apply singleton_subseteq_l, Hb|].
      intros v Hv. by apply HF.
    + rewrite size_union, size_singleton.
      2:{ apply disjoint_singleton_l. intros Hin. by destruct (HF i Hin) as (_ & ? & _). }
      pose proof (majority_quorum D i n' Hb'). unfold replicated_on in Hmaj.
      unfold F. rewrite !size_dom in *. lia.
  - intros v [->%elem_of_singleton|Hv]%elem_of_union Hne; [done|]. by apply HF.
Qed.

(** ... and losing the majority after it is a resignation. *)
Lemma processed_asteps n' out :
  role_ n = LEADER → base_inv D i n' → replies_processed n n' out →
  map_Forall (acked_index D (history c) i n) (matchIndex_ n') →
  asteps (abs c) (aupd i (abs_node n') (abs c)).
Proof using Hinv Hi.
  intros Hr Hb' Hrp Hm'. pose proof (commit_asteps n' out Hr Hb' Hrp Hm') as Hcommit.
  destruct Hrp as [Elog Eterm _ _ _ _ _ _ _ _ _ _ _ _ [[E1 E2]|(E1 & E2 & _)]].
  - unfold abs_node at 1. by rewrite E1, E2, Eterm, Elog.
  - eapply rtc_r; [exact Hcommit|].
    set (s1 := aupd i (mkANode LEADER _ _ _ _) (abs c)).
    replace (aupd i (abs_node n') (abs c)) with
      (aupd i (mkANode FOLLOWER (current_term_ n) None (log_ n) (commit_index_ n')) s1).
    + apply (A_resign s1 i (mkANode LEADER (current_term_ n) (voted_for_ n) (log_ n)
                              (commit_index_ n'))); [|done].
      subst s1. simpl. by rewrite lookup_insert_eq.
    + subst s1. unfold aupd, abs_node. simpl.
      by rewrite insert_insert_eq, E1, E2, Eterm, Elog.
Qed.

Lemma process_refines cv calls r now n' out :
  ctl p = PcHbRpc cv calls →
  process_replies (if_slot <$> calls) r now n = Some (n', out) →
  refines c (upd i (mkProc n' (PcApply cv out) (next_rpc p)) c).
Proof using Hinv Hi.
  intros Hctl Hproc. pose proof (self_base c i p Hinv Hi) as Hb.
  destruct (decide (role_ n = LEADER)) as [Hr|Hr].
  2:{ unfold process_replies in Hproc. rewrite decide_False in Hproc by done. simplify_eq.
      apply (goto_refines c i p Hinv Hi); [by rewrite Hctl|done..]. }
  pose proof (replies_spec cv calls r now Hctl Hr) as Hspec. rewrite Hproc in Hspec.
  destruct Hspec as (Hm' & Hdom & Hcase).
  assert (∀ m, log_ m = log_ n → raft_id m = raft_id n → peers_ m = peers_ n →
               commit_index_ m ≤ last_applied_ m → matchIndex_ m = matchIndex_ n' →
               dom (nextIndex_ m) = dom (nextIndex_ n) → base_inv D i m) as Hbase.
  { intros m E1 E2 E3 E4 E5 E6. destruct Hb.
    split; rewrite ?E1, ?E2, ?E3, ?E5, ?E6; try done.
    eapply map_Forall_impl; [exact Hm'|]. intros j v (? & ? & _). done. }
  destruct Hcase as [[Hdep ->]|Hrp].
  - destruct Hdep as (? & ? & ? & ? & ? & ? & Hla & ? & ? & ? & ? & ?).
    apply (bump_refines c i p Hinv Hi); try done. apply Hbase; try done.
    rewrite Hla. destruct Hb. congruence.
  - assert (base_inv D i n') as Hb'.
    { apply Hbase; try apply Hrp; try done. rewrite (rp_applied _ _ _ Hrp). lia. }
    split; [|rewrite abs_upd; by eapply processed_asteps].
    apply cluster_inv_thread; [done|done|]. split; cbn [node ctl]; [done|done|].
    intros _. split_and!; [apply Hrp| |done]. unfold acked_index.
    by rewrite (rp_term _ _ _ Hrp).
Qed.
End more_steps.
