(* ===== verification/Simulation.v ===== *)
(** The refinement theorem and what it transfers to the cluster.

    [reachable]: the states of a cluster booted from a full mesh of
    configurations under disciplined schedules. *)
From S2P Require Import Prelude Types RaftState RaftNode RaftNodeFacts Cluster RaftSpec.
From S2P Require Import Refinement RefinementSteps ConfigGen.

#[local] Open Scope N_scope.

Section handlers.
Context (c : cluster) (i : N) (p : proc).
Context (Hinv : cluster_inv c) (Hi : procs c !! i = Some p).

#[local] Abbreviation D := (dom (procs c)).
#[local] Abbreviation n := (node p).

(** A handler answers one message and may record one event. *)
Lemma handler_inv n' m evs :
  calm n n' →
  net_inv (<[i := mkProc n' (ctl p) (next_rpc p)]> (procs c)) (m :: net c) (evs ++ history c) →
  cluster_inv (record evs (send [m] (upd i (mkProc n' (ctl p) (next_rpc p)) c))).
Proof using Hinv Hi.
  intros Hcalm Hnet.
  apply (cluster_inv_upd c i p _ (m :: net c) (evs ++ history c)); try done.
  - set_solver.
  - intros e He. apply elem_of_app. by right.
  - apply (proc_inv_mono _ (net c) _ (history c)).
    + set_solver.
    + intros e He. apply elem_of_app. by right.
    + by apply proc_inv_calm, Hcalm; apply Hinv.
Qed.

(** The abstract effect of adopting a term: a transition or nothing. *)
Lemma adopt_asteps t r s :
  a_nodes s !! i = Some (abs_node n) →
  asteps s (aupd i (abs_node (adopt_term t r n)) s).
Proof.
  intros Hs. unfold adopt_term. destruct (N.ltb_spec (current_term_ n) t).
  - apply rtc_once. by apply (A_bump s i (abs_node n) t).
  - replace (aupd _ _ _) with s; [apply rtc_refl|].
    unfold aupd. destruct s. simpl in *. by rewrite insert_id.
Qed.

Lemma vote_free_spec m cand :
  vote_free m cand = true → voted_for_ m = None ∨ voted_for_ m = Some cand.
Proof.
  unfold vote_free. destruct (voted_for_ m); [|by left].
  intros ->%N.eqb_eq. by right.
Qed.

Lemma deliver_vote_refines src rpc req r n' rep :
  MRequestVote src i rpc req ∈ net c →
  handle_request_vote req r n = Some (n', rep) →
  disciplined (LDeliverRV src i rpc req r) c = true →
  refines c (record (if voteGranted rep then [EVote i req (log_ n')] else [])
               (send [MRequestVoteReply i src rpc rep]
                  (upd i (mkProc n' (ctl p) (next_rpc p)) c))).
Proof using Hinv Hi.
  intros Hmsg Hhandle Hdis.
  pose proof (self_base c i p Hinv Hi) as Hb.
  unfold disciplined in Hdis. simpl in Hdis. rewrite Hi, Hhandle in Hdis.
  pose proof (calm_request_vote req r n n' rep
                (bi_applied _ _ _ Hb) (bi_fits _ _ _ Hb) Hhandle) as Hcalm.
  split.
  - apply handler_inv; [done|]. apply net_inv_vote_reply.
    + eapply net_inv_history; [|eapply net_inv_procs; [done|simpl; lia|apply Hinv]].
      intros e He. apply elem_of_app. by right.
    + intros Hg. exists req, (log_ n'). split; [done|]. rewrite Hg. by left.
  - rewrite handle_request_vote_eq in Hhandle by apply Hb. injection Hhandle as Hhandle.
    assert (∀ evs m, abs (record evs (send [MRequestVoteReply i src rpc rep] m)) =
                     abs (record evs m)) as Hquiet by done.
    rewrite Hquiet.
    destruct (N.ltb_spec (rvq_term req) (current_term_ n)) as [Hst|Hge].
    { simplify_eq. simpl. change (record [] ?m) with m.
      rewrite (abs_upd_same c i p) by done. apply rtc_refl. }
    pose proof (adopt_asteps (rvq_term req) r (abs c) (abs_lookup c i p Hi)) as Hadopt.
    destruct (_ && _) eqn:Hg in Hhandle; simplify_eq; simpl.
    2:{ change (record [] ?m) with m. by rewrite abs_upd. }
    rewrite abs_record, abs_upd. eapply rtc_r; [exact Hadopt|].
    apply andb_true_iff in Hg as [Hfree Hup].
    set (n0 := adopt_term (rvq_term req) r n) in *.
    assert (log_ n0 = log_ n ∧ commit_index_ n0 = commit_index_ n ∧
            current_term_ n0 = rvq_term req) as (Hl0 & Hc0 & Ht0).
    { unfold n0, adopt_term. destruct (N.ltb_spec (current_term_ n) (rvq_term req)); simpl;
        split_and!; try done; lia. }
    pose proof (A_grant (aupd i (abs_node n0) (abs c)) i (abs_node n0) req) as Hgrant.
    unfold aupd, arecord in *. simpl in *. rewrite insert_insert_eq in Hgrant.
    apply Hgrant; clear Hgrant.
    + by rewrite lookup_insert_eq.
    + by rewrite Ht0.
    + by apply vote_free_spec.
    + by rewrite Hl0.
    + rewrite Ht0, <- has_led_spec. rewrite negb_true_iff in Hdis. by rewrite Hdis.
Qed.

Lemma follow_asteps req r s :
  a_nodes s !! i = Some (abs_node n) → current_term_ n ≤ aeq_term req →
  asteps s (aupd i (abs_node (follow_leader req r n)) s).
Proof.
  intros Hs Hle.
  set (x := mkANode FOLLOWER (aeq_term req)
              (if current_term_ n <? aeq_term req then None else voted_for_ n)
              (log_ n) (commit_index_ n)).
  assert (abs_node (follow_leader req r n) = x) as ->.
  { unfold x, abs_node, follow_leader.
    destruct (N.ltb_spec (current_term_ n) (aeq_term req)); simpl; case_decide; simpl;
      f_equal; lia. }
  apply rtc_once. unfold x.
  destruct (N.ltb_spec (current_term_ n) (aeq_term req)) as [Hlt|Hge].
  - by apply (A_bump s i (abs_node n)).
  - replace (aeq_term req) with (current_term_ n) by lia. by apply (A_follow s i (abs_node n)).
Qed.

Lemma deliver_append_refines src rpc req r n' rep :
  MAppendEntries src i rpc req ∈ net c →
  handle_append_entries req r n = Some (n', rep) →
  disciplined (LDeliverAE src i rpc req r) c = true →
  refines c (record (if success rep
                     then [EAck i (aeq_term req) (prevLogIndex req + vsize (entries req))]
                     else [])
               (send [MAppendEntriesReply i src rpc rep]
                  (upd i (mkProc n' (ctl p) (next_rpc p)) c))).
Proof using Hinv Hi.
  intros Hmsg Hhandle Hdis.
  pose proof (self_base c i p Hinv Hi) as Hb.
  unfold disciplined in Hdis. simpl in Hdis. rewrite Hi in Hdis. bool_to_prop.
  pose proof (calm_append_entries req r n n' rep (bi_applied _ _ _ Hb) Hdis Hhandle) as Hcalm.
  split.
  - apply handler_inv; [done|]. apply net_inv_append_reply.
    + eapply net_inv_history; [|eapply net_inv_procs; [done|simpl; lia|apply Hinv]].
      intros e He. apply elem_of_app. by right.
    + intros Hs. exists req. split; [done|]. rewrite Hs. by left.
  - rewrite handle_append_entries_eq in Hhandle by (try done; apply Hb).
    injection Hhandle as Hhandle.
    assert (∀ evs m, abs (record evs (send [MAppendEntriesReply i src rpc rep] m)) =
                     abs (record evs m)) as Hquiet by done.
    rewrite Hquiet.
    destruct (N.ltb_spec (aeq_term req) (current_term_ n)) as [Hst|Hge].
    { simplify_eq. simpl. change (record [] ?m) with m.
      rewrite (abs_upd_same c i p) by done. apply rtc_refl. }
    pose proof (follow_asteps req r (abs c) (abs_lookup c i p Hi) Hge) as Hfollow.
    destruct (prev_ok (log_ n) req) eqn:Hok; simplify_eq; simpl.
    2:{ change (record [] ?m) with m. by rewrite abs_upd. }
    destruct (follow_leader_frame req r n) as (Hl0 & Hc0 & _ & _ & Ht0 & Hr0 & _).
    rewrite N.max_r in Ht0 by lia.
    set (v := voted_for_ (follow_leader req r n)).
    set (log' := merge_log (log_ n) (prevLogIndex req) (entries req)).
    assert (abs_node (follow_leader req r n) =
            mkANode FOLLOWER (aeq_term req) v (log_ n) (commit_index_ n)) as E0
      by (unfold abs_node; by rewrite Hl0, Hc0, Ht0, Hr0).
    assert (abs_node (accepted req r n) =
            mkANode FOLLOWER (aeq_term req) v log' (commit_after req (commit_index_ n) log'))
      as E1 by (unfold v; rewrite <- Ht0; done).
    rewrite abs_record, abs_upd. cbn [node]. rewrite E1. rewrite E0 in Hfollow.
    eapply rtc_r; [exact Hfollow|].
    set (x := mkANode FOLLOWER (aeq_term req) v (log_ n) (commit_index_ n)).
    pose proof (A_accept (aupd i x (abs c)) i x req) as Hacc.
    unfold aupd, arecord in *. simpl in *. rewrite insert_insert_eq in Hacc.
    apply Hacc; try done.
    + by rewrite lookup_insert_eq.
    + apply list_elem_of_omap. eexists. split; [exact Hmsg|]. done.
Qed.

Lemma propose_refines d :
  vsize (log_ n) + 2 < pow64 →
  refines c (upd i (mkProc (propose d n).1 (ctl p) (next_rpc p)) c).
Proof using Hinv Hi.
  intros Hfit. pose proof (self_base c i p Hinv Hi) as Hb. split.
  - apply cluster_inv_thread; [done|done|]. apply proc_inv_calm; [by apply Hinv|].
    apply calm_propose; [apply Hb|done].
  - rewrite abs_upd. unfold propose. case_decide as Hr; simpl.
    + apply rtc_once. unfold abs_node at 1. simpl. rewrite Hr.
      apply (A_append (abs c) i (abs_node n) d); [by apply abs_lookup|done].
    + unfold aupd. rewrite insert_id by (by apply abs_lookup). apply rtc_refl.
Qed.

(** A change of fields that neither the protocol nor the thread reads. *)
Lemma hidden_refines n' k :
  calm n n' → abs_node n' = abs_node n → (k = ctl p ∨ (∃ cv out out', ctl p = PcApply cv out ∧ k = PcApply cv out')) →
  refines c (upd i (mkProc n' k (next_rpc p)) c).
Proof using Hinv Hi.
  intros Hcalm Habs Hk. apply (thread_refines c i p Hinv Hi); [done|].
  pose proof (proc_inv_calm _ _ _ _ p n' (next_rpc p) (ci_procs c Hinv i p Hi) Hcalm) as Hp.
  destruct Hk as [->|(cv & out & out' & Hctl & ->)]; [done|].
  rewrite Hctl in Hp. destruct Hp as [Hb Hc Hl]. split; [done|exact Hc|exact Hl].
Qed.
End handlers.

(** ** The simulation *)

(** Steps of the thread that only read. *)
Lemma reading_step_refines c i p l c' :
  cluster_inv c → procs c !! i = Some p →
  match l with
  | LWait _ _ | LVote _ | LReadIndex _ | LVoteReply _ _ | LVoteFail _ | LReadMyTerm _ | LCv _ => true
  | _ => false
  end = true →
  thread_step l i p c = Next c' → refines c c'.
Proof.
  intros Hinv Hi Hl Hstep.
  pose proof (pi_cand _ _ _ _ _ (self_inv c i p Hinv Hi)) as Hcand.
  destruct l; try done; simpl in Hstep; destruct (ctl p) eqn:Hctl; try done; simpl in Hcand;
    simplify_eq.
  - apply (goto_refines c i p Hinv Hi); [by rewrite Hctl|by case_guards|].
    intros _. by case_guards.
  - destruct todo; simplify_eq;
      (apply (goto_refines c i p Hinv Hi); [by rewrite Hctl|done|]); [done|].
    intros Hr. split; [by apply Hcand|done].
  - apply (goto_refines c i p Hinv Hi); [by rewrite Hctl|done|].
    intros Hr. destruct (Hcand Hr). by split_and!.
  - case_bool_decide; [|done]. simplify_eq. by eapply vote_reply_refines.
  - apply (goto_refines c i p Hinv Hi); [by rewrite Hctl|done|].
    intros Hr. destruct (Hcand Hr) as [Hb _]. by eapply ballot_skip.
  - apply (goto_refines c i p Hinv Hi); [by rewrite Hctl|done|]. done.
  - apply (goto_refines c i p Hinv Hi); [by rewrite Hctl|done|done].
Qed.

Lemma election_step_refines c i p l c' :
  cluster_inv c → procs c !! i = Some p →
  match l with
  | LTop _ _ | LDecide _ _ | LSendVote _ | LVoteCount _ _ | LFinish _ _ | LBecome _ _ => true
  | _ => false
  end = true →
  actor l = i → disciplined l c = true → thread_step l i p c = Next c' → refines c c'.
Proof.
  intros Hinv Hi Hl Hact Hdis Hstep. destruct l; try done; simpl in Hact; subst;
    try (by simpl in Hstep; destruct (ctl p) eqn:Hctl; try done; eauto using count_refines, finish_refines).
  - simpl in Hstep. destruct (ctl p) eqn:Hctl; try done.
    destruct (is_dead (node p)); [done|].
    destruct (run_top (node p)) as [am n'] eqn:Hrun. simplify_eq.
    eapply top_refines; try done; by destruct am.
  - unfold disciplined in Hdis. simpl in Hdis, Hstep. rewrite Hi in Hdis.
    destruct (ctl p) eqn:Hctl; try done. bool_to_prop.
    destruct (start_election r (node p)) as [go n'] eqn:Hstart. destruct go.
    + destruct (vote_request n') eqn:Hreq; simplify_eq. by eapply start_refines.
    + simplify_eq. unfold start_election in Hstart. case_guards.
      apply (goto_refines c i p Hinv Hi); [by rewrite Hctl|done|done].
  - simpl in Hstep. destruct (ctl p) eqn:Hctl; try done.
    destruct (last_term (log_ (node p))) eqn:Hlt; simplify_eq.
    by eapply send_vote_refines.
  - destruct (ctl p) eqn:Hctl; try (by simpl in Hstep; rewrite Hctl in Hstep).
    by eapply count_refines.
  - destruct (ctl p) eqn:Hctl; try (by simpl in Hstep; rewrite Hctl in Hstep).
    by eapply finish_refines.
  - simpl in Hstep. destruct (ctl p) eqn:Hctl; try done. simplify_eq. by apply become_refines.
Qed.

Lemma heartbeat_step_refines c i p l c' :
  cluster_inv c → procs c !! i = Some p →
  match l with
  | LHb _ | LHbReply _ _ _ | LHbFail _ _ | LProcess _ _ _ | LApply _ => true
  | _ => false
  end = true →
  thread_step l i p c = Next c' → refines c c'.
Proof.
  intros Hinv Hi Hl Hstep.
  destruct l; try done; simpl in Hstep; destruct (ctl p) eqn:Hctl; try done.
  - unfold heartbeat_requests in Hstep. case_decide as Hr.
    + destruct (build_requests (peers_ (node p)) (node p)) as [[n' qs]|] eqn:Hb; simpl in Hstep;
        [|done].
      destruct (post_calls n' (next_rpc p) qs) as [calls new] eqn:Hpost. simplify_eq.
      by eapply heartbeat_refines.
    + simplify_eq. apply (goto_refines c i p Hinv Hi); [by rewrite Hctl|by destruct cv|].
      intros _. by destruct cv.
  - destruct (existsb _ calls) eqn:Hex; simplify_eq.
    apply (calls_refines c i p Hinv Hi); [done|]. intros x rep' Hx Hk Hd [= <-] Hs Hr.
    apply existsb_exists in Hex as (y & Hy%list_elem_of_In & Hyk).
    apply andb_true_iff in Hyk as [Hyk Hin%bool_decide_eq_true].
    apply andb_true_iff in Hyk as [Hyk%N.eqb_eq Hyd%negb_true_iff].
    pose proof (pi_lead _ _ _ _ _ (self_inv c i p Hinv Hi) Hr) as Hlead. rewrite Hctl in Hlead.
    destruct Hlead as (_ & _ & Hcalls). rewrite Forall_forall in Hcalls.
    destruct (ca_open _ _ _ _ _ _ (Hcalls x Hx) Hd) as (_ & qx & Hqx & _).
    destruct (ca_open _ _ _ _ _ _ (Hcalls y Hy) Hyd) as (_ & qy & Hqy & _).
    rewrite Hk in Hqx. rewrite Hyk in Hqy.
    destruct (ni_ae_fun _ _ _ (ci_net c Hinv) _ _ _ _ _ _ Hqx Hqy) as [-> _]. done.
  - simplify_eq. by apply (calls_refines c i p Hinv Hi).
  - destruct (forallb if_done calls) eqn:Hd; [|done].
    destruct (process_replies _ _ _ _) as [[n' out]|] eqn:Hp; simplify_eq.
    by eapply process_refines.
  - destruct to_apply; simplify_eq.
    + apply (goto_refines c i p Hinv Hi); [by rewrite Hctl|by destruct cv|].
      intros _. by destruct cv.
    + pose proof (self_base c i p Hinv Hi) as Hb.
      apply (hidden_refines c i p Hinv Hi); [|done|].
      * apply calm_kept; try done; apply Hb.
      * right. rewrite Hctl. eauto 10.
Qed.

(** Every disciplined step keeps the invariant and is a sequence of protocol
    transitions. *)
Lemma step_refines l c c' :
  cluster_inv c → disciplined l c = true → step l c = Next c' → refines c c'.
Proof.
  intros Hinv Hdis Hstep. unfold step in Hstep.
  destruct (procs c !! actor l) as [p|] eqn:Hi; [|done].
  destruct l;
    try (by eapply reading_step_refines; [exact Hinv|exact Hi| |exact Hstep]);
    try (by eapply election_step_refines; [exact Hinv|exact Hi| | |exact Hdis|exact Hstep]);
    try (by eapply heartbeat_step_refines; [exact Hinv|exact Hi| |exact Hstep]);
    cbn [actor] in Hi.
  - unfold deliver_vote in Hstep. case_bool_decide; [|done].
    destruct (handle_request_vote req r (node p)) as [[n' rep]|] eqn:Hh; simplify_eq.
    by eapply deliver_vote_refines.
  - unfold deliver_append in Hstep. case_bool_decide; [|done].
    destruct (handle_append_entries req r (node p)) as [[n' rep]|] eqn:Hh; simplify_eq.
    by eapply deliver_append_refines.
  - simplify_eq. unfold disciplined in Hdis. cbn [actor] in Hdis. rewrite Hi in Hdis.
    bool_to_prop. by apply propose_refines.
  - simplify_eq. pose proof (self_base c i p Hinv Hi) as Hb.
    apply (hidden_refines c i p Hinv Hi); [|done|by left]. apply calm_kept; try done; apply Hb.
Qed.

(** ** Booted clusters *)

(** Every configuration lists all the others. *)
Definition full_mesh (configs : list Config) : Prop :=
  NoDup (cfg_id <$> configs) ∧ vsize configs < pow64 ∧
  ∀ cfg, cfg ∈ configs → ∀ j,
    j ∈ dom (cfg_peer_addrs cfg) ↔ j ∈ cfg_id <$> configs ∧ j ≠ cfg_id cfg.

Lemma gen_raft_configs_mesh insts :
  NoDup (ric_id <$> insts) → vsize insts < pow64 → full_mesh (gen_raft_configs insts).
Proof.
  intros Hnd Hsz.
  assert (cfg_id <$> gen_raft_configs insts = ric_id <$> insts) as Hids
    by (unfold gen_raft_configs; by rewrite <- list_fmap_compose).
  unfold full_mesh. rewrite Hids. split_and!; [done| |].
  { unfold gen_raft_configs, vsize. by rewrite length_fmap. }
  intros cfg Hcfg j. apply list_elem_of_fmap in Hcfg as (inst & -> & Hinst). simpl.
  rewrite elem_of_dom. split.
  - intros [a Ha]. apply lookup_peers_of in Ha as (Hne & x & Hx & <- & _); [|done].
    split; [|done]. apply list_elem_of_fmap. eauto.
  - intros [(x & -> & Hx)%list_elem_of_fmap Hne]. exists (ric_external_addr x).
    apply lookup_peers_of; [done|]. split; [done|]. eauto.
Qed.

Lemma boot_lookup configs r i p :
  NoDup (cfg_id <$> configs) →
  procs (boot configs r) !! i = Some p ↔
  ∃ cfg, cfg ∈ configs ∧ cfg_id cfg = i ∧ p = boot_proc cfg r.
Proof.
  intros Hnd. unfold boot. cbn [procs]. rewrite <- elem_of_list_to_map.
  - rewrite list_elem_of_fmap. naive_solver.
  - by rewrite <- list_fmap_compose.
Qed.

Lemma boot_dom configs r i :
  NoDup (cfg_id <$> configs) → i ∈ dom (procs (boot configs r)) ↔ i ∈ cfg_id <$> configs.
Proof.
  intros Hnd. rewrite elem_of_dom, list_elem_of_fmap. split.
  - intros [p (cfg & ? & ? & _)%boot_lookup]; [|done]. eauto.
  - intros (cfg & -> & Hin). exists (boot_proc cfg r). apply boot_lookup; [done|]. eauto.
Qed.

Lemma boot_peers cfg r :
  (peers_ (node (boot_proc cfg r))).*1 = (map_to_list (cfg_peer_addrs cfg)).*1.
Proof.
  unfold boot_proc, connect_peers. cbn [node set_peer_workers_ set_peers_ peers_ Raft_init
    reset_election_timer set_election_timeout_ peer_addrs].
  rewrite filter_nil. simpl. by rewrite <- list_fmap_compose.
Qed.

Lemma boot_base D cfg r :
  cfg_id cfg ∈ D →
  (∀ j, j ∈ dom (cfg_peer_addrs cfg) ↔ j ∈ D ∧ j ≠ cfg_id cfg) →
  base_inv D (cfg_id cfg) (node (boot_proc cfg r)).
Proof.
  intros Hin Hmesh. split; try done.
  - rewrite boot_peers. apply NoDup_fst_map_to_list.
  - intros j. rewrite boot_peers, <- Hmesh, elem_of_dom, list_elem_of_fmap. split.
    + intros ([k a] & -> & Hk%elem_of_map_to_list). by exists a.
    + intros [a Ha]. exists (j, a). split; [done|]. by apply elem_of_map_to_list.
  - apply Forall_forall. intros [j b] Hj. simpl in Hj.
    apply list_elem_of_fmap in Hj as (q & E & _). by simplify_eq.
Qed.

Lemma boot_inv configs r :
  full_mesh configs →
  cluster_inv (boot configs r) ∧ ainitial (abs (boot configs r)).
Proof.
  intros (Hnd & Hsz & Hmesh). split.
  - split.
    + unfold boot. cbn [procs]. rewrite dom_list_to_map_L, size_list_to_set.
      * unfold vsize in Hsz. by rewrite !length_fmap.
      * by rewrite <- list_fmap_compose.
    + split; intros; by apply not_elem_of_nil in H.
    + intros i p (cfg & Hin & <- & ->)%boot_lookup; [|done].
      split; [|done|done]. apply boot_base.
      * apply boot_dom; [done|]. apply list_elem_of_fmap. eauto.
      * intros j. rewrite boot_dom by done. by apply Hmesh.
  - split_and!; [done|done|]. intros i x Hx. simpl in Hx.
    apply lookup_fmap_Some in Hx as (p & <- & Hp).
    apply boot_lookup in Hp as (cfg & _ & _ & ->); done.
Qed.

(** ** Reachable states *)

Inductive reachable (configs : list Config) (r : N) : cluster → Prop :=
| reach_boot : reachable configs r (boot configs r)
| reach_step l c c' :
    reachable configs r c → disciplined l c = true → step l c = Next c' →
    reachable configs r c'.

(** Run a schedule and check its discipline. *)
Fixpoint run_disciplined (ls : list label) (c : cluster) : option cluster :=
  match ls with
  | [] => Some c
  | l :: ls =>
      if disciplined l c then
        match step l c with Next c' => run_disciplined ls c' | _ => None end
      else None
  end.

Lemma run_disciplined_reachable configs r ls : ∀ c c',
  reachable configs r c → run_disciplined ls c = Some c' → reachable configs r c'.
Proof.
  induction ls as [|l ls IH]; intros c c' Hc Hrun; simpl in Hrun; [by simplify_eq|].
  destruct (disciplined l c) eqn:Hd; [|done].
  destruct (step l c) as [c1| |] eqn:Hs; try done.
  eapply IH; [|done]. by eapply reach_step.
Qed.

Lemma reachable_inv configs r c :
  full_mesh configs → reachable configs r c → cluster_inv c ∧ areachable (abs c).
Proof.
  intros Hmesh. destruct (boot_inv configs r Hmesh) as [Hb0 Ha0].
  induction 1 as [|l c c' _ [Hinv (s0 & Hs0 & Hsteps)] Hd Hs].
  - split; [done|]. eexists. split; [done|apply rtc_refl].
  - destruct (step_refines l c c' Hinv Hd Hs) as [Hinv' Hsteps'].
    split; [done|]. exists s0. split; [done|]. by etrans.
Qed.
