(* ===== verification/Races.v ===== *)
(** Schedules of a three node cluster, built by the program's own configuration
    generator, that the critical sections of [run] and [send_heartbeats] admit.

    They show what the discipline of [Refinement.v] is for, and what the lease
    and the application of committed entries outside [mtx] do not guarantee.
    Every schedule is evaluated by the kernel. *)
From S2P Require Import Prelude Types ConfigGen RaftState RaftNode RaftNodeFacts Cluster.
From S2P Require Import RaftSpec Refinement Simulation.

#[local] Open Scope N_scope.

(** ** Scheduling macros *)

Definition local3 : list Config := gen_raft_configs (gen_local_instances 3 50050).

Lemma local3_mesh : full_mesh local3.
Proof.
  apply gen_raft_configs_mesh; [|done].
  apply (bool_decide_unpack _). by vm_compute.
Qed.

(** Node [i] hears nothing for a second and stands for election at time [t]. *)
Definition timeout (i : N) (t : Z) : list label :=
  [LTop i (t - ms 1000)%Z; LWait i t; LDecide i 0].

(** The candidate [i] asks the next peer of its list. *)
Definition ask (i : N) : list label := [LVote i; LReadIndex i; LSendVote i].
Definition ask_lost (i : N) : list label := ask i ++ [LVoteFail i].

(** It asks [j] by call number [k], which answers; the reply is read up to
    [my_term]. *)
Definition ask_answered (i j k : N) (req : RequestVoteReq) (rep : RequestVoteReply)
    : list label :=
  ask i ++ [LDeliverRV i j k req 0; LVoteReply i rep; LReadMyTerm i].

(** The vote of [j] makes [i] the leader. *)
Definition win (i j k : N) (req : RequestVoteReq) : list label :=
  ask_answered i j k req (mkRequestVoteReply (rvq_term req) true)
    ++ [LVoteCount i 0; LFinish i 0].

(** A round of heartbeats of [i] at time [now]: call [k] reaches [j], call [k']
    is lost. *)
Definition beat (i j k k' : N) (req : AppendEntriesRequest) (now : Z) : list label :=
  [LHb i; LDeliverAE i j k req 0;
   LHbReply i k (mkAppendEntriesReply (aeq_term req) true); LHbFail i k';
   LProcess i 0 now].

Definition two_leaders (c : cluster) (i j t : N) : Prop :=
  i ≠ j ∧ elected (history c) i t ∧ elected (history c) j t.

(** Evaluate both sides of the final state's properties. *)
Ltac elected_now :=
  eexists; apply list_elem_of_In; vm_compute; repeat (first [left; reflexivity | right]).

(** ** Two leaders of one term *)

(** Node 0 reads [my_term] = 1, votes for node 2 in term 2 and then forgets
    that vote in the section that assigns [reply.term()]. *)
Definition stale_my_term : list label :=
  let one := λ i, mkRequestVoteReq 1 i 0 0 in
  let two := λ i, mkRequestVoteReq 2 i 0 0 in
  timeout 1 0 ++ ask_lost 1 ++ ask_lost 1 ++ [LVote 1; LFinish 1 0] ++
  timeout 2 0 ++ ask_lost 2 ++ ask_lost 2 ++ [LVote 2; LFinish 2 0] ++
  timeout 1 (ms 1000) ++ timeout 2 (ms 1000) ++
  timeout 0 (ms 1000) ++ ask_answered 0 2 0 (one 0) (mkRequestVoteReply 2 false) ++
  ask_lost 2 ++ win 2 0 3 (two 2) ++
  [LVoteCount 0 0] ++
  ask_lost 1 ++ win 1 0 3 (two 1).

(** Node 0 leads term 1, loses its majority, forgets that it voted for itself
    and votes for node 2 in the same term. *)
Definition lost_majority : list label :=
  timeout 0 0 ++ ask_lost 0 ++ win 0 1 1 (mkRequestVoteReq 1 0 0 0) ++
  [LBecome 0 0; LHb 0; LHbFail 0 2; LHbFail 0 3; LProcess 0 0 (ms 700); LApply 0] ++
  timeout 2 (ms 1000) ++ ask_lost 2 ++ win 2 0 1 (mkRequestVoteReq 1 2 0 0).

(** C21: the discipline is needed: without it the program elects two leaders of one
    term, in two ways.  A candidate that compares terms in one critical section and
    assigns the term in the next forgets a vote it gave in between; and a leader that
    loses its majority forgets the vote it gave itself. *)
Theorem undisciplined_two_leaders :
  (∃ c, run_schedule stale_my_term (boot local3 0) = Some c ∧ two_leaders c 1 2 2) ∧
  (∃ c, run_schedule lost_majority (boot local3 0) = Some c ∧ two_leaders c 0 2 1).
Proof.
  split; (eexists; split; [vm_compute; reflexivity|]);
    split_and!; [done|elected_now|elected_now|done|elected_now|elected_now].
Qed.

(** ** Leaders without incident *)

Definition entry_a : Entry := mkEntry 1 "a".
Definition entry_b : Entry := mkEntry 2 "b".

(** Node 0 is elected in term 1 with the vote of node 1. *)
Definition elect0 : list label :=
  timeout 0 0 ++ ask_lost 0 ++ win 0 1 1 (mkRequestVoteReq 1 0 0 0) ++ [LBecome 0 0].

(** ... and commits ["a"] on nodes 0 and 1. *)
Definition commit_a : list label :=
  elect0 ++ [LPropose 0 "a"] ++
  beat 0 1 3 2 (mkAppendEntriesRequest 1 0 0 0 [entry_a] 0) 0.

(** ** Results out of order

    Node 0 has left its critical section with entry 1 in [to_apply]; before it
    is applied, node 1 is elected, commits entry 2 and node 0 applies that
    entry in [handle_append_entries]. *)
Definition overtaken : list label :=
  commit_a ++
  timeout 1 (ms 1000) ++ win 1 2 0 (mkRequestVoteReq 2 1 1 1) ++ [LBecome 1 (ms 1000)] ++
  [LPropose 1 "b"] ++
  beat 1 0 2 1 (mkAppendEntriesRequest 2 1 1 1 [entry_b] 0) (ms 1000) ++
  [LApply 1; LApply 1; LApply 1; LTop 1 (ms 1000)] ++
  beat 1 0 4 3 (mkAppendEntriesRequest 2 1 2 2 [] 2) (ms 1000) ++
  [LApply 0].

(** C22: committed entries can reach the consumer out of order, even under a
    disciplined schedule: a leader applies them after it has left its critical
    section, and the AppendEntries of the next leader can apply later ones first. *)
Theorem overtaken_out_of_order :
  ∃ c p, run_disciplined overtaken (boot local3 0) = Some c ∧ procs c !! 0 = Some p ∧
         ready_queue (node p) = [mkApplyResult true "b" 2; mkApplyResult true "a" 1].
Proof. do 2 eexists. split_and!; [vm_compute; reflexivity..|]. done. Qed.

(** ** A lease that outlives its leader

    Node 0 commits ["a"] everywhere; its last round, at 1000 ms, reaches node 1
    only.  Node 2 stands for election at 1010 ms, node 1 votes for it although
    it has just confirmed the lease of node 0, and node 2 commits ["b"]. *)
Definition outlived : list label :=
  elect0 ++ [LPropose 0 "a"] ++
  [LHb 0; LDeliverAE 0 1 3 (mkAppendEntriesRequest 1 0 0 0 [entry_a] 0) 0;
   LDeliverAE 0 2 2 (mkAppendEntriesRequest 1 0 0 0 [entry_a] 0) 0;
   LHbReply 0 2 (mkAppendEntriesReply 1 true); LHbReply 0 3 (mkAppendEntriesReply 1 true);
   LProcess 0 0 0; LApply 0; LApply 0] ++
  [LTop 2 (ms 10); LTop 0 (ms 1000)] ++
  beat 0 1 5 4 (mkAppendEntriesRequest 1 0 1 1 [] 1) (ms 1000) ++
  [LWait 2 (ms 1010); LDecide 2 0] ++ win 2 1 0 (mkRequestVoteReq 2 2 1 1) ++
  [LBecome 2 (ms 1010); LPropose 2 "b"] ++
  beat 2 1 1 2 (mkAppendEntriesRequest 2 2 1 1 [entry_b] 0) (ms 1020).

(** C23: a lease outlives its leader, even under a disciplined schedule and with a
    monotone clock: at 1100 ms node 0 still has a lease for index 1 while node 2
    leads the next term and has committed index 2. *)
Theorem outlived_lease :
  ∃ c p0 p2, run_disciplined outlived (boot local3 0) = Some c ∧
    procs c !! 0 = Some p0 ∧ procs c !! 2 = Some p2 ∧
    get_lease_state (node p0) (ms 1100) (node p0) (node p0) = (true, 1) ∧
    role_ (node p2) = LEADER ∧ current_term_ (node p2) = 2 ∧
    commit_index_ (node p2) = 2 ∧ log_ (node p2) = [entry_a; entry_b].
Proof. do 3 eexists. split_and!; [vm_compute; reflexivity..|]. done. Qed.
