(* ===== verification/Widths.v ===== *)
(** The types of the running cluster: every [uint64_t] of a node, of a message and of
    a thread's locals fits its width, the keys of the maps included, and the election timer
    is an [int], on every schedule, disciplined or not, in which no log fills the address
    space. *)
From S2P Require Import Prelude Types ConfigGen RaftState RaftNode RaftNodeFacts Cluster Races.

#[local] Open Scope N_scope.
#[local] Open Scope rafty_scope.

Definition u64 (x : N) : Prop := x < pow64.

#[export] Instance u64_dec x : Decision (u64 x).
Proof. unfold u64. apply _. Defined.

Lemma u64_add a b : u64 (a +₆₄ b).
Proof. apply wrap64_lt. Qed.
Lemma u64_sub a b : u64 (a -₆₄ b).
Proof. apply wrap64_lt. Qed.
Lemma u64_le a b : a ≤ b → u64 b → u64 a.
Proof. unfold u64. lia. Qed.
Lemma u64_0 : u64 0.
Proof. done. Qed.

#[local] Hint Resolve u64_add u64_sub u64_0 : core.

(** ** Well-typed data *)

Definition INT_MAX : N := 2147483647.

Definition wt_log (l : list Entry) : Prop := Forall (λ e, u64 (term e)) l.

Record wt_node (n : Raft) : Prop := {
  wn_term : u64 (current_term_ n);
  wn_vote : ∀ v, voted_for_ n = Some v → u64 v;
  wn_timer : election_timeout_ n ≤ INT_MAX;
  wn_beat : heartbeat_timeout n = 50;
  wn_id : u64 (raft_id n);
  wn_log : wt_log (log_ n);
  wn_commit : u64 (commit_index_ n);
  wn_applied : u64 (last_applied_ n);
  wn_lease : u64 (last_term_commit_idx_ n);
  wn_peers : Forall (λ p, u64 p.1) (peers_ n);
  wn_next : map_Forall (λ k m, u64 k ∧ u64 m) (nextIndex_ n);
  wn_match : map_Forall (λ k m, u64 k ∧ u64 m) (matchIndex_ n) }.

Definition wt_rvq (q : RequestVoteReq) : Prop :=
  u64 (rvq_term q) ∧ u64 (candidateId q) ∧ u64 (lastLogIndex q) ∧ u64 (lastLogTerm q).

Definition wt_aeq (q : AppendEntriesRequest) : Prop :=
  u64 (aeq_term q) ∧ u64 (leaderId q) ∧ u64 (prevLogIndex q) ∧ u64 (prevLogTerm q) ∧
  wt_log (entries q) ∧ u64 (leaderCommit q).

Definition wt_msg (m : msg) : Prop :=
  match m with
  | MRequestVote _ _ _ q => wt_rvq q
  | MRequestVoteReply _ _ _ rep => u64 (rvr_term rep)
  | MAppendEntries _ _ _ q => wt_aeq q
  | MAppendEntriesReply _ _ _ rep => u64 (aer_term rep)
  end.

Definition wt_req (q : PeerReq) : Prop := u64 (pq_peer_id q) ∧ u64 (pq_prev_idx q) ∧ wt_aeq (pq_request q).

Definition wt_slot (s : PeerResult) : Prop :=
  u64 (ps_peer_id s) ∧ u64 (ps_prev_idx s) ∧ u64 (aer_term (ps_reply s)).

(** The locals of the thread. *)
Definition wt_pc (k : pc) : Prop :=
  match k with
  | PcReqTerm _ _ _ t _ => u64 t
  | PcReqIndex _ _ _ t idx _ => u64 t ∧ u64 idx
  | PcVoteReply _ _ _ rep _ => u64 (rvr_term rep)
  | PcVoteTerm _ _ _ rep my_term _ => u64 (rvr_term rep) ∧ u64 my_term
  | PcHbRpc _ calls => Forall (λ x, wt_slot (if_slot x)) calls
  | _ => True
  end.

(** The memory bound: a log does not fill the address space. *)
Definition short_logs (c : cluster) : Prop :=
  ∀ i p, procs c !! i = Some p → vsize (log_ (node p)) + 1 < pow64.

Record wt_cluster (c : cluster) : Prop := {
  wc_nodes : ∀ i p, procs c !! i = Some p → wt_node (node p) ∧ wt_pc (ctl p);
  wc_net : Forall wt_msg (net c) }.

(** ** Operations of a node *)

Lemma wt_timer r n : wt_node n → wt_node (reset_election_timer r n).
Proof.
  intros []. split; try done. pose proof (uniform_int_range 300 600 r ltac:(lia)) as H.
  unfold INT_MAX. simpl. lia.
Qed.

Lemma wt_adopt t r n : u64 t → wt_node n → wt_node (adopt_term t r n).
Proof.
  intros Ht Hn. unfold adopt_term. destruct (_ <? _); [|done]. apply wt_timer.
  by destruct Hn.
Qed.

Lemma wt_last_term log t : wt_log log → last_term log = Some t → u64 t.
Proof.
  intros Hl. unfold last_term. destruct (_ =? _); [by intros [= <-]|].
  intros H. undo_bind. unfold vat in *. unfold wt_log in Hl. rewrite Forall_lookup in Hl. eauto.
Qed.

Lemma wt_request_vote req r n n' rep :
  wt_rvq req → wt_node n → handle_request_vote req r n = Some (n', rep) →
  wt_node n' ∧ u64 (rvr_term rep).
Proof.
  intros (Ht & Hc & _) Hn. unfold handle_request_vote.
  destruct (_ <? _); [intros [= <- <-]; split; [done|apply Hn]|].
  pose proof (wt_adopt (rvq_term req) r n Ht Hn) as Ha. intros H. undo_bind.
  destruct (vote_free _ _ && _); simplify_eq; (split; [|apply Ha]); [|done].
  apply wt_timer. destruct Ha. split; try done. by intros v [= <-].
Qed.

Lemma wt_follow req r n : u64 (aeq_term req) → wt_node n → wt_node (follow_leader req r n).
Proof.
  intros Ht Hn. unfold follow_leader. apply wt_timer.
  assert (wt_node (if current_term_ n <? aeq_term req
                   then set_voted_for_ None (set_current_term_ (aeq_term req) n) else n)) as H1
    by (destruct (_ <? _); [|done]; by destruct Hn).
  destruct H1. by case_decide.
Qed.

Lemma wt_append_entries es : ∀ log idx log' idx',
  wt_log log → wt_log es → append_entries (log, idx) es = Some (log', idx') → wt_log log'.
Proof.
  induction es as [|e es IH]; intros log idx log' idx' Hl Hes H; cbn [append_entries] in H;
    [by simplify_eq|].
  apply bind_Some in H as ([log1 idx1] & H1 & H2). apply Forall_cons_1 in Hes as [He Hes].
  eapply IH; [|done|exact H2]. clear IH H2. unfold append_entry in H1.
  destruct (_ <=? _); [|simplify_eq; by apply Forall_app; auto].
  undo_bind. destruct (_ =? _); simplify_eq; [done|].
  apply Forall_app; split; [by apply Forall_take|by constructor].
Qed.

Lemma wt_drain log la ci la' out : u64 la → drain log la ci = Some (la', out) → u64 la'.
Proof.
  unfold drain. generalize (N.to_nat (ci - la)). intros fuel. revert la la' out.
  induction fuel as [|fuel IH]; intros la la' out Hla; cbn [drain_loop];
    (destruct (la <? ci); [|intros [= <- _]; done]); [done|].
  intros H. apply bind_Some in H as (e & _ & H). apply bind_Some in H as ([la1 rest] & H & E).
  simplify_eq. by eapply IH; [|exact H].
Qed.

Lemma wt_advance req n n' :
  u64 (leaderCommit req) → wt_node n → advance_commit req n = Some n' → wt_node n'.
Proof.
  intros Hc Hn H. unfold advance_commit in H.
  set (n1 := if _ <? _ then _ else n) in H.
  assert (wt_node n1) as H1.
  { subst n1. destruct (_ <? _); [|done]. destruct Hn. split; try done.
    simpl. eapply u64_le; [apply N.le_min_l|done]. }
  apply bind_Some in H as ([la out] & Hd & E). simplify_eq.
  pose proof (wt_drain _ _ _ _ _ (wn_applied _ H1) Hd). by destruct H1.
Qed.

Lemma wt_append req r n n' rep :
  wt_aeq req → wt_node n → handle_append_entries req r n = Some (n', rep) →
  wt_node n' ∧ u64 (aer_term rep).
Proof.
  intros (Ht & _ & _ & _ & Hes & Hc) Hn. unfold handle_append_entries.
  destruct (_ <? _); [intros [= <- <-]; split; [done|apply Hn]|].
  pose proof (wt_follow req r n Ht Hn) as Hf.
  destruct (_ <? _); [intros [= <- <-]; split; [done|apply Hf]|].
  intros H. apply bind_Some in H as (bad & _ & H).
  destruct bad; [simplify_eq; split; [done|apply Hf]|].
  apply bind_Some in H as ([log idx] & Hlog & H). apply bind_Some in H as (n1 & Hadv & E).
  simplify_eq. apply wt_append_entries in Hlog; [|apply Hf|done].
  apply wt_advance in Hadv; [by split; [|apply Hadv]|done|]. by destruct Hf.
Qed.

Lemma wt_propose d n : wt_node n → wt_node (propose d n).1.
Proof.
  intros []. unfold propose. case_decide; [|done]. split; try done. simpl.
  apply Forall_app. split; [done|]. by constructor.
Qed.

Lemma wt_process_result r n c res :
  wt_node n → wt_slot res →
  match process_result r (n, c) res with inl n' => wt_node n' | inr (n', _) => wt_node n' end.
Proof.
  intros Hn Hs. unfold process_result. destruct (negb _); [done|].
  destruct Hs as (Hid & _ & Ht). destruct (_ <? _); [apply wt_timer; by destruct Hn|].
  destruct Hn. destruct (success _); (split; try done); simpl; try by apply map_Forall_insert_2.
  apply map_Forall_insert_2; [|done]. split; [done|].
  destruct (nextIndex_ n !! ps_peer_id res) eqn:Hi; simpl.
  - destruct (1 <? _); [done|]. by apply (wn_next0 _ _ Hi).
  - by destruct (1 <? 0).
Qed.

Lemma wt_process_results r results : ∀ n c,
  wt_node n → Forall wt_slot results →
  match process_results r (n, c) results with inl n' => wt_node n' | inr (n', _) => wt_node n' end.
Proof.
  induction results as [|res results IH]; intros n c Hn Hs; cbn [process_results]; [done|].
  apply Forall_cons_1 in Hs as [Hs1 Hs2]. pose proof (wt_process_result r n c res Hn Hs1) as H1.
  destruct (process_result r (n, c) res) as [n'|[n' c']]; [done|]. by apply IH.
Qed.

Lemma wt_scan fuel : ∀ idx n n',
  u64 idx → wt_node n → commit_scan fuel idx n = Some n' → wt_node n'.
Proof.
  induction fuel as [|fuel IH]; intros idx n n' Hi Hn; cbn [commit_scan];
    (destruct (commit_index_ n <? idx); [|by intros [= <-]]); [done|].
  intros H. apply bind_Some in H as (e & _ & H). destruct (_ && _); [|by eapply IH; [|done|exact H]].
  simplify_eq. by destruct Hn.
Qed.

Lemma wt_lease c r now n n' : wt_node n → renew_lease c r now n = Some n' → wt_node n'.
Proof.
  intros Hn. unfold renew_lease. destruct (_ <=? _).
  - simpl. destruct (0 <? _); [|intros [= <-]; by destruct Hn].
    intros H. apply bind_Some in H as (e & _ & H).
    destruct (_ =? _); simplify_eq; by destruct Hn.
  - destruct (_ <? _)%Z; [|by intros [= <-]]. intros [= <-]. apply wt_timer. by destruct Hn.
Qed.

Lemma wt_process_replies results r now n n' out :
  vsize (log_ n) + 1 < pow64 → wt_node n → Forall wt_slot results →
  process_replies results r now n = Some (n', out) → wt_node n'.
Proof.
  intros Hlen Hn Hs. unfold process_replies. case_decide; [|by intros [= <- _]].
  pose proof (wt_process_results r results n 1 Hn Hs) as H1.
  assert (∀ st, match process_results r st results with
                | inl n' | inr (n', _) => log_ n' = log_ st.1 end) as Hlog.
  { clear. induction results as [|res results IH]; intros [n c]; cbn [process_results]; [done|].
    assert (match process_result r (n, c) res with
            | inl n' | inr (n', _) => log_ n' = log_ n end) as H1.
    { unfold process_result. case_guards; done. }
    destruct (process_result r (n, c) res) as [n1|[n1 c1]]; [done|].
    specialize (IH (n1, c1)). destruct (process_results r (n1, c1) results) as [n2|[n2 c2]];
      simpl in *; congruence. }
  specialize (Hlog (n, 1)). destruct (process_results r (n, 1) results) as [n1|[n1 c1]];
    [by intros [= <- _]|]. simpl in Hlog. intros Hb.
  apply bind_Some in Hb as (n2 & Hscan & Hb). apply bind_Some in Hb as ([la o] & Hd & Hb).
  apply bind_Some in Hb as (n3 & Hl & E). simplify_eq. eapply wt_lease; [|exact Hl].
  assert (wt_node n2) as H2.
  { eapply wt_scan; [|exact H1|exact Hscan]. unfold u64. rewrite Hlog. lia. }
  pose proof (wt_drain _ _ _ _ _ (wn_applied _ H2) Hd). by destruct H2.
Qed.

(** ** Requests of a leader *)

Lemma wt_build_request j n n' q :
  u64 j → vsize (log_ n) + 1 < pow64 → wt_node n → build_request j n = Some (n', q) →
  wt_node n' ∧ log_ n' = log_ n ∧ wt_req q.
Proof.
  intros Hj Hlen Hn H. unfold build_request in H.
  set (n1 := match nextIndex_ n !! j with Some _ => n | None => _ end) in H.
  assert (wt_node n1 ∧ log_ n1 = log_ n) as [H1 Hl].
  { subst n1. destruct (nextIndex_ n !! j); [done|]. split; [|done]. destruct Hn.
    split; try done. simpl. apply map_Forall_insert_2; [by split|done]. }
  clearbody n1. apply bind_Some in H as (pt & Hpt & E). simplify_eq. split_and!; [done|done|].
  unfold wt_req, wt_aeq. simpl. split_and!; auto using wn_term, wn_id, wn_commit.
  - destruct (_ =? 0); [by simplify_eq|]. apply bind_Some in Hpt as (e & He & E). simplify_eq.
    unfold vat in He. pose proof (wn_log _ H1) as Hw. unfold wt_log in Hw.
    rewrite Forall_lookup in Hw. by eapply Hw.
  - apply Forall_drop. apply H1.
Qed.

Lemma wt_build_requests ps : ∀ n n' qs,
  Forall (λ p, u64 p.1) ps → vsize (log_ n) + 1 < pow64 → wt_node n →
  build_requests ps n = Some (n', qs) → wt_node n' ∧ Forall wt_req qs.
Proof.
  induction ps as [|[j []] ps IH]; intros n n' qs Hps Hlen Hn H; cbn [build_requests] in H;
    [by simplify_eq| |apply Forall_cons_1 in Hps as [_ Hps]; by eapply IH].
  apply Forall_cons_1 in Hps as [Hj Hps].
  apply bind_Some in H as ([n1 q] & Hq & H). apply bind_Some in H as ([n2 qs'] & Hqs & E).
  simplify_eq. destruct (wt_build_request j n n1 q Hj Hlen Hn Hq) as (H1 & Hl & Hw).
  destruct (IH n1 n' qs') as [H2 Hws]; [done|by rewrite Hl|done|done|]. split; [done|]. by constructor.
Qed.

Lemma wt_post n qs : ∀ k,
  Forall wt_req qs →
  Forall (λ x, wt_slot (if_slot x)) (post_calls n k qs).1 ∧ Forall wt_msg (post_calls n k qs).2.
Proof.
  induction qs as [|q qs IH]; intros k Hq; cbn [post_calls]; [done|].
  apply Forall_cons_1 in Hq as [(Hid & Hprev & Hq) Hqs]. specialize (IH (k + 1) Hqs).
  destruct (post_calls n (k + 1) qs) as [calls ms]. destruct IH as [IH1 IH2]. simpl. split.
  - constructor; [|done]. simpl. unfold wt_slot, result_slot. by case_bool_decide.
  - case_bool_decide; [|done]. by constructor.
Qed.

(** The sections of [run] that change the node. *)
Lemma wt_reset (x : N) (ps : list (N * bool)) (m : gmap N N) :
  u64 x → Forall (λ p, u64 p.1) ps → map_Forall (λ k v, u64 k ∧ u64 v) m →
  map_Forall (λ k v, u64 k ∧ u64 v) (foldr (λ p m, <[p.1 := x]> m) m ps).
Proof.
  intros Hx Hps Hm. induction Hps; simpl; [done|]. by apply map_Forall_insert_2.
Qed.

Lemma wt_become now n : wt_node n → vsize (log_ n) + 1 < pow64 → wt_node (become_leader now n).
Proof. intros [] Hlen. split; try done; simpl; apply wt_reset; try done; unfold u64; lia. Qed.

Lemma wt_start r n : wt_node n → wt_node (start_election r n).2.
Proof.
  intros Hn. unfold start_election. destruct (negb _ && negb _); [|done].
  apply wt_timer. destruct Hn. split; simpl; auto. by intros v [= <-].
Qed.

Lemma wt_finish votes maj r n : wt_node n → wt_node (finish_election votes maj r n).2.
Proof.
  intros Hn. unfold finish_election. case_bool_decide; simpl; [|done].
  destruct (maj <=? votes); simpl; [by destruct Hn|]. apply wt_timer. by destruct Hn.
Qed.

Lemma wt_complete k rep calls :
  (∀ x, rep = Some x → u64 (aer_term x)) → Forall (λ x, wt_slot (if_slot x)) calls →
  Forall (λ x, wt_slot (if_slot x)) (complete k rep <$> calls).
Proof.
  intros Hrep Hk. apply Forall_fmap. eapply List.Forall_impl; [|exact Hk]. intros y Hy.
  unfold compose, complete. destruct (_ && _); [|done]. destruct rep; [|done].
  destruct Hy as (? & ? & _). split_and!; [done..|]. by apply Hrep.
Qed.

(** ** Steps of the cluster *)

Lemma wt_upd c i p' ms evs :
  wt_cluster c → wt_node (node p') → wt_pc (ctl p') → Forall wt_msg ms →
  wt_cluster (record evs (send ms (upd i p' c))).
Proof.
  intros [Hc Hm] Hn Hk Hms. split; simpl; [|by apply Forall_app].
  intros j q Hj. destruct (decide (j = i)) as [->|]; simplify_map_eq; [done|]. by eapply Hc.
Qed.

(** The shape in which the thread's own steps appear. *)
Lemma wt_quiet c i n' k rpc :
  wt_cluster c → wt_node n' → wt_pc k → wt_cluster (upd i (mkProc n' k rpc) c).
Proof. intros Hc Hn Hk. by apply (wt_upd c i (mkProc n' k rpc) [] []). Qed.

Section step.
Context (c : cluster) (i : N) (p : proc).
Context (Hc : wt_cluster c) (Hs : short_logs c) (Hi : procs c !! i = Some p).

Lemma wt_self : wt_node (node p) ∧ wt_pc (ctl p).
Proof using Hc Hi. by eapply (wc_nodes c Hc). Qed.

Lemma wt_reply_in rep j k dst : MRequestVoteReply j dst k rep ∈ net c → u64 (rvr_term rep).
Proof using Hc. intros Hin. pose proof (wc_net c Hc) as H. rewrite Forall_forall in H. apply (H _ Hin). Qed.

Lemma wt_thread l c' : thread_step l i p c = Next c' → wt_cluster c'.
Proof using Hc Hs Hi.
  destruct wt_self as [Hn Hk]. pose proof (Hs i p Hi) as Hlen. intros Hstep.
  destruct l; simpl in Hstep; try done; destruct (ctl p) eqn:Hctl; try done; simpl in Hk;
    try (simplify_eq; apply wt_quiet; by auto).
  - destruct (is_dead _); [done|]. unfold run_top in Hstep.
    case_decide; simplify_eq; apply wt_quiet; try done. by destruct Hn.
  - simplify_eq. apply wt_quiet; try done. by destruct (wait_over start now (node p)).
  - pose proof (wt_start r _ Hn) as Hn'. destruct (start_election r (node p)) as [[] n'].
    + destruct (vote_request n') as [req|]; [|done]. simplify_eq.
      by apply (wt_upd c i (mkProc _ _ _) [] [EVote i req _]).
    + simplify_eq. by apply wt_quiet.
  - destruct todo; simplify_eq; apply wt_quiet; try done. apply (wn_term _ Hn).
  - simplify_eq. apply wt_quiet; try done. split; [done|]. unfold u64. lia.
  - destruct (last_term (log_ (node p))) as [lt|] eqn:Hlt; [|done]. simplify_eq.
    apply (wt_upd c i (mkProc _ _ _) [_] []); try done. constructor; [|done].
    destruct Hk. split_and!; try done; [apply (wn_id _ Hn)|].
    by eapply wt_last_term; [apply (wn_log _ Hn)|].
  - case_bool_decide as Hin; [|done]. simplify_eq. apply wt_quiet; try done.
    by eapply wt_reply_in.
  - simplify_eq. apply wt_quiet; try done. split; [done|apply (wn_term _ Hn)].
  - destruct Hk as [Hrep _]. destruct (my_term <? rvr_term rep); simplify_eq.
    { apply wt_quiet; try done. apply wt_timer. by destruct Hn. }
    destruct (voteGranted rep); simplify_eq; apply wt_quiet; try done. by destruct (maj <=? _).
  - pose proof (wt_finish votes maj r _ Hn) as Hn'.
    destruct (finish_election votes maj r (node p)) as [[] n']; simplify_eq.
    + by apply (wt_upd c i (mkProc _ _ _) [] [EElected _ _ _]).
    + by apply wt_quiet.
  - simplify_eq. apply wt_quiet; try done. by apply wt_become.
  - unfold heartbeat_requests in Hstep. case_decide; [|simplify_eq; apply wt_quiet; try done; by destruct cv].
    destruct (build_requests _ _) as [[n' qs]|] eqn:Hb; [|done]. simpl in Hstep.
    destruct (wt_build_requests _ _ _ _ (wn_peers _ Hn) Hlen Hn Hb) as [Hn' Hqs].
    destruct (wt_post n' qs (next_rpc p) Hqs) as [H1 H2].
    destruct (post_calls n' (next_rpc p) qs) as [calls ms]. simplify_eq.
    by apply (wt_upd c i (mkProc _ _ _) ms []).
  - destruct (existsb _ calls) eqn:Hex; [|done]. simplify_eq. apply wt_quiet; try done. simpl.
    apply existsb_exists in Hex as (x & _ & Hx). bool_to_prop.
    apply bool_decide_eq_true in H0. pose proof (wc_net c Hc) as Hw. rewrite Forall_forall in Hw.
    apply wt_complete; [|done]. intros y [= <-]. exact (Hw _ H0).
  - simplify_eq. apply wt_quiet; try done. by apply wt_complete.
  - destruct (forallb if_done calls); [|done].
    destruct (process_replies _ _ _ _) as [[n' out]|] eqn:Hp; [|done]. simplify_eq.
    apply wt_quiet; try done. eapply wt_process_replies; [exact Hlen|done| |exact Hp].
    by apply Forall_fmap.
  - destruct to_apply; simplify_eq; apply wt_quiet; try done; [by destruct cv|by destruct Hn].
Qed.
End step.

Lemma wt_step l c c' : wt_cluster c → short_logs c → step l c = Next c' → wt_cluster c'.
Proof.
  intros Hc Hs Hstep. unfold step in Hstep. destruct (procs c !! actor l) as [p|] eqn:Hi; [|done].
  destruct (wt_self c _ p Hc Hi) as [Hn Hk].
  pose proof (wc_net c Hc) as Hw. rewrite Forall_forall in Hw.
  destruct l; try (by eapply wt_thread); cbn [actor] in *.
  - unfold deliver_vote in Hstep. case_bool_decide as Hin; [|done].
    destruct (handle_request_vote req r (node p)) as [[n' rep]|] eqn:Hh; [|done]. simplify_eq.
    apply wt_request_vote in Hh as [Hn' Hrep]; [|by apply (Hw _ Hin)|done].
    apply wt_upd; try done. by constructor.
  - unfold deliver_append in Hstep. case_bool_decide as Hin; [|done].
    destruct (handle_append_entries req r (node p)) as [[n' rep]|] eqn:Hh; [|done]. simplify_eq.
    apply wt_append in Hh as [Hn' Hrep]; [|by apply (Hw _ Hin)|done].
    apply wt_upd; try done. by constructor.
  - simplify_eq. apply wt_quiet; try done. by apply wt_propose.
  - simplify_eq. apply wt_quiet; try done. by destruct Hn.
Qed.

(** ** Every schedule *)

Definition fits_memory (c : cluster) : bool :=
  forallb (λ ip, vsize (log_ (node ip.2)) + 1 <? pow64) (map_to_list (procs c)).

Lemma fits_memory_short c : fits_memory c = true → short_logs c.
Proof.
  intros H i p Hi. unfold fits_memory in H. rewrite forallb_forall in H.
  apply N.ltb_lt, (H (i, p)). by apply list_elem_of_In, elem_of_map_to_list.
Qed.

(** Run a schedule, as long as the logs fit into memory. *)
Fixpoint run_in_memory (ls : list label) (c : cluster) : option cluster :=
  match ls with
  | [] => Some c
  | l :: ls =>
      if fits_memory c then
        match step l c with Next c' => run_in_memory ls c' | _ => None end
      else None
  end.

Lemma wt_run ls : ∀ c c', wt_cluster c → run_in_memory ls c = Some c' → wt_cluster c'.
Proof.
  induction ls as [|l ls IH]; intros c c' Hc Hrun; simpl in Hrun; [by simplify_eq|].
  destruct (fits_memory c) eqn:Hm; [|done]. destruct (step l c) as [c1| |] eqn:Hs; try done.
  eapply IH; [|exact Hrun]. eapply wt_step; [done|by apply fits_memory_short|exact Hs].
Qed.

(** A configuration with 64-bit ids. *)
Definition wt_config (cfg : Config) : Prop :=
  u64 (cfg_id cfg) ∧ map_Forall (λ k _, u64 k) (cfg_peer_addrs cfg).

#[export] Instance wt_config_dec cfg : Decision (wt_config cfg).
Proof. unfold wt_config. apply _. Defined.

Lemma wt_boot configs r : Forall wt_config configs → wt_cluster (boot configs r).
Proof.
  intros Hids. split; [|done]. intros i p Hi. simpl in Hi.
  apply elem_of_list_to_map_2, list_elem_of_fmap in Hi as (cfg & E & Hcfg). simplify_eq.
  rewrite Forall_forall in Hids. destruct (Hids cfg Hcfg) as [Hid Hps]. split; [|done].
  split; try done; [|constructor|].
  - pose proof (uniform_int_range 300 600 r ltac:(lia)) as H. unfold INT_MAX. simpl. lia.
  - simpl. apply Forall_fmap, Forall_forall. intros [k a] Hk%elem_of_map_to_list. by eapply Hps.
Qed.


