(* ===== verification/Lease.v ===== *)
(** The lease of a leader along the schedules of the cluster: every lease comes from a round
    of heartbeats that a majority confirmed, and ends [kLeaseDuration] after it.  The
    schedules are arbitrary: neither discipline nor a full mesh is needed. *)
From S2P Require Import Prelude Types ConfigGen RaftState RaftNode RaftNodeFacts Cluster Races.

#[local] Open Scope N_scope.

(** ** What leaves the lease alone *)

(** The sections of a node other than the end of a round. *)
Definition keeps_lease (n n' : Raft) : Prop := lease_expires_ns_ n' = lease_expires_ns_ n.

Lemma follow_keeps req r n : keeps_lease n (follow_leader req r n).
Proof. unfold follow_leader, keeps_lease. simpl. by repeat case_match. Qed.

Lemma adopt_keeps t r n : keeps_lease n (adopt_term t r n).
Proof. unfold adopt_term, keeps_lease. by case_match. Qed.

Lemma request_vote_keeps req r n n' rep :
  handle_request_vote req r n = Some (n', rep) → keeps_lease n n'.
Proof.
  unfold handle_request_vote, keeps_lease. intros H. case_guards; undo_bind; [done|].
  case_guards; apply adopt_keeps.
Qed.

Lemma advance_keeps req n n' : advance_commit req n = Some n' → keeps_lease n n'.
Proof.
  unfold advance_commit. intros H. apply bind_Some in H as ([la out] & _ & E). simplify_eq.
  unfold keeps_lease. destruct (_ <? _); reflexivity.
Qed.

Lemma append_entries_keeps req r n n' rep :
  handle_append_entries req r n = Some (n', rep) → keeps_lease n n'.
Proof.
  unfold handle_append_entries. intros H. destruct (_ <? _); [by simplify_eq|].
  pose proof (follow_keeps req r n) as Hf. revert H Hf. generalize (follow_leader req r n). intros m H Hf.
  destruct (_ <? _); [by simplify_eq|].
  apply bind_Some in H as ([] & _ & H); [by simplify_eq|].
  apply bind_Some in H as ([log idx] & _ & H). apply bind_Some in H as (n1 & Ha & H). simplify_eq.
  apply advance_keeps in Ha. unfold keeps_lease in *. by rewrite Ha.
Qed.

Lemma propose_keeps d n : keeps_lease n (propose d n).1.
Proof. unfold propose, keeps_lease. by case_decide. Qed.

Lemma start_keeps r n : keeps_lease n (start_election r n).2.
Proof. unfold start_election, keeps_lease. by case_match. Qed.

Lemma finish_keeps votes maj r n : keeps_lease n (finish_election votes maj r n).2.
Proof. unfold finish_election, keeps_lease. by repeat case_match. Qed.

Lemma build_requests_keeps ps : ∀ n n' qs,
  build_requests ps n = Some (n', qs) → keeps_lease n n'.
Proof.
  unfold keeps_lease. induction ps as [|[j []] ps IH]; intros n n' qs H; cbn [build_requests] in H;
    [by simplify_eq| |by eapply IH].
  apply bind_Some in H as ([n1 q] & Hq & H). apply bind_Some in H as ([n2 qs'] & Hqs & E).
  simplify_eq. rewrite (IH _ _ _ Hqs). unfold build_request in Hq. undo_bind. by case_match.
Qed.

(** ** The end of a round *)

(** The count of confirmations is not more than the replies that confirm the term. *)
Lemma process_results_confirmed r results : ∀ n c n' c',
  process_results r (n, c) results = inr (n', c') →
  keeps_lease n n' ∧ majority n' = majority n ∧ c' ≤ c + vsize (filter (confirms (current_term_ n)) results).
Proof.
  unfold keeps_lease. induction results as [|res results IH]; intros n c n' c' H; cbn [process_results] in H.
  { injection H as <- <-. split_and!; [done|done|lia]. }
  destruct (process_result r (n, c) res) as [|[n1 c1]] eqn:H1; [done|].
  destruct (IH _ _ _ _ H) as (E1 & E2 & E3).
  assert (lease_expires_ns_ n1 = lease_expires_ns_ n ∧ majority n1 = majority n ∧
          current_term_ n1 = current_term_ n ∧
          c1 ≤ if decide (confirms (current_term_ n) res) then c + 1 else c) as (F1 & F2 & F3 & F4).
  { clear -H1. unfold process_result in H1.
    destruct (ps_rpc_ok res) eqn:Hrpc; simpl in H1; [|simplify_eq; split_and!; [done..|]; case_decide; lia].
    destruct (_ <? _); [done|].
    assert ((if aer_term (ps_reply res) =? current_term_ n then add64 c 1 else c) ≤
            if decide (confirms (current_term_ n) res) then c + 1 else c) as Hc.
    { pose proof (N.Div0.mod_le (c + 1) pow64) as Hw. unfold add64, wrap64.
      destruct (N.eqb_spec (aer_term (ps_reply res)) (current_term_ n)) as [E|E]; case_decide as Hd; try lia.
      by destruct Hd. }
    destruct (success (ps_reply res)); simplify_eq; by split_and!. }
  rewrite F3 in E3. split_and!; [congruence|congruence|]. rewrite filter_cons.
  destruct (decide (confirms (current_term_ n) res)); [rewrite vsize_cons|]; lia.
Qed.

Lemma commit_scan_keeps fuel : ∀ idx n n',
  commit_scan fuel idx n = Some n' → keeps_lease n n' ∧ majority n' = majority n.
Proof.
  unfold keeps_lease. induction fuel as [|fuel IH]; intros idx n n' H; simpl in H;
    (destruct (_ <? _); [|by simplify_eq]); [done|].
  apply bind_Some in H as (e & _ & H). destruct (_ && _); [by simplify_eq|by eapply IH].
Qed.

(** The section renews the lease only for a leader whom a majority confirmed. *)
Lemma process_replies_renews results r now n n' out :
  process_replies results r now n = Some (n', out) →
  keeps_lease n n' ∨
  role_ n = LEADER ∧ majority n ≤ confirmations (current_term_ n) results ∧
  lease_expires_ns_ n' = (now + ms kLeaseDuration)%Z.
Proof.
  unfold process_replies. case_decide as Hr; [|intros [= <- _]; by left]. intros H.
  destruct (process_results r (n, 1) results) as [n1|[n1 k]] eqn:Hp.
  - left. injection H as <- _. clear -Hp. revert Hp. generalize 1 as c. revert n.
    induction results as [|res results IH]; intros n c H; cbn [process_results] in H; [done|].
    unfold process_result in H. unfold keeps_lease in *. destruct (negb _); [by eapply IH|].
    destruct (_ <? _); [by simplify_eq|]. by destruct (success _); apply IH in H.
  - apply process_results_confirmed in Hp as (K1 & M1 & C1).
    apply bind_Some in H as (n2 & Hsc & H). apply commit_scan_keeps in Hsc as [K2 M2].
    apply bind_Some in H as ([la o] & _ & H). apply bind_Some in H as (n3 & Hrn & E). simplify_eq.
    unfold keeps_lease, renew_lease in *. change (majority (set_last_applied_ la n2)) with (majority n2) in Hrn.
    rewrite M2, M1 in Hrn.
    destruct (N.leb_spec (majority n) k) as [Hm|Hm].
    + right. split_and!; [done|unfold confirmations; lia|].
      simpl in Hrn. case_guards; undo_bind; case_guards; done.
    + left. rewrite <- K1, <- K2. by case_guards.
Qed.

(** ** Steps and schedules *)

(** The round from which the lease of node [i] comes in the schedule [ls]. *)
Definition leased_by (start : cluster) (ls : list label) (i : N) (expires : Z) : Prop :=
  ∃ ls1 r t ls2 c p cv calls,
    ls = ls1 ++ LProcess i r t :: ls2 ∧ run_schedule ls1 start = Some c ∧
    procs c !! i = Some p ∧ ctl p = PcHbRpc cv calls ∧ role_ (node p) = LEADER ∧
    majority (node p) ≤ confirmations (current_term_ (node p)) (if_slot <$> calls) ∧
    expires = (t + ms kLeaseDuration)%Z.

Lemma upd_lease (c c' : cluster) i p p' j q :
  procs c !! i = Some p → procs c' = <[i := p']> (procs c) → keeps_lease (node p) (node p') →
  procs c' !! j = Some q → ∃ q0, procs c !! j = Some q0 ∧ keeps_lease (node q0) (node q).
Proof.
  intros Hi -> Hk Hj. destruct (decide (j = i)) as [->|].
  - rewrite lookup_insert_eq in Hj. simplify_eq. eauto.
  - rewrite lookup_insert_ne in Hj by done. by exists q.
Qed.

Ltac lease_kept Hi Hj := eapply (upd_lease _ _ _ _ _ _ _ Hi); [| |exact Hj]; [reflexivity|].

(** A step of the thread of a node keeps the leases, or ends a round. *)
Lemma thread_lease l i p c c' j q :
  procs c !! i = Some p → thread_step l i p c = Next c' → procs c' !! j = Some q →
  (∃ q0, procs c !! j = Some q0 ∧ keeps_lease (node q0) (node q)) ∨
  ∃ r t cv calls, l = LProcess (actor l) r t ∧ j = i ∧ ctl p = PcHbRpc cv calls ∧ role_ (node p) = LEADER ∧
    majority (node p) ≤ confirmations (current_term_ (node p)) (if_slot <$> calls) ∧
    lease_expires_ns_ (node q) = (t + ms kLeaseDuration)%Z.
Proof.
  intros Hi Hstep Hj. destruct l; simpl in Hstep; try done; destruct (ctl p) eqn:Hctl; try done;
    try (left; simplify_eq; by lease_kept Hi Hj).
  - left. destruct (is_dead _); [done|]. unfold run_top in Hstep. case_decide; simplify_eq; by lease_kept Hi Hj.
  - left. pose proof (start_keeps r (node p)) as Hk.
    destruct (start_election r (node p)) as [[] n']; [|simplify_eq; by lease_kept Hi Hj].
    destruct (vote_request n'); [|done]. simplify_eq. by lease_kept Hi Hj.
  - left. destruct todo; simplify_eq; by lease_kept Hi Hj.
  - left. destruct (last_term _); [|done]. simplify_eq. by lease_kept Hi Hj.
  - left. case_bool_decide; [|done]. simplify_eq. by lease_kept Hi Hj.
  - left. destruct (_ <? _); [simplify_eq; by lease_kept Hi Hj|].
    destruct (voteGranted rep); simplify_eq; by lease_kept Hi Hj.
  - left. pose proof (finish_keeps votes maj r (node p)) as Hk.
    destruct (finish_election votes maj r (node p)) as [[] n']; simplify_eq; by lease_kept Hi Hj.
  - left. unfold heartbeat_requests in Hstep. case_decide; [|simplify_eq; by lease_kept Hi Hj].
    destruct (build_requests _ _) as [[n' qs]|] eqn:Hb; [|done]. simpl in Hstep.
    apply build_requests_keeps in Hb. destruct (post_calls _ _ _). simplify_eq. by lease_kept Hi Hj.
  - left. destruct (existsb _ _); [|done]. simplify_eq. by lease_kept Hi Hj.
  - destruct (forallb _ _); [|done].
    destruct (process_replies _ _ _ _) as [[n' out]|] eqn:Hp; [|done]. simplify_eq.
    apply process_replies_renews in Hp as [Hk|(Hr & Hm & He)]; [left; by lease_kept Hi Hj|].
    simpl in Hj. destruct (decide (j = i)) as [->|].
    + right. rewrite lookup_insert_eq in Hj. simplify_eq. by eexists _, _, _, _.
    + left. rewrite lookup_insert_ne in Hj by done. by exists q.
  - left. destruct to_apply; simplify_eq; by lease_kept Hi Hj.
Qed.

Lemma step_lease l c c' j q :
  step l c = Next c' → procs c' !! j = Some q →
  (∃ q0, procs c !! j = Some q0 ∧ keeps_lease (node q0) (node q)) ∨
  ∃ p r t cv calls, l = LProcess j r t ∧ procs c !! j = Some p ∧ ctl p = PcHbRpc cv calls ∧
    role_ (node p) = LEADER ∧
    majority (node p) ≤ confirmations (current_term_ (node p)) (if_slot <$> calls) ∧
    lease_expires_ns_ (node q) = (t + ms kLeaseDuration)%Z.
Proof.
  intros Hstep Hj. unfold step in Hstep. destruct (procs c !! actor l) as [p|] eqn:Hi; [|done].
  assert ((∃ q0, procs c !! j = Some q0 ∧ keeps_lease (node q0) (node q)) ∨
          thread_step l (actor l) p c = Next c') as [?|Ht]; [|by left|].
  { destruct l; try (by right); left; cbn [actor] in *.
    - unfold deliver_vote in Hstep. case_bool_decide; [|done].
      destruct (handle_request_vote _ _ _) as [[n' rep]|] eqn:Hh; [|done]. simplify_eq.
      apply request_vote_keeps in Hh. by lease_kept Hi Hj.
    - unfold deliver_append in Hstep. case_bool_decide; [|done].
      destruct (handle_append_entries _ _ _) as [[n' rep]|] eqn:Hh; [|done]. simplify_eq.
      apply append_entries_keeps in Hh. by lease_kept Hi Hj.
    - simplify_eq. lease_kept Hi Hj. apply propose_keeps.
    - simplify_eq. by lease_kept Hi Hj. }
  destruct (thread_lease l _ p c c' j q Hi Ht Hj) as [?|(r & t & cv & calls & El & -> & ?)]; [by left|].
  right. exists p, r, t, cv, calls. split_and!; tauto.
Qed.

Lemma run_schedule_app ls ls' c :
  run_schedule (ls ++ ls') c = run_schedule ls c ≫= run_schedule ls'.
Proof. revert c. induction ls as [|l ls IH]; intros c; simpl; [done|]. by destruct (step l c). Qed.

Lemma boot_lease configs r i p : procs (boot configs r) !! i = Some p → lease_expires_ns_ (node p) = 0%Z.
Proof.
  simpl. intros (cfg & E & _)%elem_of_list_to_map_2%list_elem_of_fmap. by simplify_eq.
Qed.

(** Every expiry but that of the constructor comes from a confirmed round. *)
Lemma run_lease configs r ls : ∀ c i p,
  run_schedule ls (boot configs r) = Some c → procs c !! i = Some p →
  lease_expires_ns_ (node p) = 0%Z ∨ leased_by (boot configs r) ls i (lease_expires_ns_ (node p)).
Proof.
  induction ls as [|l ls IH] using rev_ind; intros c i p Hrun Hi.
  { injection Hrun as <-. left. eapply boot_lease. exact Hi. }
  rewrite run_schedule_app in Hrun. apply bind_Some in Hrun as (c0 & Hrun & Hs).
  simpl in Hs. destruct (step l c0) as [c1| |] eqn:Hstep; simplify_eq.
  destruct (step_lease l c0 c i p Hstep Hi) as [(q & Hq & Hk)|(q & r0 & t & cv & calls & -> & ? & ? & ? & ? & ?)].
  - rewrite Hk. destruct (IH c0 i q Hrun Hq) as [|(ls1 & r1 & t & ls2 & c2 & p2 & cv & calls & -> & H)];
      [by left|right].
    exists ls1, r1, t, (ls2 ++ [l]), c2, p2, cv, calls. split; [|done]. by rewrite <- app_assoc.
  - right. by exists ls, r0, t, [], c0, q, cv, calls.
Qed.

(** C31: whatever the schedule, a node that answers that it holds the lease has been, within
    the last [kLeaseDuration], the leader of a round of heartbeats in which a majority of
    the cluster confirmed its term: the lease that is loaded is that of such a round and
    the clock has not passed its end.  The flag of the leader was set at the first load, and
    the index that is returned is that of the third load and not 0. *)
Theorem lease_confirmed configs r ls c i p n1 now n3 idx :
  run_schedule ls (boot configs r) = Some c → procs c !! i = Some p → (0 ≤ now)%Z →
  get_lease_state n1 now (node p) n3 = (true, idx) →
  leased_by (boot configs r) ls i (lease_expires_ns_ (node p)) ∧
  (now < lease_expires_ns_ (node p))%Z ∧
  is_leader_atomic_ n1 = true ∧ idx = last_term_commit_idx_ n3 ∧ 0 < idx.
Proof.
  intros Hrun Hi Hnow Hl. unfold get_lease_state in Hl. case_guards. bool_to_prop.
  split_and!; try done; try lia.
  destruct (run_lease configs r ls c i p Hrun Hi) as [E|H]; [lia|done].
Qed.

(** Node 0 of [outlived] at 1100 ms. *)
Lemma lease_confirmed_witness :
  ∃ c p, run_schedule outlived (boot local3 0) = Some c ∧ procs c !! 0 = Some p ∧
    get_lease_state (node p) (ms 1100) (node p) (node p) = (true, 1) ∧
    leased_by (boot local3 0) outlived 0 (ms 1250).
Proof.
  assert (∃ c p, run_schedule outlived (boot local3 0) = Some c ∧ procs c !! 0 = Some p ∧
    get_lease_state (node p) (ms 1100) (node p) (node p) = (true, 1) ∧
    lease_expires_ns_ (node p) = ms 1250) as (c & p & Hrun & Hp & Hl & He).
  { do 2 eexists. split_and!; [vm_compute; reflexivity..|]. vm_compute. reflexivity. }
  exists c, p. split_and!; [exact Hrun|exact Hp|exact Hl|]. rewrite <- He.
  apply (lease_confirmed local3 0 outlived c 0 p (node p) (ms 1100) (node p) 1 Hrun Hp); [|exact Hl].
  unfold ms. lia.
Defined.
