(* ===== verification/Safety.v ===== *)
(** What the refinement gives for the cluster: election safety, terms that only
    grow, leaders that only append, and that the generated configurations satisfy
    its assumption. *)
From S2P Require Import Prelude Types ConfigGen RaftState RaftNode RaftNodeFacts Cluster.
From S2P Require Import RaftSpec Refinement RefinementSteps Simulation Races.

#[local] Open Scope N_scope.

(** ** Facts about executions of the protocol *)

(** What happens to a node that leads term [t] with log [l]: it goes on leading with
    a longer log, or it has stepped down, or it is in a later term. *)
Definition since_leading (t : N) (l : list Entry) (x : anode) : Prop :=
  (a_term x = t ∧ a_role x = LEADER ∧ l `prefix_of` a_log x) ∨
  (a_term x = t ∧ a_role x = FOLLOWER) ∨
  t < a_term x.

Lemma aupd_lookup s i x j y :
  a_nodes (aupd i x s) !! j = Some y → (j = i ∧ y = x) ∨ (j ≠ i ∧ a_nodes s !! j = Some y).
Proof. simpl. rewrite lookup_insert. case_decide; naive_solver. Qed.

(** A transition keeps every node and its term does not decrease. *)
Lemma astep_node s s' j y' :
  astep s s' → a_nodes s' !! j = Some y' →
  ∃ y, a_nodes s !! j = Some y ∧ a_term y ≤ a_term y' ∧
       ∀ t l, since_leading t l y → since_leading t l y'.
Proof.
  intros Hs Hj.
  destruct Hs; cbn [a_nodes arecord asend] in Hj;
    try (by eauto);
    apply aupd_lookup in Hj as [[-> ->]|[_ Hj]]; eauto;
    (eexists; split; [done|]); simpl; (split; [lia|]); intros t0 l0;
    unfold since_leading; simpl; intros [(? & Hr & Hp)|[[? ?]|?]]; subst; try lia; auto;
    try congruence.
  left. split_and!; [done..|]. by apply prefix_app_r.
Qed.

Lemma asteps_node s s' :
  asteps s s' → ∀ j y', a_nodes s' !! j = Some y' →
  ∃ y, a_nodes s !! j = Some y ∧ a_term y ≤ a_term y' ∧
       ∀ t l, since_leading t l y → since_leading t l y'.
Proof.
  induction 1 as [s|s s1 s' Hs _ IH]; intros j y' Hj; [by exists y'|].
  destruct (IH j y' Hj) as (y1 & Hy1 & Hle & Hsl).
  destruct (astep_node s s1 j y1 Hs Hy1) as (y & Hy & Hle' & Hsl').
  exists y. split_and!; [done|lia|auto].
Qed.

(** ** Executions of the cluster *)

Lemma run_refines ls : ∀ c c',
  cluster_inv c → run_disciplined ls c = Some c' →
  cluster_inv c' ∧ asteps (abs c) (abs c').
Proof.
  induction ls as [|l ls IH]; intros c c' Hinv Hrun; simpl in Hrun.
  { simplify_eq. split; [done|apply rtc_refl]. }
  destruct (disciplined l c) eqn:Hd; [|done].
  destruct (step l c) as [c1| |] eqn:Hs; try done.
  destruct (step_refines l c c1 Hinv Hd Hs) as [Hinv1 Hst].
  destruct (IH c1 c' Hinv1 Hrun) as [Hinv' Hst']. split; [done|]. by etrans.
Qed.

(** C4: the cluster implements the protocol: every state that a cluster of the
    program's nodes reaches under a disciplined schedule, from a full mesh of
    configurations, is, seen through [abs], a reachable state of the protocol, and
    every further disciplined step is a sequence of transitions of it. *)
Theorem cluster_refines_protocol configs r c :
  full_mesh configs → reachable configs r c →
  areachable (abs c) ∧
  ∀ l c', disciplined l c = true → step l c = Next c' → asteps (abs c) (abs c').
Proof.
  intros Hmesh Hreach. destruct (reachable_inv configs r c Hmesh Hreach) as [Hinv Ha].
  split; [done|]. intros l c' Hd Hs. by apply (step_refines l c c').
Qed.

(** C5: at most one leader is elected in a term on disciplined schedules: in every state that
    such a schedule reaches, two nodes that have won the election of one term are the same
    node.  (Without the discipline this fails: [Races.v].) *)
Theorem election_safety configs r c i j t :
  full_mesh configs → reachable configs r c →
  elected (history c) i t → elected (history c) j t → i = j.
Proof.
  intros Hmesh Hreach. destruct (reachable_inv configs r c Hmesh Hreach) as [_ Ha].
  exact (spec_election_safety (abs c) i j t Ha).
Qed.

(** Two nodes that are leaders at the same time in the same term are the same
    node. *)
Lemma one_leader_per_term configs r c i j p q :
  full_mesh configs → reachable configs r c →
  procs c !! i = Some p → procs c !! j = Some q →
  role_ (node p) = LEADER → role_ (node q) = LEADER →
  current_term_ (node p) = current_term_ (node q) → i = j.
Proof.
  intros Hmesh Hreach Hi Hj Hli Hlj Ht.
  destruct (reachable_inv configs r c Hmesh Hreach) as [_ Ha].
  pose proof (vote_inv_reachable (abs c) Ha) as Hv.
  pose proof (vi_lead _ Hv i _ (abs_lookup c i p Hi) Hli) as Ei.
  pose proof (vi_lead _ Hv j _ (abs_lookup c j q Hj) Hlj) as Ej. simpl in *.
  rewrite <- Ht in Ej. exact (spec_election_safety (abs c) i j _ Ha Ei Ej).
Qed.

(** C9: terms never go back and a leader only appends: over any disciplined
    execution from a reachable state, the term of a node does not decrease, and if
    it leads the same term at both ends its old log is a prefix of the new one. *)
Theorem leader_append_only configs r c ls c' i p p' :
  full_mesh configs → reachable configs r c → run_disciplined ls c = Some c' →
  procs c !! i = Some p → procs c' !! i = Some p' →
  current_term_ (node p) ≤ current_term_ (node p') ∧
  (role_ (node p) = LEADER → role_ (node p') = LEADER →
   current_term_ (node p) = current_term_ (node p') →
   log_ (node p) `prefix_of` log_ (node p')).
Proof.
  intros Hmesh Hreach Hrun Hi Hi'.
  destruct (reachable_inv configs r c Hmesh Hreach) as [Hinv _].
  destruct (run_refines ls c c' Hinv Hrun) as [_ Hst].
  destruct (asteps_node _ _ Hst i _ (abs_lookup c' i p' Hi')) as (y & Hy & Hle & Hsl).
  rewrite (abs_lookup c i p Hi) in Hy. simplify_eq. simpl in *. split; [done|].
  intros Hl Hl' Ht. specialize (Hsl (current_term_ (node p)) (log_ (node p))).
  destruct Hsl as [(_ & _ & ?)|[[_ ?]|?]]; simpl in *; [|done|congruence|lia].
  left. by split_and!.
Qed.

(** The configurations that the tools generate form a full mesh. *)
Lemma generated_mesh num port :
  num < pow64 → full_mesh (gen_raft_configs (gen_local_instances num port)).
Proof.
  intros Hnum. apply gen_raft_configs_mesh.
  - rewrite gen_local_ids. apply NoDup_upto.
  - unfold vsize. rewrite <- (length_fmap ric_id), gen_local_ids. unfold upto.
    rewrite length_fmap, length_seq. lia.
Qed.

(** ** Instances: three local nodes elect node 0, which commits an entry *)

Lemma local3_reachable ls c :
  run_disciplined ls (boot local3 0) = Some c → reachable local3 0 c.
Proof. intros Hrun. eapply run_disciplined_reachable; [constructor|done]. Qed.

Lemma cluster_refines_protocol_witness :
  ∃ c, run_disciplined commit_a (boot local3 0) = Some c ∧ areachable (abs c).
Proof.
  eexists. split; [vm_compute; reflexivity|].
  eapply (cluster_refines_protocol local3 0); [apply local3_mesh|].
  apply (local3_reachable commit_a). vm_compute. reflexivity.
Defined.

Lemma election_safety_witness :
  ∃ c, run_disciplined elect0 (boot local3 0) = Some c ∧ elected (history c) 0 1 ∧
       ∀ j, elected (history c) j 1 → 0 = j.
Proof.
  eexists. split; [vm_compute; reflexivity|].
  match goal with |- ?E ∧ _ => assert E as He by elected_now end.
  split; [exact He|]. intros j Hj.
  eapply (election_safety local3 0 _ 0 j 1 local3_mesh); [|exact He|exact Hj].
  apply (local3_reachable elect0). vm_compute. reflexivity.
Defined.

Lemma one_leader_per_term_witness :
  ∃ c p, run_disciplined elect0 (boot local3 0) = Some c ∧ procs c !! 0 = Some p ∧
         role_ (node p) = LEADER ∧
         ∀ j q, procs c !! j = Some q → role_ (node q) = LEADER →
                current_term_ (node q) = 1 → 0 = j.
Proof.
  eexists _, _. split; [vm_compute; reflexivity|]. split; [reflexivity|]. split; [reflexivity|].
  intros j q Hj Hl Ht.
  refine (one_leader_per_term local3 0 _ 0 j _ q local3_mesh _ _ Hj _ Hl _);
    [|reflexivity|reflexivity|symmetry; exact Ht].
  apply (local3_reachable elect0). vm_compute. reflexivity.
Defined.

Lemma leader_append_only_witness :
  ∃ c c' p p', run_disciplined elect0 (boot local3 0) = Some c ∧
    run_disciplined [LPropose 0 "a"; LPropose 0 "b"] c = Some c' ∧
    procs c !! 0 = Some p ∧ procs c' !! 0 = Some p' ∧
    current_term_ (node p) ≤ current_term_ (node p') ∧ vsize (log_ (node p')) = 2.
Proof.
  eexists _, _, _, _. split; [vm_compute; reflexivity|]. split; [vm_compute; reflexivity|].
  split; [reflexivity|]. split; [reflexivity|]. split; [|reflexivity].
  eapply (leader_append_only local3 0 _ [LPropose 0 "a"; LPropose 0 "b"] _ 0 _ _ local3_mesh);
    [apply (local3_reachable elect0); vm_compute; reflexivity|vm_compute; reflexivity|
     reflexivity|reflexivity].
Defined.

Lemma generated_mesh_witness : full_mesh (gen_raft_configs (gen_local_instances 5 50050)).
Proof. apply (generated_mesh 5 50050). reflexivity. Defined.
