(* ===== verification/Replication.v ===== *)
(** What the replicated log gives to the cluster of [Cluster.v]: no step is undefined
    behaviour, logs match, leaders have all that is committed, and the results that
    the nodes hand to their state machines agree. *)
From S2P Require Import Prelude Types RaftState RaftNode RaftNodeFacts Cluster RaftSpec.
From S2P Require Import Refinement RefinementSteps Simulation LogSpec LogInv LogSafety.
From S2P Require Import Races Safety.

#[local] Open Scope N_scope.

(** ** No undefined behaviour *)

Definition commits_in_log (c : cluster) : Prop :=
  ∀ i p, procs c !! i = Some p → commit_index_ (node p) ≤ vsize (log_ (node p)).

Lemma heartbeat_defined c i p cv :
  cluster_inv c → procs c !! i = Some p → ctl p = PcHb cv →
  ∃ n' qs, heartbeat_requests (node p) = Some (n', qs) ∧ same_but_next (node p) n'.
Proof.
  intros Hinv Hi Hctl. destruct (ci_procs c Hinv i p Hi) as [Hb _ Hl]. rewrite Hctl in Hl.
  unfold heartbeat_requests. case_decide as Hr.
  - destruct (Hl Hr) as (Hnx & _). edestruct build_requests_spec as (n' & qs & Hq & Hs & _);
      [apply Hb|exact Hnx|]. rewrite Hq. by exists n', (Some qs).
  - exists (node p), None. split; [done|]. unfold same_but_next. by destruct (node p).
Qed.

Lemma process_defined c i p cv calls r now :
  cluster_inv c → commits_in_log c → procs c !! i = Some p → ctl p = PcHbRpc cv calls →
  is_Some (process_replies (if_slot <$> calls) r now (node p)).
Proof.
  intros Hinv Hc Hi Hctl. destruct (decide (role_ (node p) = LEADER)) as [Hr|Hr].
  - pose proof (replies_spec c i p Hinv Hi cv calls r now Hctl Hr) as Hs.
    destruct (process_replies _ _ _ _) as [[]|]; [done|]. specialize (Hc i p Hi). lia.
  - unfold process_replies. by rewrite decide_False by done.
Qed.

Lemma step_defined l c :
  cluster_inv c → commits_in_log c → disciplined l c = true → step l c ≠ Undefined.
Proof.
  intros Hinv Hc Hd. unfold step, disciplined in *.
  destruct (procs c !! actor l) as [p|] eqn:Hi; [|done].
  pose proof (pi_base _ _ _ _ _ (ci_procs c Hinv _ _ Hi)) as Hb.
  destruct l; simpl in *; try done;
    try (destruct (ctl p) eqn:Hctl; try done; by case_guards).
  - destruct (ctl p) eqn:Hctl; try done. destruct (is_dead _); [done|].
    by destruct (run_top (node p)).
  - destruct (ctl p) eqn:Hctl; try done.
    destruct (start_election r (node p)) as [[] n'] eqn:Hs; [|done].
    unfold vote_request. assert (log_ n' = log_ (node p)) as ->
      by (unfold start_election in Hs; by case_guards).
    by rewrite last_term_eq by apply Hb.
  - destruct (ctl p) eqn:Hctl; try done. by destruct todo.
  - destruct (ctl p) eqn:Hctl; try done. by rewrite last_term_eq by apply Hb.
  - destruct (ctl p) eqn:Hctl; try done. by destruct (finish_election votes maj r (node p)) as [[] ?].
  - destruct (ctl p) eqn:Hctl; try done.
    destruct (heartbeat_defined c i p cv Hinv Hi Hctl) as (n' & [qs|] & -> & _); [|done].
    by destruct (post_calls n' (next_rpc p) qs).
  - destruct (ctl p) eqn:Hctl; try done. destruct (forallb if_done calls); [|done].
    by destruct (process_defined c i p cv calls r now Hinv Hc Hi Hctl) as [[n' out] ->].
  - destruct (ctl p) eqn:Hctl; try done. by destruct to_apply.
  - unfold deliver_vote. case_bool_decide; [|done].
    rewrite handle_request_vote_eq by apply Hb.
    by destruct (if _ <? _ then _ else _) as [n' rep].
  - unfold deliver_append. case_bool_decide; [|done]. apply N.ltb_lt in Hd.
    rewrite handle_append_entries_eq by (done || apply Hb).
    by destruct (if _ <? _ then _ else _) as [n' rep].
Qed.

(** ** Results handed to the state machine *)

(** The results that a node has queued or is about to queue. *)
Definition pending (k : pc) : list ApplyResult :=
  match k with PcApply _ out => out | _ => [] end.
Definition outputs (p : proc) : list ApplyResult := ready_queue (node p) ++ pending (ctl p).

(** [a] is the result of a committed entry of the log of [n]. *)
Definition committed_result (n : Raft) (a : ApplyResult) : Prop :=
  ∃ e, 1 ≤ index a ≤ commit_index_ n ∧ vat (log_ n) (index a - 1) = Some e ∧
       a = mkApplyResult true (command e) (index a).

Lemma results_of_elem log a :
  a ∈ results_of log → ∃ e, 1 ≤ index a ∧ vat log (index a - 1) = Some e ∧
                            a = mkApplyResult true (command e) (index a).
Proof.
  intros (k & Hk)%list_elem_of_lookup. unfold results_of in Hk.
  rewrite list_lookup_imap in Hk. apply fmap_Some in Hk as (e & He & ->).
  exists e. cbn [index]. split; [lia|]. split; [|done]. unfold vat.
  by replace (N.to_nat (N.of_nat k + 1 - 1)) with k by lia.
Qed.

Lemma results_between_elem log la ci a :
  a ∈ results_between log la ci →
  ∃ e, 1 ≤ index a ≤ ci ∧ vat log (index a - 1) = Some e ∧
       a = mkApplyResult true (command e) (index a).
Proof.
  unfold results_between. rewrite take_results_of. intros Ha.
  assert (a ∈ results_of (take (N.to_nat ci) log)) as (e & Hi & He & Ea)%results_of_elem.
  { rewrite <- (take_drop (N.to_nat la)). apply elem_of_app. by right. }
  exists e. unfold vat in *. apply lookup_take_Some in He as [He Hlt].
  split_and!; [done|lia|done|done].
Qed.

(** What node [i] newly outputs in a step is committed in its log. *)
Definition outputs_from (c : cluster) (i : N) (p' : proc) : Prop :=
  ∃ p, procs c !! i = Some p ∧
       ∀ a, a ∈ outputs p' → a ∈ outputs p ∨ committed_result (node p') a.

(** A step that does not apply anything. *)
Lemma outputs_quiet c i p n' k rpc :
  procs c !! i = Some p → ready_queue n' = ready_queue (node p) →
  pending k = [] ∨ k = ctl p → outputs_from c i (mkProc n' k rpc).
Proof.
  intros Hi Hq Hk. exists p. split; [done|]. intros a. unfold outputs. simpl. rewrite Hq.
  destruct Hk as [->| ->]; [|by left]. rewrite app_nil_r. intros Ha. left.
  apply elem_of_app. by left.
Qed.

Lemma outputs_process c i p cv calls r now n' out :
  cluster_inv c → procs c !! i = Some p → ctl p = PcHbRpc cv calls →
  process_replies (if_slot <$> calls) r now (node p) = Some (n', out) →
  outputs_from c i (mkProc n' (PcApply cv out) (next_rpc p)).
Proof.
  intros Hinv Hi Hctl Hproc. exists p. split; [done|]. unfold outputs. rewrite Hctl. simpl.
  intros a. rewrite elem_of_app, app_nil_r.
  destruct (decide (role_ (node p) = LEADER)) as [Hr|Hr].
  - pose proof (replies_spec c i p Hinv Hi cv calls r now Hctl Hr) as Hs. rewrite Hproc in Hs.
    destruct Hs as (_ & _ & [[Hdep ->]|Hrp]).
    + destruct Hdep as (_ & _ & _ & _ & _ & _ & _ & -> & _). by intros [?|[]%not_elem_of_nil]; left.
    + rewrite (rp_queue _ _ _ Hrp). intros [Ha|Ha]; [by left|right].
      rewrite (rp_out _ _ _ Hrp) in Ha. unfold committed_result. rewrite (rp_log _ _ _ Hrp).
      by eapply results_between_elem.
  - unfold process_replies in Hproc. rewrite decide_False in Hproc by done. simplify_eq.
    by intros [?|[]%not_elem_of_nil]; left.
Qed.

Lemma outputs_append c i p req r n' rep k rpc :
  cluster_inv c → procs c !! i = Some p →
  vsize (log_ (node p)) + vsize (entries req) + 1 < pow64 →
  handle_append_entries req r (node p) = Some (n', rep) → k = ctl p →
  outputs_from c i (mkProc n' k rpc).
Proof.
  intros Hinv Hi Hfit Hh ->. pose proof (pi_base _ _ _ _ _ (ci_procs c Hinv i p Hi)) as Hb.
  destruct (follow_leader_frame req r (node p)) as (_ & _ & _ & Hq & _).
  rewrite handle_append_entries_eq in Hh by (done || apply Hb).
  destruct (aeq_term req <? _) in Hh; simplify_eq; [by apply (outputs_quiet c i p); auto|].
  destruct (prev_ok _ _) in Hh; simplify_eq; [|by apply (outputs_quiet c i p); auto].
  exists p. split; [done|]. unfold outputs. intros a. simpl. rewrite !elem_of_app.
  intros [[Ha|Ha]|Ha]; [by left; left| |by left; right]. right.
  by eapply results_between_elem.
Qed.

Lemma outputs_apply c i p cv a to_apply :
  procs c !! i = Some p → ctl p = PcApply cv (a :: to_apply) →
  outputs_from c i (mkProc (apply a (node p)) (PcApply cv to_apply) (next_rpc p)).
Proof.
  intros Hi Hctl. exists p. split; [done|]. unfold outputs. rewrite Hctl. simpl.
  intros b. set_solver.
Qed.

(** Every step moves one node, whose new outputs are committed in its log. *)
Lemma step_outputs l c c' :
  cluster_inv c → disciplined l c = true → step l c = Next c' →
  ∃ p', procs c' = <[actor l := p']> (procs c) ∧ outputs_from c (actor l) p'.
Proof.
  intros Hinv Hd Hstep. unfold step, disciplined in *.
  destruct (procs c !! actor l) as [p|] eqn:Hi; [|done].
  pose proof (pi_base _ _ _ _ _ (ci_procs c Hinv _ _ Hi)) as Hb.
  assert (∀ n' k rpc, ready_queue n' = ready_queue (node p) → pending k = [] ∨ k = ctl p →
    ∃ p', <[actor l := mkProc n' k rpc]> (procs c) = <[actor l := p']> (procs c) ∧
          outputs_from c (actor l) p') as Hquiet.
  { intros n' k rpc Hq Hk. eexists. split; [done|]. by eapply outputs_quiet. }
  destruct l; cbn [actor] in *; cbn [thread_step] in Hstep;
    try (destruct (ctl p) eqn:Hctl; try done; case_guards; simplify_eq; by apply Hquiet; auto).
  - destruct (ctl p) eqn:Hctl; try done. destruct (is_dead _); [done|].
    unfold run_top in Hstep. case_decide; simplify_eq; apply Hquiet; auto.
  - destruct (ctl p) eqn:Hctl; try done. unfold start_election in Hstep. case_guards.
    + destruct (vote_request _) in Hstep; simplify_eq. apply Hquiet; auto.
    + apply Hquiet; auto.
  - destruct (ctl p) eqn:Hctl; try done. destruct todo; simplify_eq; apply Hquiet; auto.
  - destruct (ctl p) eqn:Hctl; try done. destruct (last_term _); simplify_eq.
    apply Hquiet; auto.
  - destruct (ctl p) eqn:Hctl; try done. unfold finish_election in Hstep.
    case_guards; simplify_eq; apply Hquiet; auto.
  - destruct (ctl p) eqn:Hctl; try done.
    destruct (heartbeat_defined c i p cv Hinv Hi Hctl) as (n' & qs & Hq & Hs).
    assert (ready_queue n' = ready_queue (node p)) as Hrq by (by rewrite Hs).
    rewrite Hq in Hstep. destruct qs as [qs|].
    + destruct (post_calls n' (next_rpc p) qs). simplify_eq. apply Hquiet; auto.
    + simplify_eq. apply Hquiet; [done|]. left. by destruct cv.
  - destruct (ctl p) eqn:Hctl; try done. destruct (forallb if_done calls); [|done].
    destruct (process_replies _ _ _ _) as [[n' out]|] eqn:Hp; simplify_eq.
    eexists. split; [done|]. by eapply outputs_process.
  - destruct (ctl p) eqn:Hctl; try done. destruct to_apply; simplify_eq.
    + apply Hquiet; [done|]. left. by destruct cv.
    + eexists. split; [done|]. by eapply outputs_apply.
  - unfold deliver_vote in Hstep. case_bool_decide; [|done].
    destruct (handle_request_vote req r (node p)) as [[n' rep]|] eqn:Hh; simplify_eq.
    apply Hquiet; [|by right]. rewrite handle_request_vote_eq in Hh by apply Hb.
    unfold adopt_term in Hh. by case_guards.
  - unfold deliver_append in Hstep. case_bool_decide; [|done]. apply N.ltb_lt in Hd.
    destruct (handle_append_entries req r (node p)) as [[n' rep]|] eqn:Hh; simplify_eq.
    eexists. split; [done|]. by eapply outputs_append.
  - simplify_eq. apply Hquiet; [|by right]. unfold propose. by case_decide.
Qed.


(** ** Executions of the cluster *)

Lemma reachable_commits configs r c :
  full_mesh configs → reachable configs r c → commits_in_log c.
Proof.
  intros Hmesh Hreach i p Hi. destruct (reachable_inv configs r c Hmesh Hreach) as [_ Ha].
  exact (spec_commit_bound _ _ _ Ha (abs_lookup c i p Hi)).
Qed.

Section execution.
Context (configs : list Config) (r : N) (Hmesh : full_mesh configs).

Lemma step_spec c l c' :
  reachable configs r c → disciplined l c = true → step l c = Next c' →
  areachable (abs c) ∧ asteps (abs c) (abs c').
Proof using Hmesh.
  intros Hreach Hd Hs. destruct (reachable_inv configs r c Hmesh Hreach) as [Hinv Ha].
  split; [done|]. by apply (step_refines l c c').
Qed.

(** A committed result stays the result of the same node's log. *)
Lemma committed_result_stays c c' i p p' a :
  areachable (abs c) → asteps (abs c) (abs c') →
  procs c !! i = Some p → procs c' !! i = Some p' →
  committed_result (node p) a → committed_result (node p') a.
Proof using.
  intros Ha Hst Hp Hp' (e & Hr & He & Ea).
  pose proof (abs_lookup c i p Hp) as Hx. pose proof (abs_lookup c' i p' Hp') as Hx'.
  pose proof (spec_commit_mono _ _ Ha Hst i i _ _ Hx Hx' eq_refl) as Hle.
  pose proof (spec_committed_agree _ _ Ha Hst i i _ _ Hx Hx' (N.to_nat (index a))) as Heq.
  simpl in *. exists e. split_and!; [lia|lia| |done]. unfold vat in *.
  rewrite <- (lookup_take_lt _ (N.to_nat (index a))) in He by lia.
  rewrite Heq in He by lia. by apply lookup_take_Some in He as [? _].
Qed.

Lemma reachable_outputs c :
  reachable configs r c → ∀ i p a, procs c !! i = Some p → a ∈ outputs p →
  committed_result (node p) a.
Proof using Hmesh.
  induction 1 as [|l c c' Hreach IH Hd Hs]; intros i p' a Hp' Hin.
  { destruct Hmesh as [Hnd _]. apply boot_lookup in Hp' as (cfg & _ & _ & ->); [|done].
    by apply not_elem_of_nil in Hin. }
  destruct (reachable_inv configs r c Hmesh Hreach) as [Hinv Ha].
  destruct (step_spec c l c' Hreach Hd Hs) as [_ Hst].
  destruct (step_outputs l c c' Hinv Hd Hs) as (q & Hc' & p & Hp & Hout).
  destruct (decide (i = actor l)) as [->|Hne].
  - assert (p' = q) as -> by (rewrite Hc', lookup_insert_eq in Hp'; by simplify_eq).
    destruct (Hout a Hin) as [Hold|]; [|done]. eapply (committed_result_stays c c'); try done.
    by eapply IH.
  - assert (procs c !! i = Some p') as Hp0 by (by rewrite Hc', lookup_insert_ne in Hp').
    by eapply IH.
Qed.

(** Committed results of two nodes, at two points of an execution. *)
Lemma committed_results_agree c ls c' i j p q a b :
  reachable configs r c → run_disciplined ls c = Some c' →
  procs c !! i = Some p → procs c' !! j = Some q →
  committed_result (node p) a → committed_result (node q) b → index a = index b → a = b.
Proof using Hmesh.
  intros Hreach Hrun Hp Hq (e & Hr & He & ->) (f & Hr' & Hf & ->) Hab. simpl in Hab.
  destruct (reachable_inv configs r c Hmesh Hreach) as [Hinv Ha].
  destruct (run_refines ls c c' Hinv Hrun) as [_ Hst].
  pose proof (spec_committed_agree _ _ Ha Hst i j _ _ (abs_lookup c i p Hp) (abs_lookup c' j q Hq)
                (N.to_nat (index a))) as Heq. simpl in *. unfold vat in *.
  rewrite <- (lookup_take_lt _ (N.to_nat (index a))) in He by lia.
  rewrite Heq in He by lia. apply lookup_take_Some in He as [He _]. rewrite Hab in He. congruence.
Qed.
End execution.

(** ** The theorems *)

(** C1: state machine safety: the results that any two nodes hand to their state
    machines, at any two points of a disciplined execution, agree: one index, one
    result. *)
Theorem state_machine_safety configs r c ls c' i j p q a b :
  full_mesh configs → reachable configs r c → run_disciplined ls c = Some c' →
  procs c !! i = Some p → procs c' !! j = Some q →
  a ∈ outputs p → b ∈ outputs q → index a = index b → a = b.
Proof.
  intros Hmesh Hreach Hrun Hp Hq Ha Hb. assert (reachable configs r c') as Hreach'
    by (by eapply run_disciplined_reachable).
  apply (committed_results_agree configs r Hmesh c ls c' i j p q); try done.
  - by apply (reachable_outputs configs r Hmesh c Hreach i).
  - by apply (reachable_outputs configs r Hmesh c' Hreach' j).
Qed.

(** C2: leader completeness: over a disciplined execution, what a node has committed is, from
    then on, in the log of every leader of its term or a later one. *)
Theorem leader_completeness configs r c ls c' i j p q :
  full_mesh configs → reachable configs r c → run_disciplined ls c = Some c' →
  procs c !! i = Some p → procs c' !! j = Some q →
  role_ (node q) = LEADER → current_term_ (node p) ≤ current_term_ (node q) →
  take (N.to_nat (commit_index_ (node p))) (log_ (node p)) `prefix_of` log_ (node q).
Proof.
  intros Hmesh Hreach Hrun Hp Hq Hr Ht.
  destruct (reachable_inv configs r c Hmesh Hreach) as [Hinv Ha].
  destruct (run_refines ls c c' Hinv Hrun) as [_ Hst].
  exact (spec_leader_complete _ _ Ha Hst i j _ _ (abs_lookup c i p Hp) (abs_lookup c' j q Hq) Hr Ht).
Qed.

(** C3: log matching: in every state of a disciplined execution, if the logs of two nodes
    have entries of one term at one index, they are equal up to that index.  (After the
    schedules of [Races.v] two leaders of one term can append different entries.) *)
Theorem log_matching configs r c i j p q k e f :
  full_mesh configs → reachable configs r c →
  procs c !! i = Some p → procs c !! j = Some q →
  log_ (node p) !! k = Some e → log_ (node q) !! k = Some f → term e = term f →
  take (S k) (log_ (node p)) = take (S k) (log_ (node q)).
Proof.
  intros Hmesh Hreach Hp Hq.
  destruct (reachable_inv configs r c Hmesh Hreach) as [_ Ha].
  exact (spec_log_matching _ i j _ _ k e f Ha (abs_lookup c i p Hp) (abs_lookup c j q Hq)).
Qed.

(** C7: committed entries are stable: over a disciplined execution the commit index of
    a node does not decrease, lies in its log, and what it has committed stays in the
    log unchanged. *)
Theorem committed_stable configs r c ls c' i p p' :
  full_mesh configs → reachable configs r c → run_disciplined ls c = Some c' →
  procs c !! i = Some p → procs c' !! i = Some p' →
  let ci := commit_index_ (node p) in
  ci ≤ commit_index_ (node p') ≤ vsize (log_ (node p')) ∧
  take (N.to_nat ci) (log_ (node p')) = take (N.to_nat ci) (log_ (node p)).
Proof.
  intros Hmesh Hreach Hrun Hp Hp'.
  destruct (reachable_inv configs r c Hmesh Hreach) as [Hinv Ha].
  destruct (run_refines ls c c' Hinv Hrun) as [_ Hst].
  pose proof (abs_lookup c i p Hp) as Hx. pose proof (abs_lookup c' i p' Hp') as Hx'.
  pose proof (spec_commit_mono _ _ Ha Hst i i _ _ Hx Hx' eq_refl) as Hle.
  pose proof (spec_committed_agree _ _ Ha Hst i i _ _ Hx Hx') as Heq. simpl in *.
  assert (commits_in_log c') as Hc'.
  { eapply reachable_commits; [done|]. by eapply run_disciplined_reachable. }
  split_and!; [done|by apply (Hc' i)|]. symmetry. apply Heq; lia.
Qed.

(** C6: no disciplined step of a reachable cluster is undefined behaviour: no access
    leaves a vector, in no critical section of any thread. *)
Theorem no_undefined_behaviour configs r c l :
  full_mesh configs → reachable configs r c → disciplined l c = true → step l c ≠ Undefined.
Proof.
  intros Hmesh Hreach Hd. destruct (reachable_inv configs r c Hmesh Hreach) as [Hinv _].
  apply step_defined; [done| |done]. by eapply reachable_commits.
Qed.

(** ** Instances *)

(** Node 0 queues its commit of ["a"], node 1 learns of it in the next round. *)
Definition commit_told : list label :=
  [LApply 0; LApply 0; LTop 0 (ms 10)] ++
  beat 0 1 5 4 (mkAppendEntriesRequest 1 0 1 1 [] 1) (ms 10).

Lemma state_machine_safety_witness :
  ∃ c c' p q, run_disciplined commit_a (boot local3 0) = Some c ∧
    run_disciplined commit_told c = Some c' ∧
    procs c !! 0 = Some p ∧ procs c' !! 1 = Some q ∧
    outputs p = [mkApplyResult true "a" 1] ∧
    ∀ b, b ∈ outputs q → index b = 1 → b = mkApplyResult true "a" 1.
Proof.
  eexists _, _, _, _. split; [vm_compute; reflexivity|]. split; [vm_compute; reflexivity|].
  split; [reflexivity|]. split; [reflexivity|]. split; [reflexivity|].
  intros b Hb Hi. symmetry.
  eapply (state_machine_safety local3 0 _ commit_told _ 0 1 _ _
           (mkApplyResult true "a" 1) b local3_mesh);
    [apply (local3_reachable commit_a); vm_compute; reflexivity|vm_compute; reflexivity|
     reflexivity|reflexivity| |exact Hb|symmetry; exact Hi].
  by left.
Defined.

Lemma leader_completeness_witness :
  ∃ c c' p q, run_disciplined commit_a (boot local3 0) = Some c ∧
    run_disciplined (drop (length commit_a) overtaken) c = Some c' ∧
    procs c !! 0 = Some p ∧ procs c' !! 1 = Some q ∧ current_term_ (node q) = 2 ∧
    take (N.to_nat (commit_index_ (node p))) (log_ (node p)) = [entry_a] ∧
    take (N.to_nat (commit_index_ (node p))) (log_ (node p)) `prefix_of` log_ (node q).
Proof.
  eexists _, _, _, _. split; [vm_compute; reflexivity|]. split; [vm_compute; reflexivity|].
  split; [reflexivity|]. split; [reflexivity|]. split; [reflexivity|]. split; [reflexivity|].
  eapply (leader_completeness local3 0 _ (drop (length commit_a) overtaken) _ 0 1 _ _ local3_mesh);
    [apply (local3_reachable commit_a); vm_compute; reflexivity|vm_compute; reflexivity|
     reflexivity|reflexivity|reflexivity|vm_compute; discriminate].
Defined.

Lemma log_matching_witness :
  ∃ c p q, run_disciplined overtaken (boot local3 0) = Some c ∧
    procs c !! 0 = Some p ∧ procs c !! 1 = Some q ∧
    take 2 (log_ (node p)) = take 2 (log_ (node q)).
Proof.
  eexists _, _, _. split; [vm_compute; reflexivity|]. split; [reflexivity|].
  split; [reflexivity|].
  eapply (log_matching local3 0 _ 0 1 _ _ 1%nat entry_b entry_b local3_mesh);
    [apply (local3_reachable overtaken); vm_compute; reflexivity|reflexivity..].
Defined.

Lemma committed_stable_witness :
  ∃ c c' p p', run_disciplined commit_a (boot local3 0) = Some c ∧
    run_disciplined (drop (length commit_a) overtaken) c = Some c' ∧
    procs c !! 0 = Some p ∧ procs c' !! 0 = Some p' ∧
    take 1 (log_ (node p)) = [entry_a] ∧
    let ci := commit_index_ (node p) in
    ci ≤ commit_index_ (node p') ≤ vsize (log_ (node p')) ∧
    take (N.to_nat ci) (log_ (node p')) = take (N.to_nat ci) (log_ (node p)).
Proof.
  eexists _, _, _, _. split; [vm_compute; reflexivity|]. split; [vm_compute; reflexivity|].
  split; [reflexivity|]. split; [reflexivity|]. split; [reflexivity|].
  eapply (committed_stable local3 0 _ (drop (length commit_a) overtaken) _ 0 _ _ local3_mesh);
    [apply (local3_reachable commit_a); vm_compute; reflexivity|vm_compute; reflexivity|
     reflexivity|reflexivity].
Defined.

Lemma no_undefined_behaviour_witness :
  ∃ c, run_disciplined commit_a (boot local3 0) = Some c ∧
       disciplined (LApply 0) c = true ∧ step (LApply 0) c ≠ Undefined.
Proof.
  eexists. split; [vm_compute; reflexivity|]. split; [reflexivity|].
  eapply (no_undefined_behaviour local3 0 _ (LApply 0) local3_mesh);
    [apply (local3_reachable commit_a); vm_compute; reflexivity|reflexivity].
Defined.
