(* ===== verification/Partition.v ===== *)
(** Loss of the majority: what the interceptor of [NetInterceptor.v] does to the
    cluster of [Cluster.v].

    From some point on, the interceptor of node [i] cuts the calls of [i] to some of
    its peers: a call that is hijacked fails, so it is never answered.  When the peers
    that [i] still reaches are too few for a majority, [i] wins no election of a later
    term and commits, by its own count, no entry that it appends from then on. *)
From S2P Require Import Prelude Types ConfigGen NetInterceptor RaftState RaftNode RaftNodeFacts.
From S2P Require Import Cluster RaftSpec Refinement RefinementSteps Simulation.
From S2P Require Import LogSpec LogInv LogSafety Races Safety Replication.

#[local] Open Scope N_scope.

Section partition.
Context (net_i : NetInterceptor) (i : N).

(** Does a call of node [i] to [j] get through? *)
Definition reached (j : N) : bool := negb (Intercept true (create_context i j) net_i).

(** The answers that the label takes from the network answer calls that got
    through; calls numbered below [k0] were made before the cut. *)
Definition passes (k0 : N) (l : label) (c : cluster) : bool :=
  match procs c !! i with
  | None => true
  | Some p =>
      match l, ctl p with
      | LVoteReply j _, PcVoteRpc _ _ peer rpc _ _ =>
          negb (j =? i) || (rpc <? k0) || reached peer
      | LHbReply j k _, PcHbRpc _ calls =>
          negb (j =? i) || (k <? k0) ||
          forallb (λ x, negb (if_rpc x =? k) || reached (ps_peer_id (if_slot x))) calls
      | _, _ => true
      end
  end.

(** A disciplined schedule under the cut. *)
Fixpoint run_cut (k0 : N) (ls : list label) (c : cluster) : option cluster :=
  match ls with
  | [] => Some c
  | l :: ls =>
      if disciplined l c && passes k0 l c then
        match step l c with Next c' => run_cut k0 ls c' | _ => None end
      else None
  end.

(** The nodes on the side of [i], itself included. *)
Definition side (n : Raft) : N := 1 + N.of_nat (length (filter (λ j, reached j = true) (peers_ n).*1)).

(** ** The invariant of the cut-off node *)

Section invariant.
Context (ps : list N) (k0 T0 L0 : N).

(** [votes] counts the candidate and peers that were reached, out of those that are
    not in [rest]. *)
Definition tally (votes : N) (rest : list N) : Prop :=
  ∃ asked, ps = asked ++ rest ∧
           votes ≤ 1 + N.of_nat (length (filter (λ j, reached j = true) asked)).

Definition few_votes (n : Raft) (k : pc) : Prop :=
  match k with
  | PcVote votes maj todo => maj = majority n ∧ tally votes todo
  | PcReqTerm votes maj peer _ todo | PcReqIndex votes maj peer _ _ todo =>
      maj = majority n ∧ tally votes (peer :: todo)
  | PcVoteRpc votes maj peer rpc _ todo =>
      maj = majority n ∧ tally votes (peer :: todo) ∧ k0 ≤ rpc
  | PcVoteReply votes maj peer _ todo | PcVoteTerm votes maj peer _ _ todo =>
      maj = majority n ∧ tally votes (peer :: todo) ∧ reached peer = true
  | PcFinish votes maj => maj = majority n ∧ votes ≤ side n
  | _ => False
  end.

(** A call to a cut-off peer: it carries no new entries or it is not answered. *)
Definition cut_call (x : inflight) : Prop :=
  reached (ps_peer_id (if_slot x)) = false →
  (if_done x = false ∨ ps_rpc_ok (if_slot x) = true →
   ps_prev_idx (if_slot x) + ps_entries_sent (if_slot x) ≤ L0) ∨
  (k0 ≤ if_rpc x ∧ ps_rpc_ok (if_slot x) = false).

Definition old_match (j m : N) : Prop := reached j = false → m ≤ L0.

Definition stuck (n : Raft) (k : pc) : Prop :=
  match k with
  | PcBecome => True
  | PcHbRpc _ calls => map_Forall old_match (matchIndex_ n) ∧ Forall cut_call calls
  | _ => map_Forall old_match (matchIndex_ n)
  end.

Record isolated (p : proc) : Prop := {
  is_rpc : k0 ≤ next_rpc p;
  is_peers : (peers_ (node p)).*1 = ps;
  is_cand : role_ (node p) = CANDIDATE →
    current_term_ (node p) ≤ T0 ∨ few_votes (node p) (ctl p);
  is_lead : role_ (node p) = LEADER → stuck (node p) (ctl p) }.

Lemma side_peers n n' : peers_ n' = peers_ n → side n' = side n ∧ majority n' = majority n.
Proof. intros H. unfold side, majority. by rewrite H. Qed.

Lemma few_votes_calm n n' k : peers_ n' = peers_ n → few_votes n k → few_votes n' k.
Proof. intros Hp. destruct (side_peers n n' Hp) as [Hs Hm]. destruct k; simpl; by rewrite ?Hs, ?Hm. Qed.

Lemma isolated_calm p n' :
  isolated p → calm (node p) n' → isolated (mkProc n' (ctl p) (next_rpc p)).
Proof.
  intros [H1 H2 H3 H4] Hc. split; cbn [node ctl next_rpc].
  - done.
  - by rewrite (cm_peers _ _ Hc).
  - intros (Hr & Ht & _)%(cm_cand _ _ Hc). rewrite Ht.
    destruct (H3 Hr) as [|Hf]; [by left|right]. by eapply few_votes_calm; [apply Hc|].
  - intros (Hr & _)%(cm_lead _ _ Hc). specialize (H4 Hr). unfold stuck in *.
    by rewrite (cm_match _ _ Hc).
Qed.

(** The thread moves and leaves its node alone. *)
Lemma isolated_goto p k rpc :
  isolated p → k0 ≤ rpc → (few_votes (node p) (ctl p) → few_votes (node p) k) →
  (role_ (node p) = LEADER → stuck (node p) (ctl p) → stuck (node p) k) →
  isolated (mkProc (node p) k rpc).
Proof. intros [H1 H2 H3 H4] Hrpc Hv Hl. split; cbn [node ctl next_rpc]; naive_solver. Qed.

(** The node is demoted, wherever its thread goes. *)
Lemma isolated_follower p n' k rpc :
  isolated p → k0 ≤ rpc → peers_ n' = peers_ (node p) → role_ n' = FOLLOWER →
  isolated (mkProc n' k rpc).
Proof. intros [H1 H2 H3 H4] Hrpc Hp Hr. split; cbn [node ctl next_rpc]; congruence. Qed.

Lemma tally_start : tally 1 ps.
Proof. exists []. simpl. split; [done|lia]. Qed.

Lemma tally_skip votes peer rest : tally votes (peer :: rest) → tally votes rest.
Proof.
  intros (asked & E & Hv). exists (asked ++ [peer]). split; [by rewrite <- app_assoc|].
  rewrite filter_app, length_app. lia.
Qed.

Lemma tally_count votes peer rest :
  reached peer = true → tally votes (peer :: rest) → tally (add64 votes 1) rest.
Proof.
  intros Hr (asked & E & Hv). exists (asked ++ [peer]). split; [by rewrite <- app_assoc|].
  rewrite filter_app, filter_cons_True, length_app by done. simpl.
  assert (add64 votes 1 ≤ votes + 1) by apply N.Div0.mod_le. lia.
Qed.

Lemma tally_side n votes rest :
  (peers_ n).*1 = ps → tally votes rest → votes ≤ side n.
Proof.
  intros Hp (asked & E & Hv). unfold side. rewrite Hp, E, filter_app, length_app. lia.
Qed.

(** ** Steps of the cut-off node *)

(** What a step of node [i] leaves. *)
Definition stays_isolated (c c' : cluster) : Prop :=
  ∃ p' evs, procs c' = <[i := p']> (procs c) ∧ isolated p' ∧
    history c' = evs ++ history c ∧ ∀ t lg, EElected i t lg ∈ evs → t ≤ T0.

Lemma stays_quiet c p' : isolated p' → stays_isolated c (upd i p' c).
Proof.
  intros Hp. exists p', []. split_and!; try done. by intros ? ? ?%not_elem_of_nil.
Qed.

Context (Hminor : ∀ n, (peers_ n).*1 = ps → side n < majority n).

Section steps.
Context (c : cluster) (p : proc).
Context (Hinv : cluster_inv c) (Hi : procs c !! i = Some p) (Hiso : isolated p).

#[local] Abbreviation n := (node p).

Lemma vote_steps_isolated l c' :
  match l with
  | LVote j | LReadIndex j | LSendVote j | LVoteReply j _ | LVoteFail j | LReadMyTerm j => j = i
  | _ => False
  end →
  passes k0 l c = true → thread_step l i p c = Next c' → stays_isolated c c'.
Proof using Hinv Hi Hiso.
  intros Hl Hpass Hstep. unfold passes in Hpass. rewrite Hi in Hpass.
  pose proof (is_rpc _ Hiso) as Hrpc. pose proof (is_peers _ Hiso) as Hps.
  destruct l; try done; subst; simpl in Hstep, Hpass; destruct (ctl p) eqn:Hctl; try done.
  - destruct todo as [|peer todo]; simplify_eq; apply stays_quiet, isolated_goto; try done;
      rewrite Hctl; simpl; try done.
    + intros [? Ht]. split; [done|]. by eapply tally_side.
  - simplify_eq. apply stays_quiet, isolated_goto; try done; by rewrite Hctl.
  - destruct (last_term (log_ n)); [|done]. simplify_eq.
    eexists _, []. split_and!; [done| |done|by intros ? ? ?%not_elem_of_nil].
    apply isolated_goto; try done; [lia|..]; rewrite Hctl; simpl; naive_solver.
  - case_bool_decide; [|done]. simplify_eq. rewrite N.eqb_refl in Hpass. simpl in Hpass.
    apply stays_quiet, isolated_goto; try done; rewrite Hctl; simpl; [|done].
    intros (? & ? & Hk). split_and!; try done. apply orb_true_iff in Hpass as [Hlt|]; [|done].
    apply N.ltb_lt in Hlt. lia.
  - simplify_eq. apply stays_quiet, isolated_goto; try done; rewrite Hctl; simpl; [|done].
    intros (? & ? & _). split; [done|]. by eapply tally_skip.
  - simplify_eq. apply stays_quiet, isolated_goto; try done; by rewrite Hctl.
Qed.

Lemma decide_isolated r c' :
  thread_step (LDecide i r) i p c = Next c' → stays_isolated c c'.
Proof using Hi Hiso.
  intros Hstep. simpl in Hstep. pose proof (is_rpc _ Hiso) as Hrpc.
  pose proof (is_peers _ Hiso) as Hps. destruct (ctl p) eqn:Hctl; try done.
  unfold start_election in Hstep. destruct (negb _ && negb _).
  - destruct (vote_request _) as [req|] in Hstep; [|done]. simplify_eq.
    eexists _, [_]. split_and!; [done| |done|by intros ? ? [?|?%not_elem_of_nil]%elem_of_cons].
    split; cbn [node ctl next_rpc]; try done. intros _. right. simpl. split; [done|].
    rewrite Hps. apply tally_start.
  - simplify_eq. apply stays_quiet, isolated_goto; try done; by rewrite Hctl.
Qed.

Lemma count_isolated r c' :
  thread_step (LVoteCount i r) i p c = Next c' → stays_isolated c c'.
Proof using Hi Hiso.
  intros Hstep. simpl in Hstep. pose proof (is_rpc _ Hiso) as Hrpc.
  pose proof (is_peers _ Hiso) as Hps. destruct (ctl p) eqn:Hctl; try done.
  destruct (my_term <? rvr_term rep); simplify_eq.
  { by apply stays_quiet, (isolated_follower p). }
  assert (few_votes n (ctl p) → maj = majority n ∧ tally votes (peer :: todo) ∧ reached peer = true)
    as Hfew by (by rewrite Hctl).
  destruct (voteGranted rep); simplify_eq; apply stays_quiet, isolated_goto; try done.
  - intros (? & Ht & Hr)%Hfew. pose proof (tally_count _ _ _ Hr Ht) as Hc.
    destruct (maj <=? _); simpl; [|done]. split; [done|]. by eapply tally_side.
  - intros _ Hs. rewrite Hctl in Hs. by destruct (maj <=? _).
  - intros (? & Ht & Hr)%Hfew. simpl. split; [done|]. by eapply tally_skip.
  - by rewrite Hctl.
Qed.

Lemma finish_isolated r c' :
  thread_step (LFinish i r) i p c = Next c' → stays_isolated c c'.
Proof using Hi Hiso Hminor.
  intros Hstep. simpl in Hstep. pose proof (is_rpc _ Hiso) as Hrpc.
  pose proof (is_peers _ Hiso) as Hps. destruct (ctl p) eqn:Hctl; try done.
  unfold finish_election in Hstep. case_bool_decide as Hrole; simpl in Hstep.
  2:{ simplify_eq. apply stays_quiet. pose proof Hiso as [_ _ _ Hlead].
      split; cbn [node ctl next_rpc]; try done. by rewrite Hctl in Hlead. }
  destruct (N.leb_spec maj votes) as [Hle|Hgt]; simplify_eq.
  - eexists _, [_]. split_and!; [done|by split; cbn [node ctl next_rpc]|done|].
    intros t lg [[= -> ->]|?%not_elem_of_nil]%elem_of_cons; [|done].
    destruct (is_cand _ Hiso Hrole) as [|Hf]; [done|]. rewrite Hctl in Hf. simpl in Hf.
    destruct Hf as [-> Hv]. specialize (Hminor n Hps). lia.
  - by apply stays_quiet, (isolated_follower p).
Qed.

(** A new leader starts with nothing replicated. *)
Lemma become_isolated now c' :
  thread_step (LBecome i now) i p c = Next c' → stays_isolated c c'.
Proof using Hinv Hi Hiso.
  intros Hstep. simpl in Hstep. destruct (ctl p) eqn:Hctl; try done. simplify_eq.
  pose proof (pi_base _ _ _ _ _ (ci_procs c Hinv i p Hi)) as Hb.
  apply stays_quiet. destruct Hiso as [H1 H2 H3 _]. rewrite Hctl in H3.
  split; cbn [node ctl next_rpc become_leader]; try done.
  intros _ j m Hj. simpl in Hj. rewrite lookup_reset in Hj. case_decide as Hp.
  - simplify_eq. intros _. lia.
  - apply (bi_match _ _ _ Hb) in Hj. by apply (bi_peers _ _ _ Hb) in Hj.
Qed.

Lemma post_calls_fresh m qs : ∀ k x,
  x ∈ (post_calls m k qs).1 → k ≤ if_rpc x ∧ ps_rpc_ok (if_slot x) = false.
Proof.
  induction qs as [|q qs IH]; intros k x Hx; simpl in Hx; [by apply not_elem_of_nil in Hx|].
  destruct (post_calls m (k + 1) qs) as [calls ms] eqn:Hpost.
  apply elem_of_cons in Hx as [->|Hx].
  - simpl. split; [lia|]. unfold result_slot. by case_bool_decide.
  - specialize (IH (k + 1) x). rewrite Hpost in IH. destruct (IH Hx). split; [lia|done].
Qed.

Lemma heartbeat_isolated c' :
  thread_step (LHb i) i p c = Next c' → stays_isolated c c'.
Proof using Hinv Hi Hiso.
  intros Hstep. simpl in Hstep. pose proof (is_rpc _ Hiso) as Hrpc.
  destruct (ctl p) eqn:Hctl; try done.
  destruct (heartbeat_defined c i p cv Hinv Hi Hctl) as (n' & qs & Hq & Hs).
  rewrite Hq in Hstep. destruct Hiso as [H1 H2 H3 H4]. rewrite Hctl in H3, H4.
  assert (role_ n' = role_ n ∧ peers_ n' = peers_ n ∧ matchIndex_ n' = matchIndex_ n ∧
          current_term_ n' = current_term_ n) as (Er & Ep & Em & Et) by (by rewrite Hs).
  destruct qs as [qs|].
  - destruct (post_calls n' (next_rpc p) qs) as [calls ms] eqn:Hpost. simplify_eq.
    eexists _, []. split_and!; [done| |done|by intros ? ? ?%not_elem_of_nil].
    split; cbn [node ctl next_rpc]; [lia|by rewrite Ep|rewrite Er, Et; naive_solver|].
    rewrite Er. intros Hr. simpl. rewrite Em. split; [by apply H4|].
    apply Forall_forall. intros x Hx Hcut.
    pose proof (post_calls_fresh n' qs (next_rpc p) x) as Hf. rewrite Hpost in Hf.
    destruct (Hf Hx) as [Hk Hok]. right. split; [lia|done].
  - simplify_eq. apply stays_quiet. split; cbn [node ctl next_rpc].
    + done.
    + by rewrite Ep.
    + rewrite Er, Et. naive_solver.
    + rewrite Er. intros Hr. specialize (H4 Hr). simpl in H4. destruct cv; simpl; by rewrite Em.
Qed.

(** Completing a call of the round. *)
Lemma complete_cut k reply x :
  (is_Some reply → if_rpc x = k → k < k0 ∨ reached (ps_peer_id (if_slot x)) = true) →
  cut_call x → cut_call (complete k reply x).
Proof.
  intros Hpass Hx. unfold complete. destruct (N.eqb_spec (if_rpc x) k) as [Hk|]; [|done].
  destruct (if_done x) eqn:Hd; [done|]. simpl. unfold cut_call in *. simpl.
  intros Hcut. destruct reply as [rep|]; simpl in *.
  - left. intros _. destruct (Hx Hcut) as [Hold|[Hge _]]; [apply Hold; by left|].
    destruct Hpass as [|Hp]; [done|done|lia|congruence].
  - destruct (Hx Hcut) as [Hold|]; [left|by right]. intros _. apply Hold. by left.
Qed.

Lemma reply_isolated l c' :
  match l with LHbReply j _ _ | LHbFail j _ => j = i | _ => False end →
  passes k0 l c = true → thread_step l i p c = Next c' → stays_isolated c c'.
Proof using Hi Hiso.
  intros Hl Hpass Hstep. unfold passes in Hpass. rewrite Hi in Hpass.
  pose proof (is_rpc _ Hiso) as Hrpc.
  destruct l; try done; subst; simpl in Hstep, Hpass; destruct (ctl p) eqn:Hctl; try done.
  - destruct (existsb _ calls); [|done]. simplify_eq. rewrite N.eqb_refl in Hpass. simpl in Hpass.
    apply stays_quiet, isolated_goto; try done; rewrite Hctl; [done|].
    intros _ [Hm Hc]. split; [done|]. apply Forall_fmap. rewrite Forall_forall in *.
    intros x Hx. apply complete_cut; [|by apply Hc]. intros _ Hk.
    apply orb_true_iff in Hpass as [?%N.ltb_lt|Hall]; [by left|right].
    rewrite forallb_forall in Hall. specialize (Hall x (proj1 (list_elem_of_In _ _) Hx)).
    by rewrite Hk, N.eqb_refl in Hall.
  - simplify_eq. apply stays_quiet, isolated_goto; try done; rewrite Hctl; [done|].
    intros _ [Hm Hc]. split; [done|]. apply Forall_fmap. rewrite Forall_forall in *.
    intros x Hx. apply complete_cut; [|by apply Hc]. by intros [? ?].
Qed.

(** The second section of a round: the replies of cut-off peers are old. *)
Lemma process_isolated_spec cv calls r now :
  ctl p = PcHbRpc cv calls → role_ n = LEADER →
  match process_replies (if_slot <$> calls) r now n with
  | None => True
  | Some (n', out) =>
      map_Forall old_match (matchIndex_ n') ∧ peers_ n' = peers_ n ∧
      (deposed n n' ∨ replies_processed n n' out)
  end.
Proof using Hinv Hi Hiso.
  intros Hctl Hr. pose proof (ci_procs c Hinv i p Hi) as [Hb _ Hl]. rewrite Hctl in Hl.
  destruct (Hl Hr) as (Hnx & _ & Hcalls). destruct Hiso as [_ _ _ Hstuck].
  specialize (Hstuck Hr). rewrite Hctl in Hstuck. destruct Hstuck as [Hm Hcut].
  rewrite Forall_forall in Hcalls, Hcut.
  assert (Forall (result_ok n) (if_slot <$> calls)) as Hok.
  { apply Forall_fmap, Forall_forall. intros x Hx Hrpc.
    destruct (Hcalls x Hx) as [_ Hlive _]. by destruct (Hlive (or_intror Hrpc)) as (? & _ & _ & ?). }
  assert (Forall (result_match old_match) (if_slot <$> calls)) as Hold.
  { apply Forall_fmap, Forall_forall. intros x Hx Hrpc _ Hu.
    destruct (Hcut x Hx Hu) as [Hold|[_ ?]]; [|congruence]. apply Hold. by right. }
  pose proof (process_replies_spec old_match _ r now n Hr (bi_fits _ _ _ Hb) Hnx
    (bi_applied _ _ _ Hb) Hm Hok Hold) as Hspec.
  destruct (process_replies _ _ _ _) as [[n' out]|]; [|done].
  destruct Hspec as (? & _ & [(Hd & _)|Hrp]).
  - split_and!; [done| |by left]. by destruct Hd as (_ & _ & _ & _ & _ & _ & _ & _ & _ & ? & _).
  - split_and!; [done|apply Hrp|by right].
Qed.

Lemma process_isolated r now c' :
  thread_step (LProcess i r now) i p c = Next c' → stays_isolated c c'.
Proof using Hinv Hi Hiso.
  intros Hstep. simpl in Hstep. pose proof (is_rpc _ Hiso) as Hrpc.
  destruct (ctl p) eqn:Hctl; try done. destruct (forallb if_done calls); [|done].
  destruct (decide (role_ n = LEADER)) as [Hr|Hr].
  - pose proof (process_isolated_spec cv calls r now Hctl Hr) as Hspec.
    destruct (process_replies _ _ _ _) as [[n' out]|]; [|done]. simplify_eq.
    destruct Hspec as (Hm & Hp & Hd). apply stays_quiet.
    split; cbn [node ctl next_rpc]; [done|rewrite Hp; apply Hiso| |done].
    intros Hc. exfalso. destruct Hd as [(E & _)|Hrp]; [congruence|].
    destruct (rp_role _ _ _ Hrp) as [[? _]|(? & _)]; congruence.
  - unfold process_replies in Hstep. rewrite decide_False in Hstep by done. simplify_eq.
    apply stays_quiet, isolated_goto; try done. by rewrite Hctl.
Qed.

(** What the round commits is old, when the reached peers are no majority. *)
Lemma process_commits_old cv calls r now n' out :
  ctl p = PcHbRpc cv calls →
  process_replies (if_slot <$> calls) r now n = Some (n', out) →
  commit_index_ n' ≤ N.max (commit_index_ n) L0.
Proof using Hinv Hi Hiso Hminor.
  intros Hctl Hproc. destruct (decide (role_ n = LEADER)) as [Hr|Hr].
  2:{ unfold process_replies in Hproc. rewrite decide_False in Hproc by done. simplify_eq. lia. }
  pose proof (process_isolated_spec cv calls r now Hctl Hr) as Hspec.
  pose proof (replies_spec c i p Hinv Hi cv calls r now Hctl Hr) as Hack.
  rewrite Hproc in Hspec, Hack. destruct Hspec as (Hm & Hp & Hd). destruct Hack as (Hack & _).
  destruct Hd as [(_ & _ & _ & _ & _ & -> & _)|Hrp]; [lia|].
  destruct (rp_committable _ _ _ Hrp) as [->|[_ (e & _ & _ & Hmaj)]]; [lia|].
  destruct (N.le_gt_cases (commit_index_ n') L0) as [|Hgt]; [lia|exfalso].
  pose proof (pi_base _ _ _ _ _ (ci_procs c Hinv i p Hi)) as Hb.
  specialize (Hminor n'). rewrite Hp in Hminor. specialize (Hminor (is_peers _ Hiso)).
  assert (replicated_on n' (commit_index_ n') ≤ side n'); [|lia].
  unfold replicated_on, side. set (f := filter _ (matchIndex_ n')).
  assert (dom f ⊆ list_to_set (filter (λ j, reached j = true) (peers_ n').*1)) as Hsub.
  { intros j (m & Hj)%elem_of_dom. apply map_lookup_filter_Some in Hj as [Hj Hle].
    apply elem_of_list_to_set, list_elem_of_filter. split.
    - destruct (reached j) eqn:Hj'; [done|]. specialize (Hm j m Hj Hj'). simpl in Hle. lia.
    - rewrite Hp. apply (bi_peers _ _ _ Hb). destruct (Hack j m Hj) as (? & ? & _). done. }
  apply subseteq_size in Hsub. rewrite size_dom in Hsub.
  rewrite size_list_to_set in Hsub; [lia|]. apply NoDup_filter. rewrite Hp. apply Hb.
Qed.

(** Handlers beside the thread. *)
Lemma handler_isolated l c' :
  actor l = i →
  match l with LDeliverRV _ _ _ _ _ | LDeliverAE _ _ _ _ _ | LPropose _ _ | LKill _ => True | _ => False end →
  disciplined l c = true → step l c = Next c' → stays_isolated c c'.
Proof using Hinv Hi Hiso.
  clear Hminor. intros Ha Hl Hd Hstep. unfold step, disciplined in *. rewrite Ha, Hi in *.
  pose proof (pi_base _ _ _ _ _ (ci_procs c Hinv i p Hi)) as Hb.
  pose proof (bi_applied _ _ _ Hb) as Hla. pose proof (bi_fits _ _ _ Hb) as Hfit.
  assert (∀ n' ms evs, calm n n' → (∀ t lg, EElected i t lg ∉ evs) →
    stays_isolated c (record evs (send ms (upd i (mkProc n' (ctl p) (next_rpc p)) c)))) as Hgo.
  { intros n' ms evs Hc He. exists (mkProc n' (ctl p) (next_rpc p)), evs. split_and!; try done.
    - by apply isolated_calm.
    - intros t lg H. by destruct (He t lg). }
  destruct l; try done; simpl in *; subst.
  - unfold deliver_vote in Hstep. case_bool_decide; [|done].
    destruct (handle_request_vote req r n) as [[n' rep]|] eqn:Hh; simplify_eq.
    apply Hgo; [by eapply calm_request_vote|]. intros t lg. destruct (voteGranted rep); set_solver.
  - unfold deliver_append in Hstep. case_bool_decide; [|done]. apply N.ltb_lt in Hd.
    destruct (handle_append_entries req r n) as [[n' rep]|] eqn:Hh; simplify_eq.
    apply Hgo; [by eapply calm_append_entries|]. intros t lg. destruct (success rep); set_solver.
  - simplify_eq. apply N.ltb_lt in Hd.
    apply stays_quiet, isolated_calm; [done|]. by apply calm_propose.
  - simplify_eq. apply stays_quiet, isolated_calm; [done|]. by apply calm_kept.
Qed.

Lemma own_step_isolated l c' :
  actor l = i → disciplined l c = true → passes k0 l c = true → step l c = Next c' →
  stays_isolated c c'.
Proof using Hinv Hi Hiso Hminor.
  intros Ha Hd Hpass Hstep. pose proof Hstep as Hs. pose proof (is_rpc _ Hiso) as Hrpc.
  unfold step in Hs. rewrite Ha, Hi in Hs.
  destruct l; try (by eapply handler_isolated); simpl in Ha; subst;
    try (by refine (vote_steps_isolated _ _ _ Hpass Hs));
    try (by refine (reply_isolated _ _ _ Hpass Hs));
    eauto using decide_isolated, count_isolated, finish_isolated, become_isolated,
      heartbeat_isolated, process_isolated;
    simpl in Hs; destruct (ctl p) eqn:Hctl; try done.
  - destruct (is_dead n); [done|]. unfold run_top in Hs. case_decide; simplify_eq;
      apply stays_quiet.
    + apply isolated_goto; try done; by rewrite Hctl.
    + pose proof Hiso as [H1 H2 H3 H4]. rewrite Hctl in H3.
      by split; cbn [node ctl next_rpc].
  - simplify_eq. apply stays_quiet, isolated_goto; try done; rewrite Hctl;
      by destruct (wait_over start now n).
  - destruct to_apply as [|a to_apply]; simplify_eq; apply stays_quiet.
    + apply isolated_goto; try done; rewrite Hctl; by destruct cv.
    + pose proof Hiso as [H1 H2 H3 H4]. rewrite Hctl in H3, H4.
      split; cbn [node ctl next_rpc]; done.
  - simplify_eq. apply stays_quiet, isolated_goto; try done; by rewrite Hctl.
Qed.
End steps.

(** ** Schedules under the cut *)

(** A step changes one node and records elections of that node only. *)
Lemma step_shape l c c' :
  step l c = Next c' →
  ∃ p' evs, procs c' = <[actor l := p']> (procs c) ∧ history c' = evs ++ history c ∧
    ∀ j t lg, EElected j t lg ∈ evs → j = actor l.
Proof.
  intros Hstep. unfold step in Hstep. destruct (procs c !! actor l) as [p|] eqn:Hi; [|done].
  assert (∀ ev j t lg, EElected j t lg ∈ [ev] → ev = EElected j t lg) as H1
    by (intros ev j t lg H; symmetry; by apply list_elem_of_singleton).
  destruct l; cbn [actor] in *; cbn [thread_step] in Hstep;
    try (destruct (ctl p); try done); unfold deliver_vote, deliver_append in *;
    repeat match type of Hstep with
    | context [match ?x with _ => _ end] => destruct x eqn:?; try done
    | context [if ?x then _ else _] => destruct x eqn:?; try done
    end; simplify_eq; try (by eexists _, []; split_and!; [done|done|intros ? ? ? ?%not_elem_of_nil]);
    (eexists _, [_]; split_and!; [done|done|]; intros ? ? ? E%H1; by simplify_eq).
Qed.

Lemma run_isolated ls : ∀ c c' p,
  cluster_inv c → procs c !! i = Some p → isolated p → run_cut k0 ls c = Some c' →
  cluster_inv c' ∧ ∃ p' evs, procs c' !! i = Some p' ∧ isolated p' ∧
    history c' = evs ++ history c ∧ ∀ t lg, EElected i t lg ∈ evs → t ≤ T0.
Proof using Hminor.
  induction ls as [|l ls IH]; intros c c' p Hinv Hi Hiso Hrun; simpl in Hrun.
  { simplify_eq. split; [done|]. exists p, []. split_and!; try done. by intros ? ? ?%not_elem_of_nil. }
  destruct (disciplined l c) eqn:Hd; [|done]. destruct (passes k0 l c) eqn:Hp; [|done].
  simpl in Hrun. destruct (step l c) as [c1| |] eqn:Hs; try done.
  destruct (step_refines l c c1 Hinv Hd Hs) as [Hinv1 _].
  assert (∃ p1 evs, procs c1 !! i = Some p1 ∧ isolated p1 ∧ history c1 = evs ++ history c ∧
          ∀ t lg, EElected i t lg ∈ evs → t ≤ T0) as (p1 & evs & Hi1 & Hiso1 & Hh1 & He1).
  { destruct (decide (actor l = i)) as [Ha|Ha].
    - destruct (own_step_isolated c p Hinv Hi Hiso l c1 Ha Hd Hp Hs) as (p1 & evs & Hps & ? & ? & ?).
      exists p1, evs. rewrite Hps. by rewrite lookup_insert_eq.
    - destruct (step_shape l c c1 Hs) as (p1 & evs & Hps & ? & He). exists p, evs.
      rewrite Hps, lookup_insert_ne by done. split_and!; try done.
      intros t lg Hev%He. by destruct Ha. }
  destruct (IH c1 c' p1 Hinv1 Hi1 Hiso1 Hrun) as (? & p' & evs' & ? & ? & Hh & He).
  split; [done|]. exists p', (evs' ++ evs). split_and!; try done.
  - by rewrite Hh, Hh1, app_assoc.
  - intros t lg [Hev|Hev]%elem_of_app; [by eapply He|by eapply He1].
Qed.
End invariant.

(** A leader's replication indices lie in its log. *)
Lemma acked_in_log configs r c p j m :
  full_mesh configs → reachable configs r c → procs c !! i = Some p →
  role_ (node p) = LEADER → EAck j (current_term_ (node p)) m ∈ history c →
  m ≤ vsize (log_ (node p)).
Proof.
  intros Hmesh Hreach Hi Hr Hack. destruct (reachable_inv configs r c Hmesh Hreach) as [_ Ha].
  destruct (log_inv_reachable _ Ha) as [_ [L HL]].
  destruct (li_acks _ _ HL _ _ _ Hack) as [(lt & Hlt & Hle) _].
  pose proof (no_lead _ _ _ _ _ (li_nodes _ _ HL i _ (abs_lookup c i p Hi)) Hr) as Hown.
  simpl in Hown. simplify_eq. unfold vsize. lia.
Qed.

Lemma isolated_start configs r c p :
  full_mesh configs → reachable configs r c → procs c !! i = Some p →
  isolated (peers_ (node p)).*1 (next_rpc p) (current_term_ (node p)) (vsize (log_ (node p))) p.
Proof.
  intros Hmesh Hreach Hi. destruct (reachable_inv configs r c Hmesh Hreach) as [Hinv _].
  destruct (ci_procs c Hinv i p Hi) as [_ _ Hl].
  split; [done|done|intros _; left; done|]. intros Hr. specialize (Hl Hr).
  assert (map_Forall (acked_index (dom (procs c)) (history c) i (node p)) (matchIndex_ (node p)) →
          map_Forall (old_match (vsize (log_ (node p)))) (matchIndex_ (node p))) as Hm.
  { intros H j m Hj _. destruct (H j m Hj) as (_ & _ & [->|Hack]); [lia|]. by eapply acked_in_log. }
  destruct (ctl p); simpl in *; try done; destruct Hl as (_ & Hack & Hcalls); auto.
  split; [auto|]. eapply List.Forall_impl; [|exact Hcalls]. intros x [_ Hlive _] _. left.
  intros Hx. by destruct (Hlive Hx) as (_ & _ & _ & ?).
Qed.

Lemma run_cut_disciplined k0 ls : ∀ c c', run_cut k0 ls c = Some c' → run_disciplined ls c = Some c'.
Proof.
  induction ls as [|l ls IH]; intros c c' Hrun; simpl in *; [done|].
  destruct (disciplined l c); [|done]. simpl in Hrun. destruct (passes k0 l c); [|done].
  simpl in Hrun. destruct (step l c); try done. by apply IH.
Qed.

(** C10: a node that its interceptor cuts off from the majority is harmless: on every
    disciplined schedule from a state of a disciplined execution, from the cut on, it wins no
    election of a term later than the one it is in, and no round of heartbeats raises its
    commit index past the log that it had when it was cut off. *)
Theorem cut_off_harmless configs r c ls c' p :
  full_mesh configs → reachable configs r c → procs c !! i = Some p →
  side (node p) < majority (node p) → run_cut (next_rpc p) ls c = Some c' →
  ∃ p' evs, procs c' !! i = Some p' ∧ history c' = evs ++ history c ∧
    (∀ t lg, EElected i t lg ∈ evs → t ≤ current_term_ (node p)) ∧
    ∀ rnd now c2 p2, step (LProcess i rnd now) c' = Next c2 → procs c2 !! i = Some p2 →
      commit_index_ (node p2) ≤ N.max (commit_index_ (node p')) (vsize (log_ (node p))).
Proof.
  intros Hmesh Hreach Hi Hside Hrun.
  destruct (reachable_inv configs r c Hmesh Hreach) as [Hinv _].
  assert (∀ n, (peers_ n).*1 = (peers_ (node p)).*1 → side n < majority n) as Hminor.
  { intros n Hn. assert (length (peers_ n) = length (peers_ (node p))) as Hlen
      by (by rewrite <- (length_fmap fst), Hn, length_fmap).
    unfold side, majority, vsize in *. by rewrite Hn, Hlen. }
  destruct (run_isolated _ _ _ _ Hminor ls c c' p Hinv Hi
    (isolated_start configs r c p Hmesh Hreach Hi) Hrun) as (Hinv' & p' & evs & Hi' & Hiso & Hh & He).
  exists p', evs. split_and!; try done. intros rnd now c2 p2 Hstep Hi2.
  unfold step in Hstep. simpl in Hstep. rewrite Hi' in Hstep.
  destruct (ctl p') eqn:Hctl; try done. destruct (forallb if_done calls); [|done].
  destruct (process_replies _ _ _ _) as [[n' out]|] eqn:Hproc; [|done]. simplify_eq/=.
  rewrite lookup_insert_eq in Hi2. simplify_eq/=.
  by eapply (process_commits_old _ _ _ _ Hminor c' p').
Qed.
End partition.

(** Node 0 leads the generated cluster of three; the operator then disconnects it,
    it takes a proposal, and its heartbeats fail. *)
Definition cut0 : NetInterceptor :=
  disconnect "0" (setup_rank {["0"; "1"; "2"]} NetInterceptor_init).

Definition cut_round : list label :=
  [LPropose 0 "x"; LHb 0; LHbFail 0 2; LHbFail 0 3].

Lemma cut_off_harmless_witness :
  ∃ c c' p, run_disciplined elect0 (boot local3 0) = Some c ∧ procs c !! 0 = Some p ∧
    role_ (node p) = LEADER ∧ run_cut cut0 0 (next_rpc p) cut_round c = Some c' ∧
    ∃ p' evs, procs c' !! 0 = Some p' ∧ history c' = evs ++ history c ∧
      (∀ t lg, EElected 0 t lg ∈ evs → t ≤ current_term_ (node p)) ∧
      ∀ rnd now c2 p2, step (LProcess 0 rnd now) c' = Next c2 → procs c2 !! 0 = Some p2 →
        commit_index_ (node p2) ≤ N.max (commit_index_ (node p')) (vsize (log_ (node p))).
Proof.
  eexists _, _, _. split; [vm_compute; reflexivity|]. split; [reflexivity|].
  split; [reflexivity|]. split; [vm_compute; reflexivity|].
  eapply (cut_off_harmless cut0 0 local3 0 _ cut_round _ _ local3_mesh);
    [apply (local3_reachable elect0); vm_compute; reflexivity|reflexivity|
     vm_compute; reflexivity|vm_compute; reflexivity].
Defined.
