(* ===== verification/KvCodec.v ===== *)
(** The wire format of a key-value command: [KvServer::serialize] and
    [KvServer::deserialize] of [inc/kv/kv_server.hpp].

    A [std::string] is a [string] of 8-bit characters.  [memcpy] of an integer
    is little endian, as on the x86-64 and AArch64 targets of the build.  The
    lengths are [uint32_t], and so is the sum that sizes the buffer. *)
From Stdlib Require Import Ascii.
From S2P Require Import Prelude.

#[local] Open Scope N_scope.

(** The characters of a [std::string], and back. *)
#[local] Abbreviation chars := String.list_ascii_of_string.
#[local] Abbreviation str := String.string_of_list_ascii.

Inductive OpType := PUT | GET | APPEND.

#[export] Instance OpType_eq_dec : EqDecision OpType.
Proof. solve_decision. Defined.

Definition op_byte (op : OpType) : N :=
  match op with PUT => 0 | GET => 1 | APPEND => 2 end.

Definition byte_op (b : N) : option OpType :=
  if b =? 0 then Some PUT else if b =? 1 then Some GET
  else if b =? 2 then Some APPEND else None.

Definition pow32 : N := 4294967296.
Definition wrap32 (x : N) : N := x mod pow32.

(** ** Integers in memory *)

Fixpoint le_bytes (k : nat) (v : N) : list ascii :=
  match k with
  | O => []
  | S k => ascii_of_N (v mod 256) :: le_bytes k (v / 256)
  end.

Fixpoint le_val (bs : list ascii) : N :=
  match bs with [] => 0 | b :: bs => N_of_ascii b + 256 * le_val bs end.

(** ** Buffers

    [memcpy] into the buffer at offset [off]; out of bounds is undefined. *)
Definition write_at (buf : list ascii) (off : N) (bs : list ascii) : option (list ascii) :=
  if off + vsize bs <=? vsize buf
  then Some (take (N.to_nat off) buf ++ bs ++ drop (N.to_nat (off + vsize bs)) buf)
  else None.

(** The [k] bytes at offset [off], and [memcpy] or [assign] from there: reading out of
    bounds is undefined too. *)
Definition slice (buf : list ascii) (off k : N) : list ascii :=
  take (N.to_nat k) (drop (N.to_nat off) buf).

Definition read_at (buf : list ascii) (off k : N) : option (list ascii) :=
  if off + k <=? vsize buf then Some (slice buf off k) else None.

(** The writes through the advancing pointer [p]. *)
Fixpoint write_all (buf : list ascii) (p : N) (bss : list (list ascii))
    : option (list ascii) :=
  match bss with
  | [] => Some buf
  | bs :: bss => buf ← write_at buf p bs; write_all buf (p + vsize bs) bss
  end.

Definition serialize (op : OpType) (client_id seq_num : N) (key val : string)
    : option string :=
  let key := chars key in
  let val := chars val in
  let klen := wrap32 (vsize key) in
  let vlen := wrap32 (vsize val) in
  let total := wrap32 (1 + 8 + 8 + 4 + klen + 4 + vlen) in
  let out := replicate (N.to_nat total) (ascii_of_N 0) in
  out ← write_all out 0
          [[ascii_of_N (op_byte op)]; le_bytes 8 client_id; le_bytes 8 seq_num;
           le_bytes 4 klen; take (N.to_nat klen) key;
           le_bytes 4 vlen; take (N.to_nat vlen) val];
  Some (str out).

Record command_fields := mkFields {
  f_op : OpType;
  f_client : N;
  f_seq : N;
  f_key : string;
  f_value : string }.

(** [p] is the offset that the pointer [p] has reached and [end] the size; a
    64-bit pointer does not wrap on adding a [uint32_t].  [Some None] is the answer
    [false], [None] a read outside [data]. *)
Definition deserialize (data : string) : option (option command_fields) :=
  let data := chars data in
  let fin := vsize data in
  if fin <? 1 + 8 + 8 + 4 + 4 then Some None
  else
    op_byte ← read_at data 0 1;
    match byte_op (le_val op_byte) with
    | None => Some None
    | Some op =>
        client_id ← read_at data 1 8;
        seq_num ← read_at data 9 8;
        klen ← read_at data 17 4;
        let klen := le_val klen in
        if fin <? 21 + klen + 4 then Some None
        else
          key ← read_at data 21 klen;
          let p := 21 + klen in
          vlen ← read_at data p 4;
          let vlen := le_val vlen in
          let p := p + 4 in
          if fin <? p + vlen then Some None
          else
            value ← read_at data p vlen;
            Some (Some (mkFields op (le_val client_id) (le_val seq_num) (str key) (str value)))
    end.

(** The fields that a caller gets when the answer is [true].  No input makes [deserialize]
    read outside it ([deserialize_defined]). *)
Definition decoded (data : string) : option command_fields := mjoin (deserialize data).

(** ** The layout, as a concatenation *)

Definition layout (f : command_fields) : list ascii :=
  [ascii_of_N (op_byte (f_op f))] ++ le_bytes 8 (f_client f) ++ le_bytes 8 (f_seq f)
    ++ le_bytes 4 (vsize (chars (f_key f)))
    ++ chars (f_key f)
    ++ le_bytes 4 (vsize (chars (f_value f)))
    ++ chars (f_value f).

(** The fields that the format can express, and those that a buffer sized by a
    [uint32_t] can hold. *)
Definition expressible (f : command_fields) : Prop :=
  f_client f < pow64 ∧ f_seq f < pow64 ∧
  vsize (chars (f_key f)) < pow32 ∧ vsize (chars (f_value f)) < pow32.

Definition encodable (f : command_fields) : Prop :=
  f_client f < pow64 ∧ f_seq f < pow64 ∧
  25 + vsize (chars (f_key f)) + vsize (chars (f_value f)) < pow32.

Lemma encodable_expressible f : encodable f → expressible f.
Proof. unfold encodable, expressible. lia. Qed.

Lemma length_le_bytes k : ∀ v, length (le_bytes k v) = k.
Proof. induction k; intros v; simpl; auto. Qed.

Lemma le_val_bytes k : ∀ v, v < 256 ^ N.of_nat k → le_val (le_bytes k v) = v.
Proof.
  induction k as [|k IH]; intros v Hv; simpl; [change (256 ^ _) with 1 in Hv; lia|].
  rewrite Nat2N.inj_succ, N.pow_succ_r in Hv by lia.
  rewrite N_ascii_embedding by (apply N.mod_lt; lia).
  rewrite IH by (apply N.Div0.div_lt_upper_bound; lia).
  symmetry. rewrite N.add_comm. apply N.div_mod. lia.
Qed.

Lemma le_val_lt bs : le_val bs < 256 ^ vsize bs.
Proof.
  induction bs as [|b bs IH]; [done|]. simpl.
  rewrite vsize_cons, N.add_1_l, N.pow_succ_r by lia.
  pose proof (N_ascii_bounded b). lia.
Qed.

Lemma le_bytes_val bs : le_bytes (length bs) (le_val bs) = bs.
Proof.
  induction bs as [|b bs IH]; [done|]. simpl. pose proof (N_ascii_bounded b) as Hb.
  replace (N_of_ascii b + 256 * le_val bs) with (N_of_ascii b + le_val bs * 256) by lia.
  rewrite N.Div0.mod_add, N.mod_small, ascii_N_embedding by done.
  rewrite N.div_add, N.div_small, N.add_0_l by lia. by rewrite IH.
Qed.

#[local] Arguments le_bytes : simpl never.

(** ** Writing at the end of what has been written *)

Lemma write_at_next pre bs k :
  vsize bs ≤ N.of_nat k →
  write_at (pre ++ replicate k (ascii_of_N 0)) (vsize pre) bs =
  Some ((pre ++ bs) ++ replicate (k - length bs) (ascii_of_N 0)).
Proof.
  intros Hk. unfold write_at. rewrite vsize_app. unfold vsize in *. rewrite length_replicate.
  destruct (N.leb_spec (N.of_nat (length pre) + N.of_nat (length bs))
             (N.of_nat (length pre) + N.of_nat k)); [|lia].
  rewrite Nat2N.id, take_app_length.
  replace (N.to_nat (N.of_nat (length pre) + N.of_nat (length bs)))
    with (length pre + length bs)%nat by lia.
  rewrite drop_app_add, drop_replicate. by rewrite <- app_assoc.
Qed.

Lemma vsize_le_bytes k v : vsize (le_bytes k v) = N.of_nat k.
Proof. unfold vsize. by rewrite length_le_bytes. Qed.

(** A run of writes that fills the buffer exactly leaves the concatenation. *)
Lemma write_all_exact bss : ∀ pre k,
  length (concat bss) = k →
  write_all (pre ++ replicate k (ascii_of_N 0)) (vsize pre) bss = Some (pre ++ concat bss).
Proof.
  induction bss as [|bs bss IH]; intros pre k Hk; simpl in *.
  - subst k. done.
  - rewrite length_app in Hk. rewrite write_at_next by (unfold vsize; lia). simpl.
    rewrite <- vsize_app, IH by lia. by rewrite app_assoc.
Qed.

(** The buffer of [total] bytes is filled exactly when the 32-bit sum did not
    wrap; otherwise a write leaves the buffer. *)
Lemma write_all_overflow bss : ∀ buf off,
  vsize buf < off + vsize (concat bss) → off ≤ vsize buf → write_all buf off bss = None.
Proof.
  induction bss as [|bs bss IH]; intros buf off Hlt Hle; simpl in *;
    [rewrite vsize_nil in Hlt; lia|].
  rewrite vsize_app in Hlt. unfold write_at. case_match; [|done]. bool_to_prop. simpl.
  apply IH; rewrite !vsize_app, vsize_take; unfold vsize in *; rewrite ?length_drop; lia.
Qed.

Definition written (f : command_fields) : list (list ascii) :=
  [[ascii_of_N (op_byte (f_op f))]; le_bytes 8 (f_client f); le_bytes 8 (f_seq f);
   le_bytes 4 (vsize (chars (f_key f))); chars (f_key f);
   le_bytes 4 (vsize (chars (f_value f))); chars (f_value f)].

Lemma concat_written f : concat (written f) = layout f.
Proof. unfold written, layout. simpl. by rewrite app_nil_r. Qed.

Lemma vsize_layout f :
  vsize (layout f) = 25 + vsize (chars (f_key f)) + vsize (chars (f_value f)).
Proof. unfold layout. rewrite !vsize_app, !vsize_le_bytes, vsize_cons, vsize_nil. lia. Qed.

(** What [serialize] does with lengths that fit in [uint32_t]. *)
Lemma serialize_eq op c s key val :
  vsize (chars key) < pow32 → vsize (chars val) < pow32 →
  serialize op c s key val =
  if 25 + vsize (chars key) + vsize (chars val) <? pow32
  then Some (str (layout (mkFields op c s key val))) else None.
Proof.
  intros Hk Hv. pose proof (vsize_layout (mkFields op c s key val)) as Hl. simpl in Hl.
  unfold serialize, wrap32. rewrite (N.mod_small (vsize (chars key))) by done.
  rewrite (N.mod_small (vsize (chars val))) by done.
  rewrite !take_ge by (unfold vsize; lia).
  change (write_all _ 0 _) with
    (write_all (replicate (N.to_nat ((1 + 8 + 8 + 4 + vsize (chars key) + 4 + vsize (chars val))
                 mod pow32)) (ascii_of_N 0)) 0 (written (mkFields op c s key val))).
  destruct (N.ltb_spec (25 + vsize (chars key) + vsize (chars val)) pow32) as [Hlt|Hge].
  - rewrite N.mod_small by lia.
    rewrite <- concat_written in *.
    change (write_all (replicate ?k ?x) 0 ?w) with (write_all ([] ++ replicate k x) (vsize (@nil ascii)) w).
    rewrite write_all_exact; [done|]. unfold vsize in *. lia.
  - rewrite write_all_overflow; [done| |unfold vsize; lia].
    rewrite concat_written. unfold vsize at 1. rewrite length_replicate, N2Nat.id.
    pose proof (N.mod_lt (1 + 8 + 8 + 4 + vsize (chars key) + 4 + vsize (chars val)) pow32). lia.
Qed.

(** ** Reading *)

Lemma slice_app pre bs post k :
  vsize bs = k → slice (pre ++ bs ++ post) (vsize pre) k = bs.
Proof.
  intros <-. unfold slice, vsize. by rewrite !Nat2N.id, drop_app_length, take_app_length.
Qed.

Lemma byte_op_byte op : byte_op (op_byte op) = Some op.
Proof. by destruct op. Qed.

(** The chunks of the layout, read at their offsets. *)
Lemma read_layout op c s key val rest :
  let L := layout (mkFields op c s key val) ++ rest in
  let k := vsize (chars key) in
  slice L 0 1 = [ascii_of_N (op_byte op)] ∧ slice L 1 8 = le_bytes 8 c ∧
  slice L 9 8 = le_bytes 8 s ∧ slice L 17 4 = le_bytes 4 k ∧
  slice L 21 k = chars key ∧ slice L (21 + k) 4 = le_bytes 4 (vsize (chars val)) ∧
  slice L (21 + k + 4) (vsize (chars val)) = chars val.
Proof.
  set (b := ascii_of_N (op_byte op)). set (h := [b] ++ le_bytes 8 c ++ le_bytes 8 s).
  set (kb := le_bytes 4 (vsize (chars key))). set (vb := le_bytes 4 (vsize (chars val))).
  assert (∀ off pre mid post, pre ++ mid ++ post = layout (mkFields op c s key val) ++ rest →
    vsize pre = off →
    slice (layout (mkFields op c s key val) ++ rest) off (vsize mid) = mid) as Hread.
  { intros off pre mid post <- <-. by apply slice_app. }
  assert (layout (mkFields op c s key val) ++ rest =
          h ++ kb ++ chars key ++ vb ++ chars val ++ rest) as HL
    by (unfold layout, h, kb, vb; by rewrite <- !app_assoc).
  rewrite HL in Hread. cbv zeta. rewrite HL. split_and!.
  - by apply (Hread 0 [] [b] (le_bytes 8 c ++ le_bytes 8 s ++ kb ++ chars key ++ vb ++ chars val ++ rest)).
  - by apply (Hread 1 [b] (le_bytes 8 c) (le_bytes 8 s ++ kb ++ chars key ++ vb ++ chars val ++ rest)).
  - by apply (Hread 9 (b :: le_bytes 8 c) (le_bytes 8 s) (kb ++ chars key ++ vb ++ chars val ++ rest)).
  - by apply (Hread 17 h kb (chars key ++ vb ++ chars val ++ rest)).
  - by apply (Hread 21 (h ++ kb) (chars key) (vb ++ chars val ++ rest)).
  - apply (Hread _ (h ++ kb ++ chars key) vb (chars val ++ rest)); [by rewrite <- !app_assoc|].
    rewrite !vsize_app. change (vsize h) with 17. change (vsize kb) with 4. lia.
  - apply (Hread _ (h ++ kb ++ chars key ++ vb) (chars val) rest); [by rewrite <- !app_assoc|].
    rewrite !vsize_app. change (vsize h) with 17. change (vsize kb) with 4.
    change (vsize vb) with 4. lia.
Qed.

(** Every read is behind its guard: [deserialize] is defined, and is this decoder over
    slices. *)
Definition decode_slices (data : list ascii) : option command_fields :=
  let fin := vsize data in
  if fin <? 1 + 8 + 8 + 4 + 4 then None
  else
    op ← byte_op (le_val (slice data 0 1));
    let klen := le_val (slice data 17 4) in
    if fin <? 21 + klen + 4 then None
    else
      let vlen := le_val (slice data (21 + klen) 4) in
      if fin <? 21 + klen + 4 + vlen then None
      else Some (mkFields op (le_val (slice data 1 8)) (le_val (slice data 9 8))
                   (str (slice data 21 klen)) (str (slice data (21 + klen + 4) vlen))).

Lemma read_at_defined buf off k : off + k ≤ vsize buf → read_at buf off k = Some (slice buf off k).
Proof. intros H. unfold read_at. by rewrite (proj2 (N.leb_le _ _) H). Qed.

Lemma deserialize_slices data : deserialize data = Some (decode_slices (chars data)).
Proof.
  unfold deserialize, decode_slices. set (d := chars data).
  destruct (N.ltb_spec (vsize d) (1 + 8 + 8 + 4 + 4)); [done|].
  rewrite !(read_at_defined d 0), !(read_at_defined d 1), !(read_at_defined d 9),
    !(read_at_defined d 17) by lia. simpl. destruct (byte_op _) as [op|]; [|done]. simpl.
  set (klen := le_val (slice d 17 4)). destruct (N.ltb_spec (vsize d) (21 + klen + 4)); [done|].
  rewrite !(read_at_defined d 21), (read_at_defined d (21 + klen) 4) by lia. simpl.
  set (vlen := le_val (slice d (21 + klen) 4)).
  destruct (N.ltb_spec (vsize d) (21 + klen + 4 + vlen)); [done|].
  by rewrite read_at_defined by lia.
Qed.

Lemma decoded_slices data : decoded data = decode_slices (chars data).
Proof. unfold decoded. by rewrite deserialize_slices. Qed.

Lemma deserialize_defined data : deserialize data = Some (decoded data).
Proof. by rewrite decoded_slices, deserialize_slices. Qed.

Lemma decoded_layout f rest :
  expressible f → decoded (str (layout f ++ rest)) = Some f.
Proof.
  intros (Hc & Hs & Hk & Hv). destruct f as [op c s key val]. cbn [f_client f_seq f_key f_value] in *.
  rewrite decoded_slices. unfold decode_slices. rewrite String.list_ascii_of_string_of_list_ascii.
  pose proof (read_layout op c s key val rest) as (R0 & R1 & R2 & R3 & R4 & R5 & R6).
  rewrite vsize_app, vsize_layout, R0, R1, R2, R3. cbn [f_key f_value].
  rewrite !le_val_bytes by (simpl; unfold pow64, pow32 in *; lia). rewrite R4, R5.
  rewrite !le_val_bytes by (simpl; unfold pow64, pow32 in *; lia). rewrite R6.
  destruct (N.ltb_spec (25 + vsize (chars key) + vsize (chars val) + vsize rest) (1 + 8 + 8 + 4 + 4));
    [lia|].
  replace (byte_op _) with (Some op) by (by destruct op). simpl.
  rewrite (proj2 (N.ltb_ge _ (21 + vsize (chars key) + 4))) by lia.
  rewrite (proj2 (N.ltb_ge _ (21 + vsize (chars key) + 4 + vsize (chars val)))) by lia.
  by rewrite !String.string_of_list_ascii_of_string.
Qed.

(** Reading consecutive chunks gives back the buffer. *)
Lemma slice_split buf off k next :
  next = off + k →
  drop (N.to_nat off) buf = slice buf off k ++ drop (N.to_nat next) buf.
Proof.
  intros ->. unfold slice. rewrite N2Nat.inj_add, <- drop_drop. by rewrite take_drop.
Qed.

Lemma vsize_slice buf off k : off + k ≤ vsize buf → vsize (slice buf off k) = k.
Proof.
  intros Hle. unfold slice, vsize in *. rewrite length_take, length_drop. lia.
Qed.

Lemma le_bytes_read buf off k m :
  m = N.of_nat k → off + m ≤ vsize buf →
  le_bytes k (le_val (slice buf off m)) = slice buf off m.
Proof.
  intros -> Hle. pose proof (vsize_slice buf off (N.of_nat k) Hle) as Hsz. unfold vsize in Hsz.
  rewrite <- (le_bytes_val (slice buf off (N.of_nat k))) at 2. f_equal. lia.
Qed.

Lemma le_val_read buf off k :
  off + N.of_nat k ≤ vsize buf → le_val (slice buf off (N.of_nat k)) < 256 ^ N.of_nat k.
Proof.
  intros Hle. rewrite <- (vsize_slice buf off (N.of_nat k) Hle) at 2. apply le_val_lt.
Qed.

Lemma byte_op_Some b op : byte_op b = Some op → b = op_byte op.
Proof. unfold byte_op. intros H. case_guards; bool_to_prop; by subst. Qed.

(** What is decoded starts with the layout of what it returns. *)
Lemma decoded_Some data f :
  decoded data = Some f → expressible f ∧ ∃ rest, chars data = layout f ++ rest.
Proof.
  rewrite decoded_slices. unfold decode_slices. set (d := chars data). intros H.
  destruct (N.ltb_spec (vsize d) (1 + 8 + 8 + 4 + 4)) as [|Hhdr]; [done|].
  apply bind_Some in H as (op & Hop%byte_op_Some & H).
  set (klen := le_val (slice d 17 4)) in *.
  destruct (N.ltb_spec (vsize d) (21 + klen + 4)) as [|Hk]; [done|].
  set (vlen := le_val (slice d (21 + klen) 4)) in *.
  destruct (N.ltb_spec (vsize d) (21 + klen + 4 + vlen)) as [|Hv]; [done|]. simplify_eq.
  assert (vsize (slice d 21 klen) = klen) as Ek by (apply vsize_slice; lia).
  assert (vsize (slice d (21 + klen + 4) vlen) = vlen) as Ev by (apply vsize_slice; lia).
  unfold expressible, layout. cbn [f_op f_client f_seq f_key f_value].
  rewrite !String.list_ascii_of_string_of_list_ascii, Ek, Ev. split.
  - split_and!; [apply (le_val_read d 1 8)|apply (le_val_read d 9 8)|apply (le_val_read d 17 4)|
      apply (le_val_read d (21 + klen) 4)]; lia.
  - exists (drop (N.to_nat (21 + klen + 4 + vlen)) d).
    rewrite <- Hop.
    assert ([ascii_of_N (le_val (slice d 0 1))] = le_bytes 1 (le_val (slice d 0 1))) as ->.
    { unfold le_bytes. rewrite N.mod_small; [done|]. apply (le_val_read d 0 1). lia. }
    unfold klen at 1, vlen at 1.
    rewrite (le_bytes_read d 0 1 1), (le_bytes_read d 1 8 8), (le_bytes_read d 9 8 8),
      (le_bytes_read d 17 4 4), (le_bytes_read d (21 + klen) 4 4) by lia.
    rewrite <- !app_assoc, <- (slice_split d (21 + klen + 4) vlen),
      <- (slice_split d (21 + klen) 4), <- (slice_split d 21 klen),
      <- (slice_split d 17 4), <- (slice_split d 9 8), <- (slice_split d 1 8),
      <- (slice_split d 0 1) by lia.
    done.
Qed.

Lemma str_app l1 l2 : str (l1 ++ l2) = str l1 +:+ str l2.
Proof. induction l1 as [|b l1 IH]; simpl; [done|]. by rewrite IH. Qed.

(** What is serialized is what is read. *)
Lemma serialize_wire f :
  encodable f →
  ∃ out, serialize (f_op f) (f_client f) (f_seq f) (f_key f) (f_value f) = Some out ∧
         decoded out = Some f.
Proof.
  intros Hf. exists (str (layout f)). apply encodable_expressible in Hf as He.
  destruct Hf as (Hc & Hs & Hsz). split.
  - rewrite serialize_eq by lia. destruct f. simpl in *. by rewrite (proj2 (N.ltb_lt _ _)).
  - rewrite <- (app_nil_r (layout f)). by apply decoded_layout.
Qed.

(** ** The format *)

(** C25: a command whose fields fit is serialized without leaving the buffer, and
    deserialized to the same fields, also when more bytes follow. *)
Theorem command_roundtrip f rest :
  encodable f →
  ∃ out, serialize (f_op f) (f_client f) (f_seq f) (f_key f) (f_value f) = Some out ∧
         deserialize out = Some (Some f) ∧ deserialize (out +:+ rest) = Some (Some f).
Proof.
  intros Hf. destruct (serialize_wire f Hf) as (out & Hout & Hd). exists out.
  rewrite !deserialize_defined, Hd. split_and!; [done..|]. f_equal.
  apply decoded_Some in Hd as (He & tl & Hd).
  rewrite <- (String.string_of_list_ascii_of_string out), Hd.
  rewrite <- (String.string_of_list_ascii_of_string rest), <- str_app, <- app_assoc.
  by apply decoded_layout.
Qed.

(** C26: [deserialize] reads nothing outside its input, whatever that is; it accepts exactly
    the strings that start with the layout of expressible fields and returns those fields,
    and answers [false] for every other string. *)
Theorem deserialize_exact data :
  ∃ r, deserialize data = Some r ∧
    ∀ f, r = Some f ↔ expressible f ∧ ∃ rest, chars data = layout f ++ rest.
Proof.
  exists (decoded data). split; [apply deserialize_defined|]. intros f.
  split; [apply decoded_Some|]. intros (Hf & rest & Hd).
  rewrite <- (String.string_of_list_ascii_of_string data), Hd. by apply decoded_layout.
Qed.

(** A serialized command that lost its tail is refused, however little is
    missing. *)
Lemma truncated_refused f n :
  expressible f → (n < length (layout f))%nat → decoded (str (take n (layout f))) = None.
Proof.
  intros Hf Hn. destruct (decoded _) as [g|] eqn:Hd; [|done]. exfalso.
  apply decoded_Some in Hd as (Hg & rest & Hd).
  rewrite String.list_ascii_of_string_of_list_ascii in Hd.
  assert (f = g) as ->.
  { pose proof (decoded_layout f [] Hf) as Ef.
    pose proof (decoded_layout g (rest ++ drop n (layout f)) Hg) as Eg.
    rewrite app_assoc, <- Hd, take_drop in Eg. rewrite app_nil_r in Ef. congruence. }
  apply (f_equal length) in Hd. rewrite length_take, length_app in Hd. lia.
Qed.

(** The only undefined behaviour of [serialize] on strings below 4 GiB is
    the wrap-around of the 32-bit sum that sizes the buffer. *)
Lemma serialize_total_iff op c s key val :
  vsize (chars key) < pow32 → vsize (chars val) < pow32 →
  serialize op c s key val = None ↔ pow32 ≤ 25 + vsize (chars key) + vsize (chars val).
Proof.
  intros Hk Hv. rewrite serialize_eq by done.
  destruct (N.ltb_spec (25 + vsize (chars key) + vsize (chars val)) pow32); split;
    try done; lia.
Qed.

(** ** Instances *)

Definition sample : command_fields := mkFields APPEND 7 3 "key" "value".

Lemma command_roundtrip_witness :
  encodable sample ∧
  ∃ out, serialize APPEND 7 3 "key" "value" = Some out ∧
         deserialize out = Some (Some sample) ∧ deserialize (out +:+ "tail") = Some (Some sample).
Proof.
  split; [repeat split; reflexivity|].
  apply (command_roundtrip sample "tail"). repeat split; reflexivity.
Defined.

Lemma truncated_refused_witness :
  expressible sample ∧ decoded (str (take 32 (layout sample))) = None.
Proof.
  split; [repeat split; reflexivity|].
  apply (truncated_refused sample 32); [repeat split; reflexivity|apply Nat.ltb_lt; reflexivity].
Defined.

Lemma serialize_total_iff_witness :
  serialize PUT 1 1 "k" "v" = None ↔ pow32 ≤ 25 + vsize (chars "k") + vsize (chars "v").
Proof. apply (serialize_total_iff PUT 1 1 "k" "v"); reflexivity. Defined.
