(* ===== verification/KvServer.v ===== *)
(** The replicated key-value server: [KvServer] of [inc/kv/kv_server.hpp].

    [on_apply] runs on the thread that drains the ready queue of the node, one
    committed command at a time, in three critical sections; the gRPC handlers
    [Put], [Get] and [Append] run beside it and wait on the promise that
    [on_apply] fulfils.  The Raft node is used through the interface [RaftApi],
    of which [Raft] is an instance. *)
From S2P Require Import Prelude Types RaftState RaftNode KvCodec.

#[local] Open Scope N_scope.

Inductive KvStatus := KV_SUCCESS | KV_NOTLEADER | KV_TIMEOUT.

#[export] Instance KvStatus_eq_dec : EqDecision KvStatus.
Proof. solve_decision. Defined.

Record CachedReply := mkCachedReply {
  cr_seq_num : N;
  cr_status : KvStatus;
  cr_value : string }.

(** A promise is the number of the shared state it belongs to. *)
Record PendingOp := mkPendingOp {
  po_client_id : N;
  po_seq_num : N;
  po_promise : N }.

Record KvServer := mkKvServer {
  store_ : gmap string string;
  rifl_ : gmap N CachedReply;
  pending_ : gmap N PendingOp;
  last_kv_applied_ : N }.

Definition KvServer_init : KvServer := mkKvServer ∅ ∅ ∅ 0.

Definition set_store_ (v : gmap string string) (s : KvServer) : KvServer :=
  mkKvServer v (rifl_ s) (pending_ s) (last_kv_applied_ s).
Definition set_rifl_ (v : gmap N CachedReply) (s : KvServer) : KvServer :=
  mkKvServer (store_ s) v (pending_ s) (last_kv_applied_ s).
Definition set_pending_ (v : gmap N PendingOp) (s : KvServer) : KvServer :=
  mkKvServer (store_ s) (rifl_ s) v (last_kv_applied_ s).
Definition set_last_kv_applied_ (v : N) (s : KvServer) : KvServer :=
  mkKvServer (store_ s) (rifl_ s) (pending_ s) v.

(** A value for a promise. *)
Definition fulfilment : Type := N * (KvStatus * string).

(** ** [on_apply] *)

(** Find the waiter of [index] and decide what it is told: the shared part of
    [notify_waiter_state_locked] and of the last section of [on_apply]. *)
Definition take_waiter (index client_id seq_num : N) (answer : KvStatus * string)
    (s : KvServer) : KvServer * option fulfilment :=
  match pending_ s !! index with
  | None => (s, None)
  | Some w =>
      let told :=
        if (po_client_id w =? client_id) && (po_seq_num w =? seq_num)
        then answer else (KV_TIMEOUT, EmptyString) in
      (set_pending_ (delete index (pending_ s)) s, Some (po_promise w, told))
  end.

Definition notify_waiter_state_locked (index applied_client_id applied_seq_num : N)
    (status : KvStatus) (value : string) (s : KvServer) : KvServer * option fulfilment :=
  take_waiter index applied_client_id applied_seq_num (status, value) s.

(** First section: the cached reply when the command is a duplicate. *)
Definition lookup_dup (f : command_fields) (s : KvServer) : option CachedReply :=
  match rifl_ s !! f_client f with
  | Some c => if f_seq f <=? cr_seq_num c then Some c else None
  | None => None
  end.

(** Second section: the operation on the store, and the value replied. *)
Definition execute (f : command_fields) (s : KvServer) : KvServer * string :=
  match f_op f with
  | PUT => (set_store_ (<[f_key f := f_value f]> (store_ s)) s, EmptyString)
  | GET => (s, default EmptyString (store_ s !! f_key f))
  | APPEND =>
      (set_store_ (<[f_key f := default EmptyString (store_ s !! f_key f) +:+ f_value f]>
                     (store_ s)) s, EmptyString)
  end.

(** Last section: the reply cache, the progress and the waiter. *)
Definition finish_apply (f : command_fields) (index : N) (is_dup : bool)
    (status : KvStatus) (value : string) (s : KvServer) : KvServer * option fulfilment :=
  let s := if is_dup then s
           else set_rifl_ (<[f_client f := mkCachedReply (f_seq f) status value]> (rifl_ s)) s in
  take_waiter index (f_client f) (f_seq f) (status, value) (set_last_kv_applied_ index s).

(** The three sections in sequence. *)
Definition on_apply (result : ApplyResult) (s : KvServer) : KvServer * option fulfilment :=
  if negb (valid result) then (s, None)
  else
    match decoded (data result) with
    | None => notify_waiter_state_locked (index result) 0 0 KV_TIMEOUT EmptyString s
    | Some f =>
        match lookup_dup f s with
        | Some c => finish_apply f (index result) true (cr_status c) (cr_value c) s
        | None =>
            let '(s, value) := execute f s in
            finish_apply f (index result) false KV_SUCCESS value s
        end
    end.

(** ** The reference semantics

    The store of a map, and the commands that take effect: those whose client
    has not been heard with that or a later sequence number. *)

Definition kv_store : Type := gmap string string.

Definition kv_exec (m : kv_store) (f : command_fields) : kv_store :=
  match f_op f with
  | PUT => <[f_key f := f_value f]> m
  | GET => m
  | APPEND => <[f_key f := default EmptyString (m !! f_key f) +:+ f_value f]> m
  end.

Definition kv_answer (m : kv_store) (f : command_fields) : string :=
  match f_op f with GET => default EmptyString (m !! f_key f) | _ => EmptyString end.

Definition fresh (past : list command_fields) (f : command_fields) : bool :=
  forallb (λ g, negb ((f_client g =? f_client f) && (f_seq f <=? f_seq g))) past.

Fixpoint effective_after (past fs : list command_fields) : list command_fields :=
  match fs with
  | [] => []
  | f :: fs =>
      (if fresh past f then [f] else []) ++ effective_after (past ++ [f]) fs
  end.

Definition effective (fs : list command_fields) : list command_fields :=
  effective_after [] fs.

Definition kv_run (fs : list command_fields) : kv_store := foldl kv_exec ∅ fs.

(** The commands in a sequence of committed entries. *)
Definition command_of (result : ApplyResult) : option command_fields :=
  if valid result then decoded (data result) else None.

Definition commands (rs : list ApplyResult) : list command_fields := omap command_of rs.

(** The server after a sequence of committed entries. *)
Definition apply_all (rs : list ApplyResult) (s : KvServer) : KvServer :=
  foldl (λ s r, (on_apply r s).1) s rs.

(** The last command of client [c] that took effect, with the commands that
    took effect before it. *)
Fixpoint last_of (c : N) (before fs : list command_fields)
    : option (list command_fields * command_fields) :=
  match fs with
  | [] => None
  | f :: fs =>
      match last_of c (before ++ [f]) fs with
      | Some r => Some r
      | None => if f_client f =? c then Some (before, f) else None
      end
  end.

(** ** The server implements the reference semantics *)

Lemma effective_after_app past fs gs :
  effective_after past (fs ++ gs) = effective_after past fs ++ effective_after (past ++ fs) gs.
Proof.
  revert past. induction fs as [|f fs IH]; intros past; simpl; [by rewrite app_nil_r|].
  rewrite IH, <- !app_assoc. done.
Qed.

Lemma effective_snoc fs f :
  effective (fs ++ [f]) = effective fs ++ (if fresh fs f then [f] else []).
Proof. unfold effective. rewrite effective_after_app. simpl. by rewrite app_nil_r. Qed.

Lemma last_of_snoc c fs f : ∀ before,
  last_of c before (fs ++ [f]) =
  if f_client f =? c then Some (before ++ fs, f) else last_of c before fs.
Proof.
  induction fs as [|g fs IH]; intros before; simpl; [by rewrite app_nil_r|].
  rewrite IH, <- app_assoc. simpl. by case_match.
Qed.

(** The reply that the reference semantics gives to the last command of [c]. *)
Definition cached_reply (es : list command_fields) (c : N) : option CachedReply :=
  '(before, f) ← last_of c [] es;
  Some (mkCachedReply (f_seq f) KV_SUCCESS (kv_answer (kv_run before) f)).

Lemma cached_snoc es f c :
  cached_reply (es ++ [f]) c =
  if f_client f =? c
  then Some (mkCachedReply (f_seq f) KV_SUCCESS (kv_answer (kv_run es) f))
  else cached_reply es c.
Proof. unfold cached_reply. rewrite last_of_snoc. by case_match. Qed.

Lemma fresh_snoc fs g f :
  fresh (fs ++ [g]) f =
  fresh fs f && negb ((f_client g =? f_client f) && (f_seq f <=? f_seq g)).
Proof. unfold fresh. rewrite forallb_app. simpl. by rewrite andb_true_r. Qed.

(** Being heard before is visible in the last command that took effect. *)
Lemma fresh_cached fs f :
  fresh fs f =
  match cached_reply (effective fs) (f_client f) with
  | Some c => cr_seq_num c <? f_seq f
  | None => true
  end.
Proof.
  revert f. induction fs as [|g fs IH] using rev_ind; intros f; [done|].
  rewrite effective_snoc, fresh_snoc.
  destruct (N.eqb_spec (f_client g) (f_client f)) as [Hc|Hc]; simpl.
  - rewrite <- N.ltb_antisym. pose proof (IH g) as Hg. rewrite (IH f). rewrite Hc in Hg.
    destruct (fresh fs g); [rewrite cached_snoc, Hc, N.eqb_refl; simpl|rewrite app_nil_r];
      destruct (cached_reply (effective fs) (f_client f)) as [h|]; try done;
      symmetry in Hg; bool_to_prop;
      repeat case_match; simplify_eq/=; rewrite ?andb_false_r, ?andb_true_r;
      repeat match goal with |- context [?a <? ?b] => destruct (N.ltb_spec a b) end;
      simpl; try done; lia.
  - rewrite andb_true_r, (IH f). destruct (fresh fs g); [|by rewrite app_nil_r].
    rewrite cached_snoc. by destruct (N.eqb_spec (f_client g) (f_client f)).
Qed.

Record refines_kv (fs : list command_fields) (s : KvServer) : Prop := {
  rk_store : store_ s = kv_run (effective fs);
  rk_rifl : ∀ c, rifl_ s !! c = cached_reply (effective fs) c }.

Lemma refines_kv_init : refines_kv [] KvServer_init.
Proof. by split. Qed.

Lemma refines_kv_frame fs s s' :
  store_ s' = store_ s → rifl_ s' = rifl_ s → refines_kv fs s → refines_kv fs s'.
Proof. intros E1 E2 [H1 H2]. split; [by rewrite E1|by rewrite E2]. Qed.

Lemma take_waiter_frame i c q a s :
  store_ (take_waiter i c q a s).1 = store_ s ∧ rifl_ (take_waiter i c q a s).1 = rifl_ s.
Proof. unfold take_waiter. by case_match. Qed.

Lemma lookup_dup_fresh fs s f :
  refines_kv fs s →
  lookup_dup f s = if fresh fs f then None else cached_reply (effective fs) (f_client f).
Proof.
  intros [_ Hr]. unfold lookup_dup. rewrite Hr, fresh_cached.
  destruct (cached_reply (effective fs) (f_client f)) as [c|]; [|done].
  rewrite N.leb_antisym. by destruct (cr_seq_num c <? f_seq f).
Qed.

Lemma execute_spec f s :
  execute f s = (set_store_ (kv_exec (store_ s) f) s, kv_answer (store_ s) f).
Proof. unfold execute, kv_exec, kv_answer. destruct (f_op f); [done| |done]. by destruct s. Qed.

(** The reply that the reference semantics gives to [f] after [fs]. *)
Definition reply_to (fs : list command_fields) (f : command_fields) : KvStatus * string :=
  match cached_reply (effective (fs ++ [f])) (f_client f) with
  | Some c => (cr_status c, cr_value c)
  | None => (KV_TIMEOUT, EmptyString)
  end.

(** One committed entry. *)
Lemma on_apply_spec fs r s :
  refines_kv fs s →
  refines_kv (fs ++ option_list (command_of r)) (on_apply r s).1 ∧
  (on_apply r s).2 =
  if valid r then
    w ← pending_ s !! index r;
    Some (po_promise w,
          match command_of r with
          | Some f => if (po_client_id w =? f_client f) && (po_seq_num w =? f_seq f)
                      then reply_to fs f else (KV_TIMEOUT, EmptyString)
          | None => (KV_TIMEOUT, EmptyString)
          end)
  else None.
Proof.
  intros Hs. unfold on_apply, command_of. destruct (valid r); simpl;
    [|split; [by rewrite app_nil_r|done]].
  destruct (decoded (data r)) as [f|]; simpl.
  2:{ rewrite app_nil_r. unfold notify_waiter_state_locked. split.
      - destruct (take_waiter_frame (index r) 0 0 (KV_TIMEOUT, EmptyString) s) as [E1 E2].
        by eapply refines_kv_frame.
      - unfold take_waiter. destruct (pending_ s !! index r); [|done]. simpl. by case_match. }
  unfold reply_to. rewrite (lookup_dup_fresh fs s f Hs), effective_snoc.
  pose proof (fresh_cached fs f) as Hfresh.
  destruct (fresh fs f) eqn:Hf.
  - rewrite execute_spec, cached_snoc, N.eqb_refl, (rk_store _ _ Hs). simpl. split.
    + unfold finish_apply. simpl.
      match goal with |- context [take_waiter ?i ?c ?q ?a ?t] =>
        destruct (take_waiter_frame i c q a t) as [E1 E2] end.
      split; [rewrite E1|intros c; rewrite E2]; simpl; rewrite effective_snoc, Hf.
      * unfold kv_run. by rewrite foldl_app.
      * rewrite cached_snoc, lookup_insert. repeat case_decide; subst;
          [by rewrite N.eqb_refl|]. rewrite (rk_rifl _ _ Hs).
        by destruct (N.eqb_spec (f_client f) c).
    + unfold finish_apply, take_waiter. simpl. by destruct (pending_ s !! index r).
  - rewrite app_nil_r. destruct (cached_reply (effective fs) (f_client f)) as [c|]; [|done].
    simpl. split.
    + unfold finish_apply.
      match goal with |- context [take_waiter ?i ?c ?q ?a ?t] =>
        destruct (take_waiter_frame i c q a t) as [E1 E2] end.
      eapply (refines_kv_frame _ s); [done|done|].
      destruct Hs as [H1 H2]. split; [|intros k]; rewrite effective_snoc, Hf, app_nil_r; auto.
    + unfold finish_apply, take_waiter. simpl. by destruct (pending_ s !! index r).
Qed.

Lemma apply_all_refines rs : ∀ fs s,
  refines_kv fs s → refines_kv (fs ++ commands rs) (apply_all rs s).
Proof.
  induction rs as [|r rs IH]; intros fs s Hs; simpl; [by rewrite app_nil_r|].
  destruct (on_apply_spec fs r s Hs) as [Hs' _]. specialize (IH _ _ Hs').
  rewrite <- app_assoc in IH. unfold commands in *. simpl. by destruct (command_of r).
Qed.

(** ** Exactly-once semantics *)

(** C24: after any sequence of committed entries, retries and garbage included,
    the store is what a plain map gives for the commands that take effect, in
    order, and the reply cache holds for every client the reply that the plain
    map gives to its last such command. *)
Theorem kv_exactly_once rs :
  store_ (apply_all rs KvServer_init) = kv_run (effective (commands rs)) ∧
  ∀ c, rifl_ (apply_all rs KvServer_init) !! c = cached_reply (effective (commands rs)) c.
Proof. by destruct (apply_all_refines rs [] KvServer_init refines_kv_init). Qed.

Lemma effective_in fs f : f ∈ effective fs → f ∈ fs.
Proof.
  induction fs as [|g fs IH] using rev_ind; [done|].
  rewrite effective_snoc, !elem_of_app.
  intros [Hf|Hf]; [left; auto|]. destruct (fresh fs g); [by right|by apply elem_of_nil in Hf].
Qed.

Lemma fresh_spec fs f :
  fresh fs f = true ↔ ∀ g, g ∈ fs → f_client g = f_client f → f_seq g < f_seq f.
Proof.
  unfold fresh. rewrite forallb_forall. split.
  - intros H g Hg%list_elem_of_In Hc. specialize (H g Hg). rewrite Hc, N.eqb_refl in H.
    simpl in H. bool_to_prop. done.
  - intros H g Hg%list_elem_of_In. specialize (H g Hg).
    destruct (N.eqb_spec (f_client g) (f_client f)); [|done]. simpl.
    rewrite negb_true_iff, N.leb_gt. auto.
Qed.

(** Along the commands that take effect, the sequence numbers of a client increase. *)
Lemma effective_order fs i j f g :
  effective fs !! i = Some f → effective fs !! j = Some g → (i < j)%nat →
  f_client f = f_client g → f_seq f < f_seq g.
Proof.
  revert i j f g. induction fs as [|h fs IH] using rev_ind; intros i j f g Hi Hj Hij Hc; [done|].
  rewrite effective_snoc in Hi, Hj. destruct (fresh fs h) eqn:Hh; [|rewrite app_nil_r in *; eauto].
  apply lookup_snoc_Some in Hj as [[Hlt Hj]|[-> ->]].
  - rewrite lookup_app_l in Hi by lia. eauto.
  - rewrite lookup_app_l in Hi by lia. rewrite fresh_spec in Hh.
    apply Hh; [|done]. by eapply effective_in, list_elem_of_lookup_2.
Qed.

(** No command takes effect twice: along the commands that take effect, the
    sequence numbers of a client strictly increase. *)
Lemma effective_at_most_once fs i j f g :
  effective fs !! i = Some f → effective fs !! j = Some g → (i < j)%nat →
  f_client f = f_client g → f_seq f < f_seq g.
Proof. apply effective_order. Qed.

(** Commands that their client has outrun leave its cached reply alone. *)
Lemma cached_outrun fs f mid :
  f ∈ fs → (∀ g, g ∈ mid → f_client g = f_client f → f_seq g ≤ f_seq f) →
  cached_reply (effective (fs ++ mid)) (f_client f) = cached_reply (effective fs) (f_client f).
Proof.
  intros Hf. induction mid as [|g mid IH] using rev_ind; intros Hmid; [by rewrite app_nil_r|].
  rewrite app_assoc, effective_snoc. rewrite <- IH by set_solver.
  destruct (fresh (fs ++ mid) g) eqn:Hg; [|by rewrite app_nil_r].
  rewrite cached_snoc. destruct (N.eqb_spec (f_client g) (f_client f)) as [Hc|]; [|done].
  rewrite fresh_spec in Hg.
  assert (f_seq f < f_seq g) by (apply Hg; [apply elem_of_app; by left|done]).
  assert (f_seq g ≤ f_seq f) by (apply Hmid; [apply elem_of_app; right; by left|done]).
  lia.
Qed.

(** A retry is answered like the original: as long as the client has not
    moved on to a later sequence number, the reply to a second copy of a command
    that took effect is the reply to the first, whatever the other clients did
    in between. *)
Lemma retry_same_reply past f mid f' :
  fresh past f = true →
  (∀ g, g ∈ mid → f_client g = f_client f → f_seq g ≤ f_seq f) →
  f_client f' = f_client f → f_seq f' = f_seq f →
  reply_to (past ++ [f] ++ mid) f' = reply_to past f ∧
  reply_to past f = (KV_SUCCESS, kv_answer (kv_run (effective past)) f).
Proof.
  intros Hf Hmid Hc Hs. unfold reply_to. rewrite Hc.
  replace ((past ++ [f] ++ mid) ++ [f']) with ((past ++ [f]) ++ (mid ++ [f']))
    by (by rewrite <- !app_assoc).
  rewrite cached_outrun; [|set_solver|].
  - split; [done|]. by rewrite effective_snoc, Hf, cached_snoc, N.eqb_refl.
  - intros g [Hg| ->%list_elem_of_singleton]%elem_of_app; [auto|]. intros _. lia.
Qed.

(** A client that puts, reads and retries its read after somebody else's append. *)
Definition put_x : command_fields := mkFields PUT 1 1 "x" "a".
Definition get_x : command_fields := mkFields GET 1 2 "x" "".
Definition app_x : command_fields := mkFields APPEND 2 1 "x" "b".

Lemma effective_at_most_once_witness :
  effective [put_x; get_x; put_x; app_x; get_x] = [put_x; get_x; app_x] ∧
  f_seq put_x < f_seq get_x.
Proof.
  split; [reflexivity|].
  apply (effective_at_most_once [put_x; get_x; put_x; app_x; get_x] 0 1);
    [reflexivity|reflexivity|apply Nat.ltb_lt; reflexivity|reflexivity].
Defined.

Lemma retry_same_reply_witness :
  reply_to [put_x; get_x; app_x] get_x = (KV_SUCCESS, "a").
Proof.
  destruct (retry_same_reply [put_x] get_x [app_x] get_x) as [H1 H2];
    [reflexivity| |reflexivity|reflexivity|].
  - intros g Hg Hc. apply list_elem_of_singleton in Hg. subst g. discriminate.
  - etransitivity; [exact H1|]. etransitivity; [exact H2|]. vm_compute. reflexivity.
Defined.
