(* ===== verification/KvService.v ===== *)
(** The key-value service: the gRPC handlers [Put], [Get] and [Append] of
    [inc/kv/kv_server.hpp] beside the thread that runs [on_apply], with the
    promises and futures that join them.

    The Raft node is used through the interface [RaftApi], of which [Raft] is an
    instance; the theorems hold for every instance. *)
From S2P Require Import Prelude Types RaftState RaftNode KvCodec KvServer.

#[local] Open Scope N_scope.

(** ** The interface to the Raft node

    What the server uses of [Raft]: [propose], the three atomic loads of [get_lease_state],
    and the two laws of [propose] that it relies on: a leader appends the command at the
    index that it returns, anybody else changes nothing. *)
Class RaftApi (R : Type) := {
  api_propose : string → R → R * ProposalResult;
  api_is_leader : R → bool;
  api_expires : R → Z;
  api_commit_idx : R → N;
  api_log : R → list string;
  api_propose_leader r d r' p :
    api_propose d r = (r', p) → pr_is_leader p = true →
    api_log r' = api_log r ++ [d] ∧ pr_index p = vsize (api_log r');
  api_propose_other r d r' p :
    api_propose d r = (r', p) → pr_is_leader p = false → r' = r }.

Lemma propose_leader n d n' p :
  propose d n = (n', p) → pr_is_leader p = true →
  command <$> log_ n' = (command <$> log_ n) ++ [d] ∧ pr_index p = vsize (command <$> log_ n').
Proof.
  unfold propose. case_decide; intros Hp; simplify_eq/=; [|done]. intros _.
  rewrite fmap_app. split; [done|]. unfold vsize. by rewrite !length_app, length_fmap.
Qed.

Lemma propose_other n d n' p : propose d n = (n', p) → pr_is_leader p = false → n' = n.
Proof. unfold propose. case_decide; intros Hp; by simplify_eq/=. Qed.

#[export] Instance Raft_api : RaftApi Raft := {
  api_propose := propose;
  api_is_leader := is_leader_atomic_;
  api_expires := lease_expires_ns_;
  api_commit_idx := last_term_commit_idx_;
  api_log n := command <$> log_ n;
  api_propose_leader := propose_leader;
  api_propose_other := propose_other }.

(** ** Handlers beside the apply thread

    A handler thread is named by a number, which also names the promise that it
    makes.  [f] is the command that its request describes; [via] of a finished
    call tells whether the value was read under the lease. *)
Inductive call :=
| CExpires (f : command_fields)
| CIndex (f : command_fields)
| CRead (f : command_fields)
| CPropose (f : command_fields)
| CRegister (f : command_fields) (idx : N)
| CWait (f : command_fields) (idx : N)
| CErase (f : command_fields) (idx : N)
| CDone (f : command_fields) (lease : bool) (answer : KvStatus * string)
| CThrown (f : command_fields).

Inductive future := FEmpty | FValue (answer : KvStatus * string) | FBroken.

(** The apply thread between two sections of [on_apply]. *)
Inductive apply_pc :=
| AIdle
| AExec (f : command_fields) (idx : N)
| AFinish (f : command_fields) (idx : N) (is_dup : bool) (status : KvStatus) (value : string)
| ASet (p : fulfilment).

Section system.
Context {R : Type} `{!RaftApi R}.

(** [heard] records the commands in the order in which the apply thread took
    them up. *)
Record system := mkSystem {
  raft_ : R;
  server : KvServer;
  futures : gmap N future;
  calls : gmap N call;
  apc : apply_pc;
  heard : list command_fields }.

Definition set_call (h : N) (c : call) (s : system) : system :=
  mkSystem (raft_ s) (server s) (futures s) (<[h := c]> (calls s)) (apc s) (heard s).
Definition set_apc (a : apply_pc) (s : system) : system :=
  mkSystem (raft_ s) (server s) (futures s) (calls s) a (heard s).
Definition set_server (k : KvServer) (s : system) : system :=
  mkSystem (raft_ s) k (futures s) (calls s) (apc s) (heard s).
Definition set_futures (m : gmap N future) (s : system) : system :=
  mkSystem (raft_ s) (server s) m (calls s) (apc s) (heard s).
Definition set_raft (r : R) (s : system) : system :=
  mkSystem r (server s) (futures s) (calls s) (apc s) (heard s).
Definition hear (f : command_fields) (s : system) : system :=
  mkSystem (raft_ s) (server s) (futures s) (calls s) (apc s) (heard s ++ [f]).

(** A promise that is destroyed before it has a value breaks its future. *)
Definition break (p : N) (m : gmap N future) : gmap N future :=
  match m !! p with Some FEmpty => <[p := FBroken]> m | _ => m end.
Definition break_slot (idx : N) (s : system) : gmap N future :=
  match pending_ (server s) !! idx with
  | Some w => break (po_promise w) (futures s)
  | None => futures s
  end.

Definition fulfil (o : option fulfilment) (m : gmap N future) : gmap N future :=
  match o with
  | Some (p, a) => <[p := FValue a]> m
  | None => m
  end.

Inductive klabel :=
| KCall (h : N) (f : command_fields)
| KExpires (h : N) (now : Z)
| KIndex (h : N)
| KRead (h : N)
| KPropose (h : N)
| KRegister (h : N)
| KTimeout (h : N)
| KErase (h : N)
| KGet (h : N)
| KApply (result : ApplyResult)
| KExec
| KFinish
| KSet
| KRaft (r : R).

Inductive koutcome := KNext (s : system) | KUndefined | KDisabled.

(** [Put], [Get] and [Append] up to their first shared access: a [Get] loads the flag of
    the leader, the others go to the log at once. *)
Definition begin_call (h : N) (f : command_fields) (s : system) : koutcome :=
  match calls s !! h, f_op f with
  | None, GET => KNext (set_call h (if api_is_leader (raft_ s) then CExpires f else CPropose f) s)
  | None, _ => KNext (set_call h (CPropose f) s)
  | Some _, _ => KDisabled
  end.

(** The rest of [get_lease_state]: the clock and the expiry, then the index. *)
Definition lease_load (l : klabel) (s : system) : koutcome :=
  match l with
  | KExpires h now =>
      match calls s !! h with
      | Some (CExpires f) =>
          KNext (set_call h (if (api_expires (raft_ s) <=? now)%Z then CPropose f else CIndex f) s)
      | _ => KDisabled
      end
  | KIndex h =>
      match calls s !! h with
      | Some (CIndex f) =>
          KNext (set_call h (if api_commit_idx (raft_ s) =? 0 then CPropose f else CRead f) s)
      | _ => KDisabled
      end
  | _ => KDisabled
  end.

(** [try_leader_read] once it has the lease. *)
Definition leader_read (h : N) (s : system) : koutcome :=
  match calls s !! h with
  | Some (CRead f) =>
      KNext (set_call h
               (CDone f true (KV_SUCCESS,
                              default EmptyString (store_ (server s) !! f_key f))) s)
  | _ => KDisabled
  end.

(** [serialize] and [raft_.propose] at the head of [propose_and_wait]. *)
Definition propose_call (h : N) (s : system) : koutcome :=
  match calls s !! h with
  | Some (CPropose f) =>
      match serialize (f_op f) (f_client f) (f_seq f) (f_key f)
              (match f_op f with GET => EmptyString | _ => f_value f end) with
      | None => KUndefined
      | Some d =>
          let '(r, proposal) := api_propose d (raft_ s) in
          KNext (set_call h
                   (if pr_is_leader proposal then CRegister f (pr_index proposal)
                    else CDone f false (KV_NOTLEADER, EmptyString)) (set_raft r s))
      end
  | _ => KDisabled
  end.

(** The rest of [propose_and_wait]: register the promise; time out and erase the
    slot; or take the value. *)
Definition propose_and_wait (l : klabel) (s : system) : koutcome :=
  match l with
  | KRegister h =>
      match calls s !! h with
      | Some (CRegister f idx) =>
          let op := mkPendingOp (f_client f) (f_seq f) h in
          let k := server s in
          KNext (set_call h (CWait f idx)
                   (set_server (set_pending_ (<[idx := op]> (pending_ k)) k)
                      (set_futures (<[h := FEmpty]> (break_slot idx s)) s)))
      | _ => KDisabled
      end
  | KTimeout h =>
      match calls s !! h, futures s !! h with
      | Some (CWait f idx), Some FEmpty => KNext (set_call h (CErase f idx) s)
      | _, _ => KDisabled
      end
  | KErase h =>
      match calls s !! h with
      | Some (CErase f idx) =>
          let k := server s in
          KNext (set_call h (CDone f false (KV_TIMEOUT, EmptyString))
                   (set_server (set_pending_ (delete idx (pending_ k)) k)
                      (set_futures (break_slot idx s) s)))
      | _ => KDisabled
      end
  | KGet h =>
      match calls s !! h, futures s !! h with
      | Some (CWait f idx), Some (FValue a) =>
          KNext (set_call h (CDone f false a) s)
      | Some (CWait f idx), Some FBroken => KNext (set_call h (CThrown f) s)
      | _, _ => KDisabled
      end
  | _ => KDisabled
  end.

(** A step of a handler thread. *)
Definition handler_step (l : klabel) (s : system) : koutcome :=
  match l with
  | KCall h f => begin_call h f s
  | KExpires _ _ | KIndex _ => lease_load l s
  | KRead h => leader_read h s
  | KPropose h => propose_call h s
  | _ => propose_and_wait l s
  end.

(** The steps of [on_apply]. *)
Definition apply_step (l : klabel) (s : system) : koutcome :=
  match l, apc s with
  | KApply result, AIdle =>
      if negb (valid result) then KNext s
      else
        match decoded (data result) with
        | None =>
            let '(k, o) := notify_waiter_state_locked (index result) 0 0 KV_TIMEOUT
                             EmptyString (server s) in
            KNext (set_server k (set_futures (fulfil o (futures s)) s))
        | Some f =>
            match lookup_dup f (server s) with
            | Some c =>
                KNext (hear f (set_apc (AFinish f (index result) true (cr_status c) (cr_value c)) s))
            | None => KNext (set_apc (AExec f (index result)) s)
            end
        end
  | KExec, AExec f idx =>
      let '(k, value) := execute f (server s) in
      KNext (hear f (set_apc (AFinish f idx false KV_SUCCESS value) (set_server k s)))
  | KFinish, AFinish f idx is_dup status value =>
      let '(k, o) := finish_apply f idx is_dup status value (server s) in
      KNext (set_apc (match o with Some p => ASet p | None => AIdle end) (set_server k s))
  | KSet, ASet p => KNext (set_apc AIdle (set_futures (fulfil (Some p) (futures s)) s))
  | _, _ => KDisabled
  end.

Definition kstep (l : klabel) (s : system) : koutcome :=
  match l with
  | KRaft r => KNext (set_raft r s)
  | KApply _ | KExec | KFinish | KSet => apply_step l s
  | _ => handler_step l s
  end.

Fixpoint krun (ls : list klabel) (s : system) : option system :=
  match ls with
  | [] => Some s
  | l :: ls => match kstep l s with KNext s' => krun ls s' | _ => None end
  end.

Definition kboot (r : R) : system := mkSystem r KvServer_init ∅ ∅ AIdle [].
End system.

#[global] Arguments system : clear implicits.
#[global] Arguments klabel : clear implicits.
#[global] Arguments koutcome : clear implicits.

(** ** What the answers mean *)

(** The command that a call is about. *)
Definition call_cmd (c : call) : command_fields :=
  match c with
  | CExpires f | CIndex f | CRead f | CPropose f | CRegister f _ | CWait f _ | CErase f _ | CDone f _ _ | CThrown f => f
  end.

(** A success is the reply of the reference semantics to a copy of the command
    at some point of the committed sequence. *)
Definition answered (hd : list command_fields) (f : command_fields) (a : KvStatus * string) : Prop :=
  a.1 = KV_SUCCESS →
  ∃ past g rest, hd = past ++ g :: rest ∧ f_client g = f_client f ∧ f_seq g = f_seq f ∧
                 a = reply_to past g.

(** A read under the lease is the value of the key at some point of the
    committed sequence. *)
Definition lease_read (hd : list command_fields) (f : command_fields) (a : KvStatus * string) : Prop :=
  ∃ past rest, hd = past ++ rest ∧
    a = (KV_SUCCESS, default EmptyString (kv_run (effective past) !! f_key f)).

Definition done_ok (hd : list command_fields) (c : call) : Prop :=
  match c with
  | CDone f true a => lease_read hd f a
  | CDone f false a => answered hd f a
  | _ => True
  end.

Lemma answered_more hd k f a : answered hd f a → answered (hd ++ k) f a.
Proof.
  intros H Hs. destruct (H Hs) as (past & g & rest & -> & ? & ? & ?).
  exists past, g, (rest ++ k). by rewrite <- app_assoc.
Qed.

Lemma lease_read_more hd k f a : lease_read hd f a → lease_read (hd ++ k) f a.
Proof. intros (past & rest & -> & ?). exists past, (rest ++ k). by rewrite <- app_assoc. Qed.

Lemma done_ok_more hd k c : done_ok hd c → done_ok (hd ++ k) c.
Proof. destruct c as [| | | | | | |f [] a|]; simpl; eauto using answered_more, lease_read_more. Qed.

#[export] Hint Resolve answered_more lease_read_more done_ok_more : rafty.

(** The store and the reply cache between two sections of [on_apply]. *)
Definition apply_inv (a : apply_pc) (hd : list command_fields) (k : KvServer) : Prop :=
  match a with
  | AIdle | ASet _ => refines_kv hd k
  | AExec f _ => refines_kv hd k ∧ fresh hd f = true
  | AFinish f _ is_dup status value =>
      ∃ past, hd = past ++ [f] ∧ store_ k = kv_run (effective hd) ∧
        (∀ c, rifl_ k !! c = cached_reply (effective past) c) ∧
        is_dup = negb (fresh past f) ∧ (status, value) = reply_to past f
  end.

Section answers.
Context {R : Type} `{!RaftApi R}.
Implicit Types (s : system R) (l : klabel R).

(** The call [h] exists and [P] holds of its command. *)
Definition for_call s (h : N) (P : command_fields → Prop) : Prop :=
  ∃ c, calls s !! h = Some c ∧ P (call_cmd c).

Record kv_inv s : Prop := {
  ki_apply : apply_inv (apc s) (heard s) (server s);
  ki_calls : ∀ h c, calls s !! h = Some c → done_ok (heard s) c;
  ki_pending : ∀ idx w, pending_ (server s) !! idx = Some w →
    for_call s (po_promise w) (λ f, f_client f = po_client_id w ∧ f_seq f = po_seq_num w);
  ki_futures : ∀ h a, futures s !! h = Some (FValue a) →
    for_call s h (λ f, answered (heard s) f a);
  ki_set : ∀ p a, apc s = ASet (p, a) → for_call s p (λ f, answered (heard s) f a) }.

Lemma kv_inv_boot r : kv_inv (kboot r).
Proof. by split. Qed.

Lemma apply_inv_frame a hd k k' :
  store_ k' = store_ k → rifl_ k' = rifl_ k → apply_inv a hd k → apply_inv a hd k'.
Proof.
  intros E1 E2. destruct a; simpl; rewrite ?E1; try (by apply refines_kv_frame).
  - intros []. split; [|done]. by eapply refines_kv_frame.
  - by setoid_rewrite E2.
Qed.

(** A step of a handler [h]: its call advances, the waiters are old ones or its
    own, and no future gets a value. *)
Lemma kv_inv_handler s h c' r k m :
  kv_inv s →
  match calls s !! h with Some c => call_cmd c' = call_cmd c | None => True end →
  done_ok (heard s) c' →
  store_ k = store_ (server s) → rifl_ k = rifl_ (server s) →
  (∀ idx w, pending_ k !! idx = Some w →
     pending_ (server s) !! idx = Some w ∨
     po_promise w = h ∧ po_client_id w = f_client (call_cmd c') ∧ po_seq_num w = f_seq (call_cmd c')) →
  (∀ p a, m !! p = Some (FValue a) → futures s !! p = Some (FValue a)) →
  kv_inv (mkSystem r k m (<[h := c']> (calls s)) (apc s) (heard s)).
Proof.
  intros [Ha Hc Hp Hf Hs] Hcmd Hdone E1 E2 Hpend Hfut.
  assert (∀ p P, for_call s p P →
    for_call (mkSystem r k m (<[h := c']> (calls s)) (apc s) (heard s)) p P) as Hkeep.
  { intros p P (c & Hcp & HP). unfold for_call. simpl. destruct (decide (p = h)) as [->|Hne].
    - exists c'. rewrite lookup_insert_eq. split; [done|]. rewrite Hcp in Hcmd. by rewrite Hcmd.
    - exists c. by rewrite lookup_insert_ne. }
  split; simpl; eauto.
  - by eapply apply_inv_frame.
  - intros p c. rewrite lookup_insert. case_decide; [|eauto]. by intros [= <-].
  - intros idx w Hw. destruct (Hpend idx w Hw) as [Hold|(-> & E3 & E4)]; [eauto|].
    exists c'. simpl. by rewrite lookup_insert_eq.
Qed.

(** A step of the apply thread: the committed sequence may grow, and the futures
    and the announced value are answers to their calls. *)
Lemma kv_inv_applied s k m a hd :
  kv_inv s → apply_inv a (heard s ++ hd) k →
  (∀ idx w, pending_ k !! idx = Some w → pending_ (server s) !! idx = Some w) →
  (∀ p x, m !! p = Some (FValue x) → for_call s p (λ f, answered (heard s ++ hd) f x)) →
  (∀ p x, a = ASet (p, x) → for_call s p (λ f, answered (heard s ++ hd) f x)) →
  kv_inv (mkSystem (raft_ s) k m (calls s) a (heard s ++ hd)).
Proof.
  intros [Ha Hc Hp Hf Hs] Ha' Hpend Hfut Hset. split; simpl; eauto.
  intros h c Hh. apply done_ok_more. eauto.
Qed.

Lemma break_value p m h a : break p m !! h = Some (FValue a) → m !! h = Some (FValue a).
Proof.
  unfold break. destruct (m !! p) as [[]|]; try done.
  rewrite lookup_insert. by case_decide.
Qed.

Lemma break_slot_value idx s h a :
  break_slot idx s !! h = Some (FValue a) → futures s !! h = Some (FValue a).
Proof. unfold break_slot. case_match; [apply break_value|done]. Qed.

(** Close the side conditions that do not depend on the step. *)
Ltac advance s Hh :=
  apply (kv_inv_handler s); try rewrite Hh; simpl; auto; try (by intros ?).

Lemma handler_step_inv l s s' : handler_step l s = KNext s' → kv_inv s → kv_inv s'.
Proof.
  intros Hstep Hinv.
  destruct l; simpl in Hstep; unfold begin_call, leader_read, propose_call in Hstep; try done.
  - destruct (calls s !! h) as [c|] eqn:Hh; [by destruct (f_op f)|].
    destruct (f_op f); simplify_eq; try destruct (api_is_leader (raft_ s)); advance s Hh.
  - destruct (calls s !! h) as [[]|] eqn:Hh; simplify_eq. destruct (_ <=? _)%Z; advance s Hh.
  - destruct (calls s !! h) as [[]|] eqn:Hh; simplify_eq. destruct (_ =? _); advance s Hh.
  - destruct (calls s !! h) as [[]|] eqn:Hh; simplify_eq.
    advance s Hh. simpl.
    destruct (apc s) eqn:Ha; pose proof (ki_apply _ Hinv) as Hap; rewrite Ha in Hap; simpl in Hap.
    + exists (heard s), []. rewrite app_nil_r, (rk_store _ _ Hap). done.
    + exists (heard s), []. destruct Hap as [Hap _]. rewrite app_nil_r, (rk_store _ _ Hap). done.
    + exists (heard s), []. destruct Hap as (past & _ & Hst & _). rewrite app_nil_r, Hst. done.
    + exists (heard s), []. rewrite app_nil_r, (rk_store _ _ Hap). done.
  - destruct (calls s !! h) as [[]|] eqn:Hh; simplify_eq.
    destruct (serialize _ _ _ _ _) as [d|]; [|done].
    destruct (api_propose d (raft_ s)) as [r p]. simplify_eq.
    destruct (pr_is_leader p); advance s Hh.
  - destruct (calls s !! h) as [[]|] eqn:Hh; simplify_eq.
    advance s Hh.
    + intros i w. rewrite lookup_insert. case_decide; [|by left]. intros [= <-]. by right.
    + intros p a. rewrite lookup_insert. case_decide; [done|]. apply break_slot_value.
  - destruct (calls s !! h) as [[]|] eqn:Hh; simplify_eq.
    destruct (futures s !! h) as [[]|] eqn:Hf; simplify_eq.
    advance s Hh.
  - destruct (calls s !! h) as [[]|] eqn:Hh; simplify_eq.
    advance s Hh; eauto using break_slot_value.
    intros i w Hw. left. by apply lookup_delete_Some in Hw as [_ ?].
  - destruct (calls s !! h) as [[]|] eqn:Hh; simplify_eq.
    destruct (futures s !! h) as [[]|] eqn:Hf; simplify_eq;
      advance s Hh.
    destruct (ki_futures _ Hinv h answer Hf) as (c & Hc & Ha). rewrite Hh in Hc.
    by simplify_eq.
Qed.

(** What the last section announces answers the waiter. *)
Lemma take_waiter_inv s idx f a k0 k o :
  kv_inv s → (a.1 = KV_SUCCESS → answered (heard s) f a) →
  pending_ k0 = pending_ (server s) →
  take_waiter idx (f_client f) (f_seq f) a k0 = (k, o) →
  (∀ i w, pending_ k !! i = Some w → pending_ (server s) !! i = Some w) ∧
  (∀ p x, o = Some (p, x) → for_call s p (λ g, answered (heard s) g x)).
Proof.
  intros Hinv Ha Hk0. unfold take_waiter. rewrite <- Hk0.
  destruct (pending_ k0 !! idx) as [w|] eqn:Hw; intros Ht; simplify_eq; [|done].
  rewrite Hk0 in Hw. split.
  - intros i w' Hw'. simpl in Hw'. by apply lookup_delete_Some in Hw' as [_ ?].
  - intros p x [= <- <-]. destruct (ki_pending _ Hinv idx w Hw) as (c & Hc & Hcl & Hsq).
    exists c. split; [done|]. case_match; [|by intros ?]. bool_to_prop.
    intros Hs. destruct (Ha Hs Hs) as (past & g & rest & ? & ? & ? & ?).
    exists past, g, rest. split_and!; congruence.
Qed.

Lemma for_call_more s p k x :
  for_call s p (λ f, answered (heard s) f x) → for_call s p (λ f, answered (heard s ++ k) f x).
Proof. intros (c & Hc & Ha). exists c. eauto with rafty. Qed.

Lemma refused_inv r s k o :
  kv_inv s → apply_inv AIdle (heard s) (server s) →
  notify_waiter_state_locked (index r) 0 0 KV_TIMEOUT EmptyString (server s) = (k, o) →
  kv_inv (mkSystem (raft_ s) k (fulfil o (futures s)) (calls s) AIdle (heard s)).
Proof.
  intros Hinv Ha Hn. unfold notify_waiter_state_locked in Hn.
  destruct (take_waiter_inv s (index r) (mkFields PUT 0 0 EmptyString EmptyString)
              (KV_TIMEOUT, EmptyString) (server s) k o Hinv) as [Hpend Htold]; [done..|].
  rewrite <- (app_nil_r (heard s)).
  apply kv_inv_applied; try done; rewrite app_nil_r.
  - destruct (take_waiter_frame (index r) 0 0 (KV_TIMEOUT, EmptyString) (server s)) as [E1 E2].
    rewrite Hn in E1, E2. by eapply refines_kv_frame.
  - intros p x Hp. destruct o as [[q y]|]; simpl in Hp; [|by apply (ki_futures _ Hinv)].
    rewrite lookup_insert in Hp. case_decide; simplify_eq; [by apply Htold|].
    by apply (ki_futures _ Hinv).
Qed.

(** The first section. *)
Lemma taken_up_inv f idx s :
  kv_inv s → apply_inv AIdle (heard s) (server s) →
  kv_inv match lookup_dup f (server s) with
         | Some c => hear f (set_apc (AFinish f idx true (cr_status c) (cr_value c)) s)
         | None => set_apc (AExec f idx) s
         end.
Proof.
  intros Hinv Ha. simpl in Ha. rewrite (lookup_dup_fresh _ _ f Ha).
  pose proof (fresh_cached (heard s) f) as Hfc. destruct (fresh (heard s) f) eqn:Hf.
  - pose proof (kv_inv_applied s (server s) (futures s) (AExec f idx) [] Hinv) as Hk.
    rewrite app_nil_r in Hk. apply Hk; try done. by apply (ki_futures _ Hinv).
  - destruct (cached_reply (effective (heard s)) (f_client f)) as [c|] eqn:Hc; [|done].
    apply (kv_inv_applied s (server s) (futures s)); try done.
    + exists (heard s). rewrite Hf. split_and!; try done.
      * rewrite effective_snoc, Hf, app_nil_r. apply Ha.
      * apply Ha.
      * unfold reply_to. rewrite effective_snoc, Hf, app_nil_r, Hc. done.
    + intros p x Hp. by apply for_call_more, (ki_futures _ Hinv).
Qed.

(** The second section. *)
Lemma executed_inv f idx s :
  kv_inv s → apply_inv (AExec f idx) (heard s) (server s) →
  kv_inv (hear f (set_apc (AFinish f idx false KV_SUCCESS (kv_answer (store_ (server s)) f))
                    (set_server (set_store_ (kv_exec (store_ (server s)) f) (server s)) s))).
Proof.
  intros Hinv [Ha Hf]. apply (kv_inv_applied s); try done.
  - exists (heard s). rewrite Hf. split_and!; try done; simpl.
    + rewrite effective_snoc, Hf, (rk_store _ _ Ha). unfold kv_run. by rewrite foldl_app.
    + apply Ha.
    + unfold reply_to. rewrite effective_snoc, Hf, cached_snoc, N.eqb_refl. simpl.
      by rewrite (rk_store _ _ Ha).
  - intros p x Hp. by apply for_call_more, (ki_futures _ Hinv).
Qed.

(** The last section. *)
Lemma finished_inv f idx is_dup status value s k o :
  kv_inv s → apply_inv (AFinish f idx is_dup status value) (heard s) (server s) →
  finish_apply f idx is_dup status value (server s) = (k, o) →
  kv_inv (set_apc (match o with Some p => ASet p | None => AIdle end) (set_server k s)).
Proof.
  intros Hinv (past & Hhd & Hst & Hrifl & Hdup & Hrep) Hfin. unfold finish_apply in Hfin.
  match type of Hfin with take_waiter _ _ _ _ ?k0 = _ => set (k1 := k0) in * end.
  assert (refines_kv (heard s) k1) as Hk1.
  { subst k1 is_dup. rewrite Hhd. rewrite Hhd, effective_snoc in Hst.
    unfold reply_to in Hrep. rewrite effective_snoc in Hrep. split; rewrite effective_snoc.
    - destruct (fresh past f); simpl; done.
    - intros c. destruct (fresh past f); simpl; [|by rewrite app_nil_r].
      rewrite cached_snoc, N.eqb_refl in Hrep. simpl in Hrep. simplify_eq.
      rewrite cached_snoc, lookup_insert, Hrifl.
      destruct (N.eqb_spec (f_client f) c); by case_decide. }
  destruct (take_waiter_inv s idx f (status, value) k1 k o Hinv) as [Hpend Htold];
    [|by subst k1; destruct is_dup|done|].
  { intros _ _. exists past, f, []. by rewrite Hhd. }
  pose proof (kv_inv_applied s k (futures s)
                (match o with Some p => ASet p | None => AIdle end) [] Hinv) as Hk.
  rewrite app_nil_r in Hk. apply Hk; try done.
  - destruct (take_waiter_frame idx (f_client f) (f_seq f) (status, value) k1) as [E1 E2].
    rewrite Hfin in E1, E2. destruct o; by eapply refines_kv_frame.
  - apply (ki_futures _ Hinv).
  - intros p x Ho. destruct o as [q|]; simplify_eq. by apply Htold.
Qed.

Lemma apply_step_inv l s s' : apply_step l s = KNext s' → kv_inv s → kv_inv s'.
Proof.
  intros Hstep Hinv. pose proof (ki_apply _ Hinv) as Ha. unfold apply_step in Hstep.
  destruct l; try done; destruct (apc s) eqn:Hpc; try done.
  - destruct (negb (valid result)); [by simplify_eq|].
    destruct (decoded (data result)) as [f|].
    + pose proof (taken_up_inv f (index result) s Hinv Ha).
      by destruct (lookup_dup f (server s)); simplify_eq.
    + destruct (notify_waiter_state_locked _ _ _ _ _ _) as [k o] eqn:Hn. simplify_eq.
      unfold set_server, set_futures. simpl. rewrite Hpc. by eapply refused_inv.
  - rewrite execute_spec in Hstep. simplify_eq. by apply executed_inv.
  - destruct (finish_apply _ _ _ _ _ _) as [k o] eqn:Hfin. simplify_eq. by eapply finished_inv.
  - simplify_eq. destruct p as [q y].
    pose proof (kv_inv_applied s (server s) (<[q := FValue y]> (futures s)) AIdle [] Hinv) as Hk.
    rewrite app_nil_r in Hk. apply Hk; try done.
    intros p x Hp. rewrite lookup_insert in Hp.
    case_decide; simplify_eq; [by apply (ki_set _ Hinv)|by apply (ki_futures _ Hinv)].
Qed.

Lemma kstep_inv l s s' : kstep l s = KNext s' → kv_inv s → kv_inv s'.
Proof.
  unfold kstep. destruct l; eauto using handler_step_inv, apply_step_inv.
  intros Hs [Ha Hc Hp Hf Hse]. simplify_eq.
  split; [exact Ha|exact Hc|exact Hp|exact Hf|exact Hse].
Qed.

Lemma krun_inv ls : ∀ s s', krun ls s = Some s' → kv_inv s → kv_inv s'.
Proof.
  induction ls as [|l ls IH]; intros s s' Hrun Hinv; simpl in Hrun; [by simplify_eq|].
  destruct (kstep l s) eqn:Hs; try done. eauto using kstep_inv.
Qed.

(** The committed entries that a run feeds to the server. *)
Definition fed (ls : list (klabel R)) : list ApplyResult :=
  omap (λ l, match l with KApply r => Some r | _ => None end) ls.

(** The commands taken up so far: those in [heard] and the one that waits for
    its second section. *)
Definition taken_up s : list command_fields :=
  heard s ++ match apc s with AExec f _ => [f] | _ => [] end.

Lemma handler_quiet l s s' :
  handler_step l s = KNext s' → heard s' = heard s ∧ apc s' = apc s.
Proof.
  intros Hs. destruct l; simpl in Hs; unfold begin_call, leader_read, propose_call in Hs;
    repeat match goal with
    | H : context [match ?x with _ => _ end] |- _ => destruct x; simplify_eq/=
    end; done.
Qed.

Lemma apply_taken_up l s s' :
  apply_step l s = KNext s' → taken_up s' = taken_up s ++ commands (fed [l]).
Proof.
  intros Hs. unfold taken_up, commands, fed. unfold apply_step in Hs.
  destruct l; try done; destruct (apc s) eqn:Hpc; try done; simpl in *; rewrite ?app_nil_r.
  - unfold command_of. destruct (valid result); simplify_eq/=; [|by rewrite Hpc, app_nil_r].
    destruct (decoded (data result)); simplify_eq/=.
    + destruct (lookup_dup _ _); simplify_eq/=; by rewrite ?app_nil_r.
    + destruct (notify_waiter_state_locked _ _ _ _ _ _). simplify_eq/=. by rewrite Hpc, app_nil_r.
  - destruct (execute _ _). simplify_eq/=. by rewrite app_nil_r.
  - destruct (finish_apply _ _ _ _ _ _) as [k o]. simplify_eq/=. destruct o; by rewrite app_nil_r.
  - simplify_eq/=. by rewrite app_nil_r.
Qed.

Lemma kstep_taken_up l s s' :
  kstep l s = KNext s' → taken_up s' = taken_up s ++ commands (fed [l]).
Proof.
  unfold kstep. destruct l; eauto using apply_taken_up; intros Hs; unfold taken_up; simpl;
    rewrite app_nil_r; try (by apply handler_quiet in Hs as [-> ->]).
  by simplify_eq.
Qed.

Lemma krun_taken_up ls : ∀ s s',
  krun ls s = Some s' → taken_up s' = taken_up s ++ commands (fed ls).
Proof.
  induction ls as [|l ls IH]; intros s s' Hrun; simpl in Hrun.
  - simplify_eq. simpl. by rewrite app_nil_r.
  - destruct (kstep l s) eqn:Hs; try done. rewrite (IH _ _ Hrun), (kstep_taken_up l s) by done.
    rewrite <- app_assoc. unfold commands, fed. simpl. destruct l; simpl; try done.
    by destruct (command_of result).
Qed.

Lemma service_inv ls r s :
  krun ls (kboot r) = Some s →
  kv_inv s ∧ ∃ rest, commands (fed ls) = heard s ++ rest ∧ (apc s = AIdle → rest = []).
Proof.
  intros Hrun. split; [by eapply krun_inv, kv_inv_boot|].
  apply krun_taken_up in Hrun. unfold taken_up in Hrun. simpl in Hrun.
  eexists. split; [by rewrite <- Hrun|]. by intros ->.
Qed.

(** Whatever the handlers and the node do in between, an operation that went
    through the log and was answered with success was committed, and the answer
    is the reply of the reference semantics to a committed copy of it. *)
Lemma service_answers ls r s h f v :
  krun ls (kboot r) = Some s → calls s !! h = Some (CDone f false (KV_SUCCESS, v)) →
  ∃ past g rest, commands (fed ls) = past ++ g :: rest ∧
    f_client g = f_client f ∧ f_seq g = f_seq f ∧ reply_to past g = (KV_SUCCESS, v).
Proof.
  intros Hrun Hh. destruct (service_inv ls r s Hrun) as [Hinv (tl & -> & _)].
  destruct (ki_calls _ Hinv h _ Hh) as (past & g & rest & -> & ? & ? & ?); [done|].
  exists past, g, (rest ++ tl). by rewrite <- app_assoc.
Qed.

(** A read under the lease returns the value of its key after some prefix of
    the committed commands: never a value of an uncommitted or half applied
    operation. *)
Lemma service_lease_reads ls r s h f a :
  krun ls (kboot r) = Some s → calls s !! h = Some (CDone f true a) →
  ∃ past rest, commands (fed ls) = past ++ rest ∧
    a = (KV_SUCCESS, default EmptyString (kv_run (effective past) !! f_key f)).
Proof.
  intros Hrun Hh. destruct (service_inv ls r s Hrun) as [Hinv (tl & -> & _)].
  destruct (ki_calls _ Hinv h _ Hh) as (past & rest & -> & ?).
  exists past, (rest ++ tl). by rewrite <- app_assoc.
Qed.

(** Between two committed entries the store of the concurrent server is the
    store of the reference semantics for everything committed so far. *)
Lemma service_store ls r s :
  krun ls (kboot r) = Some s → apc s = AIdle →
  store_ (server s) = kv_run (effective (commands (fed ls))).
Proof.
  intros Hrun Hidle. destruct (service_inv ls r s Hrun) as [Hinv (tl & -> & Htl)].
  rewrite Htl, app_nil_r by done. pose proof (ki_apply _ Hinv) as Ha. rewrite Hidle in Ha.
  apply Ha.
Qed.

(** The command that the request of a handler puts on the wire. *)
Definition wire (f : command_fields) : command_fields :=
  match f_op f with
  | GET => mkFields GET (f_client f) (f_seq f) (f_key f) EmptyString
  | _ => f
  end.

(** A handler that proposes does not leave its buffer; with a leader, the
    log grows by one entry that decodes to the request and whose index the
    handler then waits for; otherwise the node is untouched and the client is
    told so. *)
Lemma propose_logged h f s :
  calls s !! h = Some (CPropose f) → encodable (wire f) →
  ∃ s', kstep (KPropose h) s = KNext s' ∧
    ((∃ d, decoded d = Some (wire f) ∧ api_log (raft_ s') = api_log (raft_ s) ++ [d] ∧
           calls s' !! h = Some (CRegister f (vsize (api_log (raft_ s'))))) ∨
     (raft_ s' = raft_ s ∧ calls s' !! h = Some (CDone f false (KV_NOTLEADER, EmptyString)))).
Proof.
  intros Hh Henc. destruct (serialize_wire (wire f) Henc) as (d & Hd & Hdec).
  assert (serialize (f_op f) (f_client f) (f_seq f) (f_key f)
            (match f_op f with GET => EmptyString | _ => f_value f end) = Some d) as Hser.
  { rewrite <- Hd. unfold wire. destruct f as [[] ? ? ? ?]; done. }
  simpl. unfold propose_call. rewrite Hh, Hser. destruct (api_propose d (raft_ s)) as [r p] eqn:Hp.
  eexists. split; [done|]. destruct (pr_is_leader p) eqn:Hl; simpl; rewrite lookup_insert_eq.
  - left. exists d. destruct (api_propose_leader _ _ _ _ Hp Hl) as [-> ->]. done.
  - right. by rewrite (api_propose_other _ _ _ _ Hp Hl).
Qed.
End answers.

(** ** Executions with a Raft node *)

(** A leader of term 1 with a valid lease. *)
Definition leader_node : Raft :=
  set_is_leader_atomic_ true
    (set_lease_expires_ns_ (ms 1000)
       (set_last_term_commit_idx_ 1
          (set_role_ LEADER (set_current_term_ 1 (Raft_init (mkConfig 0 EmptyString ∅) 0))))).

(** The committed entry of a command. *)
Definition committed (idx : N) (f : command_fields) : ApplyResult :=
  mkApplyResult true
    (default EmptyString (serialize (f_op f) (f_client f) (f_seq f) (f_key f) (f_value f))) idx.

Definition applied (idx : N) (f : command_fields) : list (klabel Raft) :=
  [KApply (committed idx f); KExec; KFinish].

(** A put through the log, then a read under the lease. *)
Definition put_and_read : list (klabel Raft) :=
  [KCall 0 put_x; KPropose 0; KRegister 0] ++ applied 1 put_x ++ [KSet; KGet 0] ++
  [KCall 1 get_x; KExpires 1 0; KIndex 1; KRead 1].

Lemma service_answers_witness :
  ∃ s, krun put_and_read (kboot leader_node) = Some s ∧
    ∃ past g rest, commands (fed put_and_read) = past ++ g :: rest ∧
      f_client g = 1 ∧ f_seq g = 1 ∧ reply_to past g = (KV_SUCCESS, EmptyString).
Proof.
  eexists. split; [vm_compute; reflexivity|].
  eapply (service_answers put_and_read leader_node _ 0 put_x EmptyString);
    [vm_compute; reflexivity|reflexivity].
Defined.

Lemma service_lease_reads_witness :
  ∃ s a, krun put_and_read (kboot leader_node) = Some s ∧ a = (KV_SUCCESS, "a") ∧
    ∃ past rest, commands (fed put_and_read) = past ++ rest ∧
      a = (KV_SUCCESS, default EmptyString (kv_run (effective past) !! "x")).
Proof.
  eexists _, _. split; [vm_compute; reflexivity|]. split; [reflexivity|].
  eapply (service_lease_reads put_and_read leader_node _ 1 get_x);
    [vm_compute; reflexivity|reflexivity].
Defined.

Lemma service_store_witness :
  ∃ s, krun put_and_read (kboot leader_node) = Some s ∧
       store_ (server s) = kv_run (effective (commands (fed put_and_read))).
Proof.
  eexists. split; [vm_compute; reflexivity|].
  apply (service_store put_and_read leader_node); [vm_compute; reflexivity|reflexivity].
Defined.

Lemma propose_logged_witness :
  ∃ s, krun [KCall 0 put_x] (kboot leader_node) = Some s ∧
  ∃ s', kstep (KPropose 0) s = KNext s' ∧
    ((∃ d, decoded d = Some (wire put_x) ∧
           api_log (raft_ s') = api_log (raft_ s) ++ [d] ∧
           calls s' !! 0 = Some (CRegister put_x (vsize (api_log (raft_ s'))))) ∨
     (raft_ s' = raft_ s ∧
      calls s' !! 0 = Some (CDone put_x false (KV_NOTLEADER, EmptyString)))).
Proof.
  eexists. split; [vm_compute; reflexivity|].
  apply (propose_logged 0 put_x); [reflexivity|repeat split; reflexivity].
Defined.

(** The entry is applied before the handler registers its promise: the operation
    takes effect, nobody fulfils the promise, and the client is told KV_TIMEOUT. *)
Lemma late_registration_times_out :
  ∃ s, krun ([KCall 0 put_x; KPropose 0] ++ applied 1 put_x ++
             [KRegister 0; KTimeout 0; KErase 0]) (kboot leader_node) = Some s ∧
    calls s !! 0 = Some (CDone put_x false (KV_TIMEOUT, EmptyString)) ∧
    store_ (server s) !! "x" = Some "a".
Proof. eexists. split; [vm_compute; reflexivity|]. done. Qed.

(** Two handlers wait for the same index (the first entry was cut off and its
    leader elected again): the promise of the first is destroyed and its handler
    throws. *)
Lemma overwritten_slot_throws :
  ∃ s, krun [KCall 0 put_x; KPropose 0; KRegister 0; KRaft leader_node;
             KCall 1 app_x; KPropose 1; KRegister 1; KGet 0] (kboot leader_node) = Some s ∧
    calls s !! 0 = Some (CThrown put_x).
Proof. eexists. split; [vm_compute; reflexivity|]. done. Qed.

(** A client that sends its second command before the first is committed: the
    first, committed later, is taken for a duplicate, does not take effect and is
    answered with the reply of the second. *)
Lemma overtaken_command_lost :
  ∃ s, krun ([KCall 0 put_x; KPropose 0; KRegister 0] ++ applied 9 get_x ++
             [KApply (committed 1 put_x); KFinish; KSet; KGet 0]) (kboot leader_node) = Some s ∧
    calls s !! 0 = Some (CDone put_x false (KV_SUCCESS, EmptyString)) ∧
    store_ (server s) !! "x" = None.
Proof. eexists. split; [vm_compute; reflexivity|]. done. Qed.
