(* ===== verification/KvClient.v ===== *)
(** The fault-tolerant client: [KvClient] of [inc/kv/kv_client.hpp].

    The gRPC stubs are outside the source: [rpc k i req] is what the [k]-th
    attempt of an operation gets from the stub number [i], a response or nothing
    for a status that is not OK.  [None] is undefined behaviour (no stub). *)
From S2P Require Import Prelude KvCodec KvServer.

#[local] Open Scope N_scope.

Record KvClient := mkKvClient {
  stubs_size : N;
  client_id_ : N;
  seq_num_ : N;
  leader_idx_ : N }.

Definition max_attempts_ : nat := 50.

(** The constructor: a stub for every address; [id] comes from the generator. *)
Definition KvClient_init (addrs : list string) (id : N) : KvClient :=
  mkKvClient (vsize addrs) id 0 0.

Definition rotate_leader (c : KvClient) : option KvClient :=
  if stubs_size c =? 0 then None
  else Some (mkKvClient (stubs_size c) (client_id_ c) (seq_num_ c)
               ((leader_idx_ c + 1) mod stubs_size c)).

Section client.
Context (rpc : nat → N → command_fields → option (KvStatus * string)).

(** What an operation comes to: its result and the requests it sent. *)
Record outcome := mkOutcome {
  final : KvClient;
  reply : KvStatus * string;
  sent : list (N * command_fields) }.

(** The loop over [attempt], of which [fuel] turns are left. *)
Fixpoint attempts (fuel attempt : nat) (req : command_fields) (c : KvClient) : option outcome :=
  match fuel with
  | O => Some (mkOutcome c (KV_TIMEOUT, EmptyString) [])
  | S fuel =>
      if leader_idx_ c <? stubs_size c then
        match rpc attempt (leader_idx_ c) req with
        | Some (KV_SUCCESS, v) =>
            Some (mkOutcome c (KV_SUCCESS, v) [(leader_idx_ c, req)])
        | _ =>
            c' ← rotate_leader c;
            o ← attempts fuel (S attempt) req c';
            Some (mkOutcome (final o) (reply o) ((leader_idx_ c, req) :: sent o))
        end
      else None
  end.

(** [uint64_t seq = ++seq_num_] and the loop: what the three operations share. *)
Definition operate (op : OpType) (key value : string) (c : KvClient) : option outcome :=
  let seq := add64 (seq_num_ c) 1 in
  attempts max_attempts_ 0 (mkFields op (client_id_ c) seq key value)
    (mkKvClient (stubs_size c) (client_id_ c) seq (leader_idx_ c)).

Definition put (key value : string) (c : KvClient) : option outcome := operate PUT key value c.
Definition get (key : string) (c : KvClient) : option outcome := operate GET key EmptyString c.
Definition append (key value : string) (c : KvClient) : option outcome :=
  operate APPEND key value c.

(** ** Reference behaviour of the retry loop *)

(** The replica of the [k]-th attempt. *)
Definition replica (c : KvClient) (k : nat) : N := (leader_idx_ c + N.of_nat k) mod stubs_size c.

Definition succeeds (req : command_fields) (c : KvClient) (attempt k : nat) : option string :=
  match rpc (attempt + k) (replica c k) req with
  | Some (KV_SUCCESS, v) => Some v
  | _ => None
  end.

(** The first of the next [n] attempts that succeeds. *)
Fixpoint first_success (f : nat → option string) (k n : nat) : option (nat * string) :=
  match n with
  | O => None
  | S n => match f k with Some v => Some (k, v) | None => first_success f (S k) n end
  end.

Lemma first_success_spec f n : ∀ k,
  match first_success f k n with
  | Some (i, v) => (k ≤ i < k + n)%nat ∧ f i = Some v ∧ ∀ j, (k ≤ j < i)%nat → f j = None
  | None => ∀ j, (k ≤ j < k + n)%nat → f j = None
  end.
Proof.
  induction n as [|n IH]; intros k; simpl; [intros; lia|].
  destruct (f k) as [v|] eqn:Hk; [split_and!; [lia|lia|done|intros; lia]|].
  specialize (IH (S k)). destruct (first_success f (S k) n) as [[i v]|].
  - destruct IH as (Hi & Hf & Hj). split_and!; [lia|lia|done|]. intros j Hjr.
    destruct (decide (j = k)) as [->|]; [done|]. apply Hj. lia.
  - intros j Hj. destruct (decide (j = k)) as [->|]; [done|]. apply IH. lia.
Qed.

Lemma first_success_shift f g n : ∀ k,
  (∀ i, f (S i) = g i) →
  first_success f (S k) n = (λ p, (S p.1, p.2)) <$> first_success g k n.
Proof.
  intros k H. revert k. induction n as [|n IH]; intros k; simpl; [done|].
  rewrite H. destruct (g k); [done|apply IH].
Qed.

(** The client when attempt [k] is made. *)
Definition at_attempt (c : KvClient) (k : nat) : KvClient :=
  mkKvClient (stubs_size c) (client_id_ c) (seq_num_ c) (replica c k).

Lemma replica_0 c : leader_idx_ c < stubs_size c → replica c 0 = leader_idx_ c.
Proof. intros H. unfold replica. rewrite N.add_0_r. by apply N.mod_small. Qed.

Lemma replica_S c c' k :
  rotate_leader c = Some c' → replica c' k = replica c (S k).
Proof.
  unfold rotate_leader. case_match; [done|]. intros [= <-]. unfold replica. simpl.
  rewrite N.Div0.add_mod_idemp_l. f_equal. lia.
Qed.

Lemma rotate_Some c :
  leader_idx_ c < stubs_size c →
  ∃ c', rotate_leader c = Some c' ∧ leader_idx_ c' < stubs_size c' ∧
        stubs_size c' = stubs_size c ∧ client_id_ c' = client_id_ c ∧ seq_num_ c' = seq_num_ c.
Proof.
  intros H. unfold rotate_leader. destruct (N.eqb_spec (stubs_size c) 0); [lia|].
  eexists. split; [done|]. simpl. split; [apply N.mod_lt; lia|done].
Qed.

Lemma at_attempt_0 c : leader_idx_ c < stubs_size c → at_attempt c 0 = c.
Proof. intros H. unfold at_attempt. rewrite replica_0 by done. by destruct c. Qed.

Lemma at_attempt_S c c' k : rotate_leader c = Some c' → at_attempt c' k = at_attempt c (S k).
Proof.
  intros Hr. unfold at_attempt. rewrite (replica_S c c' k Hr).
  unfold rotate_leader in Hr. case_match; by simplify_eq.
Qed.

(** The requests of a run of attempts. *)
Definition asked (c : KvClient) (req : command_fields) (n : nat) : list (N * command_fields) :=
  (λ i, (replica c i, req)) <$> seq 0 n.

Lemma asked_S c c' req n :
  leader_idx_ c < stubs_size c → rotate_leader c = Some c' →
  asked c req (S n) = (leader_idx_ c, req) :: asked c' req n.
Proof.
  intros Hc Hr. unfold asked. cbn [seq]. rewrite fmap_cons, replica_0 by done. f_equal.
  rewrite <- fmap_S_seq, <- list_fmap_compose. apply list_fmap_ext.
  intros ? x _. simpl. by rewrite (replica_S c c' x Hr).
Qed.

(** The loop is the reference: it stops at the first success or gives up. *)
Lemma attempts_spec fuel : ∀ attempt req c,
  leader_idx_ c < stubs_size c →
  attempts fuel attempt req c = Some
    match first_success (succeeds req c attempt) 0 fuel with
    | Some (k, v) => mkOutcome (at_attempt c k) (KV_SUCCESS, v) (asked c req (S k))
    | None => mkOutcome (at_attempt c fuel) (KV_TIMEOUT, EmptyString) (asked c req fuel)
    end.
Proof.
  induction fuel as [|fuel IH]; intros attempt req c Hc; [by simpl; rewrite at_attempt_0|].
  cbn [attempts first_success]. rewrite (proj2 (N.ltb_lt _ _)) by done. unfold succeeds at 1.
  rewrite Nat.add_0_r, replica_0 by done.
  destruct (rotate_Some c Hc) as (c' & Hr & Hc' & _).
  assert (∀ i, succeeds req c attempt (S i) = succeeds req c' (S attempt) i) as Hsh.
  { intros i. unfold succeeds. by rewrite (replica_S c c' i Hr), Nat.add_succ_r. }
  destruct (rpc attempt (leader_idx_ c) req) as [[[] v]|] eqn:Hrpc;
    [by rewrite at_attempt_0, (asked_S c c')|..]; rewrite Hr; cbn [mbind option_bind];
    rewrite (IH _ _ _ Hc'), (first_success_shift _ _ _ _ Hsh);
    destruct (first_success _ 0 fuel) as [[k w]|]; simpl;
    by rewrite (asked_S c c' req), (at_attempt_S c c' _ Hr) by done.
Qed.

(** An operation returns, having sent copies of one request, and leaves the client at
    one of its stubs. *)
Lemma operate_returns op key value c :
  leader_idx_ c < stubs_size c →
  ∃ o, operate op key value c = Some o ∧ leader_idx_ (final o) < stubs_size (final o) ∧
       sent o ≠ [] ∧
       Forall (λ p, p.2 = mkFields op (client_id_ c) (add64 (seq_num_ c) 1) key value) (sent o).
Proof.
  intros Hc. set (seq := add64 (seq_num_ c) 1).
  set (c1 := mkKvClient (stubs_size c) (client_id_ c) seq (leader_idx_ c)).
  set (req := mkFields op (client_id_ c) seq key value).
  pose proof (attempts_spec max_attempts_ 0 req c1 Hc) as Ha.
  assert (∀ n, Forall (λ p, p.2 = req) (asked c1 req n)) as Hall.
  { intros n. unfold asked. apply Forall_fmap, Forall_true. done. }
  unfold operate. fold seq c1 req. eexists. split; [exact Ha|].
  destruct (first_success _ 0 max_attempts_) as [[k v]|];
    cbn [final at_attempt leader_idx_ stubs_size sent];
    (split; [apply N.mod_lt; cbn [c1 stubs_size]; lia|]); split; auto; discriminate.
Qed.

(** C33: an operation always returns, after at most [max_attempts_] requests,
    which are copies of one command under a fresh sequence number, sent to the
    replicas in turn from the last known leader on.  It succeeds exactly when one
    of them succeeds, with the first such answer, and remembers that replica. *)
Theorem operate_spec op key value c :
  leader_idx_ c < stubs_size c → seq_num_ c + 1 < pow64 →
  let c1 := mkKvClient (stubs_size c) (client_id_ c) (seq_num_ c + 1) (leader_idx_ c) in
  let req := mkFields op (client_id_ c) (seq_num_ c + 1) key value in
  ∃ o, operate op key value c = Some o ∧
    match reply o with
    | (KV_SUCCESS, v) =>
        ∃ k, (k < max_attempts_)%nat ∧ sent o = asked c1 req (S k) ∧ final o = at_attempt c1 k ∧
             rpc k (replica c1 k) req = Some (KV_SUCCESS, v) ∧
             ∀ j, (j < k)%nat → succeeds req c1 0 j = None
    | (st, _) =>
        st = KV_TIMEOUT ∧ sent o = asked c1 req max_attempts_ ∧
        ∀ j, (j < max_attempts_)%nat → succeeds req c1 0 j = None
    end.
Proof.
  intros Hc Hseq c1 req. unfold operate. rewrite add64_small by done.
  pose proof (first_success_spec (succeeds req c1 0) max_attempts_ 0) as Hf.
  eexists. split; [by apply (attempts_spec max_attempts_ 0 req c1)|].
  destruct (first_success (succeeds req c1 0) 0 max_attempts_) as [[k v]|]; simpl.
  - destruct Hf as (Hk & Hv & Hj). exists k. split_and!; try done; [lia| |intros; apply Hj; lia].
    unfold succeeds in Hv. simpl in Hv. by repeat case_match; simplify_eq.
  - split_and!; try done. intros j Hj. apply Hf. lia.
Qed.

(** Any [stubs_size] consecutive attempts ask every replica. *)
Lemma replicas_swept c k r :
  r < stubs_size c →
  ∃ i, (k ≤ i < k + N.to_nat (stubs_size c))%nat ∧ replica c i = r.
Proof.
  intros Hr. set (n := stubs_size c). set (a := (leader_idx_ c + N.of_nat k) mod n).
  assert (a < n) as Ha by (apply N.mod_lt; lia).
  exists (k + N.to_nat ((r + n - a) mod n))%nat.
  assert ((r + n - a) mod n < n) as Hm by (apply N.mod_lt; lia).
  split.
  { fold n. revert Hm. generalize ((r + n - a) mod n). clearbody n. lia. }
  unfold replica. fold n. rewrite Nat2N.inj_add, N2Nat.id, N.add_assoc.
  rewrite <- N.Div0.add_mod_idemp_l. fold a. rewrite N.Div0.add_mod_idemp_r.
  replace (a + (r + n - a)) with (r + 1 * n) by lia.
  rewrite N.Div0.mod_add. by apply N.mod_small.
Qed.
End client.

(** ** An operation that finds its leader at the second replica *)

Definition second_is_leader (k : nat) (i : N) (req : command_fields)
    : option (KvStatus * string) :=
  if i =? 1 then Some (KV_SUCCESS, EmptyString) else Some (KV_NOTLEADER, EmptyString).

Lemma operate_spec_witness :
  let c := KvClient_init ["a"; "b"; "c"] 42 in
  ∃ o, operate second_is_leader PUT "x" "v" c = Some o ∧ leader_idx_ (final o) = 1 ∧
       reply o = (KV_SUCCESS, EmptyString).
Proof.
  intros c.
  destruct (operate_spec second_is_leader PUT "x" "v" c) as (o & Ho & _);
    [reflexivity|reflexivity|].
  exists o. split; [exact Ho|]. vm_compute in Ho. injection Ho as <-. split; reflexivity.
Defined.

Lemma replicas_swept_witness :
  let c := KvClient_init ["a"; "b"; "c"] 42 in
  ∃ i, (7 ≤ i < 7 + 3)%nat ∧ replica c i = 2.
Proof. intros c. apply (replicas_swept c 7 2). reflexivity. Defined.
