(* ===== verification/EndToEnd.v ===== *)
(** From the consensus to the store: key-value servers fed by the ready queues of the
    cluster's nodes hold what a plain map gives for the committed commands. *)
From S2P Require Import Prelude Types RaftState RaftNode RaftNodeFacts Cluster RaftSpec.
From S2P Require Import Refinement RefinementSteps Simulation LogSpec LogInv LogSafety.
From S2P Require Import Races Safety Replication KvCodec KvServer.

#[local] Open Scope N_scope.

(** The results [1, 2, ...], each once and in order: what a server sees of a queue
    that no later result has overtaken. *)
Definition in_sequence (rs : list ApplyResult) : Prop :=
  index <$> rs = N.of_nat <$> seq 1 (length rs).

Lemma in_sequence_lookup rs k a : in_sequence rs → rs !! k = Some a → index a = N.of_nat k + 1.
Proof.
  unfold in_sequence. intros Hs Ha. apply (f_equal (.!! k)) in Hs.
  rewrite !list_lookup_fmap, Ha, lookup_seq_lt in Hs by (by eapply lookup_lt_Some).
  simpl in Hs. simplify_eq. lia.
Qed.

(** A committed entry as the result that it gives. *)
Lemma committed_result_of n k e :
  N.of_nat k < commit_index_ n → log_ n !! k = Some e →
  committed_result n (mkApplyResult true (command e) (N.of_nat k + 1)).
Proof.
  intros Hk He. exists e. simpl. split_and!; [lia|lia| |done]. unfold vat.
  by replace (N.to_nat (N.of_nat k + 1 - 1)) with k by lia.
Qed.

(** The queue of a node is a prefix of what any node has committed that far. *)
Lemma queue_of_log configs r c ls c' i j p q rs :
  full_mesh configs → reachable configs r c → run_disciplined ls c = Some c' →
  procs c !! i = Some p → procs c' !! j = Some q →
  (∀ a, a ∈ rs → a ∈ outputs p) → in_sequence rs → vsize rs ≤ commit_index_ (node q) →
  rs = take (length rs) (results_of (log_ (node q))).
Proof.
  intros Hmesh Hreach Hrun Hp Hq Hin Hseq Hlen.
  assert (reachable configs r c') as Hreach' by (by eapply run_disciplined_reachable).
  pose proof (reachable_commits configs r c' Hmesh Hreach' j q Hq) as Hc.
  apply list_eq. intros k. destruct (rs !! k) as [a|] eqn:Ha.
  2:{ symmetry. apply lookup_ge_None. rewrite length_take. apply lookup_ge_None in Ha. lia. }
  pose proof (lookup_lt_Some _ _ _ Ha) as Hk. rewrite lookup_take_lt by done.
  destruct (lookup_lt_is_Some_2 (log_ (node q)) k) as [e He]; [unfold vsize in *; lia|].
  rewrite (results_of_lookup _ _ _ He). f_equal.
  apply (committed_results_agree configs r Hmesh c ls c' i j p q); try done.
  - apply (reachable_outputs configs r Hmesh c Hreach i); [done|].
    apply Hin. by eapply list_elem_of_lookup_2.
  - apply committed_result_of; [unfold vsize in *; lia|done].
  - simpl. by apply in_sequence_lookup with rs.
Qed.

(** C12: the replicated store: over a disciplined execution, if node [i] has queued results
    in sequence, then a server that was fed its queue holds what a plain map gives for the commands that
    take effect in the log of any node that has committed that far, now or later, and
    answers every client's retry as that map did. *)
Theorem replicated_store configs r c ls c' i j p q :
  full_mesh configs → reachable configs r c → run_disciplined ls c = Some c' →
  procs c !! i = Some p → procs c' !! j = Some q →
  let rs := ready_queue (node p) in
  in_sequence rs → vsize rs ≤ commit_index_ (node q) →
  let fs := commands (take (length rs) (results_of (log_ (node q)))) in
  store_ (apply_all rs KvServer_init) = kv_run (effective fs) ∧
  ∀ client, rifl_ (apply_all rs KvServer_init) !! client = cached_reply (effective fs) client.
Proof.
  intros Hmesh Hreach Hrun Hp Hq rs Hseq Hlen fs.
  assert (commands rs = fs) as <-.
  { unfold fs. f_equal. apply (queue_of_log configs r c ls c' i j p q); try done.
    intros a Ha. apply elem_of_app. by left. }
  by destruct (apply_all_refines rs [] KvServer_init refines_kv_init).
Qed.

(** Two servers that have applied the same number of results in sequence, from
    the queues of any two nodes at any two points of an execution, are in the same
    state. *)
Lemma replicas_agree configs r c ls c' i j p q rs rs' :
  full_mesh configs → reachable configs r c → run_disciplined ls c = Some c' →
  procs c !! i = Some p → procs c' !! j = Some q →
  rs `prefix_of` ready_queue (node p) → rs' `prefix_of` ready_queue (node q) →
  in_sequence rs → in_sequence rs' → length rs = length rs' →
  apply_all rs KvServer_init = apply_all rs' KvServer_init.
Proof.
  intros Hmesh Hreach Hrun Hp Hq [k Hk] [k' Hk'] Hs Hs' Hlen. f_equal.
  assert (reachable configs r c') as Hreach' by (by eapply run_disciplined_reachable).
  apply list_eq_same_length with (length rs'); [done|done|].
  intros m a b _ Ha Hb.
  apply (committed_results_agree configs r Hmesh c ls c' i j p q); try done.
  - apply (reachable_outputs configs r Hmesh c Hreach i); [done|]. unfold outputs. rewrite Hk.
    apply elem_of_app. left. apply elem_of_app. left. by eapply list_elem_of_lookup_2.
  - apply (reachable_outputs configs r Hmesh c' Hreach' j); [done|]. unfold outputs. rewrite Hk'.
    apply elem_of_app. left. apply elem_of_app. left. by eapply list_elem_of_lookup_2.
  - by rewrite (in_sequence_lookup rs m a), (in_sequence_lookup rs' m b).
Qed.

(** ** Instances: node 0 commits a [PUT] and node 1 learns of it *)

Definition put_data : string := default EmptyString (serialize PUT 1 1 "x" "a").

Definition commit_put : list label :=
  elect0 ++ [LPropose 0 put_data] ++
  beat 0 1 3 2 (mkAppendEntriesRequest 1 0 0 0 [mkEntry 1 put_data] 0) 0 ++
  [LApply 0; LApply 0].

Definition put_told : list label :=
  [LTop 0 (ms 10)] ++ beat 0 1 5 4 (mkAppendEntriesRequest 1 0 1 1 [] 1) (ms 10).

Lemma replicated_store_witness :
  ∃ c c' p q, run_disciplined commit_put (boot local3 0) = Some c ∧
    run_disciplined put_told c = Some c' ∧ procs c !! 0 = Some p ∧ procs c' !! 1 = Some q ∧
    let fs := commands (take (length (ready_queue (node p))) (results_of (log_ (node q)))) in
    kv_run (effective fs) !! "x" = Some "a" ∧
    store_ (apply_all (ready_queue (node p)) KvServer_init) = kv_run (effective fs) ∧
    ∀ client, rifl_ (apply_all (ready_queue (node p)) KvServer_init) !! client =
              cached_reply (effective fs) client.
Proof.
  eexists _, _, _, _. split; [vm_compute; reflexivity|]. split; [vm_compute; reflexivity|].
  split; [reflexivity|]. split; [reflexivity|]. split; [vm_compute; reflexivity|].
  eapply (replicated_store local3 0 _ put_told _ 0 1 _ _ local3_mesh);
    [apply (local3_reachable commit_put); vm_compute; reflexivity|vm_compute; reflexivity|
     reflexivity|reflexivity|reflexivity|vm_compute; discriminate].
Defined.

Lemma replicas_agree_witness :
  ∃ c c' p q, run_disciplined commit_put (boot local3 0) = Some c ∧
    run_disciplined put_told c = Some c' ∧ procs c !! 0 = Some p ∧ procs c' !! 1 = Some q ∧
    length (ready_queue (node p)) = 1%nat ∧
    apply_all (ready_queue (node p)) KvServer_init = apply_all (ready_queue (node q)) KvServer_init.
Proof.
  eexists _, _, _, _. split; [vm_compute; reflexivity|]. split; [vm_compute; reflexivity|].
  split; [reflexivity|]. split; [reflexivity|]. split; [reflexivity|].
  eapply (replicas_agree local3 0 _ put_told _ 0 1 _ _ _ _ local3_mesh);
    [apply (local3_reachable commit_put); vm_compute; reflexivity|vm_compute; reflexivity|
     reflexivity|reflexivity|reflexivity|reflexivity|reflexivity|reflexivity|reflexivity].
Defined.
