(* ===== verification/Session.v ===== *)
(** A client of the replicated store: [KvClient] against the services of [KvService.v]
    that run on the nodes of a cluster.  What its operation returns is what a plain map
    answers to its command at the one place where the command takes effect. *)
From S2P Require Import Prelude Types ConfigGen RaftState RaftNode RaftNodeFacts Cluster RaftSpec.
From S2P Require Import Refinement RefinementSteps Simulation LogSpec LogInv LogSafety.
From S2P Require Import Races Safety Replication KvCodec KvServer KvService KvClient EndToEnd.

#[local] Open Scope N_scope.

(** ** One place in the committed commands *)

(** [f] takes effect once in [fs], after the commands [past], and [v] is what a plain
    map answers there. *)
Definition executed_once (fs : list command_fields) (f : command_fields) (v : string) : Prop :=
  ∃ past rest, fs = past ++ f :: rest ∧
    v = kv_answer (kv_run (effective past)) f ∧
    effective past ++ [f] `prefix_of` effective fs ∧
    ∀ k, effective fs !! k = Some f → k = length (effective past).

Lemma effective_prefix fs gs : effective fs `prefix_of` effective (fs ++ gs).
Proof. unfold effective. rewrite effective_after_app. by apply prefix_app_r. Qed.

Lemma executed_once_intro past f rest v :
  fresh past f = true → v = kv_answer (kv_run (effective past)) f →
  executed_once (past ++ f :: rest) f v.
Proof.
  intros Hf ->. exists past, rest.
  assert (effective past ++ [f] `prefix_of` effective (past ++ f :: rest)) as Hp.
  { replace (past ++ f :: rest) with ((past ++ [f]) ++ rest) by (by rewrite <- app_assoc).
    etrans; [|apply effective_prefix]. by rewrite effective_snoc, Hf. }
  split_and!; try done. intros k Hk.
  assert (effective (past ++ f :: rest) !! length (effective past) = Some f) as Hat.
  { destruct Hp as [tl ->]. rewrite <- app_assoc. by apply list_lookup_middle. }
  destruct (Nat.lt_total k (length (effective past))) as [Hlt|[->|Hgt]]; [|done|].
  - pose proof (effective_order _ _ _ _ _ Hk Hat Hlt eq_refl). lia.
  - pose proof (effective_order _ _ _ _ _ Hat Hk Hgt eq_refl). lia.
Qed.

(** The first copy of a command in a sequence where its client has not moved on. *)
Lemma first_copy past f :
  (∀ g, g ∈ past → f_client g = f_client f → f_seq g ≤ f_seq f) →
  (∀ g, g ∈ past → f_client g = f_client f → f_seq g = f_seq f → g = f) →
  fresh past f = true ∨
  ∃ before mid, past = before ++ [f] ++ mid ∧ fresh before f = true.
Proof.
  induction past as [|g past IH] using rev_ind; intros Hle Hsame; [by left|].
  destruct IH as [Hf|(before & mid & -> & Hf)].
  - intros h Hh. apply Hle. set_solver.
  - intros h Hh. apply Hsame. set_solver.
  - destruct (decide (f_client g = f_client f ∧ f_seq g = f_seq f)) as [[Hc Hs]|Hne].
    + right. exists past, []. split; [|done]. rewrite (Hsame g) by set_solver. done.
    + left. rewrite fresh_snoc, Hf. simpl.
      destruct (N.eqb_spec (f_client g) (f_client f)) as [Hc|]; [|done]. simpl.
      assert (f_seq g ≤ f_seq f) by (apply Hle; [set_solver|done]).
      assert (f_seq g ≠ f_seq f) by naive_solver.
      rewrite negb_true_iff, N.leb_gt. lia.
  - right. exists before, (mid ++ [g]). split; [|done]. by rewrite <- !app_assoc.
Qed.

(** An answer of the reference semantics to a copy of [f]. *)
Lemma answer_executed past g rest f v :
  f_client g = f_client f → f_seq g = f_seq f →
  (∀ h, h ∈ past ++ [g] → f_client h = f_client f → f_seq h ≤ f_seq f) →
  (∀ h, h ∈ past ++ g :: rest → f_client h = f_client f → f_seq h = f_seq f → h = f) →
  reply_to past g = (KV_SUCCESS, v) → executed_once (past ++ g :: rest) f v.
Proof.
  intros Hc Hs Hle Hsame Hrep. assert (g = f) as -> by (apply Hsame; set_solver).
  destruct (first_copy past f) as [Hf|(before & mid & -> & Hf)].
  - intros h Hh. apply Hle. set_solver.
  - intros h Hh. apply Hsame. set_solver.
  - apply executed_once_intro; [done|]. unfold reply_to in Hrep.
    rewrite effective_snoc, Hf, cached_snoc, N.eqb_refl in Hrep. simpl in Hrep. by simplify_eq.
  - rewrite <- !app_assoc. apply executed_once_intro; [done|].
    assert (∀ h, h ∈ mid ++ [f] → f_client h = f_client f → f_seq h ≤ f_seq f) as Hmid.
    { intros h Hh. apply Hle. set_solver. }
    unfold reply_to in Hrep. rewrite <- !app_assoc in Hrep. rewrite app_assoc in Hrep.
    rewrite cached_outrun in Hrep; [|set_solver|done].
    rewrite effective_snoc, Hf, cached_snoc, N.eqb_refl in Hrep. simpl in Hrep. by simplify_eq.
Qed.

(** ** The answers of the cluster *)

Section session.
Context (configs : list Config) (r : N) (Hmesh : full_mesh configs).

(** The commands that node [q] has committed. *)
Definition committed_commands (q : proc) : list command_fields :=
  commands (results_of (take (N.to_nat (commit_index_ (node q))) (log_ (node q)))).

(** [v] is the answer to [f] of a service on a node of the cluster, through the log:
    the service has taken a part, in sequence, of what its node queued, on the way to
    the state [c'] in which [q] has committed that much; and the client has sent
    nothing later yet. *)
Definition served (c' : cluster) (q : proc) (f : command_fields) (v : string) : Prop :=
  ∃ c ls i p (ks : list (klabel Raft)) n s h,
    reachable configs r c ∧ run_disciplined ls c = Some c' ∧ procs c !! i = Some p ∧
    krun ks (kboot n) = Some s ∧ fed ks `prefix_of` ready_queue (node p) ∧
    in_sequence (fed ks) ∧ vsize (fed ks) ≤ commit_index_ (node q) ∧
    calls s !! h = Some (CDone f false (KV_SUCCESS, v)) ∧
    ∀ g, g ∈ commands (fed ks) → f_client g = f_client f → f_seq g ≤ f_seq f.

Lemma commands_app rs rs' : commands (rs ++ rs') = commands rs ++ commands rs'.
Proof. apply omap_app. Qed.

(** What a service was fed is the beginning of what any node commits. *)
Lemma fed_committed c ls c' i j p q rs :
  reachable configs r c → run_disciplined ls c = Some c' → procs c !! i = Some p →
  procs c' !! j = Some q → rs `prefix_of` ready_queue (node p) → in_sequence rs →
  vsize rs ≤ commit_index_ (node q) → commands rs `prefix_of` committed_commands q.
Proof using Hmesh.
  intros Hreach Hrun Hp Hq [tl Htl] Hseq Hlen.
  assert (rs = take (length rs) (results_of (log_ (node q)))) as Hrs.
  { apply (queue_of_log configs r c ls c' i j p q); try done.
    intros a Ha. unfold outputs. rewrite Htl. set_solver. }
  unfold committed_commands. rewrite <- take_results_of.
  set (m := N.to_nat (commit_index_ (node q))).
  assert (take m (results_of (log_ (node q))) =
          rs ++ drop (length rs) (take m (results_of (log_ (node q))))) as ->.
  { rewrite Hrs at 1. rewrite <- (take_drop (length rs) (take m _)) at 1. f_equal.
    rewrite take_take. f_equal. unfold m, vsize in *. lia. }
  rewrite commands_app. by apply prefix_app_r.
Qed.

Lemma served_executed c' j q f v :
  procs c' !! j = Some q →
  (∀ g, g ∈ committed_commands q → f_client g = f_client f → f_seq g = f_seq f → g = f) →
  served c' q f v → executed_once (committed_commands q) f v.
Proof using Hmesh.
  intros Hq Hsame (c & ls & i & p & ks & n & s & h & Hreach & Hrun & Hp & Hk & Hpre & Hseq &
                   Hlen & Hdone & Hle).
  destruct (fed_committed c ls c' i j p q (fed ks)) as [tl Htl]; try done.
  destruct (service_inv ks n s Hk) as [Hinv (more & Hcmd & _)].
  destruct (ki_calls _ Hinv h _ Hdone) as (past & g & rest & Hhd & Hc & Hs & Hrep); [done|].
  assert (commands (fed ks) = past ++ g :: (rest ++ more)) as Hfed.
  { rewrite Hcmd, Hhd. by rewrite <- app_assoc. }
  rewrite Hfed in Htl, Hle. rewrite Htl in Hsame |- *. rewrite <- app_assoc. simpl.
  rewrite <- app_assoc in Hsame. simpl in Hsame.
  apply answer_executed; try done. intros x Hx. apply Hle. set_solver.
Qed.
End session.

(** ** The client *)

Lemma attempts_success rpc fuel f c o v :
  leader_idx_ c < stubs_size c → attempts rpc fuel 0 f c = Some o → reply o = (KV_SUCCESS, v) →
  ∃ k i, rpc k i f = Some (KV_SUCCESS, v).
Proof.
  intros Hc Ho Hr. rewrite attempts_spec in Ho by done.
  pose proof (first_success_spec (succeeds rpc f c 0) fuel 0) as Hf. injection Ho as <-.
  destruct (first_success (succeeds rpc f c 0) 0 fuel) as [[k w]|]; [|done].
  injection Hr as ->. destruct Hf as (_ & Hk & _). unfold succeeds in Hk.
  destruct (rpc (0 + k)%nat (replica c k) f) as [[[] x]|] eqn:Hrpc; try done.
  injection Hk as ->. eauto.
Qed.

Lemma operate_eq rpc op key value c :
  operate rpc op key value c =
  attempts rpc max_attempts_ 0 (mkFields op (client_id_ c) (add64 (seq_num_ c) 1) key value)
    (mkKvClient (stubs_size c) (client_id_ c) (add64 (seq_num_ c) 1) (leader_idx_ c)).
Proof. done. Qed.

Lemma operate_success rpc op key value c o v :
  leader_idx_ c < stubs_size c → seq_num_ c + 1 < pow64 →
  operate rpc op key value c = Some o → reply o = (KV_SUCCESS, v) →
  ∃ k i, rpc k i (mkFields op (client_id_ c) (seq_num_ c + 1) key value) = Some (KV_SUCCESS, v).
Proof.
  intros Hc Hs Ho Hr. rewrite operate_eq, add64_small in Ho by done.
  eapply attempts_success; [|exact Ho|exact Hr]. exact Hc.
Qed.

(** End to end: an operation that a client completes with success through the log
    takes effect exactly once among the committed commands, however often it was sent
    and to whichever replicas, and the value that the client returns is what a plain
    map answers at that place. *)
Lemma client_executes_once configs r rpc op key value cl o v c' j q :
  full_mesh configs → procs c' !! j = Some q →
  leader_idx_ cl < stubs_size cl → seq_num_ cl + 1 < pow64 →
  let f := mkFields op (client_id_ cl) (seq_num_ cl + 1) key value in
  (∀ g, g ∈ committed_commands q → f_client g = f_client f → f_seq g = f_seq f → g = f) →
  (∀ k i w, rpc k i f = Some (KV_SUCCESS, w) → served configs r c' q f w) →
  operate rpc op key value cl = Some o → reply o = (KV_SUCCESS, v) →
  executed_once (committed_commands q) f v.
Proof.
  intros Hmesh Hq Hidx Hseq f Hsame Hserved Ho Hr.
  destruct (operate_success rpc op key value cl o v Hidx Hseq Ho Hr) as (k & i & Hk). by eapply served_executed; [..|by eapply Hserved].
Qed.

(** ** Node 0 commits the [PUT] of client 1, whose service answers it *)

Definition put_service : list (klabel Raft) :=
  [KCall 0 put_x; KPropose 0; KRegister 0] ++ applied 1 put_x ++ [KSet; KGet 0].

Definition leader_answers (k : nat) (i : N) (req : command_fields) : option (KvStatus * string) :=
  if i =? 0 then Some (KV_SUCCESS, EmptyString) else Some (KV_NOTLEADER, EmptyString).

Definition put_committed : cluster :=
  default (boot local3 0) (run_disciplined commit_put (boot local3 0)).

Lemma client_executes_once_witness :
  ∃ q o, run_disciplined commit_put (boot local3 0) = Some put_committed ∧
    procs put_committed !! 0 = Some q ∧
    operate leader_answers PUT "x" "a" (mkKvClient 3 1 0 2) = Some o ∧
    vsize (sent o) = 2 ∧ executed_once (committed_commands q) put_x EmptyString.
Proof.
  eexists _, _. split; [vm_compute; reflexivity|]. split; [vm_compute; reflexivity|].
  split; [vm_compute; reflexivity|]. split; [reflexivity|].
  eapply (client_executes_once local3 0 leader_answers PUT "x" "a" (mkKvClient 3 1 0 2) _ _
    put_committed 0 _ local3_mesh);
    [vm_compute; reflexivity|reflexivity|reflexivity| | |vm_compute; reflexivity|reflexivity].
  - intros g Hg _ _. apply list_elem_of_In in Hg. vm_compute in Hg. destruct Hg as [<-|[]].
    reflexivity.
  - intros k i w Hw.
    assert (w = EmptyString) as -> by (unfold leader_answers in Hw; destruct (i =? 0); congruence).
    eexists put_committed, [], 0, _, put_service, leader_node, _, 0.
    split; [apply (local3_reachable commit_put); vm_compute; reflexivity|].
    split; [reflexivity|]. split; [vm_compute; reflexivity|]. split; [vm_compute; reflexivity|].
    split; [exists []; vm_compute; reflexivity|]. split; [vm_compute; reflexivity|].
    split; [vm_compute; discriminate|]. split; [vm_compute; reflexivity|].
    intros g Hg _. apply list_elem_of_In in Hg. vm_compute in Hg. destruct Hg as [<-|[]].
    vm_compute. discriminate.
Defined.
