(* ===== verification/Deployment.v ===== *)
(** A key-value cluster as it is deployed: the Raft nodes of [Cluster.v], a key-value
    service of [KvService.v] on each of them, fed from the node's ready queue and
    proposing to the node, and clients that run the retry loop of [KvClient.v] against
    the services.

    A step is one step of one thread of one of the parts; [trace] records what the
    clients see of it, in the order of real time: the calls of operations and their
    returns.  [orderly] is the discipline of [Refinement.v], and that a service takes
    the results of its node in sequence; [Races.v] has the schedules that it excludes. *)
From S2P Require Import Prelude Types ConfigGen RaftState RaftNode RaftNodeFacts Cluster RaftSpec.
From S2P Require Import Refinement RefinementSteps Simulation.
From S2P Require Import KvCodec KvServer KvService KvClient.

#[local] Open Scope N_scope.

(** ** Clients *)

(** The thread of a client: no operation; about to ask, with [more] attempts to go;
    waiting for handler [h] of replica [i]. *)
Inductive cctl :=
| QIdle
| QAsk (req : command_fields) (more : nat)
| QAwait (req : command_fields) (more : nat) (i h : N).

Record client := mkClient { kvc : KvClient; cstate : cctl }.

(** What the clients observe.  [lease] tells a read that was answered under the lease. *)
Inductive op_event :=
| Invoke (f : command_fields)
| Return (f : command_fields) (lease : bool) (v : string)
| GaveUp (f : command_fields).

(** ** The deployment *)

Record deployment := mkDeployment {
  raft : cluster;
  services : gmap N (system Raft);
  taken : gmap N nat;
  clients : gmap N client;
  trace : list op_event }.

Inductive dlabel :=
| DRaft (l : label)
| DApply (i : N)
| DService (i : N) (l : klabel Raft)
| DInvoke (k : N) (op : OpType) (key value : string)
| DSend (k h : N)
| DReply (k : N)
| DFail (k : N)
| DGiveUp (k : N).

Definition put_client (k : N) (q : client) (evs : list op_event) (d : deployment) : deployment :=
  mkDeployment (raft d) (services d) (taken d) (<[k := q]> (clients d)) (trace d ++ evs).

(** A step of the service on node [i]: the service refers to the node, so that it sees
    the node's present state and leaves its own changes there. *)
Definition service_step (i : N) (l : klabel Raft) (d : deployment) : option deployment :=
  p ← procs (raft d) !! i;
  s ← services d !! i;
  match kstep l (set_raft (node p) s) with
  | KNext s' =>
      Some (mkDeployment (upd i (mkProc (raft_ s') (ctl p) (next_rpc p)) (raft d))
              (<[i := s']> (services d)) (taken d) (clients d) (trace d))
  | _ => None
  end.

(** The steps that the threads of a service take by themselves. *)
Definition internal (l : klabel Raft) : bool :=
  match l with KCall _ _ | KApply _ | KRaft _ => false | _ => true end.

(** Commands reach the log through the services only. *)
Definition raft_step (l : label) (d : deployment) : option deployment :=
  match l, step l (raft d) with
  | LPropose _ _, _ => None
  | _, Next c => Some (mkDeployment c (services d) (taken d) (clients d) (trace d))
  | _, _ => None
  end.

(** The apply loop of node [i]: the next result of the ready queue. *)
Definition next_result (i : N) (d : deployment) : option ApplyResult :=
  p ← procs (raft d) !! i;
  ready_queue (node p) !! default 0%nat (taken d !! i).

Definition apply_next (i : N) (d : deployment) : option deployment :=
  result ← next_result i d;
  d ← service_step i (KApply result) d;
  Some (mkDeployment (raft d) (services d) (<[i := S (default 0%nat (taken d !! i))]> (taken d))
          (clients d) (trace d)).

(** The next operation of a client: [++seq_num_], and the request of all its attempts. *)
Definition next_request (q : client) (op : OpType) (key value : string) : command_fields :=
  wire (mkFields op (client_id_ (kvc q)) (add64 (seq_num_ (kvc q)) 1) key value).

Definition invoke (k : N) (op : OpType) (key value : string) (d : deployment) : option deployment :=
  q ← clients d !! k;
  match cstate q with
  | QIdle =>
      let c := kvc q in
      let req := next_request q op key value in
      let c := mkKvClient (stubs_size c) (client_id_ c) (add64 (seq_num_ c) 1) (leader_idx_ c) in
      Some (put_client k (mkClient c (QAsk req max_attempts_)) [Invoke req] d)
  | _ => None
  end.

(** One attempt: the call of the replica's handler. *)
Definition send_request (k h : N) (d : deployment) : option deployment :=
  q ← clients d !! k;
  match cstate q with
  | QAsk req (S more) =>
      let i := leader_idx_ (kvc q) in
      d ← service_step i (KCall h req) d;
      Some (put_client k (mkClient (kvc q) (QAwait req more i h)) [] d)
  | _ => None
  end.

(** The attempt fails: the next replica is asked. *)
Definition retry (k : N) (q : client) (req : command_fields) (more : nat) (d : deployment)
    : option deployment :=
  c ← rotate_leader (kvc q);
  Some (put_client k (mkClient c (QAsk req more)) [] d).

(** The reply of the handler that the client waits for. *)
Definition receive_reply (k : N) (d : deployment) : option deployment :=
  q ← clients d !! k;
  match cstate q with
  | QAwait req more i h =>
      s ← services d !! i;
      match calls s !! h with
      | Some (CDone _ lease (KV_SUCCESS, v)) =>
          Some (put_client k (mkClient (kvc q) QIdle) [Return req lease v] d)
      | Some (CDone _ _ _) => retry k q req more d
      | _ => None
      end
  | _ => None
  end.

(** The call fails or runs out of time; the handler may go on. *)
Definition fail_request (k : N) (d : deployment) : option deployment :=
  q ← clients d !! k;
  match cstate q with
  | QAsk req (S more) | QAwait req more _ _ => retry k q req more d
  | _ => None
  end.

(** No attempt is more: the operation returns [KV_TIMEOUT]. *)
Definition abandon (k : N) (d : deployment) : option deployment :=
  q ← clients d !! k;
  match cstate q with
  | QAsk req O => Some (put_client k (mkClient (kvc q) QIdle) [GaveUp req] d)
  | _ => None
  end.

Definition dstep (l : dlabel) (d : deployment) : option deployment :=
  match l with
  | DRaft l => raft_step l d
  | DApply i => apply_next i d
  | DService i l => if internal l then service_step i l d else None
  | DInvoke k op key value => invoke k op key value d
  | DSend k h => send_request k h d
  | DReply k => receive_reply k d
  | DFail k => fail_request k d
  | DGiveUp k => abandon k d
  end.

(** ** The discipline *)

#[export] Instance encodable_dec f : Decision (encodable f).
Proof. unfold encodable. apply _. Defined.

(** The schedules that the theorems are about: the Raft steps are disciplined, a service
    takes up the results of its node in sequence (which [Races.overtaken_out_of_order] shows
    is not given), requests fit the wire format and sequence numbers do not wrap. *)
Definition orderly (l : dlabel) (d : deployment) : bool :=
  match l with
  | DRaft l => disciplined l (raft d)
  | DApply i =>
      match next_result i d with
      | Some result => index result =? N.of_nat (default 0%nat (taken d !! i)) + 1
      | None => true
      end
  | DService i (KPropose _) => disciplined (LPropose i EmptyString) (raft d)
  | DInvoke k op key value =>
      match clients d !! k with
      | Some q => (seq_num_ (kvc q) + 1 <? pow64) &&
                  bool_decide (encodable (next_request q op key value))
      | None => true
      end
  | _ => true
  end.

(** A cluster that has just booted, and clients with ids of their own. *)
Definition deploy (configs : list Config) (r : N) (ids : list N) : deployment :=
  let c := boot configs r in
  mkDeployment c (kboot ∘ node <$> procs c) ∅
    (list_to_map ((λ id, (id, mkClient (KvClient_init (cfg_addr <$> configs) id) QIdle)) <$> ids)) [].

Inductive dreachable (configs : list Config) (r : N) (ids : list N) : deployment → Prop :=
| dreach_boot : dreachable configs r ids (deploy configs r ids)
| dreach_step l d d' :
    dreachable configs r ids d → orderly l d = true → dstep l d = Some d' →
    dreachable configs r ids d'.

Fixpoint drun (ls : list dlabel) (d : deployment) : option deployment :=
  match ls with
  | [] => Some d
  | l :: ls => if orderly l d then match dstep l d with Some d' => drun ls d' | None => None end
               else None
  end.

Lemma drun_reachable configs r ids ls : ∀ d d',
  dreachable configs r ids d → drun ls d = Some d' → dreachable configs r ids d'.
Proof.
  induction ls as [|l ls IH]; intros d d' Hd Hrun; simpl in Hrun; [by simplify_eq|].
  destruct (orderly l d) eqn:Ho; [|done]. destruct (dstep l d) as [d1|] eqn:Hs; [|done].
  eapply IH; [|done]. by eapply dreach_step.
Qed.
