(* ===== verification/Linearize.v ===== *)
(** Linearizability of the deployed store ([Deployment.v]): the operations that go through
    the log appear to take effect one at a time, each between its call and its return,
    on a plain map.

    The order is that of the committed log.  An operation that has returned is among the
    entries committed by then ([settled]), and an operation that is called later is not,
    because no command is in a log before its operation is called. *)
From S2P Require Import Prelude Types ConfigGen RaftState RaftNode RaftNodeFacts Cluster RaftSpec.
From S2P Require Import Refinement RefinementSteps Simulation LogSpec LogInv LogSafety.
From S2P Require Import Races Safety Replication KvCodec KvServer KvService KvClient EndToEnd.
From S2P Require Import Session Deployment.

#[local] Open Scope N_scope.

(** ** Where entries come from *)

(** The entries of the logs and of the requests in the network. *)
Definition known (c : cluster) (e : Entry) : Prop :=
  (∃ i p, procs c !! i = Some p ∧ e ∈ log_ (node p)) ∨
  (∃ src dst k q, MAppendEntries src dst k q ∈ net c ∧ e ∈ entries q).

Lemma merge_elem tail es e : e ∈ merge tail es → e ∈ tail ∨ e ∈ es.
Proof.
  revert es. induction tail as [|t tail IH]; intros [|f es]; simpl; auto.
  destruct (term t =? term f); [|by auto].
  intros [->|[?|?]%IH]%elem_of_cons; [left; by left|left; by right|right; by right].
Qed.

Lemma merge_log_elem log prev es e : e ∈ merge_log log prev es → e ∈ log ∨ e ∈ es.
Proof.
  unfold merge_log. intros [H|[H|H]%merge_elem]%elem_of_app; [left|left|by right].
  - rewrite <- (take_drop (N.to_nat prev) log). apply elem_of_app. by left.
  - rewrite <- (take_drop (N.to_nat prev) log). apply elem_of_app. by right.
Qed.

(** A node's step whose log comes from the log it had and from what is in the network,
    and whose requests are cut from its log. *)
Lemma known_upd c i p n' k rpc ms evs e :
  procs c !! i = Some p →
  (∀ e, e ∈ log_ n' → known c e) →
  (∀ src dst j q e, MAppendEntries src dst j q ∈ ms → e ∈ entries q → known c e) →
  known (record evs (send ms (upd i (mkProc n' k rpc) c))) e → known c e.
Proof.
  intros Hi Hlog Hms [(j & p' & Hp & He)|(src & dst & j & q & Hm & He)]; simpl in *.
  - destruct (decide (j = i)) as [->|Hne].
    + rewrite lookup_insert_eq in Hp. simplify_eq. by apply Hlog.
    + rewrite lookup_insert_ne in Hp by done. left. by exists j, p'.
  - apply elem_of_app in Hm as [Hm|Hm]; [by eapply Hms|]. right. by exists src, dst, j, q.
Qed.

(** The same for a step that sends nothing. *)
Lemma known_quiet c i p n' k rpc evs e :
  procs c !! i = Some p → log_ n' = log_ (node p) →
  known (record evs (upd i (mkProc n' k rpc) c)) e → known c e.
Proof.
  intros Hi Hlog He. eapply (known_upd c i p n' k rpc [] evs); [done| |by intros ????? ?%not_elem_of_nil|].
  - rewrite Hlog. intros e' He'. left. by exists i, p.
  - destruct He as [He|He]; [by left|by right].
Qed.

Lemma known_heartbeat c i p cv n' qs calls ms e :
  cluster_inv c → procs c !! i = Some p → ctl p = PcHb cv →
  heartbeat_requests (node p) = Some (n', Some qs) → post_calls n' (next_rpc p) qs = (calls, ms) →
  ∀ k rpc, known (send ms (upd i (mkProc n' k rpc) c)) e → known c e.
Proof.
  intros Hinv Hi Hctl Hhb Hpost k rpc.
  destruct (ci_procs c Hinv i p Hi) as [Hb _ Hl]. rewrite Hctl in Hl.
  unfold heartbeat_requests in Hhb. case_decide as Hr; [|done]. destruct (Hl Hr) as (Hnx & _).
  edestruct build_requests_spec as (n1 & qs1 & Hq & Hs & _ & Hreqs & _); [apply Hb|exact Hnx|].
  rewrite Hq in Hhb. simplify_eq/=. apply (known_upd c i p n' k rpc ms []); [done| |].
  - rewrite Hs. intros e' He'. left. by exists i, p.
  - intros src dst j q e' Hm He'. destruct (post_calls_spec n' qs _ _ _ Hpost) as (_ & Hms & _).
    destruct (Hms _ Hm) as (pq & j' & Hpq & [= -> -> -> ->]).
    rewrite Forall_forall in Hreqs. destruct (Hreqs pq Hpq) as (_ & _ & _ & He & _).
    rewrite He in He'. left. exists i, p. split; [done|].
    rewrite <- (take_drop (N.to_nat (pq_prev_idx pq))). apply elem_of_app. by right.
Qed.

(** What the sections that answer others do to the log and the ready queue of a node. *)
Lemma processed_frame c i p cv calls r now n' out :
  cluster_inv c → procs c !! i = Some p → ctl p = PcHbRpc cv calls →
  process_replies (if_slot <$> calls) r now (node p) = Some (n', out) →
  log_ n' = log_ (node p) ∧ ready_queue n' = ready_queue (node p).
Proof.
  intros Hinv Hi Hctl Hp. destruct (decide (role_ (node p) = LEADER)) as [Hr|Hr].
  - pose proof (replies_spec c i p Hinv Hi cv calls r now Hctl Hr) as Hs. rewrite Hp in Hs.
    destruct Hs as (_ & _ & [[Hdep _]|Hrp]); [split; by apply Hdep|split; by apply Hrp].
  - unfold process_replies in Hp. rewrite decide_False in Hp by done. by simplify_eq.
Qed.

Lemma voted_frame req r n n' rep :
  log_fits (log_ n) → handle_request_vote req r n = Some (n', rep) →
  log_ n' = log_ n ∧ ready_queue n' = ready_queue n.
Proof.
  intros Hfit Hh. rewrite handle_request_vote_eq in Hh by done. unfold adopt_term in Hh. by case_guards.
Qed.

Lemma accepted_frame req r n n' rep :
  commit_index_ n ≤ last_applied_ n → vsize (log_ n) + vsize (entries req) + 1 < pow64 →
  handle_append_entries req r n = Some (n', rep) →
  (∀ e, e ∈ log_ n' → e ∈ log_ n ∨ e ∈ entries req) ∧ ready_queue n `prefix_of` ready_queue n'.
Proof.
  intros Hci Hfit Hh. rewrite handle_append_entries_eq in Hh by done.
  destruct (follow_leader_frame req r n) as (Hlog & _ & _ & Hrq & _).
  destruct (aeq_term req <? _) in Hh; simplify_eq; [by auto|].
  destruct (prev_ok _ _) in Hh; simplify_eq; [|rewrite Hlog, Hrq; by auto].
  split; [intros e; by apply (merge_log_elem _ (prevLogIndex req))|by apply prefix_app_r].
Qed.

Lemma known_propose c i p d e :
  procs c !! i = Some p →
  known (upd i (mkProc (propose d (node p)).1 (ctl p) (next_rpc p)) c) e →
  known c e ∨ ∃ t, e = mkEntry t d.
Proof.
  intros Hi [(j & p' & Hp & He)|He]; [|by left; right].
  simpl in Hp. destruct (decide (j = i)) as [->|Hne].
  - rewrite lookup_insert_eq in Hp. simplify_eq. simpl in He. unfold propose in He.
    case_decide; simpl in He; [|left; left; by exists i, p].
    apply elem_of_app in He as [He|He%list_elem_of_singleton]; [left; left; by exists i, p|].
    right. by eexists.
  - rewrite lookup_insert_ne in Hp by done. left. left. by exists j, p'.
Qed.

(** A step that keeps the log of its node; [known] does not depend on the history. *)
Ltac known_same Hi He := eapply (known_quiet _ _ _ _ _ _ [] _ Hi); [|exact He]; done.

(** Only a proposal brings new entries. *)
Lemma step_known l c c' e :
  cluster_inv c → disciplined l c = true → step l c = Next c' → known c' e →
  known c e ∨ ∃ i d t, l = LPropose i d ∧ e = mkEntry t d.
Proof.
  intros Hinv Hd Hstep He. unfold step, disciplined in *.
  destruct (procs c !! actor l) as [p|] eqn:Hi; [|done].
  pose proof (pi_base _ _ _ _ _ (ci_procs c Hinv _ _ Hi)) as Hb.
  destruct l; cbn [actor] in *; cbn [thread_step] in Hstep;
    try (left; destruct (ctl p) eqn:Hctl; try done; case_guards; simplify_eq;
         known_same Hi He).
  - left. destruct (ctl p) eqn:Hctl; try done. destruct (is_dead _); [done|].
    unfold run_top in Hstep. case_decide; simplify_eq; known_same Hi He.
  - left. destruct (ctl p) eqn:Hctl; try done. unfold start_election in Hstep. case_guards.
    + destruct (vote_request _) in Hstep; simplify_eq. known_same Hi He.
    + known_same Hi He.
  - left. destruct (ctl p) eqn:Hctl; try done. destruct todo; simplify_eq;
      known_same Hi He.
  - left. destruct (ctl p) eqn:Hctl; try done. destruct (last_term _); simplify_eq.
    eapply (known_upd c i p _ _ _ [_] []); [done| | |exact He].
    + intros e' He'. left. by exists i, p.
    + by intros ????? ?%list_elem_of_singleton.
  - left. destruct (ctl p) eqn:Hctl; try done. unfold finish_election in Hstep.
    case_guards; simplify_eq; known_same Hi He.
  - left. destruct (ctl p) eqn:Hctl; try done.
    destruct (heartbeat_defined c i p cv Hinv Hi Hctl) as (n' & qs & Hq & Hs).
    rewrite Hq in Hstep. destruct qs as [qs|].
    + destruct (post_calls n' (next_rpc p) qs) as [cs new] eqn:Hpost. simplify_eq.
      by eapply known_heartbeat.
    + simplify_eq. eapply (known_quiet c _ p _ _ _ [] e Hi); [|exact He]. by rewrite Hs.
  - left. destruct (ctl p) eqn:Hctl; try done. destruct (forallb if_done calls); [|done].
    destruct (process_replies _ _ _ _) as [[n' out]|] eqn:Hp; simplify_eq.
    eapply (known_quiet c _ p _ _ _ [] e Hi); [|exact He].
    by destruct (processed_frame _ _ _ _ _ _ _ _ _ Hinv Hi Hctl Hp) as [-> _].
  - left. destruct (ctl p) eqn:Hctl; try done. destruct to_apply; simplify_eq;
      known_same Hi He.
  - left. unfold deliver_vote in Hstep. case_bool_decide; [|done].
    destruct (handle_request_vote req r (node p)) as [[n' rep]|] eqn:Hh; simplify_eq.
    eapply (known_upd c dst p); [done| | |exact He].
    + intros e' He'. left. exists dst, p. split; [done|].
      destruct (voted_frame _ _ _ _ _ (bi_fits _ _ _ Hb) Hh) as [<- _]. done.
    + by intros ????? ?%list_elem_of_singleton.
  - left. unfold deliver_append in Hstep. case_bool_decide as Hm; [|done]. apply N.ltb_lt in Hd.
    destruct (handle_append_entries req r (node p)) as [[n' rep]|] eqn:Hh; simplify_eq.
    eapply (known_upd c dst p); [done| | |exact He].
    + destruct (accepted_frame _ _ _ _ _ ltac:(apply Hb) Hd Hh) as [Hlog _].
      intros e' [Hin|Hin]%Hlog; [left; by exists dst, p|right; by exists src, dst, rpc, req].
    + by intros ????? ?%list_elem_of_singleton.
  - simplify_eq. apply (known_propose c i p) in He as [|[t ->]]; [by left|right; by exists i, d, t|done].
Qed.

(** ** Ready queues grow at their end *)

Lemma step_queue l c c' :
  cluster_inv c → disciplined l c = true → step l c = Next c' →
  ∃ p p', procs c !! actor l = Some p ∧ procs c' = <[actor l := p']> (procs c) ∧
          ready_queue (node p) `prefix_of` ready_queue (node p').
Proof.
  intros Hinv Hd Hstep. unfold step, disciplined in *.
  destruct (procs c !! actor l) as [p|] eqn:Hi; [|done]. exists p.
  pose proof (pi_base _ _ _ _ _ (ci_procs c Hinv _ _ Hi)) as Hb.
  assert (∀ n' k rpc, ready_queue n' = ready_queue (node p) →
    ∃ p', Some p = Some p ∧ <[actor l := mkProc n' k rpc]> (procs c) = <[actor l := p']> (procs c) ∧
          ready_queue (node p) `prefix_of` ready_queue (node p')) as Hq.
  { intros n' k rpc Hq. eexists. split; [done|]. split; [done|]. simpl. by rewrite Hq. }
  destruct l; cbn [actor] in *; cbn [thread_step] in Hstep;
    try (destruct (ctl p) eqn:Hctl; try done; case_guards; simplify_eq; by apply Hq).
  - destruct (ctl p) eqn:Hctl; try done. destruct (is_dead _); [done|].
    unfold run_top in Hstep. case_decide; simplify_eq; by apply Hq.
  - destruct (ctl p) eqn:Hctl; try done. unfold start_election in Hstep. case_guards; [|by apply Hq].
    destruct (vote_request _) in Hstep; simplify_eq. by apply Hq.
  - destruct (ctl p) eqn:Hctl; try done. destruct todo; simplify_eq; by apply Hq.
  - destruct (ctl p) eqn:Hctl; try done. destruct (last_term _); simplify_eq. by apply Hq.
  - destruct (ctl p) eqn:Hctl; try done. unfold finish_election in Hstep.
    case_guards; simplify_eq; by apply Hq.
  - destruct (ctl p) eqn:Hctl; try done.
    destruct (heartbeat_defined c i p cv Hinv Hi Hctl) as (n' & qs & Hh & Hs).
    assert (ready_queue n' = ready_queue (node p)) as Hrq by (by rewrite Hs).
    rewrite Hh in Hstep. destruct qs as [qs|]; [destruct (post_calls n' (next_rpc p) qs)|];
      simplify_eq; by apply Hq.
  - destruct (ctl p) eqn:Hctl; try done. destruct (forallb if_done calls); [|done].
    destruct (process_replies _ _ _ _) as [[n' out]|] eqn:Hp; simplify_eq. apply Hq.
    by apply (processed_frame _ _ _ _ _ _ _ _ _ Hinv Hi Hctl Hp).
  - destruct (ctl p) eqn:Hctl; try done. destruct to_apply; simplify_eq; [by apply Hq|].
    eexists. split; [done|]. split; [done|]. simpl. by apply prefix_app_r.
  - unfold deliver_vote in Hstep. case_bool_decide; [|done].
    destruct (handle_request_vote req r (node p)) as [[n' rep]|] eqn:Hh; simplify_eq. apply Hq.
    by apply (voted_frame _ _ _ _ _ (bi_fits _ _ _ Hb) Hh).
  - unfold deliver_append in Hstep. case_bool_decide; [|done]. apply N.ltb_lt in Hd.
    destruct (handle_append_entries req r (node p)) as [[n' rep]|] eqn:Hh; simplify_eq.
    eexists. split; [done|]. split; [done|]. by apply (accepted_frame _ _ _ _ _ ltac:(apply Hb) Hd Hh).
  - simplify_eq. apply Hq. unfold propose. by case_decide.
Qed.

(** ** A step of a service *)

Section service.
Implicit Types (s : system Raft) (l : klabel Raft).

(** The command that a handler puts into the log. *)
Definition proposed (f : command_fields) : option string :=
  serialize (f_op f) (f_client f) (f_seq f) (f_key f)
    (match f_op f with GET => EmptyString | _ => f_value f end).

Lemma proposed_wire f : encodable f → wire f = f → ∃ d, proposed f = Some d ∧ decoded d = Some f.
Proof.
  intros He Hw. destruct (serialize_wire f He) as (d & Hd & Hdec). exists d. split; [|done].
  rewrite <- Hd. unfold proposed. unfold wire in Hw. destruct f as [[] cl sq ke va]; simpl in *; try done.
  by injection Hw as <-.
Qed.

(** A service changes its node by proposing only. *)
Lemma kstep_raft l s s' :
  kstep l s = KNext s' → (∀ x, l ≠ KRaft x) →
  raft_ s' = raft_ s ∨
  ∃ h f d, l = KPropose h ∧ calls s !! h = Some (CPropose f) ∧ proposed f = Some d ∧
           raft_ s' = (propose d (raft_ s)).1.
Proof.
  intros Hs Hl. destruct l; try (by destruct (Hl r)); simpl in Hs;
    unfold begin_call, leader_read, propose_call in Hs.
  5: { destruct (calls s !! h) as [[]|] eqn:Hh; simplify_eq.
       destruct (serialize _ _ _ _ _) as [d|] eqn:Hd; [|done].
       right. exists h, f, d. split_and!; try done.
       change (api_propose d (raft_ s)) with (propose d (raft_ s)) in Hs.
       destruct (propose d (raft_ s)) as [n p]. by simplify_eq. }
  all: left; repeat match goal with
    | H : context [match ?x with _ => _ end] |- _ => destruct x; simplify_eq/=
    end; done.
Qed.

(** A step changes at most one call, which keeps its command. *)
Lemma kstep_one_call l s s' :
  kstep l s = KNext s' →
  calls s' = calls s ∨
  ∃ h c1, calls s' = <[h := c1]> (calls s) ∧
    match calls s !! h with
    | Some c0 => call_cmd c1 = call_cmd c0
    | None => l = KCall h (call_cmd c1)
    end.
Proof.
  intros Hs. destruct l; simpl in Hs; unfold begin_call, leader_read, propose_call in Hs;
    repeat match goal with
    | H : context [match ?x with _ => _ end] |- _ => destruct x eqn:?; simplify_eq/=
    end; try (by left); try (simplify_eq/=; by left); right; eexists _, _; (split; [reflexivity|]);
    repeat match goal with H : calls s !! _ = _ |- _ => rewrite H end; simpl; eauto;
    try (by case_match); by case_match.
Qed.

Lemma kstep_calls l s s' :
  kstep l s = KNext s' →
  (∀ h c, calls s' !! h = Some c →
     (∃ c0, calls s !! h = Some c0 ∧ call_cmd c = call_cmd c0) ∨
     l = KCall h (call_cmd c)) ∧
  (∀ h c0, calls s !! h = Some c0 → ∃ c, calls s' !! h = Some c ∧ call_cmd c = call_cmd c0).
Proof.
  intros [->|(h & c1 & -> & Hm)]%kstep_one_call.
  { split; [intros k c Hk; left; by exists c|intros k c0 Hk; by exists c0]. }
  split.
  - intros k c. rewrite lookup_insert. case_decide as E; [|intros Hc; left; by exists c].
    intros [= <-]. subst k. destruct (calls s !! h) as [c0|]; [left; by exists c0|by right].
  - intros k c0 Hk. rewrite lookup_insert. case_decide as E; [|by exists c0].
    subst k. rewrite Hk in Hm. by exists c1.
Qed.
End service.

(** ** Settled commands *)

(** [P] are the commands of a committed prefix. *)
Definition settled (c : cluster) (P : list command_fields) : Prop :=
  ∃ j p m, procs c !! j = Some p ∧ N.of_nat m ≤ commit_index_ (node p) ∧
           P = commands (results_of (take m (log_ (node p)))).

(** ** The invariant *)

(** What is known of the [k]-th event, a return: the commands settled when it happened
    were all called before, they hold no later command of the client, and the value is
    their answer. *)
Definition returned_ok (c : cluster) (tr : list op_event) (k : nat) (f : command_fields)
    (lease : bool) (v : string) : Prop :=
  Invoke f ∈ take k tr ∧
  ∃ P, settled c P ∧ (∀ g, g ∈ P → Invoke g ∈ take k tr) ∧
    if lease then lease_read P f (KV_SUCCESS, v)
    else (∀ g, g ∈ P → f_client g = f_client f → f_seq g ≤ f_seq f) ∧
         answered P f (KV_SUCCESS, v).

(** A service has taken up the first [t] results of its node, in sequence. *)
Record service_ok (p : proc) (t : nat) (s : system Raft) : Prop := {
  so_inv : kv_inv s;
  so_len : (t ≤ length (ready_queue (node p)))%nat;
  so_seq : in_sequence (take t (ready_queue (node p)));
  so_taken : taken_up s = commands (take t (ready_queue (node p))) }.

(** The operation that a client is busy with is its last one. *)
Definition client_ok (tr : list op_event) (ss : gmap N (system Raft)) (k : N) (q : client) : Prop :=
  client_id_ (kvc q) = k ∧
  match cstate q with
  | QIdle => True
  | QAsk f _ => Invoke f ∈ tr ∧ f_client f = k ∧ f_seq f = seq_num_ (kvc q)
  | QAwait f _ i h =>
      (Invoke f ∈ tr ∧ f_client f = k ∧ f_seq f = seq_num_ (kvc q)) ∧
      ∃ s c, ss !! i = Some s ∧ calls s !! h = Some c ∧ call_cmd c = f
  end.

Record dinv (configs : list Config) (r : N) (d : deployment) : Prop := {
  di_reach : reachable configs r (raft d);
  di_known : ∀ e g, known (raft d) e → decoded (command e) = Some g → Invoke g ∈ trace d;
  di_services : ∀ i s, services d !! i = Some s →
    ∃ p, procs (raft d) !! i = Some p ∧ service_ok p (default 0%nat (taken d !! i)) s;
  di_calls : ∀ i s h c, services d !! i = Some s → calls s !! h = Some c →
    Invoke (call_cmd c) ∈ trace d;
  di_invoked : ∀ f, Invoke f ∈ trace d →
    (encodable f ∧ wire f = f) ∧
    ∃ q, clients d !! f_client f = Some q ∧ f_seq f ≤ seq_num_ (kvc q);
  di_unique : ∀ f g, Invoke f ∈ trace d → Invoke g ∈ trace d →
    f_client f = f_client g → f_seq f = f_seq g → f = g;
  di_once : ∀ i j f, trace d !! i = Some (Invoke f) → trace d !! j = Some (Invoke f) → i = j;
  di_clients : ∀ k q, clients d !! k = Some q → client_ok (trace d) (services d) k q;
  di_returned : ∀ k f lease v, trace d !! k = Some (Return f lease v) →
    returned_ok (raft d) (trace d) k f lease v }.

Section linearize.
Context (configs : list Config) (r : N) (Hmesh : full_mesh configs).

Lemma settled_step l c c' P :
  reachable configs r c → disciplined l c = true → step l c = Next c' → settled c P → settled c' P.
Proof using Hmesh.
  intros Hreach Hd Hs (j & p & m & Hj & Hm & ->).
  destruct (step_spec configs r Hmesh c l c' Hreach Hd Hs) as [Ha Hst].
  destruct (reachable_inv configs r c Hmesh Hreach) as [Hinv _].
  destruct (step_outputs l c c' Hinv Hd Hs) as (q & Hc' & _).
  assert (∃ p', procs c' !! j = Some p') as [p' Hj'].
  { rewrite Hc', lookup_insert. case_decide; eauto. }
  pose proof (abs_lookup c j p Hj) as Hx. pose proof (abs_lookup c' j p' Hj') as Hx'.
  pose proof (spec_commit_mono _ _ Ha Hst j j _ _ Hx Hx' eq_refl) as Hle.
  pose proof (spec_committed_agree _ _ Ha Hst j j _ _ Hx Hx' m) as Heq. simpl in *.
  exists j, p', m. split_and!; [done|lia|]. by rewrite Heq by lia.
Qed.

(** Settled commands are the beginning of what the node with most commits. *)
Lemma settled_prefix c P j q :
  reachable configs r c → settled c P → procs c !! j = Some q →
  (∀ i p, procs c !! i = Some p → commit_index_ (node p) ≤ commit_index_ (node q)) →
  P `prefix_of` committed_commands q.
Proof using Hmesh.
  intros Hreach (i & p & m & Hi & Hm & ->) Hj Hmax.
  destruct (reachable_inv configs r c Hmesh Hreach) as [_ Ha].
  pose proof (spec_committed_agree _ _ Ha (rtc_refl _ _) i j _ _ (abs_lookup c i p Hi)
                (abs_lookup c j q Hj) m) as Heq. simpl in Heq.
  specialize (Hmax i p Hi). rewrite Heq by lia. unfold committed_commands.
  replace (take m (log_ (node q))) with
    (take m (take (N.to_nat (commit_index_ (node q))) (log_ (node q))))
    by (rewrite take_take; f_equal; lia).
  rewrite <- take_results_of.
  set (l := results_of (take (N.to_nat (commit_index_ (node q))) (log_ (node q)))).
  rewrite <- (take_drop m l) at 2. rewrite commands_app. by apply prefix_app_r.
Qed.
(** A step of the Raft nodes. *)
Lemma dinv_raft l d c' :
  dinv configs r d → disciplined l (raft d) = true → step l (raft d) = Next c' →
  (∀ e g, known c' e → decoded (command e) = Some g → Invoke g ∈ trace d) →
  dinv configs r (mkDeployment c' (services d) (taken d) (clients d) (trace d)).
Proof using Hmesh.
  intros [Hreach Hkn Hss Hcalls Hinv Huniq Honce Hcl Hret] Hd Hs Hkn'.
  split; simpl; try done; [by eapply reach_step| |].
  - intros i s Hi. destruct (Hss i s Hi) as (p & Hp & [Hkv Hlen Hseq Htk]).
    destruct (reachable_inv configs r _ Hmesh Hreach) as [Hcinv _].
    destruct (step_queue l _ c' Hcinv Hd Hs) as (p0 & p' & Hp0 & Hc' & [tl Htl]).
    destruct (decide (i = actor l)) as [->|Hne].
    + simplify_eq. exists p'. rewrite Hc', lookup_insert_eq. split; [done|].
      assert (∀ t, (t ≤ length (ready_queue (node p)))%nat →
        take t (ready_queue (node p')) = take t (ready_queue (node p))) as Ht.
      { intros t Hle. by rewrite Htl, take_app_le. }
      split; [done| |by rewrite Ht|by rewrite Ht].
      rewrite Htl, length_app. lia.
    + exists p. by rewrite Hc', lookup_insert_ne.
  - intros k f lease v Hk. destruct (Hret k f lease v Hk) as (Hf & P & HP & H).
    split; [done|]. exists P. split; [by eapply settled_step|done].
Qed.

(** A step of a service: it has taken up [t'] results, and its calls are those it had or
    were made by clients. *)
Lemma dinv_service i s s' p t' d :
  dinv configs r d → services d !! i = Some s → procs (raft d) !! i = Some p →
  service_ok p t' s' →
  (∀ h c, calls s' !! h = Some c → Invoke (call_cmd c) ∈ trace d) →
  (∀ h c0, calls s !! h = Some c0 → ∃ c, calls s' !! h = Some c ∧ call_cmd c = call_cmd c0) →
  ∀ ts, default 0%nat (ts !! i) = t' → (∀ j, j ≠ i → ts !! j = taken d !! j) →
  dinv configs r (mkDeployment (raft d) (<[i := s']> (services d)) ts (clients d) (trace d)).
Proof using.
  intros [Hreach Hkn Hss Hcalls Hinv Huniq Honce Hcl Hret] Hs Hp Hok Hc' Hkeep ts Hti Htj.
  split; simpl; try done.
  - intros j s0 Hj. destruct (decide (j = i)) as [->|Hne].
    + rewrite lookup_insert_eq in Hj. simplify_eq. by exists p.
    + rewrite lookup_insert_ne in Hj by done. rewrite Htj by done. by apply Hss.
  - intros j s0 h c Hj. destruct (decide (j = i)) as [->|Hne].
    + rewrite lookup_insert_eq in Hj. simplify_eq. apply Hc'.
    + rewrite lookup_insert_ne in Hj by done. by eapply Hcalls.
  - intros k q Hk. destruct (Hcl k q Hk) as [Hid Hst]. split; [done|].
    destruct (cstate q) as [|f m|f m j h]; try done. destruct Hst as [Hf (s0 & c & Hj & Hh & Hc)].
    split; [done|]. destruct (decide (j = i)) as [->|Hne].
    + simplify_eq. destruct (Hkeep h c Hh) as (c1 & Hc1 & E). exists s', c1.
      rewrite lookup_insert_eq. split_and!; [done|done|congruence].
    + exists s0, c. by rewrite lookup_insert_ne.
Qed.
Lemma upd_same (c : cluster) i p : procs c !! i = Some p → upd i p c = c.
Proof using. intros Hi. unfold upd. rewrite insert_id by done. by destruct c. Qed.

Lemma in_sequence_take_S (q : list ApplyResult) t a :
  in_sequence (take t q) → q !! t = Some a → index a = N.of_nat t + 1 → in_sequence (take (S t) q).
Proof using.
  intros Hs Ha Hi. unfold in_sequence in *. rewrite (take_S_r _ _ _ Ha), fmap_app, Hs.
  rewrite length_app, length_take, Nat.min_l by (apply lookup_lt_Some in Ha; lia). simpl.
  rewrite Nat.add_1_r, seq_S, fmap_app. simpl. rewrite Hi. do 3 f_equal. lia.
Qed.

(** A service after a step of its own, its node as it was. *)
Lemma service_ok_step l p t s s' :
  service_ok p t s → kstep l (set_raft (node p) s) = KNext s' →
  (∀ a, l = KApply a → ready_queue (node p) !! t = Some a ∧ index a = N.of_nat t + 1) →
  service_ok p (t + length (fed [l])) s'.
Proof using.
  intros [Hkv Hlen Hseq Htk] Hs Ha. set (s0 := set_raft (node p) s) in *.
  assert (kv_inv s0) as Hkv0 by (by apply (kstep_inv (KRaft (node p)) s)).
  pose proof (kstep_taken_up _ _ _ Hs) as Htk'. change (taken_up s0) with (taken_up s) in Htk'.
  assert (service_ok p t s → fed [l] = [] → service_ok p (t + length (fed [l])) s') as Hq.
  { intros _ Hf. rewrite Hf in Htk' |- *. simpl. rewrite Nat.add_0_r.
    split; [by eapply kstep_inv|done|done|]. rewrite Htk', Htk. simpl. by rewrite app_nil_r. }
  destruct l; try (by apply Hq). destruct (Ha result eq_refl) as [Hat Hi]. simpl.
  replace (t + 1)%nat with (S t) by lia. pose proof (lookup_lt_Some _ _ _ Hat).
  split; [by eapply kstep_inv|lia|by eapply in_sequence_take_S|].
  by rewrite Htk', Htk, (take_S_r _ _ _ Hat), commands_app.
Qed.

Lemma service_step_dinv i l d d' ts :
  dinv configs r d → service_step i l d = Some d' → (∀ x, l ≠ KRaft x) →
  (∀ h f, l = KCall h f → Invoke f ∈ trace d) →
  (∀ a, l = KApply a →
     next_result i d = Some a ∧ index a = N.of_nat (default 0%nat (taken d !! i)) + 1) →
  (∀ h, l = KPropose h → disciplined (LPropose i EmptyString) (raft d) = true) →
  default 0%nat (ts !! i) = (default 0%nat (taken d !! i) + length (fed [l]))%nat →
  (∀ j, j ≠ i → ts !! j = taken d !! j) →
  dinv configs r (mkDeployment (raft d') (services d') ts (clients d) (trace d)).
Proof using Hmesh.
  intros Hinv Hstep Hl Hcall Happ Hprop Hti Htj. unfold service_step in Hstep.
  destruct (procs (raft d) !! i) as [p|] eqn:Hp; [|done].
  destruct (services d !! i) as [s|] eqn:Hs; [|done]. cbn [mbind option_bind] in Hstep.
  destruct (kstep l (set_raft (node p) s)) as [s'| |] eqn:Hk; try done. simplify_eq/=.
  destruct (di_services _ _ _ Hinv i s Hs) as (p0 & Hp0 & Hok). simplify_eq.
  destruct (kstep_calls _ _ _ Hk) as [Hnew Hkeep]. simpl in Hnew, Hkeep.
  assert (dinv configs r (mkDeployment (raft d) (<[i := s']> (services d)) ts (clients d) (trace d)))
    as Hinv1.
  { eapply (dinv_service i s s' p); try done.
    - eapply service_ok_step; [done|done|]. intros a Ha. destruct (Happ a Ha) as [Hn ?].
      unfold next_result in Hn. by rewrite Hp in Hn.
    - intros h c Hc. destruct (Hnew h c Hc) as [(c0 & Hc0 & ->)| ->];
        [by eapply (di_calls _ _ _ Hinv)|by eapply Hcall]. }
  destruct (kstep_raft _ _ _ Hk Hl) as [Er|(h & f & data & -> & Hh & Hd & Er)]; simpl in Er; rewrite Er.
  - rewrite upd_same; [done|]. by destruct p.
  - apply (dinv_raft (LPropose i data) _ _ Hinv1); [by apply (Hprop h)| |].
    + simpl. unfold step. simpl. by rewrite Hp.
    + simpl in *. assert (Invoke f ∈ trace d) as Hf by (by apply (di_calls _ _ _ Hinv i s h (CPropose f))).
      destruct (di_invoked _ _ _ Hinv f Hf) as [[Henc Hw] _].
      destruct (proposed_wire f Henc Hw) as (data' & Hd' & Hdec). simplify_eq.
      intros e g He Hg. destruct (reachable_inv configs r _ Hmesh (di_reach _ _ _ Hinv)) as [Hc _].
      destruct (step_known (LPropose i data) (raft d) _ e Hc (Hprop h eq_refl)
        ltac:(unfold step; simpl; by rewrite Hp) He) as [Hold|(j & x & t & [= <- <-] & ->)].
      * by eapply (di_known _ _ _ Hinv).
      * simpl in Hg. by simplify_eq.
Qed.
(** What a service has taken up is settled. *)
Lemma service_settled c i p t s :
  reachable configs r c → procs c !! i = Some p → service_ok p t s → settled c (taken_up s).
Proof using Hmesh.
  intros Hreach Hi [_ Hlen Hseq ->]. set (rs := take t (ready_queue (node p))) in *.
  assert (length rs = t) as Hrs by (unfold rs; rewrite length_take; lia).
  assert (vsize rs ≤ commit_index_ (node p)) as Hcm.
  { destruct (last rs) as [a|] eqn:Hl.
    - rewrite last_lookup in Hl. pose proof (in_sequence_lookup _ _ _ Hseq Hl) as Hidx.
      pose proof (lookup_lt_Some _ _ _ Hl).
      destruct (reachable_outputs configs r Hmesh c Hreach i p a Hi) as (e & Hr & _).
      { apply elem_of_app. left. rewrite <- (take_drop t (ready_queue (node p))).
        apply elem_of_app. left. by eapply list_elem_of_lookup_2. }
      unfold vsize. lia.
    - apply last_None in Hl. rewrite Hl, vsize_nil. lia. }
  exists i, p, t. split_and!; [done|unfold vsize in Hcm; lia|].
  rewrite <- take_results_of. rewrite <- Hrs at 1. f_equal.
  apply (queue_of_log configs r c [] c i i p p rs Hmesh Hreach); try done.
  intros a Ha. apply elem_of_app. left. rewrite <- (take_drop t (ready_queue (node p))).
  apply elem_of_app. by left.
Qed.

Lemma settled_known c P g :
  settled c P → g ∈ P → ∃ e, known c e ∧ decoded (command e) = Some g.
Proof using.
  intros (j & p & m & Hj & _ & ->) Hg. apply list_elem_of_omap in Hg as (a & Ha & Hg).
  apply results_of_elem in Ha as (e & _ & He & Ea). exists e. split.
  - left. exists j, p. split; [done|]. unfold vat in He. apply lookup_take_Some in He as [He _].
    by eapply list_elem_of_lookup_2.
  - unfold command_of in Hg. rewrite Ea in Hg. done.
Qed.

(** A step of a client [k], which adds [evs] to the trace. *)
Lemma dinv_client k q q' evs d :
  dinv configs r d → clients d !! k = Some q → (length evs ≤ 1)%nat →
  seq_num_ (kvc q) ≤ seq_num_ (kvc q') → client_ok (trace d ++ evs) (services d) k q' →
  (∀ f, Invoke f ∈ evs → (encodable f ∧ wire f = f) ∧ f_client f = k ∧
     seq_num_ (kvc q) < f_seq f ≤ seq_num_ (kvc q') ∧ ∀ g, Invoke g ∈ evs → g = f) →
  (∀ j f lease v, evs !! j = Some (Return f lease v) →
     returned_ok (raft d) (trace d ++ evs) (length (trace d) + j) f lease v) →
  dinv configs r (put_client k q' evs d).
Proof using Hmesh.
  intros [Hreach Hkn Hss Hcalls Hinv Huniq Honce Hcl Hret] Hk Hlen Hseq Hok Hev Hrt.
  assert (∀ f, Invoke f ∈ trace d → Invoke f ∈ trace d ++ evs) as Hmore by set_solver.
  assert (∀ f g, Invoke f ∈ trace d → Invoke g ∈ evs → f_client f = f_client g → f_seq f < f_seq g)
    as Hlt.
  { intros f g Hf Hg Hc. destruct (Hev g Hg) as (_ & Hgk & Hgs & _).
    destruct (Hinv f Hf) as (_ & q0 & Hq0 & ?). rewrite Hc, Hgk, Hk in Hq0. simplify_eq. lia. }
  split; simpl; eauto.
  - intros f [Hf|Hf]%elem_of_app.
    + destruct (Hinv f Hf) as (? & q0 & Hq0 & ?). split; [done|].
      destruct (decide (f_client f = k)) as [E|Hne].
      * exists q'. rewrite E in Hq0 |- *. rewrite lookup_insert_eq. split; [done|]. simplify_eq. lia.
      * exists q0. by rewrite lookup_insert_ne.
    + destruct (Hev f Hf) as (? & -> & ? & _). split; [done|]. exists q'.
      rewrite lookup_insert_eq. split; [done|lia].
  - intros f g [Hf|Hf]%elem_of_app [Hg|Hg]%elem_of_app Hc Hs.
    + by apply Huniq.
    + specialize (Hlt f g Hf Hg Hc). lia.
    + specialize (Hlt g f Hg Hf (eq_sym Hc)). lia.
    + destruct (Hev g Hg) as (_ & _ & _ & H). by apply H.
  - intros i j f Hi Hj.
    apply lookup_app_Some in Hi as [Hi|[Hgei Hi]], Hj as [Hj|[Hgej Hj]]; [by eapply Honce|..].
    + apply list_elem_of_lookup_2 in Hi, Hj. specialize (Hlt f f Hi Hj eq_refl). lia.
    + apply list_elem_of_lookup_2 in Hi, Hj. specialize (Hlt f f Hj Hi eq_refl). lia.
    + apply lookup_lt_Some in Hi, Hj. lia.
  - intros j q0 Hj. destruct (decide (j = k)) as [->|Hne].
    + rewrite lookup_insert_eq in Hj. by simplify_eq.
    + rewrite lookup_insert_ne in Hj by done. destruct (Hcl j q0 Hj) as [? Hst]. split; [done|].
      destruct (cstate q0); naive_solver.
  - intros j f lease v Hj. apply lookup_app_Some in Hj as [Hj|[Hge Hj]].
    + destruct (Hret j f lease v Hj) as (Hf & P & HP & H). apply lookup_lt_Some in Hj.
      assert (take j (trace d ++ evs) = take j (trace d)) as E by (apply take_app_le; lia).
      unfold returned_ok. rewrite E. by eauto.
    + specialize (Hrt _ _ _ _ Hj). 
      by replace (length (trace d) + (j - length (trace d)))%nat with j in Hrt by lia.
Qed.
(** What the client sees of a finished call. *)
Lemma returned_now d k q req more i h s lease v :
  dinv configs r d → clients d !! k = Some q → cstate q = QAwait req more i h →
  services d !! i = Some s → ∀ f, calls s !! h = Some (CDone f lease (KV_SUCCESS, v)) →
  returned_ok (raft d) (trace d ++ [Return req lease v]) (length (trace d) + 0) req lease v.
Proof using Hmesh.
  intros Hinv Hk Hq Hs f Hh. destruct (di_clients _ _ _ Hinv k q Hk) as [_ Hst]. rewrite Hq in Hst.
  destruct Hst as [(Hreq & Hc & Hsq) (s0 & c0 & Hs0 & Hc0 & Ef)]. simplify_eq. simpl in *.
  unfold returned_ok. rewrite Nat.add_0_r, take_app_length. split; [done|].
  destruct (di_services _ _ _ Hinv i s Hs) as (p & Hp & Hok).
  pose proof (service_settled _ _ _ _ _ (di_reach _ _ _ Hinv) Hp Hok) as Hset.
  assert (∀ g, g ∈ taken_up s → Invoke g ∈ trace d) as Hin.
  { intros g Hg. destruct (settled_known _ _ _ Hset Hg) as (e & He & Hd).
    by eapply (di_known _ _ _ Hinv). }
  exists (taken_up s). split_and!; [done|done|].
  pose proof (ki_calls _ (so_inv _ _ _ Hok) h _ Hh) as Hdone. unfold taken_up in *.
  destruct lease; simpl in Hdone; [by apply lease_read_more|].
  split; [|by apply answered_more]. intros g Hg Hgc.
  destruct (di_invoked _ _ _ Hinv g (Hin g Hg)) as (_ & q0 & Hq0 & ?). rewrite Hgc, Hk in Hq0.
  simplify_eq. lia.
Qed.

Lemma retry_dinv k q req more d d' :
  dinv configs r d → clients d !! k = Some q →
  Invoke req ∈ trace d → f_client req = k → f_seq req = seq_num_ (kvc q) →
  retry k q req more d = Some d' → dinv configs r d'.
Proof using Hmesh.
  intros Hinv Hk Hreq Hc Hsq Hr. unfold retry, rotate_leader in Hr.
  destruct (di_clients _ _ _ Hinv k q Hk) as [Hid _].
  destruct (stubs_size (kvc q) =? 0); simplify_eq/=.
  apply (dinv_client (f_client req) q); try done; simpl; try lia.
  - split; [done|]. simpl. rewrite app_nil_r. done.
  - by intros f ?%not_elem_of_nil.
Qed.

(** The request of a client's next operation is its own and new. *)
Lemma next_request_fields q op key value :
  seq_num_ (kvc q) + 1 < pow64 →
  let f := next_request q op key value in
  f_client f = client_id_ (kvc q) ∧ f_seq f = seq_num_ (kvc q) + 1 ∧ wire f = f.
Proof using.
  intros Hs. unfold next_request, wire. rewrite add64_small by done. by destruct op.
Qed.

Lemma service_step_frame i l d d' :
  service_step i l d = Some d' →
  d' = mkDeployment (raft d') (services d') (taken d) (clients d) (trace d).
Proof using.
  unfold service_step. destruct (procs (raft d) !! i) as [p|]; [|done].
  destruct (services d !! i) as [s|]; [|done]. simpl. destruct (kstep _ _); [|done..].
  by intros [= <-].
Qed.

Lemma service_step_call i h f d d' :
  service_step i (KCall h f) d = Some d' →
  ∃ s c, services d' !! i = Some s ∧ calls s !! h = Some c ∧ call_cmd c = f.
Proof using.
  unfold service_step. destruct (procs (raft d) !! i) as [p|]; [|done].
  destruct (services d !! i) as [s|]; [|done]. simpl. unfold begin_call.
  destruct (calls _ !! h); [by destruct (f_op f)|].
  destruct (f_op f); intros [= <-]; simpl; rewrite lookup_insert_eq; eexists _, _;
    (split; [done|]); simpl; rewrite lookup_insert_eq; (split; [done|]); try done.
  by case_match.
Qed.

(** A step that a thread of a service takes by itself. *)
Lemma internal_dinv i l d d' :
  dinv configs r d → internal l = true → orderly (DService i l) d = true →
  service_step i l d = Some d' → dinv configs r d'.
Proof using Hmesh.
  intros Hinv Hl Ho Hs. rewrite (service_step_frame _ _ _ _ Hs).
  eapply (service_step_dinv i l); try done.
  - intros x ->. done.
  - intros h f ->. done.
  - intros a ->. done.
  - intros h ->. exact Ho.
  - destruct l; simpl in *; try done; lia.
Qed.

Lemma raft_dinv l d d' :
  dinv configs r d → disciplined l (raft d) = true → raft_step l d = Some d' → dinv configs r d'.
Proof using Hmesh.
  intros Hinv Ho Hs. unfold raft_step in Hs.
  assert (∃ c, step l (raft d) = Next c ∧ (∀ i x, l ≠ LPropose i x) ∧
    d' = mkDeployment c (services d) (taken d) (clients d) (trace d)) as (c & Hc & Hl & ->).
  { destruct l; try done; destruct (step _ _); simplify_eq; by eexists. }
  eapply dinv_raft; try done. intros e g He Hg.
  destruct (reachable_inv configs r _ Hmesh (di_reach _ _ _ Hinv)) as [Hci _].
  destruct (step_known l _ _ e Hci Ho Hc He) as [|(j & x & t & -> & _)];
    [by eapply (di_known _ _ _ Hinv)|by destruct (Hl j x)].
Qed.

Lemma apply_dinv i d d' :
  dinv configs r d → orderly (DApply i) d = true → apply_next i d = Some d' → dinv configs r d'.
Proof using Hmesh.
  intros Hinv Ho Hs. simpl in Ho. unfold apply_next in Hs.
  destruct (next_result i d) as [a|] eqn:Ha; [|done].
  cbn [mbind option_bind] in Hs. destruct (service_step i (KApply a) d) as [d1|] eqn:Hd1; [|done].
  simplify_eq/=. apply N.eqb_eq in Ho.
  rewrite (service_step_frame _ _ _ _ Hd1). simpl.
  eapply (service_step_dinv i (KApply a)); try done.
  - intros a' [= <-]. done.
  - rewrite lookup_insert_eq. simpl. lia.
  - intros j Hj. by rewrite lookup_insert_ne.
Qed.

Lemma invoke_dinv k op key value d d' :
  dinv configs r d → orderly (DInvoke k op key value) d = true →
  invoke k op key value d = Some d' → dinv configs r d'.
Proof using Hmesh.
  intros Hinv Ho Hs. simpl in Ho. unfold invoke in Hs.
  destruct (clients d !! k) as [q|] eqn:Hk; [|done]. simpl in Hs.
  destruct (cstate q) eqn:Hq; simplify_eq. apply andb_true_iff in Ho as [Hsq He].
  apply N.ltb_lt in Hsq. apply bool_decide_eq_true in He.
  destruct (next_request_fields q op key value Hsq) as (Hc & Hf & Hw).
  destruct (di_clients _ _ _ Hinv k q Hk) as [Hid _].
  apply (dinv_client k q); try done; simpl; rewrite ?add64_small by done; try lia.
  - split; [done|]. simpl. split; [set_solver|]. by rewrite Hc, Hf.
  - intros f Hin%list_elem_of_singleton. injection Hin as ->.
    split_and!; [done|done|congruence|rewrite Hf; lia|rewrite Hf; lia|].
    intros g Hg%list_elem_of_singleton. by injection Hg.
  - intros [|j] f lease v Hj; simplify_eq/=.
Qed.

Lemma send_dinv k h d d' :
  dinv configs r d → send_request k h d = Some d' → dinv configs r d'.
Proof using Hmesh.
  intros Hinv Hs. unfold send_request in Hs.
  destruct (clients d !! k) as [q|] eqn:Hk; [|done]. simpl in Hs.
  destruct (cstate q) as [|req [|more]|] eqn:Hq; try done.
  destruct (service_step _ _ d) as [d1|] eqn:Hd1; [|done]. simplify_eq/=.
  destruct (di_clients _ _ _ Hinv k q Hk) as [Hid Hst]. rewrite Hq in Hst.
  pose proof (service_step_frame _ _ _ _ Hd1) as Ed1.
  assert (dinv configs r d1) as Hinv1.
  { rewrite Ed1. eapply (service_step_dinv (leader_idx_ (kvc q)) (KCall h req)); try done.
    intros h' f' [= _ <-]. apply Hst. }
  apply (dinv_client k q); try done; try (simpl; lia).
  - by rewrite Ed1.
  - split; [done|]. simpl. rewrite app_nil_r. split; [by rewrite Ed1|].
    by eapply service_step_call.
  - by intros f ?%not_elem_of_nil.
Qed.

Lemma receive_dinv k d d' :
  dinv configs r d → receive_reply k d = Some d' → dinv configs r d'.
Proof using Hmesh.
  intros Hinv Hs. unfold receive_reply in Hs.
  destruct (clients d !! k) as [q|] eqn:Hk; [|done]. simpl in Hs.
  destruct (cstate q) as [|req more|req more i h] eqn:Hq; try done.
  destruct (services d !! i) as [s|] eqn:Hi; [|done]. simpl in Hs.
  destruct (di_clients _ _ _ Hinv k q Hk) as [Hid Hst]. rewrite Hq in Hst.
  destruct Hst as [(Hr1 & Hr2 & Hr3) _].
  destruct (calls s !! h) as [[| | | | | | |f lease [st v]|]|] eqn:Hh; try done.
  destruct st; [|by eapply retry_dinv..]. injection Hs as <-.
  apply (dinv_client k q); try done; try (simpl; lia).
  - intros f0 Hin%list_elem_of_singleton. done.
  - intros [|j] f0 l0 v0 Hj; simplify_eq/=. by eapply returned_now.
Qed.

Lemma dstep_dinv l d d' :
  dinv configs r d → orderly l d = true → dstep l d = Some d' → dinv configs r d'.
Proof using Hmesh.
  intros Hinv Ho Hs. destruct l as [l|i|i l|k op key value|k h|k|k|k]; simpl in Hs.
  - by eapply raft_dinv.
  - by eapply apply_dinv.
  - simpl in Ho. destruct (internal l) eqn:Hl; [|done]. by eapply internal_dinv.
  - by eapply invoke_dinv.
  - by eapply send_dinv.
  - by eapply receive_dinv.
  - unfold fail_request in Hs. destruct (clients d !! k) as [q|] eqn:Hk; [|done]. simpl in Hs.
    destruct (di_clients _ _ _ Hinv k q Hk) as [Hid Hst].
    destruct (cstate q) as [|req [|more]|req more i h] eqn:Hq; try done;
      [destruct Hst as (? & ? & ?)|destruct Hst as [(? & ? & ?) _]]; by eapply retry_dinv.
  - unfold abandon in Hs. destruct (clients d !! k) as [q|] eqn:Hk; [|done]. simpl in Hs.
    destruct (cstate q) as [|req [|more]|] eqn:Hq; simplify_eq.
    destruct (di_clients _ _ _ Hinv k q Hk) as [Hid _].
    apply (dinv_client k q); try done; try (simpl; lia).
    + intros f0 Hin%list_elem_of_singleton. done.
    + intros [|j] f0 l0 v0 Hj; simplify_eq/=.
Qed.
Lemma deploy_dinv ids : dinv configs r (deploy configs r ids).
Proof using Hmesh.
  split; simpl; try (by intros; set_solver); try done.
  - apply reach_boot.
  - intros e g [(i & p & Hp & He)|(src & dst & k & q & Hm & _)]; [|by apply not_elem_of_nil in Hm].
    destruct Hmesh as [Hnd _]. apply boot_lookup in Hp as (cfg & _ & _ & ->); [|done].
    by apply not_elem_of_nil in He.
  - intros i s Hs. rewrite lookup_fmap in Hs. apply fmap_Some in Hs as (p & Hp & ->).
    exists p. split; [done|]. rewrite lookup_empty. split; [apply kv_inv_boot|simpl; lia|done|done].
  - intros i s h c Hs. rewrite lookup_fmap in Hs. apply fmap_Some in Hs as (p & Hp & ->).
    simpl. by rewrite lookup_empty.
  - intros k q Hk. apply elem_of_list_to_map_2, list_elem_of_fmap in Hk as (id & [= -> ->] & _). done.
Qed.

Lemma dreachable_dinv ids d : dreachable configs r ids d → dinv configs r d.
Proof using Hmesh.
  induction 1 as [|l d d' _ IH Ho Hs]; [apply deploy_dinv|by eapply dstep_dinv].
Qed.
End linearize.

(** ** Linearizability *)

(** A sequential history [S] of a plain map explains what the clients saw: it runs every
    operation at most once and only operations that were called; every operation that
    returned through the log is in it and returned its answer there; an operation that
    returned before another one was called comes first; and a read under the lease
    returned the value of its key after some beginning of [S]. *)
Record linearizes (tr : list op_event) (S : list command_fields) : Prop := {
  lz_once : NoDup S;
  lz_called : ∀ f, f ∈ S → Invoke f ∈ tr;
  lz_answer : ∀ f v, Return f false v ∈ tr →
    ∃ k, S !! k = Some f ∧ v = kv_answer (kv_run (take k S)) f;
  lz_order : ∀ i j f v g, tr !! i = Some (Return f false v) → tr !! j = Some (Invoke g) →
    (i < j)%nat → ∀ k m, S !! k = Some f → S !! m = Some g → (k < m)%nat;
  lz_lease : ∀ f v, Return f true v ∈ tr →
    ∃ k, v = default EmptyString (kv_run (take k S) !! f_key f) }.

Lemma effective_NoDup fs : NoDup (effective fs).
Proof.
  apply NoDup_alt. intros i j f Hi Hj.
  destruct (Nat.lt_total i j) as [Hlt|[->|Hgt]]; [|done|].
  - pose proof (effective_order fs i j f f Hi Hj Hlt eq_refl). lia.
  - pose proof (effective_order fs j i f f Hj Hi Hgt eq_refl). lia.
Qed.

Lemma effective_elem fs f : f ∈ effective fs → f ∈ fs.
Proof.
  induction fs as [|g fs IH] using rev_ind; [done|]. rewrite effective_snoc.
  intros [H|H]%elem_of_app; [set_solver|]. destruct (fresh fs g); set_solver.
Qed.

Lemma effective_prefix_of P Q : P `prefix_of` Q → effective P `prefix_of` effective Q.
Proof. intros [tl ->]. apply effective_prefix. Qed.

(** The node that has committed most. *)
Lemma most_committed (c : cluster) :
  procs c ≠ ∅ →
  ∃ j q, procs c !! j = Some q ∧
    ∀ i p, procs c !! i = Some p → commit_index_ (node p) ≤ commit_index_ (node q).
Proof.
  generalize (procs c). intros m. induction m as [|i p m Hi IH] using map_ind; [done|]. intros _.
  destruct (decide (m = ∅)) as [->|Hne].
  { exists i, p. rewrite lookup_insert_eq. split; [done|]. intros j q.
    rewrite lookup_insert. case_decide; [|by rewrite lookup_empty]. by intros [= <-]. }
  destruct (IH Hne) as (j & q & Hj & Hmax).
  destruct (N.le_gt_cases (commit_index_ (node p)) (commit_index_ (node q))) as [Hle|Hgt].
  - exists j, q. rewrite lookup_insert_ne by congruence. split; [done|]. intros i' p'.
    rewrite lookup_insert. case_decide; [by intros [= <-]|apply Hmax].
  - exists i, p. rewrite lookup_insert_eq. split; [done|]. intros i' p'.
    rewrite lookup_insert. case_decide; [by intros [= <-]|]. intros Hp'%Hmax. lia.
Qed.

Lemma reachable_nonempty configs r c :
  full_mesh configs → configs ≠ [] → reachable configs r c → procs c ≠ ∅.
Proof.
  intros Hmesh Hne Hr. destruct Hr as [|l c c' Hreach Hd Hs].
  - destruct configs; [done|]. apply insert_non_empty.
  - destruct (reachable_inv configs r c Hmesh Hreach) as [Hinv _].
    destruct (step_queue l c c' Hinv Hd Hs) as (p & p' & _ & -> & _). apply insert_non_empty.
Qed.

Section theorem.
Context (configs : list Config) (r : N) (Hmesh : full_mesh configs).
Context (d : deployment) (Hinv : dinv configs r d) (j : N) (q : proc).
Context (Hq : procs (raft d) !! j = Some q).
Context (Hmax : ∀ i p, procs (raft d) !! i = Some p → commit_index_ (node p) ≤ commit_index_ (node q)).

Let fs := committed_commands q.

Lemma committed_invoked f : f ∈ fs → Invoke f ∈ trace d.
Proof using Hinv Hq.
  intros Hf. destruct (settled_known (raft d) fs f) as (e & He & Hd).
  - exists j, q, (N.to_nat (commit_index_ (node q))). split_and!; [done|lia|done].
  - done.
  - by eapply (di_known _ _ _ Hinv).
Qed.

(** The place of an operation that has returned lies in what was settled then. *)
Lemma returned_place k f v :
  trace d !! k = Some (Return f false v) →
  ∃ P m, effective P `prefix_of` effective fs ∧ (∀ g, g ∈ P → Invoke g ∈ take k (trace d)) ∧
    effective P !! m = Some f ∧ v = kv_answer (kv_run (take m (effective P))) f.
Proof using Hmesh Hinv Hq Hmax.
  intros Hk. destruct (di_returned _ _ _ Hinv k f false v Hk) as (Hf & P & HP & Hin & Hle & Hans).
  destruct (Hans eq_refl) as (past & g & rest & -> & Hc & Hs & Hrep).
  assert (executed_once (past ++ g :: rest) f v) as (past' & rest' & E & Hv & [tl Htl] & _).
  { apply answer_executed; try done.
    - intros h Hh. apply Hle. set_solver.
    - intros h Hh Hhc Hhs. apply (di_unique _ _ _ Hinv); try done.
      + eapply elem_of_submseteq; [by apply Hin|apply sublist_submseteq, sublist_take].
      + eapply elem_of_submseteq; [exact Hf|apply sublist_submseteq, sublist_take]. }
  exists (past ++ g :: rest), (length (effective past')). split_and!.
  - apply effective_prefix_of. by eapply settled_prefix; [|apply Hinv|..].
  - done.
  - rewrite Htl, <- app_assoc. by apply list_lookup_middle.
  - by rewrite Htl, <- app_assoc, take_app_length.
Qed.

Lemma committed_linearizes : linearizes (trace d) (effective fs).
Proof using Hmesh Hinv Hq Hmax.
  split.
  - apply effective_NoDup.
  - intros f Hf%effective_elem. by apply committed_invoked.
  - intros f v (k & Hk)%list_elem_of_lookup.
    destruct (returned_place k f v Hk) as (P & m & Hpre & _ & Hm & Hv). exists m.
    split; [by eapply prefix_lookup_Some|]. rewrite Hv. do 2 f_equal.
    destruct Hpre as [tl ->]. rewrite take_app_le; [done|]. apply lookup_lt_Some in Hm. lia.
  - intros i i' f v g Hi Hi' Hlt k m Hk Hm.
    destruct (returned_place i f v Hi) as (P & a & Hpre & Hin & Ha & _).
    assert (k = a) as -> by (by eapply NoDup_lookup; [apply effective_NoDup|exact Hk|
      eapply prefix_lookup_Some]).
    destruct (Nat.lt_ge_cases a m) as [|Hma]; [done|]. exfalso.
    assert (g ∈ effective P) as Hg.
    { destruct Hpre as [tl Htl]. rewrite Htl, lookup_app_l in Hm by (apply lookup_lt_Some in Ha; lia).
      by eapply list_elem_of_lookup_2. }
    apply effective_elem, Hin, list_elem_of_lookup in Hg as (i0 & Hi0).
    apply lookup_take_Some in Hi0 as [Hi0 Hlt0].
    pose proof (di_once _ _ _ Hinv i0 i' g Hi0 Hi'). lia.
  - intros f v (k & Hk)%list_elem_of_lookup.
    destruct (di_returned _ _ _ Hinv k f true v Hk) as (_ & P & HP & _ & past & rest & -> & [= ->]).
    assert (past ++ rest `prefix_of` fs) as Hpre by (by eapply settled_prefix; [|apply Hinv|..]).
    destruct (effective_prefix_of past fs) as [tl Htl].
    { etrans; [by apply prefix_app_r|exact Hpre]. }
    exists (length (effective past)). by rewrite Htl, take_app_length.
Qed.
End theorem.

Lemma deployment_linearizes configs r ids d :
  full_mesh configs → configs ≠ [] → dreachable configs r ids d →
  ∃ j q, procs (raft d) !! j = Some q ∧ linearizes (trace d) (effective (committed_commands q)).
Proof.
  intros Hmesh Hne Hd. pose proof (dreachable_dinv configs r Hmesh ids d Hd) as Hinv.
  destruct (most_committed (raft d)) as (j & q & Hq & Hmax).
  - apply (reachable_nonempty configs r); [done|done|apply Hinv].
  - exists j, q. split; [done|]. by eapply committed_linearizes.
Qed.

(** C13: linearizability: on every orderly schedule of the nodes, the services and the
    clients, lost requests, retries and elections included, the operations that the clients
    ran through the log are explained by one sequential history of a plain map, which is the
    commands that take effect in the log of some node; it respects the real-time order of
    calls and returns. *)
Theorem store_linearizable configs r ids d :
  full_mesh configs → configs ≠ [] → dreachable configs r ids d →
  ∃ j q, procs (raft d) !! j = Some q ∧ linearizes (trace d) (effective (committed_commands q)).
Proof.
  apply deployment_linearizes.
Qed.

(** ** A client puts a value through the log and reads it under the lease *)

Definition put_then_get : list dlabel :=
  (DRaft <$> elect0) ++
  [DInvoke 1 PUT "x" "a"; DSend 1 0; DService 0 (KPropose 0); DService 0 (KRegister 0)] ++
  (DRaft <$> (beat 0 1 3 2 (mkAppendEntriesRequest 1 0 0 0 [mkEntry 1 put_data] 0) 0 ++
              [LApply 0; LApply 0])) ++
  [DApply 0; DService 0 KExec; DService 0 KFinish; DService 0 KSet; DService 0 (KGet 0); DReply 1;
   DInvoke 1 GET "x" ""; DSend 1 1; DService 0 (KExpires 1 0); DService 0 (KIndex 1);
   DService 0 (KRead 1); DReply 1].

Lemma store_linearizable_witness :
  ∃ d, drun put_then_get (deploy local3 0 [1]) = Some d ∧
    trace d = [Invoke put_x; Return put_x false ""; Invoke (mkFields GET 1 2 "x" "");
               Return (mkFields GET 1 2 "x" "") true "a"] ∧
    ∃ j q, procs (raft d) !! j = Some q ∧ linearizes (trace d) (effective (committed_commands q)).
Proof.
  eexists. split; [vm_compute; reflexivity|]. split; [reflexivity|].
  eapply (store_linearizable local3 0 [1] _ local3_mesh); [discriminate|].
  apply (drun_reachable local3 0 [1] put_then_get (deploy local3 0 [1])); [apply dreach_boot|].
  vm_compute. reflexivity.
Defined.
