(* ===== verification/LeaseReads.v ===== *)
(** Reads under the lease, while one node answers.

    [Races.v] has a schedule in which a deposed leader still serves reads under its lease.
    Here is what the lease needs for more: as long as every success has come from one node,
    all operations of the deployment ([Deployment.v]), the reads that bypass the log
    included, appear to take effect one at a time between their calls and their returns.

    The order is that of the commands that the service of that node has executed, with
    every read at the place where it looked at the store ([placed], [weave]). *)
From stdpp Require Import sorting.
From S2P Require Import Prelude Types ConfigGen RaftState RaftNode RaftNodeFacts Cluster RaftSpec.
From S2P Require Import Refinement RefinementSteps Simulation LogSpec LogInv LogSafety.
From S2P Require Import Races Safety Replication KvCodec KvServer KvService KvClient EndToEnd.
From S2P Require Import Session Deployment Linearize.

#[local] Open Scope N_scope.

(** ** The specification *)

(** [S] explains all operations, however they were answered. *)
Record linearizes_all (tr : list op_event) (S : list command_fields) : Prop := {
  la_once : NoDup S;
  la_called : ∀ f, f ∈ S → Invoke f ∈ tr;
  la_answer : ∀ f lease v, Return f lease v ∈ tr →
    ∃ k, S !! k = Some f ∧ v = kv_answer (kv_run (take k S)) f;
  la_order : ∀ i j f lease v g, tr !! i = Some (Return f lease v) → tr !! j = Some (Invoke g) →
    (i < j)%nat → ∀ k m, S !! k = Some f → S !! m = Some g → (k < m)%nat }.

(** Every call that has succeeded was made of the service on node [i]. *)
Definition answers_only (i : N) (d : deployment) : Prop :=
  ∀ j s h f lease v, services d !! j = Some s →
    calls s !! h = Some (CDone f lease (KV_SUCCESS, v)) → j = i.

(** ** Steps of a service *)

Section steps.
Implicit Types (s : system Raft) (l : klabel Raft).

(** The value of the key of [f] after the commands [fs]. *)
Definition value_after (fs : list command_fields) (f : command_fields) : string :=
  default EmptyString (kv_run (effective fs) !! f_key f).

Lemma kv_inv_store s : kv_inv s → store_ (server s) = kv_run (effective (heard s)).
Proof.
  intros Hinv. pose proof (ki_apply _ Hinv) as Ha. destruct (apc s); simpl in Ha.
  - apply Ha.
  - apply Ha.
  - by destruct Ha as (past & _ & ? & _).
  - apply Ha.
Qed.

Lemma kstep_done l s s' h f lease a :
  kstep l s = KNext s' → calls s !! h = Some (CDone f lease a) → calls s' !! h = Some (CDone f lease a).
Proof.
  intros Hs Hh. destruct l; simpl in Hs; unfold begin_call, leader_read, propose_call in Hs;
    repeat match goal with
    | H : context [match ?x with _ => _ end] |- _ => destruct x eqn:?; simplify_eq/=
    end; simplify_eq/=; try done; rewrite lookup_insert_ne; congruence.
Qed.

(** A call that reads under the lease has seen the commands executed so far. *)
Lemma kstep_reads l s s' h c :
  kv_inv s → kstep l s = KNext s' → calls s' !! h = Some c →
  calls s !! h = Some c ∨
  match c with
  | CExpires f => f_op f = GET
  | CIndex f => calls s !! h = Some (CExpires f)
  | CRead f => calls s !! h = Some (CIndex f)
  | CDone f true a => calls s !! h = Some (CRead f) ∧ a = (KV_SUCCESS, value_after (heard s) f)
  | _ => True
  end.
Proof.
  intros Hinv Hs Hc. unfold value_after. rewrite <- (kv_inv_store s Hinv).
  destruct l; simpl in Hs; unfold begin_call, leader_read, propose_call in Hs;
    repeat match goal with
    | H : context [match ?x with _ => _ end] |- _ => destruct x eqn:?; simplify_eq/=
    end; simplify_eq/=; try (by left);
    (rewrite lookup_insert in Hc; case_decide; [|by left]; simplify_eq; right; try done);
    by case_match.
Qed.

Lemma kstep_heard l s s' : kstep l s = KNext s' → heard s `prefix_of` heard s'.
Proof.
  intros Hs. destruct l; simpl in Hs; unfold begin_call, leader_read, propose_call in Hs;
    repeat match goal with
    | H : context [match ?x with _ => _ end] |- _ => destruct x eqn:?; simplify_eq/=
    end; simplify_eq/=; try done; by apply prefix_app_r.
Qed.
End steps.

(** ** An operation returns once *)

(** The operation that a client is busy with. *)
Definition busy (q : client) : option command_fields :=
  match cstate q with QIdle => None | QAsk f _ | QAwait f _ _ _ => Some f end.

Record returns_once (d : deployment) : Prop := {
  ro_busy : ∀ k q f lease v, clients d !! k = Some q → busy q = Some f → Return f lease v ∉ trace d;
  ro_once : ∀ k k' f lease v lease' v', trace d !! k = Some (Return f lease v) →
    trace d !! k' = Some (Return f lease' v') → k = k' }.

Section order.
Context (configs : list Config) (r : N).

Lemma busy_own d k q f :
  dinv configs r d → clients d !! k = Some q → busy q = Some f → Invoke f ∈ trace d ∧ f_client f = k.
Proof using.
  intros Hinv Hk Hb. destruct (di_clients _ _ _ Hinv k q Hk) as [_ Hc]. unfold busy in Hb.
  destruct (cstate q); simplify_eq; naive_solver.
Qed.

Lemma returned_after d m j g lease v :
  dinv configs r d → trace d !! m = Some (Return g lease v) → trace d !! j = Some (Invoke g) → (j < m)%nat.
Proof using.
  intros Hinv Hm Hj. destruct (di_returned _ _ _ Hinv m g lease v Hm) as [Hin _].
  apply list_elem_of_lookup in Hin as (j0 & Hj0). apply lookup_take_Some in Hj0 as [Hj0 Hlt].
  pose proof (di_once _ _ _ Hinv j0 j g Hj0 Hj). lia.
Qed.

(** A step of client [k] that returns nothing: it goes on with its operation, or begins a
    new one. *)
Lemma returns_once_client d k q q' evs :
  dinv configs r d → returns_once d → clients d !! k = Some q →
  (∀ f lease v, Return f lease v ∉ evs) →
  (busy q' = None ∨ busy q' = busy q ∨ ∃ f, busy q' = Some f ∧ Invoke f ∉ trace d) →
  returns_once (put_client k q' evs d).
Proof using.
  intros Hinv [Hb Ho] Hk Hev Hq'.
  assert (∀ f lease v, Return f lease v ∈ trace d → Invoke f ∈ trace d) as Hri.
  { intros f lease v (m & Hm)%list_elem_of_lookup.
    destruct (di_returned _ _ _ Hinv m f lease v Hm) as [Hin _].
    eapply elem_of_submseteq; [exact Hin|apply sublist_submseteq, sublist_take]. }
  assert (∀ m f lease v, (trace d ++ evs) !! m = Some (Return f lease v) →
    trace d !! m = Some (Return f lease v)) as Hold.
  { intros m f lease v [?|[_ Hm]]%lookup_app_Some; [done|].
    apply list_elem_of_lookup_2 in Hm. by destruct (Hev f lease v). }
  split; simpl.
  - intros j q0 f lease v Hj Hf (m & Hm)%list_elem_of_lookup.
    apply Hold, list_elem_of_lookup_2 in Hm. rewrite lookup_insert in Hj. case_decide; [|by eapply Hb].
    simplify_eq. destruct Hq' as [Hn|[Hs|(g & Hg & Hnew)]]; [congruence|rewrite Hs in Hf; by eapply Hb|].
    rewrite Hf in Hg. simplify_eq. by apply Hnew, (Hri _ lease v).
  - intros m m' f lease v lease' v' Hm%Hold Hm'%Hold. by eapply Ho.
Qed.

(** The client gets its answer. *)
Lemma returns_once_reply d k q req c lease v :
  dinv configs r d → returns_once d → clients d !! k = Some q → busy q = Some req →
  returns_once (put_client k (mkClient c QIdle) [Return req lease v] d).
Proof using.
  intros Hinv [Hb Ho] Hk Hq. destruct (busy_own d k q req Hinv Hk Hq) as [_ Hc]. split; simpl.
  - intros j q0 f l0 v0 Hj Hf. rewrite lookup_insert in Hj. case_decide; [by simplify_eq|].
    intros [Hin|Hin%list_elem_of_singleton]%elem_of_app; [by eapply Hb|]. simplify_eq.
    by destruct (busy_own d j q0 req Hinv Hj Hf).
  - intros m m' f l0 v0 l1 v1 Hm Hm'.
    apply lookup_app_Some in Hm as [Hm|[Hge Hm]], Hm' as [Hm'|[Hge' Hm']].
    + by eapply Ho.
    + apply list_elem_of_lookup_2, list_elem_of_singleton in Hm'. simplify_eq.
      apply list_elem_of_lookup_2 in Hm. by destruct (Hb (f_client req) q req l0 v0).
    + apply list_elem_of_lookup_2, list_elem_of_singleton in Hm. simplify_eq.
      apply list_elem_of_lookup_2 in Hm'. by destruct (Hb (f_client req) q req l1 v1).
    + apply lookup_lt_Some in Hm, Hm'. simpl in *. lia.
Qed.

Lemma retry_once d k q req more d' :
  dinv configs r d → returns_once d → clients d !! k = Some q → busy q = Some req →
  retry k q req more d = Some d' → returns_once d'.
Proof using.
  intros Hinv Hro Hk Hq Hr. unfold retry in Hr. destruct (rotate_leader (kvc q)) as [c|]; simplify_eq/=.
  apply (returns_once_client d k q); try done; [set_solver|]. right. by left.
Qed.

(** [returns_once] depends on clients and trace only. *)
Lemma returns_once_frame d c ss ts : returns_once d →
  returns_once (mkDeployment c ss ts (clients d) (trace d)).
Proof using. by intros []. Qed.

Lemma service_once i l d d' : service_step i l d = Some d' → returns_once d → returns_once d'.
Proof using. intros Hs Hro. rewrite (service_step_frame _ _ _ _ Hs). by apply returns_once_frame. Qed.

Lemma dstep_once l d d' :
  dinv configs r d → dinv configs r d' → dstep l d = Some d' → returns_once d → returns_once d'.
Proof using.
  intros Hinv Hinv' Hs Hro. destruct l as [l|i|i l|k op key value|k h|k|k|k]; simpl in Hs.
  - unfold raft_step in Hs. destruct l; try done; destruct (step _ _); simplify_eq;
      by apply returns_once_frame.
  - unfold apply_next in Hs. destruct (next_result i d) as [a|]; [|done]. cbn [mbind option_bind] in Hs.
    destruct (service_step i (KApply a) d) as [d1|] eqn:Hd1; [|done]. simplify_eq/=.
    apply (returns_once_frame d1). by eapply service_once.
  - destruct (internal l); [|done]. by eapply service_once.
  - unfold invoke in Hs. destruct (clients d !! k) as [q|] eqn:Hk; [|done]. simpl in Hs.
    destruct (cstate q) eqn:Hq; simplify_eq.
    apply (returns_once_client d k q); try done; [set_solver|]. right. right. eexists. split; [done|].
    intros (j & Hj)%list_elem_of_lookup.
    assert (j = length (trace d)) as ->.
    { eapply (di_once _ _ _ Hinv'); simpl.
      - by apply lookup_app_l_Some.
      - by apply list_lookup_middle. }
    apply lookup_lt_Some in Hj. lia.
  - unfold send_request in Hs. destruct (clients d !! k) as [q|] eqn:Hk; [|done]. simpl in Hs.
    destruct (cstate q) as [|req [|more]|] eqn:Hq; try done.
    destruct (service_step _ _ d) as [d1|] eqn:Hd1; [|done]. simplify_eq/=.
    rewrite (service_step_frame _ _ _ _ Hd1). unfold put_client. simpl.
    apply (returns_once_frame (put_client k (mkClient (kvc q) (QAwait req more (leader_idx_ (kvc q)) h)) [] d)).
    apply (returns_once_client d k q); try done; [set_solver|].
    right. left. unfold busy. by rewrite Hq.
  - unfold receive_reply in Hs. destruct (clients d !! k) as [q|] eqn:Hk; [|done]. simpl in Hs.
    destruct (cstate q) as [|req more|req more i h] eqn:Hq; try done.
    assert (busy q = Some req) as Hb by (unfold busy; by rewrite Hq).
    destruct (services d !! i) as [s|]; [|done]. simpl in Hs.
    destruct (calls s !! h) as [[| | | | | | |f lease [st v]|]|]; try done.
    destruct st; [|by eapply (retry_once d k q req)..]. simplify_eq. by eapply returns_once_reply.
  - unfold fail_request in Hs. destruct (clients d !! k) as [q|] eqn:Hk; [|done]. simpl in Hs.
    destruct (cstate q) as [|req [|more]|req more i h] eqn:Hq; try done;
      (assert (busy q = Some req) by (unfold busy; by rewrite Hq)); by eapply (retry_once d k q req).
  - unfold abandon in Hs. destruct (clients d !! k) as [q|] eqn:Hk; [|done]. simpl in Hs.
    destruct (cstate q) as [|req [|more]|] eqn:Hq; simplify_eq.
    apply (returns_once_client d k q); try done; [set_solver|by left].
Qed.
End order.

(** ** The place of every answer *)

(** What a read of a call has seen of the commands [hd]: at least the first [n]. *)
Definition read_from (hd : list command_fields) (n : nat) (c : call) : Prop :=
  match c with
  | CExpires f | CIndex f | CRead f => f_op f = GET
  | CDone f true (_, v) =>
      f_op f = GET ∧ ∃ n', (n ≤ n' ≤ length hd)%nat ∧ v = value_after (take n' hd) f
  | _ => True
  end.

(** [ν k] is how many of the commands [hd] that the service has executed lie before the
    answer that returned as event [k]. *)
Record placed (hd : list command_fields) (cs : gmap N call) (tr : list op_event)
    (ν : nat → nat) : Prop := {
  pl_len : ∀ k f lease v, tr !! k = Some (Return f lease v) → (ν k ≤ length hd)%nat;
  pl_log : ∀ k f v, tr !! k = Some (Return f false v) → executed_once (take (ν k) hd) f v;
  pl_read : ∀ k f v, tr !! k = Some (Return f true v) →
    f_op f = GET ∧ v = value_after (take (ν k) hd) f;
  pl_called : ∀ k f lease v g, tr !! k = Some (Return f lease v) → g ∈ take (ν k) hd →
    Invoke g ∈ take k tr;
  pl_order : ∀ k f lease v j g m v', tr !! k = Some (Return f lease v) → tr !! j = Some (Invoke g) →
    tr !! m = Some (Return g true v') → (k < j)%nat → (ν k ≤ ν m)%nat;
  pl_calls : ∀ h c, cs !! h = Some c → ∃ n, (n ≤ length hd)%nat ∧
    (∀ k f lease v j, tr !! k = Some (Return f lease v) → tr !! j = Some (Invoke (call_cmd c)) →
       (k < j)%nat → (ν k ≤ n)%nat) ∧
    read_from hd n c }.

Lemma take_prefix_le {A} n (l l' : list A) : l `prefix_of` l' → (n ≤ length l)%nat → take n l' = take n l.
Proof. intros [k ->] ?. by rewrite take_app_le. Qed.

Lemma read_from_more hd hd' n c : hd `prefix_of` hd' → read_from hd n c → read_from hd' n c.
Proof.
  intros Hp. destruct c as [| | | | | | |f [] [st v]|]; simpl; try done.
  intros (Ho & n' & Hn & ->). split; [done|]. exists n'. pose proof (prefix_length _ _ Hp).
  rewrite (take_prefix_le n' _ _ Hp) by lia. split; [lia|done].
Qed.

(** A step of the service. *)
Lemma placed_step l (s s' : system Raft) tr ν :
  kv_inv s → kstep l s = KNext s' →
  placed (heard s) (calls s) tr ν → placed (heard s') (calls s') tr ν.
Proof.
  intros Hinv Hs [Hlen Hlog Hread Hcalled Hord Hcalls].
  pose proof (kstep_heard _ _ _ Hs) as Hp. pose proof (prefix_length _ _ Hp) as Hle.
  assert (∀ k f lease v, tr !! k = Some (Return f lease v) →
    take (ν k) (heard s') = take (ν k) (heard s)) as Ht.
  { intros k f lease v Hk. apply take_prefix_le; [done|]. by eapply Hlen. }
  split; eauto.
  - intros k f lease v Hk. specialize (Hlen _ _ _ _ Hk). lia.
  - intros k f v Hk. rewrite (Ht _ _ _ _ Hk). eauto.
  - intros k f v Hk. rewrite (Ht _ _ _ _ Hk). eauto.
  - intros k f lease v g Hk. rewrite (Ht _ _ _ _ Hk). eauto.
  - intros h c Hc. destruct (kstep_calls _ _ _ Hs) as [Hnew _].
    destruct (kstep_reads _ _ _ _ _ Hinv Hs Hc) as [Hold|Hr].
    { destruct (Hcalls h c Hold) as (n & Hn & Hb & Hrf). exists n.
      split_and!; [lia|done|]. by eapply read_from_more. }
    destruct (Hnew h c Hc) as [(c0 & Hc0 & Ec)| ->].
    + destruct (Hcalls h c0 Hc0) as (n & Hn & Hb & Hrf). exists n. rewrite Ec. split_and!; [lia|done|].
      destruct c as [| | | | | | |f [] [st v]|]; try done; [by simplify_eq|by simplify_eq|].
      destruct Hr as [Hr [= -> ->]]. simplify_eq. split; [done|]. exists (length (heard s)). split; [lia|]. by rewrite (take_prefix_le _ _ _ Hp), firstn_all.
    + exists (length (heard s)). split_and!; [lia|by intros; eapply Hlen|].
      simpl in Hs. unfold begin_call in Hs.
      destruct c as [| | | | | | |f [] [st v]|]; try done; [| |destruct Hr as [Hr _]]; by rewrite Hr in Hs.
Qed.

(** ** The invariant *)

Definition heard_at (i : N) (d : deployment) : list command_fields :=
  from_option heard [] (services d !! i).
Definition calls_at (i : N) (d : deployment) : gmap N call :=
  from_option calls ∅ (services d !! i).

Section invariant.
Context (configs : list Config) (r : N) (Hmesh : full_mesh configs) (i : N).

(** An event that returns nothing. *)
Lemma placed_event d k q' evs ν :
  dinv configs r d → dinv configs r (put_client k q' evs d) →
  (∀ f lease v, Return f lease v ∉ evs) →
  placed (heard_at i d) (calls_at i d) (trace d) ν →
  placed (heard_at i d) (calls_at i d) (trace d ++ evs) ν.
Proof using.
  intros Hinv Hinv' Hev [Hlen Hlog Hread Hcalled Hord Hcalls].
  assert (∀ m f lease v, (trace d ++ evs) !! m = Some (Return f lease v) →
    trace d !! m = Some (Return f lease v)) as Hold.
  { intros m f lease v [?|[_ Hm]]%lookup_app_Some; [done|].
    apply list_elem_of_lookup_2 in Hm. by destruct (Hev f lease v). }
  split.
  - intros m f lease v Hm%Hold. by eapply Hlen.
  - intros m f v Hm%Hold. by apply Hlog.
  - intros m f v Hm%Hold. by apply Hread.
  - intros m f lease v g Hm%Hold Hg. rewrite take_app_le by (apply lookup_lt_Some in Hm; lia).
    by eapply Hcalled.
  - intros m f lease v j g n v' Hm%Hold Hj Hn Hlt.
    pose proof (returned_after configs r _ n j g true v' Hinv' Hn Hj). apply Hold in Hn.
    rewrite lookup_app_l in Hj by (apply lookup_lt_Some in Hn; lia). by eapply Hord.
  - intros h c Hc. destruct (Hcalls h c Hc) as (n & Hn & Hb & Hr). exists n. split_and!; try done.
    intros m f lease v j Hm%Hold Hj Hlt. apply (Hb m f lease v j); try done.
    assert (Invoke (call_cmd c) ∈ trace d) as Hin.
    { unfold calls_at in Hc. destruct (services d !! i) as [s|] eqn:Hs; [|done].
      by eapply (di_calls _ _ _ Hinv). }
    apply list_elem_of_lookup in Hin as (j0 & Hj0).
    replace j with j0; [done|]. eapply (di_once _ _ _ Hinv'); [|exact Hj].
    simpl. by apply lookup_app_l_Some.
Qed.

(** What a service has executed was called. *)
Lemma heard_invoked d s :
  dinv configs r d → services d !! i = Some s → ∀ g, g ∈ heard s → Invoke g ∈ trace d.
Proof using Hmesh.
  intros Hinv Hs g Hg. destruct (di_services _ _ _ Hinv i s Hs) as (p & Hp & Hok).
  pose proof (service_settled configs r Hmesh _ _ _ _ _ (di_reach _ _ _ Hinv) Hp Hok) as Hset.
  destruct (settled_known _ _ g Hset) as (e & He & Hd).
  - unfold taken_up. set_solver.
  - by eapply (di_known _ _ _ Hinv).
Qed.

(** What a client that gets its answer knows of the place of the answer. *)
Lemma answer_place d k q req more h s f lease v ν :
  dinv configs r d → clients d !! k = Some q → cstate q = QAwait req more i h →
  services d !! i = Some s → calls s !! h = Some (CDone f lease (KV_SUCCESS, v)) →
  placed (heard s) (calls s) (trace d) ν →
  ∃ n, (n ≤ length (heard s))%nat ∧
    (∀ m g l0 v0 j, trace d !! m = Some (Return g l0 v0) → trace d !! j = Some (Invoke req) →
       (m < j)%nat → lease = true → (ν m ≤ n)%nat) ∧
    if lease then f_op req = GET ∧ v = value_after (take n (heard s)) req
    else executed_once (take n (heard s)) req v.
Proof using Hmesh.
  intros Hinv Hk Hq Hs Hh Hpl.
  destruct (di_clients _ _ _ Hinv k q Hk) as [_ Hst]. rewrite Hq in Hst.
  destruct Hst as [(Hreq & Hc & Hsq) (s0 & c0 & Hs0 & Hc0 & Ef)]. simplify_eq. simpl in *. 
  destruct (pl_calls _ _ _ _ Hpl h _ Hh) as (n & Hn & Hb & Hr). simpl in Hr. destruct lease.
  { destruct Hr as (Ho & n' & Hn' & ->). exists n'. split_and!; [lia| |done|done].
    intros m g l0 v0 j Hm Hj Hlt _. specialize (Hb m g l0 v0 j Hm Hj Hlt). lia. }
  exists (length (heard s)). split_and!; [lia|done|]. rewrite firstn_all.
  pose proof (heard_invoked d s Hinv Hs) as Hin.
  destruct (di_services _ _ _ Hinv i s Hs) as (p & Hp & Hok).
  destruct (ki_calls _ (so_inv _ _ _ Hok) h _ Hh eq_refl) as (past & g & rest & Hhd & Hgc & Hgs & Hrep).
  rewrite Hhd in Hin |- *. apply answer_executed; try done.
  - intros g0 Hg0 Hc0'. destruct (di_invoked _ _ _ Hinv g0) as (_ & q0 & Hq0 & ?); [apply Hin; set_solver|].
    rewrite Hc0', Hk in Hq0. simplify_eq. lia.
  - intros g0 Hg0 Hc1 Hs1. apply (di_unique _ _ _ Hinv); auto.
Qed.

Lemma placed_return d k q req more h s f lease v ν :
  dinv configs r d → clients d !! k = Some q → cstate q = QAwait req more i h →
  services d !! i = Some s → calls s !! h = Some (CDone f lease (KV_SUCCESS, v)) →
  placed (heard s) (calls s) (trace d) ν →
  ∃ ν', placed (heard s) (calls s) (trace d ++ [Return req lease v]) ν'.
Proof using Hmesh.
  intros Hinv Hk Hq Hs Hh Hpl.
  destruct (answer_place d k q req more h s f lease v ν Hinv Hk Hq Hs Hh Hpl) as (n & Hn & Hb & Hans).
  destruct Hpl as [Hlen Hlog Hread Hcalled Hord Hcalls].
  set (k0 := length (trace d)).
  exists (λ m, if decide (m = k0) then n else ν m).
  assert (∀ m g l0 v0, (trace d ++ [Return req lease v]) !! m = Some (Return g l0 v0) →
    m ≠ k0 ∧ trace d !! m = Some (Return g l0 v0) ∨ m = k0 ∧ g = req ∧ l0 = lease ∧ v0 = v) as Hold.
  { intros m g l0 v0 [Hm|[Hge Hm]]%lookup_app_Some.
    - left. split; [|done]. apply lookup_lt_Some in Hm. unfold k0. lia.
    - right. pose proof (lookup_lt_Some _ _ _ Hm). simpl in *.
      apply list_elem_of_lookup_2, list_elem_of_singleton in Hm. simplify_eq. unfold k0. split_and!; [lia|done..]. }
  assert (∀ j g, (trace d ++ [Return req lease v]) !! j = Some (Invoke g) →
    trace d !! j = Some (Invoke g)) as Hinvk.
  { intros j g [?|[_ Hj]]%lookup_app_Some; [done|].
    by apply list_elem_of_lookup_2, list_elem_of_singleton in Hj. }
  assert (∀ j g, trace d !! j = Some (Invoke g) → (j < k0)%nat) as Hltk by (intros j g; apply lookup_lt_Some).
  split.
  - intros m g l0 v0 [[Hne Hm]|(-> & -> & -> & ->)]%Hold; case_decide; try done. by eapply Hlen.
  - intros m g v0 [[Hne Hm]|(-> & -> & <- & ->)]%Hold; case_decide; try done. by eapply Hlog.
  - intros m g v0 [[Hne Hm]|(-> & -> & <- & ->)]%Hold; case_decide; try done. by eapply Hread.
  - intros m g l0 v0 g' [[Hne Hm]|(-> & -> & -> & ->)]%Hold; case_decide; try done; intros Hg'.
    + rewrite take_app_le by (apply lookup_lt_Some in Hm; lia). by eapply Hcalled.
    + unfold k0. rewrite take_app_length. eapply heard_invoked; [done..|].
      eapply elem_of_submseteq; [exact Hg'|apply sublist_submseteq, sublist_take].
  - intros m g l0 v0 j g' m' v' [[Hne Hm]|(-> & _)]%Hold Hj%Hinvk Hm'%Hold Hlt;
      [|specialize (Hltk _ _ Hj); lia].
    rewrite decide_False by done. destruct Hm' as [[Hne' Hm']|(-> & -> & <- & ->)].
    + rewrite decide_False by done. by eapply Hord.
    + rewrite decide_True by done. by eapply Hb.
  - intros h0 c Hc. destruct (Hcalls h0 c Hc) as (n0 & Hn0 & Hb0 & Hr). exists n0. split_and!; try done.
    intros m g l0 v0 j [[Hne Hm]|(-> & _)]%Hold Hj%Hinvk Hlt; [|specialize (Hltk _ _ Hj); lia].
    rewrite decide_False by done. by eapply Hb0.
Qed.

Lemma service_placed j l d d' ν :
  dinv configs r d → service_step j l d = Some d' →
  placed (heard_at i d) (calls_at i d) (trace d) ν →
  placed (heard_at i d') (calls_at i d') (trace d') ν.
Proof using.
  intros Hinv Hs Hpl. unfold service_step in Hs.
  destruct (procs (raft d) !! j) as [p|] eqn:Hp; [|done].
  destruct (services d !! j) as [s|] eqn:Hj; [|done]. cbn [mbind option_bind] in Hs.
  destruct (kstep l (set_raft (node p) s)) as [s'| |] eqn:Hk; try done. simplify_eq.
  unfold heard_at, calls_at in *. simpl. rewrite lookup_insert. case_decide as E; [|done]. subst j.
  rewrite Hj in Hpl. simpl in *. destruct (di_services _ _ _ Hinv i s Hj) as (p0 & _ & Hok).
  eapply (placed_step l (set_raft (node p) s)); [|done|done].
  apply (kstep_inv (KRaft (node p)) s); [done|apply Hok].
Qed.

(** The successes of the calls stay. *)
Lemma answers_only_service j l d d' :
  service_step j l d = Some d' → answers_only i d' → answers_only i d.
Proof using.
  intros Hs Ha j0 s h f lease v Hj0 Hh. unfold service_step in Hs.
  destruct (procs (raft d) !! j) as [p|]; [|done].
  destruct (services d !! j) as [s0|] eqn:Hj; [|done]. cbn [mbind option_bind] in Hs.
  destruct (kstep l (set_raft (node p) s0)) as [s'| |] eqn:Hk; try done. simplify_eq.
  destruct (decide (j0 = j)) as [->|Hne].
  - simplify_eq. apply (Ha j s' h f lease v); simpl; [by rewrite lookup_insert_eq|].
    by eapply (kstep_done l (set_raft (node p) s0)).
  - apply (Ha j0 s h f lease v); simpl; [by rewrite lookup_insert_ne|done].
Qed.

(** A step of a client leaves the services alone, or calls one. *)
Lemma dstep_services l d d' :
  dstep l d = Some d' →
  services d' = services d ∨
  ∃ j kl d1, service_step j kl d = Some d1 ∧ services d' = services d1.
Proof using.
  intros Hs. destruct l as [l|j|j l|k op key value|k h|k|k|k]; simpl in Hs.
  - left. unfold raft_step in Hs. destruct l; try done; destruct (step _ _); by simplify_eq.
  - right. unfold apply_next in Hs. destruct (next_result j d) as [a|]; [|done]. cbn [mbind option_bind] in Hs.
    destruct (service_step j (KApply a) d) as [d1|] eqn:Hd1; [|done]. simplify_eq/=. eauto 10.
  - right. destruct (internal l); [|done]. eauto 10.
  - left. unfold invoke in Hs. destruct (clients d !! k) as [q|]; [|done]. simpl in Hs.
    destruct (cstate q); by simplify_eq.
  - right. unfold send_request in Hs. destruct (clients d !! k) as [q|]; [|done]. simpl in Hs.
    destruct (cstate q) as [|req [|more]|]; try done.
    destruct (service_step _ _ d) as [d1|] eqn:Hd1; [|done]. simplify_eq/=. eauto 10.
  - left. unfold receive_reply, retry, mbind, option_bind in Hs. repeat case_match; by simplify_eq/=.
  - left. unfold fail_request, retry, mbind, option_bind in Hs. repeat case_match; by simplify_eq/=.
  - left. unfold abandon, mbind, option_bind in Hs. repeat case_match; by simplify_eq/=.
Qed.

Lemma dstep_answers l d d' : dstep l d = Some d' → answers_only i d' → answers_only i d.
Proof using.
  intros [E|(j & kl & d1 & Hd1 & E)]%dstep_services Ha; unfold answers_only in Ha; rewrite E in Ha; [done|].
  by eapply answers_only_service.
Qed.

(** Every answer has its place. *)
Definition all_placed (d : deployment) : Prop :=
  ∃ ν, placed (heard_at i d) (calls_at i d) (trace d) ν.

Lemma all_placed_frame c ts cl d :
  all_placed d → all_placed (mkDeployment c (services d) ts cl (trace d)).
Proof using. done. Qed.

Lemma all_placed_quiet k q' d : all_placed d → all_placed (put_client k q' [] d).
Proof using. intros [ν Hpl]. exists ν. simpl. by rewrite app_nil_r. Qed.

Lemma all_placed_event k q' evs d :
  dinv configs r d → dinv configs r (put_client k q' evs d) → (∀ f lease v, Return f lease v ∉ evs) →
  all_placed d → all_placed (put_client k q' evs d).
Proof using. intros Hinv Hinv' Hev [ν Hpl]. exists ν. by apply (placed_event d k q'). Qed.

Lemma all_placed_service j l d d' :
  dinv configs r d → service_step j l d = Some d' → all_placed d → all_placed d'.
Proof using. intros Hinv Hs [ν Hpl]. exists ν. by eapply service_placed. Qed.

Lemma retry_placed k q req more d d' : retry k q req more d = Some d' → all_placed d → all_placed d'.
Proof using.
  unfold retry. destruct (rotate_leader (kvc q)); [|done]. intros [= <-]. apply all_placed_quiet.
Qed.

Lemma receive_placed k d d' :
  dinv configs r d → answers_only i d → receive_reply k d = Some d' → all_placed d → all_placed d'.
Proof using Hmesh.
  intros Hinv Ha Hs Hpl. unfold receive_reply in Hs.
  destruct (clients d !! k) as [q|] eqn:Hk; [|done]. simpl in Hs.
  destruct (cstate q) as [|req more|req more j h] eqn:Hq; try done.
  destruct (services d !! j) as [s|] eqn:Hj; [|done]. simpl in Hs.
  destruct (calls s !! h) as [[| | | | | | |f lease [st v]|]|] eqn:Hh; try done.
  destruct st; [|by eapply retry_placed..]. simplify_eq.
  assert (j = i) as -> by (by eapply Ha). destruct Hpl as [ν Hpl].
  unfold all_placed, heard_at, calls_at in *. simpl. rewrite Hj in Hpl |- *. simpl in *.
  by eapply placed_return.
Qed.

Lemma dstep_placed l d d' :
  dinv configs r d → dinv configs r d' → answers_only i d → dstep l d = Some d' →
  all_placed d → all_placed d'.
Proof using Hmesh.
  intros Hinv Hinv' Ha Hs Hpl. destruct l as [l|j|j l|k op key value|k h|k|k|k]; simpl in Hs.
  - unfold raft_step in Hs. destruct l; try done; destruct (step _ _); by simplify_eq.
  - unfold apply_next in Hs. destruct (next_result j d) as [a|]; [|done]. cbn [mbind option_bind] in Hs.
    destruct (service_step j (KApply a) d) as [d1|] eqn:Hd1; [|done]. simplify_eq/=.
    apply all_placed_frame. by eapply (all_placed_service j _ d).
  - destruct (internal l); [|done]. by eapply (all_placed_service j l d).
  - unfold invoke in Hs. destruct (clients d !! k) as [q|]; [|done]. simpl in Hs.
    destruct (cstate q); simplify_eq. apply all_placed_event; [done..|set_solver|done].
  - unfold send_request in Hs. destruct (clients d !! k) as [q|]; [|done]. simpl in Hs.
    destruct (cstate q) as [|req [|more]|]; try done.
    destruct (service_step _ _ d) as [d1|] eqn:Hd1; [|done]. simplify_eq/=.
    apply all_placed_quiet. by eapply (all_placed_service _ _ d).
  - by eapply (receive_placed k d).
  - unfold fail_request in Hs. destruct (clients d !! k) as [q|]; [|done]. simpl in Hs.
    destruct (cstate q) as [|req [|more]|req more j h]; try done; by eapply (retry_placed k q req).
  - unfold abandon in Hs. destruct (clients d !! k) as [q|]; [|done]. simpl in Hs.
    destruct (cstate q) as [|req [|more]|]; simplify_eq. apply all_placed_event; [done..|set_solver|done].
Qed.

Lemma deploy_placed ids : all_placed (deploy configs r ids).
Proof using.
  exists (λ _, 0%nat). unfold heard_at, calls_at. cbn [services trace deploy]. rewrite lookup_fmap.
  destruct (procs (boot configs r) !! i); split; simpl; try done; by intros h c ?%lookup_empty_Some.
Qed.

Lemma dreachable_placed ids d :
  dreachable configs r ids d → answers_only i d → returns_once d ∧ all_placed d.
Proof using Hmesh.
  induction 1 as [|l d d' Hd IH Ho Hs]; intros Ha.
  - split; [|apply deploy_placed]. split; simpl; [set_solver|done].
  - pose proof (dreachable_dinv configs r Hmesh ids d Hd) as Hinv.
    pose proof (dstep_dinv configs r Hmesh l d d' Hinv Ho Hs) as Hinv'.
    pose proof (dstep_answers l d d' Hs Ha) as Ha0. destruct (IH Ha0) as [Hro Hpl].
    split; [by apply (dstep_once configs r l d)|by apply (dstep_placed l d)].
Qed.
End invariant.

(** ** Weaving the reads into the commands *)

(** Places: how many commands lie before, and then the time of the return. *)
Definition sooner (x y : nat * nat * command_fields) : Prop :=
  (x.1.1 < y.1.1 ∨ x.1.1 = y.1.1 ∧ x.1.2 < y.1.2)%nat.

Section weave.
Context (K : nat) (reads : nat → list (nat * command_fields)) (keep : command_fields → bool).
Context (reads_sorted : ∀ n, StronglySorted (λ x y, (x.1 < y.1)%nat) (reads n)).
Context (reads_bound : ∀ n k f, (k, f) ∈ reads n → (k < K)%nat ∧ f_op f = GET).
Context (keep_not : ∀ f, keep f = false → f_op f = GET).

Definition reads_at (n : nat) : list (nat * nat * command_fields) :=
  (λ x, ((n, x.1), x.2)) <$> reads n.

(** The reads after the first [n] commands come before command [n]. *)
Fixpoint weave (n : nat) (es : list command_fields) : list (nat * nat * command_fields) :=
  reads_at n ++
  match es with
  | [] => []
  | e :: es => (if keep e then [((n, K), e)] else []) ++ weave (S n) es
  end.

Lemma reads_at_elem n x k f : ((x, k), f) ∈ reads_at n ↔ x = n ∧ (k, f) ∈ reads n.
Proof using.
  unfold reads_at. rewrite list_elem_of_fmap. split.
  - intros ([k' f'] & [= -> -> ->] & H). done.
  - intros [-> H]. by exists (k, f).
Qed.

Lemma weave_elem n es x k f :
  ((x, k), f) ∈ weave n es ↔
  (n ≤ x ≤ n + length es)%nat ∧
  ((k, f) ∈ reads x ∨ k = K ∧ es !! (x - n)%nat = Some f ∧ keep f = true).
Proof using.
  revert n. induction es as [|e es IH]; intros n; simpl.
  - rewrite app_nil_r, reads_at_elem. split; [intros [-> ?]; split; [lia|by left]|].
    intros [Hx [Hr|(_ & Hr & _)]]; [|done]. by replace x with n in * by lia.
  - rewrite !elem_of_app, reads_at_elem, IH. split.
    + intros [[-> Hr]|[Hr|[Hx Hr]]].
      * split; [lia|by left].
      * destruct (keep e) eqn:He; [|by apply not_elem_of_nil in Hr].
        apply list_elem_of_singleton in Hr. simplify_eq. split; [lia|right].
        by rewrite Nat.sub_diag.
      * split; [lia|]. replace (x - n)%nat with (S (x - S n)) by lia. done.
    + intros [Hx Hr]. destruct (decide (x = n)) as [->|Hne].
      * destruct Hr as [Hr|(-> & He & Hk)]; [by left|right; left].
        rewrite Nat.sub_diag in He. simplify_eq/=. rewrite Hk. by left.
      * right. right. split; [lia|]. by replace (x - n)%nat with (S (x - S n)) in Hr by lia.
Qed.

Lemma weave_sorted n es : StronglySorted sooner (weave n es).
Proof using reads_sorted reads_bound.
  assert (∀ n, StronglySorted sooner (reads_at n)) as Hr.
  { intros m. unfold reads_at. eapply StronglySorted_fmap, reads_sorted.
    intros x y H. right. by split. }
  revert n. induction es as [|e es IH]; intros n; simpl; [by rewrite app_nil_r|].
  apply StronglySorted_app. split_and!; [|apply Hr|].
  - intros [[x k] f] [[y k'] g] [-> Hf]%reads_at_elem. apply reads_bound in Hf as [Hf _].
    intros [Hg|Hg]%elem_of_app.
    + destruct (keep e); [|by apply not_elem_of_nil in Hg]. apply list_elem_of_singleton in Hg.
      simplify_eq. by right.
    + apply weave_elem in Hg as [Hy _]. left. simpl. lia.
  - apply StronglySorted_app. split_and!; [|by destruct (keep e); repeat constructor|done].
    intros x [[y k'] g] Hx Hg. destruct (keep e); [|by apply not_elem_of_nil in Hx].
    apply list_elem_of_singleton in Hx. subst x. apply weave_elem in Hg as [Hy _]. left. simpl. lia.
Qed.

Lemma gets_run st fs : Forall (λ f, f_op f = GET) fs → foldl kv_exec st fs = st.
Proof using.
  induction 1 as [|f fs Hf _ IH]; [done|]. simpl. unfold kv_exec at 2. by rewrite Hf.
Qed.

Lemma reads_at_gets n : Forall (λ f, f_op f = GET) (reads_at n).*2.
Proof using reads_bound.
  apply Forall_forall. intros f ([[x k] f'] & -> & [-> Hf]%reads_at_elem)%list_elem_of_fmap.
  by apply reads_bound in Hf as [_ ?].
Qed.

(** The reads change nothing, so that an operation finds the store as it was after the
    commands before its place. *)
Lemma weave_run n es st l1 x k f l2 :
  weave n es = l1 ++ ((x, k), f) :: l2 →
  foldl kv_exec st l1.*2 = foldl kv_exec st (take (x - n) es).
Proof using reads_bound keep_not.
  clear reads_sorted. assert (∀ n l1 y l2 tl, reads_at n ++ tl = l1 ++ y :: l2 →
    (∃ l3, reads_at n = l1 ++ y :: l3) ∨ ∃ l3, l1 = reads_at n ++ l3 ∧ tl = l3 ++ y :: l2) as Hsplit.
  { intros m l y l' tl Heq. apply app_eq_inv in Heq as [(k' & E1 & E2)|(k' & E1 & E2)].
    - destruct k' as [|z k']; simplify_eq/=; [|left; by eexists]. right. exists []. by rewrite !app_nil_r in *.
    - right. by exists k'. }
  assert (∀ st n l1 y l2, reads_at n = l1 ++ y :: l2 → foldl kv_exec st l1.*2 = st) as Hgets.
  { intros st' m l y l' E. apply gets_run. pose proof (reads_at_gets m) as H.
    rewrite E, fmap_app in H. by apply Forall_app in H as [? _]. }
  revert n st l1. induction es as [|e es IH]; intros n st l1 Heq; simpl in Heq.
  - rewrite take_nil. apply Hsplit in Heq as [[l3 E]|(l3 & _ & E)]; [by eapply Hgets|by destruct l3].
  - pose proof Heq as [[l3 E]|(l3 & -> & E)]%Hsplit.
    + assert (x = n) as ->.
      { assert (((x, k), f) ∈ reads_at n) as [-> _]%reads_at_elem; [rewrite E; set_solver|done]. }
      rewrite Nat.sub_diag. by eapply Hgets.
    + rewrite fmap_app, foldl_app, (gets_run st) by apply reads_at_gets.
      destruct (keep e) eqn:He; simpl in E.
      * destruct l3 as [|z l3]; [simplify_eq/=; by rewrite Nat.sub_diag|]. injection E as <- E.
        assert (S n ≤ x)%nat.
        { assert (((x, k), f) ∈ weave (S n) es) as [? _]%weave_elem; [rewrite E; set_solver|lia]. }
        cbn [fmap list_fmap foldl]. rewrite (IH (S n) _ l3) by done.
        by replace (x - n)%nat with (S (x - S n)) by lia.
      * assert (S n ≤ x)%nat.
        { assert (((x, k), f) ∈ weave (S n) es) as [? _]%weave_elem; [rewrite E; set_solver|lia]. }
        rewrite (IH (S n) _ l3) by done. replace (x - n)%nat with (S (x - S n)) by lia. simpl.
        unfold kv_exec at 3. by rewrite keep_not.
Qed.
End weave.

(** ** Linearizability of all operations *)

#[export] Instance command_fields_eq_dec : EqDecision command_fields.
Proof. solve_decision. Defined.

Section theorem.
Context (configs : list Config) (r : N) (Hmesh : full_mesh configs) (i : N).
Context (d : deployment) (Hinv : dinv configs r d) (Hro : returns_once d) (ν : nat → nat).
Context (Hpl : placed (heard_at i d) (calls_at i d) (trace d) ν).

Let hd := heard_at i d.

(** How many commands have taken effect before the answer that returned as event [k]. *)
Definition before (k : nat) : nat := length (effective (take (ν k) hd)).

Definition lease_returns (n : nat) : list (nat * command_fields) :=
  omap (λ k, match trace d !! k with
             | Some (Return f true _) => if decide (before k = n) then Some (k, f) else None
             | _ => None
             end) (seq 0 (length (trace d))).

Definition through_log (f : command_fields) : bool :=
  negb (existsb (λ ev, match ev with Return g true _ => bool_decide (g = f) | _ => false end) (trace d)).

(** The sequential history. *)
Definition woven : list (nat * nat * command_fields) :=
  weave (length (trace d)) lease_returns through_log 0 (effective hd).

Lemma lease_returns_elem n k f :
  (k, f) ∈ lease_returns n ↔ (∃ v, trace d !! k = Some (Return f true v)) ∧ before k = n.
Proof using.
  unfold lease_returns. rewrite list_elem_of_omap. split.
  - intros (k' & _ & Hk). destruct (trace d !! k') as [[|g [] v|]|] eqn:E; try done.
    case_decide; simplify_eq. eauto.
  - intros [[v Hv] Hb]. exists k. rewrite Hv, decide_True by done. split; [|done].
    apply elem_of_seq. apply lookup_lt_Some in Hv. lia.
Qed.

Lemma lease_returns_sorted n : StronglySorted (λ x y, (x.1 < y.1)%nat) (lease_returns n).
Proof using.
  eapply StronglySorted_omap, StronglySorted_seq. intros k k' [a f] [b g] Hlt Ha Hb.
  destruct (trace d !! k) as [[|? [] ?|]|], (trace d !! k') as [[|? [] ?|]|]; try done.
  repeat case_decide; by simplify_eq.
Qed.

Lemma through_log_false f :
  through_log f = false ↔ ∃ k v, trace d !! k = Some (Return f true v).
Proof using.
  unfold through_log. rewrite negb_false_iff, existsb_exists. split.
  - intros ([|g [] v|] & Hin & Hf); try done. apply bool_decide_eq_true in Hf as ->.
    apply list_elem_of_In, list_elem_of_lookup in Hin as (k & Hk). eauto.
  - intros (k & v & Hk). exists (Return f true v). split.
    + apply list_elem_of_In. by eapply list_elem_of_lookup_2.
    + by apply bool_decide_eq_true.
Qed.

Lemma before_le k : (before k ≤ length (effective hd))%nat.
Proof using.
  unfold before. apply prefix_length, effective_prefix_of, prefix_take.
Qed.

(** A read is in its place; so is an operation that went through the log. *)
Lemma woven_elem x k f :
  ((x, k), f) ∈ woven ↔
  ((∃ v, trace d !! k = Some (Return f true v)) ∧ before k = x) ∨
  (k = length (trace d) ∧ effective hd !! x = Some f ∧ through_log f = true).
Proof using.
  unfold woven. rewrite weave_elem, lease_returns_elem, Nat.sub_0_r. split; [by intros [_ ?]|].
  intros H. split; [|done]. destruct H as [[_ <-]|(_ & Hx & _)].
  - pose proof (before_le k). lia.
  - apply lookup_lt_Some in Hx. lia.
Qed.

Lemma woven_sorted : StronglySorted sooner woven.
Proof using Hpl.
  apply weave_sorted; [apply lease_returns_sorted|].
  intros n k f [[v Hv] _]%lease_returns_elem. split; [by eapply lookup_lt_Some|].
  by destruct (pl_read _ _ _ _ Hpl k f v Hv).
Qed.

Lemma woven_position a b x y :
  woven !! a = Some x → woven !! b = Some y → sooner x y → (a < b)%nat.
Proof using Hpl.
  apply StronglySorted_lookup; [apply woven_sorted|]. unfold sooner. lia.
Qed.

Lemma woven_unique x k x' k' f :
  ((x, k), f) ∈ woven → ((x', k'), f) ∈ woven → x = x' ∧ k = k'.
Proof using Hro.
  intros [[[v Hv] <-]|(-> & Hx & Hl)]%woven_elem [[[v' Hv'] <-]|(-> & Hx' & Hl')]%woven_elem.
  - by pose proof (ro_once _ Hro _ _ _ _ _ _ _ Hv Hv') as ->.
  - assert (through_log f = false) by (apply through_log_false; eauto). congruence.
  - assert (through_log f = false) by (apply through_log_false; eauto). congruence.
  - split; [|done]. by eapply NoDup_lookup; [apply effective_NoDup|..].
Qed.

(** Where an answer was found: [x] commands before it. *)
Lemma returned_item k f lease v :
  trace d !! k = Some (Return f lease v) →
  ∃ x t, ((x, t), f) ∈ woven ∧ v = kv_answer (kv_run (take x (effective hd))) f ∧
    if lease then x = before k ∧ t = k else (x < before k)%nat.
Proof using Hro Hpl.
  intros Hk. assert (effective (take (ν k) hd) `prefix_of` effective hd) as Hp
    by apply effective_prefix_of, prefix_take.
  destruct lease.
  - destruct (pl_read _ _ _ _ Hpl k f v Hk) as [Hop Hv]. exists (before k), k. split_and!; try done.
    + apply woven_elem. left. eauto.
    + unfold before. rewrite (take_prefix_le _ _ _ Hp), firstn_all by done.
      unfold kv_answer. by rewrite Hop.
  - destruct (pl_log _ _ _ _ Hpl k f v Hk) as (past & rest & _ & Hv & Hpast & _).
    fold hd in Hpast. assert (effective (take (ν k) hd) !! length (effective past) = Some f) as Hat.
    { destruct Hpast as [tl ->]. rewrite <- app_assoc. by apply list_lookup_middle. }
    assert (effective past `prefix_of` effective hd) as Hpp.
    { etrans; [|exact Hp]. etrans; [|exact Hpast]. by apply prefix_app_r. }
    exists (length (effective past)), (length (trace d)). split_and!.
    + apply woven_elem. right. split_and!; [done|by eapply prefix_lookup_Some|].
      destruct (through_log f) eqn:E; [done|]. apply through_log_false in E as (k' & v' & Hk').
      pose proof (ro_once _ Hro _ _ _ _ _ _ _ Hk Hk') as ->. by simplify_eq.
    + by rewrite (take_prefix_le _ _ _ Hpp), firstn_all by done.
    + by apply lookup_lt_Some in Hat.
Qed.

Lemma before_mono k m : (ν k ≤ ν m)%nat → (before k ≤ before m)%nat.
Proof using.
  intros Hle. unfold before. apply prefix_length, effective_prefix_of.
  replace (take (ν k) hd) with (take (ν k) (take (ν m) hd)) by (rewrite take_take; f_equal; lia).
  apply prefix_take.
Qed.

(** A command that is called after the return of event [k] takes effect after it. *)
Lemma called_later k f lease v j g y :
  trace d !! k = Some (Return f lease v) → trace d !! j = Some (Invoke g) → (k < j)%nat →
  effective hd !! y = Some g → (before k ≤ y)%nat.
Proof using Hinv Hpl.
  intros Hk Hj Hlt Hy. destruct (Nat.le_gt_cases (before k) y) as [|Hgt]; [done|]. exfalso.
  assert (g ∈ effective (take (ν k) hd)) as Hg.
  { assert (effective (take (ν k) hd) `prefix_of` effective hd) as [tl Htl]
      by apply effective_prefix_of, prefix_take.
    rewrite Htl, lookup_app_l in Hy by done. by eapply list_elem_of_lookup_2. }
  apply effective_elem, (pl_called _ _ _ _ Hpl k f lease v g Hk), list_elem_of_lookup in Hg as (j0 & Hj0).
  apply lookup_take_Some in Hj0 as [Hj0 ?]. pose proof (di_once _ _ _ Hinv j0 j g Hj0 Hj). lia.
Qed.

Lemma woven_order i0 j f lease v g x t y u :
  trace d !! i0 = Some (Return f lease v) → trace d !! j = Some (Invoke g) → (i0 < j)%nat →
  ((x, t), f) ∈ woven → ((y, u), g) ∈ woven → sooner ((x, t), f) ((y, u), g).
Proof using Hinv Hro Hpl.
  intros Hi Hj Hlt Hf Hg. destruct (returned_item i0 f lease v Hi) as (x' & t' & Hf' & _ & Hx).
  destruct (woven_unique _ _ _ _ _ Hf Hf') as [<- <-]. unfold sooner. simpl.
  apply woven_elem in Hg as [[[v' Hm] <-]|(-> & Hy & _)].
  - pose proof (returned_after configs r d u j g true v' Hinv Hm Hj).
    pose proof (before_mono _ _ (pl_order _ _ _ _ Hpl _ _ _ _ _ _ _ _ Hi Hj Hm Hlt)).
    destruct lease; [destruct Hx as [-> ->]|]; lia.
  - pose proof (called_later _ _ _ _ _ _ _ Hi Hj Hlt Hy). apply lookup_lt_Some in Hi.
    destruct lease; [destruct Hx as [-> ->]|]; lia.
Qed.

Lemma woven_run a x t f :
  woven !! a = Some ((x, t), f) → kv_run (take a woven.*2) = kv_run (take x (effective hd)).
Proof using Hpl.
  intros Ha. pose proof (take_drop_middle _ _ _ Ha) as E. rewrite <- fmap_take. unfold kv_run.
  rewrite <- (Nat.sub_0_r x). eapply weave_run; [| |symmetry; exact E].
  - intros n k g [[v Hv] _]%lease_returns_elem. split; [by eapply lookup_lt_Some|].
    by destruct (pl_read _ _ _ _ Hpl k g v Hv).
  - intros g (k & v & Hv)%through_log_false. by destruct (pl_read _ _ _ _ Hpl k g v Hv).
Qed.

Lemma woven_linearizes : (∀ f, f ∈ hd → Invoke f ∈ trace d) → linearizes_all (trace d) woven.*2.
Proof using Hinv Hro Hpl.
  intros Hcalled.
  assert (∀ k f, woven.*2 !! k = Some f → ∃ x t, woven !! k = Some ((x, t), f)) as Hat.
  { intros k f. rewrite list_lookup_fmap. intros ([[x t] g] & ? & ->)%fmap_Some. eauto. }
  split.
  - apply NoDup_alt. intros a b f (x & t & Ha)%Hat (y & u & Hb)%Hat.
    destruct (woven_unique x t y u f) as [<- <-]; [by eapply list_elem_of_lookup_2..|].
    destruct (Nat.lt_total a b) as [Hlt|[?|Hlt]]; [|done|]; exfalso.
    + pose proof (StronglySorted_lt _ _ _ _ _ _ woven_sorted Ha Hb Hlt) as H. unfold sooner in H. lia.
    + pose proof (StronglySorted_lt _ _ _ _ _ _ woven_sorted Hb Ha Hlt) as H. unfold sooner in H. lia.
  - intros f ([[x t] g] & -> & Hg)%list_elem_of_fmap. simpl.
    apply woven_elem in Hg as [[[v Hv] _]|(_ & Hx & _)].
    + destruct (di_returned _ _ _ Hinv t g true v Hv) as [Hin _].
      eapply elem_of_submseteq; [exact Hin|apply sublist_submseteq, sublist_take].
    + by eapply Hcalled, effective_elem, list_elem_of_lookup_2.
  - intros f lease v (k & Hk)%list_elem_of_lookup.
    destruct (returned_item k f lease v Hk) as (x & t & Hin & -> & _).
    apply list_elem_of_lookup in Hin as (a & Ha). exists a.
    split; [by rewrite list_lookup_fmap, Ha|by rewrite (woven_run _ _ _ _ Ha)].
  - intros i0 j f lease v g Hi Hj Hlt a b (x & t & Ha)%Hat (y & u & Hb)%Hat.
    eapply woven_position; [done..|]. eapply woven_order; [done..| |]; by eapply list_elem_of_lookup_2.
Qed.
End theorem.

Lemma one_node_linearizes configs r ids d i :
  full_mesh configs → dreachable configs r ids d → answers_only i d →
  ∃ S, linearizes_all (trace d) S.
Proof.
  intros Hmesh Hd Ha. pose proof (dreachable_dinv configs r Hmesh ids d Hd) as Hinv.
  destruct (dreachable_placed configs r Hmesh i ids d Hd Ha) as [Hro [ν Hpl]].
  eexists. eapply (woven_linearizes configs r i d Hinv Hro ν Hpl).
  unfold heard_at. destruct (services d !! i) as [s|] eqn:Hs; simpl; [|set_solver].
  by eapply heard_invoked.
Qed.

(** C14: on every orderly schedule, as long as every success has come from one node, the
    whole deployment is linearizable, the reads that bypass the log included, whatever the
    lease answered them: one sequential history of a plain
    map gives every operation that returned its answer and respects the real-time order. *)
Theorem reads_linearizable configs r ids d i :
  full_mesh configs → dreachable configs r ids d → answers_only i d →
  ∃ S, linearizes_all (trace d) S.
Proof. apply one_node_linearizes. Qed.

(** [put_then_get] is answered by node 0 alone. *)
Lemma answers_only_iff (d : deployment) i :
  Forall (λ x, x.1 = i ∨ Forall (λ y, match y.2 with CDone _ _ (KV_SUCCESS, _) => False | _ => True end)
                           (map_to_list (calls x.2))) (map_to_list (services d)) →
  answers_only i d.
Proof.
  rewrite Forall_forall. intros Hall j s h f lease v Hj Hh.
  destruct (Hall (j, s)) as [|Hn]; [by apply elem_of_map_to_list|done|].
  rewrite Forall_forall in Hn. by destruct (Hn (h, CDone f lease (KV_SUCCESS, v))); apply elem_of_map_to_list.
Qed.

Lemma reads_linearizable_witness :
  ∃ d, drun put_then_get (deploy local3 0 [1]) = Some d ∧
    trace d = [Invoke put_x; Return put_x false ""; Invoke (mkFields GET 1 2 "x" "");
               Return (mkFields GET 1 2 "x" "") true "a"] ∧
    ∃ S, linearizes_all (trace d) S.
Proof.
  eexists. split; [vm_compute; reflexivity|]. split; [reflexivity|].
  eapply (reads_linearizable local3 0 [1] _ 0 local3_mesh).
  - apply (drun_reachable local3 0 [1] put_then_get (deploy local3 0 [1])); [apply dreach_boot|].
    vm_compute. reflexivity.
  - apply answers_only_iff. vm_compute. repeat constructor; first [by left|right; by repeat constructor].
Defined.
