(* ===== verification/Progress.v ===== *)
(** The cluster never gets stuck: what a quorum of the nodes can do by themselves.

    Raft promises no more than this without fairness: from every reachable state there
    is a schedule, of the members of a quorum alone, that elects a leader and has it
    commit and apply a new command.  The timeouts, the deliveries and the calls that fail
    are chosen by the schedule; every step is one of [Cluster.v], and disciplined. *)
From S2P Require Import Prelude Types ConfigGen RaftState RaftNode RaftNodeFacts Cluster RaftSpec.
From S2P Require Import Refinement RefinementSteps Simulation LogSpec LogInv LogSafety.
From S2P Require Import Races Safety Replication.

#[local] Open Scope N_scope.

(** ** Schedules of a group of nodes *)

(** A disciplined schedule in which only the members of [Q] act. *)
Definition can (Q : gset N) (c c' : cluster) : Prop :=
  ∃ ls, Forall (λ l, actor l ∈ Q) ls ∧ run_disciplined ls c = Some c'.

Lemma run_disciplined_app ls ls' c :
  run_disciplined (ls ++ ls') c = run_disciplined ls c ≫= run_disciplined ls'.
Proof.
  revert c. induction ls as [|l ls IH]; intros c; [done|]. simpl.
  destruct (disciplined l c); [|done]. by destruct (step l c).
Qed.

#[export] Instance can_preorder Q : PreOrder (can Q).
Proof.
  split; [intros c; by exists []|]. intros c1 c2 c3 (ls & Hl & H) (ls' & Hl' & H').
  exists (ls ++ ls'). rewrite run_disciplined_app, H. split; [by apply Forall_app|done].
Qed.

Lemma can_step Q l c c' :
  actor l ∈ Q → disciplined l c = true → step l c = Next c' → can Q c c'.
Proof.
  intros Ha Hd Hs. exists [l]. split; [by repeat constructor|]. simpl. by rewrite Hd, Hs.
Qed.

Lemma can_reachable configs r Q c c' :
  reachable configs r c → can Q c c' → reachable configs r c'.
Proof. intros Hc (ls & _ & Hr). by eapply run_disciplined_reachable. Qed.

(** A step of the thread of node [i]. *)
Lemma can_thread Q l i p c c' :
  i ∈ Q → procs c !! i = Some p → actor l = i → thread_step l i p c = Next c' →
  disciplined l c = true → can Q c c'.
Proof.
  intros HQ Hi Ha Hs Hd. apply (can_step Q l); [by rewrite Ha|done|].
  unfold step. rewrite Ha, Hi. by destruct l.
Qed.

Lemma upd_upd i p p' c : upd i p (upd i p' c) = upd i p c.
Proof. unfold upd. simpl. by rewrite insert_insert_eq. Qed.

Lemma upd_send i p ms c : upd i p (send ms c) = send ms (upd i p c).
Proof. done. Qed.
Lemma upd_record i p evs c : upd i p (record evs c) = record evs (upd i p c).
Proof. done. Qed.
Lemma procs_upd i p c : procs (upd i p c) !! i = Some p.
Proof. apply lookup_insert_eq. Qed.
Lemma procs_upd_ne i j p c : i ≠ j → procs (upd i p c) !! j = procs c !! j.
Proof. apply lookup_insert_ne. Qed.

(** ** Elections *)

(** The request of candidate [n]. *)
Definition ballot_paper (n : Raft) : RequestVoteReq :=
  mkRequestVoteReq (current_term_ n) (raft_id n) (vsize (log_ n)) (last_term_of (log_ n)).

(** A log is at least as up to date as another, as the voters compare them. *)
Definition covers (n m : Raft) : bool :=
  up_to_date (ballot_paper n) (vsize (log_ m)) (last_term_of (log_ m)).

(** Labels that are disciplined wherever they apply. *)
Definition unrestricted (l : label) : bool :=
  match l with
  | LVoteCount _ _ | LDecide _ _ | LPropose _ _ | LDeliverAE _ _ _ _ _ | LDeliverRV _ _ _ _ _ => false
  | _ => true
  end.

Lemma unrestricted_disciplined l c : unrestricted l = true → disciplined l c = true.
Proof. unfold disciplined. destruct (procs c !! actor l) as [[? [] ?]|]; by destruct l. Qed.

Ltac always := by apply unrestricted_disciplined.

(** The thread of [i] takes the step [l]. *)
Tactic Notation "thread" constr(l) "of" constr(i) :=
  etrans;
  [eapply (can_thread _ l i); [done|first [eassumption|apply procs_upd]|done|reflexivity|try always]|
   rewrite ?upd_upd].

Section group.
Context (Q : gset N) (j : N) (Hj : j ∈ Q).

(** The candidate asks the next peer. *)
Lemma ask c n k votes maj q todo :
  log_fits (log_ n) → procs c !! j = Some (mkProc n (PcVote votes maj (q :: todo)) k) →
  can Q c (send [MRequestVote j q k (ballot_paper n)]
             (upd j (mkProc n (PcVoteRpc votes maj q k (ballot_paper n) todo) (k + 1)) c)).
Proof using Hj.
  intros Hfit Hp. thread (LVote j) of j. thread (LReadIndex j) of j. simpl.
  apply (can_thread Q (LSendVote j) j
           (mkProc n (PcReqIndex votes maj q (current_term_ n) (vsize (log_ n)) todo) k));
    [done|apply procs_upd|done| |always].
  simpl. rewrite last_term_eq by done. by rewrite upd_upd.
Qed.

(** The call fails. *)
Lemma ask_in_vain c n k votes maj q todo :
  log_fits (log_ n) → procs c !! j = Some (mkProc n (PcVote votes maj (q :: todo)) k) →
  ∃ c', can Q c c' ∧ history c' = history c ∧
    procs c' = <[j := mkProc n (PcVote votes maj todo) (k + 1)]> (procs c).
Proof using Hj.
  intros Hfit Hp. eexists. split; [|split].
  - etrans; [by eapply ask|].
    eapply (can_thread Q (LVoteFail j) j); [done|apply lookup_insert_eq|done|reflexivity|always].
  - done.
  - apply insert_insert_eq.
Qed.

(** The state in which a voter of an earlier term grants the request. *)
Definition granted (n m : Raft) : Raft :=
  reset_election_timer 0
    (set_voted_for_ (Some (raft_id n)) (adopt_term (current_term_ n) 0 m)).

Lemma grant n m :
  log_fits (log_ m) → current_term_ m < current_term_ n → covers n m = true →
  handle_request_vote (ballot_paper n) 0 m =
  Some (granted n m, mkRequestVoteReply (current_term_ n) true).
Proof.
  intros Hfit Hlt Hc. rewrite handle_request_vote_eq by done. simpl.
  destruct (N.ltb_spec (current_term_ n) (current_term_ m)); [lia|].
  unfold covers in Hc. rewrite Hc. unfold adopt_term at 1.
  destruct (N.ltb_spec (current_term_ m) (current_term_ n)); [done|lia].
Qed.

(** The call succeeds and the vote is counted. *)
Lemma ask_granted c n k votes maj q todo pq :
  log_fits (log_ n) → raft_id n = j → votes + 1 < pow64 →
  procs c !! j = Some (mkProc n (PcVote votes maj (q :: todo)) k) →
  q ∈ Q → q ≠ j → procs c !! q = Some pq → log_fits (log_ (node pq)) →
  current_term_ (node pq) < current_term_ n → covers n (node pq) = true →
  has_led (history c) q (current_term_ n) = false →
  ∃ c', can Q c c' ∧ history c ⊆ history c' ∧
    procs c' = <[q := mkProc (granted n (node pq)) (ctl pq) (next_rpc pq)]>
                 (<[j := mkProc n (if maj <=? votes + 1 then PcFinish (votes + 1) maj
                                   else PcVote (votes + 1) maj todo) (k + 1)]> (procs c)).
Proof using Hj.
  intros Hfit Hid Hv Hp HqQ Hne Hq Hfq Hlt Hc Hled.
  set (rep := mkRequestVoteReply (current_term_ n) true). eexists. split; [|split].
  - etrans; [by apply (ask c n k votes maj q todo)|].
    etrans. { eapply (can_step Q (LDeliverRV j q k (ballot_paper n) 0)); [done| |].
      - unfold disciplined. simpl. rewrite lookup_insert_ne by done. rewrite Hq. simpl.
        rewrite grant by done. simpl. by rewrite Hled.
      - unfold step, deliver_vote. simpl. rewrite lookup_insert_ne by done. rewrite Hq. simpl.
        rewrite bool_decide_true by (by left). rewrite grant by done. reflexivity. }
    etrans. { eapply (can_thread Q (LVoteReply j rep) j); [done| |done| |always].
      - simpl. rewrite lookup_insert_ne by done. apply lookup_insert_eq.
      - simpl. rewrite bool_decide_true by (by left). reflexivity. }
    thread (LReadMyTerm j) of j. simpl.
    eapply (can_thread Q (LVoteCount j 0) j); [done|apply procs_upd|done| |].
    + cbn [thread_step ctl node rvr_term rep voteGranted]. rewrite N.ltb_irrefl.
      rewrite add64_small by done. reflexivity.
    + unfold disciplined. cbn [actor]. rewrite procs_upd. simpl. by rewrite N.ltb_irrefl.
  - intros e He. by right.
  - simpl. rewrite insert_insert_eq, (insert_insert_ne (M := gmap N)), !insert_insert_eq by done. done.
Qed.

(** What an election in term [t] leaves of the other nodes: their logs, and terms that
    are no later than [t]. *)
Definition undisturbed (t : N) (c c' : cluster) : Prop :=
  ∀ i p, i ≠ j → procs c !! i = Some p →
  ∃ p', procs c' !! i = Some p' ∧ log_ (node p') = log_ (node p) ∧
        current_term_ (node p') ≤ N.max t (current_term_ (node p)).

#[export] Instance undisturbed_preorder t : PreOrder (undisturbed t).
Proof.
  split; [intros c i p ? ?; exists p; split_and!; [done..|lia]|].
  intros c1 c2 c3 H H' i p Hi Hp. destruct (H i p Hi Hp) as (p1 & Hp1 & Hl1 & Ht1).
  destruct (H' i p1 Hi Hp1) as (p2 & Hp2 & Hl2 & Ht2). exists p2.
  split_and!; [done|congruence|lia].
Qed.

Lemma undisturbed_self t c c' p : procs c' = <[j := p]> (procs c) → undisturbed t c c'.
Proof.
  intros E i q Hi Hq. exists q. rewrite E, lookup_insert_ne by done. split_and!; [done..|lia].
Qed.

Lemma granted_frame n m :
  log_ (granted n m) = log_ m ∧
  (current_term_ m ≤ current_term_ n → current_term_ (granted n m) = current_term_ n).
Proof.
  unfold granted, adopt_term.
  destruct (N.ltb_spec (current_term_ m) (current_term_ n)); simpl; (split; [done|]); lia.
Qed.

Context (configs : list Config) (r : N) (Hmesh : full_mesh configs).

Lemma reachable_base c i p :
  reachable configs r c → procs c !! i = Some p → base_inv (dom (procs c)) i (node p).
Proof using Hmesh.
  intros Hc Hp. destruct (reachable_inv configs r c Hmesh Hc) as [Hinv _].
  apply (ci_procs c Hinv i p Hp).
Qed.

Lemma can_dom c c' : reachable configs r c → can Q c c' → dom (procs c') = dom (procs c).
Proof using Hmesh.
  intros Hc (ls & _ & Hrun). destruct (reachable_inv configs r c Hmesh Hc) as [Hinv _].
  destruct (run_refines ls c c' Hinv Hrun) as [_ Hst]. rewrite <- !abs_dom.
  induction Hst as [|s s1 s' Hs _ IH]; [done|]. by rewrite IH, (proj2 (astep_frame _ _ Hs)).
Qed.

(** A node has not led a term it has not come to. *)
Lemma not_led c i p t :
  reachable configs r c → procs c !! i = Some p → current_term_ (node p) < t →
  has_led (history c) i t = false.
Proof using Hmesh.
  intros Hc Hp Ht. destruct (reachable_inv configs r c Hmesh Hc) as [_ Ha].
  destruct (log_inv_reachable (abs c) Ha) as [_ [L HL]].
  destruct (has_led (history c) i t) eqn:E; [|done].
  apply has_led_spec in E as [l Hl].
  destruct (eo_term _ _ _ _ _ _ (li_elected _ _ HL _ _ _ Hl)) as (x & Hx & Hle).
  rewrite (abs_lookup c i p Hp) in Hx. simplify_eq. simpl in Hle. lia.
Qed.

(** A voter that the candidate [n] can win. *)
Definition winnable (c : cluster) (n : Raft) (q : N) : Prop :=
  ∃ pq, procs c !! q = Some pq ∧ current_term_ (node pq) < current_term_ n ∧
        covers n (node pq) = true.

(** The vote loop, when the calls to the members of [G] succeed and the others fail. *)
Lemma poll (G : gset N) n maj todo : ∀ c k votes,
  reachable configs r c → G ⊆ Q → NoDup todo → j ∉ todo →
  procs c !! j = Some (mkProc n (PcVote votes maj todo) k) →
  (∀ q, q ∈ G → q ∈ todo → winnable c n q) →
  votes + vsize todo < pow64 →
  ∃ c' k' votes', can Q c c' ∧ undisturbed (current_term_ n) c c' ∧
    procs c' !! j = Some (mkProc n (PcFinish votes' maj) k') ∧
    N.min maj (votes + vsize (filter (λ q, q ∈ G) todo)) ≤ votes' ≤
      votes + vsize (filter (λ q, q ∈ G) todo).
Proof using Hmesh Hj.
  induction todo as [|q todo IH]; intros c k votes Hc HG Hnd Hjt Hp Hwin Hv.
  { eexists _, k, votes. split; [|split; [|split]]; [| |apply procs_upd|unfold vsize; simpl; lia].
    - eapply (can_thread Q (LVote j) j); [done..|reflexivity|always].
    - by eapply undisturbed_self. }
  pose proof (reachable_base c j _ Hc Hp) as Hb.
  assert (log_fits (log_ n)) as Hfit by apply Hb. assert (raft_id n = j) as Hid by apply Hb.
  apply NoDup_cons in Hnd as [Hqt Hnd]. apply not_elem_of_cons in Hjt as [Hjq Hjt].
  rewrite vsize_cons in Hv.
  destruct (decide (q ∈ G)) as [HqG|HqG].
  - destruct (Hwin q HqG) as (pq & Hpq & Hlt & Hcov); [by left|].
    destruct (granted_frame n (node pq)) as [Hgl Hgt].
    destruct (ask_granted c n k votes maj q todo pq) as (c1 & Hcan & _ & Hps);
      [done|done|lia|done|by apply HG|done|done|by apply (reachable_base c q pq)|done|done|
       by apply (not_led c q pq)|].
    assert (undisturbed (current_term_ n) c c1) as Hun.
    { intros i p Hi Hip. rewrite Hps. destruct (decide (i = q)) as [->|Hiq].
      - rewrite lookup_insert_eq. eexists. split; [done|]. simplify_eq. cbn [node].
        split; [done|]. rewrite Hgt by lia. lia.
      - rewrite !lookup_insert_ne by done. exists p. split_and!; [done..|lia]. }
    assert (procs c1 !! j = Some (mkProc n (if maj <=? votes + 1 then PcFinish (votes + 1) maj
              else PcVote (votes + 1) maj todo) (k + 1))) as Hj1.
    { rewrite Hps, lookup_insert_ne by done. apply lookup_insert_eq. }
    destruct (N.leb_spec maj (votes + 1)) as [Hwon|Hmore].
    { exists c1, (k + 1), (votes + 1). rewrite filter_cons_True, vsize_cons by done.
      split_and!; [done..|lia|lia]. }
    destruct (IH c1 (k + 1) (votes + 1)) as (c' & k' & votes' & Hcan' & Hun' & Hj' & Hvotes);
      [by eapply can_reachable|done..| |lia|].
    { intros q' Hq' Hin. destruct (Hwin q' Hq') as (pq' & Hpq' & ?); [by right|].
      exists pq'. rewrite Hps, !lookup_insert_ne by (by intros ->). done. }
    exists c', k', votes'. rewrite filter_cons_True, vsize_cons by done.
    split_and!; [by etrans|by etrans|done|lia|lia].
  - destruct (ask_in_vain c n k votes maj q todo) as (c1 & Hcan & _ & Hps); [done..|].
    destruct (IH c1 (k + 1) votes) as (c' & k' & votes' & Hcan' & Hun' & Hj' & Hvotes);
      [by eapply can_reachable|done..| | |lia|].
    { rewrite Hps. apply lookup_insert_eq. }
    { intros q' Hq' Hin. destruct (Hwin q' Hq') as (pq' & Hpq' & ?); [by right|].
      exists pq'. rewrite Hps, !lookup_insert_ne by (by intros ->). done. }
    exists c', k', votes'. rewrite filter_cons_False by done. split_and!; [by etrans| |done|lia|lia].
    etrans; [by eapply undisturbed_self|done].
Qed.

(** A candidacy: the state that [run] gives a node whose timer runs out. *)
Definition candidate (n : Raft) : Raft :=
  reset_election_timer 0
    (set_voted_for_ (Some (raft_id n))
       (set_current_term_ (current_term_ n + 1)
          (set_role_ CANDIDATE (set_received_heartbeat_ false n)))).

Lemma stand c n k :
  procs c !! j = Some (mkProc n PcTop k) → role_ n ≠ LEADER → is_dead n = false →
  log_fits (log_ n) → current_term_ n + 1 < pow64 →
  ∃ c', can Q c c' ∧
    procs c' = <[j := mkProc (candidate n) (PcVote 1 (majority n) (peers_ n).*1) k]> (procs c).
Proof using Hj.
  intros Hp Hr Hd Hfit Ht. set (n0 := set_received_heartbeat_ false n). eexists. split.
  - etrans. { eapply (can_thread Q (LTop j 0) j); [done..| |always].
      simpl. rewrite Hd. unfold run_top. rewrite decide_False by done. reflexivity. }
    etrans. { eapply (can_thread Q (LWait j (ms (election_timeout_ n))) j);
        [done|apply procs_upd|done|reflexivity|always]. }
    replace (wait_over 0 (ms (election_timeout_ n)) _) with true.
    2: { unfold wait_over. rewrite Z.sub_0_r. simpl. rewrite Z.leb_refl. by rewrite orb_true_r. }
    rewrite upd_upd. eapply (can_thread Q (LDecide j 0) j); [done|apply procs_upd|done| |].
    + cbn [thread_step ctl node]. unfold start_election. simpl.
      rewrite bool_decide_false by done. unfold vote_request. simpl.
      rewrite last_term_eq by done. simpl. rewrite add64_small by done. reflexivity.
    + unfold disciplined. cbn [actor]. rewrite procs_upd. simpl. by apply N.ltb_lt.
  - simpl. by rewrite !insert_insert_eq.
Qed.

(** The end of the election. *)
Lemma close_poll c n votes maj k :
  procs c !! j = Some (mkProc n (PcFinish votes maj) k) → role_ n = CANDIDATE →
  ∃ c' n', can Q c c' ∧
    procs c' = <[j := mkProc n' (if maj <=? votes then PcBecome else PcTop) k]> (procs c) ∧
    role_ n' = (if maj <=? votes then LEADER else FOLLOWER) ∧
    log_ n' = log_ n ∧ current_term_ n' = current_term_ n ∧ is_dead n' = is_dead n.
Proof using Hj.
  intros Hp Hr. destruct (maj <=? votes) eqn:Hm.
  - eexists _, _. split; [|split].
    + eapply (can_thread Q (LFinish j 0) j); [done..| |always].
      cbn [thread_step ctl node]. unfold finish_election. rewrite bool_decide_true, Hm by done.
      reflexivity.
    + reflexivity.
    + done.
  - eexists _, _. split; [|split].
    + eapply (can_thread Q (LFinish j 0) j); [done..| |always].
      cbn [thread_step ctl node]. unfold finish_election. rewrite bool_decide_true, Hm by done.
      reflexivity.
    + reflexivity.
    + done.
Qed.

(** One election, with the support of [G]. *)
Lemma campaign (G : gset N) c n k :
  reachable configs r c → G ⊆ Q → j ∉ G →
  procs c !! j = Some (mkProc n PcTop k) → role_ n ≠ LEADER → is_dead n = false →
  current_term_ n + 1 < pow64 →
  (∀ q, q ∈ G → ∃ pq, procs c !! q = Some pq ∧ current_term_ (node pq) ≤ current_term_ n ∧
                      covers n (node pq) = true) →
  ∃ c' n' k', can Q c c' ∧ undisturbed (current_term_ n') c c' ∧
    log_ n' = log_ n ∧ current_term_ n' = current_term_ n + 1 ∧ is_dead n' = false ∧
    if majority n <=? 1 + N.of_nat (size G)
    then role_ n' = LEADER ∧ procs c' !! j = Some (mkProc n' PcBecome k')
    else role_ n' = FOLLOWER ∧ procs c' !! j = Some (mkProc n' PcTop k').
Proof using Hmesh Hj.
  intros Hc HG HjG Hp Hr Hd Ht Hwin.
  pose proof (reachable_base c j _ Hc Hp) as Hb. destruct (reachable_inv configs r c Hmesh Hc) as [Hinv _].
  destruct (stand c n k) as (c1 & Hcan1 & Hps1); [done..|apply Hb|done|].
  assert (list_to_set (peers_ n).*1 = dom (procs c) ∖ {[j]}) as Hset.
  { apply set_eq. intros q. rewrite elem_of_list_to_set, (bi_peers _ _ _ Hb). set_solver. }
  assert (vsize (filter (λ q, q ∈ G) (peers_ n).*1) = N.of_nat (size G)) as Hsz.
  { unfold vsize. f_equal. rewrite <- (size_list_to_set (C := gset N)).
    - f_equal. apply set_eq. intros q. rewrite elem_of_list_to_set, list_elem_of_filter.
      rewrite (bi_peers _ _ _ Hb). split; [tauto|]. intros HqG. split_and!; [done| |by intros ->].
      destruct (Hwin q HqG) as (pq & Hpq & _). by apply elem_of_dom_2 in Hpq.
    - apply NoDup_filter, Hb. }
  destruct (poll G (candidate n) (majority n) (peers_ n).*1 c1 k 1)
    as (c2 & k2 & votes & Hcan2 & Hun2 & Hj2 & Hlo & Hhi);
    [by eapply can_reachable|done|apply Hb| | | | |].
  - rewrite (bi_peers _ _ _ Hb). set_solver.
  - rewrite Hps1. apply lookup_insert_eq.
  - intros q HqG _. destruct (Hwin q HqG) as (pq & Hpq & Hle & Hcov). exists pq.
    rewrite Hps1, lookup_insert_ne by (by intros ->). split_and!; [done| |done]. simpl. lia.
  - pose proof (ci_size c Hinv) as Hsize. unfold vsize.
    rewrite <- (size_list_to_set (C := gset N)), Hset by apply Hb.
    rewrite size_difference, size_singleton by (apply singleton_subseteq_l, Hb).
    assert (size (dom (procs c)) ≠ 0)%nat; [|lia].
    intros H0%size_empty_inv. pose proof (bi_member _ _ _ Hb). set_solver.
  - rewrite Hsz in Hlo, Hhi.
    assert ((majority n <=? votes) = (majority n <=? 1 + N.of_nat (size G))) as Hres.
    { destruct (N.leb_spec (majority n) votes), (N.leb_spec (majority n) (1 + N.of_nat (size G))); lia. }
    destruct (close_poll c2 _ _ _ _ Hj2) as (c3 & n' & Hcan3 & Hps3 & Hr' & Hl' & Ht' & Hd'); [done|].
    rewrite Hres in *. exists c3, n', k2. rewrite Ht'. split_and!; [| |done|done|by rewrite Hd'|].
    + etrans; [exact Hcan1|]. by etrans.
    + etrans; [by eapply undisturbed_self|]. etrans; [exact Hun2|by eapply undisturbed_self].
    + rewrite Hps3, lookup_insert_eq, Hr'. by destruct (majority n <=? 1 + N.of_nat (size G)).
Qed.

(** ** A quorum elects the node whose log covers theirs *)

Lemma quorum_elects d : ∀ c n k,
  reachable configs r c → quorum (dom (procs c)) Q →
  procs c !! j = Some (mkProc n PcTop k) → role_ n ≠ LEADER → is_dead n = false →
  current_term_ n + N.of_nat d + 1 < pow64 →
  (∀ q, q ∈ Q → q ≠ j → ∃ pq, procs c !! q = Some pq ∧
     current_term_ (node pq) ≤ current_term_ n + N.of_nat d ∧ covers n (node pq) = true) →
  ∃ c' n' k', can Q c c' ∧
    procs c' !! j = Some (mkProc n' PcBecome k') ∧ role_ n' = LEADER ∧ is_dead n' = false ∧
    log_ n' = log_ n ∧ current_term_ n < current_term_ n' ∧
    undisturbed (current_term_ n') c c' ∧
    (∀ q pq, q ∈ Q → procs c' !! q = Some pq → current_term_ (node pq) ≤ current_term_ n').
Proof using Hmesh Hj.
  induction d as [|d IH]; intros c n k Hc HQ Hp Hr Hd Ht Hcov.
  - pose proof (reachable_base c j _ Hc Hp) as Hb.
    destruct (campaign (Q ∖ {[j]}) c n k)
      as (c' & n' & k' & Hcan & Hun & Hl & Ht' & Hd' & Hres); [done|set_solver..|done|done|done|lia| |].
    { intros q [HqQ Hqj]%elem_of_difference. destruct (Hcov q) as (pq & ? & ? & ?); [set_solver..|].
      exists pq. split_and!; [done|lia|done]. }
    pose proof (quorum_majority _ _ _ Q Hb HQ) as Hmaj. simpl in Hmaj.
    rewrite size_difference, size_singleton in Hres by set_solver.
    assert (size Q ≠ 0)%nat by (intros H0%size_empty_inv; set_solver).
    destruct (N.leb_spec (majority n) (1 + N.of_nat (size Q - 1))); [|lia]. destruct Hres as [Hr' Hp'].
    exists c', n', k'. split_and!; [done..|lia|done|]. intros q pq Hq Hpq.
    destruct (decide (q = j)) as [->|Hne]; [by simplify_eq|].
    destruct (Hcov q Hq Hne) as (pq0 & Hpq0 & Hle & _). destruct (Hun q pq0 Hne Hpq0) as (? & ? & _ & ?).
    simplify_eq. lia.
  - destruct (campaign ∅ c n k)
      as (c1 & n1 & k1 & Hcan & Hun & Hl & Ht' & Hd' & Hres); [done|set_solver..|done|done|done|lia|set_solver|].
    rewrite size_empty in Hres. destruct (N.leb_spec (majority n) (1 + N.of_nat 0)) as [Hone|Hmany].
    + destruct Hres as [Hr' Hp']. exists c1, n1, k1. split_and!; [done..|lia|done|].
      pose proof (reachable_base c j _ Hc Hp) as Hb. simpl in Hb.
      rewrite (majority_size _ _ _ Hb) in Hone.
      assert (size (dom (procs c)) ≤ 1)%nat as Hsingle.
      { destruct (Nat.le_gt_cases (size (dom (procs c))) 1); [done|].
        assert (1 ≤ N.of_nat (size (dom (procs c))) / 2); [|lia].
        apply N.div_le_lower_bound; lia. }
      intros q pq HqQ Hq. destruct (decide (q = j)) as [->|Hne]; [by simplify_eq|].
      exfalso. assert ({[q; j]} ⊆ dom (procs c)) as Hsub.
      { destruct HQ as [HQ _]. set_solver. }
      apply subseteq_size in Hsub. rewrite size_union, !size_singleton in Hsub by set_solver. lia.
    + destruct Hres as [Hr' Hp'].
      assert (dom (procs c1) = dom (procs c)) as Hdom by (by eapply can_dom).
      destruct (IH c1 n1 k1) as (c' & n' & k' & Hcan' & Hp2 & Hr2 & Hd2 & Hl2 & Ht2 & Hun2 & Hle2);
        [by eapply can_reachable|by rewrite Hdom|done|congruence|done|lia| |].
      * intros q HqQ Hqj. destruct (Hcov q HqQ Hqj) as (pq & Hpq & Hle & Hcv).
        destruct (Hun q pq Hqj Hpq) as (pq1 & Hpq1 & Hlq & Htq). exists pq1.
        split_and!; [done|lia|]. unfold covers, ballot_paper, up_to_date in *. simpl in *.
        by rewrite Hlq, Hl.
      * exists c', n', k'. split_and!; [by etrans|done..|by rewrite Hl2|lia| |done].
        intros q pq Hqj Hpq. destruct (Hun q pq Hqj Hpq) as (pq1 & Hpq1 & Hlq & Htq).
        destruct (Hun2 q pq1 Hqj Hpq1) as (pq2 & Hpq2 & Hlq2 & Htq2). exists pq2.
        split_and!; [done|congruence|lia].
Qed.

End group.
