(* ===== verification/Availability.v ===== *)
(** The second half of what a quorum can do by itself: the leader that it has elected
    ([Progress.v]) brings the logs of the quorum up to its own, one member at a time,
    and commits and applies a new command. *)
From S2P Require Import Prelude Types ConfigGen RaftState RaftNode RaftNodeFacts Cluster RaftSpec.
From S2P Require Import Refinement RefinementSteps Simulation LogSpec LogInv LogSafety.
From S2P Require Import Races Safety Replication Progress.

#[local] Open Scope N_scope.

(** ** The connections of a node *)

(** The stubs and the workers, which only [connect_peers] makes. *)
Definition wiring (n : Raft) : list (N * bool) * gset N := (peers_ n, peer_workers_ n).

(** These, and how far the node has committed and applied: only an AppendEntries request
    and the replies of a round move the latter. *)
Definition core (n : Raft) : list (N * bool) * gset N * N * N :=
  (wiring n, commit_index_ n, last_applied_ n).

Lemma adopt_term_core t r n : core (adopt_term t r n) = core n.
Proof. unfold adopt_term. by destruct (_ <? _). Qed.

Lemma handle_request_vote_core q r n n' rep :
  handle_request_vote q r n = Some (n', rep) → core n' = core n.
Proof.
  unfold handle_request_vote. destruct (_ <? _); intros H; [by simplify_eq|]. simpl in H.
  undo_bind. destruct (_ && _); simplify_eq; [|apply adopt_term_core].
  rewrite <- (adopt_term_core (rvq_term q) r n). done.
Qed.

Lemma advance_commit_wiring q n n' : advance_commit q n = Some n' → wiring n' = wiring n.
Proof. unfold advance_commit. intros H. undo_bind. case_match; simplify_eq. by destruct (_ <? _). Qed.

Lemma follow_leader_wiring q r n : wiring (follow_leader q r n) = wiring n.
Proof. unfold follow_leader. case_decide; by destruct (_ <? _). Qed.

Lemma handle_append_entries_wiring q r n n' rep :
  handle_append_entries q r n = Some (n', rep) → wiring n' = wiring n.
Proof.
  unfold handle_append_entries. destruct (_ <? _); intros H; [by simplify_eq|]. simpl in H.
  rewrite <- (follow_leader_wiring q r n). destruct (_ <? _); [by simplify_eq|].
  undo_bind. case_match; simplify_eq; [done|]. undo_bind. case_match. undo_bind.
  by match goal with H : advance_commit _ _ = _ |- _ => apply advance_commit_wiring in H as -> end.
Qed.

Lemma build_requests_core ps : ∀ n n' qs,
  build_requests ps n = Some (n', qs) → core n' = core n.
Proof.
  induction ps as [|[q [|]] ps IH]; intros n n' qs H; simpl in H; [by simplify_eq| |by eapply IH].
  undo_bind. repeat case_match; undo_bind; simplify_eq. repeat case_match; undo_bind; simplify_eq.
  etrans; [by eapply IH|].
  match goal with H : build_request _ _ = _ |- _ => unfold build_request in H end.
  undo_bind. by case_match.
Qed.

Lemma process_results_wiring r rs : ∀ n k,
  match process_results r (n, k) rs with inl n' | inr (n', _) => wiring n' = wiring n end.
Proof.
  induction rs as [|res rs IH]; intros n k; [done|]. simpl.
  destruct (negb _); [apply IH|]. destruct (_ <? _); [done|].
  destruct (success _); simpl; match goal with |- context [process_results r (?n', ?k') rs] =>
    specialize (IH n' k'); by destruct (process_results r (n', k') rs) as [|[]] end.
Qed.

Lemma commit_scan_wiring fuel : ∀ idx n n', commit_scan fuel idx n = Some n' → wiring n' = wiring n.
Proof.
  induction fuel as [|fuel IH]; intros idx n n' H; simpl in H;
    (destruct (_ <? _); [|by simplify_eq]); [done|].
  undo_bind. destruct (_ && _); [by simplify_eq|by eapply IH].
Qed.

Lemma renew_lease_wiring k r now n n' : renew_lease k r now n = Some n' → wiring n' = wiring n.
Proof.
  unfold renew_lease. intros H. destruct (_ <=? _).
  - destruct (_ <? _); [|by simplify_eq]. undo_bind. by case_match; simplify_eq.
  - by case_match; simplify_eq.
Qed.

Lemma process_replies_wiring rs r now n n' out :
  process_replies rs r now n = Some (n', out) → wiring n' = wiring n.
Proof.
  unfold process_replies. case_decide; [|by intros; simplify_eq].
  pose proof (process_results_wiring r rs n 1) as Hr.
  destruct (process_results r (n, 1) rs) as [n1|[n1 k1]]; [by intros [= <- <-]|].
  intros Hrep. revert Hr. undo_bind. repeat case_match; undo_bind; simplify_eq. intros Hr.
  match goal with H : renew_lease _ _ _ _ = _ |- _ => rewrite (renew_lease_wiring _ _ _ _ _ H) end.
  etrans; [|exact Hr]. transitivity (wiring x); [done|]. eapply (commit_scan_wiring _ _ n1); eassumption.
Qed.

Lemma step_core l c c' i p' :
  step l c = Next c' → procs c' !! i = Some p' →
  ∃ p, procs c !! i = Some p ∧
    (core (node p') = core (node p) ∨
     (∃ src k q r rep, l = LDeliverAE src i k q r ∧
        handle_append_entries q r (node p) = Some (node p', rep)) ∨
     (∃ cv calls r now out, ctl p = PcHbRpc cv calls ∧
        process_replies (if_slot <$> calls) r now (node p) = Some (node p', out))).
Proof.
  intros Hs Hp'. unfold step in Hs. destruct (procs c !! actor l) as [p|] eqn:Hp; [|done].
  pose (goal (p p' : proc) := core (node p') = core (node p) ∨
     (∃ src k q r rep, l = LDeliverAE src i k q r ∧
        handle_append_entries q r (node p) = Some (node p', rep)) ∨
     (∃ cv calls r now out, ctl p = PcHbRpc cv calls ∧
        process_replies (if_slot <$> calls) r now (node p) = Some (node p', out))).
  change (∃ p, procs c !! i = Some p ∧ goal p p').
  assert (∀ p1, procs c' = <[actor l := p1]> (procs c) → (actor l = i → goal p p1) →
            ∃ p, procs c !! i = Some p ∧ goal p p') as Hupd.
  { intros p1 E Hw. rewrite E, lookup_insert in Hp'. case_decide as Hi.
    - exists p. rewrite <- Hi. split; [done|]. injection Hp' as <-. by apply Hw.
    - exists p'. split; [done|]. by left. }
  destruct l; cbn [thread_step actor] in Hs, Hupd;
    try (destruct (ctl p); try done; case_guards; simplify_eq; by eapply Hupd; [|left]).
  - destruct (ctl p); try done. destruct (is_dead _); [done|]. unfold run_top in Hs.
    case_decide; simplify_eq; by eapply Hupd; [|left].
  - destruct (ctl p); try done. unfold start_election in Hs. case_guards.
    + destruct (vote_request _) in Hs; simplify_eq. by eapply Hupd; [|left].
    + by eapply Hupd; [|left].
  - destruct (ctl p); try done. destruct todo; simplify_eq; by eapply Hupd; [|left].
  - destruct (ctl p); try done. destruct (last_term _); simplify_eq. by eapply Hupd; [|left].
  - destruct (ctl p); try done. unfold finish_election in Hs. case_guards; simplify_eq; by eapply Hupd; [|left].
  - destruct (ctl p); try done. unfold heartbeat_requests in Hs. case_decide; simpl in Hs.
    + destruct (build_requests _ _) as [[n' qs]|] eqn:Hq; [|done]. simpl in Hs.
      destruct (post_calls _ _ _). simplify_eq. eapply Hupd; [done|left]. by eapply build_requests_core.
    + simplify_eq. by eapply Hupd; [|left].
  - destruct (ctl p) eqn:Hctl; try done. destruct (forallb _ _); [|done].
    destruct (process_replies _ _ _ _) as [[n' out]|] eqn:Hq; simplify_eq.
    eapply Hupd; [done|]. intros ->. right; right. by eexists _, _, _, _, _.
  - destruct (ctl p); try done. destruct to_apply; simplify_eq; by eapply Hupd; [|left].
  - unfold deliver_vote in Hs. case_bool_decide; [|done].
    destruct (handle_request_vote _ _ _) as [[n' rep]|] eqn:Hq; simplify_eq.
    eapply Hupd; [done|left]. by eapply handle_request_vote_core.
  - unfold deliver_append in Hs. case_bool_decide; [|done].
    destruct (handle_append_entries _ _ _) as [[n' rep]|] eqn:Hq; simplify_eq.
    eapply Hupd; [done|]. intros ->. right; left. by eexists _, _, _, _, _.
  - simplify_eq. eapply Hupd; [done|left]. unfold propose. by case_decide.
Qed.

(** Every peer has a worker. *)
Lemma reachable_workers configs r c i p :
  full_mesh configs → reachable configs r c → procs c !! i = Some p →
  ∀ q, q ∈ (peers_ (node p)).*1 → q ∈ peer_workers_ (node p).
Proof.
  intros Hmesh Hc. revert i p. induction Hc as [|l c c' Hc IH Hd Hs]; intros i p Hp q.
  - apply boot_lookup in Hp as (cfg & Hin & <- & ->); [|apply Hmesh]. simpl.
    intros Hq. apply list_elem_of_fmap in Hq as ([q' b] & -> & Hq). simpl in *.
    apply list_elem_of_fmap in Hq as ([q1 a] & [= -> ->] & Hq). apply elem_of_map_to_list in Hq.
    apply elem_of_union_r. by apply elem_of_dom_2 in Hq.
  - destruct (step_core l c c' i p Hs Hp) as (p0 & Hp0 & Hstep).
    assert (wiring (node p) = wiring (node p0)) as E.
    { destruct Hstep as [E|[(? & ? & ? & ? & ? & _ & E)|(? & ? & ? & ? & ? & _ & E)]].
      - exact (f_equal (λ x, x.1.1) E).
      - by eapply handle_append_entries_wiring.
      - by eapply process_replies_wiring. }
    injection E as -> ->. by apply (IH i p0).
Qed.

(** What is committed is applied, or handed to [apply]. *)
Lemma reachable_applied configs r c i p :
  full_mesh configs → reachable configs r c → procs c !! i = Some p →
  last_applied_ (node p) = commit_index_ (node p).
Proof.
  intros Hmesh Hc. revert i p. induction Hc as [|l c c' Hc IH Hd Hs]; intros i p Hp.
  - apply boot_lookup in Hp as (cfg & Hin & <- & ->); [done|apply Hmesh].
  - destruct (reachable_inv configs r c Hmesh Hc) as [Hinv _].
    destruct (step_core l c c' i p Hs Hp) as (p0 & Hp0 & Hstep). specialize (IH i p0 Hp0).
    destruct (step_spec configs r Hmesh c l c' Hc Hd Hs) as [Ha Hst].
    pose proof (spec_commit_mono _ _ Ha Hst i i _ _ (abs_lookup c i p0 Hp0)
                  (abs_lookup c' i p Hp) eq_refl) as Hmono. simpl in Hmono.
    destruct Hstep as [E|[(src & k & q & r' & rep & -> & E)|(cv & calls & r' & now & out & Hctl & E)]].
    + injection E. congruence.
    + unfold disciplined in Hd. simpl in Hd. rewrite Hp0 in Hd. apply N.ltb_lt in Hd.
      rewrite handle_append_entries_eq in E; [|lia|done].
      destruct (_ <? _); [by injection E as <- _|].
      destruct (follow_leader_frame q r' (node p0)) as (_ & Hcm & Hla & _).
      destruct (prev_ok _ _); injection E as En _; rewrite <- En in *; [simpl in *; lia|congruence].
    + destruct (decide (role_ (node p0) = LEADER)) as [Hr|Hr].
      * pose proof (replies_spec c i p0 Hinv Hp0 cv calls r' now Hctl Hr) as Hrep. rewrite E in Hrep.
        destruct Hrep as (_ & _ & [[Hdep _]|Hrp]).
        -- destruct Hdep as (_ & _ & _ & _ & _ & Hci & Hla & _). congruence.
        -- rewrite (rp_applied _ _ _ Hrp). lia.
      * unfold process_replies in E. rewrite decide_False in E by done. by injection E as <- _.
Qed.

(** ** The requests of a round *)

(** The calls of a round when every peer has a worker. *)
Lemma post_calls_posted n qs : ∀ k calls ms,
  post_calls n k qs = (calls, ms) → (∀ q, q ∈ qs → pq_peer_id q ∈ peer_workers_ n) →
  calls = imap (λ m q, mkInflight (k + N.of_nat m)
                 (mkPeerResult (pq_peer_id q) (pq_prev_idx q) (pq_entries_sent q)
                    AppendEntriesReply_default false) false) qs ∧
  ∀ m q, qs !! m = Some q →
    MAppendEntries (raft_id n) (pq_peer_id q) (k + N.of_nat m) (pq_request q) ∈ ms.
Proof.
  induction qs as [|q qs IH]; intros k calls ms H Hw; simpl in H; [by simplify_eq|].
  destruct (post_calls n (k + 1) qs) as [calls' ms'] eqn:Hrec. simplify_eq.
  destruct (IH _ _ _ Hrec) as [-> Hms]; [intros; apply Hw; by right|].
  unfold result_slot. rewrite bool_decide_true by (apply Hw; by left). split.
  - simpl. rewrite N.add_0_r. f_equal. apply imap_ext. intros m x _. simpl. f_equal. lia.
  - intros [|m] q' Hq'; simpl in Hq'; [simplify_eq; rewrite N.add_0_r; by left|].
    right. specialize (Hms m q' Hq'). by replace (k + N.of_nat (S m)) with (k + 1 + N.of_nat m) by lia.
Qed.

(** ** Silent results *)

Definition silent (s : PeerResult) : Prop := ps_rpc_ok s = false.

Lemma process_silent r st rs : Forall silent rs → process_results r st rs = inr st.
Proof.
  intros Hs. induction Hs as [|s rs Hx _ IH]; [done|]. destruct st as [n k]. simpl.
  by rewrite Hx.
Qed.

Lemma process_results_app r st rs rs' :
  process_results r st (rs ++ rs') =
  match process_results r st rs with inl n => inl n | inr st => process_results r st rs' end.
Proof.
  revert st. induction rs as [|s rs IH]; intros st; [done|]. simpl.
  by destruct (process_result r st s).
Qed.

(** A leader that heard from a majority as late as now does not step down for silence. *)
Lemma renew_lease_now k r n n' :
  renew_lease k r (last_majority_at_ n) n = Some n' → role_ n' = role_ n.
Proof.
  unfold renew_lease. intros H. destruct (_ <=? _).
  - destruct (_ <? _); [|by simplify_eq]. undo_bind. by case_match; simplify_eq.
  - rewrite Z.sub_diag in H. destruct (Z.ltb_spec (ms (election_timeout_ n)) 0) as [Hlt|_];
      [|by simplify_eq]. unfold ms in Hlt. lia.
Qed.

Lemma process_now rs r n n1 k1 n' out :
  role_ n = LEADER → log_fits (log_ n) → commit_index_ n ≤ last_applied_ n →
  process_results r (n, 1) rs = inr (n1, k1) → same_but_indices n n1 → next_in_range n1 →
  process_replies rs r (last_majority_at_ n) n = Some (n', out) →
  replies_processed n1 n' out ∧ matchIndex_ n' = matchIndex_ n1 ∧
  nextIndex_ n' = nextIndex_ n1 ∧ role_ n' = LEADER.
Proof.
  intros Hr Hfit Hla Hres Hs Hnx H. unfold process_replies in H. rewrite decide_True, Hres in H by done.
  pose proof (commit_and_lease_spec k1 r (last_majority_at_ n) n1) as Hspec.
  rewrite H in Hspec. destruct Hspec as (Hrp & Hm & Hn); [by rewrite Hs|by rewrite Hs|done|by rewrite Hs|].
  split_and!; [done..|]. clear Hrp Hm Hn.
  destruct (scan_commit_spec n1) as (ci & Hscan & _); [by rewrite Hs|]. rewrite Hscan in H. simpl in H.
  destruct (drain _ _ _) as [[la rest]|]; [|done]. simpl in H. apply bind_Some in H as (n2 & Hl & [= <- _]).
  replace (last_majority_at_ n) with (last_majority_at_ (set_last_applied_ la (set_commit_index_ ci n1)))
    in Hl by (by rewrite Hs).
  rewrite (renew_lease_now _ _ _ _ Hl). simpl. by rewrite Hs.
Qed.

(** ** A round of heartbeats *)

(** The calls still open fail. *)
Definition hung_up (ks : list N) (x : inflight) : inflight :=
  mkInflight (if_rpc x) (if_slot x) (if_done x || bool_decide (if_rpc x ∈ ks)).

Lemma complete_hung_up k ks x : hung_up ks (complete k None x) = hung_up (k :: ks) x.
Proof.
  unfold hung_up, complete. destruct x as [m s d]. simpl.
  destruct (N.eqb_spec m k) as [->|Hne]; destruct d; simpl; f_equal; try done.
  - symmetry. apply bool_decide_eq_true. by left.
  - apply bool_decide_ext. set_solver.
Qed.

Section group.
Context (Q : gset N) (j : N) (Hj : j ∈ Q).

Lemma hang_up n cv k ks : ∀ c calls,
  procs c !! j = Some (mkProc n (PcHbRpc cv calls) k) →
  ∃ c', can Q c c' ∧ procs c' = <[j := mkProc n (PcHbRpc cv (hung_up ks <$> calls)) k]> (procs c).
Proof using Hj.
  induction ks as [|k0 ks IH]; intros c calls Hp.
  - exists c. split; [done|]. rewrite insert_id; [done|]. rewrite Hp. do 3 f_equal.
    symmetry. etrans; [|apply list_fmap_id]. apply list_fmap_ext. intros m [? ? d] _. unfold hung_up. simpl.
    f_equal. by destruct d.
  - destruct (IH (upd j (mkProc n (PcHbRpc cv (complete k0 None <$> calls)) k) c)
                 (complete k0 None <$> calls)) as (c' & Hcan & Hps); [apply procs_upd|].
    exists c'. split.
    + etrans; [|exact Hcan]. eapply (can_thread Q (LHbFail j k0) j); [done..|always].
    + rewrite Hps. simpl. rewrite insert_insert_eq. do 3 f_equal. rewrite <- list_fmap_compose.
      apply list_fmap_ext. intros m x _. apply complete_hung_up.
Qed.

(** What was committed is handed over, and the thread returns to its top. *)
Lemma hand_over cv k out : ∀ c n,
  procs c !! j = Some (mkProc n (PcApply cv out) k) →
  ∃ c', can Q c c' ∧
    procs c' = <[j := mkProc (set_ready_queue (ready_queue n ++ out) n) PcTop k]> (procs c).
Proof using Hj.
  induction out as [|a out IH]; intros c n Hp.
  - replace (set_ready_queue (ready_queue n ++ []) n) with n by (rewrite app_nil_r; by destruct n).
    destruct cv.
    + eexists (upd j _ c). split; [|reflexivity].
      thread (LApply j) of j. simpl.
      eapply (can_thread Q (LCv j) j); [done|apply procs_upd|done|simpl; by rewrite upd_upd|always].
    + eexists. split; [eapply (can_thread Q (LApply j) j); [done..|reflexivity|always]|reflexivity].
  - destruct (IH (upd j (mkProc (apply a n) (PcApply cv out) k) c) (apply a n)) as (c' & Hcan & Hps);
      [apply procs_upd|].
    exists c'. split.
    + etrans; [|exact Hcan].
      eapply (can_thread Q (LApply j) j); [exact Hj|exact Hp|done|reflexivity|always].
    + rewrite Hps. simpl. rewrite insert_insert_eq, <- app_assoc. done.
Qed.

Context (configs : list Config) (r : N) (Hmesh : full_mesh configs).

Lemma close_round c n n1 conf cv calls k :
  reachable configs r c → procs c !! j = Some (mkProc n (PcHbRpc cv calls) k) →
  role_ n = LEADER → forallb if_done calls = true →
  process_results 0 (n, 1) (if_slot <$> calls) = inr (n1, conf) →
  same_but_indices n n1 → next_in_range n1 →
  ∃ c' n' out, can Q c c' ∧
    procs c' = <[j := mkProc (set_ready_queue (ready_queue n' ++ out) n') PcTop k]> (procs c) ∧
    replies_processed n1 n' out ∧ matchIndex_ n' = matchIndex_ n1 ∧
    nextIndex_ n' = nextIndex_ n1 ∧ role_ n' = LEADER.
Proof using Hj Hmesh.
  intros Hc Hp Hr Hdone Hres Hs Hnx. pose proof (reachable_base configs r Hmesh c j _ Hc Hp) as Hb.
  destruct (reachable_inv configs r c Hmesh Hc) as [Hinv _].
  destruct (process_defined c j (mkProc n (PcHbRpc cv calls) k) cv calls 0 (last_majority_at_ n) Hinv) as [[n' out] Hrep];
    [by eapply reachable_commits|done|done|]. simpl in Hrep.
  destruct (process_now _ _ _ _ _ _ _ Hr (bi_fits _ _ _ Hb) (bi_applied _ _ _ Hb) Hres Hs Hnx Hrep)
    as (Hrp & Hm & Hn & Hr').
  destruct (hand_over cv k out (upd j (mkProc n' (PcApply cv out) k) c) n') as (c' & Hcan & Hps);
    [apply procs_upd|].
  exists c', n', out. split_and!; [|by rewrite Hps; simpl; rewrite insert_insert_eq|done..].
  etrans; [|exact Hcan].
  eapply (can_thread Q (LProcess j 0 (last_majority_at_ n)) j); [done..| |always].
  simpl. by rewrite Hdone, Hrep.
Qed.

(** The request to [q] in a round of leader [n], and the slot of its result. *)
Record request_to (n : Raft) (q : N) (req : AppendEntriesRequest) (s : PeerResult) : Prop := {
  rt_prev : prevLogIndex req = next_of n q - 1;
  rt_entries : entries req = drop (N.to_nat (next_of n q - 1)) (log_ n);
  rt_term : aeq_term req = current_term_ n;
  rt_slot : s = mkPeerResult q (next_of n q - 1) (vsize (entries req)) AppendEntriesReply_default false }.

Lemma next_of_range n q : next_in_range n → 1 ≤ next_of n q ≤ vsize (log_ n) + 1.
Proof using.
  intros Hnx. unfold next_of. destruct (nextIndex_ n !! q) as [v|] eqn:Hq; simpl; [|lia].
  exact (Hnx q v Hq).
Qed.

(** The requests that [send_heartbeats] builds. *)
Lemma built_request n pq :
  request_of n pq →
  request_to n (pq_peer_id pq) (pq_request pq)
    (mkPeerResult (pq_peer_id pq) (pq_prev_idx pq) (pq_entries_sent pq) AppendEntriesReply_default false).
Proof using.
  intros (Hidx & _ & Hprev & Hes & Hsent & _ & Ht & _).
  split; rewrite ?Hprev, ?Hes, ?Hidx; try done. rewrite Hsent, Hes. by rewrite Hidx.
Qed.

Lemma open_round c n cv k :
  reachable configs r c → procs c !! j = Some (mkProc n (PcHb cv) k) → role_ n = LEADER →
  ∃ c' n' calls k', can Q c c' ∧
    procs c' = <[j := mkProc n' (PcHbRpc cv calls) k']> (procs c) ∧ same_but_next n n' ∧
    next_in_range n' ∧ NoDup (if_rpc <$> calls) ∧ Forall (silent ∘ if_slot) calls ∧
    ∀ q, q ∈ (peers_ n).*1 → ∃ x req, x ∈ calls ∧ if_done x = false ∧
      MAppendEntries j q (if_rpc x) req ∈ net c' ∧ request_to n q req (if_slot x) ∧
      nextIndex_ n' !! q = Some (next_of n q).
Proof using Hj Hmesh.
  intros Hc Hp Hr. pose proof (reachable_base configs r Hmesh c j _ Hc Hp) as Hb. simpl in Hb.
  destruct (reachable_inv configs r c Hmesh Hc) as [Hinv _].
  destruct (pi_lead _ _ _ _ _ (ci_procs c Hinv j _ Hp) Hr) as (Hnx & _). simpl in Hnx.
  destruct (build_requests_spec (peers_ n) n (bi_fits _ _ _ Hb) Hnx)
    as (n' & qs & Hq & Hs & Hnx' & Hreqs & Hids & Hdom & Hof).
  assert (pq_peer_id <$> qs = (peers_ n).*1) as Hids'.
  { rewrite Hids. f_equal. pose proof (bi_stubs _ _ _ Hb) as Hst. clear -Hst.
    induction Hst as [|x l Hx _ IH]; [done|]. by rewrite filter_cons_True, IH. }
  assert (wiring n' = wiring n) as Hw by (by rewrite Hs).
  assert (∀ q, q ∈ qs → pq_peer_id q ∈ peer_workers_ n') as Hwork.
  { intros q Hin. injection Hw as _ ->.
    apply (reachable_workers configs r c j _ Hmesh Hc Hp). simpl. rewrite <- Hids'.
    by apply list_elem_of_fmap_2. }
  destruct (post_calls n' k qs) as [calls ms] eqn:Hpost.
  destruct (post_calls_spec n' qs _ _ _ Hpost) as (_ & _ & Hcalls).
  destruct (post_calls_posted n' qs _ _ _ Hpost Hwork) as [Himap Hms].
  assert (raft_id n' = j) as Hid by (rewrite Hs; apply Hb). rewrite Hid in Hms.
  eexists _, n', calls, _. split; [|split; [|split; [|split; [|split; [|split]]]]].
  - eapply (can_thread Q (LHb j) j); [done..| |always].
    cbn [thread_step ctl node next_rpc]. unfold heartbeat_requests.
    rewrite decide_True, Hq by done. simpl. rewrite Hpost. reflexivity.
  - reflexivity.
  - done.
  - done.
  - rewrite Himap. clear. apply NoDup_alt. intros a b x.
    rewrite !list_lookup_fmap, !list_lookup_imap.
    destruct (qs !! a), (qs !! b); simpl; intros; simplify_eq. lia.
  - apply Forall_forall. intros x (q & _ & E & _)%Hcalls. unfold silent, compose. rewrite E.
    unfold result_slot. by case_bool_decide.
  - intros q Hin. rewrite <- Hids' in Hin. apply list_elem_of_fmap in Hin as (pq & -> & Hin).
    apply list_elem_of_lookup in Hin as [m Hm].
    assert (pq ∈ qs) as Hin by (by eapply list_elem_of_lookup_2).
    pose proof (filled_in n n' (pq_peer_id <$> qs) (pq_peer_id pq) Hdom Hof Hs) as Hnext.
    rewrite decide_True in Hnext by (by apply list_elem_of_fmap_2).
    rewrite Forall_forall in Hreqs. pose proof (built_request n pq (Hreqs pq Hin)) as Hreq.
    eexists (mkInflight (k + N.of_nat m) (mkPeerResult _ _ _ _ false) false), (pq_request pq).
    split; [|split_and!; [done|apply elem_of_app; left; exact (Hms m pq Hm)|exact Hreq|done]].
    apply (list_elem_of_lookup_2 _ m). by rewrite Himap, list_lookup_imap, Hm.
Qed.

(** ** What rounds keep *)

(** The last entry, once applied, is in the ready queue. *)
Definition answered (n : Raft) : Prop :=
  ∀ e, list.last (log_ n) = Some e → vsize (log_ n) ≤ last_applied_ n →
       mkApplyResult true (command e) (vsize (log_ n)) ∈ ready_queue n.

Record steady (n n' : Raft) : Prop := {
  st_role : role_ n' = LEADER;
  st_log : log_ n' = log_ n;
  st_term : current_term_ n' = current_term_ n;
  st_dead : is_dead n' = is_dead n;
  st_answered : answered n → answered n' }.

Lemma last_between log la ci e :
  list.last log = Some e → la < vsize log ≤ ci →
  mkApplyResult true (command e) (vsize log) ∈ results_between log la ci.
Proof using.
  intros Hl Hr. unfold results_between, vsize in *. apply list_elem_of_lookup.
  exists (length log - 1 - N.to_nat la)%nat. rewrite lookup_drop, lookup_take_lt by lia.
  unfold results_of. rewrite list_lookup_imap.
  replace (N.to_nat la + (length log - 1 - N.to_nat la))%nat with (pred (length log)) by lia.
  rewrite <- last_lookup, Hl. simpl. do 2 f_equal. lia.
Qed.

Lemma round_steady n n1 n' out :
  same_but_indices n n1 → replies_processed n1 n' out → role_ n' = LEADER →
  steady n (set_ready_queue (ready_queue n' ++ out) n').
Proof using.
  intros Hs Hrp Hr. assert (log_ n1 = log_ n) as Hl by (by rewrite Hs).
  split; cbn [role_ log_ current_term_ set_ready_queue].
  - done.
  - by rewrite (rp_log _ _ _ Hrp).
  - rewrite (rp_term _ _ _ Hrp). by rewrite Hs.
  - unfold is_dead. simpl. rewrite (rp_dead _ _ _ Hrp). by rewrite Hs.
  - unfold answered. simpl. rewrite (rp_log _ _ _ Hrp), (rp_applied _ _ _ Hrp), Hl, (rp_queue _ _ _ Hrp).
    intros Ha e He Hle. apply elem_of_app.
    assert (ready_queue n1 = ready_queue n) as -> by (by rewrite Hs).
    assert (last_applied_ n1 = last_applied_ n) as Hla by (by rewrite Hs). rewrite Hla in Hle.
    destruct (N.le_gt_cases (vsize (log_ n)) (last_applied_ n)) as [?|Hgt]; [left; by apply Ha|right].
    rewrite (rp_out _ _ _ Hrp), Hl, Hla. apply last_between; [done|lia].
Qed.

(** The rest of a round: the calls that are open fail, the results are processed. *)
Lemma finish_round c n n1 conf cv calls k :
  reachable configs r c → procs c !! j = Some (mkProc n (PcHbRpc cv calls) k) →
  role_ n = LEADER → process_results 0 (n, 1) (if_slot <$> calls) = inr (n1, conf) →
  same_but_indices n n1 → next_in_range n1 →
  ∃ c' n', can Q c c' ∧ procs c' = <[j := mkProc n' PcTop k]> (procs c) ∧ steady n n' ∧
    peers_ n' = peers_ n ∧ matchIndex_ n' = matchIndex_ n1 ∧ nextIndex_ n' = nextIndex_ n1 ∧
    ∀ idx, commit_index_ n' < idx ≤ vsize (log_ n) → ¬ committable n' idx.
Proof using Hj Hmesh.
  intros Hc Hp Hr Hres Hs Hnx.
  destruct (hang_up n cv k (if_rpc <$> calls) c calls Hp) as (c2 & Hcan2 & Hps2).
  assert (reachable configs r c2) as Hc2 by (by eapply can_reachable).
  assert (procs c2 !! j = Some (mkProc n (PcHbRpc cv (hung_up (if_rpc <$> calls) <$> calls)) k)) as Hp2
    by (by rewrite Hps2, lookup_insert_eq).
  destruct (close_round c2 n n1 conf cv (hung_up (if_rpc <$> calls) <$> calls) k)
    as (c3 & n' & out & Hcan3 & Hps3 & Hrp & Hm & Hn & Hr'); [done..| | |done|done|].
  - apply forallb_forall. intros x Hx%list_elem_of_In%list_elem_of_fmap. destruct Hx as (y & -> & Hy).
    simpl. rewrite bool_decide_true by (by apply list_elem_of_fmap_2). by rewrite orb_true_r.
  - rewrite <- Hres. f_equal. rewrite <- list_fmap_compose. by apply list_fmap_ext.
  - exists c3, (set_ready_queue (ready_queue n' ++ out) n'). split_and!; [| | | |done|done|].
    + by etrans.
    + by rewrite Hps3, Hps2, insert_insert_eq.
    + by eapply round_steady.
    + simpl. rewrite (rp_peers _ _ _ Hrp). by rewrite Hs.
    + simpl. intros idx Hidx.
      assert (committable (set_ready_queue (ready_queue n' ++ out) n') idx → committable n' idx) as Hcm by done.
      intros Hx%Hcm. revert Hx. apply (rp_greatest _ _ _ Hrp).
      * rewrite Hs. exact (reachable_commits configs r c2 Hmesh Hc2 j _ Hp2).
      * rewrite (rp_log _ _ _ Hrp). by rewrite Hs.
Qed.

Lemma steady_next n n1 n' : same_but_next n n1 → steady n1 n' → steady n n'.
Proof using.
  intros Hs [E1 E2 E3 E4 E5].
  split; [done|by rewrite E2, Hs|by rewrite E3, Hs|by rewrite E4, Hs|].
  intros Ha. apply E5. by rewrite Hs.
Qed.

(** A round in which every call fails. *)
Lemma silent_round c n cv k :
  reachable configs r c → procs c !! j = Some (mkProc n (PcHb cv) k) → role_ n = LEADER →
  ∃ c' n' k', can Q c c' ∧ procs c' = <[j := mkProc n' PcTop k']> (procs c) ∧ steady n n' ∧
    peers_ n' = peers_ n ∧ matchIndex_ n' = matchIndex_ n ∧
    ∀ idx, commit_index_ n' < idx ≤ vsize (log_ n) → ¬ committable n' idx.
Proof using Hj Hmesh.
  intros Hc Hp Hr.
  destruct (open_round c n cv k Hc Hp Hr) as (c1 & n1 & calls & k1 & Hcan1 & Hps1 & Hs1 & Hnx1 & _ & Hsil & _).
  destruct (finish_round c1 n1 n1 1 cv calls k1)
    as (c' & n' & Hcan & Hps & Hst & Hpe & Hm & _ & Hgr);
    [by eapply can_reachable|by rewrite Hps1, lookup_insert_eq|by rewrite Hs1| |
     apply same_but_indices_refl|done|].
  { apply process_silent. by apply Forall_fmap. }
  exists c', n', k1. split_and!; [by etrans|by rewrite Hps, Hps1, insert_insert_eq|by eapply steady_next| | |].
  - rewrite Hpe. by rewrite Hs1.
  - rewrite Hm. by rewrite Hs1.
  - intros idx Hidx. apply Hgr. by rewrite Hs1.
Qed.

(** A round in which only [q] answers. *)
Lemma process_one r' n s l1 l2 :
  Forall silent l1 → Forall silent l2 →
  process_results r' (n, 1) (l1 ++ s :: l2) =
  match process_result r' (n, 1) s with inl n' => inl n' | inr st => inr st end.
Proof using.
  intros H1 H2. rewrite process_results_app, (process_silent _ _ l1 H1). cbn [process_results].
  destruct (process_result r' (n, 1) s); [done|]. by apply process_silent.
Qed.

(** What the answer does to the indices of the leader. *)
Lemma process_answer n q req s b :
  log_fits (log_ n) → next_in_range n → request_to n q req s →
  nextIndex_ n !! q = Some (next_of n q) → (b = false → 1 < next_of n q) →
  ∃ n' k, process_result 0 (n, 1) (rpc_result (Some (mkAppendEntriesReply (current_term_ n) b)) s) =
            inr (n', k) ∧
    same_but_indices n n' ∧ next_in_range n' ∧
    if b then matchIndex_ n' = <[q := vsize (log_ n)]> (matchIndex_ n)
    else matchIndex_ n' = matchIndex_ n ∧ next_of n' q = next_of n q - 1.
Proof using.
  intros Hfit Hnx [Hprev Hes _ ->] Hnext Hb. unfold log_fits in Hfit.
  destruct (next_of_range n q Hnx) as [Hlo Hhi].
  assert (add64 (next_of n q - 1) (vsize (entries req)) = vsize (log_ n)) as Hsum.
  { assert (vsize (entries req) = vsize (log_ n) - (next_of n q - 1)) as ->
      by (rewrite Hes; unfold vsize; rewrite length_drop; lia).
    rewrite add64_small; lia. }
  unfold process_result. cbn [rpc_result ps_rpc_ok ps_reply aer_term success ps_peer_id ps_prev_idx
    ps_entries_sent negb]. rewrite N.ltb_irrefl, Hnext. cbn [default from_option id].
  rewrite Hsum, (add64_small (vsize (log_ n)) 1) by lia. destruct b.
  - eexists _, _. split; [reflexivity|]. split_and!; [done| |done].
    apply map_Forall_insert_2; [simpl; lia|done].
  - destruct (N.ltb_spec 1 (next_of n q)) as [Hgt|?]; [|specialize (Hb eq_refl); lia].
    rewrite (sub64_small (next_of n q) 1) by lia. eexists _, _. split; [reflexivity|]. split_and!; [done| |done|].
    + apply map_Forall_insert_2; [simpl; lia|done].
    + unfold next_of at 1. simpl. by rewrite lookup_insert_eq.
Qed.

(** The answer of a follower whose term is not later. *)
Lemma follower_answers n q req s m :
  request_to n q req s → commit_index_ m ≤ last_applied_ m →
  vsize (log_ m) + vsize (log_ n) + 1 < pow64 → current_term_ m ≤ current_term_ n →
  ∃ m' b, handle_append_entries req 0 m = Some (m', mkAppendEntriesReply (current_term_ n) b) ∧
    vsize (log_ m) + vsize (entries req) + 1 < pow64 ∧
    (b = false → prevLogIndex req ≠ 0 ∧ log_ m' = log_ m ∧ current_term_ m' ≤ current_term_ n).
Proof using.
  intros [Hprev Hes Ht _] Hla Hsz Hle.
  assert (vsize (log_ m) + vsize (entries req) + 1 < pow64) as Hsz'.
  { rewrite Hes. unfold vsize in *. rewrite length_drop. lia. }
  rewrite handle_append_entries_eq by done. rewrite Ht.
  destruct (N.ltb_spec (current_term_ n) (current_term_ m)); [lia|].
  destruct (prev_ok (log_ m) req) eqn:Hok; eexists _, _; (split; [done|]); (split; [done|]); [done|].
  intros _. destruct (follow_leader_frame req 0 m) as (Hl & _ & _ & _ & Hterm & _).
  split_and!; [|done|rewrite Hterm; lia]. intros H0. unfold prev_ok in Hok. rewrite H0 in Hok.
  simpl in Hok. by destruct (vsize (log_ m)).
Qed.

(** The reply reaches the call that waits for it. *)
Lemma receive_answer c n cv calls k x q rep :
  procs c !! j = Some (mkProc n (PcHbRpc cv calls) k) → x ∈ calls → if_done x = false →
  ps_peer_id (if_slot x) = q → MAppendEntriesReply q j (if_rpc x) rep ∈ net c →
  NoDup (if_rpc <$> calls) → Forall (silent ∘ if_slot) calls →
  ∃ l1 l2, Forall silent l1 ∧ Forall silent l2 ∧
    (if_slot <$> (complete (if_rpc x) (Some rep) <$> calls)) =
      l1 ++ rpc_result (Some rep) (if_slot x) :: l2 ∧
    can Q c (upd j (mkProc n (PcHbRpc cv (complete (if_rpc x) (Some rep) <$> calls)) k) c).
Proof using Hj.
  intros Hp Hin Hd Hpeer Hmsg Hnd Hsil.
  assert (can Q c (upd j (mkProc n (PcHbRpc cv (complete (if_rpc x) (Some rep) <$> calls)) k) c)) as Hcan.
  { eapply (can_thread Q (LHbReply j (if_rpc x) rep) j); [done..| |always].
    cbn [thread_step ctl]. replace (existsb _ calls) with true; [done|]. symmetry.
    apply existsb_exists. exists x. split; [by apply list_elem_of_In|].
    rewrite N.eqb_refl, Hd, Hpeer. simpl. by apply bool_decide_eq_true. }
  apply list_elem_of_split in Hin as (c1 & c2 & ->).
  rewrite fmap_app, fmap_cons in Hnd. apply NoDup_app in Hnd as (_ & Hx1 & Hnd).
  apply NoDup_cons in Hnd as [Hx2 _]. apply Forall_app in Hsil as [Hs1 Hs2].
  apply Forall_cons in Hs2 as [_ Hs2].
  assert (∀ l : list inflight, if_rpc x ∉ if_rpc <$> l → complete (if_rpc x) (Some rep) <$> l = l) as Hsame.
  { clear. intros l Hl. etrans; [|apply list_fmap_id]. apply list_fmap_ext. intros m y Hy.
    unfold complete. destruct (N.eqb_spec (if_rpc y) (if_rpc x)) as [E|]; [|done].
    destruct Hl. rewrite <- E. apply list_elem_of_fmap_2. by eapply list_elem_of_lookup_2. }
  exists (if_slot <$> c1), (if_slot <$> c2).
  split_and!; [by apply Forall_fmap|by apply Forall_fmap| |done].
  rewrite fmap_app, fmap_cons, !Hsame; [|done|intros H; by apply (Hx1 _ H); left].
  rewrite fmap_app, fmap_cons. do 2 f_equal. unfold complete. by rewrite N.eqb_refl, Hd.
Qed.

(** The request to [q] is posted, delivered and answered. *)
Lemma exchange c n cv k q pq :
  reachable configs r c → procs c !! j = Some (mkProc n (PcHb cv) k) → role_ n = LEADER →
  q ∈ Q → q ≠ j → procs c !! q = Some pq → current_term_ (node pq) ≤ current_term_ n →
  vsize (log_ (node pq)) + vsize (log_ n) + 1 < pow64 →
  ∃ c' n1 calls k' pq' req s b l1 l2, can Q c c' ∧
    procs c' = <[j := mkProc n1 (PcHbRpc cv calls) k']> (<[q := pq']> (procs c)) ∧
    same_but_next n n1 ∧ next_in_range n1 ∧ nextIndex_ n1 !! q = Some (next_of n q) ∧
    request_to n q req s ∧ Forall silent l1 ∧ Forall silent l2 ∧
    if_slot <$> calls = l1 ++ rpc_result (Some (mkAppendEntriesReply (current_term_ n) b)) s :: l2 ∧
    (b = false → prevLogIndex req ≠ 0 ∧ log_ (node pq') = log_ (node pq) ∧
                 current_term_ (node pq') ≤ current_term_ n).
Proof using Hj Hmesh.
  intros Hc Hp Hr HqQ Hqj Hpq Hterm Hsz.
  pose proof (reachable_base configs r Hmesh c j _ Hc Hp) as Hb. simpl in Hb.
  pose proof (reachable_base configs r Hmesh c q _ Hc Hpq) as Hbq.
  destruct (open_round c n cv k Hc Hp Hr)
    as (c1 & n1 & calls & k1 & Hcan1 & Hps1 & Hs1 & Hnx1 & Hnd & Hsil & Hreq).
  destruct (Hreq q) as (x & req & Hx & Hxd & Hmsg & Hto & Hnext).
  { apply (bi_peers _ _ _ Hb). split; [by apply elem_of_dom_2 in Hpq|done]. }
  destruct (follower_answers n q req (if_slot x) (node pq) Hto) as (m' & b & Hh & Hsz' & Hno);
    [apply Hbq|done|done|].
  set (rep := mkAppendEntriesReply (current_term_ n) b) in *.
  assert (∃ c2, can Q c1 c2 ∧ MAppendEntriesReply q j (if_rpc x) rep ∈ net c2 ∧
            procs c2 = <[q := mkProc m' (ctl pq) (next_rpc pq)]> (procs c1)) as (c2 & Hcan2 & Hmsg2 & Hps2).
  { assert (procs c1 !! q = Some pq) as Hpq1 by (by rewrite Hps1, lookup_insert_ne).
    eexists. split; [|split].
    - eapply (can_step Q (LDeliverAE j q (if_rpc x) req 0)); [done| |].
      + unfold disciplined. cbn [actor]. rewrite Hpq1. simpl. by apply N.ltb_lt.
      + unfold step, deliver_append. cbn [actor]. rewrite Hpq1, bool_decide_true, Hh by done. reflexivity.
    - by left.
    - done. }
  assert (procs c2 !! j = Some (mkProc n1 (PcHbRpc cv calls) k1)) as Hj2.
  { rewrite Hps2, lookup_insert_ne, Hps1 by done. apply lookup_insert_eq. }
  destruct (receive_answer c2 n1 cv calls k1 x q rep Hj2 Hx Hxd) as (l1 & l2 & Hl1 & Hl2 & Hslots & Hcan3);
    [by rewrite (rt_slot _ _ _ _ Hto)|done..|].
  eexists _, n1, _, k1, (mkProc m' (ctl pq) (next_rpc pq)), req, (if_slot x), b, l1, l2.
  split; [etrans; [exact Hcan1|]; by etrans|]. split; [|by split_and!].
  simpl. rewrite Hps2, Hps1. rewrite (insert_insert_ne (procs c)) by done. by rewrite insert_insert_eq.
Qed.

Lemma answered_round c n cv k q pq :
  reachable configs r c → procs c !! j = Some (mkProc n (PcHb cv) k) → role_ n = LEADER →
  q ∈ Q → q ≠ j → procs c !! q = Some pq → current_term_ (node pq) ≤ current_term_ n →
  vsize (log_ (node pq)) + vsize (log_ n) + 1 < pow64 →
  ∃ c' n' k' pq', can Q c c' ∧
    procs c' = <[j := mkProc n' PcTop k']> (<[q := pq']> (procs c)) ∧ steady n n' ∧
    (matchIndex_ n' = <[q := vsize (log_ n)]> (matchIndex_ n) ∨
     (1 < next_of n q ∧ next_of n' q = next_of n q - 1 ∧ matchIndex_ n' = matchIndex_ n ∧
      log_ (node pq') = log_ (node pq) ∧ current_term_ (node pq') ≤ current_term_ n)).
Proof using Hj Hmesh.
  intros Hc Hp Hr HqQ Hqj Hpq Hterm Hsz.
  pose proof (reachable_base configs r Hmesh c j _ Hc Hp) as Hb. simpl in Hb.
  destruct (exchange c n cv k q pq Hc Hp Hr HqQ Hqj Hpq Hterm Hsz)
    as (c1 & n1 & calls & k1 & pq' & req & s & b & l1 & l2 & Hcan1 & Hps1 & Hs1 & Hnx1 & Hnext & Hto &
        Hl1 & Hl2 & Hslots & Hno).
  assert (next_of n1 q = next_of n q) as Hnf by (unfold next_of at 1; by rewrite Hnext).
  assert (log_ n1 = log_ n ∧ current_term_ n1 = current_term_ n) as [Hlog1 Hterm1] by (by rewrite Hs1).
  assert (request_to n1 q req s) as Hto1.
  { destruct Hto. split; rewrite ?Hnf, ?Hlog1, ?Hterm1; done. }
  destruct (process_answer n1 q req s b) as (n2 & conf & Hres & Hs2 & Hnx2 & Hidx);
    [rewrite Hlog1; apply Hb|done|done|by rewrite Hnf| |].
  { intros ->. destruct (Hno eq_refl) as [H0 _]. rewrite (rt_prev _ _ _ _ Hto1) in H0. lia. }
  destruct (finish_round c1 n1 n2 conf cv calls k1) as (c' & n' & Hcan & Hps & Hst & _ & Hm & Hn & _);
    [by eapply can_reachable|by rewrite Hps1, lookup_insert_eq|by rewrite Hs1| |done|done|].
  { rewrite Hslots, process_one, <- Hterm1, Hres by done. done. }
  exists c', n', k1, pq'. split_and!; [by etrans|by rewrite Hps, Hps1, insert_insert_eq|by eapply steady_next|].
  destruct b.
  - left. rewrite Hm, Hidx, Hlog1. by rewrite Hs1.
  - right. destruct Hidx as [Hm2 Hnf2]. destruct (Hno eq_refl) as (H0 & Hlq & Htq).
    rewrite (rt_prev _ _ _ _ Hto) in H0.
    split_and!; [lia| |rewrite Hm, Hm2; by rewrite Hs1|done|done].
    rewrite <- Hnf, <- Hnf2. unfold next_of. rewrite Hn, (st_log _ _ Hst). by rewrite Hs2.
Qed.

(** ** Bringing the quorum up to the leader's log *)

Lemma steady_trans n1 n2 n3 : steady n1 n2 → steady n2 n3 → steady n1 n3.
Proof using. intros [] []. split; congruence || auto. Qed.

(** A leader at the top of its loop goes for another round. *)
Lemma again c n k :
  procs c !! j = Some (mkProc n PcTop k) → role_ n = LEADER → is_dead n = false →
  can Q c (upd j (mkProc n (PcHb true) k) c).
Proof using Hj.
  intros Hp Hr Hd. eapply (can_thread Q (LTop j 0) j); [done..| |always].
  simpl. rewrite Hd. unfold run_top. by rewrite decide_True.
Qed.

(** A member that can be brought up to the log of leader [n]. *)
Definition open_to (c : cluster) (n : Raft) (q : N) : Prop :=
  q ∈ Q ∧ q ≠ j ∧ ∃ pq, procs c !! q = Some pq ∧ current_term_ (node pq) ≤ current_term_ n ∧
    vsize (log_ (node pq)) + vsize (log_ n) + 1 < pow64.

(** One member: its [nextIndex_] goes down until its log agrees. *)
Lemma catch_up q m : ∀ c n k,
  reachable configs r c → procs c !! j = Some (mkProc n PcTop k) → role_ n = LEADER →
  is_dead n = false → open_to c n q → next_of n q ≤ N.of_nat m + 1 →
  ∃ c' n' k' pq', can Q c c' ∧
    procs c' = <[j := mkProc n' PcTop k']> (<[q := pq']> (procs c)) ∧ steady n n' ∧
    matchIndex_ n' = <[q := vsize (log_ n)]> (matchIndex_ n).
Proof using Hj Hmesh.
  induction m as [|m IH]; intros c n k Hc Hp Hr Hd (HqQ & Hqj & pq & Hpq & Ht & Hsz) Hm;
    pose proof (again c n k Hp Hr Hd) as Hcan0;
    (destruct (answered_round (upd j (mkProc n (PcHb true) k) c) n true k q pq)
       as (c1 & n1 & k1 & pq1 & Hcan1 & Hps1 & Hst1 & Hmatch);
     [by eapply can_reachable|apply procs_upd|done..|by rewrite procs_upd_ne|done|done|]);
    (assert (procs c1 = <[j := mkProc n1 PcTop k1]> (<[q := pq1]> (procs c))) as Hps
       by (rewrite Hps1; simpl; rewrite (insert_insert_ne (procs c)) by done; by rewrite insert_insert_eq));
    (destruct Hmatch as [Hmatch|(Hgt & Hnf & Hsame & Hlq & Htq)];
       [exists c1, n1, k1, pq1; split_and!; [by etrans|done..]|]).
  - lia.
  - destruct (IH c1 n1 k1) as (c' & n' & k' & pq' & Hcan' & Hps' & Hst' & Hmatch').
    + eapply can_reachable; [|exact Hcan1]. by eapply can_reachable.
    + by rewrite Hps, lookup_insert_eq.
    + apply Hst1.
    + by rewrite (st_dead _ _ Hst1).
    + split_and!; [done..|]. exists pq1. rewrite Hps, lookup_insert_ne, lookup_insert_eq by done.
      rewrite Hlq, (st_term _ _ Hst1), (st_log _ _ Hst1). done.
    + lia.
    + exists c', n', k', pq'. split_and!.
      * etrans; [exact Hcan0|]. by etrans.
      * rewrite Hps', Hps, (insert_insert_ne _ q j), !insert_insert_eq by done. done.
      * by eapply steady_trans.
      * by rewrite Hmatch', Hsame, (st_log _ _ Hst1).
Qed.

(** All of them, one after the other. *)
Lemma bring_up l : ∀ c n k,
  reachable configs r c → procs c !! j = Some (mkProc n PcTop k) → role_ n = LEADER →
  is_dead n = false → NoDup l → (∀ q, q ∈ l → open_to c n q) →
  ∃ c' n' k', can Q c c' ∧ procs c' !! j = Some (mkProc n' PcTop k') ∧ steady n n' ∧
    (∀ q, q ∈ l → matchIndex_ n' !! q = Some (vsize (log_ n))) ∧
    ∀ q, q ∉ l → matchIndex_ n' !! q = matchIndex_ n !! q.
Proof using Hj Hmesh.
  induction l as [|q l IH]; intros c n k Hc Hp Hr Hd Hnd Hopen.
  { exists c, n, k. split_and!; [done..|by split|set_solver +|done]. }
  apply NoDup_cons in Hnd as [Hql Hnd].
  assert (open_to c n q) as Hq by (apply Hopen; by left). pose proof Hq as (_ & Hqj & _).
  destruct (catch_up q (N.to_nat (next_of n q)) c n k)
    as (c1 & n1 & k1 & pq1 & Hcan1 & Hps1 & Hst1 & Hm1); [done..|lia|].
  destruct (IH c1 n1 k1) as (c' & n' & k' & Hcan & Hp' & Hst & Hin & Hout);
    [by eapply can_reachable|by rewrite Hps1, lookup_insert_eq|apply Hst1|
     by rewrite (st_dead _ _ Hst1)|done| |].
  { intros p Hpl. destruct (Hopen p) as (HpQ & Hpj & pp & Hpp & Hrest); [by right|].
    split_and!; [done..|]. exists pp. rewrite (st_term _ _ Hst1), (st_log _ _ Hst1).
    split; [|done]. rewrite Hps1, !lookup_insert_ne; congruence. }
  rewrite (st_log _ _ Hst1) in Hin.
  exists c', n', k'. split_and!; [by etrans|done|by eapply steady_trans| |].
  - intros p [->|Hpl]%elem_of_cons; [|by apply Hin].
    by rewrite Hout, Hm1, lookup_insert_eq.
  - intros p [Hpq Hpl]%not_elem_of_cons. by rewrite Hout, Hm1, lookup_insert_ne.
Qed.

(** ** A new command *)

(** The leader of a quorum whose members have all its log commits all of it in its next
    round, if the last entry is of its term. *)
Lemma commit_all c n k e :
  reachable configs r c → quorum (dom (procs c)) Q →
  procs c !! j = Some (mkProc n PcTop k) → role_ n = LEADER → is_dead n = false →
  list.last (log_ n) = Some e → term e = current_term_ n →
  (∀ q, q ∈ Q → q ≠ j → matchIndex_ n !! q = Some (vsize (log_ n))) →
  ∃ c' n' k', can Q c c' ∧ procs c' !! j = Some (mkProc n' PcTop k') ∧ steady n n' ∧
    commit_index_ n' = vsize (log_ n).
Proof using Hj Hmesh.
  intros Hc HQ Hp Hr Hd Hlast Hterm Hmatch. pose proof (again c n k Hp Hr Hd) as Hcan0.
  destruct (silent_round (upd j (mkProc n (PcHb true) k) c) n true k)
    as (c' & n' & k' & Hcan & Hps & Hst & Hpe & Hm & Hgr);
    [by eapply can_reachable|apply procs_upd|done|].
  assert (reachable configs r c') as Hc'.
  { eapply can_reachable; [|exact Hcan]. by eapply can_reachable. }
  assert (procs c' !! j = Some (mkProc n' PcTop k')) as Hp' by (by rewrite Hps, lookup_insert_eq).
  exists c', n', k'. split_and!; [by etrans|done..|].
  pose proof (reachable_commits configs r c' Hmesh Hc' j _ Hp') as Hci. simpl in Hci.
  rewrite (st_log _ _ Hst) in Hci.
  destruct (N.lt_ge_cases (commit_index_ n') (vsize (log_ n))) as [Hlt|?]; [|lia].
  exfalso. apply (Hgr (vsize (log_ n))); [lia|]. exists e.
  rewrite (st_log _ _ Hst), (st_term _ _ Hst). split_and!; [|done|].
  - rewrite last_lookup in Hlast. unfold vat, vsize. rewrite <- Hlast. f_equal. lia.
  - pose proof (reachable_base configs r Hmesh c j _ Hc Hp) as Hb. simpl in Hb.
    pose proof (quorum_majority _ _ _ Q Hb HQ) as Hmaj. unfold majority in *. rewrite Hpe.
    unfold replicated_on. rewrite Hm.
    assert (size (Q ∖ {[j]}) ≤ size (filter (λ kv : N * N, (vsize (log_ n) ≤ kv.2)%N) (matchIndex_ n)))%nat as Hsz.
    { rewrite <- (size_dom (D := gset N)). apply subseteq_size. intros q [HqQ Hqj]%elem_of_difference.
      apply elem_of_dom. exists (vsize (log_ n)). apply map_lookup_filter_Some.
      split; [apply Hmatch; set_solver|done]. }
    rewrite size_difference, size_singleton in Hsz by set_solver. lia.
Qed.

(** The new leader takes its office and a command. *)
Lemma take_command c n k d :
  reachable configs r c → procs c !! j = Some (mkProc n PcBecome k) → role_ n = LEADER →
  vsize (log_ n) + 2 < pow64 →
  ∃ c' n', can Q c c' ∧ procs c' = <[j := mkProc n' (PcHb false) k]> (procs c) ∧
    role_ n' = LEADER ∧ log_ n' = log_ n ++ [mkEntry (current_term_ n) d] ∧
    current_term_ n' = current_term_ n ∧ is_dead n' = is_dead n ∧ answered n'.
Proof using Hj Hmesh.
  intros Hc Hp Hr Hsz.
  pose proof (reachable_applied configs r c j _ Hmesh Hc Hp) as Hla.
  pose proof (reachable_commits configs r c Hmesh Hc j _ Hp) as Hci. simpl in Hla, Hci.
  exists (upd j (mkProc (propose d (become_leader 0 n)).1 (PcHb false) k) c),
    (propose d (become_leader 0 n)).1. split; [|split].
  - thread (LBecome j 0) of j. cbn [node next_rpc].
    eapply (can_step Q (LPropose j d)); [done| |].
    + unfold disciplined. cbn [actor]. rewrite procs_upd. simpl. by apply N.ltb_lt.
    + unfold step. cbn [actor]. rewrite procs_upd. cbn [node ctl next_rpc]. by rewrite upd_upd.
  - done.
  - unfold propose. rewrite decide_True by done. split_and!; [done..|].
    intros e _ Hle. simpl in Hle. rewrite vsize_app in Hle. unfold vsize in *. simpl in Hle. lia.
Qed.

(** What a new leader that its quorum follows can do. *)
Lemma leader_commits c n k d :
  reachable configs r c → quorum (dom (procs c)) Q →
  procs c !! j = Some (mkProc n PcBecome k) → role_ n = LEADER → is_dead n = false →
  vsize (log_ n) + 2 < pow64 →
  (∀ q, q ∈ Q → q ≠ j → ∃ pq, procs c !! q = Some pq ∧
     current_term_ (node pq) ≤ current_term_ n ∧
     vsize (log_ (node pq)) + vsize (log_ n) + 2 < pow64) →
  ∃ c' n' k', can Q c c' ∧ procs c' !! j = Some (mkProc n' PcTop k') ∧ role_ n' = LEADER ∧
    current_term_ n' = current_term_ n ∧ log_ n' = log_ n ++ [mkEntry (current_term_ n) d] ∧
    commit_index_ n' = vsize (log_ n') ∧
    mkApplyResult true d (vsize (log_ n')) ∈ ready_queue n'.
Proof using Hj Hmesh.
  intros Hc HQ Hp Hr Hd Hsz Hmem.
  destruct (take_command c n k d)
    as (c2 & n2 & Hcan2 & Hps2 & Hr2 & Hl2 & Ht2 & Hd2 & Ha2); [done..|].
  assert (reachable configs r c2) as Hc2 by (by eapply can_reachable).
  destruct (silent_round c2 n2 false k) as (c3 & n3 & k3 & Hcan3 & Hps3 & Hst3 & _);
    [done|by rewrite Hps2, lookup_insert_eq|done|].
  assert (reachable configs r c3) as Hc3 by (by eapply can_reachable).
  destruct (bring_up (elements (Q ∖ {[j]})) c3 n3 k3) as (c4 & n4 & k4 & Hcan4 & Hp4 & Hst4 & Hm4 & _);
    [done|by rewrite Hps3, lookup_insert_eq|apply Hst3|by rewrite (st_dead _ _ Hst3), Hd2|
     apply NoDup_elements| |].
  { intros q Hq%elem_of_elements. destruct (Hmem q) as (pq & Hpq & Ht & Hs); [set_solver..|].
    split_and!; [set_solver..|]. exists pq.
    rewrite Hps3, Hps2, !lookup_insert_ne, (st_term _ _ Hst3), (st_log _ _ Hst3), Ht2, Hl2 by set_solver.
    rewrite vsize_app, vsize_cons, vsize_nil. split_and!; [done|done|lia]. }
  assert (reachable configs r c4) as Hc4 by (by eapply can_reachable).
  pose proof (steady_trans _ _ _ Hst3 Hst4) as Hst. rewrite (st_log _ _ Hst3) in Hm4.
  destruct (commit_all c4 n4 k4 (mkEntry (current_term_ n) d))
    as (c5 & n5 & k5 & Hcan5 & Hp5 & Hst5 & Hci5);
    [done| |done|apply Hst|by rewrite (st_dead _ _ Hst), Hd2|by rewrite (st_log _ _ Hst), Hl2, last_snoc|
     by rewrite (st_term _ _ Hst), Ht2| |].
  { assert (can Q c c4) as Hcan by (etrans; [exact Hcan2|]; by etrans).
    by rewrite (can_dom Q configs r Hmesh c c4). }
  { intros q Hq Hqj. rewrite (st_log _ _ Hst). apply Hm4, elem_of_elements. set_solver. }
  destruct (steady_trans _ _ _ Hst Hst5) as [E1 E2 E3 E4 E5].
  rewrite (st_log _ _ Hst) in Hci5.
  exists c5, n5, k5. rewrite E2. split_and!; [|done|done|congruence|congruence|done|].
  - etrans; [exact Hcan2|]. etrans; [exact Hcan3|]. by etrans.
  - assert (reachable configs r c5) as Hc5 by (by eapply can_reachable).
    pose proof (reachable_applied configs r c5 j _ Hmesh Hc5 Hp5) as Hla. simpl in Hla.
    rewrite <- E2. apply (E5 Ha2 (mkEntry (current_term_ n) d)); [by rewrite E2, Hl2, last_snoc|].
    rewrite E2. lia.
Qed.
End group.

(** C8: a quorum makes progress by itself: from every state of a disciplined execution, if
    node [j] of a quorum is at the top of its loop, alive, not a leader, and has a log that
    covers those of the quorum, and the terms and logs of the quorum leave room below 2^64,
    there is a disciplined schedule in which only members of the quorum act, after which [j]
    leads a new term and has committed and applied a command that is proposed to it. *)
Theorem quorum_commits configs r c Q j p d :
  full_mesh configs → reachable configs r c → quorum (dom (procs c)) Q → j ∈ Q →
  procs c !! j = Some p → ctl p = PcTop → role_ (node p) ≠ LEADER → is_dead (node p) = false →
  (∀ q pq, q ∈ Q → procs c !! q = Some pq →
     current_term_ (node pq) + 1 < pow64 ∧ covers (node p) (node pq) = true ∧
     vsize (log_ (node pq)) + vsize (log_ (node p)) + 2 < pow64) →
  ∃ ls c' p', Forall (λ l, actor l ∈ Q) ls ∧ run_disciplined ls c = Some c' ∧
    procs c' !! j = Some p' ∧ role_ (node p') = LEADER ∧
    current_term_ (node p) < current_term_ (node p') ∧
    log_ (node p') = log_ (node p) ++ [mkEntry (current_term_ (node p')) d] ∧
    commit_index_ (node p') = vsize (log_ (node p')) ∧
    mkApplyResult true d (vsize (log_ (node p'))) ∈ ready_queue (node p').
Proof.
  intros Hmesh Hc HQ Hj Hp Hctl Hr Hd Hmem. destruct p as [n ctl0 k]. simpl in *. subst ctl0.
  destruct (Hmem j _ Hj Hp) as (Htn & _ & _).
  assert (∀ q, q ∈ Q → ∃ pq, procs c !! q = Some pq) as Hin.
  { intros q Hq. destruct HQ as [HQ _]. by apply HQ, elem_of_dom in Hq as [pq ?]; eauto. }
  destruct (quorum_elects Q j Hj configs r Hmesh (N.to_nat (pow64 - 2 - current_term_ n)) c n k)
    as (c1 & n1 & k1 & Hcan1 & Hp1 & Hr1 & Hd1 & Hl1 & Ht1 & Hun & Hle); [done..|simpl in *; lia| |].
  { intros q Hq Hqj. destruct (Hin q Hq) as [pq Hpq]. destruct (Hmem q pq Hq Hpq) as (? & ? & ?).
    exists pq. split_and!; [done|lia|done]. }
  assert (reachable configs r c1) as Hc1 by (by eapply can_reachable).
  destruct (leader_commits Q j Hj configs r Hmesh c1 n1 k1 d)
    as (c' & n' & k' & Hcan & Hp' & Hr' & Ht' & Hl' & Hci & Hq); [done| |done|done|done| | |].
  - by rewrite (can_dom Q configs r Hmesh c c1).
  - destruct (Hmem j _ Hj Hp) as (_ & _ & Hsz). simpl in Hsz. rewrite Hl1. lia.
  - intros q Hq Hqj. destruct (Hin q Hq) as [pq Hpq]. destruct (Hmem q pq Hq Hpq) as (_ & _ & Hsz).
    destruct (Hun q pq Hqj Hpq) as (pq1 & Hpq1 & Hlq & _). exists pq1.
    rewrite Hlq, Hl1. split_and!; [done|by eapply Hle|done].
  - assert (can Q c c') as (ls & Hls & Hrun) by (by etrans).
    exists ls, c', (mkProc n' PcTop k'). simpl. rewrite <- Ht', Hl1 in Hl'. split_and!; try done. lia.
Qed.

(** Node 0 has committed a command and is cut off: the other two go on with node 1. *)
Lemma quorum_commits_witness :
  ∃ c ls c' p', run_disciplined commit_a (boot local3 0) = Some c ∧
    Forall (λ l, actor l ∈ ({[1; 2]} : gset N)) ls ∧ run_disciplined ls c = Some c' ∧
    procs c' !! 1 = Some p' ∧ role_ (node p') = LEADER ∧
    log_ (node p') = [entry_a; mkEntry (current_term_ (node p')) "b"] ∧
    commit_index_ (node p') = 2 ∧ mkApplyResult true "b" 2 ∈ ready_queue (node p').
Proof.
  assert (∃ c p p2, run_disciplined commit_a (boot local3 0) = Some c ∧
            quorum (dom (procs c)) {[1; 2]} ∧ procs c !! 1 = Some p ∧ procs c !! 2 = Some p2 ∧
            ctl p = PcTop ∧ role_ (node p) ≠ LEADER ∧ is_dead (node p) = false ∧
            log_ (node p) = [entry_a] ∧
            Forall (λ pq, current_term_ (node pq) + 1 < pow64 ∧ covers (node p) (node pq) = true ∧
              vsize (log_ (node pq)) + vsize (log_ (node p)) + 2 < pow64) [p; p2])
    as (c & p & p2 & Hrun & HQ & Hp & Hp2 & Hctl & Hr & Hd & Hlog & Hall).
  { eexists _, _, _. split; [vm_compute; reflexivity|]. split.
    - split; [apply (bool_decide_unpack _)|apply Nat.ltb_lt]; vm_compute; reflexivity.
    - split; [vm_compute; reflexivity|]. split; [vm_compute; reflexivity|].
      split_and!; [done..|]. repeat constructor; vm_compute; done. }
  apply Forall_cons in Hall as [H1 Hall]. apply Forall_cons in Hall as [H2 _].
  destruct (quorum_commits local3 0 c {[1; 2]} 1 p "b" local3_mesh (local3_reachable _ _ Hrun) HQ)
    as (ls & c' & p' & Hls & Hr' & Hp' & Hlead & _ & Hl & Hci & Hq); [set_solver|done..| |].
  - clear Hrun. intros q pq Hq Hpq.
    apply elem_of_union in Hq as [->%elem_of_singleton| ->%elem_of_singleton].
    + rewrite Hp in Hpq. by injection Hpq as <-.
    + rewrite Hp2 in Hpq. by injection Hpq as <-.
  - rewrite Hlog in Hl. rewrite Hl in Hci, Hq. exists c, ls, c', p'. by split_and!.
Defined.
