(* ===== verification/NodeApp.v ===== *)
(** The executables: command line of [app/raft_node.cpp] and [app/kv_node.cpp]
    (the peer list flag, the interceptor set-up), the operator's commands of
    [app/raft_node.cpp] and [app/multinode.cpp], and the cluster layouts of
    [app/multinode.cpp], [app/tput.cpp] and [app/latency.cpp].

    Abseil is outside the source: its [StrSplit], [StrJoin], [SimpleAtoi] and
    [StripAsciiWhitespace] are parameters, with the documented behaviour that
    the flag relies on as hypotheses of the theorem that needs it. *)
From stdpp Require Import sorting.
From S2P Require Import Prelude Types ConfigGen NetInterceptor.

#[local] Open Scope N_scope.
#[local] Open Scope rafty_scope.

(** ** The [--peers] flag *)

Section flags.
Context (StrSplit : string → string → list string).
Context (StrJoin : list string → string → string).
Context (SimpleAtoi : string → option N).

(** The loop over the parts; [inl] is the message of the error. *)
Fixpoint parse_parts (parts : list string) (out : gmap N string) : string + gmap N string :=
  match parts with
  | [] => inr out
  | part :: parts =>
      match StrSplit part "+" with
      | [id; addr] =>
          match SimpleAtoi id with
          | Some i => parse_parts parts (<[i := addr]> out)
          | None => inl ("Invalid peer id: " +:+ id)%string
          end
      | _ => inl ("Invalid peer address: " +:+ part)%string
      end
  end.

Definition AbslParseFlag (text : string) (out : gmap N string) : string + gmap N string :=
  if bool_decide (text = EmptyString) then inr out
  else parse_parts (StrSplit text ",") out.

(** Iteration over a [std::map] is in increasing order of the keys. *)
Definition key_le (a b : N * string) : Prop := a.1 ≤ b.1.

#[local] Instance key_le_dec : RelDecision key_le.
Proof. intros a b. unfold key_le. apply _. Defined.

Definition in_key_order (m : gmap N string) : list (N * string) :=
  merge_sort key_le (map_to_list m).

Definition unparse_part (p : N * string) : string :=
  (to_string p.1 +:+ "+" +:+ p.2)%string.

Definition AbslUnparseFlag (flag : gmap N string) : string :=
  let parts := unparse_part <$> in_key_order flag in
  match parts with
  | [] => EmptyString
  | _ => StrJoin parts ","
  end.

Lemma in_key_order_perm m : in_key_order m ≡ₚ map_to_list m.
Proof. apply merge_sort_Permutation. Qed.

Lemma parse_parts_unparsed l : ∀ out,
  (∀ p, p ∈ l → StrSplit (unparse_part p) "+" = [to_string p.1; p.2]) →
  (∀ p, p ∈ l → SimpleAtoi (to_string p.1) = Some p.1) →
  parse_parts (unparse_part <$> l) out = inr (foldl (λ m p, <[p.1 := p.2]> m) out l).
Proof.
  induction l as [|[i a] l IH]; intros out Hs Ha; [done|]. cbn [fmap list_fmap parse_parts foldl].
  rewrite Hs by (by left). pose proof (Ha (i, a) ltac:(by left)) as Hi. cbn [fst] in Hi |- *.
  rewrite Hi.
  apply IH; intros p Hp; [apply Hs|apply Ha]; by right.
Qed.

Lemma foldl_insert_list (l : list (N * string)) : ∀ m : gmap N string,
  NoDup l.*1 → (∀ p, p ∈ l → m !! p.1 = None) →
  foldl (λ m p, <[p.1 := p.2]> m) m l = list_to_map l ∪ m.
Proof.
  induction l as [|[i a] l IH]; intros m Hnd Hm; simpl; [by rewrite (left_id_L ∅ (∪))|].
  apply NoDup_cons in Hnd as [Hi Hnd]. rewrite IH; [|done|].
  - rewrite <- insert_union_l, insert_union_r; [done|].
    by apply not_elem_of_list_to_map_1.
  - intros [j b] Hj. simpl. rewrite lookup_insert_ne.
    + apply (Hm (j, b)). by right.
    + intros ->. apply Hi, list_elem_of_fmap. by exists (j, b).
Qed.

(** The flag that the launcher prints for a peer map is parsed back to that
    map, and parsing overrides what was there: every id and address survives.
    The hypotheses say what Abseil does with these strings. *)
Lemma flag_roundtrip m :
  (let parts := unparse_part <$> in_key_order m in
   parts ≠ [] → StrJoin parts "," ≠ EmptyString ∧ StrSplit (StrJoin parts ",") "," = parts) →
  (∀ i a, m !! i = Some a → StrSplit (unparse_part (i, a)) "+" = [to_string i; a]) →
  (∀ i a, m !! i = Some a → SimpleAtoi (to_string i) = Some i) →
  AbslParseFlag (AbslUnparseFlag m) ∅ = inr m.
Proof.
  intros Hjoin Hsplit Hatoi. unfold AbslUnparseFlag, AbslParseFlag.
  destruct (unparse_part <$> in_key_order m) as [|p ps] eqn:Hps.
  - rewrite bool_decide_eq_true_2 by done. apply fmap_nil_inv in Hps.
    pose proof (in_key_order_perm m) as Hp. rewrite Hps in Hp.
    apply Permutation_nil_l in Hp. symmetry in Hp. apply map_to_list_empty_iff in Hp.
    by rewrite Hp.
  - destruct Hjoin as [Hne Heq]; [done|]. rewrite bool_decide_eq_false_2 by done.
    rewrite Heq, <- Hps.
    assert (∀ q, q ∈ in_key_order m → m !! q.1 = Some q.2) as Hin.
    { intros [i a] Hq. rewrite in_key_order_perm in Hq. by apply elem_of_map_to_list. }
    rewrite parse_parts_unparsed.
    + f_equal. rewrite foldl_insert_list; [|by rewrite in_key_order_perm; apply NoDup_fst_map_to_list|done].
      rewrite (right_id_L ∅ (∪)). rewrite (list_to_map_proper _ (map_to_list m));
        [apply list_to_map_to_list|by rewrite in_key_order_perm; apply NoDup_fst_map_to_list|apply in_key_order_perm].
    + intros [i a] Hq. apply Hsplit, (Hin (i, a)), Hq.
    + intros [i a] Hq. apply (Hatoi i a), (Hin (i, a)), Hq.
Qed.
End flags.

(** ** Set-up of the interceptor *)

Definition fail_mode (failure : N) : NetInterceptionType :=
  if failure =? 0 then NETWORK_FAILURE
  else if failure =? 1 then NETWORK_PARTITION
  else NETWORK_FAILURE.

Definition prepare_interceptor (world : gset string) (failure : N) (n : NetInterceptor)
    : NetInterceptor :=
  set_type (fail_mode failure) (setup_rank world n).

(** The ids that [main] collects. *)
Definition world_of (id : N) (peers : gmap N string) : gset string :=
  {[to_string id]} ∪ list_to_set (to_string <$> (map_to_list peers).*1).

Definition main_config (id port : N) (peers : gmap N string) : Config :=
  mkConfig id ("0.0.0.0:" +:+ to_string port)%string peers.

(** ** The operator's commands *)

Section commands.
Context (StripAsciiWhitespace : string → string).
Context (StrSplit : string → string → list string).

(** What a command of [raft_node] does besides printing. *)
Inductive node_action :=
| NRun
| NKill
| NNet (ops : list net_op)
| NNothing.

(** [handle_cmd] of [app/raft_node.cpp]: the action, and whether the command loop
    ends. *)
Definition handle_cmd (command : string) : node_action * bool :=
  let splits := StrSplit (StripAsciiWhitespace command) " " in
  match splits with
  | [] => (NNothing, false)
  | [cmd] =>
      if bool_decide (cmd = "r"%string) then (NRun, false)
      else if bool_decide (cmd = "k"%string) then (NKill, true)
      else (NNothing, false)
  | cmd :: params =>
      if bool_decide (cmd = "dis"%string) then (NNet (Disconnect <$> params), false)
      else if bool_decide (cmd = "conn"%string) then (NNet (Reconnect <$> params), false)
      else (NNothing, false)
  end.

(** [handle_cmd] of [app/multinode.cpp]; [stoul] throws on what is not a number,
    which ends the program: [None]. *)
Context (stoul : string → option N).

Inductive ctrl_action :=
| CRun
| CKill
| CDisconnect (ids : list N)
| CReconnect (ids : list N)
| CPropose (data : string)
| CNothing.

Definition handle_cmd_multi (command : string) : option (ctrl_action * bool) :=
  let splits := StrSplit (StripAsciiWhitespace command) " " in
  match splits with
  | [] => Some (CNothing, false)
  | [cmd] =>
      if bool_decide (cmd = "r"%string) then Some (CRun, false)
      else if bool_decide (cmd = "k"%string) then Some (CKill, true)
      else Some (CNothing, false)
  | cmd :: p :: ps =>
      if bool_decide (cmd = "dis"%string ∨ cmd = "conn"%string) then
        ids ← mapM stoul (p :: ps);
        Some (if bool_decide (cmd = "dis"%string) then CDisconnect ids else CReconnect ids, false)
      else if bool_decide (cmd = "prop"%string) then Some (CPropose p, false)
      else Some (CNothing, false)
  end.
End commands.

(** Disconnecting and reconnecting the same connected nodes changes nothing. *)
Lemma disconnect_all ids : ∀ n,
  (∀ i, i ∈ ids → i ∈ rank1 n) → NoDup ids →
  foldl apply_op n (Disconnect <$> ids) =
  mkNetInterceptor (type_ n) (rank1 n ∖ list_to_set ids) (list_to_set ids ∪ rank2 n).
Proof.
  induction ids as [|i ids IH]; intros n Hin Hnd; simpl.
  - destruct n as [t r1 r2]. simpl. f_equal; set_solver.
  - apply NoDup_cons in Hnd as [Hi Hnd].
    unfold disconnect at 1. rewrite bool_decide_eq_true_2 by (apply Hin; by left).
    rewrite IH; simpl; [|set_solver|done]. f_equal; set_solver.
Qed.

Lemma reconnect_all ids : ∀ n,
  (∀ i, i ∈ ids → i ∈ rank2 n) → NoDup ids →
  foldl apply_op n (Reconnect <$> ids) =
  mkNetInterceptor (type_ n) (list_to_set ids ∪ rank1 n) (rank2 n ∖ list_to_set ids).
Proof.
  induction ids as [|i ids IH]; intros n Hin Hnd; simpl.
  - destruct n as [t r1 r2]. simpl. f_equal; set_solver.
  - apply NoDup_cons in Hnd as [Hi Hnd].
    unfold reconnect at 1. rewrite bool_decide_eq_true_2 by (apply Hin; by left).
    rewrite IH; simpl; [|set_solver|done]. f_equal; set_solver.
Qed.

(** [dis] followed by [conn] on the same nodes leaves the network as it was,
    when they were connected. *)
Lemma dis_conn_roundtrip W n ids :
  splits W n → (∀ i, i ∈ ids → i ∈ rank1 n) → NoDup ids →
  foldl apply_op n ((Disconnect <$> ids) ++ (Reconnect <$> ids)) = n.
Proof.
  intros [HW Hd] Hin Hnd. rewrite foldl_app, disconnect_all, reconnect_all by (simpl; set_solver).
  destruct n as [t r1 r2]. simpl in *. f_equal; apply set_eq; intros x.
  - destruct (decide (x ∈ ids)); set_solver.
  - destruct (decide (x ∈ ids)); set_solver.
Qed.

(** ** Cluster layouts *)

Definition KV_PORT_OFFSET : N := 1000.

(** The loop over the instances in [multinode], [tput] and [latency]. *)
Record layout := mkLayout {
  lay_configs : list Config;
  lay_tester_ports : list (N * N);
  lay_kv_ports : list N }.

Definition lay_out (insts : list RaftInstanceConfig) (tester_base : N) : layout :=
  mkLayout (gen_raft_configs insts)
    (imap (λ k inst, (ric_id inst, tester_base +₆₄ N.of_nat k)) insts)
    ((λ inst, ric_port inst +₆₄ KV_PORT_OFFSET) <$> insts).

Definition multinode_layout (num : N) : layout :=
  lay_out (gen_local_instances num 50050) 55001.

Definition latency_layout : layout := lay_out (gen_local_instances 3 50150) 55101.

Definition RAFT_BASE : N := 50160.
Definition RAFT_STEP : N := 10.
Definition CTRL_BASE : N := 55200.
Definition TESTER_BASE : N := 55201.

(** [create_cluster] of [app/tput.cpp]: the layout and the controller's port. *)
Definition create_cluster (round_idx num_nodes : N) : layout * N :=
  let port_step := num_nodes + 2 in
  let raft_base := RAFT_BASE + round_idx * RAFT_STEP in
  let ctrl_port := CTRL_BASE + round_idx * port_step in
  let tester_base := TESTER_BASE + round_idx * port_step in
  (lay_out (gen_local_instances num_nodes raft_base) tester_base, ctrl_port).

(** Every port that a round listens on: Raft, key-value, tester, controller. *)
Definition raft_ports (round_idx num_nodes : N) : list N :=
  ric_port <$> gen_local_instances num_nodes (RAFT_BASE + round_idx * RAFT_STEP).

Definition round_ports (round_idx num_nodes : N) : list N :=
  let '(l, ctrl) := create_cluster round_idx num_nodes in
  raft_ports round_idx num_nodes ++ lay_kv_ports l ++ (lay_tester_ports l).*2 ++ [ctrl].

Lemma local_ports num base p :
  base + num < pow64 →
  p ∈ ric_port <$> gen_local_instances num base ↔ ∃ i, i < num ∧ p = base + i.
Proof.
  intros Hfit. unfold gen_local_instances. rewrite <- list_fmap_compose, list_elem_of_fmap.
  split.
  - intros (i & -> & Hi%elem_of_upto). simpl. rewrite add64_small by lia. eauto.
  - intros (i & Hi & ->). exists i. rewrite elem_of_upto. simpl. by rewrite add64_small by lia.
Qed.

Lemma length_upto n : length (upto n) = N.to_nat n.
Proof. unfold upto. by rewrite length_fmap, length_seq. Qed.

Lemma tester_ports num base tester p :
  tester + num < pow64 →
  p ∈ (lay_tester_ports (lay_out (gen_local_instances num base) tester)).*2 →
  ∃ i, i < num ∧ p = tester + i.
Proof.
  intros Hfit Hp. apply list_elem_of_fmap in Hp as (q & -> & Hq). simpl in Hq.
  apply elem_of_lookup_imap in Hq as (k & inst & -> & Hk).
  apply lookup_lt_Some in Hk. unfold gen_local_instances in Hk.
  rewrite length_fmap, length_upto in Hk. exists (N.of_nat k). simpl.
  rewrite add64_small by lia. split; [lia|done].
Qed.

(** Where the ports of a round are. *)
Lemma round_ports_range r n p :
  r < 32 → n ≤ 10 → p ∈ round_ports r n →
  (∃ i, i < n ∧ (p = 50160 + r * 10 + i ∨ p = 51160 + r * 10 + i)) ∨
  (∃ i, i ≤ n ∧ p = 55200 + r * (n + 2) + i).
Proof.
  intros Hr Hn Hp.
  assert (r * 10 < 320) by lia. assert (r * (n + 2) < 400) by nia.
  unfold round_ports, create_cluster, RAFT_BASE, RAFT_STEP, CTRL_BASE, TESTER_BASE in Hp.
  rewrite !elem_of_app, list_elem_of_singleton in Hp.
  destruct Hp as [Hp|[Hp|[Hp| ->]]].
  - apply local_ports in Hp as (i & ? & ->); [|unfold pow64, RAFT_BASE, RAFT_STEP; lia].
    left. exists i. unfold RAFT_BASE, RAFT_STEP. lia.
  - simpl in Hp. apply list_elem_of_fmap in Hp as (inst & -> & Hi).
    assert (ric_port inst ∈ ric_port <$> gen_local_instances n (50160 + r * 10)) as Hq
      by (apply list_elem_of_fmap; eauto).
    apply local_ports in Hq as (i & ? & Hq); [|unfold pow64; lia].
    left. exists i. unfold KV_PORT_OFFSET. rewrite Hq, add64_small by (unfold pow64; lia). lia.
  - apply tester_ports in Hp as (i & ? & ->); [|unfold pow64; lia].
    right. exists (i + 1). lia.
  - right. exists 0. lia.
Qed.

(** The rounds of the throughput benchmark never share a port, and every port
    is a valid one, for clusters of at most ten nodes and up to 32 rounds (the
    number of clients doubles with every round). *)
Lemma rounds_disjoint r1 r2 n p :
  r1 < 32 → r2 < 32 → n ≤ 10 → p ∈ round_ports r1 n → p ∈ round_ports r2 n →
  r1 = r2 ∧ p < 65536.
Proof.
  intros H1 H2 Hn Hp1 Hp2.
  apply round_ports_range in Hp1; [|done..]. apply round_ports_range in Hp2; [|done..].
  assert (r1 * (n + 2) < 400) by nia. assert (r2 * (n + 2) < 400) by nia.
  destruct Hp1 as [(i & Hi & Hp1)|(i & Hi & Hp1)], Hp2 as [(j & Hj & Hp2)|(j & Hj & Hp2)];
    [lia|lia|lia|]. split; [|lia]. nia.
Qed.

Lemma rounds_disjoint_witness :
  ∃ p, p ∈ round_ports 4 5 ∧ (4 = 4 ∧ p < 65536).
Proof.
  exists 50200. assert (50200 ∈ round_ports 4 5) as Hp.
  { apply (bool_decide_unpack _). vm_compute. exact I. }
  split; [exact Hp|]. apply (rounds_disjoint 4 4 5 50200); [reflexivity|reflexivity| |exact Hp|exact Hp].
  apply N.leb_le. reflexivity.
Defined.

(** With more than ten nodes the Raft ports of consecutive rounds overlap. *)
Lemma eleven_nodes_overlap : 50170 ∈ round_ports 0 11 ∧ 50170 ∈ round_ports 1 11.
Proof. split; apply (bool_decide_unpack _); by vm_compute. Qed.

(** ** Instances of the Abseil functions *)

Module Absl.
(** Split at every occurrence of a one character separator. *)
Fixpoint split_at (c : Ascii.ascii) (acc s : string) : list string :=
  match s with
  | EmptyString => [acc]
  | String.String x s =>
      if Ascii.eqb x c then acc :: split_at c EmptyString s
      else split_at c (acc +:+ String.String x EmptyString)%string s
  end.

Definition StrSplit (s sep : string) : list string :=
  match sep with String.String c _ => split_at c EmptyString s | EmptyString => [s] end.

Definition StrJoin (parts : list string) (sep : string) : string := String.concat sep parts.

Fixpoint digits (acc : N) (s : string) : option N :=
  match s with
  | EmptyString => Some acc
  | String.String x s =>
      let d := Ascii.N_of_ascii x in
      if (48 <=? d) && (d <=? 57) then digits (10 * acc + (d - 48)) s else None
  end.

Definition SimpleAtoi (s : string) : option N :=
  match s with EmptyString => None | _ => digits 0 s end.
End Absl.

Definition two_peers : gmap N string :=
  {[1 := "localhost:50051"%string; 2 := "localhost:50052"%string]}.

Lemma flag_roundtrip_witness :
  AbslUnparseFlag Absl.StrJoin two_peers = "1+localhost:50051,2+localhost:50052"%string ∧
  AbslParseFlag Absl.StrSplit Absl.SimpleAtoi (AbslUnparseFlag Absl.StrJoin two_peers) ∅ =
  inr two_peers.
Proof.
  split; [vm_compute; reflexivity|].
  apply (flag_roundtrip Absl.StrSplit Absl.StrJoin Absl.SimpleAtoi two_peers).
  - intros parts _. split; [discriminate|]. vm_compute. reflexivity.
  - intros i a H. apply elem_of_map_to_list, list_elem_of_In in H. vm_compute in H.
    destruct H as [H|[H|[]]]; injection H as <- <-; vm_compute; reflexivity.
  - intros i a H. apply elem_of_map_to_list, list_elem_of_In in H. vm_compute in H.
    destruct H as [H|[H|[]]]; injection H as <- <-; vm_compute; reflexivity.
Defined.

Lemma dis_conn_roundtrip_witness :
  let n := setup_rank {["0"; "1"; "2"]} NetInterceptor_init in
  foldl apply_op n ((Disconnect <$> ["1"; "2"]) ++ (Reconnect <$> ["1"; "2"])) = n.
Proof.
  intros n. apply (dis_conn_roundtrip {["0"; "1"; "2"]} n ["1"; "2"]).
  - apply splits_setup.
  - intros i Hi. apply list_elem_of_In in Hi. apply (bool_decide_unpack _).
    destruct Hi as [<-|[<-|[]]]; vm_compute; exact I.
  - apply (bool_decide_unpack _). vm_compute. exact I.
Defined.

(** The help text of [raft_node] separates ids by commas; the command is split at
    blanks, so a comma stays with its id, which then names no node. *)
Lemma comma_separated_ids_ignored :
  let cmd := handle_cmd (λ s, s) Absl.StrSplit "dis 1, 2" in
  let n := setup_rank {["0"; "1"; "2"]} NetInterceptor_init in
  cmd = (NNet [Disconnect "1,"; Disconnect "2"], false) ∧
  rank2 (foldl apply_op n [Disconnect "1,"; Disconnect "2"]) = {["2"]}.
Proof. split; vm_compute; reflexivity. Qed.
