(* ===== verification/Wrapper.v ===== *)
(** The node under the tester's control: [RaftWrapper] of
    [inc/toolings/raft_wrapper.hpp], a [Raft] with the service
    [TesterCommNodeService] and the stream of committed entries. *)
From S2P Require Import Prelude Types ConfigGen RaftState RaftNode Cluster NetInterceptor NodeApp.

#[local] Open Scope N_scope.

(** The members that the service touches; [runs] counts the threads that [run]
    has started, [server_up] tells whether the Raft server listens, [node_svr] is the
    address of the tester's server while it listens, [ctrl_svr] the one that the stub of
    the controller calls, and [helper] the joinable shutdown thread. *)
Record RaftWrapper := mkRaftWrapper {
  rw_raft : Raft;
  rw_id : N;
  rw_net : NetInterceptor;
  rw_monitor : RpcMonitor;
  rw_with_ctrl : bool;
  rw_stop : bool;
  rw_shutdown_requested : bool;
  rw_runs : nat;
  rw_server_up : bool;
  rw_ready_closed : bool;
  rw_node_svr : option string;
  rw_ctrl_svr : option string;
  rw_helper : bool }.

Definition set_rw_raft (r : Raft) (x : RaftWrapper) : RaftWrapper :=
  mkRaftWrapper r (rw_id x) (rw_net x) (rw_monitor x) (rw_with_ctrl x) (rw_stop x)
    (rw_shutdown_requested x) (rw_runs x) (rw_server_up x) (rw_ready_closed x)
    (rw_node_svr x) (rw_ctrl_svr x) (rw_helper x).
Definition set_rw_net (n : NetInterceptor) (m : RpcMonitor) (x : RaftWrapper) : RaftWrapper :=
  mkRaftWrapper (rw_raft x) (rw_id x) n m (rw_with_ctrl x) (rw_stop x)
    (rw_shutdown_requested x) (rw_runs x) (rw_server_up x) (rw_ready_closed x)
    (rw_node_svr x) (rw_ctrl_svr x) (rw_helper x).
Definition set_rw_flags (stop requested : bool) (x : RaftWrapper) : RaftWrapper :=
  mkRaftWrapper (rw_raft x) (rw_id x) (rw_net x) (rw_monitor x) (rw_with_ctrl x) stop
    requested (rw_runs x) (rw_server_up x) (rw_ready_closed x)
    (rw_node_svr x) (rw_ctrl_svr x) (rw_helper x).
Definition set_rw_server (runs : nat) (up : bool) (x : RaftWrapper) : RaftWrapper :=
  mkRaftWrapper (rw_raft x) (rw_id x) (rw_net x) (rw_monitor x) (rw_with_ctrl x) (rw_stop x)
    (rw_shutdown_requested x) runs up (rw_ready_closed x)
    (rw_node_svr x) (rw_ctrl_svr x) (rw_helper x).
Definition set_rw_tester (closed : bool) (svr ctrl : option string) (helper : bool) (x : RaftWrapper) : RaftWrapper :=
  mkRaftWrapper (rw_raft x) (rw_id x) (rw_net x) (rw_monitor x) (rw_with_ctrl x) (rw_stop x)
    (rw_shutdown_requested x) (rw_runs x) (rw_server_up x) closed svr ctrl helper.

(** Where the tester's server listens, and what the node tells the controller. *)
Definition tester_addr (t_node_port : N) : string := ("localhost:" +:+ to_string t_node_port)%string.

Definition report_ready (config : Config) (pid : N) : N * N := (cfg_id config, pid).

(** The constructor of a node under control: the tester's server listens, the helper
    thread waits. *)
Definition RaftWrapper_init (ctrl_addr : string) (t_node_port : N) (config : Config) (r : N)
    (net : NetInterceptor) : RaftWrapper :=
  mkRaftWrapper (Raft_init config r) (cfg_id config) net (mkRpcMonitor 0 0) true false false 0
    false false (Some (tester_addr t_node_port)) (Some ctrl_addr) true.

(** The constructor without a controller; it leaves [id] unset, and nothing reads it. *)
Definition RaftWrapper_plain (config : Config) (r : N) (net : NetInterceptor) : RaftWrapper :=
  mkRaftWrapper (Raft_init config r) 0 net (mkRpcMonitor 0 0) false false false 0
    false false None None false.

(** [Raft::start_server] and [Raft::stop_server]: the Raft service is registered and
    listens, or is shut down if it was. *)
Definition start_server (x : RaftWrapper) : RaftWrapper := set_rw_server (rw_runs x) true x.
Definition stop_server (x : RaftWrapper) : RaftWrapper := set_rw_server (rw_runs x) false x.

(** ** The service *)

Definition Prepare (world : list N) (fail_type : N) (x : RaftWrapper) : RaftWrapper :=
  set_rw_net
    (set_type (fail_mode fail_type)
       (setup_rank (list_to_set (to_string <$> world)) (rw_net x)))
    (setup_rpc_monitor (rw_monitor x)) x.

(** [connect_peers] and [run]. *)
Definition Run (x : RaftWrapper) : RaftWrapper :=
  set_rw_server (S (rw_runs x)) (rw_server_up x) (set_rw_raft (connect_peers (rw_raft x)) x).

Definition Kill (x : RaftWrapper) : RaftWrapper :=
  set_rw_flags true true (stop_server (set_rw_raft (kill (rw_raft x)) x)).

(** The helper thread, once [shutdown_requested_] is set. *)
Definition shutdown_helper (x : RaftWrapper) : option RaftWrapper :=
  if rw_shutdown_requested x then
    Some (set_rw_tester true None (rw_ctrl_svr x) (rw_helper x) x)
  else None.

(** [cleanup], which the destructor calls; [None] if the join would not return. *)
Definition cleanup (x : RaftWrapper) : option RaftWrapper :=
  let x := if rw_with_ctrl x && negb (rw_shutdown_requested x)
           then set_rw_flags (rw_stop x) true x else x in
  x ← (if rw_helper x then shutdown_helper x else Some x);
  Some (set_rw_tester true None None false x).

(** The destructor: [cleanup], and [stop_server] of the base class. *)
Definition RaftWrapper_destroy (x : RaftWrapper) : option RaftWrapper :=
  x ← cleanup x; Some (stop_server x).

Definition Disconnect_ (ids : list N) (x : RaftWrapper) : RaftWrapper :=
  set_rw_net (foldl (λ n id, disconnect (to_string id) n) (rw_net x) ids) (rw_monitor x) x.

Definition Reconnect_ (ids : list N) (x : RaftWrapper) : RaftWrapper :=
  set_rw_net (foldl (λ n id, reconnect (to_string id) n) (rw_net x) ids) (rw_monitor x) x.

Record RPCStats := mkRPCStats { bytes : N; count : N; stats_id : N }.

Definition GetRPCStats (x : RaftWrapper) : RPCStats :=
  mkRPCStats (total_bytes_sent (rw_monitor x)) (total_rpc_count (rw_monitor x)) (rw_id x).

Record WireState := mkWireState { ws_term : N; ws_is_leader : bool; ws_id : N }.

Definition GetState (x : RaftWrapper) : WireState :=
  let state := get_state (rw_raft x) in
  mkWireState (st_term state) (st_is_leader state) (rw_id x).

Record WireProposal := mkWireProposal {
  wp_index : N; wp_term : N; wp_is_leader : bool; wp_id : N }.

Definition wire_proposal (id : N) (p : ProposalResult) : WireProposal :=
  mkWireProposal (pr_index p) (pr_term p) (pr_is_leader p) id.

Definition Propose (data : string) (x : RaftWrapper) : RaftWrapper * WireProposal :=
  let '(n, p) := propose data (rw_raft x) in (set_rw_raft n x, wire_proposal (rw_id x) p).

Definition ProposeSync (data : string) (now : Z) (polls : list Poll) (x : RaftWrapper)
    : RaftWrapper * option WireProposal :=
  let '(n, p) := propose_sync data now polls (rw_raft x) in
  (set_rw_raft n x, wire_proposal (rw_id x) <$> p).

(** The requests of the tester that change the node. *)
Inductive request :=
| RqPrepare (world : list N) (fail_type : N)
| RqRun
| RqKill
| RqDisconnect (ids : list N)
| RqReconnect (ids : list N)
| RqPropose (data : string)
| RqProposeSync (data : string) (now : Z) (polls : list Poll).

Definition serve (x : RaftWrapper) (q : request) : RaftWrapper :=
  match q with
  | RqPrepare world ft => Prepare world ft x
  | RqRun => Run x
  | RqKill => Kill x
  | RqDisconnect ids => Disconnect_ ids x
  | RqReconnect ids => Reconnect_ ids x
  | RqPropose d => (Propose d x).1
  | RqProposeSync d now polls => (ProposeSync d now polls x).1
  end.

(** ** The stream of committed entries *)

Record WireApply := mkWireApply { wa_result : ApplyResult; wa_id : N }.

(** What one turn of the loop reads: [stop], the dequeued result, [stop] again. *)
Record Turn := mkTurn { stop_before : bool; dequeued : ApplyResult; stop_after : bool }.

(** [applier]: what is written to the stream, and whether the loop has ended. *)
Fixpoint applier (id : N) (turns : list Turn) : list WireApply * bool :=
  match turns with
  | [] => ([], false)
  | t :: turns =>
      if stop_before t then ([], true)
      else if stop_after t then ([], true)
      else
        let '(written, ended) := applier id turns in
        (if valid (dequeued t) then mkWireApply (dequeued t) id :: written else written, ended)
  end.

(** [stop] is set once and for all. *)
Fixpoint stop_monotone (stopped : bool) (turns : list Turn) : Prop :=
  match turns with
  | [] => True
  | t :: turns =>
      (stopped = true → stop_before t = true) ∧ (stop_before t = true → stop_after t = true) ∧
      stop_monotone (stop_after t) turns
  end.

(** The stream carries the valid results that were dequeued before the stop,
    all of them, in order, under the id of the node; the loop ends exactly when a
    turn sees the stop. *)
Lemma applier_spec id turns :
  stop_monotone false turns →
  applier id turns =
  ((λ t, mkWireApply (dequeued t) id) <$>
     filter (λ t, stop_after t = false ∧ valid (dequeued t) = true) turns,
   existsb stop_after turns).
Proof.
  assert (∀ turns, stop_monotone true turns →
    filter (λ t, stop_after t = false ∧ valid (dequeued t) = true) turns = []) as Hstopped.
  { induction turns0 as [|t ts IH]; simpl; [done|]. intros (Hb & Ha & Hm).
    specialize (Ha (Hb eq_refl)). rewrite Ha in Hm.
    rewrite filter_cons_False by (rewrite Ha; by intros [? _]). auto. }
  induction turns as [|t turns IH]; simpl; [done|]. intros (_ & Ha & Hm).
  destruct (stop_after t) eqn:Hst.
  - rewrite filter_cons_False by (rewrite Hst; by intros [? _]). rewrite Hstopped by done. by destruct (stop_before t).
  - destruct (stop_before t); [by specialize (Ha eq_refl)|]. rewrite (IH Hm). simpl.
    destruct (valid (dequeued t)) eqn:Hv.
    + by rewrite filter_cons_True by done.
    + rewrite filter_cons_False; [done|]. rewrite Hv. by intros [_ ?].
Qed.

(** A prepared cluster starts connected: no call between members is cut in
    either mode, and the counters are zero. *)
Lemma prepare_connects world ft x i j :
  i ∈ world → j ∈ world →
  Intercept true (create_context i j) (rw_net (Prepare world ft x)) = false ∧
  GetRPCStats (Prepare world ft x) = mkRPCStats 0 0 (rw_id x).
Proof.
  intros Hi Hj. split; [|done]. rewrite intercept_context. unfold cut, Prepare. simpl.
  rewrite !bool_decide_eq_false_2 by set_solver. rewrite !andb_false_r.
  by destruct (fail_mode ft).
Qed.

Definition killed (x : RaftWrapper) : Prop :=
  rw_stop x = true ∧ rw_shutdown_requested x = true ∧ is_dead (rw_raft x) = true.

Lemma propose_keeps_dead d n : dead (propose d n).1 = dead n.
Proof. unfold propose. by case_decide. Qed.

Lemma propose_sync_node d now polls n : (propose_sync d now polls n).1 = (propose d n).1.
Proof. unfold propose_sync. destruct (propose d n) as [n' p]. by destruct (pr_is_leader p). Qed.

Lemma killed_serve x q : killed x → killed (serve x q).
Proof.
  intros (H1 & H2 & H3). destruct q; try done; simpl.
  - unfold Propose. destruct (propose data (rw_raft x)) as [n p] eqn:Hp.
    pose proof (propose_keeps_dead data (rw_raft x)) as Hd. rewrite Hp in Hd.
    split_and!; [done..|]. unfold is_dead in *. simpl in *. congruence.
  - unfold ProposeSync. destruct (propose_sync data now polls (rw_raft x)) as [n p] eqn:Hp.
    pose proof (propose_sync_node data now polls (rw_raft x)) as Hn. rewrite Hp in Hn.
    pose proof (propose_keeps_dead data (rw_raft x)) as Hd. rewrite <- Hn in Hd.
    split_and!; [done..|]. unfold is_dead in *. simpl in *. congruence.
Qed.

Lemma killed_served qs : ∀ x, killed x → killed (foldl serve x qs).
Proof. induction qs as [|q qs IH]; intros x Hx; simpl; auto using killed_serve. Qed.

(** [Kill] is final: whatever is requested afterwards, the node stays dead,
    its thread does not start another turn of the main loop, and the stream of
    committed entries sees the stop. *)
Lemma kill_final x qs :
  let y := foldl serve (Kill x) qs in
  rw_stop y = true ∧ is_dead (rw_raft y) = true ∧
  ∀ i now rpc c, thread_step (LTop i now) i (mkProc (rw_raft y) PcTop rpc) c = Disabled.
Proof.
  intros y. assert (killed y) as (H1 & _ & H3) by (by apply killed_served).
  split_and!; [done..|]. intros i now rpc c. unfold thread_step. simpl. by rewrite H3.
Qed.

(** Only a node under control has the helper thread. *)
Definition controlled (x : RaftWrapper) : Prop := rw_helper x = true → rw_with_ctrl x = true.

Lemma controlled_serve x q : controlled x → controlled (serve x q).
Proof.
  intros H. destruct q; try done; simpl.
  - unfold Propose. by destruct (propose data (rw_raft x)).
  - unfold ProposeSync. by destruct (propose_sync data now polls (rw_raft x)).
Qed.

Lemma controlled_served qs : ∀ x, controlled x → controlled (foldl serve x qs).
Proof. induction qs as [|q qs IH]; intros x Hx; simpl; auto using controlled_serve. Qed.

Lemma controlled_init addr port config r net qs :
  controlled (foldl serve (RaftWrapper_init addr port config r net) qs) ∧
  controlled (foldl serve (RaftWrapper_plain config r net) qs).
Proof. split; by apply controlled_served. Qed.

(** The destructor of such a node returns, whatever was requested of it: its join waits
    for a helper that has been asked to stop.  Both servers are down then and the queue
    is closed, so that no reader of the queue blocks. *)
Lemma destroy_returns x :
  controlled x →
  ∃ y, RaftWrapper_destroy x = Some y ∧ rw_raft y = rw_raft x ∧
    rw_ready_closed y = true ∧ rw_node_svr y = None ∧ rw_server_up y = false ∧
    rw_helper y = false.
Proof.
  rename x into z. intros Hc. unfold RaftWrapper_destroy, cleanup, controlled in *.
  destruct (rw_helper z) eqn:Hh, (rw_with_ctrl z) eqn:Hw, (rw_shutdown_requested z) eqn:Hs;
    simpl; rewrite ?Hh; simpl; try (by eexists; split; [reflexivity|]).
  - unfold shutdown_helper. rewrite Hs. simpl. by eexists.
  - by specialize (Hc eq_refl).
  - by specialize (Hc eq_refl).
Qed.

Definition turns2 : list Turn :=
  [mkTurn false (mkApplyResult true "a" 1) false; mkTurn false (mkApplyResult false "" 0) false;
   mkTurn false (mkApplyResult true "b" 2) true].

Lemma applier_spec_witness :
  applier 7 turns2 = ([mkWireApply (mkApplyResult true "a" 1) 7], true).
Proof.
  etransitivity; [apply (applier_spec 7 turns2); repeat split; discriminate|].
  vm_compute. reflexivity.
Defined.

Lemma prepare_connects_witness :
  let x := Prepare [0; 1; 2] 1 (RaftWrapper_init "" 55001 (mkConfig 0 "" ∅) 0 NetInterceptor_init) in
  Intercept true (create_context 0 1) (rw_net x) = false ∧ GetRPCStats x = mkRPCStats 0 0 0.
Proof.
  intros x.
  apply (prepare_connects [0; 1; 2] 1 (RaftWrapper_init "" 55001 (mkConfig 0 "" ∅) 0 NetInterceptor_init));
    apply (bool_decide_unpack _); vm_compute; exact I.
Defined.
