(* ===== verification/KvNode.v ===== *)
(** [KvNodeWrapper::Apply] of [app/kv_node.cpp]: the thread that drains the ready
    queue of the node into the key-value server, and the background thread that
    streams the same entries to the tester.

    A step is one critical section of [write_mu], one call of [Write], or a result taken
    from the queue and given to [on_apply] (whose own sections are in [KvService.v]).  The
    code ignores what [Write] returns; [written] is what has been handed to it. *)
From S2P Require Import Prelude Types KvCodec KvServer Wrapper.

#[local] Open Scope N_scope.

Module ApplyStream.

(** The apply loop: at its head, before the push of a result to [write_buf], after the loop,
    returned from [join]. *)
Inductive main_pc := MLoop | MPush (result : ApplyResult) | MSignalled | MReturned.

Definition stopping (m : main_pc) : bool :=
  match m with MLoop | MPush _ => false | MSignalled | MReturned => true end.

(** The writer: at the wait, with a swapped buffer to write, gone. *)
Inductive writer_pc := WWait | WWrite | WGone.

Record state := mkState {
  kv : KvServer;
  write_buf : list WireApply;
  local : list WireApply;
  write_stopped : bool;
  main : main_pc;
  writer : writer_pc;
  written : list WireApply;
  taken : list ApplyResult }.

Definition start : state := mkState KvServer_init [] [] false MLoop WWait [] [].

Inductive label :=
| Dequeue (result : ApplyResult)
| Push
| Die
| Swap
| Write
| Join.

Section node.
Context (node_id_ : N).

(** A result that was dequeued while the node is alive. *)
Definition take_result (result : ApplyResult) (s : state) : state :=
  if valid result then
    mkState (on_apply result (kv s)).1 (write_buf s) (local s) (write_stopped s)
      (MPush result) (writer s) (written s) (taken s ++ [result])
  else s.

Definition step (l : label) (s : state) : option state :=
  match l with
  | Dequeue result =>
      match main s with MLoop => Some (take_result result s) | _ => None end
  | Push =>
      match main s with
      | MPush result =>
          Some (mkState (kv s) (write_buf s ++ [mkWireApply result node_id_]) (local s)
                  (write_stopped s) MLoop (writer s) (written s) (taken s))
      | _ => None
      end
  | Die =>
      match main s with
      | MLoop => Some (mkState (kv s) (write_buf s) (local s) true MSignalled (writer s)
                         (written s) (taken s))
      | _ => None
      end
  | Swap =>
      match writer s, write_buf s with
      | WWait, [] =>
          if write_stopped s
          then Some (mkState (kv s) [] (local s) true (main s) WGone (written s) (taken s))
          else None
      | WWait, _ =>
          Some (mkState (kv s) (local s) (write_buf s) (write_stopped s) (main s) WWrite
                  (written s) (taken s))
      | _, _ => None
      end
  | Write =>
      match writer s, local s with
      | WWrite, r :: rest =>
          Some (mkState (kv s) (write_buf s) rest (write_stopped s) (main s) WWrite
                  (written s ++ [r]) (taken s))
      | WWrite, [] =>
          Some (mkState (kv s) (write_buf s) [] (write_stopped s) (main s) WWait
                  (written s) (taken s))
      | _, _ => None
      end
  | Join =>
      match main s, writer s with
      | MSignalled, WGone =>
          Some (mkState (kv s) (write_buf s) (local s) (write_stopped s) MReturned WGone
                  (written s) (taken s))
      | _, _ => None
      end
  end.

Fixpoint run (ls : list label) (s : state) : option state :=
  match ls with [] => Some s | l :: ls => s ← step l s; run ls s end.

(** The result that has not been pushed yet. *)
Definition in_hand (s : state) : list WireApply :=
  match main s with MPush result => [mkWireApply result node_id_] | _ => [] end.

Record inv (s : state) : Prop := {
  inv_order : written s ++ local s ++ write_buf s ++ in_hand s =
              (λ r, mkWireApply r node_id_) <$> taken s;
  inv_wait : writer s = WWait → local s = [];
  inv_gone : writer s = WGone → local s = [] ∧ write_buf s = [] ∧ stopping (main s) = true;
  inv_stop : write_stopped s = stopping (main s);
  inv_join : main s = MReturned → writer s = WGone;
  inv_kv : kv s = apply_all (taken s) KvServer_init }.

Lemma inv_start : inv start.
Proof. split; try done. Qed.

Lemma stream_inv_step l s s' : step l s = Some s' → inv s → inv s'.
Proof.
  intros Hs [Ho Hw Hg Hst Hj Hkv]. destruct s as [k b loc st m w wr tk].
  unfold in_hand in *. simpl in *. destruct l; simpl in Hs.
  - destruct m; try done. injection Hs as <-. unfold take_result. simpl.
    destruct (valid result); [|by split]. split; unfold in_hand; simpl in *; try done.
    + rewrite app_nil_r in Ho. rewrite fmap_app, <- Ho. simpl. by rewrite <- !app_assoc.
    + rewrite Hkv. unfold apply_all. by rewrite foldl_app.
  - destruct m; try done. injection Hs as <-. split; unfold in_hand; simpl in *; try done.
    + by rewrite app_nil_r.
    + intros E. by destruct (Hg E) as (_ & _ & ?).
  - destruct m; try done. injection Hs as <-. split; unfold in_hand; simpl; try done.
    intros E. by destruct (Hg E) as (_ & _ & ?).
  - destruct w; try done. specialize (Hw eq_refl). subst loc.
    destruct b as [|r b]; [destruct st; [|done]|]; injection Hs as <-; split; unfold in_hand; simpl; try done.
    intros E. by specialize (Hj E).
  - destruct w; try done.
    destruct loc as [|r loc]; injection Hs as <-; split; unfold in_hand; simpl; try done.
    + intros E. by specialize (Hj E).
    + by rewrite <- app_assoc.
  - destruct m, w; try done. injection Hs as <-. destruct (Hg eq_refl) as (-> & -> & _).
    split; unfold in_hand; simpl; done.
Qed.

Lemma inv_run ls : ∀ s s', run ls s = Some s' → inv s → inv s'.
Proof.
  induction ls as [|l ls IH]; intros s s' Hrun Hs; simpl in Hrun; [by simplify_eq|].
  undo_bind. eauto using stream_inv_step.
Qed.

(** C34: the stream to the tester follows the key-value server: what has been handed to
    [Write] is, in order, a prefix of what the server has applied, whatever the speed of the
    writer, the rest is in the two buffers and in the hands of the apply loop; and when
    [Apply] returns nothing has been left out. *)
Theorem stream_follows_server ls s :
  run ls start = Some s →
  kv s = apply_all (taken s) KvServer_init ∧
  (λ r, mkWireApply r node_id_) <$> taken s = written s ++ local s ++ write_buf s ++ in_hand s ∧
  (main s = MReturned → (λ r, mkWireApply r node_id_) <$> taken s = written s).
Proof.
  intros Hrun. destruct (inv_run ls start s Hrun inv_start) as [Ho _ Hg _ Hj Hkv].
  split_and!; [done|done|]. intros E. destruct (Hg (Hj E)) as (E1 & E2 & _).
  rewrite <- Ho, E1, E2. unfold in_hand. by rewrite E, app_nil_r.
Qed.

(** What the writer still has to do once the node is dead. *)
Definition backlog (s : state) : nat :=
  match writer s with
  | WGone => 1
  | WWait => match write_buf s with [] => 2 | b => 4 + length b end
  | WWrite => 3 + length (local s) +
              match write_buf s with [] => 0 | b => 2 + length b end
  end.

(** Once the node is dead, [Apply] returns: after the loop has ended, every
    step is a step of the writer or the join, each of them brings the end nearer,
    and one is always possible until [Apply] has returned. *)
Lemma apply_returns ls s :
  run ls start = Some s → main s = MSignalled →
  (∃ l s', step l s = Some s') ∧
  (∀ l s', step l s = Some s' →
     main s' = MReturned ∨ (main s' = MSignalled ∧ (backlog s' < backlog s)%nat)).
Proof.
  intros Hrun Hm. destruct (inv_run ls start s Hrun inv_start) as [Ho Hw Hg Hst Hj Hkv].
  destruct s as [k b loc st m w wr tk]. simpl in *. subst m. clear Hkv Ho. split.
  - destruct w.
    + exists Swap. simpl. destruct b; [|eauto]. rewrite Hst. simpl. eauto.
    + exists Write. simpl. destruct loc; eauto.
    + exists Join. simpl. eauto.
  - intros l s' Hs. destruct l; simpl in Hs; try done.
    + destruct w; try done. specialize (Hw eq_refl). subst loc.
      destruct b as [|r b]; [destruct st; [|done]|]; injection Hs as <-; right; (split; [done|]);
        unfold backlog; simpl; lia.
    + destruct w; try done. destruct loc; injection Hs as <-; right; (split; [done|]);
        unfold backlog; simpl; destruct b; simpl; lia.
    + destruct w; try done. injection Hs as <-. by left.
Qed.
End node.

(** ** A stream *)

Definition two_entries : list label :=
  [Dequeue (mkApplyResult true "a" 1); Push; Swap; Dequeue (mkApplyResult true "b" 2); Write; Push; Die].

Lemma stream_follows_server_witness :
  ∃ s, run 7 (two_entries ++ [Write; Swap; Write; Write; Swap; Join]) start = Some s ∧
    main s = MReturned ∧
    ((λ r, mkWireApply r 7) <$> taken s = written s).
Proof.
  eexists. split; [vm_compute; reflexivity|]. split; [reflexivity|].
  apply (stream_follows_server 7 (two_entries ++ [Write; Swap; Write; Write; Swap; Join]));
    [vm_compute; reflexivity|reflexivity].
Defined.

Lemma apply_returns_witness :
  ∃ s l s', run 7 two_entries start = Some s ∧ main s = MSignalled ∧ step 7 l s = Some s'.
Proof.
  destruct (apply_returns 7 two_entries
    (mkState (apply_all [mkApplyResult true "a" 1; mkApplyResult true "b" 2] KvServer_init)
       [mkWireApply (mkApplyResult true "b" 2) 7] [] true MSignalled WWrite
       [mkWireApply (mkApplyResult true "a" 1) 7]
       [mkApplyResult true "a" 1; mkApplyResult true "b" 2])) as [(l & s' & Hs) _];
    [vm_compute; reflexivity|reflexivity|].
  eexists. exists l, s'. split; [vm_compute; reflexivity|]. split; [reflexivity|exact Hs].
Defined.
End ApplyStream.
