(* ===== verification/TestCtrl.v ===== *)
(** The controller of the integration tests: [RaftTestCtrl] of
    [inc/toolings/test_ctrl.hpp], which spawns the nodes, waits until they have
    reported, and sends the tester's requests to all of them.

    A remote call is a parameter: the reply of every node, [None] when its status is
    not OK.  [unordered_map]s are iterated in the order of [map_to_list]; nothing here
    depends on it.  [None] of an operation is an exception or [exit]. *)
From S2P Require Import Prelude Types ConfigGen RaftState RaftNode Cluster NetInterceptor.
From S2P Require Import KvCodec NodeApp Wrapper.

#[local] Open Scope N_scope.
#[local] Open Scope rafty_scope.

(** ** Spawning *)

(** [s.substr(0, n)] *)
Definition substr0 (n : N) (s : string) : string :=
  String.substring 0 (N.to_nat (N.min n (N.of_nat (String.length s)))) s.

(** The value of [--peers]: every peer followed by a comma, less the last one. *)
Definition peers_arg (peers : gmap N string) : string :=
  let ss := foldl (λ ss p, ss +:+ unparse_part p +:+ ",")%string EmptyString (in_key_order peers) in
  substr0 (N.of_nat (String.length ss) -₆₄ 1) ss.

Record DDBConfig := mkDDBConfig {
  enable_ddb : bool;
  ddb_host_ip : string;
  wait_for_attach : bool;
  ddb_app_wrapper : bool }.

Definition format_flags (d : DDBConfig) : string :=
  if enable_ddb d then
    ("--ddb --ddb_host_ip " +:+ ddb_host_ip d +:+ " " +:+
     (if wait_for_attach d then "--wait_for_attach" else ""))%string
  else EmptyString.

Section spawn.
Context (StrSplit : string → string → list string).

(** Is [ddb_runapp] in the path? *)
Context (has_runapp : bool).

(** The command that starts a node; [None] is [exit(1)] on a malformed address,
    or the exception of [node_tester_ports.at]. *)
Definition spawn_command (node_app_path ctrl_addr : string) (fail_type verbosity : N)
    (ddb_conf : option DDBConfig) (ports : gmap N N) (config : Config) : option string :=
  let command :=
    (node_app_path +:+ " --enable_ctrl --ctrl_addr " +:+ ctrl_addr +:+ " --fail_type " +:+
     to_string fail_type +:+ " --verbosity " +:+ to_string verbosity)%string in
  let command :=
    match ddb_conf with
    | Some d => if enable_ddb d then (command +:+ " " +:+ format_flags d)%string else command
    | None => command
    end in
  match StrSplit (cfg_addr config) ":" with
  | [_; port] =>
      tester_port ← ports !! cfg_id config;
      let id := to_string (cfg_id config) in
      let peers := peers_arg (cfg_peer_addrs config) in
      let cmd :=
        (command +:+ " --id " +:+ id +:+ " --port " +:+ port +:+
         (if bool_decide (peers = EmptyString) then "" else " --peers " +:+ peers) +:+
         " --node_tester_port " +:+ to_string tester_port +:+
         " > node_runner_" +:+ id +:+ ".log 2>&1 &")%string in
      Some (match ddb_conf with
            | Some d => if enable_ddb d && ddb_app_wrapper d && has_runapp
                        then ("ddb_runapp " +:+ cmd)%string else cmd
            | None => cmd
            end)
  | _ => None
  end.
End spawn.

(** ** State *)

Record RaftTestCtrl := mkRaftTestCtrl {
  ready_nodes : gmap N bool;
  node_pids : gmap N N;
  killed_ : bool;
  node_tester_ports : gmap N N;
  nodes : list N }.

(** The constructor, once the processes are spawned. *)
Definition RaftTestCtrl_init (configs : list Config) (ports : gmap N N) : RaftTestCtrl :=
  mkRaftTestCtrl (list_to_map ((λ cfg, (cfg_id cfg, false)) <$> configs)) ∅ false ports [].

Definition ReportReady (id pid : N) (s : RaftTestCtrl) : RaftTestCtrl :=
  mkRaftTestCtrl (<[id := true]> (ready_nodes s)) (<[id := pid]> (node_pids s))
    (killed_ s) (node_tester_ports s) (nodes s).

Definition is_all_ready (s : RaftTestCtrl) : bool :=
  forallb snd (map_to_list (ready_nodes s)).

(** [connect_to_raft_nodes]; [None] while the condition variable blocks. *)
Definition connect_to_raft_nodes (s : RaftTestCtrl) : option RaftTestCtrl :=
  if is_all_ready s || killed_ s then
    Some (if killed_ s then s
          else mkRaftTestCtrl (ready_nodes s) (node_pids s) (killed_ s) (node_tester_ports s)
                 ((map_to_list (node_tester_ports s)).*1))
  else None.

(** ** Requests to all nodes *)

(** The nodes that a request goes to: [connected.at(id)] throws for a node that a
    non-empty filter does not mention. *)
Definition selected (connected : gmap N bool) (s : RaftTestCtrl) : option (list N) :=
  if bool_decide (connected = ∅) then Some (nodes s)
  else foldr (λ id rest, b ← connected !! id; ids ← rest; Some (if (b : bool) then id :: ids else ids))
         (Some []) (nodes s).

(** Every reply, in the order of the requests; the default message for a call that
    failed. *)
Definition gather {A} (dflt : A) (connected : gmap N bool) (call : N → option A)
    (s : RaftTestCtrl) : option (list A) :=
  match selected connected s with
  | Some ids => Some ((λ id, default dflt (call id)) <$> ids)
  | None => None
  end.

Definition get_all_states (connected : gmap N bool) (GetState : N → option WireState)
    (s : RaftTestCtrl) : option (list WireState) :=
  gather (mkWireState 0 false 0) connected GetState s.

Definition propose_to_all (connected : gmap N bool) (Propose : N → option WireProposal)
    (s : RaftTestCtrl) : option (list WireProposal) :=
  gather (mkWireProposal 0 0 false 0) connected Propose s.

Definition propose_to_one (id : N) (Propose : N → option WireProposal) (s : RaftTestCtrl)
    : option WireProposal :=
  if bool_decide (id ∈ nodes s) then Propose id else None.

Definition propose_to_all_sync (connected : gmap N bool) (ProposeSync : N → option WireProposal)
    (s : RaftTestCtrl) : option (list WireProposal) :=
  gather (mkWireProposal 0 0 false 0) connected ProposeSync s.

Definition propose_to_one_sync (id : N) (ProposeSync : N → option WireProposal) (s : RaftTestCtrl)
    : option WireProposal :=
  if bool_decide (id ∈ nodes s) then ProposeSync id else None.

Definition get_all_rpc_stats (GetRPCStats : N → option RPCStats) (s : RaftTestCtrl)
    : list RPCStats :=
  (λ id, default (mkRPCStats 0 0 0) (GetRPCStats id)) <$> nodes s.

Definition get_total_rpc_stats (GetRPCStats : N → option RPCStats) (s : RaftTestCtrl) : RPCStats :=
  let '(total_bytes, total_count) :=
    foldl (λ '(b, c) stat, (b +₆₄ bytes stat, c +₆₄ count stat)) (0, 0)
      (get_all_rpc_stats GetRPCStats s) in
  mkRPCStats total_bytes total_count 0.

(** [run], [disconnect] and [reconnect]: one request to every node, and [exit(1)]
    unless all of them succeed.  The ids travel as [uint32]. *)
Definition call_all (connected : gmap N bool) (ok : N → bool) (f : RaftWrapper → RaftWrapper)
    (world : gmap N RaftWrapper) (s : RaftTestCtrl) : option (gmap N RaftWrapper) :=
  ids ← selected connected s;
  if forallb ok ids then Some (foldr (λ id w, alter f id w) world ids) else None.

Definition run_all (connected : gmap N bool) (ok : N → bool) := call_all connected ok Run.
Definition disconnect_nodes (ids : list N) (ok : N → bool) :=
  call_all ∅ ok (Disconnect_ (wrap32 <$> ids)).
Definition reconnect_nodes (ids : list N) (ok : N → bool) :=
  call_all ∅ ok (Reconnect_ (wrap32 <$> ids)).

(** ** Killing *)

(** The RPC attempts: [rpc k id] tells whether the Kill call of attempt [k] returned OK
    in time.  The result is the number of attempts made. *)
Fixpoint kill_attempts (retry fuel : nat) (rpc : nat → N → bool) (ids : list N) : nat :=
  match fuel with
  | O => retry
  | S fuel => if forallb (rpc retry) ids then S retry else kill_attempts (S retry) fuel rpc ids
  end.

(** What [kill] does after its attempts: [alive1], [alive2] are the processes found
    alive by the two probes; the result is the list of nodes sent a SIGKILL. *)
Definition sweep (alive1 alive2 : gset N) (s : RaftTestCtrl) : list N :=
  let pids := map_to_list (node_pids s) in
  if forallb (λ p, bool_decide (p.2 ∉ alive1)) pids then []
  else (filter (λ p, p.2 ∈ alive2) pids).*2.

Definition kill_all (rpc : nat → N → bool) (alive1 alive2 : gset N) (s : RaftTestCtrl)
    : RaftTestCtrl * nat * list N :=
  (mkRaftTestCtrl (ready_nodes s) (node_pids s) true (node_tester_ports s) (nodes s),
   kill_attempts 0 3 rpc (nodes s), sweep alive1 alive2 s).

(** ** A spawned node knows its peers *)

Lemma string_length_app s t : String.length (s +:+ t) = (String.length s + String.length t)%nat.
Proof. induction s as [|c s IH]; [done|]. exact (f_equal S IH). Qed.

Lemma substring_all s t : String.substring 0 (String.length s) (s +:+ t) = s.
Proof. induction s as [|c s IH]; [by destruct t|]. exact (f_equal (String.String c) IH). Qed.

(** Dropping the last character. *)
Lemma substr0_snoc s c :
  N.of_nat (String.length s) + 1 < pow64 →
  let t := (s +:+ String.String c EmptyString)%string in
  substr0 (N.of_nat (String.length t) -₆₄ 1) t = s.
Proof.
  intros Hlen t. unfold substr0, t. rewrite string_length_app. simpl.
  rewrite sub64_small by lia.
  replace (N.to_nat _) with (String.length s) by lia. apply substring_all.
Qed.

(** The loop over the peers writes the parts with a comma after each. *)
Lemma peers_stream (l : list (N * string)) p : ∀ acc,
  foldl (λ ss p, ss +:+ unparse_part p +:+ ",")%string acc (p :: l) =
  (acc +:+ String.concat "," (unparse_part <$> (p :: l)) +:+ ",")%string.
Proof.
  revert p. induction l as [|q l IH]; intros p acc; [done|].
  cbn [foldl fmap list_fmap String.concat] in *. rewrite IH.
  rewrite !string_app_assoc. done.
Qed.

Lemma peers_arg_concat m :
  N.of_nat (String.length (String.concat "," (unparse_part <$> in_key_order m))) + 1 < pow64 →
  peers_arg m = String.concat "," (unparse_part <$> in_key_order m).
Proof.
  intros Hlen. unfold peers_arg. destruct (in_key_order m) as [|p l]; [done|].
  rewrite peers_stream. by apply substr0_snoc.
Qed.

(** Parsing what the launcher wrote, for any way of splitting that undoes the commas
    of these parts. *)
Lemma parse_peers StrSplit SimpleAtoi m :
  let parts := unparse_part <$> in_key_order m in
  parts ≠ [] → StrSplit (String.concat "," parts) "," = parts →
  String.concat "," parts ≠ EmptyString →
  (∀ i a, m !! i = Some a → StrSplit (unparse_part (i, a)) "+" = [to_string i; a]) →
  (∀ i a, m !! i = Some a → SimpleAtoi (to_string i) = Some i) →
  AbslParseFlag StrSplit SimpleAtoi (String.concat "," parts) ∅ = inr m.
Proof.
  intros parts Hne Hsplit Hemp Hpart Hatoi.
  assert (∀ q, q ∈ in_key_order m → m !! q.1 = Some q.2) as Hin.
  { intros [i a] Hq. rewrite in_key_order_perm in Hq. by apply elem_of_map_to_list. }
  assert (NoDup (in_key_order m).*1) as Hnd
    by (rewrite in_key_order_perm; apply NoDup_fst_map_to_list).
  unfold AbslParseFlag. rewrite bool_decide_eq_false_2 by done.
  rewrite Hsplit. unfold parts. rewrite parse_parts_unparsed.
  - f_equal. rewrite foldl_insert_list by (done || (intros; apply lookup_empty)).
    rewrite (right_id_L ∅ (∪)).
    rewrite (list_to_map_proper _ (map_to_list m)) by (done || apply in_key_order_perm).
    apply list_to_map_to_list.
  - intros [i a] Hq. apply Hpart, (Hin (i, a)), Hq.
  - intros [i a] Hq. apply (Hatoi i a), (Hin (i, a)), Hq.
Qed.

Lemma unparse_nonempty p : unparse_part p ≠ EmptyString.
Proof. destruct p as [i a]. unfold unparse_part. cbn [fst snd]. by destruct (to_string i). Qed.

Lemma concat_nonempty p ps : p ≠ EmptyString → String.concat "," (p :: ps) ≠ EmptyString.
Proof. by destruct p, ps. Qed.

(** A node that the controller spawns parses exactly the peers of its
    configuration from its command line, trailing comma dropped and all.  The
    hypotheses say what Abseil does with these strings, and that the command line
    fits the address space. *)
Lemma spawned_peers StrSplit SimpleAtoi m :
  let parts := unparse_part <$> in_key_order m in
  N.of_nat (String.length (String.concat "," parts)) + 1 < pow64 →
  (parts ≠ [] → StrSplit (String.concat "," parts) "," = parts) →
  (∀ i a, m !! i = Some a → StrSplit (unparse_part (i, a)) "+" = [to_string i; a]) →
  (∀ i a, m !! i = Some a → SimpleAtoi (to_string i) = Some i) →
  AbslParseFlag StrSplit SimpleAtoi (peers_arg m) ∅ = inr m.
Proof.
  intros parts Hlen Hsplit Hpart Hatoi. rewrite peers_arg_concat by done. fold parts.
  destruct (in_key_order m) as [|p l] eqn:Hm.
  - unfold parts. simpl. unfold AbslParseFlag. rewrite bool_decide_eq_true_2 by done.
    pose proof (in_key_order_perm m) as Hp. rewrite Hm in Hp.
    apply Permutation_nil_l in Hp. symmetry in Hp. apply map_to_list_empty_iff in Hp. by subst m.
  - subst parts. rewrite <- Hm in *. apply parse_peers; try done.
    + by rewrite Hm.
    + apply Hsplit. by rewrite Hm.
    + rewrite Hm. apply concat_nonempty, unparse_nonempty.
Qed.

(** ** Readiness *)

(** The controller goes on exactly when every configured node has reported. *)
Lemma is_all_ready_spec s :
  is_all_ready s = true ↔ map_Forall (λ _ b, b = true) (ready_nodes s).
Proof.
  unfold is_all_ready. rewrite forallb_forall, map_Forall_to_list, Forall_forall.
  split; intros H [i b] Hi; [|].
  - apply (H (i, b)). by apply list_elem_of_In.
  - by apply (H (i, b)), list_elem_of_In.
Qed.

Lemma reported_ready reports : ∀ s i,
  ready_nodes (foldl (λ s r, ReportReady r.1 r.2 s) s reports) !! i =
  if decide (i ∈ reports.*1) then Some true else ready_nodes s !! i.
Proof.
  induction reports as [|[j pid] reports IH]; intros s i; [done|].
  cbn [foldl fmap list_fmap fst snd]. rewrite IH. simpl.
  destruct (decide (i ∈ reports.*1)) as [Hi|Hi].
  - by rewrite decide_True by (by right).
  - destruct (decide (i = j)) as [->|Hne].
    + rewrite lookup_insert_eq, decide_True by (by left). done.
    + rewrite lookup_insert_ne, decide_False by (done || by intros [|]%elem_of_cons). done.
Qed.

Lemma reported_frame reports : ∀ s,
  let s' := foldl (λ s r, ReportReady r.1 r.2 s) s reports in
  killed_ s' = killed_ s ∧ node_tester_ports s' = node_tester_ports s.
Proof. induction reports as [|r rs IH]; intros s; [done|]. exact (IH (ReportReady r.1 r.2 s)). Qed.

Lemma init_ready configs ports i :
  NoDup (cfg_id <$> configs) →
  ready_nodes (RaftTestCtrl_init configs ports) !! i =
  if decide (i ∈ cfg_id <$> configs) then Some false else None.
Proof.
  intros Hnd. simpl. case_decide as Hi.
  - apply list_elem_of_fmap in Hi as (cfg & -> & Hc). apply elem_of_list_to_map_1.
    + by rewrite <- list_fmap_compose.
    + apply list_elem_of_fmap. by exists cfg.
  - apply not_elem_of_list_to_map_1. by rewrite <- list_fmap_compose.
Qed.

(** Start-up: after any reports, the controller connects, to every node that has a
    tester port, exactly when each configured node has reported; until then it waits. *)
Lemma connects_when_ready configs ports reports :
  NoDup (cfg_id <$> configs) →
  let s := foldl (λ s r, ReportReady r.1 r.2 s) (RaftTestCtrl_init configs ports) reports in
  match connect_to_raft_nodes s with
  | Some s' => (∀ cfg, cfg ∈ configs → cfg_id cfg ∈ reports.*1) ∧
               ∀ i, i ∈ nodes s' ↔ is_Some (ports !! i)
  | None => ∃ cfg, cfg ∈ configs ∧ cfg_id cfg ∉ reports.*1
  end.
Proof.
  intros Hnd s. destruct (reported_frame reports (RaftTestCtrl_init configs ports)) as [Hk Hp].
  fold s in Hk, Hp. simpl in Hk, Hp.
  assert (∀ i, ready_nodes s !! i =
    if decide (i ∈ reports.*1) then Some true
    else if decide (i ∈ cfg_id <$> configs) then Some false else None) as Hready
    by (intros i; unfold s; by rewrite reported_ready, init_ready).
  unfold connect_to_raft_nodes. rewrite Hk, orb_false_r. destruct (is_all_ready s) eqn:Hall.
  - rewrite is_all_ready_spec in Hall. split.
    + intros cfg Hc. destruct (decide (cfg_id cfg ∈ reports.*1)) as [|Hn]; [done|].
      specialize (Hready (cfg_id cfg)).
      rewrite decide_False, decide_True in Hready; [|by apply list_elem_of_fmap; eauto|done].
      by specialize (Hall _ _ Hready).
    + intros i. simpl. rewrite Hp, list_elem_of_fmap. split.
      * intros ([j a] & -> & Ha%elem_of_map_to_list). by exists a.
      * intros [a Ha]. exists (i, a). split; [done|]. by apply elem_of_map_to_list.
  - apply not_true_iff_false in Hall. rewrite is_all_ready_spec in Hall.
    apply map_not_Forall in Hall as (i & b & Hi & Hb); [|apply _].
    rewrite Hready in Hi. case_decide as Hr; [by simplify_eq|].
    case_decide as Hc; [|done]. apply list_elem_of_fmap in Hc as (cfg & -> & ?). by exists cfg.
Qed.

Lemma spawned_peers_witness :
  peers_arg two_peers = "1+localhost:50051,2+localhost:50052"%string ∧
  AbslParseFlag Absl.StrSplit Absl.SimpleAtoi (peers_arg two_peers) ∅ = inr two_peers.
Proof.
  split; [vm_compute; reflexivity|].
  apply (spawned_peers Absl.StrSplit Absl.SimpleAtoi two_peers).
  - vm_compute. reflexivity.
  - intros _. vm_compute. reflexivity.
  - intros i a H. apply elem_of_map_to_list, list_elem_of_In in H. vm_compute in H.
    destruct H as [H|[H|[]]]; injection H as <- <-; vm_compute; reflexivity.
  - intros i a H. apply elem_of_map_to_list, list_elem_of_In in H. vm_compute in H.
    destruct H as [H|[H|[]]]; injection H as <- <-; vm_compute; reflexivity.
Defined.

Lemma connects_when_ready_witness :
  ∃ s', connect_to_raft_nodes
          (ReportReady 1 72 (ReportReady 0 71
             (RaftTestCtrl_init [mkConfig 0 "" ∅; mkConfig 1 "" ∅] {[0 := 55001; 1 := 55002]}))) =
        Some s' ∧ 1 ∈ nodes s'.
Proof.
  pose proof (connects_when_ready [mkConfig 0 "" ∅; mkConfig 1 "" ∅] {[0 := 55001; 1 := 55002]}
                [(0, 71); (1, 72)]) as H.
  eexists. split; [reflexivity|].
  apply H; [apply (bool_decide_unpack _); vm_compute; exact I|]. vm_compute. by eexists.
Defined.
