(* ===== verification/CtrlLife.v ===== *)
(** The life of the test controller ([RaftTestCtrl], [TestCtrl.v]) among the processes and
    threads it starts: the constructor, whose server takes reports while nodes are still
    being spawned, [run] with a reader thread per node, [kill], and the destructor that
    joins the threads.

    The system's share is explicit: a command that [std::system] has started becomes a
    process once ([EBoot]), a process may die on its own ([EDie]), and the stream of a
    node may end at any time ([EEnd]); [settle] ends the streams of dead processes, as
    gRPC does.  The critical sections are steps, so the unguarded writes of the
    constructor to [ready_nodes] are atomic here. *)
From S2P Require Import Prelude Types ConfigGen RaftState RaftNode Cluster NetInterceptor.
From S2P Require Import KvCodec NodeApp Wrapper TestCtrl.

#[local] Open Scope N_scope.

(** [unspawned] are the configurations that the constructor has not reached, [booted]
    the nodes whose command has become a process, [alive] the processes that run.  A
    reader is its node and whether its loop runs; [got] is what the handler was called
    with. *)
Record life := mkLife {
  lf_ctrl : RaftTestCtrl;
  lf_unspawned : list Config;
  lf_node_threads : gmap N string;
  lf_apply_threads : list (N * bool);
  lf_handler : bool;
  lf_server : bool;
  lf_booted : gset N;
  lf_alive : gmap N N;
  lf_got : list (N * ApplyResult) }.

Definition with_ctrl c l := mkLife c (lf_unspawned l) (lf_node_threads l) (lf_apply_threads l)
  (lf_handler l) (lf_server l) (lf_booted l) (lf_alive l) (lf_got l).
Definition with_apply ts l := mkLife (lf_ctrl l) (lf_unspawned l) (lf_node_threads l) ts
  (lf_handler l) (lf_server l) (lf_booted l) (lf_alive l) (lf_got l).
Definition with_alive ps l := mkLife (lf_ctrl l) (lf_unspawned l) (lf_node_threads l) (lf_apply_threads l)
  (lf_handler l) (lf_server l) (lf_booted l) ps (lf_got l).

(** What becomes of the program. *)
Inductive fate :=
| Live (l : life)
| Blocked
| Exited (code : N)
| Thrown
| Terminated
| Impossible.

Section controller.
Context (StrSplit : string → string → list string) (has_runapp : bool).
Context (app_path ctrl_addr : string) (fail_type verbosity : N) (ddb_conf : option DDBConfig).

(** [start_server], with which the constructor begins. *)
Definition start_ctrl (configs : list Config) (ports : gmap N N) : life :=
  mkLife (mkRaftTestCtrl ∅ ∅ false ports []) configs ∅ [] false true ∅ ∅ [].

(** One turn of the loop of [spawn_raft_node].  [node_tester_ports.at] may throw.
    [node_threads[id]] is assigned: a thread that is there already is joinable, and the
    assignment terminates the program. *)
Definition spawn_next (l : life) : fate :=
  match lf_unspawned l with
  | [] => Impossible
  | cfg :: rest =>
      let c := lf_ctrl l in
      let id := cfg_id cfg in
      let c := mkRaftTestCtrl (<[id := false]> (ready_nodes c)) (node_pids c) (killed_ c)
                 (node_tester_ports c) (nodes c) in
      match spawn_command StrSplit has_runapp app_path ctrl_addr fail_type verbosity ddb_conf
              (node_tester_ports c) cfg with
      | None => match StrSplit (cfg_addr cfg) ":" with [_; _] => Thrown | _ => Exited 1 end
      | Some cmd =>
          match lf_node_threads l !! id with
          | Some _ => Terminated
          | None =>
              Live (mkLife c rest (<[id := cmd]> (lf_node_threads l)) (lf_apply_threads l)
                      (lf_handler l) (lf_server l) (lf_booted l) (lf_alive l) (lf_got l))
          end
      end
  end.

Definition register_applier_handler (l : life) : life :=
  mkLife (lf_ctrl l) (lf_unspawned l) (lf_node_threads l) (lf_apply_threads l)
    true (lf_server l) (lf_booted l) (lf_alive l) (lf_got l).

Definition server_apply_result_from_all_nodes (l : life) : life :=
  with_apply (lf_apply_threads l ++ ((λ id, (id, true)) <$> nodes (lf_ctrl l))) l.

(** [run]: connect, start the readers, then one request to every node.  (The filter of [run]
    and [kill] is the default, which selects all nodes, in every call.) *)
Definition run_ctrl (ok : N → bool) (l : life) : fate :=
  match connect_to_raft_nodes (lf_ctrl l) with
  | None => Blocked
  | Some c =>
      let l := server_apply_result_from_all_nodes (with_ctrl c l) in
      if forallb ok (nodes c) then Live l else Exited 1
  end.

(** A turn of the loop of [serve_apply_result]: the result carries the id of the node
    that the reader belongs to.  Without a handler the call throws in the thread. *)
Definition serve_apply_result (k : nat) (m : ApplyResult) (l : life) : fate :=
  match lf_apply_threads l !! k with
  | Some (id, true) =>
      if lf_handler l then
        Live (mkLife (lf_ctrl l) (lf_unspawned l) (lf_node_threads l) (lf_apply_threads l)
                (lf_handler l) (lf_server l) (lf_booted l) (lf_alive l) (lf_got l ++ [(id, m)]))
      else Terminated
  | _ => Impossible
  end.

Definition end_stream (k : nat) (l : life) : fate :=
  match lf_apply_threads l !! k with
  | Some (id, true) => Live (with_apply (<[k := (id, false)]> (lf_apply_threads l)) l)
  | _ => Impossible
  end.

Definition pids (ps : gmap N N) : gset N := list_to_set ((map_to_list ps).*2).

(** [kill]: [late1] and [late2] are the nodes that end before its first and its second
    look at the processes. *)
Definition kill_ctrl (rpc : nat → N → bool) (late1 late2 : gset N) (l : life) : life :=
  let alive1 := filter (λ p, p.1 ∉ late1) (lf_alive l) in
  let alive2 := filter (λ p, p.1 ∉ late2) alive1 in
  let '(c, _, shot) := kill_all rpc (pids alive1) (pids alive2) (lf_ctrl l) in
  let all_dead := forallb (λ p, bool_decide (p.2 ∉ pids alive1)) (map_to_list (node_pids c)) in
  with_ctrl c (with_alive (if all_dead then alive1 else filter (λ p, p.2 ∉ shot) alive2) l).

(** The destructor: the server stops; the threads that ran [std::system] have returned,
    since the command goes to the background; a reader is joined once its loop ends. *)
Definition destroy_ctrl (l : life) : option life :=
  if forallb (λ r, negb r.2) (lf_apply_threads l) then
    Some (mkLife (lf_ctrl l) (lf_unspawned l) ∅ [] (lf_handler l) false (lf_booted l)
            (lf_alive l) (lf_got l))
  else None.

Inductive event :=
| ESpawn
| EBoot (id pid : N)
| EReport (id : N)
| ERegister
| ERun (ok : N → bool)
| EResult (k : nat) (m : ApplyResult)
| EEnd (k : nat)
| EDie (id : N)
| EKill (rpc : nat → N → bool) (late1 late2 : gset N).

(** The program calls [run] and [kill] after the constructor. *)
Definition happen (e : event) (l : life) : fate :=
  match e with
  | ESpawn => spawn_next l
  | EBoot id pid =>
      if bool_decide (is_Some (lf_node_threads l !! id)) && bool_decide (id ∉ lf_booted l) then
        Live (mkLife (lf_ctrl l) (lf_unspawned l) (lf_node_threads l) (lf_apply_threads l)
                (lf_handler l) (lf_server l) ({[id]} ∪ lf_booted l) (<[id := pid]> (lf_alive l)) (lf_got l))
      else Impossible
  | EReport id =>
      match lf_alive l !! id with
      | Some pid => if lf_server l then Live (with_ctrl (ReportReady id pid (lf_ctrl l)) l) else Impossible
      | None => Impossible
      end
  | ERegister => Live (register_applier_handler l)
  | ERun ok => match lf_unspawned l with [] => run_ctrl ok l | _ => Impossible end
  | EResult k m => serve_apply_result k m l
  | EEnd k => end_stream k l
  | EDie id => Live (with_alive (delete id (lf_alive l)) l)
  | EKill rpc late1 late2 =>
      match lf_unspawned l with [] => Live (kill_ctrl rpc late1 late2 l) | _ => Impossible end
  end.

Fixpoint history (es : list event) (l : life) : option life :=
  match es with
  | [] => Some l
  | e :: es => match happen e l with Live l => history es l | _ => None end
  end.

(** The streams of the processes that are gone have ended: [Read] returns [false] when the
    server of the stream is no longer there. *)
Definition settle (l : life) : life :=
  with_apply ((λ r, (r.1, r.2 && bool_decide (is_Some (lf_alive l !! r.1)))) <$> lf_apply_threads l) l.

(** ** What the controller knows of its nodes *)

Record life_inv (l : life) : Prop := {
  li_booted : ∀ id pid, lf_alive l !! id = Some pid → id ∈ lf_booted l;
  li_spawned : ∀ id, id ∈ lf_booted l → is_Some (lf_node_threads l !! id);
  li_known : ∀ id, is_Some (lf_node_threads l !! id) ↔ is_Some (ready_nodes (lf_ctrl l) !! id);
  li_ready : ∀ id, ready_nodes (lf_ctrl l) !! id = Some true → id ∈ lf_booted l;
  li_pid : ∀ id pid, ready_nodes (lf_ctrl l) !! id = Some true →
    lf_alive l !! id = Some pid → node_pids (lf_ctrl l) !! id = Some pid;
  li_connected : nodes (lf_ctrl l) = [] ∨
    (lf_unspawned l = [] ∧ is_all_ready (lf_ctrl l) = true ∧
     nodes (lf_ctrl l) = (map_to_list (node_tester_ports (lf_ctrl l))).*1);
  li_readers : ∀ r, r ∈ lf_apply_threads l → r.1 ∈ nodes (lf_ctrl l) }.

Lemma start_inv configs ports : life_inv (start_ctrl configs ports).
Proof.
  split; simpl; intros *; rewrite ?lookup_empty; try done; [by left|].
  by intros Hr%elem_of_nil.
Qed.

(** [kill_ctrl] only shortens the list of processes. *)
Lemma kill_alive rpc late1 late2 l id pid :
  lf_alive (kill_ctrl rpc late1 late2 l) !! id = Some pid → lf_alive l !! id = Some pid.
Proof.
  unfold kill_ctrl, kill_all. simpl. intros H.
  destruct (forallb _ _); repeat apply map_lookup_filter_Some_1_1 in H; done.
Qed.

(** Fewer processes, and the same of all else. *)
Lemma inv_fewer ps l :
  life_inv l → (∀ id pid, ps !! id = Some pid → lf_alive l !! id = Some pid) →
  life_inv (with_alive ps l).
Proof. intros [? ? ? ? ? ? ?] Hps. split; simpl; eauto. Qed.

Lemma spawn_inv l l' : life_inv l → spawn_next l = Live l' → life_inv l'.
Proof.
  intros [Hb Hs Hk Hr Hp Hc Hrd]. unfold spawn_next. destruct (lf_unspawned l) as [|cfg rest] eqn:Hu; [done|].
  destruct (spawn_command _ _ _ _ _ _ _ _ _); [|by repeat case_match].
  destruct (lf_node_threads l !! cfg_id cfg) eqn:Hn; [done|]. intros [= <-].
  assert (cfg_id cfg ∉ lf_booted l) as Hnb by (intros [? E]%Hs; by rewrite Hn in E).
  assert (∀ id, <[cfg_id cfg := false]> (ready_nodes (lf_ctrl l)) !! id = Some true →
            ready_nodes (lf_ctrl l) !! id = Some true) as Htrue.
  { intros id [[_ ?]|[_ ?]]%lookup_insert_Some; done. }
  split; simpl; try done; try eauto.
  - intros id Hid. rewrite lookup_insert_is_Some. right. split; [|by apply Hs]. by intros E; subst id.
  - intros id. rewrite !lookup_insert_is_Some. by rewrite Hk.
  - left. by destruct Hc as [|[? _]].
Qed.

Lemma booted_inv id pid l l' : life_inv l → happen (EBoot id pid) l = Live l' → life_inv l'.
Proof.
  intros [Hb Hs Hk Hr Hp Hc Hrd]. simpl.
  destruct (_ && _) eqn:E; [|done]. apply andb_prop in E as [Hn Hnb].
  apply bool_decide_eq_true in Hn, Hnb. intros [= <-]. split; simpl; try done.
  - intros i p [[-> _]|[_ H]]%lookup_insert_Some; [set_solver|]. apply Hb in H. set_solver.
  - intros i [->%elem_of_singleton|H]%elem_of_union; [done|by apply Hs].
  - intros i H%Hr. set_solver.
  - intros i p Hi [[<- <-]|[_ H]]%lookup_insert_Some; [by apply Hr in Hi|by apply Hp].
Qed.

Lemma report_inv id l l' : life_inv l → happen (EReport id) l = Live l' → life_inv l'.
Proof.
  intros [Hb Hs Hk Hr Hp Hc Hrd]. simpl. destruct (lf_alive l !! id) as [pid|] eqn:Ha; [|done].
  destruct (lf_server l); [|done]. intros [= <-]. split; simpl; try done.
  - intros i. rewrite Hk, lookup_insert_is_Some. destruct (decide (i = id)) as [->|]; [|naive_solver].
    split; [by left|]. intros _. by apply Hk, Hs, (Hb _ _ Ha).
  - intros i [[-> _]|[_ H]]%lookup_insert_Some; [by eapply Hb|by apply Hr].
  - intros i p [[-> _]|[Hne H]]%lookup_insert_Some Hi.
    + rewrite Ha in Hi. simplify_eq. apply lookup_insert_eq.
    + rewrite lookup_insert_ne by done. by apply Hp.
  - destruct Hc as [|(Hu & Hall & Hn)]; [by left|]. right. split; [done|]. split; [|done].
    rewrite is_all_ready_spec in *. simpl. by apply map_Forall_insert_2.
Qed.

Lemma run_inv ok l l' :
  life_inv l → lf_unspawned l = [] → run_ctrl ok l = Live l' → life_inv l'.
Proof.
  intros [Hb Hs Hk Hr Hp Hc Hrd] Hu. unfold run_ctrl.
  destruct (connect_to_raft_nodes (lf_ctrl l)) as [c|] eqn:Hconn; [|done].
  destruct (forallb ok (nodes c)); [|done]. intros [= <-].
  unfold connect_to_raft_nodes in Hconn.
  destruct (is_all_ready (lf_ctrl l) || killed_ (lf_ctrl l)) eqn:Hor; [|done].
  destruct (killed_ (lf_ctrl l)) eqn:Hkill; simplify_eq; split; simpl; try done.
  - intros r [H|(i & -> & ?)%list_elem_of_fmap]%elem_of_app; [by apply Hrd|done].
  - right. split; [done|]. split; [|done]. by rewrite orb_false_r in Hor.
  - intros r [H|(i & -> & ?)%list_elem_of_fmap]%elem_of_app; [|done]. apply Hrd in H.
    destruct Hc as [E|(_ & _ & E)]; rewrite E in H; [by apply elem_of_nil in H|done].
Qed.

Lemma happen_inv e l l' : life_inv l → happen e l = Live l' → life_inv l'.
Proof.
  intros Hinv He. destruct e; simpl in He.
  - by eapply spawn_inv.
  - by eapply booted_inv.
  - by eapply report_inv.
  - simplify_eq. by destruct Hinv.
  - destruct (lf_unspawned l) eqn:Hu; [|done]. by eapply run_inv.
  - unfold serve_apply_result in He. repeat case_match; simplify_eq. by destruct Hinv.
  - unfold end_stream in He. destruct (lf_apply_threads l !! k) as [[i []]|] eqn:Hk; [|done..].
    simplify_eq. destruct Hinv as [? ? ? ? ? ? Hrd]. split; simpl; try done.
    intros r [j Hj]%list_elem_of_lookup. apply list_lookup_insert_Some in Hj as [(-> & <- & _)|[_ Hj]].
    + apply (Hrd (i, true)). by eapply list_elem_of_lookup_2.
    + apply Hrd. by eapply list_elem_of_lookup_2.
  - simplify_eq. apply inv_fewer; [done|]. by intros i p [_ ?]%lookup_delete_Some.
  - destruct (lf_unspawned l) eqn:Hu; [|done]. simplify_eq.
    eapply (inv_fewer (lf_alive (kill_ctrl rpc late1 late2 l))) in Hinv; [|apply kill_alive].
    by destruct Hinv.
Qed.

Lemma history_inv es : ∀ l l', life_inv l → history es l = Some l' → life_inv l'.
Proof.
  induction es as [|e es IH]; intros l l' Hinv Hes; simpl in Hes; [by simplify_eq|].
  destruct (happen e l) as [l1| | | | |] eqn:He; try done. eapply IH; [|done]. by eapply happen_inv.
Qed.

(** ** Killing *)

Lemma elem_of_pids p ps : p ∈ pids ps ↔ ∃ id, ps !! id = Some p.
Proof.
  unfold pids. rewrite elem_of_list_to_set, list_elem_of_fmap. split.
  - intros ([i q] & -> & H%elem_of_map_to_list). by exists i.
  - intros [i H]. exists (i, p). by rewrite elem_of_map_to_list.
Qed.

Lemma all_dead_spec (ps : gmap N N) (alive : gset N) :
  forallb (λ p : N * N, bool_decide (p.2 ∉ alive)) (map_to_list ps) = true ↔
  ∀ pid, pid ∈ pids ps → pid ∉ alive.
Proof.
  rewrite forallb_forall. split.
  - intros H pid [i Hi]%elem_of_pids. apply elem_of_map_to_list, list_elem_of_In, H in Hi.
    by apply bool_decide_eq_true in Hi.
  - intros H [i pid] Hi. apply list_elem_of_In, elem_of_map_to_list in Hi. apply bool_decide_eq_true.
    apply H, elem_of_pids. by exists i.
Qed.

Lemma elem_of_shot (ps : gmap N N) (alive : gset N) pid :
  pid ∈ (filter (λ p : N * N, p.2 ∈ alive) (map_to_list ps)).*2 ↔ pid ∈ pids ps ∧ pid ∈ alive.
Proof.
  rewrite list_elem_of_fmap, elem_of_pids. split.
  - intros ([i p] & -> & [Ha Hp%elem_of_map_to_list]%list_elem_of_filter). eauto.
  - intros [[i Hi] Ha]. exists (i, pid). split; [done|].
    apply list_elem_of_filter. by rewrite elem_of_map_to_list.
Qed.

(** The processes that [kill] leaves: of those that do not end by themselves, the ones
    that have not reported; nobody knows their number. *)
Lemma kill_spares rpc late1 late2 l id pid :
  (lf_alive (kill_ctrl rpc late1 late2 l) !! id = Some pid →
     lf_alive l !! id = Some pid ∧ pid ∉ pids (node_pids (lf_ctrl l))) ∧
  (lf_alive l !! id = Some pid → id ∉ late1 ∪ late2 → pid ∉ pids (node_pids (lf_ctrl l)) →
     lf_alive (kill_ctrl rpc late1 late2 l) !! id = Some pid).
Proof.
  split.
  - intros H. split; [by eapply kill_alive|]. intros Hp. revert H.
    unfold kill_ctrl, kill_all, sweep. cbn [lf_alive with_ctrl with_alive node_pids].
    destruct (forallb _ _) eqn:E.
    + rewrite all_dead_spec in E. intros H. apply (E pid Hp), elem_of_pids. by exists id.
    + intros [H Hs]%map_lookup_filter_Some. apply Hs. rewrite elem_of_shot.
      split; [done|]. apply elem_of_pids. by exists id.
  - intros Ha [Hl1 Hl2]%not_elem_of_union Hp. unfold kill_ctrl, kill_all, sweep.
    cbn [lf_alive with_ctrl with_alive node_pids].
    assert (filter (λ p : N * N, p.1 ∉ late1) (lf_alive l) !! id = Some pid) as H1
      by (by apply map_lookup_filter_Some).
    destruct (forallb _ _) eqn:E; [done|]. apply map_lookup_filter_Some. split.
    + by apply map_lookup_filter_Some.
    + cbn. rewrite elem_of_shot. by intros [].
Qed.

(** C37: however the constructor, the reports of the nodes, [run], the results and the
    deaths of processes were interleaved, and whatever the nodes make of the Kill calls,
    after [kill] every process that a reader thread waits for is gone, so that the
    destructor joins all its threads and returns. *)
Theorem killed_controller_destroyed configs ports es l rpc late1 late2 :
  history es (start_ctrl configs ports) = Some l → lf_unspawned l = [] →
  let l' := kill_ctrl rpc late1 late2 l in
  (∀ r, r ∈ lf_apply_threads l' → lf_alive l' !! r.1 = None) ∧
  ∃ l'', destroy_ctrl (settle l') = Some l'' ∧ lf_server l'' = false.
Proof.
  intros Hes Hu l'. pose proof (history_inv _ _ _ (start_inv configs ports) Hes) as Hinv.
  assert (∀ r, r ∈ lf_apply_threads l' → lf_alive l' !! r.1 = None) as Hgone.
  { intros r Hr. apply eq_None_not_Some. intros [pid Hpid].
    apply (kill_spares rpc late1 late2) in Hpid as [Ha Hn]. apply Hn, elem_of_pids. exists (r.1).
    apply (li_readers l Hinv) in Hr. destruct (li_connected l Hinv) as [E|(_ & Hall & _)];
      [rewrite E in Hr; by apply elem_of_nil in Hr|].
    apply (li_pid l Hinv); [|done]. rewrite is_all_ready_spec in Hall.
    destruct (li_known l Hinv (r.1)) as [[b Hb] _]; [by eapply (li_spawned l Hinv), (li_booted l Hinv)|].
    by rewrite Hb, (Hall _ _ Hb). }
  split; [done|]. unfold destroy_ctrl. rewrite (proj2 (forallb_forall _ _)); [by eexists|].
  intros r Hr. apply list_elem_of_In in Hr. cbn in Hr. apply list_elem_of_fmap in Hr as (q & -> & Hq).
  change (negb (q.2 && bool_decide (is_Some (lf_alive l' !! q.1))) = true).
  rewrite (Hgone q Hq), bool_decide_eq_false_2; [by rewrite andb_false_r|]. by intros [].
Qed.

(** ** The constructor *)

Abbreviation reporting := (foldl (λ s r, ReportReady r.1 r.2 s)).

(** The events of the constructor. *)
Definition constructing (e : event) : bool :=
  match e with ESpawn | EBoot _ _ | EReport _ => true | _ => false end.

Definition reported (es : list event) : list N :=
  omap (λ e, match e with EReport id => Some id | _ => None end) es.

(** A node that is not yet among the reports can be listed before them. *)
Lemma reporting_spawn cfg rs done ports :
  cfg_id cfg ∉ cfg_id <$> done → cfg_id cfg ∉ rs.*1 →
  let c := reporting (RaftTestCtrl_init done ports) rs in
  mkRaftTestCtrl (<[cfg_id cfg := false]> (ready_nodes c)) (node_pids c) (killed_ c)
    (node_tester_ports c) (nodes c) =
  reporting (RaftTestCtrl_init (done ++ [cfg]) ports) rs.
Proof.
  intros Hd. induction rs as [|[i pid] rs IH] using rev_ind; intros Hr; simpl.
  - unfold RaftTestCtrl_init. rewrite fmap_app. simpl.
    rewrite list_to_map_snoc; [done|]. by rewrite <- list_fmap_compose.
  - rewrite fmap_app, not_elem_of_app in Hr. destruct Hr as [Hr Hi].
    simpl in Hi. rewrite list_elem_of_singleton in Hi.
    rewrite !foldl_app. simpl. rewrite <- IH by done. unfold ReportReady. simpl. f_equal.
    by apply insert_insert_ne.
Qed.

(** What the constructor has done so far. *)
Definition construction (configs : list Config) (ports : gmap N N) (ids : list N) (l : life) : Prop :=
  ∃ done rs,
    configs = done ++ lf_unspawned l ∧ NoDup (cfg_id <$> done) ∧ rs.*1 = ids ∧
    (∀ i, is_Some (lf_node_threads l !! i) ↔ i ∈ cfg_id <$> done) ∧
    (∀ i, i ∈ rs.*1 → i ∈ cfg_id <$> done) ∧
    lf_ctrl l = reporting (RaftTestCtrl_init done ports) rs.

Lemma construction_step configs ports ids e l l' :
  life_inv l → construction configs ports ids l → constructing e = true → happen e l = Live l' →
  construction configs ports (ids ++ reported [e]) l'.
Proof.
  intros Hinv (ds & rs & Hc & Hnd & <- & Hth & Hrs & Hctrl) He Hs.
  destruct e as [|id pid|id| | | | | |]; try done; unfold reported; simpl in *.
  - rewrite app_nil_r. unfold spawn_next in Hs.
    destruct (lf_unspawned l) as [|cfg rest] eqn:Hu; [done|].
    destruct (spawn_command _ _ _ _ _ _ _ _ _); [|by repeat case_match].
    destruct (lf_node_threads l !! cfg_id cfg) eqn:Hn; [done|]. simplify_eq.
    assert (cfg_id cfg ∉ cfg_id <$> ds) as Hnew
      by (rewrite <- Hth, Hn; by intros []).
    exists (ds ++ [cfg]), rs. simpl. rewrite <- app_assoc, fmap_app. split; [done|]. split.
    { apply NoDup_app. split; [done|]. split; [|apply NoDup_singleton].
      intros x Hx E%list_elem_of_singleton. by subst x. }
    split; [done|]. split.
    { intros i. rewrite lookup_insert_is_Some', elem_of_app, Hth. simpl.
      rewrite list_elem_of_singleton. naive_solver. }
    split; [intros i Hi%Hrs; rewrite elem_of_app; by left|].
    rewrite Hctrl. apply reporting_spawn; [done|]. by intros Hx%Hrs.
  - destruct (_ && _); [|done]. simplify_eq. rewrite app_nil_r. by exists ds, rs.
  - destruct (lf_alive l !! id) as [pid|] eqn:Ha; [|done]. destruct (lf_server l); [|done]. simplify_eq.
    exists ds, (rs ++ [(id, pid)]). simpl. rewrite fmap_app. do 4 (split; [done|]). split.
    + intros i. rewrite elem_of_app. intros [Hi|E%list_elem_of_singleton]; [by apply Hrs|]. subst i.
      by apply Hth, (li_spawned l Hinv), (li_booted l Hinv _ _ Ha).
    + by rewrite foldl_app, Hctrl.
Qed.

Lemma construction_history configs ports es : ∀ ids l l',
  life_inv l → construction configs ports ids l → forallb constructing es = true →
  history es l = Some l' → construction configs ports (ids ++ reported es) l'.
Proof.
  induction es as [|e es IH]; intros ids l l' Hinv Hl Hes Hh; simpl in Hes, Hh.
  - simplify_eq. by rewrite app_nil_r.
  - apply andb_prop in Hes as [He Hes]. destruct (happen e l) as [l1| | | | |] eqn:Hs; try done.
    replace (ids ++ reported (e :: es)) with ((ids ++ reported [e]) ++ reported es)
      by (rewrite <- app_assoc; by destruct e).
    eapply IH; [by eapply happen_inv|by eapply construction_step|done|done].
Qed.

(** Nodes report while others are still being spawned; the controller that results is the
    one of [RaftTestCtrl_init] with the reports in their order, so [connects_when_ready]
    applies to it.  The ids are distinct if the constructor returns at all. *)
Lemma constructor_spec configs ports es l :
  history es (start_ctrl configs ports) = Some l → forallb constructing es = true →
  lf_unspawned l = [] →
  NoDup (cfg_id <$> configs) ∧
  ∃ rs, rs.*1 = reported es ∧ lf_ctrl l = reporting (RaftTestCtrl_init configs ports) rs.
Proof.
  intros Hh Hes Hu.
  assert (construction configs ports [] (start_ctrl configs ports)) as H0.
  { exists [], []. simpl. split; [done|]. split; [apply NoDup_nil_2|]. split; [done|].
    split; [|split; [done|]; done]. intros i. rewrite lookup_empty. split; [by intros []|].
    by intros ?%elem_of_nil. }
  destruct (construction_history configs ports es [] _ l (start_inv _ _) H0 Hes Hh)
    as (ds & rs & Hc & Hnd & Hrs & _ & _ & Hl).
  rewrite Hu, app_nil_r in Hc. subst ds. split; [done|]. by exists rs.
Qed.
End controller.

(** ** At work *)

(** The configurations of two nodes, and their start. *)
Definition two_configs : list Config :=
  [mkConfig 0 "0.0.0.0:50050" {[1 := "localhost:50051"]};
   mkConfig 1 "0.0.0.0:50051" {[0 := "localhost:50050"]}]%string.
Definition two_ports : gmap N N := {[0 := 55001; 1 := 55002]}.
Definition two_life := history Absl.StrSplit false "./raft_node" "0.0.0.0:55000" 0 1 None.

(** The first node reports before the second is spawned. *)
Definition two_start : list event := [ESpawn; EBoot 0 71; EReport 0; ESpawn; EBoot 1 72].
Definition two_up : list event :=
  two_start ++ [EReport 1; ERegister; ERun (λ _, true)].

Lemma killed_controller_destroyed_witness :
  ∃ l l'', two_life two_up (start_ctrl two_configs two_ports) = Some l ∧
    lf_apply_threads l = [(1, true); (0, true)] ∧ destroy_ctrl (settle l) = None ∧
    destroy_ctrl (settle (kill_ctrl (λ _ _, false) ∅ ∅ l)) = Some l''.
Proof.
  eexists _. pose proof (killed_controller_destroyed Absl.StrSplit false "./raft_node" "0.0.0.0:55000"
    0 1 None two_configs two_ports two_up) as H.
  edestruct H as (_ & l'' & Hl & _); [vm_compute; reflexivity|vm_compute; reflexivity|].
  exists l''. split; [vm_compute; reflexivity|]. split; [vm_compute; reflexivity|].
  split; [vm_compute; reflexivity|]. exact Hl.
Defined.

(** A node that has been started and has not reported survives [kill]. *)
Lemma unreported_survives :
  ∃ l, two_life two_start (start_ctrl two_configs two_ports) = Some l ∧
    lf_alive (kill_ctrl (λ _ _, false) ∅ ∅ l) = {[1 := 72]}.
Proof. eexists. split; [vm_compute; reflexivity|]. vm_compute. reflexivity. Qed.

(** A second [run], such as a second command [r] of [multinode], starts a second reader
    for every node; each result of the node reaches only one of the two. *)
Lemma second_run_doubles ok l l' :
  killed_ (lf_ctrl l) = false → (nodes (lf_ctrl l) = (map_to_list (node_tester_ports (lf_ctrl l))).*1) →
  run_ctrl ok l = Live l' →
  lf_apply_threads l' = lf_apply_threads l ++ ((λ id, (id, true)) <$> nodes (lf_ctrl l)) ∧
  lf_ctrl l' = lf_ctrl l.
Proof.
  intros Hk Hn. unfold run_ctrl, connect_to_raft_nodes. rewrite Hk.
  destruct (_ || _); [|done]. destruct (forallb _ _); [|done]. intros [= <-]. simpl.
  rewrite <- Hn. split; [done|]. rewrite <- Hk. by destruct (lf_ctrl l).
Qed.

(** Two configurations of one id end the program, which leaves the first node running. *)
Lemma duplicate_id_terminates :
  ∃ l, two_life [ESpawn; EBoot 0 71]
         (start_ctrl [mkConfig 0 "0.0.0.0:50050" ∅; mkConfig 0 "0.0.0.0:50051" ∅]
            {[0 := 55001]}) = Some l ∧
    spawn_next Absl.StrSplit false "./raft_node" "0.0.0.0:55000" 0 1 None l = Terminated ∧
    lf_alive l = {[0 := 71]}.
Proof. eexists. split; [vm_compute; reflexivity|]. split; vm_compute; reflexivity. Qed.

(** Without a registered handler the first result ends the program. *)
Lemma no_handler_throws k m l :
  lf_handler l = false → ∀ l', serve_apply_result k m l ≠ Live l'.
Proof. intros Hh l'. unfold serve_apply_result. rewrite Hh. by repeat case_match. Qed.
