(* ===== verification/Setup.v ===== *)
(** How the tests and the benchmarks bring a cluster up: the controller ([CtrlLife.v])
    starts a process per configuration, waits for the reports, registers the handler of
    results and runs the nodes.

    [bring_up] is that sequence once the processes are known; [latency_cluster] and
    [tput_cluster] are the clusters of the two benchmarks.  [Setup.bring_up_runs] says that
    the sequence ends with every node running, whatever the order of the reports. *)
From S2P Require Import Prelude Types ConfigGen RaftState RaftNode Cluster NetInterceptor.
From S2P Require Import KvCodec NodeApp Wrapper TestCtrl CtrlLife.

#[local] Open Scope N_scope.
#[local] Open Scope rafty_scope.

Section setup.
Context (StrSplit : string → string → list string) (has_runapp : bool).
Context (app_path ctrl_addr : string) (fail_type verbosity : N) (ddb_conf : option DDBConfig).

Abbreviation history := (history StrSplit has_runapp app_path ctrl_addr fail_type verbosity ddb_conf).
Abbreviation happen := (happen StrSplit has_runapp app_path ctrl_addr fail_type verbosity ddb_conf).
Abbreviation command := (spawn_command StrSplit has_runapp app_path ctrl_addr fail_type verbosity ddb_conf).

(** [pids] are the processes in the order of their reports. *)
Definition bring_up (configs : list Config) (ports : gmap N N) (pids : list (N * N)) (ok : N → bool)
    : option life :=
  history (replicate (length configs) ESpawn ++ (pids ≫= λ p, [EBoot p.1 p.2; EReport p.1]) ++
           [ERegister; ERun ok]) (start_ctrl configs ports).

(** ** The phases *)

Lemma history_app es es' l : history (es ++ es') l = history es l ≫= history es'.
Proof using.
  revert l. induction es as [|e es IH]; intros l; [done|]. simpl. by destruct (happen e l).
Qed.

(** What the phases leave alone. *)
Definition same_readers (l l' : life) : Prop :=
  lf_apply_threads l' = lf_apply_threads l ∧ lf_handler l' = lf_handler l ∧ lf_server l' = lf_server l ∧
  nodes (lf_ctrl l') = nodes (lf_ctrl l) ∧ killed_ (lf_ctrl l') = killed_ (lf_ctrl l) ∧
  node_tester_ports (lf_ctrl l') = node_tester_ports (lf_ctrl l).

Lemma spawn_phase configs : ∀ l,
  lf_unspawned l = configs → NoDup (cfg_id <$> configs) →
  (∀ cfg, cfg ∈ configs → lf_node_threads l !! cfg_id cfg = None ∧
     is_Some (command (node_tester_ports (lf_ctrl l)) cfg)) →
  ∃ l', history (replicate (length configs) ESpawn) l = Some l' ∧ same_readers l l' ∧
    lf_unspawned l' = [] ∧ lf_booted l' = lf_booted l ∧ lf_alive l' = lf_alive l ∧
    (∀ cfg, cfg ∈ configs →
       lf_node_threads l' !! cfg_id cfg = command (node_tester_ports (lf_ctrl l)) cfg) ∧
    (∀ id, id ∉ cfg_id <$> configs →
       lf_node_threads l' !! id = lf_node_threads l !! id ∧
       ready_nodes (lf_ctrl l') !! id = ready_nodes (lf_ctrl l) !! id).
Proof using.
  induction configs as [|cfg configs IH]; intros l Hun Hnd Hok.
  { exists l. simpl. split_and!; try done. by intros cfg ?%not_elem_of_nil. }
  apply NoDup_cons in Hnd as [Hnew Hnd].
  destruct (Hok cfg) as [Hth [cmd Hcmd]]; [by left|].
  set (l1 := mkLife (mkRaftTestCtrl (<[cfg_id cfg := false]> (ready_nodes (lf_ctrl l)))
    (node_pids (lf_ctrl l)) (killed_ (lf_ctrl l)) (node_tester_ports (lf_ctrl l)) (nodes (lf_ctrl l)))
    configs (<[cfg_id cfg := cmd]> (lf_node_threads l)) (lf_apply_threads l) (lf_handler l)
    (lf_server l) (lf_booted l) (lf_alive l) (lf_got l)).
  assert (happen ESpawn l = Live l1) as Hl1.
  { simpl. unfold spawn_next. rewrite Hun. simpl. by rewrite Hcmd, Hth. }
  destruct (IH l1) as (l' & Hrun & Hsame & Hun' & Hb & Ha & Hcmds & Hother); [done|done| |].
  { intros c Hc. destruct (Hok c) as [Hn Hs]; [by right|]. split; [|done]. simpl.
    rewrite lookup_insert_ne; [done|]. intros E. apply Hnew, list_elem_of_fmap. by exists c. }
  exists l'. split_and!; try done.
  - simpl in Hl1 |- *. by rewrite Hl1.
  - intros c [->|Hc]%elem_of_cons; [|by apply Hcmds].
    destruct (Hother (cfg_id cfg)) as [-> _]; [done|]. simpl. by rewrite lookup_insert_eq.
  - intros id Hid. apply not_elem_of_cons in Hid as [Hne Hid]. destruct (Hother id Hid) as [-> ->].
    simpl. by rewrite !lookup_insert_ne by done.
Qed.

(** One process reports. *)
Lemma report_step l id pid :
  is_Some (lf_node_threads l !! id) → id ∉ lf_booted l → lf_server l = true →
  history [EBoot id pid; EReport id] l =
  Some (mkLife (ReportReady id pid (lf_ctrl l)) (lf_unspawned l) (lf_node_threads l) (lf_apply_threads l)
          (lf_handler l) (lf_server l) ({[id]} ∪ lf_booted l) (<[id := pid]> (lf_alive l)) (lf_got l)).
Proof using.
  intros Hth Hb Hs. simpl. rewrite !bool_decide_true by done. simpl.
  rewrite lookup_insert_eq. by rewrite Hs.
Qed.

Lemma report_phase pids : ∀ l,
  NoDup pids.*1 → lf_server l = true →
  (∀ id, id ∈ pids.*1 → is_Some (lf_node_threads l !! id) ∧ id ∉ lf_booted l) →
  ∃ l', history (pids ≫= λ p, [EBoot p.1 p.2; EReport p.1]) l = Some l' ∧ same_readers l l' ∧
    lf_unspawned l' = lf_unspawned l ∧ lf_node_threads l' = lf_node_threads l ∧
    lf_alive l' = list_to_map pids ∪ lf_alive l ∧
    (∀ id, id ∈ pids.*1 → ready_nodes (lf_ctrl l') !! id = Some true) ∧
    (∀ id, id ∉ pids.*1 → ready_nodes (lf_ctrl l') !! id = ready_nodes (lf_ctrl l) !! id).
Proof using.
  induction pids as [|[id pid] pids IH]; intros l Hnd Hs Hok.
  { exists l. simpl. rewrite map_empty_union. split_and!; try done. by intros id ?%not_elem_of_nil. }
  apply NoDup_cons in Hnd as [Hnew Hnd]. destruct (Hok id) as [Hth Hb]; [by left|].
  rewrite bind_cons, history_app. cbn [fst snd].
  rewrite (report_step l id pid Hth Hb Hs). cbn [mbind option_bind].
  match goal with |- context [CtrlLife.history _ _ _ _ _ _ _ _ ?x] => set (l1 := x) end.
  destruct (IH l1) as (l' & Hrun & Hsame & Hun & Hths & Ha & Hin & Hout); [done|done| |].
  { intros i Hi. destruct (Hok i) as [Hi1 Hi2]; [by right|]. split; [done|]. simpl.
    rewrite not_elem_of_union, not_elem_of_singleton. split; [|done]. intros ->. by apply Hnew. }
  exists l'. split_and!; try done.
  - rewrite Ha. simpl. rewrite <- insert_union_l, insert_union_r; [done|].
    by apply not_elem_of_list_to_map_1.
  - intros i [->|Hi]%elem_of_cons; [|by apply Hin]. simpl. rewrite (Hout id Hnew). simpl.
    by rewrite lookup_insert_eq.
  - intros i Hi. apply not_elem_of_cons in Hi as [Hne Hi]. rewrite (Hout i Hi). simpl.
    by rewrite lookup_insert_ne.
Qed.

(** [register_applier_handler] and [run], when all have reported. *)
Lemma run_phase ok l :
  lf_unspawned l = [] → killed_ (lf_ctrl l) = false → is_all_ready (lf_ctrl l) = true →
  (∀ id, ok id = true) →
  ∃ l', history [ERegister; ERun ok] l = Some l' ∧ lf_handler l' = true ∧
    lf_alive l' = lf_alive l ∧ lf_node_threads l' = lf_node_threads l ∧
    nodes (lf_ctrl l') = (map_to_list (node_tester_ports (lf_ctrl l))).*1 ∧
    lf_apply_threads l' = lf_apply_threads l ++ ((λ id, (id, true)) <$> nodes (lf_ctrl l')).
Proof using.
  intros Hun Hk Hr Hok. simpl. rewrite Hun. unfold run_ctrl, connect_to_raft_nodes. simpl.
  rewrite Hr, Hk. simpl. assert (forallb ok ((map_to_list (node_tester_ports (lf_ctrl l))).*1) = true) as ->.
  { by apply forallb_forall. }
  eexists. split; [reflexivity|]. by simpl.
Qed.

(** Whatever the order in which the nodes report, the set-up ends with every node of the
    configuration started by its command and running, and a reader on each. *)
Lemma bring_up_runs configs ports pids ok :
  NoDup (cfg_id <$> configs) → pids.*1 ≡ₚ cfg_id <$> configs →
  (∀ cfg, cfg ∈ configs → is_Some (command ports cfg)) → (∀ id, ok id = true) →
  ∃ l, bring_up configs ports pids ok = Some l ∧
    lf_alive l = list_to_map pids ∧ lf_handler l = true ∧
    (∀ cfg, cfg ∈ configs → lf_node_threads l !! cfg_id cfg = command ports cfg) ∧
    (∀ i, i ∈ nodes (lf_ctrl l) ↔ is_Some (ports !! i)) ∧
    lf_apply_threads l = (λ id, (id, true)) <$> nodes (lf_ctrl l).
Proof using.
  intros Hnd Hperm Hcmd Hok. unfold bring_up. rewrite history_app.
  destruct (spawn_phase configs (start_ctrl configs ports)) as
    (l1 & -> & (R1 & R2 & R3 & R4 & R5 & R6) & U1 & B1 & A1 & C1 & O1); [done|done| |].
  { intros cfg Hc. split; [done|by apply Hcmd]. }
  simpl in *. rewrite history_app.
  destruct (report_phase pids l1) as
    (l2 & -> & (S1 & S2 & S3 & S4 & S5 & S6) & U2 & T2 & A2 & I2 & O2).
  { by rewrite Hperm. }
  { done. }
  { intros id Hid. rewrite Hperm in Hid. apply list_elem_of_fmap in Hid as (cfg & -> & Hc).
    rewrite (C1 cfg Hc), B1. split; [by apply Hcmd|set_solver]. }
  simpl. destruct (run_phase ok l2) as (l3 & Hrun & H1 & H2 & H3 & H4 & H5).
  - by rewrite U2.
  - by rewrite S5, R5.
  - apply is_all_ready_spec. intros id b Hb. destruct (decide (id ∈ pids.*1)) as [Hin|Hn].
    + rewrite (I2 id Hin) in Hb. by simplify_eq.
    + rewrite (O2 id Hn) in Hb. destruct (O1 id) as [_ E]; [by rewrite <- Hperm|].
      rewrite E in Hb. by rewrite lookup_empty in Hb.
  - done.
  - simpl in Hrun. exists l3. split_and!; try done.
    + by rewrite H2, A2, A1, (right_id_L ∅ (∪)).
    + intros cfg Hc. by rewrite H3, T2, (C1 cfg Hc).
    + intros i. rewrite H4, S6, R6, list_elem_of_fmap. split.
      * intros ([j x] & -> & Hj%elem_of_map_to_list). by exists x.
      * intros [x Hx]. exists (i, x). split; [done|]. by apply elem_of_map_to_list.
    + by rewrite H5, S1, R1.
Qed.

(** ** Clusters on this machine *)

(** What the set-ups need of [absl::StrSplit]. *)
Context (StrSplit_addr : ∀ port, StrSplit ("localhost:" +:+ to_string port)%string ":" =
                           ["localhost"%string; to_string port]).

Definition bring_up_layout (l : layout) : list (N * N) → (N → bool) → option life :=
  bring_up (lay_configs l) (list_to_map (lay_tester_ports l)).

Lemma tester_port_ids n start base :
  (lay_tester_ports (lay_out (gen_local_instances n start) base)).*1 = upto n.
Proof using.
  rewrite <- (gen_local_ids n start). simpl. rewrite fmap_imap. apply (imap_const ric_id).
Qed.

Lemma local_command n start base cfg :
  let l := lay_out (gen_local_instances n start) base in
  cfg ∈ lay_configs l → is_Some (command (list_to_map (lay_tester_ports l)) cfg).
Proof using StrSplit_addr.
  intros l Hc. simpl in Hc. unfold gen_raft_configs in Hc.
  apply list_elem_of_fmap in Hc as (inst & -> & Hi).
  assert (∃ k, gen_local_instances n start !! k = Some inst) as [k Hk] by (by apply list_elem_of_lookup).
  assert (list_to_map (M := gmap N N) (lay_tester_ports l) !! ric_id inst = Some (base +₆₄ N.of_nat k)) as Hp.
  { apply elem_of_list_to_map_1.
    - unfold l. rewrite tester_port_ids. apply NoDup_upto.
    - apply (list_elem_of_lookup_2 _ k). simpl. by rewrite list_lookup_imap, Hk. }
  unfold spawn_command. simpl. unfold gen_local_instances in Hi.
  apply list_elem_of_fmap in Hi as (i & -> & _). simpl in *. rewrite StrSplit_addr, Hp. simpl. eauto.
Qed.

(** A cluster of the configuration generator comes up. *)
Lemma local_cluster_runs n start base pids ok :
  let l := lay_out (gen_local_instances n start) base in
  pids.*1 ≡ₚ upto n → (∀ id, ok id = true) →
  ∃ lf, bring_up_layout l pids ok = Some lf ∧ lf_alive lf = list_to_map pids ∧
    (∀ i, i ∈ nodes (lf_ctrl lf) ↔ i < n) ∧
    lf_apply_threads lf = (λ id, (id, true)) <$> nodes (lf_ctrl lf).
Proof using StrSplit_addr.
  intros l Hp Hok.
  assert (cfg_id <$> lay_configs l = upto n) as Hids.
  { simpl. unfold gen_raft_configs. rewrite <- list_fmap_compose. apply (gen_local_ids n start). }
  destruct (bring_up_runs (lay_configs l) (list_to_map (lay_tester_ports l)) pids ok) as
    (lf & Hrun & Ha & _ & Hcmd & Hnodes & Hth).
  - rewrite Hids. apply NoDup_upto.
  - by rewrite Hids.
  - intros cfg. apply local_command.
  - done.
  - exists lf. split_and!; try done. intros i. rewrite Hnodes, <- elem_of_dom, dom_list_to_map_L.
    rewrite elem_of_list_to_set. unfold l. by rewrite tester_port_ids, elem_of_upto.
Qed.
End setup.

(** ** The benchmarks *)

(** [main] of [app/latency.cpp] up to the pause before the requests. *)
Definition CTRL_PORT : N := 55100.
Definition latency_cluster (StrSplit : string → string → list string) (has_runapp : bool)
    : list (N * N) → (N → bool) → option life :=
  bring_up_layout StrSplit has_runapp "./kv_node" ("0.0.0.0:" +:+ to_string CTRL_PORT)%string 0 0 None
    latency_layout.

(** [create_cluster] of [app/tput.cpp]. *)
Definition tput_cluster (StrSplit : string → string → list string) (has_runapp : bool)
    (round_idx num_nodes : N) : list (N * N) → (N → bool) → option life :=
  let '(l, ctrl_port) := create_cluster round_idx num_nodes in
  bring_up_layout StrSplit has_runapp "./kv_node" ("0.0.0.0:" +:+ to_string ctrl_port)%string 0 0 None l.

(** Every cluster that the benchmarks ask for comes up, whatever the order of the
    reports, if its nodes report and answer. *)
Lemma bench_clusters_run StrSplit has_runapp round_idx num_nodes pids ok :
  (∀ port, StrSplit ("localhost:" +:+ to_string port)%string ":" = ["localhost"%string; to_string port]) →
  pids.*1 ≡ₚ upto num_nodes → (∀ id, ok id = true) →
  ∃ lf, tput_cluster StrSplit has_runapp round_idx num_nodes pids ok = Some lf ∧
    lf_alive lf = list_to_map pids ∧ (∀ i, i ∈ nodes (lf_ctrl lf) ↔ i < num_nodes) ∧
    lf_apply_threads lf = (λ id, (id, true)) <$> nodes (lf_ctrl lf).
Proof. intros Hs Hp Hok. by apply (local_cluster_runs StrSplit). Qed.

(** [StrSplit] can be so: the addresses have one colon, before the digits. *)
Example latency_cluster_up :
  ∃ lf, latency_cluster Absl.StrSplit false [(2, 72); (0, 70); (1, 71)] (λ _, true) = Some lf ∧
    lf_alive lf = {[0 := 70; 1 := 71; 2 := 72]} ∧
    lf_alive (kill_ctrl (λ _ _, true) ∅ ∅ lf) = ∅.
Proof. eexists. split; [vm_compute; reflexivity|]. split; vm_compute; reflexivity. Qed.
