(* ===== verification/Fixture.v ===== *)
(** What surrounds the scenarios in a test program ([integration_tests/raft_test_extra.cpp]
    and its siblings): the flags, the fixture, the redirection of the standard output,
    [main] and the SIGINT handler, over the descriptors and processes of the system.

    Of the system calls, what the programs use: [open] and [dup] take the lowest free
    descriptor and return -1 when none is left, [dup2] fails on a descriptor that is not
    open, [kill] of a group fails when the group has no process, [pkill] kills the
    processes whose name contains the pattern. *)
From S2P Require Import Prelude Types ConfigGen TestCtrl.

#[local] Open Scope Z_scope.

(** ** Descriptors *)

(** What the open descriptors refer to. *)
#[local] Abbreviation fdtable := (gmap Z string).

Definition STDOUT_FILENO : Z := 1.

Section suppressor.

(** The process may have [limit] descriptors. *)
Context (limit : nat).

Definition lowest_free (t : fdtable) : option Z :=
  head (filter (λ fd, t !! fd = None) (Z.of_nat <$> seq 0 limit)).

Definition sys_open (path : string) (t : fdtable) : Z * fdtable :=
  match lowest_free t with Some fd => (fd, <[fd := path]> t) | None => (-1, t) end.

Definition sys_dup (fd : Z) (t : fdtable) : Z * fdtable :=
  match t !! fd, lowest_free t with
  | Some f, Some fd' => (fd', <[fd' := f]> t)
  | _, _ => (-1, t)
  end.

Definition sys_dup2 (fd fd' : Z) (t : fdtable) : Z * fdtable :=
  match t !! fd with Some f => (fd', <[fd' := f]> t) | None => (-1, t) end.

Definition sys_close (fd : Z) (t : fdtable) : fdtable := delete fd t.

(** The members are indeterminate ([None]) until [Enable] assigns them. *)
Record OutputSuppressor := mkOutputSuppressor {
  devnull_fd : option Z;
  saved_stdout_fd : option Z }.

Definition OutputSuppressor_init : OutputSuppressor := mkOutputSuppressor None None.

(** The message of the exception, if one is thrown. *)
Definition Enable (s : OutputSuppressor) (t : fdtable)
    : option string * OutputSuppressor * fdtable :=
  let '(devnull, t) := sys_open "/dev/null" t in
  let s := mkOutputSuppressor (Some devnull) (saved_stdout_fd s) in
  if devnull =? -1 then (Some "Failed to open /dev/null"%string, s, t)
  else
    let '(saved, t) := sys_dup STDOUT_FILENO t in
    let s := mkOutputSuppressor (Some devnull) (Some saved) in
    if saved =? -1 then (Some "Failed to duplicate stdout file descriptor"%string, s, t)
    else
      let '(res, t) := sys_dup2 devnull STDOUT_FILENO t in
      if res =? -1 then (Some "Failed to redirect stdout to /dev/null"%string, s, t)
      else (None, s, t).

(** Whether the output was restored; [None] is the use of an indeterminate member. *)
Definition Disable (s : OutputSuppressor) (t : fdtable) : option (bool * fdtable) :=
  saved ← saved_stdout_fd s;
  let '(res, t) := sys_dup2 saved STDOUT_FILENO t in
  devnull ← devnull_fd s;
  Some (negb (res =? -1), sys_close saved (sys_close devnull t)).

Lemma lowest_free_spec t fd : lowest_free t = Some fd → t !! fd = None ∧ 0 ≤ fd.
Proof.
  unfold lowest_free. intros H. apply head_Some_elem_of, list_elem_of_filter in H as [Hf Hin].
  split; [done|]. apply list_elem_of_fmap in Hin as (k & -> & _). lia.
Qed.

Lemma lowest_free_exists t fd :
  t !! fd = None → 0 ≤ fd < Z.of_nat limit → is_Some (lowest_free t).
Proof.
  intros Hf Hr. unfold lowest_free. apply head_is_Some. intros E.
  assert (fd ∈ filter (λ fd, t !! fd = None) (Z.of_nat <$> seq 0 limit)) as Hin;
    [|rewrite E in Hin; by apply not_elem_of_nil in Hin].
  apply list_elem_of_filter. split; [done|]. apply list_elem_of_fmap. exists (Z.to_nat fd).
  split; [lia|]. apply elem_of_seq. lia.
Qed.

(** With the output open and two descriptors free, the output goes to /dev/null until it
    is restored, and then the descriptors are as they were. *)
Lemma suppress_roundtrip s t f a b :
  t !! STDOUT_FILENO = Some f →
  t !! a = None → 0 ≤ a < Z.of_nat limit → t !! b = None → 0 ≤ b < Z.of_nat limit → a ≠ b →
  ∃ s' t', Enable s t = (None, s', t') ∧ t' !! STDOUT_FILENO = Some "/dev/null"%string ∧
           Disable s' t' = Some (true, t).
Proof.
  intros Hout Ha Ral Hb Rbl Hne. unfold Enable, Disable, sys_open, sys_dup, sys_dup2, sys_close.
  destruct (lowest_free_exists t a Ha Ral) as [x Hx]. rewrite Hx. cbn beta iota zeta.
  destruct (lowest_free_spec t x Hx) as [Hx0 Hx1].
  assert (x ≠ STDOUT_FILENO) as Hx2 by congruence.
  destruct (Z.eqb_spec x (-1)) as [|_]; [lia|]. cbn beta iota zeta.
  rewrite lookup_insert_ne, Hout by done.
  destruct (lowest_free (<[x:="/dev/null"%string]> t)) as [y|] eqn:Hy.
  2: { destruct (decide (a = x)) as [->|Hax].
       - destruct (lowest_free_exists (<[x:="/dev/null"%string]> t) b) as [? E]; [|done|by rewrite Hy in E].
         by rewrite lookup_insert_ne.
       - destruct (lowest_free_exists (<[x:="/dev/null"%string]> t) a) as [? E]; [|done|by rewrite Hy in E].
         by rewrite lookup_insert_ne. }
  apply lowest_free_spec in Hy as [Hy0 Hy1]. apply lookup_insert_None in Hy0 as [Hy0 Hyx]. cbn beta iota zeta.
  assert (y ≠ STDOUT_FILENO) as Hy2 by congruence.
  destruct (Z.eqb_spec y (-1)) as [|_]; [lia|]. cbn beta iota zeta.
  rewrite (lookup_insert_ne _ y x), lookup_insert_eq by done. cbn.
  eexists _, _. split; [done|]. split; [apply lookup_insert_eq|]. cbn.
  rewrite (lookup_insert_ne _ STDOUT_FILENO y), lookup_insert_eq by done. cbn. do 2 f_equal.
  apply map_eq. intros k. rewrite !lookup_delete, !lookup_insert.
  repeat case_decide; congruence.
Qed.
End suppressor.

(** A second [Enable] before [Disable] loses the output: it stays on /dev/null, and two
    descriptors stay open. *)
Lemma enable_twice :
  let t := {[0 := "tty"; 1 := "tty"; 2 := "tty"]}%string in
  ∃ s t', (let '(_, s, t) := Enable 16 OutputSuppressor_init t in Enable 16 s t) = (None, s, t') ∧
    Disable s t' =
      Some (true, {[0 := "tty"; 1 := "/dev/null"; 2 := "tty"; 3 := "/dev/null"; 4 := "tty"]}%string).
Proof. eexists _, _. split; vm_compute; reflexivity. Qed.

(** ** Processes *)

Record process := mkProcess { pr_group : N; pr_name : string }.

#[local] Abbreviation world := (gmap N process).

#[local] Instance process_group_dec g (p : N * process) : Decision (pr_group p.2 = g).
Proof. apply _. Defined.

(** [kill(-g, SIGKILL)]: whether the group has a process, and what it leaves. *)
Definition kill_group (g : N) (w : world) : bool * world :=
  (bool_decide (filter (λ p : N * process, pr_group p.2 = g) w ≠ ∅),
   filter (λ p : N * process, pr_group p.2 ≠ g) w).

Definition contains_name (pat name : string) : bool := bool_decide (is_Some (String.index 0 pat name)).

(** [pkill -9 pat] *)
Definition pkill (pat : string) (w : world) : world :=
  filter (λ p : N * process, contains_name pat (pr_name p.2) = false) w.

Definition cleanup_raft_node_processes (w : world) : world := pkill "raft_node" w.

(** [std::system("... &")] in [spawn_raft_node]: the node joins the group of the program. *)
Definition spawn (self pid : N) (name : string) (w : world) : world :=
  match w !! self with
  | Some p => <[pid := mkProcess (pr_group p) name]> w
  | None => w
  end.

(** ** Flags and the fixture *)

Record test_flags := mkTestFlags {
  tf_tester_verb : Z;
  tf_raft_node_verb : Z;
  tf_ddb : bool;
  tf_ddb_host_ip : string;
  tf_wait_for_attach : bool;
  tf_ddb_app_wrapper : bool }.

Definition default_flags : test_flags := mkTestFlags 1 0 false "127.0.0.1" true true.

(** The fixture; [ft_flushed] counts the flushes of its logger. *)
Record RaftTest := mkRaftTest {
  ft_logger : option string;
  ft_tester_verb : Z;
  ft_raft_node_verb : Z;
  ft_flushed : nat }.

Definition SetUp (f : test_flags) (t : RaftTest) : RaftTest :=
  mkRaftTest (ft_logger t) (tf_tester_verb f) (tf_raft_node_verb f) (ft_flushed t).

Definition TearDown (t : RaftTest) (w : world) : RaftTest * world :=
  (mkRaftTest (ft_logger t) (ft_tester_verb t) (ft_raft_node_verb t)
     (ft_flushed t + match ft_logger t with Some _ => 1 | None => 0 end),
   cleanup_raft_node_processes w).

(** ** The SIGINT handler *)

Definition SIGINT : Z := 2.

(** How the handler ends; [Died] is the death of the program by its own signal. *)
Inductive handler_end := Returns | Exits (code : Z) | Died.

Definition signal_handler (self pgid : N) (signal : Z) (w : world) : handler_end * world :=
  if signal =? SIGINT then
    let '(ok, w) := kill_group pgid w in
    if (ok : bool) then (match w !! self with Some _ => Exits 0 | None => Died end, w) else (Exits 1, w)
  else (Returns, w).

(** ** [main] *)

(** The debugger connection that [main] opens. *)
Record ddb_connection := mkDDBConnection {
  dc_host_ip : string;
  dc_alias : string;
  dc_logical_group : string;
  dc_wait_for_attach : bool }.

(** What [main] has set up when the tests run, and its result. *)
Record test_process := mkTestProcess {
  tp_ddb_conf : DDBConfig;
  tp_connection : option ddb_connection;
  tp_pgid : N;
  tp_handler : option Z;
  tp_result : Z }.

(** [main] of a program with the given alias, running as process [self]; [failed] tells
    whether [RUN_ALL_TESTS] meets a failure. *)
Definition test_main (app_alias : string) (f : test_flags) (self : N) (failed : bool) : test_process :=
  let ddb_conf := mkDDBConfig (tf_ddb f) (tf_ddb_host_ip f) (tf_wait_for_attach f)
                    (tf_ddb_app_wrapper f) in
  mkTestProcess ddb_conf
    (if tf_ddb f
     then Some (mkDDBConnection (tf_ddb_host_ip f) app_alias app_alias (tf_wait_for_attach f))
     else None)
    self (Some SIGINT) (if failed then 1 else 0).

Definition raft_test_extra_main : test_flags → N → bool → test_process :=
  test_main "raft_test_extra_app".

Definition extra_tests_lab2_main : test_flags → N → bool → test_process :=
  test_main "extra_tests_lab2_app".

(** ** What the cleanup reaches *)

Lemma spawn_group self pid name w p :
  w !! self = Some p → spawn self pid name w !! pid = Some (mkProcess (pr_group p) name).
Proof. unfold spawn. intros ->. apply lookup_insert_eq. Qed.

(** Ctrl+C in a program that leads its process group leaves none of its nodes, and
    nothing else is killed. *)
Lemma sigint_kills_nodes f failed self w p :
  let pgid := tp_pgid (raft_test_extra_main f self failed) in
  w !! self = Some p → pr_group p = self →
  (signal_handler self pgid SIGINT w).1 = Died ∧
  ∀ pid q, (signal_handler self pgid SIGINT w).2 !! pid = Some q ↔
           w !! pid = Some q ∧ pr_group q ≠ self.
Proof.
  intros pgid Hself Hlead. subst pgid. unfold signal_handler. simpl.
  rewrite bool_decide_true.
  2: { intros E. assert (filter (λ p : N * process, pr_group p.2 = self) w !! self = Some p) as H
         by (by apply map_lookup_filter_Some). by rewrite E in H. }
  assert (filter (λ p0 : N * process, pr_group p0.2 ≠ self) w !! self = None) as ->.
  { apply map_lookup_filter_None. right. intros q Hq. simplify_eq. simpl. tauto. }
  split; [done|]. intros pid q. simpl. by rewrite map_lookup_filter_Some.
Qed.

(** In a program that does not lead its group there is no group of its number: the
    handler kills nothing, the program exits with status 1 and its nodes go on. *)
Lemma sigint_leaves_nodes f failed self w :
  let pgid := tp_pgid (raft_test_extra_main f self failed) in
  (∀ pid q, w !! pid = Some q → pr_group q ≠ self) →
  signal_handler self pgid SIGINT w = (Exits 1, w).
Proof.
  intros pgid Hno. subst pgid. unfold signal_handler, kill_group. simpl.
  assert (filter (λ p : N * process, pr_group p.2 = self) w = ∅) as ->.
  { apply map_empty. intros i. apply map_lookup_filter_None. right. intros q Hq. simpl. by eapply Hno. }
  rewrite bool_decide_false by tauto.
  f_equal. apply map_filter_id. intros i q Hq. simpl. by eapply Hno.
Qed.

(** After a test no node is left, and the processes of other names are. *)
Lemma teardown_spares t w pid q :
  (TearDown t w).2 !! pid = Some q ↔
  w !! pid = Some q ∧ contains_name "raft_node" (pr_name q) = false.
Proof. unfold TearDown, cleanup_raft_node_processes, pkill. simpl. by rewrite map_lookup_filter_Some. Qed.

(** The nodes of a key-value cluster are not raft nodes: no cleanup of a Raft test
    reaches them. *)
Lemma kv_nodes_spared : contains_name "raft_node" "kv_node" = false ∧ contains_name "raft_node" "raft_node" = true.
Proof. by vm_compute. Qed.
