(* ===== verification/NodeMain.v ===== *)
(** The [main] functions of [app/raft_node.cpp], [app/kv_node.cpp] and
    [app/multinode.cpp]: what they build from the flags, the command loop over
    standard input, the SIGINT handler and the clean-up.

    The loop and the handler are the same code in [raft_node] and [multinode], so the
    loop is modelled once for a process that owns an object through a [unique_ptr]
    ([None] is a null pointer).  Every label is one step of [main] or a signal
    between two of them.  Standard input is buffered: a read takes the lines that are
    there, and [poll] looks at the descriptor only. *)
From S2P Require Import Prelude Types ConfigGen NetInterceptor RaftState RaftNode RaftNodeFacts KvCodec KvServer NodeApp Wrapper TestCtrl.

#[local] Open Scope N_scope.

(** ** The command loop *)

Module CommandLoop.

Inductive read_result := RLines (line : string) (more : list string) | REof | RFail.

(** What [poll] reports: input (and what a read would give), nothing to read (a timeout or
    a hang-up), or an error. *)
Inductive poll_result := PIn (r : read_result) | PIdle | PError (eintr : bool).

(** What a command comes to: undefined behaviour or an exception, [exit], a wait that has
    not ended, or the next state and whether the loop ends. *)
Inductive handled (S : Type) :=
| HUndefined
| HBlocked
| HExit (code : N)
| HDone (s : S) (stop : bool).
Arguments HUndefined {S}.
Arguments HBlocked {S}.
Arguments HExit {S} code.
Arguments HDone {S} s stop.

Inductive pc := PHead | PPoll | PCmd (cmd : string) | PLeft.

Inductive label := Step (p : poll_result) | Sigint.

Section loop.
Context {S : Type}.
(** [handle_cmd], and the part of [handle_sigint] that destroys the object. *)
Context (handle : string → S → handled S) (on_sigint : S → S).

Record process := mkProcess {
  p_state : S;
  keep_running : bool;
  p_buffer : list string;
  p_pc : pc }.

Inductive outcome := Running (p : process) | Exited (code : N) | Undefined.

Definition goto (c : pc) (p : process) : process :=
  mkProcess (p_state p) (keep_running p) (p_buffer p) c.

(** [std::getline] after [poll] has reported input. *)
Definition read_line (r : read_result) (p : process) : process :=
  match p_buffer p, r with
  | l :: ls, _ => mkProcess (p_state p) (keep_running p) ls (PCmd l)
  | [], RLines l ls => mkProcess (p_state p) (keep_running p) ls (PCmd l)
  | [], REof => goto PLeft p
  | [], RFail => goto (if keep_running p then PHead else PLeft) p
  end.

Definition main_step (i : poll_result) (p : process) : outcome :=
  match p_pc p with
  | PHead => Running (goto (if keep_running p then PPoll else PLeft) p)
  | PPoll =>
      Running match i with
              | PIn r => read_line r p
              | PIdle | PError true => goto PHead p
              | PError false => goto PLeft p
              end
  | PCmd cmd =>
      match handle cmd (p_state p) with
      | HUndefined => Undefined
      | HBlocked => Running p
      | HExit code => Exited code
      | HDone s stop => Running (mkProcess s (keep_running p) (p_buffer p) (if stop then PLeft else PHead))
      end
  | PLeft => Running p
  end.

Definition handle_sigint (p : process) : process :=
  mkProcess (on_sigint (p_state p)) false (p_buffer p) (p_pc p).

Definition step (l : label) (p : process) : outcome :=
  match l with Step i => main_step i p | Sigint => Running (handle_sigint p) end.

Fixpoint steps (ls : list label) (p : process) : outcome :=
  match ls with
  | [] => Running p
  | l :: ls => match step l p with Running p' => steps ls p' | o => o end
  end.

(** ** What the loop guarantees *)

(** As long as no signal arrives and the handler keeps a good state good, the loop is
    never undefined and the flag stays set. *)
Lemma loop_safe (good : S → Prop) ls : ∀ p,
  (∀ cmd s, good s → match handle cmd s with
                     | HUndefined => False | HBlocked | HExit _ => True
                     | HDone s' _ => good s' end) →
  good (p_state p) → keep_running p = true → Sigint ∉ ls →
  match steps ls p with
  | Running p' => good (p_state p') ∧ keep_running p' = true
  | Exited _ => True
  | Undefined => False
  end.
Proof.
  induction ls as [|l ls IH]; intros p Hh Hg Hk Hs; [done|].
  apply not_elem_of_cons in Hs as [Hl Hs]. destruct l as [i|]; [|done]. cbn [steps step].
  assert (match main_step i p with
          | Running p' => good (p_state p') ∧ keep_running p' = true
          | Exited _ => True | Undefined => False end) as Hstep.
  { unfold main_step. destruct (p_pc p) as [| |cmd|]; [done| | |done].
    - destruct i as [r| |[]]; try done. unfold read_line. by repeat case_match.
    - specialize (Hh cmd _ Hg). by destruct (handle cmd (p_state p)). }
  destruct (main_step i p) as [p'| |]; [|done|done]. destruct Hstep. by apply IH.
Qed.

(** A line that is left in the buffer is not executed, however often [poll] finds nothing
    on the descriptor. *)
Lemma buffered_line_waits ls : ∀ p,
  Forall (λ l, l = Step PIdle) ls → p_pc p = PHead ∨ p_pc p = PPoll → keep_running p = true →
  ∃ p', steps ls p = Running p' ∧ p_state p' = p_state p ∧ p_buffer p' = p_buffer p ∧
        (p_pc p' = PHead ∨ p_pc p' = PPoll).
Proof.
  induction ls as [|l ls IH]; intros p Hall Hpc Hk; [by exists p|].
  apply Forall_cons in Hall as [-> Hall]. cbn [steps step]. unfold main_step.
  destruct Hpc as [-> | ->]; rewrite ?Hk;
    [destruct (IH (goto PPoll p)) as (p' & Hs & H1 & H2 & H3)
    |destruct (IH (goto PHead p)) as (p' & Hs & H1 & H2 & H3)]; auto; by exists p'.
Qed.

(** After a signal between two turns the loop ends at its next test. *)
Lemma sigint_at_head i p : p_pc p = PHead →
  step (Step i) (handle_sigint p) = Running (goto PLeft (handle_sigint p)).
Proof. intros Hp. cbn. unfold main_step. simpl. by rewrite Hp. Qed.
End loop.
Arguments process : clear implicits.
Arguments outcome : clear implicits.
End CommandLoop.
Import CommandLoop.

(** ** [raft_node] *)

Record node_flags := mkFlags {
  fl_id : N;
  fl_port : N;
  fl_peers : gmap N string;
  fl_verbosity : Z;
  fl_fail_type : N;
  fl_enable_ctrl : bool;
  fl_ctrl_addr : string;
  fl_node_tester_port : N }.

(** The object that [raft] owns, the interceptor, which is global, and a history of the
    objects that were destroyed, as their destructors left them. *)
Record node_state := mkNodeState {
  ns_raft : option RaftWrapper;
  ns_net : NetInterceptor;
  ns_gone : list RaftWrapper }.

(** The wrapper that the flags ask for. *)
Definition flag_wrapper (fl : node_flags) (config : Config) (r : N) (net : NetInterceptor)
    : RaftWrapper :=
  if fl_enable_ctrl fl
  then RaftWrapper_init (fl_ctrl_addr fl) (fl_node_tester_port fl) config r net
  else RaftWrapper_plain config r net.

Section raft_node.
Context (StripAsciiWhitespace : string → string) (StrSplit : string → string → list string).

(** [raft->kill()] and [raft->stop_server()]. *)
Definition kill_and_stop (x : RaftWrapper) : RaftWrapper :=
  stop_server (set_rw_raft (kill (rw_raft x)) x).

(** [raft.reset()]. *)
Definition reset (s : node_state) : node_state :=
  mkNodeState None (ns_net s)
    (ns_gone s ++ option_list (ns_raft s ≫= RaftWrapper_destroy)).

(** Run a command: [raft->...] needs the object. *)
Definition raft_handle (cmd : string) (s : node_state) : handled node_state :=
  let '(action, stop) := handle_cmd StripAsciiWhitespace StrSplit cmd in
  match action with
  | NRun =>
      match ns_raft s with
      | Some x => HDone (mkNodeState (Some (Run x)) (ns_net s) (ns_gone s)) stop
      | None => HUndefined
      end
  | NKill =>
      match ns_raft s with
      | Some x => HDone (mkNodeState (Some (kill_and_stop x)) (ns_net s) (ns_gone s)) stop
      | None => HUndefined
      end
  | NNet ops => HDone (mkNodeState (ns_raft s) (foldl apply_op (ns_net s) ops) (ns_gone s)) stop
  | NNothing => HDone s stop
  end.

(** [kill], [stop_server] and [reset] if the pointer is set. *)
Definition raft_sigint (s : node_state) : node_state :=
  match ns_raft s with
  | Some x => reset (mkNodeState (Some (kill_and_stop x)) (ns_net s) (ns_gone s))
  | None => s
  end.

(** The node that [main] builds; [None] when the signal handler cannot be installed, and
    the program returns 1.  [r] is the first draw of the election timer. *)
Definition raft_node_main (sigaction_ok : bool) (fl : node_flags) (r : N) (net : NetInterceptor)
    : option (process node_state) :=
  if sigaction_ok then
    let config := main_config (fl_id fl) (fl_port fl) (fl_peers fl) in
    let raft := flag_wrapper fl config r net in
    let net := prepare_interceptor (world_of (fl_id fl) (fl_peers fl)) (fl_fail_type fl) net in
    Some (mkProcess (mkNodeState (Some (start_server raft)) net []) true [] PHead)
  else None.

(** The end of [main]: what the loop left is destroyed. *)
Definition raft_node_exit (p : process node_state) : node_state := reset (p_state p).

Abbreviation raft_steps := (steps raft_handle raft_sigint).

Lemma raft_handle_safe cmd s :
  is_Some (ns_raft s) →
  match raft_handle cmd s with
  | HUndefined => False
  | HBlocked | HExit _ => True
  | HDone s' _ => is_Some (ns_raft s')
  end.
Proof.
  intros [x Hx]. unfold raft_handle. destruct (handle_cmd _ _ cmd) as [[] stop]; rewrite ?Hx; simpl; eauto.
Qed.

(** Without a signal a node that the operator controls never touches a null pointer, and
    keeps its object until [main] destroys it. *)
Lemma raft_cli_safe fl r net p ls :
  raft_node_main true fl r net = Some p → Sigint ∉ ls →
  ∃ p', raft_steps ls p = Running p' ∧ is_Some (ns_raft (p_state p')).
Proof.
  intros Hp Hs. unfold raft_node_main in Hp. simplify_eq.
  match goal with |- context [steps _ _ ls ?q] => set (p0 := q) end.
  assert (∀ ls p, is_Some (ns_raft (p_state p)) → keep_running p = true → Sigint ∉ ls →
    ∃ p', raft_steps ls p = Running p' ∧ is_Some (ns_raft (p_state p'))) as Hgen.
  { clear. intros ls. induction ls as [|l ls IH]; intros p Hr Hk Hs; [by exists p|].
    apply not_elem_of_cons in Hs as [Hl Hs]. destruct l as [i|]; [|done].
    pose proof (loop_safe raft_handle raft_sigint (λ s, is_Some (ns_raft s)) [Step i] p
      raft_handle_safe Hr Hk) as Hone.
    assert (Sigint ∉ [Step i]) as Hn by (by rewrite list_elem_of_singleton).
    specialize (Hone Hn). cbn [steps] in Hone |- *.
    destruct (step raft_handle raft_sigint (Step i) p) as [p'|code|] eqn:Hstep; [|exfalso|done].
    - destruct Hone. by apply IH.
    - clear -Hstep. cbn in Hstep. unfold main_step in Hstep. destruct (p_pc p); try done.
      unfold raft_handle in Hstep. by repeat case_match. }
  by apply Hgen.
Qed.

(** A signal between reading a command and running it: the handler has destroyed the
    node, and the command goes through a null pointer. *)
Lemma sigint_command_race fl r net p cmd :
  raft_node_main true fl r net = Some p →
  handle_cmd StripAsciiWhitespace StrSplit cmd = (NRun, false) →
  raft_steps [Step PIdle; Step (PIn (RLines cmd [])); Sigint; Step PIdle] p = Undefined.
Proof.
  intros Hp Hc. unfold raft_node_main in Hp. simplify_eq. cbn. unfold main_step, raft_handle. simpl.
  by rewrite Hc.
Qed.
(** What a destroyed node looks like. *)
Definition released (x : RaftWrapper) : Prop :=
  rw_ready_closed x = true ∧ rw_node_svr x = None ∧ rw_server_up x = false ∧ rw_helper x = false.

Definition tidy (s : node_state) : Prop :=
  (∀ x, ns_raft s = Some x → controlled x) ∧ Forall released (ns_gone s).

Lemma tidy_reset s : tidy s → tidy (reset s) ∧ ns_raft (reset s) = None.
Proof.
  intros [Hc Hg]. split; [|done]. split; [done|]. simpl. apply Forall_app. split; [done|].
  destruct (ns_raft s) as [x|]; [|constructor]. simpl.
  destruct (destroy_returns x (Hc x eq_refl)) as (y & -> & _ & Hy). by constructor.
Qed.

Lemma tidy_handle cmd s s' stop : tidy s → raft_handle cmd s = HDone s' stop → tidy s'.
Proof.
  intros [Hc Hg] Hh. unfold raft_handle in Hh.
  destruct (handle_cmd _ _ cmd) as [[] stop']; destruct (ns_raft s) as [x|] eqn:Hx; simplify_eq;
    (split; simpl; [|done]); try (by rewrite Hx); try (by intros ? [=]); intros y [= <-]; exact (Hc x eq_refl).
Qed.

Lemma tidy_sigint s : tidy s → tidy (raft_sigint s).
Proof.
  intros [Hc Hg]. unfold raft_sigint. destruct (ns_raft s) as [x|] eqn:Hx; [|by split; rewrite ?Hx].
  apply tidy_reset. split; simpl; [|done]. intros y [= <-]. exact (Hc x eq_refl).
Qed.

(** However commands and signals come, when [main] ends the node has been destroyed, and its
    destructor has returned with both servers down and the queue closed. *)
Lemma raft_node_exits_clean fl r net p ls p' :
  raft_node_main true fl r net = Some p → raft_steps ls p = Running p' →
  ns_raft (raft_node_exit p') = None ∧ Forall released (ns_gone (raft_node_exit p')).
Proof.
  intros Hp Hrun.
  assert (∀ ls p, tidy (p_state p) → raft_steps ls p = Running p' → tidy (p_state p')) as Hgen.
  { clear. induction ls as [|l ls IH]; intros p Ht Hs; simpl in Hs; [by simplify_eq|].
    destruct (step raft_handle raft_sigint l p) as [p1| |] eqn:Hstep; [|done|done].
    apply (IH p1); [|done]. destruct l as [i|]; simpl in Hstep; [|simplify_eq; by apply tidy_sigint].
    unfold main_step in Hstep. destruct (p_pc p) as [| |cmd|]; simplify_eq; try done.
    - destruct i as [rr| |[]]; try done. unfold read_line. by destruct (p_buffer p), rr.
    - destruct (raft_handle cmd (p_state p)) as [| | |s' stop] eqn:Hh; simplify_eq; [done|].
      by eapply tidy_handle. }
  assert (tidy (p_state p)) as Ht0.
  { unfold raft_node_main in Hp. simplify_eq. split; simpl; [|constructor]. intros x [= <-].
    unfold flag_wrapper. by destruct (fl_enable_ctrl fl). }
  destruct (tidy_reset _ (Hgen ls p Ht0 Hrun)) as [[_ Hg] Hn]. done.
Qed.
End raft_node.

(** ** A node under the controller *)

(** The requests that end [start_svr_loop]: once a [Kill] has arrived the helper thread can
    run, and it takes the tester's server down, whatever else was requested. *)
Lemma serve_requested x q : rw_shutdown_requested x = true → rw_shutdown_requested (serve x q) = true.
Proof.
  intros H. destruct q; try done; simpl.
  - unfold Propose. by destruct (propose data (rw_raft x)).
  - unfold ProposeSync. by destruct (propose_sync data now polls (rw_raft x)).
Qed.

Lemma served_kill_ends x qs :
  RqKill ∈ qs → ∃ y, shutdown_helper (foldl serve x qs) = Some y ∧ rw_node_svr y = None.
Proof.
  intros Hk. assert (rw_shutdown_requested (foldl serve x qs) = true) as Hr.
  { revert x Hk. induction qs as [|q qs IH]; intros x Hk; [by apply elem_of_nil in Hk|].
    apply elem_of_cons in Hk as [<-|Hk]; simpl; [|by apply IH].
    assert (rw_shutdown_requested (Kill x) = true) as H0 by done.
    revert H0. generalize (Kill x). clear. induction qs as [|q qs IH]; intros x Hx; [done|].
    simpl. apply IH, serve_requested, Hx. }
  unfold shutdown_helper. rewrite Hr. by eexists.
Qed.

(** ** [kv_node] *)

(** The members of [KvNodeWrapper]; [kn_capacity] is that of the ready queue. *)
Record KvNodeWrapper := mkKvNodeWrapper {
  kn_raft : RaftWrapper;
  kn_server : KvServer;
  kn_addr : string;
  kn_up : bool;
  kn_capacity : N }.

(** The constructors: the key-value server listens before [main] goes on. *)
Definition start_kv_server (port : N) : string := ("0.0.0.0:" +:+ to_string port)%string.

Definition KvNodeWrapper_init (kv_port : N) (raft : RaftWrapper) : KvNodeWrapper :=
  mkKvNodeWrapper raft KvServer_init (start_kv_server kv_port) true 65536.

(** The destructor: the key-value server is shut down first. *)
Definition KvNodeWrapper_destroy (x : KvNodeWrapper) : option KvNodeWrapper :=
  r ← RaftWrapper_destroy (kn_raft x);
  Some (mkKvNodeWrapper r (kn_server x) (kn_addr x) false (kn_capacity x)).

(** [kill], [stop_server] and the destructor, in the handler of SIGINT. *)
Definition kv_sigint (x : KvNodeWrapper) : option KvNodeWrapper :=
  KvNodeWrapper_destroy
    (mkKvNodeWrapper (kill_and_stop (kn_raft x)) (kn_server x) (kn_addr x) (kn_up x) (kn_capacity x)).

Definition kv_node_main (sigaction_ok : bool) (fl : node_flags) (r : N) (net : NetInterceptor)
    : option (KvNodeWrapper * NetInterceptor) :=
  if sigaction_ok then
    let kv_port := fl_port fl + KV_PORT_OFFSET in
    let config := main_config (fl_id fl) (fl_port fl) (fl_peers fl) in
    let node := KvNodeWrapper_init kv_port (flag_wrapper fl config r net) in
    Some (mkKvNodeWrapper (start_server (kn_raft node)) (kn_server node) (kn_addr node)
            (kn_up node) (kn_capacity node),
          prepare_interceptor (world_of (fl_id fl) (fl_peers fl)) (fl_fail_type fl) net)
  else None.

(** What happens to a node in interactive mode, while [main] sleeps in its loop: the Raft
    service answers its peers, the key-value service proposes. *)
Inductive idle_label :=
| IVote (req : RequestVoteReq) (r : N)
| IAppend (req : AppendEntriesRequest) (r : N)
| IPropose (data : string).

Definition idle_step (n : Raft) (l : idle_label) : Raft :=
  match l with
  | IVote req r => default n (fst <$> handle_request_vote req r n)
  | IAppend req r => default n (fst <$> handle_append_entries req r n)
  | IPropose data => (propose data n).1
  end.

(** Neither leader nor believed to be one. *)
Definition passive (n : Raft) : Prop := role_ n ≠ LEADER ∧ is_leader_atomic_ n = false.

Lemma vote_passive req r n n' reply :
  passive n → handle_request_vote req r n = Some (n', reply) → passive n'.
Proof.
  intros [Hr Ha] Hv. unfold handle_request_vote in Hv.
  assert (passive (adopt_term (rvq_term req) r n)) as [Hr' Ha']
    by (unfold adopt_term; destruct (current_term_ n <? rvq_term req); split; simpl; first [discriminate|exact Hr|exact Ha]).
  destruct (rvq_term req <? current_term_ n); [by simplify_eq|]. undo_bind.
  destruct (vote_free _ _ && _); simplify_eq; split; first [exact Hr'|exact Ha'].
Qed.

Lemma append_passive req r n n' reply :
  passive n → handle_append_entries req r n = Some (n', reply) → passive n'.
Proof.
  intros [Hr Ha] Hv. unfold handle_append_entries in Hv.
  assert (passive (follow_leader req r n)) as [Hr' Ha'].
  { unfold follow_leader. destruct (current_term_ n <? aeq_term req); simpl;
      (case_decide; [done|]); split; simpl; first [discriminate|exact Ha]. }
  destruct (aeq_term req <? current_term_ n); [by simplify_eq|].
  set (m := follow_leader req r n) in *. clearbody m.
  destruct (vsize (log_ m) <? prevLogIndex req); [by simplify_eq|].
  undo_bind. destruct x; [by simplify_eq|]. undo_bind. destruct x as [log idx]. undo_bind.
  unfold advance_commit in *. undo_bind. destruct x as [la out]. simplify_eq.
  split; cbn; by destruct (commit_index_ m <? leaderCommit req).
Qed.

Lemma idle_passive n l : passive n → passive (idle_step n l).
Proof.
  intros Hp. destruct l as [req r|req r|data]; simpl.
  - destruct (handle_request_vote req r n) as [[n' reply]|] eqn:Hv; [|done]. by eapply vote_passive.
  - destruct (handle_append_entries req r n) as [[n' reply]|] eqn:Hv; [|done]. by eapply append_passive.
  - destruct Hp as [Hr Ha]. unfold propose. by rewrite decide_False.
Qed.

(** In interactive mode [main] never connects the peers and never runs the node, so that
    whatever its peers and clients send, the node does not become a leader: it accepts
    no proposal and holds no lease. *)
Lemma interactive_never_leads fl r net node net' ls :
  fl_enable_ctrl fl = false → kv_node_main true fl r net = Some (node, net') →
  let n := foldl idle_step (rw_raft (kn_raft node)) ls in
  (∀ data, pr_is_leader (propose data n).2 = false) ∧ (∀ now n2 n3, get_lease_state n now n2 n3 = (false, 0)).
Proof.
  intros Hfl Hm n. assert (passive n) as [Hr Ha].
  { unfold n. assert (passive (rw_raft (kn_raft node))) as Hp.
    { unfold kv_node_main, flag_wrapper in Hm. rewrite Hfl in Hm. by simplify_eq. }
    revert Hp. generalize (rw_raft (kn_raft node)). clear.
    induction ls as [|l ls IH]; intros n Hp; [done|]. simpl. by apply IH, idle_passive. }
  split; intros.
  - unfold propose. by rewrite decide_False.
  - unfold get_lease_state. by rewrite Ha.
Qed.

(** ** [multinode] *)

(** The object that [ctrl] owns. *)
Definition multi_state := option RaftTestCtrl.

Section multinode.
Context (StripAsciiWhitespace : string → string) (StrSplit : string → string → list string).
Context (stoul : string → option N).
(** Whether the requests of a command succeed at all nodes, and how the nodes answer a
    kill. *)
Context (ok : ctrl_action → bool) (rpc : nat → N → bool) (alive1 alive2 : gset N).

Definition ctrl_command (a : ctrl_action) (s : RaftTestCtrl) : handled RaftTestCtrl :=
  match a with
  | CRun =>
      match connect_to_raft_nodes s with
      | Some s' => if ok a then HDone s' false else HExit 1
      | None => HBlocked
      end
  | CKill => HDone (kill_all rpc alive1 alive2 s).1.1 true
  | CDisconnect _ | CReconnect _ => if ok a then HDone s false else HExit 1
  | CPropose _ | CNothing => HDone s false
  end.

(** An id that is not a number throws, which nothing catches. *)
Definition multi_handle (cmd : string) (s : multi_state) : handled multi_state :=
  match handle_cmd_multi StripAsciiWhitespace StrSplit stoul cmd with
  | None => HUndefined
  | Some (CNothing, stop) => HDone s stop
  | Some (action, stop) =>
      match s with
      | Some c =>
          match ctrl_command action c with
          | HDone c' _ => HDone (Some c') stop
          | HExit code => HExit code
          | HBlocked => HBlocked
          | HUndefined => HUndefined
          end
      | None => HUndefined
      end
  end.

Definition multi_sigint (s : multi_state) : multi_state := None.

(** [main], once the flags are read: the controller for the layout of [num] nodes.  The
    binary is the constant path; the flag [bin] is read and not used. *)
Definition node_path : string := "./raft_node".
Definition ctrl_addr : string := "0.0.0.0:55000".

Definition multinode_main (sigaction_ok : bool) (num : N) : option (process multi_state) :=
  if sigaction_ok then
    let l := multinode_layout num in
    Some (mkProcess (Some (RaftTestCtrl_init (lay_configs l) (list_to_map (lay_tester_ports l))))
            true [] PHead)
  else None.

(** Without a signal and with numbers for ids the operator's commands never go through a
    null pointer. *)
Lemma multi_cli_safe num p ls :
  (∀ s, is_Some (stoul s)) → multinode_main true num = Some p → Sigint ∉ ls →
  match steps multi_handle multi_sigint ls p with
  | Running p' => is_Some (p_state p') ∧ keep_running p' = true
  | Exited _ => True
  | Undefined => False
  end.
Proof.
  intros Hst Hp Hs. unfold multinode_main in Hp. simplify_eq.
  apply (loop_safe multi_handle multi_sigint is_Some); [|by eexists|done|done].
  intros cmd s [c ->]. unfold multi_handle.
  destruct (handle_cmd_multi _ _ stoul cmd) as [[a stop]|] eqn:Hc.
  - assert (ctrl_command a c ≠ HUndefined) as Hn
      by (unfold ctrl_command; destruct a; try done; repeat case_match; done).
    destruct (ctrl_command a c); destruct a; try done; by eexists.
  - exfalso. unfold handle_cmd_multi in Hc. destruct (StrSplit _ " ") as [|x [|y l]]; [done|by repeat case_match|].
    assert (is_Some (mapM stoul (y :: l))) as [ids Hids].
    { apply mapM_is_Some. apply Forall_true. done. }
    rewrite Hids in Hc. simpl in Hc. by repeat case_match.
Qed.
End multinode.

(** ** Runs *)

Definition flags0 : node_flags := mkFlags 0 50050 two_peers 1 0 false "localhost:55000" 55001.

Definition strip (s : string) : string := s.

(** Two lines that arrive in one read: the second is not run while nothing else arrives. *)
Definition pasted : list label :=
  [Step PIdle; Step (PIn (RLines "r" ["k"%string])); Step PIdle; Step PIdle; Step PIdle; Step PIdle].

Lemma pasted_command_waits :
  ∃ p p', raft_node_main true flags0 0 NetInterceptor_init = Some p ∧
    steps (raft_handle strip Absl.StrSplit) raft_sigint pasted p = Running p' ∧
    p_buffer p' = ["k"%string] ∧
    option_map (λ x, (rw_runs x, is_dead (rw_raft x))) (ns_raft (p_state p')) = Some (1%nat, false).
Proof.
  eexists _, _. split; [reflexivity|]. split; [reflexivity|]. split; [reflexivity|]. reflexivity.
Qed.

(** A session: run, cut a peer off, kill. *)
Definition session : list label :=
  [Step PIdle; Step (PIn (RLines "r" [])); Step PIdle; Step PIdle;
   Step (PIn (RLines "dis 1" [])); Step PIdle; Step PIdle; Step (PIn (RLines "k" [])); Step PIdle].

Lemma session_runs :
  ∃ p p', raft_node_main true flags0 0 NetInterceptor_init = Some p ∧
    steps (raft_handle strip Absl.StrSplit) raft_sigint session p = Running p' ∧
    p_pc p' = PLeft ∧ rank2 (ns_net (p_state p')) = {["1"%string]} ∧
    option_map (λ x, (rw_server_up x, is_dead (rw_raft x))) (ns_raft (p_state p')) = Some (false, true).
Proof. eexists _, _. split; [reflexivity|]. split; [reflexivity|]. vm_compute. done. Qed.

Lemma interactive_never_leads_witness :
  ∃ node net', kv_node_main true flags0 0 NetInterceptor_init = Some (node, net') ∧
    kn_addr node = "0.0.0.0:51050"%string ∧
    pr_is_leader (propose "x"
      (foldl idle_step (rw_raft (kn_raft node)) [IVote (mkRequestVoteReq 3 1 0 0) 0; IPropose "y"])).2 = false.
Proof.
  eexists _, _. split; [reflexivity|]. split; [vm_compute; reflexivity|].
  refine (proj1 (interactive_never_leads flags0 0 NetInterceptor_init _ _
    [IVote (mkRequestVoteReq 3 1 0 0) 0; IPropose "y"] _ _) "x"%string); reflexivity.
Defined.
