(* ===== verification/Double.v ===== *)
(** The [double] arithmetic of the benchmarks ([app/tput.cpp], [app/latency.cpp]):
    IEEE 754 binary64 with round to nearest even, [std::sort] and
    [std::accumulate] on vectors of doubles, and the fixed-point printing of
    [printf] and [std::format].

    The numbers are those of the Standard Library's [SpecFloat].  The comparison is
    [<] of the language, so the order facts are proved for the numbers that a
    measurement can give: not a NaN and without a sign. *)
From Stdlib Require Import SpecFloat.
From Stdlib Require Import Ascii.
From stdpp Require Import sorting.
From S2P Require Import Prelude ConfigGen.

#[local] Open Scope Z_scope.

Definition double := spec_float.

#[export] Instance double_eq_dec : EqDecision double.
Proof. solve_decision. Defined.

Definition dadd (x y : double) : double := SFadd 53 1024 x y.
Definition ddiv (x y : double) : double := SFdiv 53 1024 x y.

(** [static_cast<double>] of an integer. *)
Definition of_int (z : Z) : double := binary_normalize 53 1024 z 0 false.

(** ** Numbers without a sign *)

Definition unsigned (d : double) : bool :=
  match d with
  | S754_zero s | S754_infinity s | S754_finite s _ _ => negb s
  | S754_nan => false
  end.

Lemma shr_1_nonneg r : 0 ≤ shr_m r → 0 ≤ shr_m (shr_1 r).
Proof. destruct r as [[|[p|p|]|[p|p|]] r s]; simpl; lia. Qed.

Lemma iter_pos_inv {A} (P : A → Prop) (f : A → A) (n : positive) :
  (∀ x, P x → P (f x)) → ∀ x, P x → P (SpecFloat.iter_pos f n x).
Proof. intros Hf. induction n; simpl; eauto. Qed.

Lemma shr_fexp_nonneg m e l : 0 ≤ m → 0 ≤ shr_m (shr_fexp 53 1024 m e l).1.
Proof.
  intros Hm. unfold shr_fexp, shr.
  assert (0 ≤ shr_m (shr_record_of_loc m l)) by (by destruct l as [|[]]).
  case_match; simpl; [done| |done].
  apply iter_pos_inv; [apply shr_1_nonneg|done].
Qed.

Lemma round_nearest_nonneg m l : 0 ≤ m → 0 ≤ round_nearest_even m l.
Proof. intros Hm. unfold round_nearest_even. repeat case_match; lia. Qed.

(** Rounding keeps the sign and gives a number. *)
Lemma round_aux_sign s m e l :
  0 ≤ m → ∃ d, binary_round_aux 53 1024 s m e l = d ∧
    match d with S754_zero t | S754_infinity t | S754_finite t _ _ => t = s | S754_nan => False end.
Proof.
  intros Hm. eexists. split; [reflexivity|]. unfold binary_round_aux.
  pose proof (shr_fexp_nonneg m e l Hm) as H1.
  destruct (shr_fexp 53 1024 m e l) as [r1 e1]. simpl in H1.
  pose proof (shr_fexp_nonneg _ e1 loc_Exact
    (round_nearest_nonneg _ (loc_of_shr_record r1) H1)) as H2.
  destruct (shr_fexp 53 1024 _ e1 loc_Exact) as [r2 e2]. simpl in H2.
  destruct (shr_m r2); simpl; [done| |lia]. destruct (Z.leb _ _); done.
Qed.

Lemma round_aux_unsigned m e l : 0 ≤ m → unsigned (binary_round_aux 53 1024 false m e l) = true.
Proof.
  intros Hm. destruct (round_aux_sign false m e l Hm) as (d & -> & Hd). by destruct d; subst.
Qed.

Lemma normalize_unsigned m e : 0 ≤ m → unsigned (binary_normalize 53 1024 m e false) = true.
Proof.
  intros Hm. destruct m as [|p|p]; [done| |lia]. unfold binary_normalize, binary_round.
  destruct (shl_align _ _ _) as [mz ez]. by apply round_aux_unsigned.
Qed.

Lemma of_int_unsigned z : 0 ≤ z → unsigned (of_int z) = true.
Proof. apply normalize_unsigned. Qed.

Lemma dadd_unsigned x y : unsigned x = true → unsigned y = true → unsigned (dadd x y) = true.
Proof.
  intros Hx Hy. unfold dadd.
  destruct x as [[]|[]| |[] m e], y as [[]|[]| |[] n f]; try done.
  unfold SFadd. apply normalize_unsigned. simpl. lia.
Qed.

(** The remainders of a division have no sign either. *)
Lemma div_core_nonneg m1 e1 m2 e2 :
  0 ≤ ((SFdiv_core_binary 53 1024 (Zpos m1) e1 (Zpos m2) e2).1).1.
Proof.
  unfold SFdiv_core_binary.
  match goal with |- context [Z.div_eucl ?a ?b] =>
    assert (0 ≤ a) as Ha by (case_match; [done|by apply Z.shiftl_nonneg|done]);
    pose proof (Z.div_pos a b Ha) as Hq; unfold Z.div in Hq;
    destruct (Z.div_eucl a b) as [q r]
  end. simpl in *. lia.
Qed.

(** A quotient of unsigned numbers is unsigned unless it has no value: 0/0 or the
    quotient of infinities. *)
Lemma ddiv_unsigned x m e :
  unsigned x = true → unsigned (ddiv x (S754_finite false m e)) = true.
Proof.
  intros Hx. unfold ddiv. destruct x as [[]|[]| |[] n f]; try done. unfold SFdiv.
  pose proof (div_core_nonneg n f m e) as Hq.
  destruct (SFdiv_core_binary _ _ _ _ _ _) as [[q e'] l]. by apply round_aux_unsigned.
Qed.

(** ** Small integers are exact *)

Lemma digits2_iter k m : Zpos (digits2_pos (Pos.iter xO m k)) = Zpos (digits2_pos m) + Zpos k.
Proof. induction k as [|k IH] using Pos.peano_ind; [simpl; lia|]. rewrite Pos.iter_succ. simpl. lia. Qed.

Lemma digits2_lower m : 2 ^ (Zpos (digits2_pos m) - 1) ≤ Zpos m.
Proof.
  induction m as [m IH|m IH|]; simpl digits2_pos; [| |done];
    rewrite Pos2Z.inj_succ; replace (Z.succ (Zpos (digits2_pos m)) - 1) with
      (Z.succ (Zpos (digits2_pos m) - 1)) by lia; rewrite Z.pow_succ_r by lia; lia.
Qed.

Lemma digits2_bound m : Zpos m < 2 ^ 53 → Zpos (digits2_pos m) ≤ 53.
Proof.
  intros Hm. destruct (Z.le_gt_cases (Zpos (digits2_pos m)) 53) as [|Hgt]; [done|].
  pose proof (digits2_lower m). assert (2 ^ 53 ≤ 2 ^ (Zpos (digits2_pos m) - 1)); [|lia].
  apply Z.pow_le_mono_r; lia.
Qed.

(** Rounding at the exponent of the format does nothing. *)
Lemma round_aux_exact m e :
  fexp 53 1024 (Zpos (digits2_pos m) + e) = e → e ≤ 971 →
  binary_round_aux 53 1024 false (Zpos m) e loc_Exact = S754_finite false m e.
Proof.
  intros Hf He. unfold binary_round_aux, shr_fexp, Zdigits2. rewrite Hf, Z.sub_diag.
  cbn [shr shr_record_of_loc loc_of_shr_record shr_m round_nearest_even].
  rewrite Hf, Z.sub_diag. cbn [shr shr_record_of_loc shr_m].
  destruct (Z.leb_spec e (1024 - 53)); [done|lia].
Qed.

Lemma of_int_finite z : 0 < z < 2 ^ 53 → ∃ m e, of_int z = S754_finite false m e.
Proof.
  intros [Hz Hlt]. destruct z as [|m|m]; [lia| |lia]. unfold of_int, binary_normalize, binary_round.
  pose proof (digits2_bound m Hlt) as Hd. rewrite Z.add_0_r. unfold shl_align.
  assert (fexp 53 1024 (Zpos (digits2_pos m)) = Zpos (digits2_pos m) - 53) as Hf
    by (unfold fexp, emin; lia).
  rewrite Hf, Z.sub_0_r. destruct (Zpos (digits2_pos m) - 53) as [|k|k] eqn:Hk; [|lia|].
  - exists m, 0. apply round_aux_exact; [|lia]. rewrite Z.add_0_r, Hf. lia.
  - exists (Pos.iter xO m k), (Zneg k). apply round_aux_exact; [|lia].
    rewrite digits2_iter. unfold fexp, emin. lia.
Qed.

(** ** Order *)

Definition dlt (x y : double) : bool := SFltb x y.

(** [x] need not come after [y]. *)
Definition dle (x y : double) : Prop := dlt y x = false.

#[export] Instance dle_dec : RelDecision dle.
Proof. intros x y. unfold dle. apply _. Defined.

(** A key in lexicographic order. *)
Definition key (d : double) : Z * Z * Z :=
  match d with
  | S754_zero _ | S754_nan => (0, 0, 0)
  | S754_finite s m e => if s then (-1, - e, Zneg m) else (1, e, Zpos m)
  | S754_infinity s => (if s then -2 else 2, 0, 0)
  end.

Definition key_lt (a b : Z * Z * Z) : Prop :=
  let '(a1, a2, a3) := a in
  let '(b1, b2, b3) := b in
  a1 < b1 ∨ (a1 = b1 ∧ (a2 < b2 ∨ (a2 = b2 ∧ a3 < b3))).

Lemma dlt_key x y : x ≠ S754_nan → y ≠ S754_nan → dlt x y = true ↔ key_lt (key x) (key y).
Proof.
  intros Hx Hy. unfold dlt, SFltb, SFcompare.
  destruct x as [[]|[]| |[] m e], y as [[]|[]| |[] n f]; simpl; try done;
    try (split; [intros H; first [done|lia]|intros H; first [done|lia]]).
  - destruct (Z.compare_spec e f); simpl; try (split; [intros|done]; lia);
      try (split; [done|lia]).
    fold (Pos.compare m n). destruct (Pos.compare_spec m n); simpl; split; first [done|lia].
  - destruct (Z.compare_spec e f); simpl; try (split; [intros|done]; lia);
      try (split; [done|lia]).
    fold (Pos.compare m n). destruct (Pos.compare_spec m n); simpl; split; first [done|lia].
Qed.

Lemma unsigned_not_nan x : unsigned x = true → x ≠ S754_nan.
Proof. by destruct x. Qed.

Lemma dle_key x y :
  unsigned x = true → unsigned y = true → dle x y ↔ ¬ key_lt (key y) (key x).
Proof.
  intros Hx Hy. unfold dle. rewrite <- dlt_key by (by apply unsigned_not_nan).
  by rewrite not_true_iff_false.
Qed.

Lemma key_inj x y : unsigned x = true → unsigned y = true → key x = key y → x = y.
Proof. by destruct x as [[]|[]| |[] m e], y as [[]|[]| |[] n f]; intros; simplify_eq/=. Qed.

Lemma dle_refl x : dle x x.
Proof.
  unfold dle, dlt, SFltb, SFcompare. destruct x as [[]|[]| |[] m e]; try done;
    rewrite Z.compare_refl; fold (Pos.compare m m); by rewrite Pos.compare_refl.
Qed.

Lemma dle_trans x y z :
  unsigned x = true → unsigned y = true → unsigned z = true → dle x y → dle y z → dle x z.
Proof.
  intros Hx Hy Hz. rewrite !dle_key by done.
  destruct (key x) as [[? ?] ?], (key y) as [[? ?] ?], (key z) as [[? ?] ?]. simpl. lia.
Qed.

Lemma dle_antisym x y :
  unsigned x = true → unsigned y = true → dle x y → dle y x → x = y.
Proof.
  intros Hx Hy. rewrite !dle_key by done. intros H1 H2. apply key_inj; [done..|].
  destruct (key x) as [[? ?] ?], (key y) as [[? ?] ?]. simpl in *.
  f_equal; [f_equal|]; lia.
Qed.

Lemma dle_total x y : dle x y ∨ dle y x.
Proof.
  destruct (decide (x = S754_nan)) as [->|Hx]; [by left; unfold dle, dlt, SFltb; destruct y|].
  destruct (decide (y = S754_nan)) as [->|Hy]; [by right; unfold dle, dlt, SFltb; destruct x|].
  unfold dle. destruct (dlt y x) eqn:H; [|by left]. right. apply not_true_iff_false.
  apply dlt_key in H; [|done..]. rewrite dlt_key by done.
  destruct (key x) as [[? ?] ?], (key y) as [[? ?] ?]. simpl in *. lia.
Qed.

#[export] Instance dle_Total : Total dle.
Proof. intros x y. apply dle_total. Qed.

(** ** Sorting and quantiles *)

(** [std::sort] on a range of doubles. *)
Definition dsort (l : list double) : list double := merge_sort dle l.

(** [std::accumulate(begin, end, 0.0)]. *)
Definition dsum (l : list double) : double := foldl dadd (of_int 0) l.

(** [sorted[sorted.size() * k / 100]], on a [size_t]. *)
Definition quantile (k : N) (sorted : list double) : option double :=
  vat sorted (wrap64 (vsize sorted * k) / 100)%N.

Abbreviation all_unsigned := (Forall (λ d, unsigned d = true)).

Lemma dsort_perm l : dsort l ≡ₚ l.
Proof. apply merge_sort_Permutation. Qed.

Lemma dsort_sorted l : Sorted dle (dsort l).
Proof. apply (Sorted_merge_sort dle). Qed.

Lemma dsort_size l : vsize (dsort l) = vsize l.
Proof. unfold vsize. by rewrite dsort_perm. Qed.

Lemma dsort_unsigned l : all_unsigned l → all_unsigned (dsort l).
Proof. by rewrite dsort_perm. Qed.

Lemma sorted_strongly l : all_unsigned l → Sorted dle l → StronglySorted dle l.
Proof.
  induction l as [|x l IH]; intros Hu Hs; [constructor|].
  apply Forall_cons in Hu as [Hx Hu]. apply Sorted_inv in Hs as [Hs Hd].
  specialize (IH Hu Hs). constructor; [done|].
  destruct l as [|y l]; [constructor|]. apply HdRel_inv in Hd.
  apply Forall_cons in Hu as [Hy Hu]. apply StronglySorted_inv in IH as [_ Hall].
  constructor; [done|]. rewrite Forall_forall in Hall, Hu. apply Forall_forall.
  intros z Hz. apply (dle_trans x y z); auto.
Qed.

Lemma strongly_lookup l : ∀ i j x y,
  StronglySorted dle l → l !! i = Some x → l !! j = Some y → (i ≤ j)%nat → dle x y.
Proof.
  induction l as [|a l IH]; intros i j x y Hs Hi Hj Hij; [done|].
  apply StronglySorted_inv in Hs as [Hs Hall]. rewrite Forall_forall in Hall.
  destruct i as [|i], j as [|j]; simplify_eq/=; [apply dle_refl| |lia|].
  - by eapply Hall, list_elem_of_lookup_2.
  - eapply (IH i j); eauto. lia.
Qed.

(** The result of [std::sort] does not depend on its algorithm. *)
Lemma dsort_unique l l' :
  all_unsigned l → l' ≡ₚ l → Sorted dle l' → l' = dsort l.
Proof.
  intros Hu Hp Hs.
  assert (all_unsigned l') as Hu' by (by rewrite Hp).
  assert (l' ≡ₚ dsort l) as Hpp by (by rewrite dsort_perm).
  pose proof (sorted_strongly _ Hu' Hs) as H1.
  pose proof (sorted_strongly _ (dsort_unsigned l Hu) (dsort_sorted l)) as H2.
  pose proof (dsort_unsigned l Hu) as Hu2. clear Hu Hp Hs.
  revert H2 Hpp Hu2. generalize (dsort l) as k. revert H1 Hu'.
  induction l' as [|x l' IH]; intros H1 Hu k H2 Hp Hk.
  { by apply Permutation_nil_l in Hp as ->. }
  destruct k as [|y k]; [by apply Permutation_nil_r in Hp|].
  apply StronglySorted_inv in H1 as [H1 Hx]. apply StronglySorted_inv in H2 as [H2 Hy].
  apply Forall_cons in Hu as [Hux Hu]. apply Forall_cons in Hk as [Huy Hk].
  rewrite Forall_forall in Hx, Hy.
  assert (x = y) as ->.
  { assert (x ∈ y :: k) as [->|Hin]%elem_of_cons by (rewrite <- Hp; left); [done|].
    assert (y ∈ x :: l') as [->|Hin']%elem_of_cons by (rewrite Hp; left); [done|].
    apply dle_antisym; auto. }
  f_equal. apply IH; try done. by apply Permutation_cons_inv in Hp.
Qed.

Lemma quantile_index n k :
  (k < 100)%N → (0 < n)%N → (n * 100 < pow64)%N → (wrap64 (n * k) / 100 < n)%N.
Proof.
  intros Hk Hn Hfit. rewrite wrap64_small by nia. apply N.Div0.div_lt_upper_bound. nia.
Qed.

Lemma count_all (P : double → Prop) `{∀ x, Decision (P x)} l :
  Forall P l → length (filter P l) = length l.
Proof. induction 1; [done|]. rewrite filter_cons_True by done. simpl. by f_equal. Qed.

Lemma count_prefix (P : double → Prop) `{∀ x, Decision (P x)} l n :
  (n ≤ length l)%nat → (∀ i x, (i < n)%nat → l !! i = Some x → P x) →
  (n ≤ length (filter P l))%nat.
Proof.
  intros Hn HP. rewrite <- (take_drop n l), filter_app, length_app.
  rewrite (count_all P (take n l)), length_take; [lia|]. apply Forall_forall.
  intros x (i & Hi)%list_elem_of_lookup. apply lookup_take_Some in Hi as [Hi Hlt]. eauto.
Qed.

Lemma count_suffix (P : double → Prop) `{∀ x, Decision (P x)} l n :
  (n ≤ length l)%nat → (∀ i x, (n ≤ i)%nat → l !! i = Some x → P x) →
  (length l - n ≤ length (filter P l))%nat.
Proof.
  intros Hn HP. rewrite <- (take_drop n l) at 2. rewrite filter_app, length_app.
  rewrite (count_all P (drop n l)), length_drop; [lia|]. apply Forall_forall.
  intros x (i & Hi)%list_elem_of_lookup. rewrite lookup_drop in Hi.
  apply (HP (n + i)%nat); [lia|done].
Qed.

Lemma count_perm (P : double → Prop) `{∀ x, Decision (P x)} l l' :
  l ≡ₚ l' → length (filter P l) = length (filter P l').
Proof. intros Hp. by rewrite Hp. Qed.

(** A quantile of a sample is one of its values; at least [n k / 100 + 1] values are
    not above it and the rest is not below it. *)
Lemma quantile_spec l k :
  l ≠ [] → all_unsigned l → (k < 100)%N → (vsize l * 100 < pow64)%N →
  ∃ q, quantile k (dsort l) = Some q ∧ q ∈ l ∧
    let i := N.to_nat (vsize l * k / 100) in
    (i + 1 ≤ length (filter (λ x, dle x q) l))%nat ∧
    (length l - i ≤ length (filter (λ x, dle q x) l))%nat.
Proof.
  intros Hne Hu Hk Hfit. unfold quantile. rewrite dsort_size.
  assert (0 < vsize l)%N as Hpos by (destruct l; [done|unfold vsize; simpl; lia]).
  pose proof (quantile_index (vsize l) k Hk Hpos Hfit) as Hi.
  rewrite wrap64_small in * by nia. set (i := (vsize l * k / 100)%N) in *.
  destruct (vat_lt_is_Some (dsort l) i) as [q Hq]; [by rewrite dsort_size|].
  exists q. split; [done|]. unfold vat in Hq.
  pose proof (sorted_strongly _ (dsort_unsigned l Hu) (dsort_sorted l)) as Hss.
  assert (length (dsort l) = length l) as Hlen by (by rewrite dsort_perm).
  assert (N.to_nat i < length l)%nat as Hil by (unfold vsize in *; lia).
  split; [rewrite <- (dsort_perm l); by eapply list_elem_of_lookup_2|]. cbv zeta.
  rewrite <- (count_perm (λ x, dle x q) _ _ (dsort_perm l)).
  rewrite <- (count_perm (λ x, dle q x) _ _ (dsort_perm l)). rewrite <- Hlen. split.
  - apply count_prefix; [lia|]. intros j x Hj Hx.
    apply (strongly_lookup _ j (N.to_nat i) x q Hss Hx Hq). lia.
  - apply count_suffix; [lia|]. intros j x Hj Hx.
    by apply (strongly_lookup _ (N.to_nat i) j q x Hss Hq Hx).
Qed.

Lemma quantile_mono l k k' q q' :
  all_unsigned l → (k ≤ k')%N → (vsize l * k' < pow64)%N →
  quantile k (dsort l) = Some q → quantile k' (dsort l) = Some q' → dle q q'.
Proof.
  intros Hu Hk Hfit. unfold quantile, vat. rewrite dsort_size, !wrap64_small by nia.
  intros Hq Hq'. pose proof (sorted_strongly _ (dsort_unsigned l Hu) (dsort_sorted l)) as Hss.
  apply (strongly_lookup _ _ _ q q' Hss Hq Hq').
  assert (vsize l * k / 100 ≤ vsize l * k' / 100)%N by (apply N.Div0.div_le_mono; nia). lia.
Qed.

Lemma dsum_unsigned l : all_unsigned l → unsigned (dsum l) = true.
Proof.
  unfold dsum. assert (unsigned (of_int 0) = true) as H0 by done. revert H0.
  generalize (of_int 0) as acc. induction l as [|x l IH]; intros acc Ha Hu; [done|].
  apply Forall_cons in Hu as [Hx Hu]. simpl. apply IH; [by apply dadd_unsigned|done].
Qed.

(** ** Printing with a fixed number of decimals *)

(** The nearest integer to [m * 2^e * 10^p], ties to even. *)
Definition scaled (p : nat) (m : positive) (e : Z) : Z :=
  let n := Zpos m * 10 ^ Z.of_nat p in
  if 0 <=? e then n * 2 ^ e
  else
    let d := 2 ^ (- e) in
    let q := n / d in
    match 2 * (n mod d) ?= d with
    | Lt => q
    | Gt => q + 1
    | Eq => if Z.even q then q else q + 1
    end.

(** Fill to the left up to a width. *)
Definition pad (c : Ascii.ascii) (width : nat) (s : string) : string :=
  (String.concat EmptyString (replicate (width - String.length s) (String.String c EmptyString))
     +:+ s)%string.

(** The digits of [q * 10^-p]. *)
Definition decimal (p : nat) (q : Z) : string :=
  let digits := pad "0"%char (S p) (to_string (Z.to_N q)) in
  let k := (String.length digits - p)%nat in
  match p with
  | O => digits
  | _ => (String.substring 0 k digits +:+ "." +:+ String.substring k p digits)%string
  end.

(** [%.<p>f] of [printf] and [{:.<p>f}] of [std::format]; a NaN prints without its
    sign, which [SpecFloat] does not have. *)
Definition fixed (p : nat) (d : double) : string :=
  let minus (s : bool) := if s then "-"%string else EmptyString in
  match d with
  | S754_zero s => (minus s +:+ decimal p 0)%string
  | S754_infinity s => (minus s +:+ "inf")%string
  | S754_nan => "nan"%string
  | S754_finite s m e => (minus s +:+ decimal p (scaled p m e))%string
  end.

(** The printed number is a nearest one with [p] decimals. *)
Lemma scaled_nearest p m e :
  let n := Zpos m * 10 ^ Z.of_nat p in
  if 0 <=? e then scaled p m e = n * 2 ^ e
  else 2 * Z.abs (scaled p m e * 2 ^ (- e) - n) ≤ 2 ^ (- e).
Proof.
  intros n. unfold scaled. fold n. destruct (Z.leb_spec 0 e) as [He|He]; [done|].
  assert (0 < 2 ^ (- e)) as Hd by (apply Z.pow_pos_nonneg; lia).
  generalize dependent (2 ^ (- e)). intros d Hd.
  pose proof (Z.div_mod n d ltac:(lia)) as Hdm. pose proof (Z.mod_pos_bound n d Hd) as Hm.
  generalize dependent (n / d). generalize dependent (n mod d). intros r Hr q Hq.
  destruct (Z.compare_spec (2 * r) d); [case_match|..]; nia.
Qed.

Lemma pad_length c w s : (String.length s ≤ w)%nat → String.length (pad c w s) = w.
Proof.
  intros H. unfold pad. set (k := (w - String.length s)%nat).
  assert (∀ j t, String.length
    (String.concat EmptyString (replicate j (String.String c EmptyString)) +:+ t)%string =
    (j + String.length t)%nat) as Hl.
  { induction j as [|j IH]; intros t; [done|]. destruct j as [|j]; [done|].
    exact (f_equal S (IH t)). }
  rewrite Hl. lia.
Qed.

Example fixed_half_even : fixed 2 (ddiv (of_int 125) (of_int 1000)) = "0.12"%string.
Proof. vm_compute. reflexivity. Qed.

Example fixed_row : pad " "%char 10 (fixed 2 (ddiv (of_int 1234567) (of_int 1000000))) = "      1.23"%string.
Proof. vm_compute. reflexivity. Qed.
