(* ===== verification/Bench.v ===== *)
(** The benchmarks: [app/tput.cpp] and [app/latency.cpp].

    A round of the throughput benchmark is a state machine of [main] and its client
    threads: the warm-up, the start barrier of the atomics [ready] and [go], the
    request loops and the merge of their measurements under the mutex.  A label says
    which thread moves, what [steady_clock] reads and what the random engine gives.
    A client thread runs the modelled [KvClient] against any answers of the
    replicas.  The statistics are binary64 ([Double.v]). *)
From Stdlib Require Import Ascii.
From S2P Require Import Prelude Types ConfigGen KvCodec KvServer KvClient NodeApp Double.

#[local] Open Scope Z_scope.

Definition REQUESTS_PER_CLIENT : nat := 1000.
Definition KEYSPACE_SIZE : nat := 1000.

Record RoundResult := mkRoundResult {
  client_count : Z;
  lat_avg : double;
  lat_p50 : double;
  lat_p90 : double;
  lat_p99 : double;
  throughput : double }.

(** [std::chrono::duration<double, std::milli>] and [std::chrono::duration<double>] of
    a difference in nanoseconds. *)
Definition milliseconds (ns : Z) : double := ddiv (of_int ns) (of_int 1000000).
Definition seconds (ns : Z) : double := ddiv (of_int ns) (of_int 1000000000).

(** ** The keyspace *)

Definition bench_key (i : N) : string := ("key_" +:+ to_string i)%string.

Definition keyspace : list string := (λ i, bench_key (N.of_nat i)) <$> seq 1 KEYSPACE_SIZE.

Section populate.
(** [rpc op attempt stub request] is the answer to an attempt of the [op]-th operation. *)
Context (rpc : nat → nat → N → command_fields → option (KvStatus * string)).

Fixpoint put_all (op : nat) (keys : list string) (c : KvClient) : option (list outcome) :=
  match keys with
  | [] => Some []
  | key :: keys =>
      o ← put (rpc op) key "init" c;
      os ← put_all (S op) keys (final o);
      Some (o :: os)
  end.

Definition populate_keyspace (c : KvClient) : option (list outcome) := put_all 0 keyspace c.
End populate.

(** ** Client threads *)

(** A request as the thread measured it. *)
Record request := mkRequest {
  rq_key : string;
  rq_put : bool;
  rq_t0 : Z;
  rq_t1 : Z }.

Inductive client_pc :=
| Warmup
| Signal
| Spin
| Loop
| Calling (key : string) (do_put : bool) (t0 : Z)
| Timing (key : string) (do_put : bool) (t0 : Z)
| Merge
| Finished.

(** [ct_log] is a history of what [local_lats] was computed from, [ct_ops] counts the
    operations. *)
Record client_thread := mkThread {
  ct_pc : client_pc;
  ct_client : KvClient;
  ct_ops : nat;
  local_lats : list double;
  ct_log : list request }.

(** What a step of a thread does to the shared state: [ready.fetch_add] and the
    insertion into [all_latencies]. *)
Record effect := mkEffect { ef_ready : Z; ef_merge : list double }.

Definition silent : effect := mkEffect 0 [].

Definition at_pc (pc : client_pc) (t : client_thread) : client_thread :=
  mkThread pc (ct_client t) (ct_ops t) (local_lats t) (ct_log t).

Definition after_op (pc : client_pc) (c : KvClient) (t : client_thread) : client_thread :=
  mkThread pc c (S (ct_ops t)) (local_lats t) (ct_log t).

Section round.
Context (num_clients : nat) (put_ratio : Z).
Context (rpc : nat → nat → nat → N → command_fields → option (KvStatus * string)).

Definition client_step (c : nat) (go : bool) (now : Z) (key_raw op_raw : N) (t : client_thread)
    : option (client_thread * effect) :=
  match ct_pc t with
  | Warmup =>
      o ← put (rpc c (ct_ops t)) ("warmup_" +:+ to_string (N.of_nat c))%string "v" (ct_client t);
      Some (after_op Signal (final o) t, silent)
  | Signal => Some (at_pc Spin t, mkEffect 1 [])
  | Spin => Some (if go then at_pc Loop t else t, silent)
  | Loop =>
      if (length (local_lats t) <? REQUESTS_PER_CLIENT)%nat then
        let key := bench_key (uniform_int 1 (N.of_nat KEYSPACE_SIZE) key_raw) in
        let do_put := Z.of_N (uniform_int 1 100 op_raw) <=? put_ratio in
        Some (at_pc (Calling key do_put now) t, silent)
      else Some (at_pc Merge t, silent)
  | Calling key do_put t0 =>
      o ← (if do_put then put (rpc c (ct_ops t)) key "v" (ct_client t)
           else get (rpc c (ct_ops t)) key (ct_client t));
      Some (after_op (Timing key do_put t0) (final o) t, silent)
  | Timing key do_put t0 =>
      Some (mkThread Loop (ct_client t) (ct_ops t)
              (local_lats t ++ [milliseconds (now - t0)])
              (ct_log t ++ [mkRequest key do_put t0 now]), silent)
  | Merge => Some (at_pc Finished t, mkEffect 0 (local_lats t))
  | Finished => Some (t, silent)
  end.

(** ** A round *)

Inductive main_pc :=
| Spawning
| Waiting
| Starting
| Joining (k : nat)
| Measured.

(** [clock] is the last reading of the steady clock; [wall_start] and [wall_end] are
    the local variables of [run_round]. *)
Record round_state := mkRound {
  rs_main : main_pc;
  rs_ready : Z;
  rs_go : bool;
  rs_threads : list client_thread;
  all_latencies : list double;
  wall_start : Z;
  wall_end : Z;
  clock : Z }.

Definition round_init (clock0 : Z) : round_state :=
  mkRound Spawning 0 false [] [] 0 0 clock0.

Inductive label :=
| LMain (now : Z)
| LClient (c : nat) (now : Z) (key_raw op_raw : N).

(** The clock never goes back. *)
Definition reading (now : Z) (s : round_state) : Z := Z.max (clock s) now.

(** A new thread: its [KvClient] draws [id]. *)
Definition new_thread (kv_addrs : list string) (id : N) : client_thread :=
  mkThread Warmup (KvClient_init kv_addrs id) 0 [] [].

Context (kv_addrs : list string) (ids : nat → N).

Definition main_step (now : Z) (s : round_state) : round_state :=
  let '(mkRound m ready go ts lats ws we _) := s in
  match m with
  | Spawning =>
      if (length ts <? num_clients)%nat
      then mkRound Spawning ready go (ts ++ [new_thread kv_addrs (ids (length ts))]) lats ws we now
      else mkRound Waiting ready go ts lats ws we now
  | Waiting =>
      if ready <? Z.of_nat num_clients then mkRound Waiting ready go ts lats ws we now
      else mkRound Starting ready go ts lats now we now
  | Starting => mkRound (Joining 0) ready true ts lats ws we now
  | Joining k =>
      match ts !! k with
      | Some t => mkRound (match ct_pc t with Finished => Joining (S k) | _ => Joining k end)
                    ready go ts lats ws we now
      | None => mkRound Measured ready go ts lats ws now now
      end
  | Measured => mkRound Measured ready go ts lats ws we now
  end.

Definition round_step (l : label) (s : round_state) : option round_state :=
  match l with
  | LMain now => Some (main_step (reading now s) s)
  | LClient c now key_raw op_raw =>
      let now := reading now s in
      match rs_threads s !! c with
      | Some t =>
          '(t', e) ← client_step c (rs_go s) now key_raw op_raw t;
          Some (mkRound (rs_main s) (rs_ready s + ef_ready e) (rs_go s) (<[c := t']> (rs_threads s))
                  (all_latencies s ++ ef_merge e) (wall_start s) (wall_end s) now)
      | None => Some s
      end
  end.

Fixpoint round_steps (ls : list label) (s : round_state) : option round_state :=
  match ls with
  | [] => Some s
  | l :: ls => s' ← round_step l s; round_steps ls s'
  end.
End round.

(** ** Statistics of a round *)

Definition INT_MAX : Z := 2147483647.

(** [None] is undefined behaviour: a read past the end of the vector, or the overflow of
    the [int] product. *)
Definition round_stats (num_clients : Z) (all_latencies : list double) (wall_ns : Z)
    : option RoundResult :=
  let wall_s := seconds wall_ns in
  let sorted := dsort all_latencies in
  let n := vsize sorted in
  let avg := ddiv (dsum sorted) (of_int (Z.of_N n)) in
  p50 ← quantile 50 sorted;
  p90 ← quantile 90 sorted;
  p99 ← quantile 99 sorted;
  let ops := num_clients * Z.of_nat REQUESTS_PER_CLIENT in
  if INT_MAX <? ops then None
  else Some (mkRoundResult num_clients avg p50 p90 p99 (ddiv (of_int ops) wall_s)).

(** The return value of [run_round] once the threads are joined. *)
Definition round_result (num_clients : nat) (s : round_state) : option RoundResult :=
  round_stats (Z.of_nat num_clients) (all_latencies s) (wall_end s - wall_start s).

(** The seed of a client's engine, from an output of the random device. *)
Definition client_seed (rd : N) (c : N) : N :=
  N.lxor rd (wrap32 (wrap64 (c * 6364136223846793005))).

(** ** The rounds of [main] *)

(** [for (int n = 1; n <= max_clients; n *= 2)]; [None] is the overflow of [n]. *)
Fixpoint rounds_from (fuel : nat) (n max_clients : Z) : option (list Z) :=
  match fuel with
  | O => None
  | S fuel =>
      if n <=? max_clients then
        if INT_MAX <? n * 2 then None
        else ns ← rounds_from fuel (n * 2) max_clients; Some (n :: ns)
      else Some []
  end.

Definition rounds (max_clients : Z) : option (list Z) := rounds_from 32 1 max_clients.

(** ** The command line and the report *)

Definition newline : string := String.String "010"%char EmptyString.

Definition header : list string :=
  [ "##################################################################################";
    "# clientCount      latAvg       latP50       latP90       latP99        throughput";
    "#                    (ms)         (ms)         (ms)         (ms)         (ops/sec)";
    "----------------------------------------------------------------------------------" ]%string.

(** A row, as [std::format] and [printf] write it. *)
Definition row (r : RoundResult) : string :=
  (pad " "%char 13 (to_string (Z.to_N (client_count r))) +:+ "   " +:+
   pad " "%char 10 (fixed 2 (lat_avg r)) +:+ "   " +:+
   pad " "%char 10 (fixed 2 (lat_p50 r)) +:+ "   " +:+
   pad " "%char 10 (fixed 2 (lat_p90 r)) +:+ "   " +:+
   pad " "%char 10 (fixed 2 (lat_p99 r)) +:+ "   " +:+
   pad " "%char 12 (fixed 0 (throughput r)))%string.

Definition report (results : list RoundResult) : string :=
  String.concat EmptyString ((λ l, l +:+ newline)%string <$> (header ++ (row <$> results))).

Definition result_file (num_nodes : Z) : string :=
  if num_nodes =? 5 then "result_5rep.txt" else "result.txt".

(** The addresses that [create_cluster] fills in. *)
Definition kv_addresses (l : layout) : list string :=
  (λ p, "localhost:" +:+ to_string p)%string <$> lay_kv_ports l.

Inductive tput_outcome :=
| BadUsage
| BadPutRatio
| BadNumNodes
| Thrown
| UndefinedBehaviour
| Written (file contents echo : string).

Section main.
(** [std::stoi], which throws on what is not an [int]; and what a round came to, by its
    index, number of clients, share of puts and addresses. *)
Context (stoi : string → option Z).
Context (run_round : N → Z → Z → list string → option RoundResult).

Definition run_rounds (put_ratio num_nodes : Z) (ns : list Z) : option (list RoundResult) :=
  mapM (λ p, run_round p.1 p.2 put_ratio (kv_addresses (create_cluster p.1 (Z.to_N num_nodes)).1))
    (imap (λ i n, (N.of_nat i, n)) ns).

(** [argv] without the name of the program. *)
Definition tput_main (args : list string) : tput_outcome :=
  match args with
  | a1 :: a2 :: rest =>
      match stoi a1, stoi a2, match rest with [] => Some 3 | a3 :: _ => stoi a3 end with
      | Some max_clients, Some put_ratio, Some num_nodes =>
          if (put_ratio <? 0) || (100 <? put_ratio) then BadPutRatio
          else if num_nodes <? 1 then BadNumNodes
          else match ns ← rounds max_clients; run_rounds put_ratio num_nodes ns with
               | Some results => Written (result_file num_nodes) (report results) (report results)
               | None => UndefinedBehaviour
               end
      | _, _, _ => Thrown
      end
  | _ => BadUsage
  end.
End main.

(** ** The latency benchmark *)

Definition NUM_REQUESTS : nat := 1000.

Section latency.
Context (rpc : nat → nat → N → command_fields → option (KvStatus * string)).
(** The readings of the clock around the [i]-th request. *)
Context (times : nat → Z * Z).

Fixpoint latency_loop (i n : nat) (c : KvClient) : option (list double) :=
  match n with
  | O => Some []
  | S n =>
      o ← put (rpc i) "bench_key" "bench_value" c;
      lats ← latency_loop (S i) n (final o);
      Some (milliseconds ((times i).2 - (times i).1) :: lats)
  end.

(** Average, median and 99th percentile of [main]. *)
Definition latency_main (id : N) : option (double * double * double) :=
  latencies ← latency_loop 0 NUM_REQUESTS (KvClient_init (kv_addresses latency_layout) id);
  let sorted := dsort latencies in
  let avg := ddiv (dsum sorted) (of_int (Z.of_N (vsize sorted))) in
  p50 ← quantile 50 sorted;
  p99 ← quantile 99 sorted;
  Some (avg, p50, p99).

Definition latency_report (r : double * double * double) : list string :=
  [ "######################################";
    "#      latAvg       latP50      latP99";
    "#        (ms)         (ms)        (ms)";
    "--------------------------------------";
    "  " +:+ pad " "%char 10 (fixed 2 r.1.1) +:+ "   " +:+ pad " "%char 10 (fixed 2 r.1.2) +:+
    "  " +:+ pad " "%char 10 (fixed 2 r.2) ]%string.
End latency.
