(* ===== verification/BenchProps.v ===== *)
(** What a round of the throughput benchmark measures ([Bench.v]): the invariant of
    the start barrier and the request loops on every schedule, that every round can
    be brought to its end, and what the reported numbers are. *)
From S2P Require Import Prelude ConfigGen KvCodec KvServer KvClient NodeApp Double Bench.

#[local] Open Scope Z_scope.

#[export] Instance main_pc_eq_dec : EqDecision main_pc.
Proof. solve_decision. Defined.

#[export] Instance client_pc_eq_dec : EqDecision client_pc.
Proof. solve_decision. Defined.

(** ** Measurements *)

Lemma milliseconds_unsigned ns : 0 ≤ ns → unsigned (milliseconds ns) = true.
Proof.
  intros H. unfold milliseconds. replace (of_int 1000000) with
    (SpecFloat.S754_finite false 8589934592000000 (-33)) by (by vm_compute).
  by apply ddiv_unsigned, of_int_unsigned.
Qed.

(** The keys of the requests are those of the keyspace. *)
Lemma drawn_key_in_keyspace raw :
  bench_key (uniform_int 1 (N.of_nat KEYSPACE_SIZE) raw) ∈ keyspace.
Proof.
  assert (1 ≤ N.of_nat KEYSPACE_SIZE)%N as H1 by (unfold KEYSPACE_SIZE; lia).
  pose proof (uniform_int_range 1 (N.of_nat KEYSPACE_SIZE) raw H1) as H.
  unfold keyspace. apply list_elem_of_fmap.
  exists (N.to_nat (uniform_int 1 (N.of_nat KEYSPACE_SIZE) raw)).
  rewrite N2Nat.id. split; [done|]. apply elem_of_seq. lia.
Qed.

(** ** Lists of threads *)

Lemma lookup_middle {A} (l : list A) c t :
  l !! c = Some t → ∃ l1 l2, l = l1 ++ t :: l2 ∧ length l1 = c ∧ ∀ t', <[c := t']> l = l1 ++ t' :: l2.
Proof.
  intros H. exists (take c l), (drop (S c) l). split_and!.
  - by rewrite take_drop_middle.
  - rewrite length_take. apply lookup_lt_Some in H. lia.
  - intros t'. apply insert_take_drop. by eapply lookup_lt_Some.
Qed.

Definition total (f : client_thread → Z) (ts : list client_thread) : Z :=
  foldr (λ t n, f t + n) 0 ts.

Lemma total_app f l1 l2 : total f (l1 ++ l2) = total f l1 + total f l2.
Proof. induction l1; simpl; lia. Qed.

Lemma total_insert f ts c t t' :
  ts !! c = Some t → total f (<[c := t']> ts) = total f ts + f t' - f t.
Proof.
  intros (l1 & l2 & -> & _ & Hi)%lookup_middle. rewrite Hi, !total_app. simpl. lia.
Qed.

Lemma total_le f g ts : (∀ t, f t ≤ g t) → total f ts ≤ total g ts.
Proof. intros H. induction ts as [|t ts IH]; simpl; [lia|]. specialize (H t). lia. Qed.

(** ** The invariant *)

Record timed (ws now : Z) (r : request) : Prop := {
  td_start : ws ≤ rq_t0 r;
  td_order : rq_t0 r ≤ rq_t1 r;
  td_end : rq_t1 r ≤ now;
  td_key : rq_key r ∈ keyspace }.

Definition measured (r : request) : double := milliseconds (rq_t1 r - rq_t0 r).

(** Where a thread is and what it has done, given that [go] is set or not. *)
Definition phase_ok (go : bool) (ws now : Z) (t : client_thread) : Prop :=
  match ct_pc t with
  | Warmup | Signal | Spin => ct_log t = []
  | Loop => go = true
  | Calling key _ t0 | Timing key _ t0 =>
      go = true ∧ ws ≤ t0 ≤ now ∧ key ∈ keyspace ∧ (length (ct_log t) < REQUESTS_PER_CLIENT)%nat
  | Merge | Finished => go = true ∧ length (ct_log t) = REQUESTS_PER_CLIENT
  end.

Record thread_ok (go : bool) (ws now : Z) (t : client_thread) : Prop := {
  to_client : (leader_idx_ (ct_client t) < stubs_size (ct_client t))%N;
  to_lats : local_lats t = measured <$> ct_log t;
  to_log : Forall (timed ws now) (ct_log t);
  to_size : (length (ct_log t) ≤ REQUESTS_PER_CLIENT)%nat;
  to_phase : phase_ok go ws now t }.

Definition signalled (t : client_thread) : Z :=
  match ct_pc t with Warmup | Signal => 0 | _ => 1 end.

Definition merged (t : client_thread) : list double :=
  match ct_pc t with Finished => local_lats t | _ => [] end.

Lemma timed_later ws now now' r : now ≤ now' → timed ws now r → timed ws now' r.
Proof. intros ? []. split; [done..|lia|done]. Qed.

Lemma thread_later go ws now now' t : now ≤ now' → thread_ok go ws now t → thread_ok go ws now' t.
Proof.
  intros Hle [? ? ? ? Hp]. split; try done.
  - eapply Forall_impl; [done|]. by intros; eapply timed_later.
  - unfold phase_ok in *. case_match; naive_solver lia.
Qed.

(** Before the start no thread has made a timed request. *)
Lemma thread_before ws ws' now t : thread_ok false ws now t → thread_ok false ws' now t.
Proof.
  intros [? ? ? ? Hp]. unfold phase_ok in Hp.
  assert (ct_log t = [] ∧ match ct_pc t with Warmup | Signal | Spin => True | _ => False end)
    as [Hl Hpc] by (case_match; naive_solver).
  split; try done; [by rewrite Hl|]. unfold phase_ok. by case_match.
Qed.

Lemma thread_started ws now t : thread_ok false ws now t → thread_ok true ws now t.
Proof. intros [? ? ? ? Hp]. split; try done. unfold phase_ok in *. case_match; naive_solver. Qed.

Section props.
Context (num_clients : nat) (put_ratio : Z).
Context (rpc : nat → nat → nat → N → command_fields → option (KvStatus * string)).

Abbreviation client_step := (client_step put_ratio rpc).

(** A step of a thread: it is never stuck, keeps its invariant, and changes the shared
    state by what it signals and merges. *)
Lemma client_step_ok c go ws now now' key_raw op_raw t :
  thread_ok go ws now t → now ≤ now' → (go = true → ws ≤ now') →
  ∃ t' e, client_step c go now' key_raw op_raw t = Some (t', e) ∧
    thread_ok go ws now' t' ∧ 0 ≤ ef_ready e ∧ signalled t' = signalled t + ef_ready e ∧
    merged t' = merged t ++ ef_merge e ∧ (ct_pc t = Finished → t' = t).
Proof.
  intros Hok Hle Hgo. pose proof (thread_later _ _ _ _ _ Hle Hok) as [Hc Hl Hlog Hsz Hp].
  destruct t as [pc cl ops lats log]. unfold phase_ok in Hp. simpl in *.
  unfold Bench.client_step, put, get, signalled, merged. simpl.
  destruct pc as [| | | |key do_put t0|key do_put t0| |].
  - edestruct operate_returns as (o & -> & Hi & _); [exact Hc|].
    eexists _, _. split_and!; [done|by split|done..].
  - eexists _, _. split_and!; [done|by split|done..].
  - eexists _, _. split_and!; [done|by destruct go; split|done|by destruct go|by destruct go|done].
  - case_match eqn:Hlt.
    + apply Nat.ltb_lt in Hlt. rewrite Hl, length_fmap in Hlt. eexists _, _.
      split_and!; [done| |done..]. split; try done. unfold phase_ok. simpl.
      split_and!; [done|by apply Hgo|done|apply drawn_key_in_keyspace|done].
    + apply Nat.ltb_ge in Hlt. rewrite Hl, length_fmap in Hlt. eexists _, _.
      split_and!; [done| |done..]. split; try done. unfold phase_ok. simpl. split; [done|lia].
  - assert (∃ o, (if do_put then operate (rpc c ops) PUT key "v" cl
                  else operate (rpc c ops) GET key "" cl) = Some o ∧
      (leader_idx_ (final o) < stubs_size (final o))%N) as (o & -> & Hi).
    { destruct do_put; edestruct operate_returns as (o & -> & Hi & _); try exact Hc; eauto. }
    eexists _, _. split_and!; [done|by split|done..].
  - destruct Hp as (Hg & Ht & Hk & Hlt). eexists _, _. split_and!; [done| |done..]. split; simpl.
    + done.
    + by rewrite Hl, fmap_app.
    + apply Forall_app. split; [done|]. constructor; [|constructor]. by split; simpl; try lia.
    + rewrite length_app. simpl. lia.
    + done.
  - eexists _, _. split_and!; [done|by split|done..].
  - eexists _, _. split_and!; [done|by split|done|done| |done]. simpl. by rewrite app_nil_r.
Qed.

(** What [main] knows. *)
Definition main_ok (s : round_state) : Prop :=
  let ts := rs_threads s in
  match rs_main s with
  | Spawning => (length ts ≤ num_clients)%nat ∧ rs_go s = false
  | Waiting => length ts = num_clients ∧ rs_go s = false
  | Starting => length ts = num_clients ∧ rs_go s = false ∧
      rs_ready s = Z.of_nat num_clients ∧ wall_start s ≤ clock s
  | Joining k => length ts = num_clients ∧ rs_go s = true ∧
      rs_ready s = Z.of_nat num_clients ∧ wall_start s ≤ clock s ∧
      ∀ i t, (i < k)%nat → ts !! i = Some t → ct_pc t = Finished
  | Measured => length ts = num_clients ∧ rs_go s = true ∧
      rs_ready s = Z.of_nat num_clients ∧ wall_start s ≤ clock s ∧
      wall_start s ≤ wall_end s ∧
      ∀ i t, ts !! i = Some t → ct_pc t = Finished ∧ thread_ok true (wall_start s) (wall_end s) t
  end.

Record round_ok (s : round_state) : Prop := {
  ro_threads : Forall (thread_ok (rs_go s) (wall_start s) (clock s)) (rs_threads s);
  ro_ready : rs_ready s = total signalled (rs_threads s);
  ro_lats : all_latencies s ≡ₚ concat (merged <$> rs_threads s);
  ro_main : main_ok s }.

Lemma total_signalled_le ts : total signalled ts ≤ Z.of_nat (length ts).
Proof.
  induction ts as [|t ts IH]; simpl; [lia|].
  assert (signalled t ≤ 1) by (unfold signalled; case_match; lia). lia.
Qed.

(** Once everybody has signalled, nobody is before the barrier. *)
Lemma all_signalled ts :
  total signalled ts = Z.of_nat (length ts) → Forall (λ t, signalled t = 1) ts.
Proof.
  induction ts as [|t ts IH]; simpl; [constructor|]. intros H.
  pose proof (total_signalled_le ts). assert (0 ≤ signalled t ≤ 1) by (unfold signalled; case_match; lia).
  constructor; [lia|]. apply IH. lia.
Qed.

Context (kv_addrs : list string) (ids : nat → N).

Abbreviation main_step := (main_step num_clients kv_addrs ids).
Abbreviation round_step := (round_step num_clients put_ratio rpc kv_addrs ids).
Abbreviation round_steps := (round_steps num_clients put_ratio rpc kv_addrs ids).

Lemma round_init_ok clock0 : round_ok (round_init clock0).
Proof. split; simpl; [constructor|done|done|]. unfold main_ok. simpl. split; [lia|done]. Qed.

Lemma main_step_ok now s :
  kv_addrs ≠ [] → clock s ≤ now → round_ok s → round_ok (main_step now s).
Proof.
  intros Hne Hle [Hts Hr Hl Hm]. destruct s as [m ready go ts lats ws we clk].
  unfold main_ok in Hm. simpl in *.
  assert (∀ go, Forall (thread_ok go ws clk) ts → Forall (thread_ok go ws now) ts) as Hlater.
  { intros g Hg. eapply Forall_impl; [exact Hg|]. intros t. by apply thread_later. }
  destruct m as [| | |k|].
  - destruct Hm as [Hlen ->]. case_match eqn:Hlt; split; simpl; try done; auto.
    + apply Forall_app. split; [auto|]. constructor; [|constructor]. split; simpl; try done; [|lia].
      unfold vsize. destruct kv_addrs; [done|simpl; lia].
    + rewrite total_app. unfold signalled at 2. simpl. lia.
    + rewrite fmap_app, concat_app. unfold merged at 2. simpl. by rewrite app_nil_r.
    + unfold main_ok. simpl. rewrite length_app. simpl. apply Nat.ltb_lt in Hlt. split; [lia|done].
    + unfold main_ok. simpl. apply Nat.ltb_ge in Hlt. split; [lia|done].
  - destruct Hm as [Hlen ->]. case_match eqn:Hlt; split; simpl; try done; auto.
    + eapply Forall_impl; [by apply Hlater|]. intros t. apply thread_before.
    + unfold main_ok. simpl. apply Z.ltb_ge in Hlt. pose proof (total_signalled_le ts).
      split_and!; [done..|lia|lia].
  - destruct Hm as (Hlen & -> & Hrn & Hws). split; simpl; try done.
    + eapply Forall_impl; [by apply Hlater|]. intros t. apply thread_started.
    + unfold main_ok. simpl. split_and!; [done..|lia|]. intros; lia.
  - destruct Hm as (Hlen & -> & Hrn & Hws & Hfin). destruct (ts !! k) as [t|] eqn:Hk.
    + split; simpl; try done; auto. unfold main_ok. simpl.
      destruct (ct_pc t) eqn:Hpc; split_and!; auto; try lia.
      intros i u Hi Hu. destruct (decide (i = k)) as [->|]; [by simplify_eq|].
      apply (Hfin i u); [lia|done].
    + split; simpl; try done; auto. unfold main_ok. simpl. split_and!; try done; try lia.
      intros i t Hi. apply lookup_ge_None in Hk. pose proof (lookup_lt_Some _ _ _ Hi).
      split; [apply (Hfin i); [lia|done]|]. by eapply Forall_lookup_1; [apply Hlater|].
  - destruct Hm as (Hlen & -> & Hrn & Hws & Hwe & Hfin). split; simpl; try done; auto.
    unfold main_ok. simpl. split_and!; try done. lia.
Qed.

Lemma merged_insert ts c t t' e :
  ts !! c = Some t → merged t' = merged t ++ e →
  concat (merged <$> <[c := t']> ts) ≡ₚ concat (merged <$> ts) ++ e.
Proof.
  intros (l1 & l2 & -> & _ & Hi)%lookup_middle Hm. rewrite Hi, !fmap_app, !concat_app. simpl.
  rewrite Hm. solve_Permutation.
Qed.

(** What [main] knows stays true when a thread moves. *)
Lemma main_ok_client s c t t' r l now :
  main_ok s → rs_threads s !! c = Some t → clock s ≤ now →
  (ct_pc t = Finished → t' = t) → (rs_ready s = Z.of_nat num_clients → r = 0) →
  main_ok (mkRound (rs_main s) (rs_ready s + r) (rs_go s) (<[c := t']> (rs_threads s))
             l (wall_start s) (wall_end s) now).
Proof.
  intros Hm Ht Hle Hfin Hr. unfold main_ok in *. simpl. rewrite length_insert.
  destruct (rs_main s); try done.
  - destruct Hm as (? & ? & Hn & ?). rewrite (Hr Hn). split_and!; try done; lia.
  - destruct Hm as (? & ? & Hn & ? & Hf). rewrite (Hr Hn). split_and!; try done; try lia.
    intros i u Hi Hu. apply list_lookup_insert_Some in Hu as [(<- & -> & _)|[_ Hu]]; [|eauto].
    rewrite Hfin; eauto.
  - destruct Hm as (? & ? & Hn & ? & ? & Hf). rewrite (Hr Hn). split_and!; try done; try lia.
    intros i u Hu. apply list_lookup_insert_Some in Hu as [(<- & -> & _)|[_ Hu]]; [|eauto].
    rewrite Hfin; eauto. apply (Hf c t Ht).
Qed.

Lemma started_clock s : main_ok s → rs_go s = true → wall_start s ≤ clock s.
Proof. unfold main_ok. destruct (rs_main s); intros Hm Hg; destruct_and? Hm; congruence. Qed.

Lemma round_step_ok l s :
  kv_addrs ≠ [] → round_ok s → ∃ s', round_step l s = Some s' ∧ round_ok s'.
Proof.
  intros Hne Hok. destruct l as [now|c now key_raw op_raw]; simpl.
  { eexists. split; [done|]. apply main_step_ok; [done|unfold reading; lia|done]. }
  destruct Hok as [Hts Hr Hl Hm]. destruct (rs_threads s !! c) as [t|] eqn:Ht; [|by exists s].
  assert (clock s ≤ reading now s) as Hle by (unfold reading; lia).
  destruct (client_step_ok c (rs_go s) (wall_start s) (clock s) (reading now s) key_raw op_raw t)
    as (t' & e & -> & Hok' & Hef & Hsig & Hmrg & Hfin); [by eapply Forall_lookup_1|done| |].
  { intros Hg. pose proof (started_clock s Hm Hg). lia. }
  simpl. eexists. split; [done|]. split; simpl.
  - apply Forall_insert; [|done]. eapply Forall_impl; [exact Hts|]. intros u. by apply thread_later.
  - rewrite (total_insert _ _ _ _ _ Ht). lia.
  - rewrite (merged_insert _ _ _ _ _ Ht Hmrg). by apply Permutation_app_tail.
  - apply (main_ok_client s c t); try done. intros Hn.
    assert (length (rs_threads s) ≤ num_clients)%nat
      by (unfold main_ok in Hm; destruct (rs_main s); destruct Hm; lia).
    pose proof (total_signalled_le (<[c := t']> (rs_threads s))) as Hle'.
    rewrite length_insert, (total_insert _ _ _ _ _ Ht) in Hle'.
    lia.
Qed.

Lemma round_steps_ok ls : ∀ s,
  kv_addrs ≠ [] → round_ok s → ∃ s', round_steps ls s = Some s' ∧ round_ok s'.
Proof.
  induction ls as [|l ls IH]; intros s Hne Hok; [by exists s|].
  destruct (round_step_ok l s Hne Hok) as (s1 & Hs & Hok1). cbn [Bench.round_steps].
  rewrite Hs. by apply IH.
Qed.

(** ** Every round can be brought to its end *)

Definition left (t : client_thread) : Z :=
  3 * (Z.of_nat REQUESTS_PER_CLIENT - Z.of_nat (length (ct_log t))).

(** The number of moves that a thread still has to make. *)
Definition weight (t : client_thread) : Z :=
  match ct_pc t with
  | Warmup => left t + 5
  | Signal => left t + 4
  | Spin => left t + 3
  | Loop => left t + 2
  | Calling _ _ _ => left t + 1
  | Timing _ _ _ => left t
  | Merge => 1
  | Finished => 0
  end.

Definition fresh_weight : Z := 3 * Z.of_nat REQUESTS_PER_CLIENT + 6.

Definition main_weight (s : round_state) : Z :=
  let n := Z.of_nat num_clients in
  match rs_main s with
  | Spawning => Z.max 0 (n - Z.of_nat (length (rs_threads s))) * fresh_weight + n + 4
  | Waiting => n + 3
  | Starting => n + 2
  | Joining k => Z.max 0 (n - Z.of_nat k) + 1
  | Measured => 0
  end.

Definition round_weight (s : round_state) : Z := main_weight s + total weight (rs_threads s).

Lemma weight_nonneg go ws now t : thread_ok go ws now t → 0 ≤ weight t.
Proof. intros Ht. pose proof (to_size _ _ _ _ Ht). unfold weight, left. case_match; lia. Qed.

Lemma total_nonneg f ts : Forall (λ t, 0 ≤ f t) ts → 0 ≤ total f ts.
Proof. induction 1; simpl; lia. Qed.

Lemma round_weight_nonneg s : round_ok s → 0 ≤ round_weight s.
Proof.
  intros [Hts _ _ Hm]. unfold round_weight.
  assert (0 ≤ total weight (rs_threads s)).
  { apply total_nonneg. eapply Forall_impl; [exact Hts|]. apply weight_nonneg. }
  unfold main_weight, fresh_weight, main_ok in *. destruct (rs_main s); try lia. nia.
Qed.

(** A thread that does not spin in vain gets closer to its end. *)
Lemma client_progress c go ws now now' key_raw op_raw t t' e :
  thread_ok go ws now t → (ct_pc t = Spin → go = true) → ct_pc t ≠ Finished →
  client_step c go now' key_raw op_raw t = Some (t', e) → weight t' < weight t.
Proof.
  intros [_ Hl _ Hsz Hp] Hspin Hnf Hstep. unfold Bench.client_step in Hstep.
  unfold phase_ok, weight, left in *.
  destruct (ct_pc t) eqn:Hpc; try done.
  - undo_bind. simpl. lia.
  - simplify_eq/=. lia.
  - rewrite (Hspin eq_refl) in Hstep. simplify_eq/=. lia.
  - destruct (_ <? _)%nat; simplify_eq/=; lia.
  - undo_bind. simpl. lia.
  - simplify_eq/=. rewrite length_app. simpl. lia.
  - simplify_eq/=. lia.
Qed.

Lemma not_all_signalled ts :
  total signalled ts < Z.of_nat (length ts) → ∃ c t, ts !! c = Some t ∧ signalled t = 0.
Proof.
  induction ts as [|t ts IH]; simpl; [lia|]. intros H.
  destruct (decide (signalled t = 0)) as [Ht|Ht]; [by exists 0%nat, t|].
  destruct IH as (c & u & Hc & Hu); [|by exists (S c), u].
  assert (signalled t = 0 ∨ signalled t = 1) by (unfold signalled; case_match; lia). lia.
Qed.

Lemma client_moves s c t :
  round_ok s → rs_threads s !! c = Some t → (ct_pc t = Spin → rs_go s = true) →
  ct_pc t ≠ Finished → kv_addrs ≠ [] →
  ∃ l s', round_step l s = Some s' ∧ round_weight s' < round_weight s.
Proof.
  intros Hok Ht Hspin Hnf Hne. exists (LClient c (clock s) 0 0).
  destruct (round_step_ok (LClient c (clock s) 0 0) s Hne Hok) as (s' & Hs & _).
  exists s'. split; [done|]. simpl in Hs. rewrite Ht in Hs. undo_bind.
  destruct x as [t' e]. simplify_eq/=.
  pose proof (ro_threads s Hok) as Hall.
  pose proof (Forall_lookup_1 _ _ _ _ Hall Ht) as Htok.
  eapply client_progress in Htok; [|done..].
  unfold round_weight, main_weight. simpl. rewrite length_insert, (total_insert _ _ _ _ _ Ht).
  destruct (rs_main s); lia.
Qed.

Lemma main_moves s :
  (match rs_main s with
   | Waiting => Z.of_nat num_clients ≤ rs_ready s
   | Joining k => ∀ t, rs_threads s !! k = Some t → (k < num_clients)%nat ∧ ct_pc t = Finished
   | Measured => False
   | _ => True
   end) → ∃ l s', round_step l s = Some s' ∧ round_weight s' < round_weight s.
Proof.
  intros Hm. exists (LMain (clock s)). eexists. split; [reflexivity|].
  destruct s as [m ready go ts lats ws we clk]. simpl in *. unfold round_weight, main_weight.
  destruct m as [| | |k|]; simpl; [| | | |done].
  - destruct (Nat.ltb_spec (length ts) num_clients); simpl; [|unfold fresh_weight; nia].
    rewrite length_app, total_app. simpl. unfold fresh_weight, new_thread. set (w := total weight ts). unfold weight, left. simpl. nia.
  - destruct (Z.ltb_spec ready (Z.of_nat num_clients)); simpl; lia.
  - lia.
  - destruct (ts !! k) as [t|]; simpl; [|lia]. destruct (Hm t eq_refl) as [? ->]. lia.
Qed.

Lemma round_progress s :
  kv_addrs ≠ [] → round_ok s → rs_main s ≠ Measured →
  ∃ l s', round_step l s = Some s' ∧ round_ok s' ∧ round_weight s' < round_weight s.
Proof.
  intros Hne Hok Hnm.
  cut (∃ l s', round_step l s = Some s' ∧ round_weight s' < round_weight s).
  { intros (l & s' & Hs & Hw). destruct (round_step_ok l s Hne Hok) as (s1 & Hs1 & Hok1).
    simplify_eq. eauto. }
  pose proof (ro_main s Hok) as Hm. unfold main_ok in Hm.
  destruct (rs_main s) as [| | |k|] eqn:Hpc; [apply main_moves; by rewrite Hpc| | | |done].
  - destruct (Z.lt_ge_cases (rs_ready s) (Z.of_nat num_clients)) as [Hlt|Hge];
      [|apply main_moves; by rewrite Hpc].
    rewrite (ro_ready s Hok) in Hlt. destruct Hm as [Hlen _]. rewrite <- Hlen in Hlt.
    destruct (not_all_signalled _ Hlt) as (c & t & Ht & Hsig).
    apply (client_moves s c t); try done; unfold signalled in Hsig; by destruct (ct_pc t).
  - apply main_moves. by rewrite Hpc.
  - destruct Hm as (Hlen & Hgo & _). destruct (rs_threads s !! k) as [t|] eqn:Ht.
    + destruct (decide (weight t = 0 ∧ ct_pc t = Finished)) as [[_ Hf]|Hnf].
      * apply main_moves. rewrite Hpc. intros u Hu. simplify_eq. split; [|done].
        apply lookup_lt_Some in Ht. lia.
      * apply (client_moves s k t); try done. intros Hf. apply Hnf. unfold weight. by rewrite Hf.
    + apply main_moves. rewrite Hpc. intros u Hu. congruence.
Qed.

Lemma round_ends s :
  kv_addrs ≠ [] → round_ok s → ∃ ls s', round_steps ls s = Some s' ∧ rs_main s' = Measured.
Proof.
  intros Hne. remember (Z.to_nat (round_weight s)) as w eqn:Hw.
  revert s Hw. induction (lt_wf w) as [w _ IH]; intros s -> Hok.
  destruct (decide (rs_main s = Measured)) as [Hm|Hm]; [by exists [], s|].
  destruct (round_progress s Hne Hok Hm) as (l & s1 & Hs & Hok1 & Hlt).
  pose proof (round_weight_nonneg s Hok). pose proof (round_weight_nonneg s1 Hok1).
  destruct (IH (Z.to_nat (round_weight s1)) ltac:(lia) s1 eq_refl Hok1) as (ls & s2 & Hs2 & Hm2).
  exists (l :: ls), s2. split; [|done]. cbn [Bench.round_steps]. by rewrite Hs.
Qed.

Lemma merged_all ws we ts :
  (∀ i t, ts !! i = Some t → ct_pc t = Finished ∧ thread_ok true ws we t) →
  concat (merged <$> ts) = concat ((λ t, measured <$> ct_log t) <$> ts).
Proof.
  intros H. f_equal. apply list_fmap_ext. intros i t Ht. destruct (H i t Ht) as [Hf Hok].
  unfold merged. rewrite Hf. apply (to_lats _ _ _ _ Hok).
Qed.

(** The requests that a thread has begun come after the barrier. *)
Lemma begun_after_barrier s t :
  round_ok s → t ∈ rs_threads s → ct_log t ≠ [] →
  length (rs_threads s) = num_clients ∧ Forall (λ u, signalled u = 1) (rs_threads s).
Proof.
  intros [Hts Hr _ Hm] Ht Hlog. rewrite Forall_forall in Hts. specialize (Hts t Ht).
  assert (rs_go s = true) as Hgo.
  { pose proof (to_phase _ _ _ _ Hts) as Hp. unfold phase_ok in Hp. case_match; naive_solver. }
  assert (length (rs_threads s) = num_clients ∧ rs_ready s = Z.of_nat num_clients) as [Hlen Hrn].
  { unfold main_ok in Hm. destruct (rs_main s); destruct_and? Hm; split; congruence. }
  split; [done|]. apply all_signalled. congruence.
Qed.

(** C35: on every schedule of [main] and its client threads a round never runs into
    undefined behaviour; no request is timed before every client has warmed up; and
    when the threads are joined, each client has made exactly its 1000 requests, on
    populated keys and inside the wall-clock window that the throughput divides by,
    and the collected latencies are those of all these requests. *)
Theorem round_measures clock0 ls :
  kv_addrs ≠ [] →
  ∃ s, round_steps ls (round_init clock0) = Some s ∧
    (∀ t, t ∈ rs_threads s → ct_log t ≠ [] →
       length (rs_threads s) = num_clients ∧ Forall (λ u, signalled u = 1) (rs_threads s)) ∧
    (rs_main s = Measured →
       length (rs_threads s) = num_clients ∧
       (∀ t, t ∈ rs_threads s → length (ct_log t) = REQUESTS_PER_CLIENT ∧
          Forall (timed (wall_start s) (wall_end s)) (ct_log t)) ∧
       all_latencies s ≡ₚ concat ((λ t, measured <$> ct_log t) <$> rs_threads s)).
Proof.
  intros Hne. destruct (round_steps_ok ls _ Hne (round_init_ok clock0)) as (s & Hs & Hok).
  exists s. split; [done|]. split; [intros; by eapply begun_after_barrier|].
  intros Hm. pose proof (ro_main s Hok) as Hmain. unfold main_ok in Hmain. rewrite Hm in Hmain.
  destruct Hmain as (Hlen & _ & _ & _ & _ & Hfin). split_and!; [done| |].
  - intros t (i & Hi)%list_elem_of_lookup. destruct (Hfin i t Hi) as [Hf Ht]. split.
    + pose proof (to_phase _ _ _ _ Ht) as Hp. unfold phase_ok in Hp. rewrite Hf in Hp. by destruct Hp.
    + apply (to_log _ _ _ _ Ht).
  - rewrite (ro_lats s Hok). by rewrite (merged_all _ _ _ Hfin).
Qed.

(** Wherever a schedule has brought a round, the round can be finished: the start
    barrier and the joins never deadlock. *)
Lemma round_completes clock0 ls :
  kv_addrs ≠ [] →
  ∃ ls' s, round_steps (ls ++ ls') (round_init clock0) = Some s ∧ rs_main s = Measured.
Proof.
  intros Hne. destruct (round_steps_ok ls _ Hne (round_init_ok clock0)) as (s & Hs & Hok).
  destruct (round_ends s Hne Hok) as (ls' & s' & Hs' & Hm). exists ls', s'. split; [|done].
  clear Hok Hm. revert Hs. generalize (round_init clock0) as s0.
  induction ls as [|l ls IH]; intros s0 Hs; simpl in *; [by simplify_eq|].
  destruct (round_step l s0) as [s1|]; [|done]. by apply IH.
Qed.

(** ** The reported numbers *)

Lemma measured_unsigned ws we r : timed ws we r → unsigned (measured r) = true.
Proof. intros [_ H _ _]. apply milliseconds_unsigned. lia. Qed.

Lemma measured_sample s :
  round_ok s → rs_main s = Measured →
  all_unsigned (all_latencies s) ∧
  length (all_latencies s) = (num_clients * REQUESTS_PER_CLIENT)%nat.
Proof.
  intros Hok Hm. pose proof (ro_main s Hok) as Hmain. unfold main_ok in Hmain. rewrite Hm in Hmain.
  destruct Hmain as (Hlen & _ & _ & _ & _ & Hfin).
  rewrite (ro_lats s Hok), (merged_all _ _ _ Hfin), <- Hlen. clear Hlen Hok Hm.
  induction (rs_threads s) as [|t ts IH]; [by split; simpl|].
  destruct (Hfin 0%nat t eq_refl) as [Hf Ht].
  destruct IH as [IHu IHl]; [intros i; apply (Hfin (S i))|].
  cbn [fmap list_fmap concat]. split.
  - apply Forall_app. split; [|done]. apply Forall_fmap. eapply Forall_impl; [apply (to_log _ _ _ _ Ht)|].
    intros r. apply measured_unsigned.
  - rewrite length_app, IHl, length_fmap. pose proof (to_phase _ _ _ _ Ht) as Hp.
    unfold phase_ok in Hp. rewrite Hf in Hp. destruct Hp as [_ ->].
    cbn [length]. lia.
Qed.

(** What a percentile of a sample means. *)
Definition ranks (k : N) (sample : list double) (q : double) : Prop :=
  let i := N.to_nat (vsize sample * k / 100) in
  q ∈ sample ∧ (i + 1 ≤ length (filter (λ x, dle x q) sample))%nat ∧
  (length sample - i ≤ length (filter (λ x, dle q x) sample))%nat.

Lemma quantile_ranks k l :
  l ≠ [] → all_unsigned l → (k < 100)%N → (vsize l * 100 < pow64)%N →
  ∃ q, quantile k (dsort l) = Some q ∧ ranks k l q.
Proof.
  intros Hne Hu Hk Hfit. destruct (quantile_spec l k Hne Hu Hk Hfit) as (q & Hq & Hin & Hc).
  by exists q.
Qed.

Lemma average_unsigned l :
  l ≠ [] → all_unsigned l → (vsize l < 2 ^ 53)%N →
  unsigned (ddiv (dsum (dsort l)) (of_int (Z.of_N (vsize (dsort l))))) = true.
Proof.
  intros Hne Hu Hfit. rewrite dsort_size.
  assert (0 < vsize l)%N by (destruct l; [done|unfold vsize; simpl; lia]).
  destruct (of_int_finite (Z.of_N (vsize l))) as (m & e & ->); [lia|].
  by apply ddiv_unsigned, dsum_unsigned, dsort_unsigned.
Qed.

(** Once the threads of a round of at most 2147483 clients are joined, the round
    reports a result: an average that is a number, and percentiles that are measured
    latencies with the ranks they claim, in increasing order. *)
Lemma round_reports clock0 ls s :
  kv_addrs ≠ [] → (0 < num_clients)%nat → Z.of_nat num_clients ≤ 2147483 →
  round_steps ls (round_init clock0) = Some s → rs_main s = Measured →
  ∃ r, round_result num_clients s = Some r ∧ client_count r = Z.of_nat num_clients ∧
    unsigned (lat_avg r) = true ∧
    ranks 50 (all_latencies s) (lat_p50 r) ∧ ranks 90 (all_latencies s) (lat_p90 r) ∧
    ranks 99 (all_latencies s) (lat_p99 r) ∧
    dle (lat_p50 r) (lat_p90 r) ∧ dle (lat_p90 r) (lat_p99 r).
Proof.
  intros Hne Hpos Hmax Hs Hm.
  destruct (round_steps_ok ls _ Hne (round_init_ok clock0)) as (s' & Hs' & Hok). simplify_eq.
  destruct (measured_sample s Hok Hm) as [Hu Hlen]. set (l := all_latencies s) in *.
  assert (l ≠ []) as Hl by (intros ->; simpl in Hlen; unfold REQUESTS_PER_CLIENT in Hlen; lia).
  assert (vsize l ≤ 2147483000)%N as Hsz by (unfold vsize, REQUESTS_PER_CLIENT in *; lia).
  assert (vsize l * 100 < pow64)%N as Hfit by (unfold pow64; lia).
  destruct (quantile_ranks 50 l Hl Hu eq_refl Hfit) as (p50 & H50 & R50).
  destruct (quantile_ranks 90 l Hl Hu eq_refl Hfit) as (p90 & H90 & R90).
  destruct (quantile_ranks 99 l Hl Hu eq_refl Hfit) as (p99 & H99 & R99).
  unfold round_result, round_stats. fold l. rewrite H50, H90, H99. cbn [mbind option_bind].
  destruct (Z.ltb_spec INT_MAX (Z.of_nat num_clients * Z.of_nat REQUESTS_PER_CLIENT)) as [Hov|_];
    [unfold INT_MAX, REQUESTS_PER_CLIENT in Hov; lia|].
  eexists. split; [reflexivity|]. cbn [client_count lat_avg lat_p50 lat_p90 lat_p99].
  split_and!; try done.
  - apply average_unsigned; [done..|]. lia.
  - apply (quantile_mono l 50 90 _ _ Hu); [done|lia|done..].
  - apply (quantile_mono l 90 99 _ _ Hu); [done|lia|done..].
Qed.
End props.

(** ** A complete round of one client *)

Definition always_ok (c op attempt : nat) (stub : N) (req : command_fields)
    : option (KvStatus * string) := Some (KV_SUCCESS, EmptyString).

(** The [i]-th request takes [i mod 7 + 1] milliseconds. *)
Definition request_moves (i : nat) : list label :=
  let t := (1000000 * (10 * Z.of_nat i))%Z in
  [LClient 0 t (N.of_nat i) (N.of_nat i); LClient 0 t 0 0;
   LClient 0 (t + 1000000 * (Z.of_nat i `mod` 7 + 1)) 0 0].

Definition one_client : list label :=
  [LMain 0; LMain 0; LClient 0 0 0 0; LClient 0 0 0 0; LMain 0; LMain 0; LClient 0 0 0 0] ++
  concat (request_moves <$> seq 0 REQUESTS_PER_CLIENT) ++
  [LClient 0 0 0 0; LClient 0 0 0 0; LMain 10000000000; LMain 10000000000].

Abbreviation run_one := (round_steps 1 30 always_ok ["a"%string] (λ _, 7%N)).

Lemma one_client_measured :
  match run_one one_client (round_init 0) with
  | Some s => rs_main s = Measured
  | None => False
  end.
Proof. vm_compute. reflexivity. Qed.

Lemma round_reports_witness :
  ∃ s r, run_one one_client (round_init 0) = Some s ∧ round_result 1 s = Some r ∧
    ranks 99 (all_latencies s) (lat_p99 r).
Proof.
  pose proof one_client_measured as Hm.
  destruct (run_one one_client (round_init 0)) as [s|] eqn:Hs; [|destruct Hm].
  destruct (round_reports 1 30 always_ok ["a"%string] (λ _, 7%N) 0 one_client s)
    as (r & Hr & _ & _ & _ & _ & H99 & _);
    [discriminate|lia|lia|exact Hs|exact Hm|].
  exists s, r. split; [reflexivity|]. split; [exact Hr|exact H99].
Defined.

Lemma round_measures_witness :
  ∃ s, run_one one_client (round_init 0) = Some s ∧
    all_latencies s ≡ₚ concat ((λ t, measured <$> ct_log t) <$> rs_threads s).
Proof.
  pose proof one_client_measured as Hm.
  destruct (round_measures 1 30 always_ok ["a"%string] (λ _, 7%N) 0 one_client)
    as (s & Hs & _ & Hl); [discriminate|].
  exists s. rewrite Hs in Hm. split; [exact Hs|]. apply Hl, Hm.
Defined.

Lemma round_completes_witness :
  ∃ ls' s, round_steps 3 50 always_ok ["a"%string] (λ _, 7%N) ([LMain 0; LMain 0] ++ ls')
             (round_init 0) = Some s ∧ rs_main s = Measured.
Proof.
  apply (round_completes 3 50 always_ok ["a"%string] (λ _, 7%N) 0 [LMain 0; LMain 0]).
  discriminate.
Defined.

(** ** The rounds of [main] *)

Lemma rounds_from_spec fuel : ∀ k max,
  (k ≤ 30)%nat → (31 ≤ fuel + k)%nat → (k = 0%nat ∨ 2 ^ (Z.of_nat k - 1) ≤ max) →
  max < 2 ^ 30 →
  ∃ m, rounds_from (S fuel) (2 ^ Z.of_nat k) max = Some ((λ i, 2 ^ Z.of_nat i) <$> seq k m) ∧
    max < 2 ^ Z.of_nat (k + m) ∧ (m = 0%nat ∨ 2 ^ Z.of_nat (k + m - 1) ≤ max).
Proof.
  induction fuel as [|fuel IH]; intros k max Hk Hf Hlow Hmax; cbn [rounds_from];
    destruct (Z.leb_spec (2 ^ Z.of_nat k) max) as [Hle|Hgt].
  - lia.
  - exists 0%nat. rewrite Nat.add_0_r. by split_and!; [|lia|left].
  - assert (k < 30)%nat as Hk'.
    { destruct (decide (k = 30)%nat) as [->|]; [|lia]. change (2 ^ Z.of_nat 30) with (2 ^ 30) in Hle. lia. }
    assert (2 ^ Z.of_nat k * 2 = 2 ^ Z.of_nat (S k)) as Hd
      by (rewrite Nat2Z.inj_succ, Z.pow_succ_r by lia; lia).
    assert (2 ^ Z.of_nat (S k) ≤ 2 ^ 30) as Hb by (apply Z.pow_le_mono_r; lia).
    rewrite Hd. destruct (Z.ltb_spec INT_MAX (2 ^ Z.of_nat (S k))) as [Hov|_];
      [unfold INT_MAX in Hov; lia|].
    destruct (IH (S k) max) as (m & Hm & Hhi & Hlo); [lia|lia| |done|].
    { right. replace (Z.of_nat (S k) - 1) with (Z.of_nat k) by lia. done. }
    cbn [rounds_from] in Hm. rewrite Hm. cbn [mbind option_bind]. exists (S m).
    split_and!; [done|by replace (k + S m)%nat with (S k + m)%nat by lia|]. right.
    destruct Hlo as [->|Hlo]; [by replace (k + 1 - 1)%nat with k by lia|].
    by replace (k + S m - 1)%nat with (S k + m - 1)%nat by lia.
  - exists 0%nat. rewrite Nat.add_0_r. by split_and!; [|lia|left].
Qed.

(** The rounds have 1, 2, 4, ... clients up to the largest power of two that the limit
    allows. *)
Lemma rounds_spec max :
  max < 2 ^ 30 →
  ∃ m, rounds max = Some ((λ i, 2 ^ Z.of_nat i) <$> seq 0 m) ∧
    max < 2 ^ Z.of_nat m ∧ (m = 0%nat ∨ 2 ^ Z.of_nat (m - 1) ≤ max).
Proof. intros Hmax. apply (rounds_from_spec 31 0 max); [lia|lia|by left|done]. Qed.

(** From 2^30 on the loop variable overflows. *)
Lemma rounds_overflow : rounds (2 ^ 30) = None.
Proof. vm_compute. reflexivity. Qed.

(** ** Seeds *)

Lemma lxor_inj a b c : N.lxor a b = N.lxor a c → b = c.
Proof.
  intros H. assert (N.lxor a (N.lxor a b) = N.lxor a (N.lxor a c)) as H2 by (by rewrite H).
  by rewrite <- !N.lxor_assoc, N.lxor_nilpotent, !N.lxor_0_l in H2.
Qed.

(** Clients whose random devices agree still get different seeds. *)
Lemma client_seed_inj rd c1 c2 :
  (c1 < pow32)%N → (c2 < pow32)%N → client_seed rd c1 = client_seed rd c2 → c1 = c2.
Proof.
  intros H1 H2 H%lxor_inj. unfold wrap32, wrap64 in H.
  assert (∀ c, (c * 6364136223846793005 mod pow64 mod pow32 = c * 1284865837 mod pow32)%N) as Hred.
  { intros c. change pow64 with (pow32 * pow32)%N. rewrite N.Div0.mod_mul_r by done.
    rewrite (N.mul_comm pow32), N.Div0.mod_add, N.Div0.mod_mod.
    change 6364136223846793005%N with (1284865837 + 1481765933 * pow32)%N.
    rewrite N.mul_add_distr_l, N.mul_assoc. by rewrite N.Div0.mod_add. }
  rewrite !Hred in H.
  assert (∀ c, (c * 1284865837 mod pow32 * 849225893 mod pow32 = c mod pow32)%N) as Hinv.
  { intros c. rewrite N.Div0.mul_mod_idemp_l, <- N.mul_assoc.
    rewrite <- N.Div0.mul_mod_idemp_r.
    change ((1284865837 * 849225893) mod pow32)%N with 1%N. by rewrite N.mul_1_r. }
  pose proof (Hinv c1) as I1. pose proof (Hinv c2) as I2.
  rewrite (N.mod_small c1 pow32 H1) in I1. rewrite (N.mod_small c2 pow32 H2) in I2.
  rewrite <- I1, <- I2. by rewrite H.
Qed.

(** ** Populating the keyspace *)

Lemma put_all_puts rpc keys : ∀ op c,
  (leader_idx_ c < stubs_size c)%N →
  ∃ os, put_all rpc op keys c = Some os ∧
    Forall2 (λ key o, sent o ≠ [] ∧
      Forall (λ p, f_op p.2 = PUT ∧ f_key p.2 = key ∧ f_value p.2 = "init"%string) (sent o)) keys os.
Proof.
  induction keys as [|key keys IH]; intros op c Hc; [by exists []|].
  cbn [put_all]. unfold put.
  destruct (operate_returns (rpc op) PUT key "init" c Hc) as (o & -> & Hi & Hne & Hall). cbn [mbind option_bind].
  destruct (IH (S op) (final o)) as (os & -> & Hos); [done|]. cbn [mbind option_bind].
  exists (o :: os). split; [done|]. constructor; [|done].
  split; [done|].
  eapply Forall_impl; [exact Hall|]. by intros p ->.
Qed.

(** Before the clients start, every key that they can draw was put. *)
Lemma populate_covers rpc c raw :
  (leader_idx_ c < stubs_size c)%N →
  ∃ os o i req, populate_keyspace rpc c = Some os ∧ o ∈ os ∧ (i, req) ∈ sent o ∧
    f_op req = PUT ∧ f_key req = bench_key (uniform_int 1 (N.of_nat KEYSPACE_SIZE) raw).
Proof.
  intros Hc. destruct (put_all_puts rpc keyspace 0 c Hc) as (os & Hos & Hall).
  destruct (proj1 (list_elem_of_lookup _ _) (drawn_key_in_keyspace raw)) as (j & Hj).
  destruct (Forall2_lookup_l _ _ _ _ _ Hall Hj) as (o & Ho & Hne & Hf).
  destruct (sent o) as [|[i req] l] eqn:Hsent; [done|].
  apply Forall_cons in Hf as [(H1 & H2 & _) _].
  exists os, o, i, req. rewrite Hsent. split_and!; try done; [|by left].
  by eapply list_elem_of_lookup_2.
Qed.

(** ** The latency benchmark *)

Lemma latency_loop_spec rpc times n : ∀ i c,
  (leader_idx_ c < stubs_size c)%N →
  latency_loop rpc times i n c =
    Some ((λ j, milliseconds ((times j).2 - (times j).1)) <$> seq i n).
Proof.
  induction n as [|n IH]; intros i c Hc; [done|]. cbn [latency_loop]. unfold put.
  destruct (operate_returns (rpc i) PUT "bench_key" "bench_value" c Hc) as (o & -> & Hi & _).
  cbn [mbind option_bind]. rewrite IH by done. done.
Qed.

(** The latency benchmark reports an average that is a number and two percentiles of
    its thousand measurements. *)
Lemma latency_reports rpc times id :
  (∀ i, (times i).1 ≤ (times i).2) →
  let sample := (λ j, milliseconds ((times j).2 - (times j).1)) <$> seq 0 NUM_REQUESTS in
  ∃ avg p50 p99, latency_main rpc times id = Some (avg, p50, p99) ∧ unsigned avg = true ∧
    ranks 50 sample p50 ∧ ranks 99 sample p99 ∧ dle p50 p99.
Proof.
  intros Ht sample. unfold latency_main. rewrite latency_loop_spec by (by vm_compute).
  fold sample. cbn [mbind option_bind].
  assert (all_unsigned sample) as Hu.
  { apply Forall_fmap, Forall_forall. intros j _. apply milliseconds_unsigned. specialize (Ht j). lia. }
  assert (vsize sample = 1000%N) as Hsz by (unfold vsize, sample; by rewrite length_fmap, length_seq).
  assert (sample ≠ []) as Hne by (intros H; by rewrite H in Hsz).
  assert (vsize sample * 100 < pow64)%N as Hfit by (by rewrite Hsz).
  destruct (quantile_ranks 50 sample Hne Hu eq_refl Hfit) as (p50 & H50 & R50).
  destruct (quantile_ranks 99 sample Hne Hu eq_refl Hfit) as (p99 & H99 & R99).
  rewrite H50, H99. cbn [mbind option_bind]. eexists _, _, _. split; [reflexivity|].
  split_and!; [|done|done|].
  - apply average_unsigned; [done..|]. by rewrite Hsz.
  - apply (quantile_mono sample 50 99 _ _ Hu); [done|by rewrite Hsz|done..].
Qed.

(** ** The whole program *)

(** With valid arguments and rounds that report, the program writes one row for
    every round, under the name that the number of nodes selects. *)
Lemma tput_main_writes stoi run_round a1 a2 a3 max ratio nodes :
  stoi a1 = Some max → stoi a2 = Some ratio → stoi a3 = Some nodes →
  max < 2 ^ 30 → 0 ≤ ratio ≤ 100 → 1 ≤ nodes →
  (∀ i n addrs, ∃ r, run_round i n ratio addrs = Some r ∧ client_count r = n) →
  ∃ results, tput_main stoi run_round [a1; a2; a3] =
      Written (result_file nodes) (report results) (report results) ∧
    rounds max = Some (client_count <$> results).
Proof.
  intros H1 H2 H3 Hmax Hratio Hnodes Hrun. unfold tput_main. rewrite H1, H2, H3.
  destruct (Z.ltb_spec ratio 0); [lia|]. destruct (Z.ltb_spec 100 ratio); [lia|].
  destruct (Z.ltb_spec nodes 1); [lia|]. cbn [orb].
  destruct (rounds_spec max Hmax) as (m & -> & _). cbn [mbind option_bind].
  generalize ((λ i, 2 ^ Z.of_nat i) <$> seq 0 m) as ns. intros ns.
  assert (∃ results, run_rounds run_round ratio nodes ns = Some results ∧
            ns = client_count <$> results) as (results & -> & ->); [|by exists results].
  unfold run_rounds.
  assert (∀ (g : nat → N), ∃ results,
    mapM (λ p : N * Z, run_round p.1 p.2 ratio (kv_addresses (create_cluster p.1 (Z.to_N nodes)).1))
      (imap (λ i n, (g i, n)) ns) = Some results ∧ ns = client_count <$> results) as Hmap;
    [|apply Hmap].
  induction ns as [|n ns IH]; intros g; [by exists []|].
  rewrite imap_cons. cbn [mapM fst snd].
  destruct (Hrun (g 0%nat) n (kv_addresses (create_cluster (g 0%nat) (Z.to_N nodes)).1))
    as (r & -> & Hr). cbn [mbind option_bind].
  destruct (IH (g ∘ S)) as (results & Hres & Hns).
  change (imap ((λ i n, (g i, n)) ∘ S) ns) with (imap (λ i n, ((g ∘ S) i, n)) ns). rewrite Hres.
  cbn [mbind option_bind]. exists (r :: results). split; [done|].
  cbn [fmap list_fmap]. by rewrite Hr, <- Hns.
Qed.
