(* ===== verification/TestConfig.v ===== *)
(** The oracle of the integration tests: [MultiprocTestConfig] of
    [inc/toolings/test_config.hpp], which collects the results that the nodes apply,
    compares them, and judges elections and agreement.

    The callback runs on one thread per node; its critical sections are the steps of a
    handler.  The GTest macros are outside the source: [FAIL] and [ASSERT_TRUE(false)]
    return from the function that contains them, as documented, so the [throw] behind
    them is not reached.  Sleeping, the clock and the replies of the nodes are inputs. *)
From stdpp Require Import sorting.
From S2P Require Import Prelude Types ConfigGen RaftState RaftNode RaftNodeFacts Cluster.
From S2P Require Import NetInterceptor NodeApp Wrapper TestCtrl.

#[local] Open Scope N_scope.
#[local] Open Scope rafty_scope.

(** ** State *)

Record TestConfig := mkTestConfig {
  logs : gmap N (gmap N string);
  apply_err : gmap N string;
  raft_stopped : gmap N bool;
  connected : gmap N bool;
  raft_ids : gset N;
  max_index : N;
  stop_ : bool;
  failed : bool }.

Definition set_logs v s := mkTestConfig v (apply_err s) (raft_stopped s) (connected s)
  (raft_ids s) (max_index s) (stop_ s) (failed s).
Definition set_apply_err v s := mkTestConfig (logs s) v (raft_stopped s) (connected s)
  (raft_ids s) (max_index s) (stop_ s) (failed s).
Definition set_connected v s := mkTestConfig (logs s) (apply_err s) (raft_stopped s) v
  (raft_ids s) (max_index s) (stop_ s) (failed s).
Definition set_max_index v s := mkTestConfig (logs s) (apply_err s) (raft_stopped s) (connected s)
  (raft_ids s) v (stop_ s) (failed s).

(** [stop.store(true)], and with it [failed.store(true)]. *)
Definition stop_test s := mkTestConfig (logs s) (apply_err s) (raft_stopped s) (connected s)
  (raft_ids s) (max_index s) true (failed s).
Definition fail_test s := mkTestConfig (logs s) (apply_err s) (raft_stopped s) (connected s)
  (raft_ids s) (max_index s) true true.

Definition for_ids {A} (v : A) (ids : list N) : gmap N A := list_to_map ((λ i, (i, v)) <$> ids).

Definition TestConfig_init (configs : list Config) : TestConfig :=
  let ids := cfg_id <$> configs in
  mkTestConfig (for_ids ∅ ids) (for_ids EmptyString ids) (for_ids true ids) (for_ids true ids)
    (list_to_set ids) 0 false false.

(** The tester ports that the constructor hands out. *)
Definition assign_ports (configs : list Config) : gmap N N :=
  (foldl (λ '(m, port) cfg, (<[cfg_id cfg := port]> m, port +₆₄ 1)) (∅, 55001) configs).1.

(** [begin]: reset the counters, let the callbacks in, then connect to the nodes and
    start them; [None] while they are not ready, or when a call fails. *)
Definition begin_flags (s : TestConfig) : TestConfig :=
  mkTestConfig (logs s) (apply_err s) (set_fold (λ i m, <[i := false]> m) (raft_stopped s) (raft_ids s))
    (connected s) (raft_ids s) 0 (stop_ s) (failed s).

Definition begin (ok : N → bool) (world : gmap N RaftWrapper) (ctrl : RaftTestCtrl) (s : TestConfig)
    : option (RaftTestCtrl * gmap N RaftWrapper * TestConfig) :=
  let s := begin_flags s in
  ctrl ← connect_to_raft_nodes ctrl;
  world ← run_all ∅ ok world ctrl;
  Some (ctrl, world, s).

(** ** Comparing applied results *)

Definition conflict_msg (i : N) (m : ApplyResult) (id : N) (w : string) : string :=
  ("commit index=" +:+ to_string (index m) +:+ " server=" +:+ to_string i +:+ " " +:+ data m +:+
   " != server=" +:+ to_string id +:+ " " +:+ w)%string.

(** [check_logs]: the message of the last conflict found, if any, and [prevok]. *)
Definition check_logs (i : N) (m : ApplyResult) (s : TestConfig) : TestConfig * (string * bool) :=
  let v := data m in
  let err_msg :=
    foldl (λ err '(id, log),
             match log !! index m with
             | Some w => if bool_decide (w = v) then err else conflict_msg i m id w
             | None => err
             end) EmptyString (map_to_list (logs s)) in
  let prevok :=
    match logs s !! i with
    | Some log => bool_decide (is_Some (log !! (index m -₆₄ 1)))
    | None => false
    end in
  let s := set_logs (<[i := <[index m := v]> (default ∅ (logs s !! i))]> (logs s)) s in
  let s := if max_index s <? index m then set_max_index (index m) s else s in
  (s, (err_msg, prevok)).

Definition order_msg (i : N) (m : ApplyResult) : string :=
  ("server " +:+ to_string i +:+ " apply out of order " +:+ to_string (index m))%string.

(** ** The callback, on the thread that reads the stream of node [i] *)

Definition accepting (i : N) (s : TestConfig) : bool :=
  negb (stop_ s || failed s || default false (raft_stopped s !! i)).

Inductive handler :=
| HFirst (m : ApplyResult)
| HSecond (m : ApplyResult)
| HCheck (m : ApplyResult)
| HReport (err_msg : string).

Definition applier_step (i : N) (k : handler) (s : TestConfig) : TestConfig * option handler :=
  match k with
  | HFirst m => (s, if accepting i s then Some (HSecond m) else None)
  | HSecond m =>
      (s, if accepting i s then if valid m then Some (HCheck m) else None else None)
  | HCheck m =>
      let '(s, (err_msg, preok)) := check_logs i m s in
      let err_msg := if (1 <? index m) && negb preok then order_msg i m else err_msg in
      (s, if bool_decide (err_msg = EmptyString) then None else Some (HReport err_msg))
  | HReport err_msg => (fail_test (set_apply_err (<[i := err_msg]> (apply_err s)) s), None)
  end.

(** The collector: the state, the handlers that run, and what was read from the
    stream of every node, newest last. *)
Record collector := mkCollector {
  tc : TestConfig;
  handlers : gmap N handler;
  received : gmap N (list ApplyResult) }.

Inductive clabel :=
| CRead (i : N) (m : ApplyResult)
| CHandle (i : N)
| CStop
| CFail.

Definition cstep (l : clabel) (c : collector) : option collector :=
  match l with
  | CRead i m =>
      match handlers c !! i with
      | Some _ => None
      | None => Some (mkCollector (tc c) (<[i := HFirst m]> (handlers c))
                        (<[i := default [] (received c !! i) ++ [m]]> (received c)))
      end
  | CHandle i =>
      match handlers c !! i with
      | Some k =>
          let '(s, k') := applier_step i k (tc c) in
          Some (mkCollector s (partial_alter (λ _, k') i (handlers c)) (received c))
      | None => None
      end
  | CStop => Some (mkCollector (stop_test (tc c)) (handlers c) (received c))
  | CFail => Some (mkCollector (fail_test (tc c)) (handlers c) (received c))
  end.

Fixpoint crun (ls : list clabel) (c : collector) : option collector :=
  match ls with
  | [] => Some c
  | l :: ls => match cstep l c with Some c' => crun ls c' | None => None end
  end.

Definition collect (configs : list Config) : collector :=
  mkCollector (begin_flags (TestConfig_init configs)) ∅ ∅.

(** An error that was found: reported, or about to be. *)
Definition alarm (c : collector) : Prop :=
  failed (tc c) = true ∨ ∃ i err, handlers c !! i = Some (HReport err).

(** ** What the check guarantees *)

Definition agree (lg : gmap N (gmap N string)) : Prop :=
  ∀ i j li lj k d e, lg !! i = Some li → lg !! j = Some lj →
    li !! k = Some d → lj !! k = Some e → d = e.

Definition gapless (lg : gmap N (gmap N string)) : Prop :=
  ∀ i li k, lg !! i = Some li → is_Some (li !! k) → 1 < k → is_Some (li !! (k - 1)).

(** No node has another value at this index. *)
Definition fits (m : ApplyResult) (lg : gmap N (gmap N string)) : Prop :=
  ∀ j lj w, lg !! j = Some lj → lj !! index m = Some w → w = data m.

Lemma conflict_fold i m l : ∀ err,
  foldl (λ err '(id, log),
           match log !! index m with
           | Some w => if bool_decide (w = data m) then err else conflict_msg i m id w
           | None => err
           end) err l = EmptyString ↔
  (∀ id (log : gmap N string) w, (id, log) ∈ l → log !! index m = Some w → w = data m) ∧
  err = EmptyString.
Proof.
  induction l as [|[id log] l IH]; intros err; simpl.
  { split; [|by intros [_ ?]]. intros ->. split; [|done]. by intros ??? ?%not_elem_of_nil. }
  rewrite IH. split.
  - intros [Hl He]. destruct (log !! index m) as [w|] eqn:Hw.
    + case_bool_decide as Hd; [|done]. split; [|done].
      intros id' log' w' [[= -> ->]|Hin]%elem_of_cons; [congruence|by apply (Hl id')].
    + split; [|done].
      intros id' log' w' [[= -> ->]|Hin]%elem_of_cons; [congruence|by apply (Hl id')].
  - intros [Hl ->]. split; [intros id' log' w' Hin; apply (Hl id'); by right|].
    destruct (log !! index m) as [w|] eqn:Hw; [|done].
    rewrite bool_decide_eq_true_2; [done|]. apply (Hl id log); [by left|done].
Qed.

Lemma check_logs_spec i m s :
  let '(s', (err, prevok)) := check_logs i m s in
  logs s' = <[i := <[index m := data m]> (default ∅ (logs s !! i))]> (logs s) ∧
  (err = EmptyString ↔ fits m (logs s)) ∧
  (prevok = true ↔ ∃ li, logs s !! i = Some li ∧ is_Some (li !! (index m -₆₄ 1))) ∧
  stop_ s' = stop_ s ∧ failed s' = failed s ∧ raft_stopped s' = raft_stopped s.
Proof.
  unfold check_logs. split_and!.
  - by case_match.
  - rewrite conflict_fold. unfold fits. split.
    + intros [H _] j lj w Hj. apply (H j lj). by apply elem_of_map_to_list.
    + intros H. split; [|done]. intros j lj w Hj%elem_of_map_to_list. by apply (H j).
  - destruct (logs s !! i) as [li|].
    + rewrite bool_decide_eq_true. split; [by exists li|]. by intros (? & [= <-] & ?).
    + split; [done|]. by intros (? & ? & _).
  - by case_match.
  - by case_match.
  - by case_match.
Qed.

Definition record_result (i : N) (m : ApplyResult) (lg : gmap N (gmap N string)) :=
  <[i := <[index m := data m]> (default ∅ (lg !! i))]> lg.

Lemma record_lookup i m lg j lj k d :
  record_result i m lg !! j = Some lj → lj !! k = Some d →
  (j = i ∧ k = index m ∧ d = data m) ∨ ∃ l0, lg !! j = Some l0 ∧ l0 !! k = Some d.
Proof.
  unfold record_result. rewrite lookup_insert_Some. intros [[<- <-]|[Hne Hj]] Hk; [|eauto].
  apply lookup_insert_Some in Hk as [[<- <-]|[Hki Hk]]; [by left|right].
  destruct (lg !! i) as [l0|]; simpl in Hk; [by exists l0|]. by rewrite lookup_empty in Hk.
Qed.

Lemma record_keeps i m lg j l0 k :
  lg !! j = Some l0 → is_Some (l0 !! k) →
  ∃ lj, record_result i m lg !! j = Some lj ∧ is_Some (lj !! k).
Proof.
  intros Hj Hk. unfold record_result. destruct (decide (j = i)) as [->|Hne].
  - rewrite Hj, lookup_insert_eq. eexists. split; [done|]. simpl.
    destruct (decide (k = index m)) as [->|]; [by rewrite lookup_insert_eq|].
    by rewrite lookup_insert_ne.
  - exists l0. by rewrite lookup_insert_ne.
Qed.

Lemma agree_record i m lg : agree lg → fits m lg → agree (record_result i m lg).
Proof.
  intros Ha Hf j j' l l' k d e Hj Hj' Hd He.
  destruct (record_lookup _ _ _ _ _ _ _ Hj Hd) as [(-> & -> & ->)|(l0 & Hl0 & Hd0)],
    (record_lookup _ _ _ _ _ _ _ Hj' He) as [(-> & Hk & ->)|(l1 & Hl1 & He1)]; try done.
  - symmetry. by apply (Hf j' l1).
  - subst k. by apply (Hf j l0).
  - by apply (Ha j j' l0 l1 k).
Qed.

Lemma gapless_record i m lg :
  gapless lg →
  (index m ≤ 1 ∨ ∃ li, lg !! i = Some li ∧ is_Some (li !! (index m - 1))) →
  gapless (record_result i m lg).
Proof.
  intros Hg Hprev j lj k Hj [d Hd] Hk.
  assert (∃ l0, lg !! j = Some l0 ∧ is_Some (l0 !! (k - 1))) as (l0 & Hl0 & Hp).
  { destruct (record_lookup _ _ _ _ _ _ _ Hj Hd) as [(-> & -> & ->)|(l0 & Hl0 & Hd0)].
    - destruct Hprev as [|]; [lia|done].
    - exists l0. split; [done|]. apply (Hg j); [done|by exists d|done]. }
  destruct (record_keeps i m lg j l0 (k - 1) Hl0 Hp) as (l1 & Hl1 & Hs). by simplify_eq.
Qed.

(** The check of one result, as the handler sees it. *)
Lemma handler_check i m s :
  index m < pow64 →
  let '(s', k) := applier_step i (HCheck m) s in
  logs s' = record_result i m (logs s) ∧
  stop_ s' = stop_ s ∧ failed s' = failed s ∧ raft_stopped s' = raft_stopped s ∧
  match k with
  | None => fits m (logs s) ∧
            (index m ≤ 1 ∨ ∃ li, logs s !! i = Some li ∧ is_Some (li !! (index m - 1)))
  | Some k => ∃ err, k = HReport err
  end.
Proof.
  intros Hm. unfold applier_step. pose proof (check_logs_spec i m s) as Hc.
  destruct (check_logs i m s) as [s' [err ok]]. destruct Hc as (Hl & He & Hp & ? & ? & ?).
  split_and!; try done. case_bool_decide as Hb; [|by eexists].
  destruct (N.ltb_spec 1 (index m)) as [Hlt|Hle]; simpl in Hb.
  - destruct ok; [|done]. simpl in Hb. split; [by apply He|right].
    rewrite sub64_small in Hp by lia. by apply Hp.
  - split; [by apply He|]. left. lia.
Qed.

(** Indices come from [uint64] fields. *)
Definition in_range (l : clabel) : Prop :=
  match l with CRead _ m => index m < pow64 | _ => True end.

Record collector_inv (c : collector) : Prop := {
  co_range : ∀ i m, handlers c !! i = Some (HFirst m) ∨ handlers c !! i = Some (HSecond m) ∨
    handlers c !! i = Some (HCheck m) → index m < pow64;
  co_logs : alarm c ∨ (agree (logs (tc c)) ∧ gapless (logs (tc c))) }.

(** A handler that moves on without an error leaves an alarm as it was. *)
Lemma alarm_moves c s i k k' :
  alarm c → failed s = failed (tc c) → handlers c !! i = Some k → (∀ err, k ≠ HReport err) →
  alarm (mkCollector s (partial_alter (λ _, k') i (handlers c)) (received c)).
Proof.
  intros [Hf|(j & err & Hj)] Hs Hi Hk; [left; simpl; congruence|right].
  exists j, err. simpl. rewrite lookup_partial_alter_ne; [done|]. intros ->.
  apply (Hk err). congruence.
Qed.

(** The invariant after a handler's step, from the range of what it still holds. *)
Lemma collector_inv_moves c s i k' :
  collector_inv c →
  (∀ m, k' = Some (HFirst m) ∨ k' = Some (HSecond m) ∨ k' = Some (HCheck m) → index m < pow64) →
  alarm (mkCollector s (partial_alter (λ _, k') i (handlers c)) (received c)) ∨
    (agree (logs s) ∧ gapless (logs s)) →
  collector_inv (mkCollector s (partial_alter (λ _, k') i (handlers c)) (received c)).
Proof.
  intros [Hr _] Hk' H. split; [|done]. simpl. intros j m Hj.
  destruct (decide (j = i)) as [->|Hne].
  - rewrite !lookup_partial_alter_eq in Hj. by apply Hk'.
  - rewrite !lookup_partial_alter_ne in Hj by done. by apply (Hr j).
Qed.

Lemma collector_inv_handle c i k :
  collector_inv c → handlers c !! i = Some k →
  let '(s, k') := applier_step i k (tc c) in
  collector_inv (mkCollector s (partial_alter (λ _, k') i (handlers c)) (received c)).
Proof.
  intros Hinv Hi. destruct (Hinv) as [Hr Hl]. destruct k as [m|m|m|err].
  1,2: (apply collector_inv_moves; [done| |]);
       [intros m' Hm'; repeat case_match; destruct Hm' as [|[|]]; simplify_eq; eauto
       |destruct Hl as [Ha|]; [left|by right]; by eapply alarm_moves].
  - pose proof (handler_check i m (tc c)) as Hc.
    destruct (applier_step i (HCheck m) (tc c)) as [s k'].
    destruct Hc as (Hlog & _ & Hfail & _ & Hk); [by eauto|].
    destruct k' as [k'|]; (apply collector_inv_moves; [done| |]); [|left; right|by naive_solver|].
    + destruct Hk as [err ->]. naive_solver.
    + destruct Hk as [err ->]. exists i, err. simpl. by rewrite lookup_partial_alter_eq.
    + destruct Hl as [Ha|[Ha Hg]]; [left; by eapply alarm_moves|right].
      rewrite Hlog. destruct Hk as [Hfit Hprev].
      split; [by apply agree_record|by apply gapless_record].
  - apply collector_inv_moves; [done|naive_solver|]. left. by left.
Qed.

Lemma collector_inv_step l c c' :
  in_range l → collector_inv c → cstep l c = Some c' → collector_inv c'.
Proof.
  intros Hl Hinv Hstep. destruct l as [i m|i| |]; simpl in Hstep.
  - destruct (handlers c !! i) eqn:Hi; [done|]. simplify_eq. destruct Hinv as [Hr Ho]. split; simpl.
    + intros j m'. destruct (decide (j = i)) as [->|].
      * rewrite lookup_insert_eq. intros [|[|]]; by simplify_eq.
      * rewrite lookup_insert_ne by done. apply Hr.
    + destruct Ho as [[Hf|(j & err & Hj)]|]; [by left; left| |by right].
      left. right. exists j, err. simpl. rewrite lookup_insert_ne; [done|]. congruence.
  - destruct (handlers c !! i) as [k|] eqn:Hi; [|done].
    pose proof (collector_inv_handle c i k Hinv Hi) as H.
    destruct (applier_step i k (tc c)) as [s k']. by simplify_eq.
  - simplify_eq. destruct Hinv as [Hr Ho]. by split.
  - simplify_eq. destruct Hinv as [Hr Ho]. split; [done|]. left. by left.
Qed.

Lemma collector_inv_run ls : ∀ c c',
  Forall in_range ls → collector_inv c → crun ls c = Some c' → collector_inv c'.
Proof.
  induction ls as [|l ls IH]; intros c c' Hr Hinv Hrun; simpl in Hrun; [by simplify_eq|].
  apply Forall_cons_1 in Hr as [Hl Hr].
  destruct (cstep l c) as [c1|] eqn:Hs; [|done].
  eapply IH; [done| |done]. by eapply collector_inv_step.
Qed.

Lemma for_ids_lookup {A} (v : A) ids i w : for_ids v ids !! i = Some w → w = v.
Proof.
  unfold for_ids. intros H. apply elem_of_list_to_map_2, list_elem_of_fmap in H as (j & E & _).
  by simplify_eq.
Qed.

Lemma collector_inv_init configs : collector_inv (collect configs).
Proof.
  split; simpl.
  - intros i m. rewrite lookup_empty. naive_solver.
  - right. split.
    + intros i j li lj k d e Hi%for_ids_lookup _ Hd. subst. by rewrite lookup_empty in Hd.
    + intros i li k Hi%for_ids_lookup [d Hd]. subst. by rewrite lookup_empty in Hd.
Qed.

(** The oracle is sound: whatever the nodes stream and however the callbacks
    interleave, as long as no error is reported or about to be, no two nodes have
    applied different values at one index and no node has skipped one. *)
Lemma oracle_sound configs ls c :
  Forall in_range ls → crun ls (collect configs) = Some c → ¬ alarm c →
  agree (logs (tc c)) ∧ gapless (logs (tc c)).
Proof.
  intros Hr Hrun Hna.
  destruct (collector_inv_run ls _ _ Hr (collector_inv_init configs) Hrun) as [_ [|]]; done.
Qed.

(** ** Elections *)

(** The outcome of a check: a value, a failed test, or undefined behaviour. *)
Inductive verdict (A : Type) :=
| Ok (a : A)
| Aborts (msg : string)
| Undef.
Arguments Ok {A} a.
Arguments Aborts {A} msg.
Arguments Undef {A}.

Definition abort_msg : string := "Abort due to test failure. See details above.".

(** [static_cast<int>] of a [uint64_t]. *)
Definition as_int (t : N) : Z :=
  let r := Z.of_N (t mod 4294967296) in
  if (r <? 2147483648)%Z then r else (r - 4294967296)%Z.

(** The implicit conversion of an [int] to the key type [uint64_t]. *)
Definition as_uint64 (z : Z) : N := Z.to_N (z mod Z.of_N pow64).

(** The leaders of every term, in the order in which they were polled. *)
Definition leaders_of (states : list WireState) : gmap N (list N) :=
  foldl (λ leaders st,
           if ws_is_leader st
           then <[ws_term st := default [] (leaders !! ws_term st) ++ [ws_id st]]> leaders
           else leaders) ∅ states.

(** The loop over [leaders]: [None] when a term has more than one. *)
Fixpoint last_term_with_leader (l : list (N * list N)) (last : Z) : option Z :=
  match l with
  | [] => Some last
  | (t, ids) :: l =>
      if 1 <? vsize ids then None
      else last_term_with_leader l (if (last <? as_int t)%Z then as_int t else last)
  end.

(** One poll: [None] when nobody leads. *)
Definition judge_leaders (states : list WireState) : option (verdict N) :=
  let leaders := leaders_of states in
  match last_term_with_leader (map_to_list leaders) (-1) with
  | None => Some (Aborts abort_msg)
  | Some last =>
      if bool_decide (leaders = ∅) then None
      else Some (match leaders !! as_uint64 last with
                 | Some (id :: _) => Ok id
                 | _ => Undef
                 end)
  end.

(** [check_one_leader]: [polls] are the flags and states that its iterations see. *)
Fixpoint check_leader_loop (iters : nat) (polls : nat → bool * list WireState) (k : nat) : verdict N :=
  match iters with
  | O => Aborts abort_msg
  | S iters =>
      if (polls k).1 then Aborts abort_msg
      else match judge_leaders (polls k).2 with
           | Some v => v
           | None => check_leader_loop iters polls (S k)
           end
  end.

Definition check_one_leader (polls : nat → bool * list WireState) : verdict N :=
  check_leader_loop 10 polls 0.

Fixpoint check_terms_loop (states : list WireState) (t : option N) : verdict (option N) :=
  match states with
  | [] => Ok t
  | st :: states =>
      match t with
      | None => check_terms_loop states (Some (ws_term st))
      | Some x => if x =? ws_term st then check_terms_loop states t else Aborts abort_msg
      end
  end.

Definition check_terms (states : list WireState) : verdict (option N) :=
  check_terms_loop states None.

(** [check_no_leader]: has a failure been reported?  [ASSERT_TRUE] returns. *)
Definition check_no_leader (states : list WireState) : bool := existsb ws_is_leader states.

Lemma leaders_of_snoc states st :
  leaders_of (states ++ [st]) =
  if ws_is_leader st
  then <[ws_term st := default [] (leaders_of states !! ws_term st) ++ [ws_id st]]> (leaders_of states)
  else leaders_of states.
Proof. unfold leaders_of. by rewrite foldl_app. Qed.

Lemma leaders_of_lookup states t :
  leaders_of states !! t =
  match ws_id <$> filter (λ st, ws_is_leader st = true ∧ ws_term st = t) states with
  | [] => None
  | ids => Some ids
  end.
Proof.
  induction states as [|st states IH] using rev_ind; [done|].
  rewrite leaders_of_snoc, filter_app, fmap_app.
  destruct (ws_is_leader st) eqn:Hl.
  - destruct (decide (ws_term st = t)) as [<-|Hne].
    + rewrite lookup_insert_eq, IH, filter_cons_True by done. simpl.
      by destruct (ws_id <$> filter _ states).
    + rewrite lookup_insert_ne, IH by done. rewrite filter_cons_False by (by intros [_ ?]).
      by rewrite app_nil_r.
  - rewrite IH, filter_cons_False by (rewrite Hl; by intros [? _]). by rewrite app_nil_r.
Qed.

(** The leaders of term [t] in a poll. *)
Definition leading (t : N) (states : list WireState) : list WireState :=
  filter (λ st, ws_is_leader st = true ∧ ws_term st = t) states.

Lemma leaders_of_Some states t ids :
  leaders_of states !! t = Some ids ↔ ids ≠ [] ∧ ids = ws_id <$> leading t states.
Proof.
  rewrite leaders_of_lookup. unfold leading. destruct (ws_id <$> filter _ states); naive_solver.
Qed.

Lemma last_term_spec l : ∀ last,
  (∀ t ids, (t, ids) ∈ l → vsize ids ≤ 1) →
  ∃ z, last_term_with_leader l last = Some z ∧ (last ≤ z)%Z ∧
       (∀ t ids, (t, ids) ∈ l → (as_int t ≤ z)%Z) ∧
       (z = last ∨ ∃ t ids, (t, ids) ∈ l ∧ z = as_int t).
Proof.
  induction l as [|[t ids] l IH]; intros last Hl; simpl.
  { exists last. split_and!; [done|lia|by intros ?? ?%not_elem_of_nil|by left]. }
  destruct (N.ltb_spec 1 (vsize ids)) as [Hlt|_].
  { specialize (Hl t ids ltac:(by left)). lia. }
  destruct (IH (if (last <? as_int t)%Z then as_int t else last)) as (z & -> & Hge & Hall & Hz).
  { intros t' ids' Hin. apply (Hl t'). by right. }
  exists z. split; [done|]. destruct (Z.ltb_spec last (as_int t)); split_and!; try lia.
  - intros t' ids' [[= -> ->]|Hin]%elem_of_cons; [done|by eapply Hall].
  - right. destruct Hz as [->|(t' & ids' & ? & ->)].
    + exists t, ids. split; [by left|done].
    + exists t', ids'. split; [by right|done].
  - intros t' ids' [[= -> ->]|Hin]%elem_of_cons; [lia|by eapply Hall].
  - destruct Hz as [->|(t' & ids' & ? & ->)]; [by left|right]. exists t', ids'. split; [by right|done].
Qed.

Lemma as_int_small t : t < 2147483648 → as_int t = Z.of_N t.
Proof.
  intros Ht. unfold as_int. rewrite N.mod_small by lia.
  destruct (Z.ltb_spec (Z.of_N t) 2147483648); lia.
Qed.

Lemma as_uint64_small t : t < pow64 → as_uint64 (Z.of_N t) = t.
Proof. intros Ht. unfold as_uint64. rewrite Z.mod_small by lia. lia. Qed.

(** With at most one leader per term, every entry of the map is one of them. *)
Lemma leaders_of_entry states t ids :
  (∀ t, vsize (leading t states) ≤ 1) → leaders_of states !! t = Some ids →
  ∃ st, ids = [ws_id st] ∧ st ∈ states ∧ ws_is_leader st = true ∧ ws_term st = t.
Proof.
  intros Hone [Hne ->]%leaders_of_Some. specialize (Hone t).
  destruct (leading t states) as [|st [|st2 rest]] eqn:Hlead; [done| |].
  - assert (st ∈ leading t states) as Hst by (rewrite Hlead; by left).
    apply list_elem_of_filter in Hst as [[Hl <-] Hst]. by exists st.
  - rewrite !vsize_cons in Hone. lia.
Qed.

Lemma leaders_of_in states st :
  st ∈ states → ws_is_leader st = true → ∃ ids, (ws_term st, ids) ∈ map_to_list (leaders_of states).
Proof.
  intros Hst Hl. eexists. apply elem_of_map_to_list, leaders_of_Some. split; [|done].
  assert (st ∈ leading (ws_term st) states) as H by (by apply list_elem_of_filter).
  intros E. apply fmap_nil_inv in E. rewrite E in H. by apply not_elem_of_nil in H.
Qed.

(** One poll in which no term has two leaders. *)
Lemma judge_leaders_spec states :
  (∀ t, vsize (leading t states) ≤ 1) →
  (∀ st, st ∈ states → ws_is_leader st = true → ws_term st < 2147483648) →
  match judge_leaders states with
  | None => ∀ st, st ∈ states → ws_is_leader st = false
  | Some v => ∃ st, v = Ok (ws_id st) ∧ st ∈ states ∧ ws_is_leader st = true ∧
                    ∀ st', st' ∈ states → ws_is_leader st' = true → ws_term st' ≤ ws_term st
  end.
Proof.
  intros Hone Hsmall.
  assert (∀ t ids, (t, ids) ∈ map_to_list (leaders_of states) →
    as_int t = Z.of_N t ∧ t < 2147483648 ∧
    ∃ st, ids = [ws_id st] ∧ st ∈ states ∧ ws_is_leader st = true ∧ ws_term st = t) as Hkey.
  { intros t ids Ht%elem_of_map_to_list.
    destruct (leaders_of_entry states t ids Hone Ht) as (st & -> & Hst & Hl & <-).
    specialize (Hsmall st Hst Hl). split_and!; [by apply as_int_small|done|by exists st]. }
  destruct (last_term_spec (map_to_list (leaders_of states)) (-1)) as (z & Hz & Hge & Hall & Hcase).
  { intros t ids (_ & _ & st & -> & _)%Hkey. done. }
  unfold judge_leaders. rewrite Hz. case_bool_decide as He.
  { intros st Hst. destruct (ws_is_leader st) eqn:Hl; [|done].
    destruct (leaders_of_in states st Hst Hl) as [ids Hids].
    rewrite He, map_to_list_empty in Hids. by apply not_elem_of_nil in Hids. }
  destruct Hcase as [->|(t & ids & Ht & ->)].
  { apply map_choose in He as (t & ids & Ht%elem_of_map_to_list).
    specialize (Hall t ids Ht). destruct (Hkey t ids Ht) as (E & _). lia. }
  destruct (Hkey t ids Ht) as (E & Hs & st & -> & Hst & Hl & <-).
  rewrite E, as_uint64_small by (unfold pow64; lia).
  apply elem_of_map_to_list in Ht. rewrite Ht. exists st. split_and!; try done.
  intros st' Hst' Hl'. destruct (leaders_of_in states st' Hst' Hl') as [ids' Hids'].
  specialize (Hall _ _ Hids'). destruct (Hkey _ _ Hids') as (E' & _). lia.
Qed.

(** The poll by which [check_one_leader] decides. *)
Definition decided_by (states : list WireState) (v : verdict N) : Prop :=
  ∃ st, v = Ok (ws_id st) ∧ st ∈ states ∧ ws_is_leader st = true ∧
        ∀ st', st' ∈ states → ws_is_leader st' = true → ws_term st' ≤ ws_term st.

(** A poll that [check_one_leader] passes over: no stop signal and no leader. *)
Definition passed_over (poll : bool * list WireState) : Prop :=
  poll.1 = false ∧ ∀ st, st ∈ poll.2 → ws_is_leader st = false.

(** What [check_one_leader] makes of its polls, from number [k] on. *)
Lemma check_leader_loop_spec polls iters : ∀ k,
  (∀ k t, vsize (leading t (polls k).2) ≤ 1) →
  (∀ k st, st ∈ (polls k).2 → ws_term st < 2147483648) →
  let v := check_leader_loop iters polls k in
  (∃ k', (k ≤ k' < k + iters)%nat ∧ (∀ j, (k ≤ j < k')%nat → passed_over (polls j)) ∧
     if (polls k').1 then v = Aborts abort_msg else decided_by (polls k').2 v) ∨
  (v = Aborts abort_msg ∧ ∀ j, (k ≤ j < k + iters)%nat → passed_over (polls j)).
Proof.
  induction iters as [|iters IH]; intros k Hone Hsmall; simpl.
  { right. split; [done|]. lia. }
  destruct (polls k).1 eqn:Hf.
  { left. exists k. rewrite Hf. split_and!; [lia|lia|lia|done]. }
  pose proof (judge_leaders_spec (polls k).2 (Hone k)) as Hj.
  destruct (judge_leaders (polls k).2) as [v|].
  { left. exists k. rewrite Hf. split_and!; [lia|lia|lia|].
    apply Hj. intros st Hst _. by apply (Hsmall k). }
  assert (passed_over (polls k)) as Hk.
  { split; [done|]. apply Hj. intros st Hst _. by apply (Hsmall k). }
  assert (∀ m, (∀ j, (S k ≤ j < m)%nat → passed_over (polls j)) →
    ∀ j, (k ≤ j < m)%nat → passed_over (polls j)) as Hmore.
  { intros m Hm j Hlt. destruct (decide (j = k)) as [->|]; [done|]. apply Hm. lia. }
  destruct (IH (S k) Hone Hsmall) as [(k' & Hk' & Hp & Hd)|[Hv Hp]].
  - left. exists k'. split_and!; [lia|lia|by apply Hmore|done].
  - right. split; [done|]. apply Hmore. intros j Hlt. apply Hp. lia.
Qed.

(** ** Agreement *)

#[local] Instance N_le_dec : RelDecision N.le := N.le_dec.

(** A [std::set] is iterated in increasing order. *)
Definition ids_in_order (s : TestConfig) : list N := merge_sort N.le (elements (raft_ids s)).

Record CommittedCheck := mkCommittedCheck { num : N; committed : string }.

(** The loop of [n_committed]; [logs[id]] creates the log of a new id. *)
Fixpoint count_committed (ids : list N) (i count : N) (data : string) (s : TestConfig)
    : TestConfig * verdict CommittedCheck :=
  match ids with
  | [] => (s, Ok (mkCommittedCheck count data))
  | id :: ids =>
      if negb (bool_decide (default EmptyString (apply_err s !! id) = EmptyString))
      then (fail_test s, Aborts abort_msg)
      else
        let log := default ∅ (logs s !! id) in
        let s := set_logs (<[id := log]> (logs s)) s in
        match log !! i with
        | Some data1 =>
            if (0 <? count) && negb (bool_decide (data = data1))
            then (fail_test s, Aborts abort_msg)
            else count_committed ids i (count +₆₄ 1) data1 s
        | None => count_committed ids i count data s
        end
  end.

Definition n_committed (i : N) (s : TestConfig) : TestConfig * verdict CommittedCheck :=
  count_committed (ids_in_order s) i 0 EmptyString s.

(** [wait]: what it observes at its [k]-th turn is the state that [n_committed] reads,
    the flags after the sleep, and the states of all nodes. *)
Record Glance := mkGlance {
  gl_state : TestConfig;
  gl_flags : bool;
  gl_states : list WireState }.

Definition check_at (index : N) (g : Glance) : verdict CommittedCheck :=
  (n_committed index (gl_state g)).2.

(** The end of [wait], one more [n_committed]. *)
Definition wait_end (index n : N) (g : Glance) : verdict (option string) :=
  match check_at index g with
  | Ok c => if num c <? n then Aborts abort_msg else Ok (Some (committed c))
  | Aborts msg => Aborts msg
  | Undef => Undef
  end.

(** [to] is the next sleep in milliseconds; the second component is the time slept. *)
Fixpoint wait_loop (iters : nat) (index n : N) (start_term : option N) (look : nat → Glance)
    (k : nat) (to slept : N) : verdict (option string) * N :=
  match iters with
  | O => (wait_end index n (look k), slept)
  | S iters =>
      match check_at index (look k) with
      | Ok c =>
          if n <=? num c then (wait_end index n (look (S k)), slept)
          else
            let slept := slept + to in
            if gl_flags (look k) then (Aborts abort_msg, slept)
            else
              let to := if to <? 1000 then to * 2 else to in
              let moved :=
                match start_term with
                | Some t => existsb (λ st, t <? ws_term st) (gl_states (look k))
                | None => false
                end in
              if moved then (Ok None, slept)
              else wait_loop iters index n start_term look (S k) to slept
      | Aborts msg => (Aborts msg, slept)
      | Undef => (Undef, slept)
      end
  end.

Definition wait (index n : N) (start_term : option N) (look : nat → Glance)
    : verdict (option string) * N :=
  wait_loop 30 index n start_term look 0 10 0.

(** [one].  The clock reads milliseconds; every list is what its loop observes, turn by
    turn, and [None] means that it is still running when they end. *)
Record Peek := mkPeek { pk_now : N; pk_state : TestConfig }.

(** The inner loop, started at [t1]: [Ok true] when the agreement is seen. *)
Fixpoint await_agreement (data : string) (expected index t1 : N) (peeks : list Peek)
    : option (verdict bool) :=
  match peeks with
  | [] => None
  | p :: peeks =>
      if pk_now p - t1 <? 5000 then
        match (n_committed index (pk_state p)).2 with
        | Ok c =>
            if (0 <? num c) && (expected <=? num c) && bool_decide (committed c = data)
            then Some (Ok true)
            else await_agreement data expected index t1 peeks
        | Aborts msg => Some (Aborts msg)
        | Undef => Some Undef
        end
      else Some (Ok false)
  end.

Record Round := mkRound {
  rd_now : N;
  rd_proposals : list WireProposal;
  rd_t1 : N;
  rd_peeks : list Peek;
  rd_flags : bool }.

(** The index that the first claimed leader gave the command. *)
Definition accepted_index (ps : list WireProposal) : option N :=
  wp_index <$> head (filter (λ p, wp_is_leader p = true) ps).

Fixpoint one_loop (data : string) (expected : N) (retry : bool) (t0 : N) (rounds : list Round)
    : option (verdict N) :=
  match rounds with
  | [] => None
  | rd :: rounds =>
      if rd_now rd - t0 <? 25000 then
        let again := if rd_flags rd then Some (Aborts abort_msg)
                     else one_loop data expected retry t0 rounds in
        match accepted_index (rd_proposals rd) with
        | Some index =>
            match await_agreement data expected index (rd_t1 rd) (rd_peeks rd) with
            | None => None
            | Some (Ok true) => Some (Ok index)
            | Some (Ok false) => if retry then again else Some (Aborts abort_msg)
            | Some (Aborts msg) => Some (Aborts msg)
            | Some Undef => Some Undef
            end
        | None => again
        end
      else Some (Aborts abort_msg)
  end.

Definition one (data : string) (expected : N) (retry : bool) (t0 : N) (rounds : list Round)
    : option (verdict N) := one_loop data expected retry t0 rounds.

(** ** Faults and helpers *)

(** The request goes to every node before the filter is changed. *)
Definition disconnect (id : N) (ok : N → bool) (world : gmap N RaftWrapper) (ctrl : RaftTestCtrl)
    (s : TestConfig) : option (gmap N RaftWrapper * TestConfig) :=
  if bool_decide (id ∈ raft_ids s) then
    world ← disconnect_nodes [id] ok world ctrl;
    Some (world, set_connected (<[id := false]> (connected s)) s)
  else Some (world, s).

Definition reconnect (id : N) (ok : N → bool) (world : gmap N RaftWrapper) (ctrl : RaftTestCtrl)
    (s : TestConfig) : option (gmap N RaftWrapper * TestConfig) :=
  if bool_decide (id ∈ raft_ids s) then
    world ← reconnect_nodes [id] ok world ctrl;
    Some (world, set_connected (<[id := true]> (connected s)) s)
  else Some (world, s).

Definition disconnect_everyone (ok : N → bool) (world : gmap N RaftWrapper) (ctrl : RaftTestCtrl)
    (s : TestConfig) : option (gmap N RaftWrapper * TestConfig) :=
  world ← disconnect_nodes (ids_in_order s) ok world ctrl;
  Some (world, set_connected (set_fold (λ id m, <[id := false]> m) (connected s) (raft_ids s)) s).

Definition reconnect_everyone (ok : N → bool) (world : gmap N RaftWrapper) (ctrl : RaftTestCtrl)
    (s : TestConfig) : option (gmap N RaftWrapper * TestConfig) :=
  world ← reconnect_nodes (ids_in_order s) ok world ctrl;
  Some (world, set_connected (set_fold (λ id m, <[id := true]> m) (connected s) (raft_ids s)) s).

(** [propose]: [value()] of an empty optional throws. *)
Definition test_propose (id : N) (Propose : N → option WireProposal) (ctrl : RaftTestCtrl)
    (s : TestConfig) : verdict ProposalResult :=
  if bool_decide (id ∈ raft_ids s) then
    match propose_to_one id Propose ctrl with
    | Some r => Ok (mkProposalResult (wp_index r) (wp_term r) (wp_is_leader r))
    | None => Aborts "bad_optional_access"
    end
  else Aborts "server not found".

(** [cleanup], once the timeout thread is joined. *)
Definition cleanup (rpc : nat → N → bool) (alive1 alive2 : gset N) (ctrl : RaftTestCtrl)
    (s : TestConfig) : TestConfig * (RaftTestCtrl * nat * list N) :=
  (stop_test s, kill_all rpc alive1 alive2 ctrl).

(** [shuffle] stands for [std::shuffle] with a random generator. *)
Definition pick_n_servers (shuffle : list N → list N) (n : N) (exclude : gset N) (s : TestConfig)
    : list N :=
  take (N.to_nat n) (shuffle (filter (λ id, id ∉ exclude) (ids_in_order s))).

(** One turn of [check_timeout] at time [elapsed] (seconds since the start): the state,
    and whether the thread goes on. *)
Definition kTEST_TIMEOUT : N := 300.

Definition check_timeout_turn (elapsed : N) (s : TestConfig) : TestConfig * bool :=
  if stop_ s then (s, false)
  else if failed s then (stop_test s, false)
  else if kTEST_TIMEOUT <? elapsed then (fail_test s, false)
  else (s, true).

(** ** What the agreement checks report *)

(** What node [id] has applied at index [i]. *)
Definition value_at (s : TestConfig) (i id : N) : option string := log ← logs s !! id; log !! i.

Lemma agree_values s :
  agree (logs s) → ∀ i j j' d e, value_at s i j = Some d → value_at s i j' = Some e → d = e.
Proof.
  intros Ha i j j' d e Hd He. unfold value_at in *. undo_bind. by eapply (Ha j j').
Qed.

Lemma value_touch s id i j :
  value_at (set_logs (<[id := default ∅ (logs s !! id)]> (logs s)) s) i j = value_at s i j.
Proof.
  unfold value_at. simpl. rewrite lookup_insert. case_decide as Hd; [|done]. subst j.
  by destruct (logs s !! id).
Qed.

Lemma value_lookup s id i : default ∅ (logs s !! id) !! i = value_at s i id.
Proof. unfold value_at. by destruct (logs s !! id). Qed.

(** The nodes of a list that have applied index [i]. *)
Definition having (s : TestConfig) (i : N) (ids : list N) : list N :=
  filter (λ id, is_Some (value_at s i id)) ids.

Lemma having_cons s i id ids :
  vsize (having s i (id :: ids)) =
  match value_at s i id with Some _ => 1 | None => 0 end + vsize (having s i ids).
Proof.
  unfold having. rewrite filter_cons. destruct (value_at s i id) as [d|].
  - rewrite decide_True by eauto. apply vsize_cons.
  - rewrite decide_False by (by intros [? ?]). lia.
Qed.

Lemma count_committed_spec i ids : ∀ count data s,
  (∀ id, default EmptyString (apply_err s !! id) = EmptyString) →
  (∀ j j' d e, value_at s i j = Some d → value_at s i j' = Some e → d = e) →
  (count = 0 ∨ ∃ j, value_at s i j = Some data) → count + vsize ids < pow64 →
  ∃ s' d, count_committed ids i count data s =
            (s', Ok (mkCommittedCheck (count + vsize (having s i ids)) d)) ∧
          (count + vsize (having s i ids) = 0 ∨ ∃ j, value_at s i j = Some d) ∧
          (∀ k id, value_at s' k id = value_at s k id) ∧ stop_ s' = stop_ s ∧ failed s' = failed s.
Proof.
  induction ids as [|id ids IH]; intros count data s He Ha Hc Hlen; cbn [count_committed].
  { exists s, data. change (vsize (having s i [])) with 0. rewrite N.add_0_r. by split_and!. }
  rewrite vsize_cons in Hlen. rewrite bool_decide_eq_true_2 by done. cbn [negb].
  rewrite value_lookup. set (s1 := set_logs _ s).
  assert (∀ k j, value_at s1 k j = value_at s k j) as Hv by (intros; apply value_touch).
  assert (∀ c, having s1 i c = having s i c) as Hh
    by (intros c; unfold having; apply list_filter_iff; intros j; by rewrite Hv).
  assert (∀ s' : TestConfig, (∀ k j, value_at s' k j = value_at s1 k j) →
            ∀ k j, value_at s' k j = value_at s k j) as Ht by (intros s' H k j; by rewrite H, Hv).
  destruct (value_at s i id) as [d1|] eqn:Hd1.
  - assert ((0 <? count) && negb (bool_decide (data = d1)) = false) as ->.
    { destruct Hc as [->|(j & Hj)]; [done|]. rewrite (Ha j id data d1) by done.
      by rewrite bool_decide_eq_true_2, andb_false_r by done. }
    rewrite add64_small by lia.
    destruct (IH (count + 1) d1 s1) as (s' & d & -> & Hd & Hs' & ? & ?); try done.
    { intros j j'. rewrite !Hv. apply Ha. }
    { right. exists id. by rewrite Hv. }
    { lia. }
    exists s', d. rewrite Hh in *. rewrite having_cons, Hd1, N.add_assoc.
    split_and!; try done; [|by apply Ht]. right. destruct Hd as [|(j & Hj)]; [lia|].
    exists j. by rewrite <- Hv.
  - destruct (IH count data s1) as (s' & d & -> & Hd & Hs' & ? & ?); try done.
    { intros j j'. rewrite !Hv. apply Ha. }
    { destruct Hc as [|(j & Hj)]; [by left|right]. exists j. by rewrite Hv. }
    { lia. }
    exists s', d. rewrite Hh in *. rewrite having_cons, Hd1, N.add_0_l.
    split_and!; try done; [|by apply Ht]. destruct Hd as [|(j & Hj)]; [by left|right].
    exists j. by rewrite <- Hv.
Qed.

Lemma ids_in_order_perm s : ids_in_order s ≡ₚ elements (raft_ids s).
Proof. apply merge_sort_Permutation. Qed.

(** [n_committed] counts: when no error was reported and the nodes agree, it returns
    how many members have applied the index, and the value they applied, and leaves the
    test running. *)
Lemma n_committed_spec i s :
  (∀ id, default EmptyString (apply_err s !! id) = EmptyString) → agree (logs s) →
  N.of_nat (size (raft_ids s)) < pow64 →
  ∃ s' c, n_committed i s = (s', Ok c) ∧ failed s' = failed s ∧ stop_ s' = stop_ s ∧
    num c = N.of_nat (size (filter (λ id, is_Some (value_at s i id)) (raft_ids s))) ∧
    ∀ id d, id ∈ raft_ids s → value_at s i id = Some d → committed c = d.
Proof.
  intros He Ha Hsz. unfold n_committed.
  destruct (count_committed_spec i (ids_in_order s) 0 EmptyString s)
    as (s' & d & -> & Hd & _ & Hs & Hf); [done|by apply agree_values|by left| |].
  { unfold vsize. rewrite ids_in_order_perm. simpl. done. }
  assert (vsize (having s i (ids_in_order s)) =
          N.of_nat (size (filter (λ id, is_Some (value_at s i id)) (raft_ids s)))) as Hn.
  { unfold vsize, having. f_equal. rewrite ids_in_order_perm.
    rewrite <- (size_list_to_set (C := gset N)).
    - done.
    - apply NoDup_filter, NoDup_elements. }
  eexists _, _. split_and!; [done..|by rewrite Hn|]. simpl. intros id e Hid Hv.
  destruct Hd as [Hz|(j & Hj)]; [|by eapply agree_values].
  assert (id ∈ having s i (ids_in_order s)) as Hin.
  { apply list_elem_of_filter. split; [by eexists|]. rewrite ids_in_order_perm.
    by apply elem_of_elements. }
  destruct (having s i (ids_in_order s)); [by apply not_elem_of_nil in Hin|].
  rewrite vsize_cons in Hz. lia.
Qed.

(** The time that the remaining turns of [wait] can sleep. *)
Fixpoint sleep_budget (iters : nat) (to : N) : N :=
  match iters with
  | O => 0
  | S iters => to + sleep_budget iters (if to <? 1000 then to * 2 else to)
  end.

Definition wait_outcome (index n : N) (start_term : option N) (look : nat → Glance)
    (v : verdict (option string)) : Prop :=
  match v with
  | Ok (Some d) => ∃ k c, check_at index (look k) = Ok c ∧ n ≤ num c ∧ committed c = d
  | Ok None => ∃ k t st, start_term = Some t ∧ st ∈ gl_states (look k) ∧ t < ws_term st
  | _ => True
  end.

Lemma wait_end_outcome index n start_term look k :
  wait_outcome index n start_term look (wait_end index n (look k)).
Proof.
  unfold wait_end. destruct (check_at index (look k)) as [c| |] eqn:Hc; simpl; try done.
  destruct (N.ltb_spec (num c) n); [done|]. by exists k, c.
Qed.

Lemma wait_loop_spec index n start_term look iters : ∀ k to slept,
  let '(v, t) := wait_loop iters index n start_term look k to slept in
  t ≤ slept + sleep_budget iters to ∧ wait_outcome index n start_term look v.
Proof.
  induction iters as [|iters IH]; intros k to slept; simpl.
  { split; [lia|]. apply wait_end_outcome. }
  destruct (check_at index (look k)) as [c| |]; [|split; [lia|done]..].
  destruct (n <=? num c); [split; [lia|apply wait_end_outcome]|].
  destruct (gl_flags (look k)); [split; [lia|done]|].
  destruct (match start_term with Some t => _ | None => _ end) eqn:Hm.
  - split; [lia|]. destruct start_term as [t|]; [|done].
    apply existsb_exists in Hm as (st & Hst%list_elem_of_In & Hlt%N.ltb_lt). by exists k, t, st.
  - specialize (IH (S k) (if to <? 1000 then to * 2 else to) (slept + to)).
    destruct (wait_loop _ _ _ _ _ _ _ _). destruct IH as [Ht Hv]. split; [lia|done].
Qed.

(** [wait] gives up: it sleeps for at most 30.71 seconds; a value that it returns was
    applied by at least [n] members when it looked, and it returns none only after a
    node has moved to a later term. *)
Lemma wait_spec index n start_term look :
  let '(v, slept) := wait index n start_term look in
  slept ≤ 30710 ∧ wait_outcome index n start_term look v.
Proof. apply (wait_loop_spec index n start_term look 30 0 10 0). Qed.

Lemma await_spec data expected index t1 peeks :
  match await_agreement data expected index t1 peeks with
  | Some (Ok true) => ∃ p c, p ∈ peeks ∧ (n_committed index (pk_state p)).2 = Ok c ∧
                             0 < num c ∧ expected ≤ num c ∧ committed c = data
  | None => ∀ p, p ∈ peeks → pk_now p < t1 + 5000
  | _ => True
  end.
Proof.
  induction peeks as [|p peeks IH]; simpl; [by intros p ?%not_elem_of_nil|].
  destruct (N.ltb_spec (pk_now p - t1) 5000) as [Hlt|]; [|done].
  destruct (n_committed index (pk_state p)).2 as [c| |] eqn:Hc; [|done..].
  destruct ((0 <? num c) && (expected <=? num c) && bool_decide (committed c = data)) eqn:Hb.
  { bool_to_prop. apply bool_decide_eq_true in H0. exists p, c. split; [by left|done]. }
  destruct (await_agreement data expected index t1 peeks) as [[[]| |]|]; try done.
  - destruct IH as (q & c' & ? & ?). exists q, c'. split; [by right|done].
  - intros q [->|Hq]%elem_of_cons; [lia|by apply IH].
Qed.

(** [one]: an index that it returns was given to the command by a node that claimed
    to lead, and that index was then seen applied with this very command by at least
    the expected number of members; and it returns whenever the clock passes the limits
    of its two loops. *)
Lemma one_spec data expected retry t0 rounds :
  match one data expected retry t0 rounds with
  | Some (Ok index) =>
      ∃ rd p c, rd ∈ rounds ∧ accepted_index (rd_proposals rd) = Some index ∧
        p ∈ rd_peeks rd ∧ (n_committed index (pk_state p)).2 = Ok c ∧
        0 < num c ∧ expected ≤ num c ∧ committed c = data
  | Some _ => True
  | None => (∀ rd, rd ∈ rounds → rd_now rd < t0 + 25000) ∨
            ∃ rd, rd ∈ rounds ∧ ∀ p, p ∈ rd_peeks rd → pk_now p < rd_t1 rd + 5000
  end.
Proof.
  unfold one. induction rounds as [|rd rounds IH]; simpl.
  { left. by intros rd ?%not_elem_of_nil. }
  destruct (N.ltb_spec (rd_now rd - t0) 25000) as [Hlt|]; [|done].
  set (again := if rd_flags rd then Some (Aborts abort_msg) else one_loop data expected retry t0 rounds).
  assert (match again with
    | Some (Ok index) =>
        ∃ rd' p c, rd' ∈ rd :: rounds ∧ accepted_index (rd_proposals rd') = Some index ∧
          p ∈ rd_peeks rd' ∧ (n_committed index (pk_state p)).2 = Ok c ∧
          0 < num c ∧ expected ≤ num c ∧ committed c = data
    | Some _ => True
    | None => (∀ rd', rd' ∈ rd :: rounds → rd_now rd' < t0 + 25000) ∨
              ∃ rd', rd' ∈ rd :: rounds ∧ ∀ p, p ∈ rd_peeks rd' → pk_now p < rd_t1 rd' + 5000
    end) as Hagain.
  { unfold again. destruct (rd_flags rd); [done|].
    destruct (one_loop data expected retry t0 rounds) as [[index| |]|]; try done.
    - destruct IH as (rd' & p & c & ? & ?). exists rd', p, c. split; [by right|done].
    - destruct IH as [IH|(rd' & ? & ?)]; [left|right].
      + intros rd' [->|Hr]%elem_of_cons; [lia|by apply IH].
      + exists rd'. split; [by right|done]. }
  destruct (accepted_index (rd_proposals rd)) as [index|] eqn:Hidx; [|done].
  pose proof (await_spec data expected index (rd_t1 rd) (rd_peeks rd)) as Haw.
  destruct (await_agreement data expected index (rd_t1 rd) (rd_peeks rd)) as [[[]| |]|]; try done.
  - destruct Haw as (p & c & ? & ?). exists rd, p, c. split; [by left|done].
  - by destruct retry.
  - right. exists rd. split; [by left|done].
Qed.

(** ** Instances *)

Definition two_configs : list Config := [mkConfig 0 "" ∅; mkConfig 1 "" ∅].

(** Reading and handling one result on the stream of node [i]. *)
Definition digest (i : N) (m : ApplyResult) : list clabel :=
  [CRead i m; CHandle i; CHandle i; CHandle i].

Definition digest_a : list clabel :=
  digest 0 (mkApplyResult true "a" 1) ++ digest 1 (mkApplyResult true "a" 1).

Lemma no_alarm_now c :
  failed (tc c) = false → handlers c = ∅ → ¬ alarm c.
Proof. intros Hf Hh [?|(i & e & Hi)]; [congruence|]. by rewrite Hh, lookup_empty in Hi. Qed.

Lemma oracle_sound_witness :
  ∃ c, crun digest_a (collect two_configs) = Some c ∧
       logs (tc c) !! 1 = Some {[1 := "a"%string]} ∧
       (agree (logs (tc c)) ∧ gapless (logs (tc c))).
Proof.
  eexists. split; [vm_compute; reflexivity|]. split; [reflexivity|].
  eapply (oracle_sound two_configs digest_a); [|vm_compute; reflexivity|].
  - repeat constructor.
  - apply no_alarm_now; reflexivity.
Defined.

Lemma n_committed_spec_witness :
  ∃ c, crun digest_a (collect two_configs) = Some c ∧
    ∃ s' k, n_committed 1 (tc c) = (s', Ok k) ∧
            failed s' = false ∧ num k = 2 ∧ committed k = "a"%string.
Proof.
  eexists. split; [vm_compute; reflexivity|].
  match goal with |- ∃ s' k, n_committed 1 (tc ?c) = _ ∧ _ =>
    destruct (n_committed_spec 1 (tc c)) as (s' & k & Hk & Hf & _ & Hn & Hv) end.
  - intros id. simpl. destruct (_ !! id) eqn:Hid; [|reflexivity].
    apply elem_of_map_to_list, list_elem_of_In in Hid. vm_compute in Hid.
    destruct Hid as [Hid|[Hid|[]]]; injection Hid as <- <-; reflexivity.
  - intros i j li lj x d e Hi Hj.
    apply elem_of_map_to_list, list_elem_of_In in Hi, Hj. vm_compute in Hi, Hj.
    destruct Hi as [Hi|[Hi|[]]], Hj as [Hj|[Hj|[]]]; injection Hi as <- <-; injection Hj as <- <-;
      congruence.
  - vm_compute. reflexivity.
  - exists s', k. split; [exact Hk|]. split; [exact Hf|]. split; [rewrite Hn; vm_compute; reflexivity|].
    apply (Hv 0); [apply (bool_decide_unpack _); vm_compute; exact I|vm_compute; reflexivity].
Defined.

(** A term of [2^31] or more does not fit the [int] of [check_one_leader]: with one
    leader in such a term it takes the front of an empty vector. *)
Lemma leader_term_overflow : judge_leaders [mkWireState 2147483648 true 7] = Some Undef.
Proof. vm_compute. reflexivity. Qed.
