(* ===== verification/Watchdog.v ===== *)
(** The timeout thread of the test configuration ([MultiprocTestConfig::check_timeout] in
    [inc/toolings/test_config.hpp]), which a test starts in [begin], and how [cleanup] joins
    it.

    A step of the thread is one look at the shared flags; between two steps the other
    threads do what they like with the configuration ([TestConfig.v]). *)
From S2P Require Import Prelude Types ConfigGen RaftState RaftNode Cluster NetInterceptor.
From S2P Require Import KvCodec NodeApp Wrapper TestCtrl TestConfig.

#[local] Open Scope N_scope.

(** ** The thread *)

(** About to look at everything; [Nap n]: in the inner loop with [n] naps to go. *)
Inductive watch := Look | Nap (n : nat) | Ended.

Definition naps : nat := 10.

(** One turn, at [elapsed] seconds since the start; a nap takes 100 ms before its look. *)
Definition check_timeout_step (elapsed : N) (w : watch) (s : TestConfig) : watch * TestConfig :=
  match w with
  | Look =>
      let '(s, go_on) := check_timeout_turn elapsed s in
      (if (go_on : bool) then Nap naps else Ended, s)
  | Nap (S n) => (if stop_ s then Ended else match n with O => Look | _ => Nap n end, s)
  | Nap O => (Look, s)
  | Ended => (Ended, s)
  end.

(** The thread with the others in between: each item is the time of a look and what the
    others did before it. *)
Fixpoint watch_run (es : list (N * (TestConfig → TestConfig))) (w : watch) (s : TestConfig)
    : watch * TestConfig :=
  match es with
  | [] => (w, s)
  | (elapsed, others) :: es =>
      let '(w, s) := check_timeout_step elapsed w (others s) in watch_run es w s
  end.

Lemma watch_run_app es es' w s :
  watch_run (es ++ es') w s = let '(w, s) := watch_run es w s in watch_run es' w s.
Proof.
  revert w s. induction es as [|[t f] es IH]; intros w s; [done|]. simpl.
  by destruct (check_timeout_step t w (f s)).
Qed.

(** Naps are never exhausted between two looks. *)
Definition awake_watch (w : watch) : Prop := w ≠ Nap 0.

Lemma step_awake t w s : awake_watch w → awake_watch (check_timeout_step t w s).1.
Proof.
  intros Hw. destruct w as [|[|n]|]; simpl; try done.
  - unfold check_timeout_turn. repeat case_match; by simplify_eq.
  - destruct (stop_ s), n; done.
Qed.

Lemma ended_stays es s : (watch_run es Ended s).1 = Ended.
Proof. revert s. induction es as [|[t f] es IH]; intros s; simpl; [done|apply IH]. Qed.

(** ** The thread ends *)

(** The first look at a stop signal that stays ends the thread: within 100 ms. *)
Lemma stop_ends t w s : awake_watch w → stop_ s = true → (check_timeout_step t w s).1 = Ended.
Proof.
  intros Hw Hs. destruct w as [|[|n]|]; simpl; try done; [|by rewrite Hs].
  unfold check_timeout_turn. by rewrite Hs.
Qed.

(** A round: a look, and the looks of the naps. *)
Lemma watch_round_ends e es s :
  length es = naps →
  (watch_run (e :: es) Look s).1 = Look ∨ (watch_run (e :: es) Look s).1 = Ended.
Proof.
  intros Hlen. destruct e as [t f]. simpl. unfold check_timeout_turn.
  assert (∀ n es s, length es = S n →
    (watch_run es (Nap (S n)) s).1 = Look ∨ (watch_run es (Nap (S n)) s).1 = Ended) as Hnap.
  { clear. induction n as [|n IH]; intros [|[t f] es] s Hl; simplify_eq/=.
    - destruct es; [|done]. simpl. destruct (stop_ (f s)); simpl; auto.
    - destruct (stop_ (f s)); [right; apply ended_stays|by apply IH]. }
  repeat case_match; simplify_eq; try (right; apply ended_stays). by apply Hnap.
Qed.

(** A look after the time limit ends the thread. *)
Lemma late_round_ends t f es s : kTEST_TIMEOUT < t → (watch_run ((t, f) :: es) Look s).1 = Ended.
Proof.
  intros Ht. simpl. unfold check_timeout_turn. apply N.ltb_lt in Ht. rewrite Ht.
  destruct (stop_ (f s)), (failed (f s)); apply ended_stays.
Qed.

(** Round [k] begins when [k] seconds have passed. *)
Definition paced (rounds : list (list (N * (TestConfig → TestConfig)))) : Prop :=
  ∀ k b, rounds !! k = Some b → ∃ t f es, b = (t, f) :: es ∧ length es = naps ∧ N.of_nat k ≤ t.

(** However the other threads interfere, the thread has ended after the time limit. *)
Lemma watchdog_ends rounds s :
  paced rounds → kTEST_TIMEOUT + 1 < vsize rounds → (watch_run (mjoin rounds) Look s).1 = Ended.
Proof.
  intros Hp Hlen. set (k := N.to_nat (kTEST_TIMEOUT + 1)).
  assert (∀ rs s, (∀ b, b ∈ rs → ∃ e es, b = e :: es ∧ length es = naps) →
    (watch_run (mjoin rs) Look s).1 = Look ∨ (watch_run (mjoin rs) Look s).1 = Ended) as Hrounds.
  { clear. induction rs as [|b rs IH]; intros s Hb; [by left|]. simpl. rewrite watch_run_app.
    destruct (Hb b) as (e & es & -> & Hl); [by left|].
    pose proof (watch_round_ends e es s Hl) as Hr. revert Hr.
    destruct (watch_run (e :: es) Look s) as [w s']. simpl. intros Hr.
    destruct Hr as [-> | ->]; [apply IH; set_solver|right; apply ended_stays]. }
  destruct (lookup_lt_is_Some_2 rounds k) as [b Hb]; [unfold vsize in Hlen; lia|].
  rewrite <- (take_drop_middle _ _ _ Hb), join_app, watch_run_app.
  destruct (Hrounds (take k rounds) s) as [Hl|He].
  { intros b' Hin. apply list_elem_of_lookup in Hin as (i & [Hi _]%lookup_take_Some).
    destruct (Hp i b' Hi) as (t & f & es & -> & ? & _). eauto. }
  - destruct (watch_run (mjoin (take k rounds)) Look s) as [w s']. simpl in Hl. subst w.
    destruct (Hp k b Hb) as (t & f & es & -> & Hes & Ht). simpl.
    apply (late_round_ends t f (es ++ mjoin (drop (S k) rounds)) s'). lia.
  - destruct (watch_run (mjoin (take k rounds)) Look s) as [w s']. simpl in He. subst w. apply ended_stays.
Qed.

(** Only the time limit makes the thread fail a test. *)
Lemma watchdog_fails t w s :
  failed (check_timeout_step t w s).2 = true → failed s = true ∨ kTEST_TIMEOUT < t.
Proof.
  destruct w as [|[|n]|]; simpl; try (by left). unfold check_timeout_turn.
  destruct (stop_ s); [by left|]. destruct (failed s) eqn:Hf; [by left|].
  destruct (kTEST_TIMEOUT <? t) eqn:Ht; simpl; [|by left; congruence]. right. by apply N.ltb_lt.
Qed.

(** ** Joining the thread *)

(** The loop of [cleanup] at times [now k] after its start (in ms), from round [k] on:
    [joinable] is that of the thread object, which only [join] changes. *)
Fixpoint join_loop (joinable : bool) (now : nat → N) (k fuel : nat) : option nat :=
  match fuel with
  | O => None
  | S fuel =>
      if now k <? 3000 then if joinable then join_loop joinable now (S k) fuel else Some (S k)
      else Some k
  end.

(** A thread that has a handle stays joinable after it has ended: the loop is never left
    before its three seconds are over, and then it is. *)
Lemma join_loop_waits now fuel :
  (∀ k, now k + 100 ≤ now (S k)) → (30 < fuel)%nat →
  ∃ k, join_loop true now 0 fuel = Some k ∧ 3000 ≤ now k ∧ ∀ j, (j < k)%nat → now j < 3000.
Proof.
  intros Hnow Hfuel.
  assert (∀ k, N.of_nat k * 100 ≤ now k) as Hpace.
  { induction k as [|k IH]; [lia|]. specialize (Hnow k). lia. }
  assert (∀ fuel k, (30 < fuel + k)%nat → (∀ j, (j < k)%nat → now j < 3000) →
    ∃ k', join_loop true now k fuel = Some k' ∧ 3000 ≤ now k' ∧ ∀ j, (j < k')%nat → now j < 3000) as H.
  { clear fuel Hfuel. induction fuel as [|fuel IH]; intros k Hf Hj.
    - specialize (Hj 30%nat ltac:(lia)). specialize (Hpace 30%nat). lia.
    - simpl. destruct (now k <? 3000) eqn:Hk; bool_to_prop; [|by exists k].
      apply IH; [lia|]. intros j Hlt. destruct (decide (j = k)) as [->|]; [done|]. apply Hj. lia. }
  apply (H fuel 0%nat); lia.
Qed.
