(* ===== verification/Oracle.v ===== *)
(** The program before its own oracle: the consistency check of the integration tests
    ([TestConfig.v]) raises no alarm on the results of a disciplined execution
    ([Replication.v]) that reach it in sequence, and its election check never sees two
    leaders of one term. *)
From S2P Require Import Prelude Types ConfigGen RaftState RaftNode RaftNodeFacts Cluster RaftSpec.
From S2P Require Import Refinement RefinementSteps Simulation LogSpec LogInv LogSafety.
From S2P Require Import Races Safety Replication NetInterceptor NodeApp Wrapper TestCtrl TestConfig.

#[local] Open Scope N_scope.

Section honest.
(** What node [i] may stream: results on which all nodes agree. *)
Context (P : N → ApplyResult → Prop).
Context (HP : ∀ i j a b, P i a → P j b → index a = index b → data a = data b).

Definition read_so_far (c : collector) (i : N) : N := vsize (default [] (received c !! i)).

(** The streams are read in sequence and carry such results. *)
Definition honest (l : clabel) (c : collector) : Prop :=
  match l with
  | CRead i m => valid m = true ∧ P i m ∧ index m = read_so_far c i + 1 ∧ index m < pow64
  | CHandle _ | CStop => True
  | CFail => False
  end.

Inductive fed (configs : list Config) : collector → Prop :=
| fed_init : fed configs (collect configs)
| fed_step l c c' : fed configs c → honest l c → cstep l c = Some c' → fed configs c'.

(** A schedule of such steps. *)
Fixpoint honest_run (ls : list clabel) (c : collector) : Prop :=
  match ls with
  | [] => True
  | l :: ls => honest l c ∧ match cstep l c with Some c' => honest_run ls c' | None => True end
  end.

Lemma fed_crun configs ls : ∀ c c',
  fed configs c → honest_run ls c → crun ls c = Some c' → fed configs c'.
Proof.
  induction ls as [|l ls IH]; intros c c' Hc Hh Hrun; simpl in Hh, Hrun; [by simplify_eq|].
  destruct Hh as [Hl Hh]. destruct (cstep l c) as [c1|] eqn:Hs; [|done].
  eapply IH; [|done|done]. by eapply fed_step.
Qed.

(** Node [i] has all indices up to [n]. *)
Definition has_all (s : TestConfig) (i n : N) : Prop :=
  ∀ k, 1 ≤ k ≤ n → ∃ li, logs s !! i = Some li ∧ is_Some (li !! k).

Definition reader_inv (s : TestConfig) (i n : N) (k : option handler) : Prop :=
  match k with
  | None => has_all s i n ∨ accepting i s = false
  | Some (HFirst m) | Some (HSecond m) =>
      (valid m = true ∧ P i m ∧ index m = n ∧ 1 ≤ n < pow64) ∧
      (has_all s i (n - 1) ∨ accepting i s = false)
  | Some (HCheck m) =>
      (valid m = true ∧ P i m ∧ index m = n ∧ 1 ≤ n < pow64) ∧ has_all s i (n - 1)
  | Some (HReport _) => False
  end.

Record fed_inv (c : collector) : Prop := {
  fi_failed : failed (tc c) = false;
  fi_content : ∀ j lj k d, logs (tc c) !! j = Some lj → lj !! k = Some d →
    ∃ a, P j a ∧ index a = k ∧ data a = d;
  fi_handlers : ∀ i, reader_inv (tc c) i (read_so_far c i) (handlers c !! i) }.

Lemma accepting_stopped i s s' :
  failed s' = failed s → raft_stopped s' = raft_stopped s → (stop_ s = true → stop_ s' = true) →
  accepting i s = false → accepting i s' = false.
Proof.
  unfold accepting. rewrite !negb_false_iff. intros -> -> Hs H.
  apply orb_true_iff in H as [H| ->]; [|by rewrite orb_true_r].
  apply orb_true_iff in H as [H| ->]; [by rewrite (Hs H)|]. by rewrite orb_true_r.
Qed.

Lemma reader_inv_mono s s' i n k :
  failed s' = failed s → raft_stopped s' = raft_stopped s → (stop_ s = true → stop_ s' = true) →
  (∀ m, has_all s i m → has_all s' i m) → reader_inv s i n k → reader_inv s' i n k.
Proof.
  intros Hf Hr Hs Hc. pose proof (accepting_stopped i s s' Hf Hr Hs) as Ha.
  destruct k as [[m|m|m|e]|]; simpl; naive_solver.
Qed.

(** Passing a guard means that nothing was dropped before. *)
Lemma guard_passed s i n : has_all s i n ∨ accepting i s = false → accepting i s = true →
  has_all s i n.
Proof. intros [|] ?; [done|congruence]. Qed.

Lemma record_complete s s' i m j n :
  logs s' = record_result i m (logs s) → has_all s j n → has_all s' j n.
Proof.
  intros Hl Hc k Hk. destruct (Hc k Hk) as (l0 & Hl0 & Hs). rewrite Hl.
  by eapply record_keeps.
Qed.

(** The check of a result in its turn finds nothing. *)
Lemma check_quiet c i m n :
  fed_inv c → valid m = true → P i m → index m = n → 1 ≤ n < pow64 →
  has_all (tc c) i (n - 1) →
  let '(s', k') := applier_step i (HCheck m) (tc c) in
  k' = None ∧ logs s' = record_result i m (logs (tc c)) ∧ has_all s' i n ∧
  stop_ s' = stop_ (tc c) ∧ failed s' = failed (tc c) ∧ raft_stopped s' = raft_stopped (tc c).
Proof using HP.
  intros Hinv Hv Hm Hn Hr Hc. unfold applier_step.
  pose proof (check_logs_spec i m (tc c)) as Hs.
  destruct (check_logs i m (tc c)) as [s' [err ok]]. destruct Hs as (Hl & He & Hp & ? & ? & ?).
  assert (err = EmptyString) as ->.
  { apply He. intros j lj w Hj Hw. destruct (fi_content c Hinv _ _ _ _ Hj Hw) as (a & Ha & Hi & <-).
    by apply (HP j i). }
  assert ((1 <? index m) && negb ok = false) as ->.
  { destruct (N.ltb_spec 1 (index m)) as [Hlt|]; [|done]. simpl. apply negb_false_iff, Hp.
    rewrite sub64_small by lia. apply Hc. lia. }
  split_and!; try done. intros k Hk. destruct (decide (k = n)) as [->|Hne].
  - rewrite Hl, lookup_insert_eq. eexists. split; [done|]. by rewrite Hn, lookup_insert_eq.
  - destruct (Hc k) as (l0 & Hl0 & Hk0); [lia|]. rewrite Hl.
    by apply (record_keeps i m (logs (tc c)) i l0).
Qed.

(** One handler moves; the others do not see it. *)
Lemma fed_inv_moves c s i k' :
  fed_inv c → failed s = failed (tc c) → raft_stopped s = raft_stopped (tc c) →
  (stop_ (tc c) = true → stop_ s = true) →
  (∀ j lj k d, logs s !! j = Some lj → lj !! k = Some d → ∃ a, P j a ∧ index a = k ∧ data a = d) →
  (∀ j m, has_all (tc c) j m → has_all s j m) →
  reader_inv s i (read_so_far c i) k' →
  fed_inv (mkCollector s (partial_alter (λ _, k') i (handlers c)) (received c)).
Proof.
  intros [Hf _ Hh] Ef Er Es Hc Hk Hk'. split; simpl; [congruence|done|].
  intros j. unfold read_so_far. simpl. destruct (decide (j = i)) as [->|Hne].
  - by rewrite lookup_partial_alter_eq.
  - rewrite lookup_partial_alter_ne by done. eapply reader_inv_mono; [..|apply Hh]; auto.
Qed.

Lemma fed_inv_handle c i k :
  fed_inv c → handlers c !! i = Some k →
  let '(s, k') := applier_step i k (tc c) in
  fed_inv (mkCollector s (partial_alter (λ _, k') i (handlers c)) (received c)).
Proof using HP.
  intros Hinv Hi. pose proof (fi_handlers c Hinv i) as Hh. rewrite Hi in Hh.
  destruct k as [m|m|m|e]; simpl in Hh; [..|done].
  - apply (fed_inv_moves c (tc c)); try done; [apply Hinv|].
    destruct (accepting i (tc c)) eqn:Ha in |- *; [done|]. by right.
  - destruct Hh as ((Hv & Hm & Hn & Hr) & Hc).
    apply (fed_inv_moves c (tc c)); try done; [apply Hinv|].
    destruct (accepting i (tc c)) eqn:Ha in |- *; [|by right]. rewrite Hv.
    split; [done|]. by eapply guard_passed.
  - destruct Hh as ((Hv & Hm & Hn & Hr) & Hc).
    pose proof (check_quiet c i m _ Hinv Hv Hm Hn Hr Hc) as Hq.
    destruct (applier_step i (HCheck m) (tc c)) as [s k'].
    destruct Hq as (-> & Hl & Hall & Es & Ef & Er).
    apply (fed_inv_moves c s); try done; [congruence| | |by left].
    + intros j lj k d Hj Hd. rewrite Hl in Hj.
      destruct (record_lookup _ _ _ _ _ _ _ Hj Hd) as [(-> & -> & ->)|(l0 & Hl0 & Hd0)]; [by eauto|].
      by apply (fi_content c Hinv j l0).
    + intros j k Hk. by eapply record_complete.
Qed.

Lemma fed_inv_step l c c' : fed_inv c → honest l c → cstep l c = Some c' → fed_inv c'.
Proof using HP.
  intros Hinv Hl Hstep. destruct l as [i m|i| |]; simpl in Hstep, Hl; [..|done].
  - destruct (handlers c !! i) eqn:Hi; [done|]. simplify_eq.
    destruct Hl as (Hv & Hm & Hn & Hr). pose proof (fi_handlers c Hinv i) as Hh. rewrite Hi in Hh.
    destruct Hinv as [Hf Hc Hhs]. split; [done|done|]. intros j. unfold read_so_far in *. simpl.
    destruct (decide (j = i)) as [->|Hne].
    + rewrite !lookup_insert_eq. simpl. rewrite vsize_app, vsize_cons, vsize_nil. simpl.
      replace (vsize _ + 1 - 1) with (vsize (default [] (received c !! i))) by lia.
      split; [|done]. split_and!; try done; lia.
    + by rewrite !lookup_insert_ne by done.
  - destruct (handlers c !! i) as [k|] eqn:Hi; [|done].
    pose proof (fed_inv_handle c i k Hinv Hi) as H.
    destruct (applier_step i k (tc c)) as [s k']. by simplify_eq.
  - simplify_eq. destruct Hinv as [Hf Hc Hhs]. split; [done|done|]. intros j.
    by apply (reader_inv_mono (tc c)).
Qed.

Lemma fed_quiet configs c : fed configs c → ¬ alarm c.
Proof using HP.
  intros Hfed. assert (fed_inv c) as [Hf _ Hh].
  { induction Hfed as [|l c c' _ IH Hl Hs]; [|by eapply fed_inv_step].
    split; simpl; [done| |].
    - intros j lj k d Hj%for_ids_lookup Hd. subst. by rewrite lookup_empty in Hd.
    - intros i. unfold read_so_far. simpl. rewrite !lookup_empty. simpl. left.
      intros k Hk. rewrite vsize_nil in Hk. lia. }
  intros [Ha|(i & e & Hi)]; [congruence|]. specialize (Hh i). by rewrite Hi in Hh.
Qed.
End honest.

(** C15: no false alarm: whatever a reachable state of a disciplined cluster has handed
    to its state machines can be streamed to the oracle, node by node in sequence and
    with the callbacks interleaved in any way, and the oracle never finds an error. *)
Theorem oracle_accepts configs r c k :
  full_mesh configs → reachable configs r c →
  fed (λ i a, ∃ p, procs c !! i = Some p ∧ a ∈ outputs p) configs k → ¬ alarm k.
Proof.
  intros Hmesh Hreach. apply fed_quiet. intros i j a b (p & Hp & Ha) (q & Hq & Hb) Hab.
  f_equal. apply (committed_results_agree configs r Hmesh c [] c i j p q); try done.
  - by apply (reachable_outputs configs r Hmesh c Hreach i).
  - by apply (reachable_outputs configs r Hmesh c Hreach j).
Qed.

(** ** Elections before the oracle *)

(** What a poll returns for node [i] in the course of an execution that ends in [c]: the
    default message when the call fails, else its answer at some point before. *)
Definition polled (configs : list Config) (r : N) (c : cluster) (i : N) (st : WireState) : Prop :=
  st = mkWireState 0 false 0 ∨
  ∃ ck ls p x, reachable configs r ck ∧ run_disciplined ls ck = Some c ∧
    procs ck !! i = Some p ∧ rw_raft x = node p ∧ rw_id x = i ∧ st = GetState x.

Lemma polled_elected configs r c i st :
  full_mesh configs → polled configs r c i st → ws_is_leader st = true →
  ws_id st = i ∧ elected (history c) i (ws_term st).
Proof.
  intros Hmesh [->|(ck & ls & p & x & Hreach & Hrun & Hp & Hx & Hid & ->)] Hl; [done|].
  unfold GetState in *. simpl in *. split; [done|]. rewrite Hx in *.
  unfold get_state in *. simpl in *. apply bool_decide_eq_true in Hl.
  destruct (reachable_inv configs r ck Hmesh Hreach) as [Hinv Ha].
  destruct (run_refines ls ck c Hinv Hrun) as [_ Hst].
  destruct (log_inv_reachable (abs ck) Ha) as (Hvi & L & Hli).
  destruct (log_inv_asteps _ _ Hst L Hvi Hli) as (_ & _ & _ & Hh & _).
  eapply elected_mono; [exact Hh|]. exact (vi_lead _ Hvi i _ (abs_lookup ck i p Hp) Hl).
Qed.

(** No term has two leaders in a poll of distinct nodes. *)
Lemma polled_unique configs r c ids states t :
  full_mesh configs → reachable configs r c → NoDup ids →
  Forall2 (polled configs r c) ids states → vsize (leading t states) ≤ 1.
Proof.
  intros Hmesh Hreach Hnd Hpoll.
  assert (∀ i j, elected (history c) i t → elected (history c) j t → i = j) as Huniq.
  { intros i j Hi Hj. destruct (reachable_inv configs r c Hmesh Hreach) as [_ Ha].
    exact (spec_election_safety (abs c) i j t Ha Hi Hj). }
  assert (∀ ids states, Forall2 (polled configs r c) ids states → NoDup ids →
    vsize (leading t states) ≤ 1 ∧
    (∀ st, st ∈ leading t states → ∃ i, i ∈ ids ∧ elected (history c) i t)) as H;
    [|by apply (H ids states)].
  clear ids states Hnd Hpoll. induction 1 as [|i st ids states Hst Hall IH]; intros Hnd.
  { split; [done|]. by intros st ?%not_elem_of_nil. }
  apply NoDup_cons in Hnd as [Hni Hnd]. destruct (IH Hnd) as [Hlen Hel]. unfold leading in *.
  rewrite filter_cons. case_decide as Hd.
  - destruct Hd as [Hl <-]. destruct (polled_elected configs r c i st Hmesh Hst Hl) as [_ He].
    assert (filter (λ s, ws_is_leader s = true ∧ ws_term s = ws_term st) states = []) as ->.
    { destruct (filter _ states) as [|s rest] eqn:Hf; [done|]. exfalso.
      destruct (Hel s) as (j & Hj & Hej); [by left|]. apply Hni. by rewrite (Huniq i j). }
    split; [done|]. intros s _. exists i. split; [by left|done].
  - split; [done|]. intros s Hs. destruct (Hel s Hs) as (j & ? & ?). exists j. split; [by right|done].
Qed.

(** C16: the election check passes on the program: polling the nodes of a disciplined
    execution, each poll at whatever times, [check_one_leader] never meets two leaders
    of a term.  Its result is decided by the first of the ten polls that finds the test
    stopped or shows a leader: the exception of a stopped test, or a node that was the
    leader of the highest term in that poll.  If there is no such poll it fails.  The
    terms are below 2^31, which is what the check's [int] can hold. *)
Theorem election_oracle configs r c ids polls :
  full_mesh configs → reachable configs r c → NoDup ids →
  (∀ k, Forall2 (polled configs r c) ids (polls k).2) →
  (∀ k st, st ∈ (polls k).2 → ws_term st < 2147483648) →
  (∃ k, (k < 10)%nat ∧ (∀ j, (j < k)%nat → passed_over (polls j)) ∧
     if (polls k).1 then check_one_leader polls = Aborts abort_msg
     else decided_by (polls k).2 (check_one_leader polls)) ∨
  (check_one_leader polls = Aborts abort_msg ∧ ∀ j, (j < 10)%nat → passed_over (polls j)).
Proof.
  intros Hmesh Hreach Hnd Hpoll Hsmall.
  destruct (check_leader_loop_spec polls 10 0) as [(k & Hk & Hp & Hd)|[Hv Hp]].
  - intros k t. by eapply polled_unique.
  - done.
  - left. exists k. split_and!; [lia| |done]. intros j Hj. apply Hp. lia.
  - right. split; [done|]. intros j Hj. apply Hp. lia.
Qed.

(** ** Instances *)

(** The stream of node 0 after its commit of ["a"]. *)
Lemma oracle_accepts_witness :
  ∃ c k, run_disciplined commit_a (boot local3 0) = Some c ∧
    crun (digest 0 (mkApplyResult true "a" 1)) (collect local3) = Some k ∧
    logs (tc k) !! 0 = Some {[1 := "a"%string]} ∧ ¬ alarm k.
Proof.
  eexists _, _. split; [vm_compute; reflexivity|]. split; [vm_compute; reflexivity|].
  split; [reflexivity|].
  eapply (oracle_accepts local3 0);
    [apply local3_mesh|apply (local3_reachable commit_a); vm_compute; reflexivity|].
  eapply (fed_crun _ _ (digest 0 (mkApplyResult true "a" 1))); [apply fed_init| |vm_compute; reflexivity].
  repeat split. eexists. split; [reflexivity|]. by left.
Defined.

(** The wrapper of a node, as far as [GetState] reads it. *)
Definition wrap (i : N) (n : Raft) : RaftWrapper :=
  set_rw_raft n (RaftWrapper_init "" 55001 (mkConfig i "" ∅) 0 NetInterceptor_init).

(** Nodes 1 and 2 do not answer the poll. *)
Lemma election_oracle_witness :
  ∃ c p, run_disciplined elect0 (boot local3 0) = Some c ∧ procs c !! 0 = Some p ∧
    let poll := [GetState (wrap 0 (node p)); mkWireState 0 false 0; mkWireState 0 false 0] in
    check_one_leader (λ _, (false, poll)) = Ok 0 ∧
    ((∃ k, (k < 10)%nat ∧ (∀ j, (j < k)%nat → passed_over (false, poll)) ∧
        decided_by poll (check_one_leader (λ _, (false, poll)))) ∨
     (check_one_leader (λ _, (false, poll)) = Aborts abort_msg ∧
      ∀ j, (j < 10)%nat → passed_over (false, poll))).
Proof.
  eexists _, _. split; [vm_compute; reflexivity|]. split; [reflexivity|].
  intros poll. split; [vm_compute; reflexivity|].
  eapply (election_oracle local3 0 _ [0; 1; 2] (λ _, (false, poll)) local3_mesh).
  - apply (local3_reachable elect0). vm_compute. reflexivity.
  - apply (bool_decide_unpack _). vm_compute. exact I.
  - intros _. constructor; [right|constructor; [by left|constructor; [by left|constructor]]].
    eexists _, [], _, (wrap 0 _). split; [apply (local3_reachable elect0); vm_compute; reflexivity|].
    split; [reflexivity|]. split; [reflexivity|]. split; [reflexivity|]. split; reflexivity.
  - intros _ st Hst. apply list_elem_of_In in Hst. destruct Hst as [<-|[<-|[<-|[]]]]; reflexivity.
Defined.

(** The oracle does find the results that [send_heartbeats] delivers out of order. *)
Lemma oracle_catches_overtaken :
  ∃ c p k, run_disciplined overtaken (boot local3 0) = Some c ∧ procs c !! 0 = Some p ∧
    ready_queue (node p) = [mkApplyResult true "b" 2; mkApplyResult true "a" 1] ∧
    crun (digest 0 (mkApplyResult true "b" 2) ++ [CHandle 0]) (collect local3) = Some k ∧
    apply_err (tc k) !! 0 = Some "server 0 apply out of order 2"%string ∧ alarm k.
Proof.
  eexists _, _, _. split; [vm_compute; reflexivity|]. split; [vm_compute; reflexivity|].
  split; [reflexivity|]. split; [vm_compute; reflexivity|]. split; [vm_compute; reflexivity|].
  left. reflexivity.
Qed.
