(* ===== verification/Script.v ===== *)
(** Scripts of integration tests over the operations of the tester ([TestConfig.v]).

    A script is a tree of tester commands; the answer of a command chooses what comes
    next.  [Fail] is a fatal assertion or an exception, which end the test, [Crash] is
    undefined behaviour of the test itself (an empty optional dereferenced with [*], an
    index out of range).  [perform] executes a command with the operations of
    [TestConfig.v]; what the nodes answer, the clock, the random engines and the scheduler
    are the [Env] of the command.  Logging is left out.

    [supported] is the specification: on every answer a script asks only for what the
    nodes it has left connected can give; the rules prove it command by command. *)
From stdpp Require Import pretty sorting.
From S2P Require Import Prelude Types ConfigGen RaftState RaftNode RaftNodeFacts Cluster.
From S2P Require Import NetInterceptor NodeApp Wrapper TestCtrl TestConfig.

#[local] Open Scope N_scope.

(** ** Scripts *)

Inductive cmd :=
| Begin
| CheckOneLeader
| CheckTerms
| CheckNoLeader
| Disconnect (id : N)
| Reconnect (id : N)
| DisconnectAll
| ReconnectAll
| One (data : string) (expected : N) (retry : bool)
| NCommitted (index : N)
| WaitFor (index n : N) (start_term : option N)
| ProposeTo (id : N) (data : string)
| ProposeAll (data : string) (to : gmap N bool)
| AllStates
| RpcCount
| RpcBytes
| RandomString (length : N)
| Pick (n : N) (exclude : list N)
| Sleep (ms : N)
| Expect (ok : bool).

(** What a command answers. *)
Definition resp (c : cmd) : Type :=
  match c with
  | CheckOneLeader | CheckTerms | One _ _ _ => option N
  | NCommitted _ | RpcCount | RpcBytes => N
  | WaitFor _ _ _ => option string
  | ProposeTo _ _ => ProposalResult
  | ProposeAll _ _ => list WireProposal
  | AllStates => list WireState
  | RandomString _ => string
  | Pick _ _ => list N
  | _ => unit
  end.

Inductive script :=
| Pass
| Fail
| Crash
| Do (c : cmd) (k : resp c → script).

Declare Scope script_scope.
Delimit Scope script_scope with script.
Bind Scope script_scope with script.
Notation "x ⇐ c ; k" := (Do c (λ x, k)) (at level 100, c at next level, right associativity) : script_scope.
Notation "c ⨟ k" := (Do c (λ _, k)) (at level 100, right associativity) : script_scope.

#[local] Open Scope script_scope.

(** [ASSERT_TRUE], [value()], [*] and indexing. *)
Definition assert (b : bool) (k : script) : script := if b then k else Fail.
Definition value {A} (o : option A) (k : A → script) : script :=
  match o with Some v => k v | None => Fail end.
Definition deref {A} (o : option A) (k : A → script) : script :=
  match o with Some v => k v | None => Crash end.
Definition index_at {A} (l : list A) (i : nat) (k : A → script) : script :=
  match l !! i with Some v => k v | None => Crash end.
Definition has_value {A} (o : option A) : bool := bool_decide (is_Some o).

(** A range loop over a list. *)
Definition foreach {A} (l : list A) (body : A → script → script) (k : script) : script :=
  foldr body k l.

(** The elements that a [std::set] iterates over. *)
#[local] Instance N_le_dec : RelDecision N.le := N.le_dec.
Definition std_set (l : list N) : list N := merge_sort N.le (remove_dups l).

Definition TIMEOUT : N := 1000.

(** ** Running a scenario *)

(** The tester of a test: its controller, its configuration, and whether a non-fatal
    failure has been recorded. *)
Record tester := mkTester {
  ctrl : RaftTestCtrl;
  cfg : TestConfig;
  recorded : bool }.

(** [generate_random_string] draws a character for every position; the raw output of
    its engine is an input. *)
Definition characters : string :=
  "abcdefghijklmnopqrstuvwxyzABCDEFGHIJKLMNOPQRSTUVWXYZ0123456789".

Fixpoint generate_random_string (raws : list N) (length : nat) : option string :=
  match length with
  | O => Some EmptyString
  | S length =>
      c ← String.get (N.to_nat (uniform_int 0 61 (default 0 (head raws)))) characters;
      rest ← generate_random_string (tail raws) length;
      Some (String.String c rest)
  end.

Lemma character_at k : (k < 62)%nat → is_Some (String.get k characters).
Proof. intros Hk. do 62 (destruct k as [|k]; [by eexists|]). lia. Qed.

Lemma random_string_defined raws length :
  ∃ s, generate_random_string raws length = Some s ∧ String.length s = length.
Proof.
  revert raws. induction length as [|m IH]; intros raws; [by exists EmptyString|].
  cbn [generate_random_string]. destruct (uniform_int_range 0 61 (default 0 (head raws))) as [_ Hd]; [done|].
  destruct (character_at (N.to_nat (uniform_int 0 61 (default 0 (head raws))))) as [c ->]; [lia|].
  destruct (IH (tail raws)) as (s & Hs & <-). simpl. rewrite Hs. by exists (String.String c s).
Qed.

(** What a command meets. *)
Record Env := mkEnv {
  ev_ok : N → bool;
  ev_world : gmap N RaftWrapper;
  ev_flags : nat → bool;
  ev_GetState : nat → N → option WireState;
  ev_Propose : N → option WireProposal;
  ev_look : nat → Glance;
  ev_t0 : N;
  ev_rounds : list Round;
  ev_stats : N → option RPCStats;
  ev_raws : list N;
  ev_shuffle : list N → list N }.

Definition verdict_map {A B} (f : A → B) (v : verdict A) : verdict B :=
  match v with Ok a => Ok (f a) | Aborts msg => Aborts msg | Undef => Undef end.

(** The states of the connected nodes at poll [k]. *)
Definition poll (e : Env) (t : tester) (k : nat) : option (list WireState) :=
  get_all_states (connected (cfg t)) (ev_GetState e k) (ctrl t).

(** A check of a poll; [connected.at] throws when the filter misses a node. *)
Definition with_poll {A} (e : Env) (t : tester) (f : list WireState → verdict A) : verdict A :=
  match poll e t 0 with Some states => f states | None => Aborts "out_of_range" end.

Definition put_cfg (t : tester) (s : TestConfig) : tester := mkTester (ctrl t) s (recorded t).
Definition record (b : bool) (t : tester) : tester := mkTester (ctrl t) (cfg t) (recorded t || b).

(** A command: [None] while it has not returned, or when the process exits. *)
Definition perform (e : Env) (c : cmd) (t : tester) : option (verdict (resp c) * tester) :=
  match c return option (verdict (resp c) * tester) with
  | Begin =>
      '(ctl, _, s) ← begin (ev_ok e) (ev_world e) (ctrl t) (cfg t);
      Some (Ok (), mkTester ctl s (recorded t))
  | CheckOneLeader =>
      Some (with_poll e t (λ _, verdict_map Some
              (check_one_leader (λ k, (ev_flags e k, default [] (poll e t k))))), t)
  | CheckTerms => Some (with_poll e t check_terms, t)
  | CheckNoLeader =>
      Some (with_poll e t (λ _, Ok ()), record (default false (check_no_leader <$> poll e t 0)) t)
  | Disconnect id =>
      '(_, s) ← disconnect id (ev_ok e) (ev_world e) (ctrl t) (cfg t);
      Some (Ok (), put_cfg t s)
  | Reconnect id =>
      '(_, s) ← reconnect id (ev_ok e) (ev_world e) (ctrl t) (cfg t);
      Some (Ok (), put_cfg t s)
  | DisconnectAll =>
      '(_, s) ← disconnect_everyone (ev_ok e) (ev_world e) (ctrl t) (cfg t);
      Some (Ok (), put_cfg t s)
  | ReconnectAll =>
      '(_, s) ← reconnect_everyone (ev_ok e) (ev_world e) (ctrl t) (cfg t);
      Some (Ok (), put_cfg t s)
  | One data expected retry =>
      v ← one data expected retry (ev_t0 e) (ev_rounds e);
      Some (verdict_map Some v, t)
  | NCommitted i =>
      let '(s, v) := n_committed i (cfg t) in Some (verdict_map num v, put_cfg t s)
  | WaitFor i n start_term => Some ((wait i n start_term (ev_look e)).1, t)
  | ProposeTo id data => Some (test_propose id (ev_Propose e) (ctrl t) (cfg t), t)
  | ProposeAll data to =>
      Some (match propose_to_all to (ev_Propose e) (ctrl t) with
            | Some rs => Ok rs
            | None => Aborts "out_of_range"
            end, t)
  | AllStates =>
      Some (match get_all_states ∅ (ev_GetState e 0) (ctrl t) with
            | Some states => Ok states
            | None => Aborts "out_of_range"
            end, t)
  | RpcCount => Some (Ok (count (get_total_rpc_stats (ev_stats e) (ctrl t))), t)
  | RpcBytes => Some (Ok (bytes (get_total_rpc_stats (ev_stats e) (ctrl t))), t)
  | RandomString length =>
      Some (match generate_random_string (ev_raws e) (N.to_nat length) with
            | Some x => Ok x
            | None => Undef
            end, t)
  | Pick n exclude => Some (Ok (pick_n_servers (ev_shuffle e) n (list_to_set exclude) (cfg t)), t)
  | Sleep _ => Some (Ok (), t)
  | Expect ok => Some (Ok (), record (negb ok) t)
  end.

(** What a run of a test assumes: what node [i] answers to [GetState] is the answer of a
    wrapper that was started under that id ([Wrapper.v]), in whatever state its Raft node is,
    and [std::shuffle] permutes.  The terms are those that the [int] of the leader check can
    hold: beyond them the check is undefined behaviour ([TestConfig.leader_term_overflow]). *)
Record honest_env (e : Env) : Prop := {
  he_state : ∀ k i st, ev_GetState e k i = Some st →
    ∃ x, rw_id x = i ∧ current_term_ (rw_raft x) < 2147483648 ∧ st = GetState x;
  he_shuffle : ∀ l, ev_shuffle e l ≡ₚ l }.

Lemma he_id e k i st :
  honest_env e → ev_GetState e k i = Some st → ws_id st = i ∧ ws_term st < 2147483648.
Proof. intros He Hst. by destruct (he_state e He k i st Hst) as (x & <- & Ht & ->). Qed.

(** Between commands nodes report and the callbacks collect results; neither touches
    who is connected. *)
Record drift (t t' : tester) : Prop := {
  dr_nodes : nodes (ctrl t') = nodes (ctrl t);
  dr_ports : node_tester_ports (ctrl t') = node_tester_ports (ctrl t);
  dr_killed : killed_ (ctrl t') = killed_ (ctrl t);
  dr_ids : raft_ids (cfg t') = raft_ids (cfg t);
  dr_connected : connected (cfg t') = connected (cfg t) }.

Inductive turn : script * tester → script * tester → Prop :=
| T_drift sc t t' : drift t t' → turn (sc, t) (sc, t')
| T_ok e c k r t t' :
    honest_env e → perform e c t = Some (Ok r, t') → turn (Do c k, t) (k r, t')
| T_abort e c k msg t t' :
    honest_env e → perform e c t = Some (Aborts msg, t') → turn (Do c k, t) (Fail, t')
| T_undef e c k t t' :
    honest_env e → perform e c t = Some (Undef, t') → turn (Do c k, t) (Crash, t').

(** The tester of a fixture, its nodes spawned. *)
Definition fixture (configs : list Config) : tester :=
  mkTester (RaftTestCtrl_init configs (assign_ports configs)) (TestConfig_init configs) false.

(** ** What a command needs of the cluster *)

Definition quorum (n : N) : N := n / 2 + 1.
Definition all (n : N) : gset N := list_to_set (upto n).

(** Who is connected, and whether the controller has connected to the nodes. *)
Definition ups (t : tester) : gset N :=
  filter (λ i, connected (cfg t) !! i = Some true) (raft_ids (cfg t)).

Definition begun (t : tester) : bool := bool_decide (nodes (ctrl t) ≠ []).

(** A check can succeed in a cluster of [n] nodes of which [up] are connected: a leader
    and agreement need a quorum (and the servers that are to agree), the absence of a
    leader needs that there is none. *)
Definition asks (n : N) (started : bool) (up : gset N) (c : cmd) : Prop :=
  started = match c with Begin => false | _ => true end ∧
  match c with
  | CheckOneLeader => quorum n ≤ N.of_nat (size up)
  | CheckTerms => up ≠ ∅
  | CheckNoLeader => N.of_nat (size up) < quorum n
  | Disconnect id | Reconnect id | ProposeTo id _ => id < n
  | One _ expected _ => N.max expected (quorum n) ≤ N.of_nat (size up)
  | ProposeAll _ to => ∀ i, i < n → is_Some (to !! i)
  | WaitFor _ k _ => N.max k (quorum n) ≤ N.of_nat (size up)
  | Pick k exclude => NoDup exclude ∧ (∀ x, x ∈ exclude → x < n) ∧ k + vsize exclude ≤ n
  | _ => True
  end.

(** What a command can answer, and who is connected after it. *)
Definition reply (n : N) (up : gset N) (c : cmd) : resp c → gset N → Prop :=
  match c return resp c → gset N → Prop with
  | CheckOneLeader => λ r up', (∃ l, r = Some l ∧ l ∈ up) ∧ up' = up
  | CheckTerms => λ r up', (∃ x, r = Some x) ∧ up' = up
  | Disconnect id => λ _ up', up' = up ∖ {[id]}
  | Reconnect id => λ _ up', up' = up ∪ {[id]}
  | DisconnectAll => λ _ up', up' = ∅
  | ReconnectAll => λ _ up', up' = all n
  | Pick k exclude => λ r up',
      (NoDup r ∧ vsize r = k ∧ ∀ x, x ∈ r → x < n ∧ x ∉ exclude) ∧ up' = up
  | _ => λ _ up', up' = up
  end.

(** On every answer, the script asks for what it can get and never crashes. *)
Fixpoint supported (n : N) (started : bool) (up : gset N) (sc : script) : Prop :=
  match sc with
  | Pass | Fail => True
  | Crash => False
  | Do c k => asks n started up c ∧
              ∀ r up', up' ⊆ all n → reply n up c r up' → supported n true up' (k r)
  end.

(** The tester of a cluster of [n] nodes with [up] connected. *)
Record fits_net (n : N) (started : bool) (up : gset N) (t : tester) : Prop := {
  fn_ids : raft_ids (cfg t) = all n;
  fn_up : up ⊆ all n;
  fn_conn : ∀ i, connected (cfg t) !! i =
              if bool_decide (i ∈ all n) then Some (bool_decide (i ∈ up)) else None;
  fn_ports : ∀ i, is_Some (node_tester_ports (ctrl t) !! i) ↔ i ∈ all n;
  fn_alive : killed_ (ctrl t) = false;
  fn_fresh : started = false → nodes (ctrl t) = [];
  fn_nodes : started = true → NoDup (nodes (ctrl t)) ∧ ∀ i, i ∈ nodes (ctrl t) ↔ i ∈ all n }.

Lemma elem_of_all n i : i ∈ all n ↔ i < n.
Proof. unfold all. by rewrite elem_of_list_to_set, elem_of_upto. Qed.

Lemma size_all n : size (all n) = N.to_nat n.
Proof.
  unfold all. rewrite size_list_to_set by apply NoDup_upto. unfold upto.
  by rewrite length_fmap, length_seq.
Qed.

Lemma fits_drift n b up t t' : drift t t' → fits_net n b up t → fits_net n b up t'.
Proof. intros [E1 E2 E3 E4 E5] [? ? ? ? ? ? ?]. split; rewrite ?E1, ?E2, ?E3, ?E4, ?E5; done. Qed.

Lemma fits_ups n b up t : fits_net n b up t → ups t = up.
Proof.
  intros [Hids Hup Hc _ _ _ _]. unfold ups. rewrite Hids. apply set_eq. intros i.
  rewrite elem_of_filter, Hc. case_bool_decide as Hi; [|set_solver].
  case_bool_decide; set_solver.
Qed.

Lemma fits_begun n b up t : 0 < n → fits_net n b up t → begun t = b.
Proof.
  intros Hn [_ _ _ _ _ Hf Ht]. unfold begun. destruct b.
  - apply bool_decide_eq_true_2. intros E. destruct (Ht eq_refl) as [_ Hin]. rewrite E in Hin.
    destruct (Hin 0) as [_ H]. by apply (not_elem_of_nil 0), H, elem_of_all.
  - apply bool_decide_eq_false_2. rewrite Hf by done. by intros [].
Qed.

(** The nodes that a poll reaches are those that are connected. *)
Lemma selected_spec (conn : gmap N bool) (P : N → Prop) `{!∀ i, Decision (P i)} ids s :
  nodes s = ids → (∀ i, i ∈ ids → conn !! i = Some (bool_decide (P i))) → conn ≠ ∅ →
  selected conn s = Some (filter P ids).
Proof.
  intros <- Hc Hne. unfold selected. rewrite bool_decide_eq_false_2 by done. clear Hne.
  induction (nodes s) as [|i l IH]; [done|]. simpl. rewrite (Hc i) by (by left). simpl.
  rewrite IH by (intros j Hj; apply Hc; by right). simpl. rewrite filter_cons.
  case_bool_decide; case_decide; done.
Qed.

Lemma fits_poll n up t e k :
  fits_net n true up t → honest_env e → up ≠ ∅ →
  ∃ states, poll e t k = Some states ∧ states ≠ [] ∧
    (∀ st, st ∈ states → ws_term st < 2147483648) ∧
    (∀ st, st ∈ states → ws_is_leader st = true → ws_id st ∈ up).
Proof.
  intros [Hids Hup Hc _ _ _ Hn] He Hne. destruct (Hn eq_refl) as [_ Hin].
  assert (∃ i, i ∈ up) as [i0 Hi0] by (by apply set_choose_L).
  unfold poll, get_all_states, gather. rewrite (selected_spec _ (λ i, i ∈ up) _ _ eq_refl).
  - eexists. split; [done|]. split_and!.
    + assert (i0 ∈ filter (λ i, i ∈ up) (nodes (ctrl t))) as H0
        by (apply list_elem_of_filter; split; [done|]; apply Hin; set_solver).
      intros E%fmap_nil_inv. rewrite E in H0. by apply not_elem_of_nil in H0.
    + intros st (i & -> & _)%list_elem_of_fmap. destruct (ev_GetState e k i) eqn:Hs; [|done].
      by apply (he_id e _ _ _ He) in Hs as [_ ?].
    + intros st (i & -> & Hi)%list_elem_of_fmap. apply list_elem_of_filter in Hi as [Hi _].
      destruct (ev_GetState e k i) eqn:Hs; [|done]. simpl. by apply (he_id e _ _ _ He) in Hs as [-> _].
  - intros i Hi%Hin. rewrite Hc, bool_decide_eq_true_2; done.
  - intros E. specialize (Hc i0). rewrite E, lookup_empty, bool_decide_eq_true_2 in Hc; set_solver.
Qed.

(** ** The answers of the operations *)

Lemma last_term_singles l : ∀ last z,
  last_term_with_leader l last = Some z → ∀ t ids, (t, ids) ∈ l → vsize ids ≤ 1.
Proof.
  induction l as [|[t ids] l IH]; intros last z Hz t' ids'; [by intros ?%not_elem_of_nil|].
  simpl in Hz. destruct (N.ltb_spec 1 (vsize ids)) as [|Hle]; [done|].
  intros [[= -> ->]|Hin]%elem_of_cons; [done|by eapply IH].
Qed.

(** What one poll can say: a leader among the polled nodes, or an abort. *)
Lemma judge_leaders_answer states v :
  (∀ st, st ∈ states → ws_term st < 2147483648) → judge_leaders states = Some v →
  v = Aborts abort_msg ∨ ∃ st, v = Ok (ws_id st) ∧ st ∈ states ∧ ws_is_leader st = true.
Proof.
  intros Hs Hj. destruct (last_term_with_leader (map_to_list (leaders_of states)) (-1)) as [z|] eqn:Hz.
  - right. pose proof (judge_leaders_spec states) as Hspec. rewrite Hj in Hspec.
    destruct Hspec as (st & ? & ? & ? & _); [|by auto|by exists st].
    intros t. destruct (decide (leading t states = [])) as [->|Hne]; [done|].
    assert (leaders_of states !! t = Some (ws_id <$> leading t states)) as Hl.
    { apply leaders_of_Some. split; [|done]. by intros ?%fmap_nil_inv. }
    apply elem_of_map_to_list in Hl. apply (last_term_singles _ _ _ Hz) in Hl.
    unfold vsize in *. by rewrite length_fmap in Hl.
  - left. unfold judge_leaders in Hj. rewrite Hz in Hj. by simplify_eq.
Qed.

Lemma check_leader_loop_answer polls iters : ∀ k,
  (∀ k st, st ∈ (polls k).2 → ws_term st < 2147483648) →
  let v := check_leader_loop iters polls k in
  v = Aborts abort_msg ∨
  ∃ k st, v = Ok (ws_id st) ∧ st ∈ (polls k).2 ∧ ws_is_leader st = true.
Proof.
  induction iters as [|m IH]; intros k Hs; simpl; [by left|].
  destruct (polls k).1; [by left|].
  destruct (judge_leaders (polls k).2) as [v|] eqn:Hj; [|by apply IH].
  destruct (judge_leaders_answer _ _ (Hs k) Hj) as [->|(st & ? & ? & ?)]; [by left|].
  right. by exists k, st.
Qed.

Lemma check_terms_loop_answer states : ∀ o v,
  check_terms_loop states o = v → o ≠ None ∨ states ≠ [] →
  v = Aborts abort_msg ∨ ∃ x, v = Ok (Some x).
Proof.
  induction states as [|st states IH]; intros o v <- Hne; simpl.
  - destruct o; [right; by eexists|naive_solver].
  - destruct o as [x|]; [case_match; [|by left]|]; eapply IH; try done; by left.
Qed.

Lemma count_committed_defined i ids : ∀ count data s, (count_committed ids i count data s).2 ≠ Undef.
Proof.
  induction ids as [|id ids IH]; intros count data s; simpl; [done|]. repeat case_match; done || apply IH.
Qed.

Lemma check_at_defined i g : check_at i g ≠ Undef.
Proof. apply count_committed_defined. Qed.

Lemma wait_end_defined i n g : wait_end i n g ≠ Undef.
Proof.
  unfold wait_end. pose proof (check_at_defined i g). repeat case_match; done.
Qed.

Lemma wait_loop_defined i n o look iters : ∀ k to slept,
  (wait_loop iters i n o look k to slept).1 ≠ Undef.
Proof.
  induction iters as [|m IH]; intros k to slept; simpl; [apply wait_end_defined|].
  pose proof (check_at_defined i (look k)).
  repeat case_match; try done; apply wait_end_defined || apply IH.
Qed.

Lemma await_defined data expected i t1 peeks : await_agreement data expected i t1 peeks ≠ Some Undef.
Proof.
  induction peeks as [|p peeks IH]; simpl; [done|].
  pose proof (count_committed_defined i (ids_in_order (pk_state p)) 0 EmptyString (pk_state p)).
  unfold n_committed. repeat case_match; done.
Qed.

Lemma one_defined data expected retry t0 rounds : one data expected retry t0 rounds ≠ Some Undef.
Proof.
  unfold one. induction rounds as [|rd rounds IH]; simpl; [done|].
  case_match; [|done]. case_match; [|by case_match].
  pose proof (await_defined data expected n (rd_t1 rd) (rd_peeks rd)). repeat case_match; done.
Qed.

Lemma count_committed_net i ids : ∀ count data s,
  let s' := (count_committed ids i count data s).1 in
  raft_ids s' = raft_ids s ∧ connected s' = connected s.
Proof.
  induction ids as [|id ids IH]; intros count data s; simpl; [done|].
  repeat case_match; try done; match goal with |- context [count_committed _ _ ?a ?b ?c] =>
    destruct (IH a b c) as [-> ->] end; done.
Qed.

(** A pick has the size that was asked for, and none of the excluded servers. *)
Lemma pick_spec n b up t sh k exclude :
  fits_net n b up t → (∀ l, sh l ≡ₚ l) →
  NoDup exclude → (∀ x, x ∈ exclude → x < n) → k + vsize exclude ≤ n →
  let r := pick_n_servers sh k (list_to_set exclude) (cfg t) in
  NoDup r ∧ vsize r = k ∧ ∀ x, x ∈ r → x < n ∧ x ∉ exclude.
Proof.
  intros [Hids _ _ _ _ _ _] Hsh Hnd Hlt Hk. unfold pick_n_servers.
  set (pool := filter (λ id, id ∉ list_to_set exclude) (ids_in_order (cfg t))).
  assert (ids_in_order (cfg t) ≡ₚ elements (all n)) as Hp by (by rewrite ids_in_order_perm, Hids).
  assert (NoDup (sh pool)) as Hnp.
  { rewrite Hsh. apply NoDup_filter. rewrite Hp. apply NoDup_elements. }
  assert (∀ x, x ∈ sh pool ↔ x < n ∧ x ∉ exclude) as Hin.
  { intros x. rewrite Hsh. unfold pool. rewrite list_elem_of_filter, Hp, elem_of_elements, elem_of_all.
    rewrite elem_of_list_to_set. tauto. }
  assert (length (sh pool) = N.to_nat n - length exclude)%nat as Hlen.
  { rewrite <- (size_list_to_set (C := gset N)) by done.
    rewrite <- (size_list_to_set (C := gset N) exclude), <- size_all by done.
    rewrite <- size_difference by (intros x; rewrite elem_of_list_to_set, elem_of_all; apply Hlt).
    f_equal. apply set_eq. intros x. rewrite elem_of_difference, !elem_of_list_to_set, Hin, elem_of_all.
    tauto. }
  split_and!.
  - by apply (sublist_NoDup _ (sh pool)), sublist_take.
  - unfold vsize in *. rewrite length_take. lia.
  - intros x (i & Hi & _)%elem_of_take. apply Hin. by eapply list_elem_of_lookup_2.
Qed.

(** Connecting and disconnecting a node that exists. *)
Lemma fits_insert n b up up' t s :
  fits_net n b up t → up' ⊆ all n → raft_ids s = raft_ids (cfg t) →
  (∀ i, i ∈ all n → connected s !! i = Some (bool_decide (i ∈ up'))) →
  (∀ i, i ∉ all n → connected s !! i = None) →
  fits_net n b up' (put_cfg t s).
Proof.
  intros [Hids Hup Hc Hp Ha Hr0 Hn] Hup' Hr Hin Hout. split; simpl; try done; [congruence|].
  intros i. case_bool_decide; auto.
Qed.

Lemma fits_conn n b up t i :
  fits_net n b up t → i ∈ all n → connected (cfg t) !! i = Some (bool_decide (i ∈ up)).
Proof. intros H Hi. by rewrite (fn_conn _ _ _ _ H), bool_decide_eq_true_2. Qed.

Lemma fits_out n b up t i : fits_net n b up t → i ∉ all n → connected (cfg t) !! i = None.
Proof. intros H Hi. by rewrite (fn_conn _ _ _ _ H), bool_decide_eq_false_2. Qed.

Lemma set_fold_insert_lookup (ids : gset N) (v : bool) m i :
  set_fold (λ id m, <[id := v]> m) m ids !! i = if bool_decide (i ∈ ids) then Some v else (m : gmap N bool) !! i.
Proof.
  revert i. set (P (m' : gmap N bool) (X : gset N) :=
    ∀ i, m' !! i = if bool_decide (i ∈ X) then Some v else m !! i).
  change (P (set_fold (λ id m, <[id := v]> m) m ids) ids).
  apply (set_fold_ind_L P); unfold P; [done|]. intros x X m' Hx IH i. destruct (decide (i = x)) as [->|].
  - rewrite lookup_insert_eq, bool_decide_eq_true_2; [done|set_solver].
  - rewrite lookup_insert_ne, IH by done.
    rewrite (bool_decide_ext (i ∈ {[x]} ∪ X) (i ∈ X)); [done|set_solver].
Qed.

Lemma fits_set n b up up' t id v :
  fits_net n b up t → id ∈ all n → up' ⊆ all n →
  (∀ i, i ∈ up' ↔ if bool_decide (i = id) then v = true else i ∈ up) →
  fits_net n b up' (put_cfg t (set_connected (<[id := v]> (connected (cfg t))) (cfg t))).
Proof.
  intros H Hid Hup' Hiff. apply (fits_insert n b up); [done..| |].
  - intros i Hi. simpl. specialize (Hiff i). case_bool_decide as E.
    + subst. rewrite lookup_insert_eq. f_equal. symmetry.
      destruct v; [apply bool_decide_eq_true_2|apply bool_decide_eq_false_2]; naive_solver.
    + rewrite lookup_insert_ne by done. rewrite (fits_conn n b up) by done. f_equal.
      by apply bool_decide_ext.
  - intros i Hi. simpl. rewrite lookup_insert_ne by (by intros ->). by apply (fits_out n b up).
Qed.

Lemma fits_everyone n b up t (v : bool) :
  fits_net n b up t →
  fits_net n b (if v then all n else ∅)
    (put_cfg t (set_connected (set_fold (λ id m, <[id := v]> m) (connected (cfg t))
                                 (raft_ids (cfg t))) (cfg t))).
Proof.
  intros Hf. apply (fits_insert n b up); [done|destruct v; set_solver|done| |]; intros i Hi; simpl;
    rewrite set_fold_insert_lookup, (fn_ids _ _ _ _ Hf).
  - rewrite bool_decide_eq_true_2 by done. f_equal. symmetry.
    destruct v; [by apply bool_decide_eq_true_2|by apply bool_decide_eq_false_2].
  - rewrite bool_decide_eq_false_2 by done. by apply (fits_out n b up).
Qed.

Lemma fits_begin n up t e ctl w s :
  fits_net n false up t → begin (ev_ok e) (ev_world e) (ctrl t) (cfg t) = Some (ctl, w, s) →
  fits_net n true up (mkTester ctl s (recorded t)).
Proof.
  intros [Hids Hup Hc Hp Ha _ _] Hb. unfold begin in Hb.
  destruct (connect_to_raft_nodes (ctrl t)) as [ctl'|] eqn:Hconn; [|done]. simpl in Hb.
  destruct (run_all _ _ _ ctl') as [w'|]; [|done]. simplify_eq/=.
  unfold connect_to_raft_nodes in Hconn. case_match; [|done]. rewrite Ha in Hconn. simplify_eq/=.
  split; simpl; try done. intros _. split; [apply NoDup_fst_map_to_list|].
  intros i. rewrite <- Hp. split.
  - intros ([j p] & -> & Hj%elem_of_map_to_list)%list_elem_of_fmap. by exists p.
  - intros [p Hi]. apply list_elem_of_fmap. exists (i, p). by rewrite elem_of_map_to_list.
Qed.

Lemma quorum_pos n : 0 < quorum n.
Proof. unfold quorum. generalize (n / 2). lia. Qed.

(** The checks that poll the nodes. *)
Lemma perform_leader n up t e v t' :
  fits_net n true up t → honest_env e → quorum n ≤ N.of_nat (size up) →
  perform e CheckOneLeader t = Some (v, t') →
  match v with
  | Ok r => ∃ up', reply n up CheckOneLeader r up' ∧ fits_net n true up' t'
  | Aborts _ => True
  | Undef => False
  end.
Proof.
  intros Hf He Ha Hp. simpl in Hp.
  assert (up ≠ ∅) as Hne by (intros ->; rewrite size_empty in Ha; pose proof (quorum_pos n); lia).
  destruct (fits_poll n up t e 0 Hf He Hne) as (states & Hpoll & _).
  unfold with_poll in Hp. rewrite Hpoll in Hp. injection Hp as <- <-.
  destruct (check_leader_loop_answer (λ k, (ev_flags e k, default [] (poll e t k))) 10 0)
    as [E|(k & st & E & Hst & Hl)]; unfold check_one_leader; [|by rewrite E|rewrite E]; simpl in *.
  - intros k st. destruct (fits_poll n up t e k Hf He Hne) as (? & -> & _ & H & _). apply H.
  - destruct (fits_poll n up t e k Hf He Hne) as (? & E' & _ & _ & H). rewrite E' in Hst.
    exists up. split; [|done]. split; [|done]. exists (ws_id st). split; [done|]. by apply H.
Qed.

(** Every command answers as [reply] says, and does not run into undefined behaviour. *)
Lemma perform_reply n b up t e c v t' :
  fits_net n b up t → honest_env e → asks n b up c → perform e c t = Some (v, t') →
  match v with
  | Ok r => ∃ up', reply n up c r up' ∧ fits_net n true up' t'
  | Aborts _ => True
  | Undef => False
  end.
Proof.
  intros Hf He [Hb Ha] Hp. subst b.
  destruct c as [| | | |id|id| | |data expected retry|i|i k o|id data|data to| | | |len|k exclude|ms|ok];
    simpl in *.
  - apply bind_Some in Hp as ([[ctl w] s] & Hbeg & Hp). simplify_eq/=.
    exists up. split; [done|]. by eapply fits_begin.
  - by eapply (perform_leader n up t e).
  - destruct (fits_poll n up t e 0 Hf He Ha) as (states & Hpoll & Hne & _).
    unfold with_poll in Hp. rewrite Hpoll in Hp. injection Hp as <- <-.
    destruct (check_terms_loop_answer states None _ eq_refl) as [E|[x E]];
      [by right|unfold check_terms; by rewrite E|unfold check_terms; rewrite E].
    exists up. split; [|done]. split; [|done]. by exists x.
  - unfold with_poll in Hp. case_match; simplify_eq/=; [|done]. exists up. split; [done|].
    by destruct Hf.
  - apply elem_of_all in Ha. unfold disconnect in Hp. rewrite (fn_ids _ _ _ _ Hf) in Hp.
    rewrite bool_decide_eq_true_2 in Hp by done.
    destruct (disconnect_nodes _ _ _ _); simplify_eq/=. exists (up ∖ {[id]}). split; [done|].
    pose proof (fn_up _ _ _ _ Hf). apply (fits_set n true up); try done; [set_solver|].
    intros i. case_bool_decide; set_solver.
  - apply elem_of_all in Ha. unfold reconnect in Hp. rewrite (fn_ids _ _ _ _ Hf) in Hp.
    rewrite bool_decide_eq_true_2 in Hp by done.
    destruct (reconnect_nodes _ _ _ _); simplify_eq/=. exists (up ∪ {[id]}). split; [done|].
    pose proof (fn_up _ _ _ _ Hf). apply (fits_set n true up); try done; [set_solver|].
    intros i. case_bool_decide; set_solver.
  - unfold disconnect_everyone in Hp. destruct (disconnect_nodes _ _ _ _); simplify_eq/=.
    exists ∅. split; [done|]. exact (fits_everyone n true up t false Hf).
  - unfold reconnect_everyone in Hp. destruct (reconnect_nodes _ _ _ _); simplify_eq/=.
    exists (all n). split; [done|]. exact (fits_everyone n true up t true Hf).
  - apply bind_Some in Hp as (v0 & Hone & Hp). simplify_eq/=.
    pose proof (one_defined data expected retry (ev_t0 e) (ev_rounds e)).
    destruct v0; simpl; [by exists up|done|done].
  - pose proof (count_committed_net i (ids_in_order (cfg t)) 0 EmptyString (cfg t)) as Hnet.
    pose proof (count_committed_defined i (ids_in_order (cfg t)) 0 EmptyString (cfg t)) as Hdef.
    unfold n_committed in Hp. destruct (count_committed _ _ _ _ _) as [s v0]. simpl in *.
    destruct Hnet as [Hr Hc]. simplify_eq/=. destruct v0; simpl; [|done|done]. exists up.
    split; [done|]. eapply fits_drift; [|exact Hf]. by split.
  - simplify_eq. unfold wait. pose proof (wait_loop_defined i k o (ev_look e) 30 0 10 0).
    destruct (wait_loop _ _ _ _ _ _ _ _).1; [by exists up|done|done].
  - unfold test_propose in Hp. repeat case_match; simplify_eq/=; done || by exists up.
  - destruct (propose_to_all _ _ _); simplify_eq; [by exists up|done].
  - destruct (get_all_states _ _ _); simplify_eq; [by exists up|done].
  - simplify_eq. by exists up.
  - simplify_eq. by exists up.
  - simplify_eq. destruct (random_string_defined (ev_raws e) (N.to_nat len)) as (x & -> & _).
    by exists up.
  - destruct Ha as (? & ? & ?). simplify_eq/=. exists up. split; [|done]. split; [|done].
    eapply pick_spec; [done|by apply He|done..].
  - simplify_eq/=. by exists up.
  - simplify_eq/=. exists up. split; [done|]. by destruct Hf.
Qed.

(** A supported script stays supported. *)
Definition sound_at (n : N) (p : script * tester) : Prop :=
  p.1 = Fail ∨ ∃ b up, fits_net n b up p.2 ∧ supported n b up p.1.

Lemma sound_turn n p p' : sound_at n p → turn p p' → sound_at n p'.
Proof.
  intros Hs Ht. destruct Ht as [sc t t' Hd|e c k r t t' He Hp|e c k msg t t' He Hp|e c k t t' He Hp];
    (destruct Hs as [Hs|(b & up & Hf & Hs)]; [by left|]); simpl in *;
    [right; exists b, up; split; [by eapply fits_drift|done]|..]; destruct Hs as [Ha Hk];
    pose proof (perform_reply _ _ _ _ _ _ _ _ Hf He Ha Hp) as Hr; simpl in Hr.
  - destruct Hr as (up' & Hr & Hf'). right. exists true, up'.
    split; [done|]. apply Hk; [apply Hf'|done].
  - by left.
  - done.
Qed.

Lemma sound_run n p p' : rtc turn p p' → sound_at n p → sound_at n p'.
Proof. induction 1 as [|p1 p2 p3 Ht _ IH]; [done|]. intros Hs. apply IH. by eapply sound_turn. Qed.

Lemma assign_ports_dom configs i : is_Some (assign_ports configs !! i) ↔ i ∈ cfg_id <$> configs.
Proof.
  unfold assign_ports. assert (∀ m port,
    is_Some ((foldl (λ '(m, port) cfg, (<[cfg_id cfg := port]> m, add64 port 1)) (m, port) configs).1
      !! i) ↔ i ∈ cfg_id <$> configs ∨ is_Some ((m : gmap N N) !! i)) as H.
  { induction configs as [|c configs IH]; intros m port; simpl; [set_solver|].
    rewrite IH, lookup_insert_is_Some, elem_of_cons.
    destruct (decide (cfg_id c = i)); naive_solver. }
  rewrite H, lookup_empty. split; [|by left]. by intros [?|[? ?]].
Qed.

Lemma fixture_fits n port :
  let configs := gen_raft_configs (gen_local_instances n port) in
  fits_net n false (all n) (fixture configs).
Proof.
  intros configs. assert (cfg_id <$> configs = upto n) as Hids.
  { unfold configs, gen_raft_configs. rewrite <- list_fmap_compose. apply gen_local_ids. }
  split; simpl; try done.
  - by rewrite Hids.
  - intros i. rewrite Hids. unfold for_ids. case_bool_decide as Hi.
    + apply elem_of_list_to_map_1; [|by apply list_elem_of_fmap; exists i; unfold all in Hi; set_solver].
      rewrite <- list_fmap_compose, list_fmap_id. apply NoDup_upto.
    + apply not_elem_of_list_to_map_1. rewrite <- list_fmap_compose, list_fmap_id.
      unfold all in Hi. by rewrite elem_of_list_to_set in Hi.
  - intros i. rewrite assign_ports_dom, Hids. unfold all. by rewrite elem_of_list_to_set.
Qed.

(** ** Rules for supported scripts *)

Lemma supported_assert n b up c k : supported n b up k → supported n b up (assert c k).
Proof. intros H. by destruct c. Qed.

Lemma supported_value {A} n b up (o : option A) k :
  (∀ v, o = Some v → supported n b up (k v)) → supported n b up (value o k).
Proof. intros H. destruct o; [by apply H|done]. Qed.

Lemma supported_foreach {A} n b up (body : A → script → script) l k :
  (∀ a k, a ∈ l → supported n b up k → supported n b up (body a k)) →
  supported n b up k → supported n b up (foreach l body k).
Proof.
  intros Hb Hk. induction l as [|a l IH]; [done|]. simpl.
  apply Hb; [by left|]. apply IH. intros a' k' Ha'. apply Hb. by right.
Qed.

(** The nodes that are connected when [l] are not. *)
Definition without (n : N) (l : list N) : gset N := all n ∖ list_to_set l.

Lemma elem_of_without n l x : x ∈ without n l ↔ x < n ∧ x ∉ l.
Proof. unfold without. by rewrite elem_of_difference, elem_of_all, elem_of_list_to_set. Qed.

Lemma without_ext n l l' : (∀ x, x < n → x ∈ l ↔ x ∈ l') → without n l = without n l'.
Proof. intros H. apply set_eq. intros x. rewrite !elem_of_without. naive_solver. Qed.

Lemma size_without n l : n ≤ N.of_nat (size (without n l)) + vsize l.
Proof.
  assert (size (list_to_set (C := gset N) l) ≤ length l)%nat.
  { induction l as [|x l IH]; [by vm_compute|]. cbn [list_to_set length].
    rewrite size_union_alt, size_singleton. etrans; [|apply le_n_S, IH].
    apply le_n_S, subseteq_size. set_solver. }
  unfold without. rewrite size_difference_alt, size_all.
  assert (size (all n ∩ list_to_set l) ≤ size (list_to_set (C := gset N) l))%nat
    by (apply subseteq_size; set_solver).
  unfold vsize. lia.
Qed.

Lemma size_without_eq n l :
  NoDup l → (∀ x, x ∈ l → x < n) → N.of_nat (size (without n l)) + vsize l = n.
Proof.
  intros Hnd Hl. unfold without. assert (list_to_set l ⊆ all n) as Hs.
  { intros x. rewrite elem_of_list_to_set, elem_of_all. apply Hl. }
  pose proof (subseteq_size _ _ Hs) as Hle.
  rewrite size_difference by done. rewrite size_list_to_set, size_all in * by done.
  unfold vsize. lia.
Qed.

(** One rule per command. *)
Section rules.
Context (n : N).
Abbreviation ok l sc := (supported n true (without n l) sc).

Lemma ok_ext l l' sc : (∀ x, x < n → x ∈ l ↔ x ∈ l') → ok l sc → ok l' sc.
Proof. intros H. by rewrite (without_ext n l l'). Qed.

Lemma ok_begin k : ok [] (k ()) → supported n false (all n) (Do Begin k).
Proof.
  intros H. split; [done|]. intros [] up' _ ->.
  by replace (all n) with (without n []) by (unfold without; set_solver).
Qed.

Lemma ok_leader l k :
  quorum n + vsize l ≤ n → (∀ x, x < n → x ∉ l → ok l (k (Some x))) → ok l (Do CheckOneLeader k).
Proof.
  intros Hq Hk. pose proof (size_without n l). split; [split; [done|]; simpl; lia|].
  intros r up' _ [(x & -> & [? ?]%elem_of_without) ->]. by apply Hk.
Qed.

Lemma ok_terms l k : vsize l < n → (∀ x, ok l (k (Some x))) → ok l (Do CheckTerms k).
Proof.
  intros Hl Hk. pose proof (size_without n l). split; [split; [done|]; simpl|].
  - intros E. rewrite E, size_empty in *. lia.
  - intros r up' _ [(x & ->) ->]. by apply Hk.
Qed.

Lemma ok_no_leader l k :
  NoDup l → (∀ x, x ∈ l → x < n) → n < quorum n + vsize l → ok l (k ()) → ok l (Do CheckNoLeader k).
Proof.
  intros Hnd Hl Hq Hk. pose proof (size_without_eq n l Hnd Hl).
  split; [split; [done|]; simpl; lia|]. by intros [] up' _ ->.
Qed.

Lemma ok_disconnect id l k : id < n → ok (id :: l) (k ()) → ok l (Do (Disconnect id) k).
Proof.
  intros Hid Hk. split; [done|]. intros [] up' _ ->.
  by replace (without n l ∖ {[id]}) with (without n (id :: l)) by (unfold without; set_solver).
Qed.

Lemma ok_reconnect id l l' k :
  id < n → (∀ x, x < n → x ∈ l' ↔ x ∈ l ∧ x ≠ id) → ok l' (k ()) → ok l (Do (Reconnect id) k).
Proof.
  intros Hid Hl Hk. split; [done|]. intros [] up' _ ->.
  replace (without n l ∪ {[id]}) with (without n l'); [done|]. apply set_eq. intros x.
  rewrite elem_of_union, !elem_of_without, elem_of_singleton.
  destruct (decide (x = id)) as [->|]; naive_solver.
Qed.

Lemma ok_reconnect_all l k : ok [] (k ()) → ok l (Do ReconnectAll k).
Proof.
  intros Hk. split; [done|]. intros [] up' _ ->.
  by replace (all n) with (without n []) by (unfold without; set_solver).
Qed.

Lemma ok_one data expected retry l k :
  N.max expected (quorum n) + vsize l ≤ n → (∀ r, ok l (k r)) → ok l (Do (One data expected retry) k).
Proof.
  intros Hq Hk. pose proof (size_without n l). split; [split; [done|]; simpl; lia|].
  intros r up' _ ->. apply Hk.
Qed.

Lemma ok_disconnect_all l k : ok (upto n) (k ()) → ok l (Do DisconnectAll k).
Proof.
  intros Hk. split; [done|]. intros [] up' _ ->.
  by replace (∅ : gset N) with (without n (upto n)) by (unfold without, all; set_solver).
Qed.

Lemma ok_wait i m o l k :
  N.max m (quorum n) + vsize l ≤ n → (∀ r, ok l (k r)) → ok l (Do (WaitFor i m o) k).
Proof.
  intros Hq Hk. pose proof (size_without n l). split; [split; [done|]; simpl; lia|].
  intros r up' _ ->. apply Hk.
Qed.

Lemma ok_propose id data l k : id < n → (∀ r, ok l (k r)) → ok l (Do (ProposeTo id data) k).
Proof. intros Hid Hk. split; [done|]. intros r up' _ ->. apply Hk. Qed.

Lemma ok_propose_all data to l k :
  (∀ i, i < n → is_Some (to !! i)) → (∀ r, ok l (k r)) → ok l (Do (ProposeAll data to) k).
Proof. intros Hid Hk. split; [done|]. intros r up' _ ->. apply Hk. Qed.

(** The questions that any cluster can answer. *)
Lemma ok_states l k : (∀ r, ok l (k r)) → ok l (Do AllStates k).
Proof. intros Hk. split; [done|]. intros r up' _ ->. apply Hk. Qed.

Lemma ok_count l k : (∀ r, ok l (k r)) → ok l (Do RpcCount k).
Proof. intros Hk. split; [done|]. intros r up' _ ->. apply Hk. Qed.

Lemma ok_bytes l k : (∀ r, ok l (k r)) → ok l (Do RpcBytes k).
Proof. intros Hk. split; [done|]. intros r up' _ ->. apply Hk. Qed.

Lemma ok_random len l k : (∀ r, ok l (k r)) → ok l (Do (RandomString len) k).
Proof. intros Hk. split; [done|]. intros r up' _ ->. apply Hk. Qed.

Lemma ok_pick m exclude l k :
  NoDup exclude → (∀ x, x ∈ exclude → x < n) → m + vsize exclude ≤ n →
  (∀ r, NoDup r → vsize r = m → (∀ x, x ∈ r → x < n ∧ x ∉ exclude) → ok l (k r)) →
  ok l (Do (Pick m exclude) k).
Proof.
  intros Hnd Hlt Hm Hk. split; [done|]. intros r up' _ [(? & ? & ?) ->]. by apply Hk.
Qed.

Lemma ok_committed i l k : (∀ r, ok l (k r)) → ok l (Do (NCommitted i) k).
Proof. intros Hk. split; [done|]. intros r up' _ ->. apply Hk. Qed.

Lemma ok_sleep ms l k : ok l (k ()) → ok l (Do (Sleep ms) k).
Proof. intros Hk. split; [done|]. by intros [] up' _ ->. Qed.

Lemma ok_expect b l k : ok l (k ()) → ok l (Do (Expect b) k).
Proof. intros Hk. split; [done|]. by intros [] up' _ ->. Qed.

Lemma ok_disconnects ids l k : (∀ x, x ∈ ids → x < n) →
  ok (ids ++ l) k → ok l (foreach ids (λ id k, Disconnect id ⨟ k) k).
Proof.
  revert l. induction ids as [|id ids IH]; intros l Hids Hk; [done|]. simpl.
  apply ok_disconnect; [apply Hids; by left|]. apply IH; [intros x Hx; apply Hids; by right|].
  eapply ok_ext; [|exact Hk]. set_solver.
Qed.

Lemma ok_reconnects ids l l' k : (∀ x, x ∈ ids → x < n) →
  (∀ x, x < n → x ∈ l' ↔ x ∈ l ∧ x ∉ ids) →
  ok l' k → ok l (foreach ids (λ id k, Reconnect id ⨟ k) k).
Proof.
  revert l. induction ids as [|id ids IH]; intros l Hids Hl Hk; simpl.
  { eapply ok_ext; [|exact Hk]. set_solver. }
  apply (ok_reconnect id l (filter (λ x, x ≠ id) l)); [apply Hids; by left| |].
  - intros x _. rewrite list_elem_of_filter. tauto.
  - apply IH; [intros x Hx; apply Hids; by right| |done].
    intros x Hx. rewrite list_elem_of_filter, Hl by done. set_solver.
Qed.
End rules.

(** Counting the servers that are left. *)
Ltac count_up :=
  rewrite ?vsize_app, ?vsize_cons, ?vsize_nil;
  repeat match goal with |- context [quorum ?n] =>
    let q := eval vm_compute in (quorum n) in change (quorum n) with q end;
  lia.

(** The commands whose rule needs nothing but counting; loops are left alone. *)
Ltac ok_step :=
  cbn [value deref];
  lazymatch goal with
  | |- supported _ _ _ Pass => exact I
  | |- supported _ _ _ (assert _ _) => apply supported_assert
  | |- supported _ _ _ (Do ?c _) =>
      lazymatch c with
      | Begin => apply ok_begin
      | Sleep _ => apply ok_sleep
      | Expect _ => apply ok_expect
      | NCommitted _ => apply ok_committed; intros ?
      | CheckTerms => apply ok_terms; [count_up|intros ?]
      | CheckOneLeader => apply ok_leader; [count_up|intros ? ? ?]
      | One _ _ _ => apply ok_one; [count_up|intros [?|]; [|exact I]]
      | WaitFor _ _ _ => apply ok_wait; [count_up|intros [?|]; [|exact I]]
      | ProposeTo _ _ => apply ok_propose; [done|intros ?]
      | AllStates => apply ok_states; intros ?
      | RpcCount => apply ok_count; intros ?
      | RpcBytes => apply ok_bytes; intros ?
      | RandomString _ => apply ok_random; intros ?
      | Disconnect _ => apply ok_disconnect; [done|]
      | ReconnectAll => apply ok_reconnect_all
      end
  end.

Lemma next_server l n : 1 < n → l < n → (l + 1) mod n < n ∧ (l + 1) mod n ≠ l.
Proof.
  intros Hn Hl. split; [apply N.mod_lt; lia|]. destruct (decide (l + 1 = n)) as [E|].
  - rewrite E, N.Div0.mod_same. lia.
  - rewrite N.mod_small by lia. lia.
Qed.

(** The leader that the check names. *)
Ltac ok_leader_as l Hl := apply ok_leader; [count_up|intros l Hl ?]; cbn [value deref].

(** Two servers cut off are two. *)
Lemma ok_no_leader_pair n a b k :
  a < n → b < n → a ≠ b → n < quorum n + 2 →
  supported n true (without n [a; b]) (k ()) →
  supported n true (without n [a; b]) (Do CheckNoLeader k).
Proof.
  intros Ha Hb Hne Hq Hk. apply ok_no_leader; [| |done|done].
  - apply NoDup_cons. split; [by intros ?%list_elem_of_singleton|apply NoDup_singleton].
  - intros x [->| ->%list_elem_of_singleton]%elem_of_cons; done.
Qed.

(** Picking [m] servers that are not [exclude]. *)
Ltac ok_pick_as ids Hnd Hlen Hids :=
  apply ok_pick; cbn [option_list option_rect];
    [solve [apply NoDup_nil; exact I | apply NoDup_singleton]
    |set_solver|count_up|intros ids Hnd Hlen Hids].

Lemma std_set_perm l : NoDup l → std_set l ≡ₚ l.
Proof.
  intros Hnd. unfold std_set. rewrite merge_sort_Permutation.
  apply NoDup_Permutation; [apply NoDup_remove_dups|done|apply elem_of_remove_dups].
Qed.

(** Distinct servers, as many as there are, are all of them. *)
Lemma every_server n l x : NoDup l → (∀ y, y ∈ l → y < n) → vsize l = n → x < n → x ∈ l.
Proof.
  intros Hnd Hl Hlen Hx. pose proof (size_without_eq n l Hnd Hl) as Hs.
  assert (without n l = ∅) as E by (apply leibniz_equiv, size_empty_inv; lia).
  destruct (decide (x ∈ l)) as [|Hn]; [done|]. assert (x ∈ without n l) as H by (by apply elem_of_without).
  rewrite E in H. set_solver.
Qed.

(** ** A run *)

(** A scenario played on given answers, all of its nodes ready. *)
Fixpoint play (es : list Env) (sc : script) (t : tester) : option (script * tester) :=
  match es, sc with
  | e :: es, Do c k =>
      match perform e c t with
      | Some (Ok r, t) => play es (k r) t
      | Some (Aborts _, t) => Some (Fail, t)
      | Some (Undef, t) => Some (Crash, t)
      | None => None
      end
  | _, _ => Some (sc, t)
  end.

Lemma play_turns es : ∀ sc t p,
  Forall honest_env es → play es sc t = Some p → rtc turn (sc, t) p.
Proof.
  induction es as [|e es IH]; intros sc t p He Hp; simpl in Hp; [by simplify_eq|].
  apply Forall_cons_1 in He as [He Hes]. destruct sc as [| | |c k]; try by simplify_eq.
  destruct (perform e c t) as [[[r|msg|] t']|] eqn:Hc; [| | |done]; simplify_eq.
  - eapply rtc_l; [by eapply T_ok|]. by eapply IH.
  - eapply rtc_once. by eapply T_abort.
  - eapply rtc_once. by eapply T_undef.
Qed.

Definition all_ready (t : tester) : tester :=
  mkTester (foldr (λ id c, ReportReady id (id + 100) c) (ctrl t) (elements (raft_ids (cfg t))))
    (cfg t) (recorded t).

(** A calm cluster: node 0 leads in term 1, nothing fails. *)
Definition calm : Env :=
  mkEnv (λ _, true) ∅ (λ _, false) (λ _ i, Some (mkWireState 1 (i =? 0) i)) (λ _, None)
    (λ _, mkGlance (TestConfig_init []) false []) 0 [] (λ _, None) [] (λ l, l).

Lemma calm_honest : honest_env calm.
Proof.
  split; [|done]. intros k i st [= <-].
  exists (set_rw_raft (set_role_ (if i =? 0 then LEADER else FOLLOWER)
            (set_current_term_ 1 (Raft_init (mkConfig i "" ∅) 0)))
            (RaftWrapper_init "" 55001 (mkConfig i "" ∅) 0 NetInterceptor_init)).
  split_and!; [done..|]. by destruct (i =? 0).
Qed.

