(* ===== verification/RaftTests.v ===== *)
(** The scenarios of [integration_tests/raft_test.cpp], the tests of elections and of log
    replication, as scripts ([Script.v]).

    [std::async] proposals are made one after the other: their answers are arbitrary.
    Warnings and logging are left out; a loop that the code leaves with [continue] goes on
    with the next try, and the fatal assertion behind it fails when no try is left. *)
From stdpp Require Import pretty.
From S2P Require Import Prelude Types ConfigGen RaftState RaftNode RaftNodeFacts Cluster.
From S2P Require Import NetInterceptor NodeApp Wrapper TestCtrl TestConfig Script.

#[local] Open Scope N_scope.
#[local] Open Scope script_scope.

(** ** Elections *)

Definition InitialElectionA : script :=
  Begin ⨟
  CheckOneLeader ⨟
  Sleep 100 ⨟
  term1 ⇐ CheckTerms;
  assert (has_value term1) (
    value term1 (λ t, assert (1 <=? t) (
      Sleep (2 * TIMEOUT) ⨟
      term2 ⇐ CheckTerms;
      assert (has_value term2) (
        value term2 (λ _, CheckOneLeader ⨟ Pass))))).

Definition ReElectionA : script :=
  Begin ⨟
  leader1 ⇐ CheckOneLeader;
  Expect (has_value leader1) ⨟
  deref leader1 (λ l1,
    Disconnect l1 ⨟
    CheckOneLeader ⨟
    Reconnect l1 ⨟
    leader2 ⇐ CheckOneLeader;
    Expect (has_value leader2) ⨟
    deref leader2 (λ l2,
      Disconnect ((l2 + 1) mod 3) ⨟
      Disconnect l2 ⨟
      Sleep (2 * TIMEOUT) ⨟
      CheckNoLeader ⨟
      Reconnect ((l2 + 1) mod 3) ⨟
      CheckOneLeader ⨟
      Reconnect l2 ⨟
      CheckOneLeader ⨟
      Pass)).

Definition ManyElectionA : script :=
  Begin ⨟
  CheckOneLeader ⨟
  foreach (seq 0 5) (λ _ k,
    ids ⇐ Pick 3 [];
    foreach ids (λ id k, Disconnect id ⨟ k) (
      CheckOneLeader ⨟
      foreach ids (λ id k, Reconnect id ⨟ k) k)) (
    CheckOneLeader ⨟ Pass).

Definition LeaderStepsDownOnHigherTermA : script :=
  Begin ⨟
  leader1 ⇐ CheckOneLeader;
  assert (has_value leader1) (
  term1 ⇐ CheckTerms;
  assert (has_value term1) (
  deref leader1 (λ l1, deref term1 (λ t1,
  Disconnect l1 ⨟
  leader2 ⇐ CheckOneLeader;
  assert (has_value leader2) (
  deref leader2 (λ l2, assert (negb (l1 =? l2)) (
  term2 ⇐ CheckTerms;
  assert (has_value term2) (
  deref term2 (λ t2, assert (t1 <? t2) (
  Reconnect l1 ⨟
  Sleep (2 * TIMEOUT) ⨟
  final_leader ⇐ CheckOneLeader;
  assert (has_value final_leader) (
  final_term ⇐ CheckTerms;
  assert (has_value final_term) (
  deref final_term (λ tf, assert (t2 <=? tf) Pass))))))))))))).

Definition RapidLeaderChurnA : script :=
  Begin ⨟
  initial_leader ⇐ CheckOneLeader;
  assert (has_value initial_leader) (
  initial_term ⇐ CheckTerms;
  assert (has_value initial_term) (
  deref initial_term (λ t0,
  foreach (seq 0 10) (λ _ k,
    leader ⇐ CheckOneLeader;
    assert (has_value leader) (
      deref leader (λ l,
        Disconnect l ⨟
        Sleep TIMEOUT ⨟
        new_leader ⇐ CheckOneLeader;
        assert (has_value new_leader) (
          deref new_leader (λ _,
            Reconnect l ⨟
            Sleep (TIMEOUT / 2) ⨟
            k))))) (
  Sleep TIMEOUT ⨟
  final_leader ⇐ CheckOneLeader;
  assert (has_value final_leader) (
  final_term ⇐ CheckTerms;
  assert (has_value final_term) (
  deref final_term (λ tf, assert (t0 <? tf) Pass))))))).

(** ** Agreement *)

(** The body that [BasicAgreeB] and [ManyAgreeB] share. *)
Definition agree_in_order (servers : N) (iters : nat) : script :=
  foreach (N.of_nat <$> seq 1 iters) (λ i k,
    cr ⇐ NCommitted i;
    assert (negb (0 <? cr)) (
      xindex ⇐ One (to_string (i * 100)) servers false;
      assert (has_value xindex) (
        deref xindex (λ x, assert (x =? i) k)))) Pass.

Definition BasicAgreeB : script := Begin ⨟ agree_in_order 3 3.
Definition ManyAgreeB : script := Begin ⨟ agree_in_order 5 50.

(** The proposals of [RPCBytesB], which count what they send. *)
Fixpoint send_random (indices : list N) (sent : N) (k : N → script) : script :=
  match indices with
  | [] => k sent
  | index :: indices =>
      rand_str ⇐ RandomString 1000;
      xindex ⇐ One rand_str 3 false;
      assert (has_value xindex) (
        value xindex (λ x, assert (x =? index) (
          send_random indices (add64 sent (N.of_nat (String.length rand_str))) k)))
  end.

Definition RPCBytesB : script :=
  Begin ⨟
  one1 ⇐ One "99" 3 false;
  assert (has_value one1) (
    bytes0 ⇐ RpcBytes;
    send_random (N.of_nat <$> seq 2 10) 0 (λ sent,
      bytes1 ⇐ RpcBytes;
      assert (negb (add64 (wrap64 (2 * sent)) 10000 <? sub64 bytes1 bytes0)) Pass)).

(** [ASSERT_TRUE(cfg.one(..).has_value())] *)
Definition agreed (data : string) (servers : N) (retry : bool) (k : script) : script :=
  one1 ⇐ One data servers retry;
  assert (has_value one1) k.

Definition FailAgreeB : script :=
  Begin ⨟
  agreed "101" 3 false (
  leader ⇐ CheckOneLeader;
  assert (has_value leader) (
  value leader (λ l,
  ids ⇐ Pick 1 [l];
  index_at ids 0 (λ id,
  Disconnect id ⨟
  Sleep (TIMEOUT / 2) ⨟
  agreed "102" 2 false (
  agreed "103" 2 false (
  Sleep TIMEOUT ⨟
  agreed "104" 2 false (
  agreed "105" 2 false (
  Reconnect id ⨟
  Sleep TIMEOUT ⨟
  agreed "106" 3 false (
  Sleep TIMEOUT ⨟
  agreed "107" 3 false Pass))))))))).

Definition FailNoAgreeExtraB : script :=
  Begin ⨟
  agreed "10" 5 false (
  leader ⇐ CheckOneLeader;
  assert (has_value leader) (
  value leader (λ l,
  ids ⇐ Pick 3 [l];
  foreach ids (λ id k, Disconnect id ⨟ k) (
  r ⇐ ProposeTo l "20";
  assert (pr_is_leader r) (
  assert (pr_index r =? 2) (
  Sleep (2 * TIMEOUT) ⨟
  cr ⇐ NCommitted (pr_index r);
  assert (negb (0 <? cr)) (
  foreach ids (λ id k, Reconnect id ⨟ k) (
  leader2 ⇐ CheckOneLeader;
  assert (has_value leader2) (
  value leader2 (λ l2,
  r1 ⇐ ProposeTo l2 "30";
  assert (pr_is_leader r1) (
  assert (negb ((pr_index r1 <? 2) || (3 <? pr_index r1))) (
  agreed "1000" 5 false Pass)))))))))))).

(** [ConcurrentStartsB]: the proposals of one try, the indices of those that the leader
    took in its term. *)
Fixpoint start_all (l term : N) (iis : list N) (indices : list N) (k : list N → script) : script :=
  match iis with
  | [] => k indices
  | ii :: iis =>
      r ⇐ ProposeTo l (to_string (100 + ii));
      start_all l term iis
        (if (pr_term r =? term) && pr_is_leader r then indices ++ [pr_index r] else indices) k
  end.

(** What was committed there; [None] if a wait gives up. *)
Fixpoint wait_all (servers term : N) (indices : list N) (cmds : list string)
    (k : option (list string) → script) : script :=
  match indices with
  | [] => k (Some cmds)
  | index :: indices =>
      wr ⇐ WaitFor index servers (Some term);
      match wr with
      | Some cmd => wait_all servers term indices (cmds ++ [cmd]) k
      | None => k None
      end
  end.

(** Before every try but the first. *)
Definition settle (first : bool) (k : script) : script := if first then k else Sleep 3000 ⨟ k.

Definition term_moved (term : N) (states : list WireState) : bool :=
  existsb (λ st, negb (ws_term st =? term)) states.

Fixpoint concurrent_starts (tries : nat) (first : bool) : script :=
  match tries with
  | O => Fail
  | S tries =>
      settle first (
      leader ⇐ CheckOneLeader;
      assert (has_value leader) (
      value leader (λ l,
      r ⇐ ProposeTo l "1";
      if negb (pr_is_leader r) then concurrent_starts tries false else
      start_all l (pr_term r) [0; 1; 2; 3; 4] [] (λ indices,
      states ⇐ AllStates;
      if term_moved (pr_term r) states then concurrent_starts tries false else
      wait_all 3 (pr_term r) indices [] (λ cmds,
      match cmds with
      | None => concurrent_starts tries false
      | Some cmds =>
          assert (forallb (λ ii, bool_decide (to_string (100 + ii) ∈ cmds)) [0; 1; 2; 3; 4]) Pass
      end)))))
  end.

Definition ConcurrentStartsB : script := Begin ⨟ concurrent_starts 5 true.

Definition RejoinB : script :=
  Begin ⨟
  agreed "101" 3 true (
  leader1 ⇐ CheckOneLeader;
  assert (has_value leader1) (
  value leader1 (λ l1,
  Disconnect l1 ⨟
  ProposeTo l1 "102" ⨟
  ProposeTo l1 "103" ⨟
  ProposeTo l1 "104" ⨟
  agreed "103" 2 true (
  leader2 ⇐ CheckOneLeader;
  assert (has_value leader2) (
  value leader2 (λ l2,
  Disconnect l2 ⨟
  Reconnect l1 ⨟
  agreed "104" 2 true (
  Reconnect l2 ⨟
  agreed "105" 3 true Pass))))))).

(** [n] proposals of random data to one server, and as many agreements. *)
Fixpoint propose_random (n : nat) (id : N) (k : script) : script :=
  match n with
  | O => k
  | S n => x ⇐ RandomString 10; ProposeTo id x ⨟ propose_random n id k
  end.

Fixpoint agree_random (n : nat) (servers : N) (k : script) : script :=
  match n with
  | O => k
  | S n => x ⇐ RandomString 10; agreed x servers true (agree_random n servers k)
  end.

Definition BackupExtraB : script :=
  Begin ⨟
  agree_random 1 5 (
  leader1 ⇐ CheckOneLeader;
  assert (has_value leader1) (
  value leader1 (λ l1,
  ids ⇐ Pick 3 [l1];
  foreach ids (λ id k, Disconnect id ⨟ k) (
  Sleep (TIMEOUT / 2) ⨟
  propose_random 50 l1 (
  Sleep (TIMEOUT / 2) ⨟
  remaining_ids ⇐ Pick 2 ids;
  foreach remaining_ids (λ id k, Disconnect id ⨟ k) (
  foreach ids (λ id k, Reconnect id ⨟ k) (
  agree_random 50 3 (
  leader2 ⇐ CheckOneLeader;
  assert (has_value leader2) (
  value leader2 (λ l2,
  picked ⇐ Pick 1 (l2 :: remaining_ids);
  index_at picked 0 (λ other,
  Disconnect other ⨟
  propose_random 50 l2 (
  Sleep (TIMEOUT / 2) ⨟
  DisconnectAll ⨟
  foreach remaining_ids (λ id k, Reconnect id ⨟ k) (
  Reconnect other ⨟
  Sleep (TIMEOUT / 2) ⨟
  agree_random 50 3 (
  ReconnectAll ⨟
  Sleep (TIMEOUT / 2) ⨟
  agree_random 1 5 Pass)))))))))))))).

(** ** Split brain *)

Definition entries6_10 : list N := N.of_nat <$> seq 6 5.

(** The new partition as a filter: nobody but [ids]. *)
Definition partition_of (all_servers ids : list N) : gmap N bool :=
  foldl (λ m id, <[id := true]> m) (foldl (λ m id, <[id := false]> m) ∅ all_servers) ids.

(** One leader answers, with index [i]; [None] is a fatal assertion. *)
Fixpoint one_answer (i : N) (rs : list WireProposal) (new_leader : option N) : option (option N) :=
  match rs with
  | [] => Some new_leader
  | r :: rs =>
      if wp_is_leader r then
        let lid := wp_id r in
        if bool_decide (default lid new_leader = lid) && (wp_index r =? i)
        then one_answer i rs (Some (default lid new_leader)) else None
      else one_answer i rs new_leader
  end.

Fixpoint propose_partition (part : gmap N bool) (is_ : list N) (new_leader : option N) (k : script)
    : script :=
  match is_ with
  | [] => k
  | i :: is_ =>
      rs ⇐ ProposeAll ("entry_on_new_partition_" +:+ to_string i) part;
      match one_answer i rs new_leader with
      | Some new_leader => propose_partition part is_ new_leader k
      | None => Fail
      end
  end.

Definition AgreeOnSplitBrainExtraB : script :=
  Begin ⨟
  foreach (N.of_nat <$> seq 1 5) (λ i k,
    xindex ⇐ One ("entry" +:+ to_string i) 5 false;
    assert (has_value xindex) (deref xindex (λ x, assert (x =? i) k))) (
  leader ⇐ CheckOneLeader;
  assert (has_value leader) (
  value leader (λ l,
  ids ⇐ Pick 3 [l];
  foreach ids (λ id k, Disconnect id ⨟ k) (
  foreach entries6_10 (λ i k,
    r ⇐ ProposeTo l ("entry_old_leader_" +:+ to_string i);
    assert (pr_is_leader r) (assert (pr_index r =? i) k)) (
  Sleep (2 * TIMEOUT) ⨟
  foreach entries6_10 (λ i k, cr ⇐ NCommitted i; assert (negb (0 <? cr)) k) (
  all_servers ⇐ Pick 5 [];
  propose_partition (partition_of all_servers ids) entries6_10 None (
  Sleep (2 * TIMEOUT) ⨟
  foreach ids (λ id k, Reconnect id ⨟ k) (
  Sleep (2 * TIMEOUT) ⨟
  foreach entries6_10 (λ i k, cr ⇐ NCommitted i; assert (cr =? 5) k) (
  leader2 ⇐ CheckOneLeader;
  assert (has_value leader2) (
  value leader2 (λ l2,
  r1 ⇐ ProposeTo l2 "1000";
  assert (pr_is_leader r1) (
  agreed "2000" 5 false Pass)))))))))))).

(** ** The number of calls *)

(** The proposals of a try; [None] if the term or the leader changes. *)
Fixpoint propose_series (l starti term : N) (is_ : list N) (cmds : list string)
    (k : option (list string) → script) : script :=
  match is_ with
  | [] => k (Some cmds)
  | i :: is_ =>
      x ⇐ RandomString 10;
      p ⇐ ProposeTo l x;
      if negb (pr_term p =? term) || negb (pr_is_leader p) then k None
      else assert (add64 starti i =? pr_index p) (propose_series l starti term is_ (cmds ++ [x]) k)
  end.

Fixpoint wait_series (starti term : N) (is_ : list N) (cmds : list string) (k : bool → script) : script :=
  match is_ with
  | [] => k true
  | i :: is_ =>
      wr ⇐ WaitFor (add64 starti i) 3 (Some term);
      match wr with
      | None => k false
      | Some v =>
          index_at cmds (N.to_nat (i - 1)) (λ x,
            assert (bool_decide (v = x)) (wait_series starti term is_ cmds k))
      end
  end.

Fixpoint count_calls (tries : nat) (first : bool) (k : N → script) : script :=
  match tries with
  | O => Fail
  | S tries =>
      settle first (
      leader ⇐ CheckOneLeader;
      assert (has_value leader) (
      total1 ⇐ RpcCount;
      value leader (λ l,
      p ⇐ ProposeTo l "1";
      if negb (pr_is_leader p) then count_calls tries false k else
      propose_series l (pr_index p) (pr_term p) (N.of_nat <$> seq 1 11) [] (λ cmds,
      match cmds with
      | None => count_calls tries false k
      | Some cmds =>
          wait_series (pr_index p) (pr_term p) (N.of_nat <$> seq 1 10) cmds (λ ok,
          if (ok : bool) then
            states ⇐ AllStates;
            total2 ⇐ RpcCount;
            if term_moved (pr_term p) states then count_calls tries false k
            else assert (sub64 total2 total1 <=? 42) (k total2)
          else count_calls tries false k)
      end))))
  end.

Definition RPCCountB : script :=
  Begin ⨟
  CheckOneLeader ⨟
  total1 ⇐ RpcCount;
  assert (negb ((35 <? total1) || (total1 <? 1))) (
    count_calls 5 true (λ total2,
      Sleep TIMEOUT ⨟
      total3 ⇐ RpcCount;
      assert (sub64 total3 total2 <=? 300) Pass)).

(** ** They are supported *)

Lemma ok_InitialElectionA : supported 3 false (all 3) InitialElectionA.
Proof. unfold InitialElectionA. repeat ok_step. Qed.

Lemma ok_ReElectionA : supported 3 false (all 3) ReElectionA.
Proof.
  unfold ReElectionA. ok_step. ok_leader_as l Hl. repeat ok_step.
  apply (ok_reconnect 3 l _ []); [done|set_solver|]. ok_leader_as l2 Hl2.
  destruct (next_server l2 3) as [Hm Hne]; [done..|]. repeat ok_step.
  apply ok_no_leader_pair; [done..|].
  apply (ok_reconnect 3 _ _ [l2]); [done|set_solver|]. repeat ok_step.
  apply (ok_reconnect 3 _ _ []); [done|set_solver|]. repeat ok_step.
Qed.

Lemma ok_ManyElectionA : supported 7 false (all 7) ManyElectionA.
Proof.
  unfold ManyElectionA. repeat ok_step. apply supported_foreach; [|repeat ok_step].
  intros i k _ Hk. ok_pick_as ids Hnd Hlen Hids. apply ok_disconnects; [apply Hids|]. ok_step.
  by apply (ok_reconnects 7 ids _ []); [apply Hids|set_solver|].
Qed.

Lemma ok_LeaderStepsDownOnHigherTermA : supported 3 false (all 3) LeaderStepsDownOnHigherTermA.
Proof.
  unfold LeaderStepsDownOnHigherTermA. ok_step. ok_leader_as l1 Hl1. repeat ok_step.
  apply (ok_reconnect 3 l1 _ []); [done|set_solver|]. repeat ok_step.
Qed.

Lemma ok_RapidLeaderChurnA : supported 5 false (all 5) RapidLeaderChurnA.
Proof.
  unfold RapidLeaderChurnA. repeat ok_step. apply supported_foreach; [|repeat ok_step].
  intros i k _ Hk. ok_leader_as l Hl. repeat ok_step.
  apply (ok_reconnect 5 l _ []); [done|set_solver|]. by repeat ok_step.
Qed.

Lemma ok_agree_in_order n iters : 0 < n → supported n true (without n []) (agree_in_order n iters).
Proof.
  intros Hn. unfold agree_in_order. apply supported_foreach; [|done]. intros i k _ Hk. do 2 ok_step.
  apply ok_one; [unfold quorum; rewrite vsize_nil|intros [x|]; [by repeat ok_step|exact I]].
  pose proof (N.div_lt n 2 Hn eq_refl). lia.
Qed.

Lemma ok_BasicAgreeB : supported 3 false (all 3) BasicAgreeB.
Proof. unfold BasicAgreeB. ok_step. by apply ok_agree_in_order. Qed.

Lemma ok_ManyAgreeB : supported 5 false (all 5) ManyAgreeB.
Proof. unfold ManyAgreeB. ok_step. by apply ok_agree_in_order. Qed.

Lemma ok_RPCBytesB : supported 3 false (all 3) RPCBytesB.
Proof.
  unfold RPCBytesB. do 4 ok_step. generalize (N.of_nat <$> seq 2 10), 0%N.
  intros indices. induction indices as [|i indices IH]; intros sent; cbn [send_random]; [repeat ok_step|].
  do 4 ok_step. apply IH.
Qed.

(** The shorthand for an agreement. *)
Lemma ok_agreed n data servers retry l k :
  N.max servers (quorum n) + vsize l ≤ n → supported n true (without n l) k →
  supported n true (without n l) (agreed data servers retry k).
Proof.
  intros Hq Hk. unfold agreed. apply ok_one; [done|]. intros [?|]; [|done]. by apply supported_assert.
Qed.

Ltac ok_agree := apply ok_agreed; [count_up|].

Lemma ok_FailAgreeB : supported 3 false (all 3) FailAgreeB.
Proof.
  unfold FailAgreeB. ok_step. ok_agree. ok_leader_as l Hl. ok_step. ok_pick_as ids Hnd Hlen Hids.
  destruct ids as [|id ids]; [done|]. destruct (Hids id) as [Hid _]; [by left|].
  unfold index_at. cbn [lookup list_lookup]. repeat (ok_step || ok_agree).
  apply (ok_reconnect 3 id _ []); [done|set_solver|]. repeat (ok_step || ok_agree).
Qed.

Lemma ok_FailNoAgreeExtraB : supported 5 false (all 5) FailNoAgreeExtraB.
Proof.
  unfold FailNoAgreeExtraB. ok_step. ok_agree. ok_leader_as l Hl. ok_step.
  ok_pick_as ids Hnd Hlen Hids. apply ok_disconnects; [apply Hids|]. repeat ok_step.
  apply (ok_reconnects 5 ids _ []); [apply Hids|set_solver|]. repeat (ok_step || ok_agree).
Qed.

#[local] Arguments supported : simpl never.

(** The loops, for every continuation that is supported. *)
Section loops.
Context (n : N) (l : list N).
Abbreviation ok sc := (supported n true (without n l) sc).

Lemma ok_settle first k : ok k → ok (settle first k).
Proof. intros Hk. unfold settle. destruct first; [done|]. by apply ok_sleep. Qed.

Lemma ok_start_all id term iis k :
  id < n → (∀ indices, ok (k indices)) → ∀ indices, ok (start_all id term iis indices k).
Proof.
  intros Hid Hk. induction iis as [|ii iis IH]; intros indices; [apply Hk|]. simpl.
  apply ok_propose; [done|]. intros r. apply IH.
Qed.

Lemma ok_wait_all servers term k :
  N.max servers (quorum n) + vsize l ≤ n → (∀ o, ok (k o)) →
  ∀ indices cmds, ok (wait_all servers term indices cmds k).
Proof.
  intros Hq Hk indices. induction indices as [|i indices IH]; intros cmds; [apply Hk|]. simpl.
  apply ok_wait; [done|]. intros [cmd|]; [apply IH|apply Hk].
Qed.

Lemma ok_propose_random m id k : id < n → ok k → ok (propose_random m id k).
Proof.
  intros Hid Hk. induction m as [|m IH]; [done|]. simpl. apply ok_random. intros x.
  by apply ok_propose.
Qed.

Lemma ok_agree_random m servers k :
  N.max servers (quorum n) + vsize l ≤ n → ok k → ok (agree_random m servers k).
Proof.
  intros Hq Hk. induction m as [|m IH]; [done|]. simpl. apply ok_random. intros x. by apply ok_agreed.
Qed.

Lemma ok_propose_partition part is_ k :
  (∀ i, i < n → is_Some (part !! i)) → ok k → ∀ leader, ok (propose_partition part is_ leader k).
Proof.
  intros Hp Hk. induction is_ as [|i is_ IH]; intros leader; [done|]. simpl.
  apply ok_propose_all; [done|]. intros rs. destruct (one_answer i rs leader); [apply IH|done].
Qed.

Lemma ok_propose_series id starti term k :
  id < n → ok (k None) →
  ∀ is_ cmds, (∀ cmds', length cmds' = (length cmds + length is_)%nat → ok (k (Some cmds'))) →
  ok (propose_series id starti term is_ cmds k).
Proof.
  intros Hid Hn is_. induction is_ as [|i is_ IH]; intros cmds Hk; simpl; [apply Hk; simpl; lia|].
  apply ok_random. intros x. apply ok_propose; [done|]. intros p. destruct (_ || _); [done|].
  apply supported_assert, IH. intros cmds' Hl. apply Hk. rewrite length_app in Hl. simpl in *. lia.
Qed.

Lemma ok_wait_series starti term cmds k :
  N.max 3 (quorum n) + vsize l ≤ n → (∀ b, ok (k b)) →
  ∀ is_, (∀ i, i ∈ is_ → 1 ≤ i ≤ vsize cmds) → ok (wait_series starti term is_ cmds k).
Proof.
  intros Hq Hk is_. induction is_ as [|i is_ IH]; intros Hi; simpl; [apply Hk|].
  apply ok_wait; [done|]. intros [v|]; [|apply Hk]. unfold index_at.
  destruct (Hi i) as [H1 H2]; [by left|].
  destruct (lookup_lt_is_Some_2 cmds (N.to_nat (i - 1))) as [x ->]; [unfold vsize in H2; lia|].
  apply supported_assert, IH. intros j Hj. apply Hi. by right.
Qed.
End loops.

Lemma ok_concurrent_starts tries : ∀ first,
  supported 3 true (without 3 []) (concurrent_starts tries first).
Proof.
  induction tries as [|tries IH]; intros first; [done|]. cbn [concurrent_starts]. apply ok_settle.
  ok_leader_as l Hl. repeat ok_step. destruct (negb _); [apply IH|].
  apply ok_start_all; [done|]. intros indices. ok_step. destruct (term_moved _ _); [apply IH|].
  apply ok_wait_all; [count_up|]. intros [cmds|]; [by ok_step|apply IH].
Qed.

Lemma ok_ConcurrentStartsB : supported 3 false (all 3) ConcurrentStartsB.
Proof. unfold ConcurrentStartsB. ok_step. apply ok_concurrent_starts. Qed.

Lemma ok_RejoinB : supported 3 false (all 3) RejoinB.
Proof.
  unfold RejoinB. ok_step. ok_agree. ok_leader_as l1 Hl1. repeat ok_step. ok_agree.
  ok_leader_as l2 Hl2. repeat ok_step.
  apply (ok_reconnect 3 l1 _ [l2]); [done|set_solver|]. ok_agree.
  apply (ok_reconnect 3 l2 _ []); [done|set_solver|]. ok_agree. ok_step.
Qed.

Lemma ok_count_calls tries k : (∀ x, supported 3 true (without 3 []) (k x)) →
  ∀ first, supported 3 true (without 3 []) (count_calls tries first k).
Proof.
  intros Hk. induction tries as [|tries IH]; intros first; [done|]. cbn [count_calls].
  apply ok_settle. ok_leader_as l Hl. repeat ok_step. destruct (negb _); [apply IH|].
  apply ok_propose_series; [done|apply IH|]. intros cmds Hlen.
  apply ok_wait_series; [count_up| |].
  - intros [|]; [|apply IH]. do 2 ok_step. destruct (term_moved _ _); [apply IH|]. ok_step. apply Hk.
  - intros i (j & -> & Hj%elem_of_seq)%list_elem_of_fmap. unfold vsize. simpl in Hlen. lia.
Qed.

Lemma ok_RPCCountB : supported 3 false (all 3) RPCCountB.
Proof.
  unfold RPCCountB. do 4 ok_step. apply ok_count_calls. intros total2. repeat ok_step.
Qed.

(** [one1] of three servers of five, two cut off. *)
Ltac ok_randoms := apply ok_agree_random; [count_up|].

(** The second half of [BackupExtraB]: [rest] are cut off, [ids] are not. *)
Lemma ok_backup_rest (ids rest : list N) k :
  NoDup rest → vsize rest = 2 → (∀ x, x ∈ rest → x < 5 ∧ x ∉ ids) →
  supported 5 true (without 5 []) k →
  supported 5 true (without 5 rest)
    (leader2 ⇐ CheckOneLeader;
     assert (has_value leader2) (
     value leader2 (λ l2,
     picked ⇐ Pick 1 (l2 :: rest);
     index_at picked 0 (λ other,
     Disconnect other ⨟
     propose_random 50 l2 (
     Sleep (TIMEOUT / 2) ⨟
     DisconnectAll ⨟
     foreach rest (λ id k, Reconnect id ⨟ k) (
     Reconnect other ⨟
     Sleep (TIMEOUT / 2) ⨟
     agree_random 50 3 (ReconnectAll ⨟ k))))))).
Proof.
  intros Hnd Hlen Hrest Hk. apply ok_leader; [count_up|intros l2 Hl2 Hnot]. ok_step. cbn [value].
  apply ok_pick; [by apply NoDup_cons| |count_up|].
  { intros x [->|Hx]%elem_of_cons; [done|by apply Hrest]. }
  intros picked Hnp Hlp Hp. destruct picked as [|other [|? ?]]; try (unfold vsize in Hlp; simpl in Hlp; lia).
  destruct (Hp other) as [Ho Hno]; [by left|]. unfold index_at. cbn [lookup list_lookup]. ok_step.
  apply ok_propose_random; [done|]. ok_step. apply ok_disconnect_all.
  set (gone := filter (λ x, (x ∉ rest) ∧ (x ≠ other)) (upto 5)).
  apply (ok_reconnects 5 rest _ (filter (λ x, x ∉ rest) (upto 5))); [apply Hrest| |].
  { intros x Hx. rewrite list_elem_of_filter. tauto. }
  apply (ok_reconnect 5 other _ gone); [done| |].
  { intros x Hx. unfold gone. rewrite !list_elem_of_filter. tauto. }
  assert (vsize gone = 2) as Hgone.
  { assert (NoDup (other :: rest)) as Hnd' by (apply NoDup_cons; split; [set_solver|done]).
    pose proof (size_without_eq 5 (other :: rest) Hnd') as Hs.
    pose proof (size_without_eq 5 gone) as Hs'.
    assert (without 5 (other :: rest) = list_to_set gone) as E.
    { apply set_eq. intros x. unfold gone.
      rewrite elem_of_without, elem_of_list_to_set, list_elem_of_filter, elem_of_upto, not_elem_of_cons.
      tauto. }
    rewrite E, size_list_to_set, vsize_cons, Hlen in Hs by (apply NoDup_filter, NoDup_upto).
    unfold vsize in *. rewrite <- N.add_cancel_r with (p := 1 + 2). rewrite Hs; [done|].
    intros x [->|Hx]%elem_of_cons; [done|by apply Hrest]. }
  ok_step. apply ok_agree_random; [rewrite Hgone; count_up|]. by ok_step.
Qed.

Lemma ok_BackupExtraB : supported 5 false (all 5) BackupExtraB.
Proof.
  unfold BackupExtraB. ok_step. ok_randoms. ok_leader_as l1 Hl1. ok_step.
  ok_pick_as ids Hnd Hlen Hids. apply ok_disconnects; [apply Hids|]. ok_step.
  apply ok_propose_random; [done|]. ok_step.
  apply ok_pick; [done|apply Hids|count_up|]. intros rest Hndr Hlenr Hrest.
  apply ok_disconnects; [apply Hrest|].
  apply (ok_reconnects 5 ids _ rest); [apply Hids| |].
  { intros x Hx. rewrite !elem_of_app, elem_of_nil. specialize (Hrest x). tauto. }
  apply ok_agree_random; [rewrite Hlenr; count_up|].
  apply (ok_backup_rest ids); [done..|]. ok_step. ok_randoms. ok_step.
Qed.

Lemma partition_covers all_servers ids i :
  i ∈ all_servers → is_Some (partition_of all_servers ids !! i).
Proof.
  intros Hi. unfold partition_of.
  assert (∀ (v : bool) l (m : gmap N bool), i ∈ l ∨ is_Some (m !! i) →
            is_Some (foldl (λ m id, <[id := v]> m) m l !! i)) as H.
  { intros v l. induction l as [|x l IH]; intros m Hm; simpl; [set_solver|]. apply IH.
    rewrite lookup_insert_is_Some'. set_solver. }
  apply H. right. apply H. by left.
Qed.

Lemma ok_AgreeOnSplitBrainExtraB : supported 5 false (all 5) AgreeOnSplitBrainExtraB.
Proof.
  unfold AgreeOnSplitBrainExtraB. ok_step.
  apply supported_foreach; [intros i k _ Hk; by repeat ok_step|]. ok_leader_as l Hl. ok_step.
  ok_pick_as ids Hnd Hlen Hids. apply ok_disconnects; [apply Hids|].
  apply supported_foreach; [intros i k _ Hk; by repeat ok_step|]. ok_step.
  apply supported_foreach; [intros i k _ Hk; by repeat ok_step|].
  ok_pick_as servers Hnds Hlens Hservers. apply ok_propose_partition.
  { intros i Hi. apply partition_covers, (every_server 5); try done. apply Hservers. }
  ok_step. apply (ok_reconnects 5 ids _ []); [apply Hids|set_solver|]. ok_step.
  apply supported_foreach; [intros i k _ Hk; by repeat ok_step|].
  repeat (ok_step || ok_agree).
Qed.

(** The scenarios of [raft_test.cpp], with the number of nodes, the first port and the kind
    of fault injection. *)
Definition raft_tests : list (N * N * N * script) :=
  [(3, 50051, 0, InitialElectionA);
   (3, 50051, 0, ReElectionA);
   (7, 50051, 0, ManyElectionA);
   (3, 50051, 0, LeaderStepsDownOnHigherTermA);
   (5, 50051, 0, RapidLeaderChurnA);
   (3, 50051, 0, BasicAgreeB);
   (5, 50051, 0, ManyAgreeB);
   (3, 50051, 0, RPCBytesB);
   (3, 50051, 0, FailAgreeB);
   (5, 50051, 0, FailNoAgreeExtraB);
   (3, 50051, 0, ConcurrentStartsB);
   (3, 50051, 0, RejoinB);
   (5, 50051, 0, BackupExtraB);
   (5, 50051, 1, AgreeOnSplitBrainExtraB);
   (3, 50051, 0, RPCCountB)].

Lemma raft_tests_supported :
  Forall (λ x, 0 < x.1.1.1 ∧ supported x.1.1.1 false (all x.1.1.1) x.2) raft_tests.
Proof.
  repeat (apply Forall_cons; split); try done; (split; [done|]); cbn [fst snd].
  - apply ok_InitialElectionA.
  - apply ok_ReElectionA.
  - apply ok_ManyElectionA.
  - apply ok_LeaderStepsDownOnHigherTermA.
  - apply ok_RapidLeaderChurnA.
  - apply ok_BasicAgreeB.
  - apply ok_ManyAgreeB.
  - apply ok_RPCBytesB.
  - apply ok_FailAgreeB.
  - apply ok_FailNoAgreeExtraB.
  - apply ok_ConcurrentStartsB.
  - apply ok_RejoinB.
  - apply ok_BackupExtraB.
  - apply ok_AgreeOnSplitBrainExtraB.
  - apply ok_RPCCountB.
Qed.
