(* ===== verification/Scenarios.v ===== *)
(** The scenarios of the integration tests ([integration_tests/extra_cases.cpp],
    [integration_tests/extra_tests_lab2.cpp], [integration_tests/raft_test_extra.cpp]) as
    scripts ([Script.v]), and what holds of all scenarios, those of [RaftTests.v]
    included. *)
From stdpp Require Import pretty sorting.
From S2P Require Import Prelude Types ConfigGen RaftState RaftNode RaftNodeFacts Cluster.
From S2P Require Import NetInterceptor NodeApp Wrapper TestCtrl TestConfig Logger Script RaftTests.

#[local] Open Scope N_scope.
#[local] Open Scope script_scope.

(** ** [extra_cases.cpp] *)

Definition SymmetricEvenPartitionA : script :=
  Begin ⨟
  initial_leader ⇐ CheckOneLeader;
  deref initial_leader (λ leader_id,
    Disconnect ((leader_id + 1) mod 4) ⨟
    Disconnect leader_id ⨟
    Sleep (5 * TIMEOUT) ⨟
    CheckNoLeader ⨟
    ReconnectAll ⨟
    Sleep (3 * TIMEOUT) ⨟
    final_leader ⇐ CheckOneLeader;
    assert (has_value final_leader) (
      final_term ⇐ CheckTerms;
      assert (has_value final_term) Pass)).

Definition StrictNoReelectionOnReconnectA : script :=
  Begin ⨟
  leader1 ⇐ CheckOneLeader;
  Expect (has_value leader1) ⨟
  term1 ⇐ CheckTerms;
  Expect (has_value term1) ⨟
  deref leader1 (λ l1,
    Disconnect l1 ⨟
    CheckOneLeader ⨟
    term2 ⇐ CheckTerms;
    Expect (has_value term2) ⨟
    Reconnect l1 ⨟
    leader2 ⇐ CheckOneLeader;
    Expect (has_value leader2) ⨟
    term3 ⇐ CheckTerms;
    Expect (has_value term3) ⨟
    deref term2 (λ t2, deref term3 (λ t3,
      assert (t2 =? t3) (
        deref leader2 (λ l2,
          Disconnect ((l2 + 1) mod 3) ⨟
          Disconnect l2 ⨟
          Sleep (2 * TIMEOUT) ⨟
          CheckNoLeader ⨟
          Reconnect ((l2 + 1) mod 3) ⨟
          CheckOneLeader ⨟
          Reconnect l2 ⨟
          CheckOneLeader ⨟
          Pass))))).

Definition LeaderStepdownOnHigherTermA : script :=
  Begin ⨟
  leader ⇐ CheckOneLeader;
  assert (has_value leader) (
    value leader (λ l,
      Disconnect l ⨟
      Sleep 2000 ⨟
      new_leader ⇐ CheckOneLeader;
      assert (has_value new_leader) (
        value new_leader (λ l',
          assert (negb (l' =? l)) (
            Reconnect l ⨟
            Sleep 1000 ⨟
            final_leader ⇐ CheckOneLeader;
            assert (has_value final_leader) (
              value final_leader (λ l'', assert (l'' =? l') Pass))))))).

Definition StabilityNoChurnA : script :=
  Begin ⨟
  leader1 ⇐ CheckOneLeader;
  assert (has_value leader1) (
    term1 ⇐ CheckTerms;
    assert (has_value term1) (
      Sleep (3 * TIMEOUT) ⨟
      leader2 ⇐ CheckOneLeader;
      term2 ⇐ CheckTerms;
      assert (has_value leader2) (
        assert (has_value term2) (
          value term1 (λ t1, value term2 (λ t2, assert (t1 =? t2) (
            value leader1 (λ l1, value leader2 (λ l2, assert (l1 =? l2) Pass))))))))).

Definition MajorityRetainsLeaderA : script :=
  Begin ⨟
  leader1 ⇐ CheckOneLeader;
  assert (has_value leader1) (
    term1 ⇐ CheckTerms;
    assert (has_value term1) (
      ids ⇐ Pick 2 (option_list leader1);
      foreach ids (λ id k, Disconnect id ⨟ k) (
        Sleep (2 * TIMEOUT) ⨟
        leader2 ⇐ CheckOneLeader;
        assert (has_value leader2) (
          deref leader1 (λ l1, deref leader2 (λ l2, assert (l1 =? l2) (
            term2 ⇐ CheckTerms;
            assert (has_value term2) (
              deref term1 (λ t1, deref term2 (λ t2, assert (t1 =? t2) Pass)))))))))).

Definition NetworkPartitionA : script :=
  Begin ⨟
  initial_term ⇐ CheckTerms;
  assert (has_value initial_term) (
    foreach (seq 0 8) (λ _ k,
      ids ⇐ Pick 2 [];
      foreach ids (λ id k, Disconnect id ⨟ k) (
        Sleep 100 ⨟
        foreach ids (λ id k, Reconnect id ⨟ k) (
          Sleep 100 ⨟ k))) (
      final_term ⇐ CheckTerms;
      assert (has_value final_term) (
        value final_term (λ t1, value initial_term (λ t0,
          assert (sub64 t1 t0 <=? 12) (CheckOneLeader ⨟ Pass)))))).

(** The loop of the next test, with [iters] turns left. *)
Fixpoint disconnect_followers (iters : nat) (leader term : option N) : script :=
  match iters with
  | O => CheckOneLeader ⨟ Pass
  | S iters =>
      value leader (λ l,
      ids ⇐ Pick 2 [l];
      foreach ids (λ id k, Disconnect id ⨟ k) (
      cur_leader ⇐ CheckOneLeader;
      cur_term ⇐ CheckTerms;
      assert (has_value cur_leader) (
      value cur_leader (λ cl,
      assert (cl =? l) (
      assert (has_value cur_term) (
      value cur_term (λ ct,
      value term (λ t,
      assert (ct =? t) (
      foreach ids (λ id k, Reconnect id ⨟ k) (
      leader ⇐ CheckOneLeader;
      term ⇐ CheckTerms;
      disconnect_followers iters leader term))))))))))
  end.

Definition DisconnectFollowersA : script :=
  Begin ⨟
  leader ⇐ CheckOneLeader;
  term ⇐ CheckTerms;
  assert (has_value leader) (
    assert (has_value term) (
      value term (λ t, assert (1 <=? t) (disconnect_followers 5 leader term)))).

Definition UniqueLeaderOverTimeA : script :=
  Begin ⨟
  CheckOneLeader ⨟
  Sleep 150 ⨟
  base_term ⇐ CheckTerms;
  assert (has_value base_term) (
    value base_term (λ b, assert (1 <=? b) (
      foreach (seq 0 20) (λ _ k,
        CheckOneLeader ⨟
        t ⇐ CheckTerms;
        assert (has_value t) (
          value t (λ now, assert (b =? now) (Sleep 100 ⨟ k)))) Pass))).

(** ** [raft_test_extra.cpp] *)

Definition ExampleTestA : script :=
  Begin ⨟
  CheckOneLeader ⨟
  Sleep 100 ⨟
  term1 ⇐ CheckTerms;
  assert (has_value term1) (
    value term1 (λ t, assert (1 <=? t) (CheckOneLeader ⨟ Pass))).

(** ** [extra_tests_lab2.cpp] *)

Definition Figure8UncommittedExtraB : script :=
  Begin ⨟
  one1 ⇐ One "101" 5 false;
  assert (has_value one1) (
  l1 ⇐ CheckOneLeader;
  assert (has_value l1) (
  deref l1 (λ l1,
  others ⇐ Pick 4 [l1];
  index_at others 0 (λ f1, index_at others 1 (λ o1, index_at others 2 (λ o2, index_at others 3 (λ o3,
  let l1_group := [l1; f1] in
  let l2_group := std_set [o1; o2; o3] in
  foreach l2_group (λ id k, Disconnect id ⨟ k) (
  ProposeTo l1 "102" ⨟
  Sleep 300 ⨟
  foreach l1_group (λ id k, Disconnect id ⨟ k) (
  foreach l2_group (λ id k, Reconnect id ⨟ k) (
  l2 ⇐ CheckOneLeader;
  assert (has_value l2) (
  deref l2 (λ l2,
  let l2_followers := filter (λ id, id ≠ l2) l2_group in
  index_at l2_followers 0 (λ g1, index_at l2_followers 1 (λ g2,
  Disconnect g1 ⨟
  Disconnect g2 ⨟
  ProposeTo l2 "103" ⨟
  Sleep 300 ⨟
  Disconnect l2 ⨟
  foreach l1_group (λ id k, Reconnect id ⨟ k) (
  Reconnect g1 ⨟
  l3 ⇐ CheckOneLeader;
  assert (has_value l3) (
  Sleep 500 ⨟
  cr ⇐ NCommitted 2;
  assert (cr =? 0) (
  deref l3 (λ l3,
  ProposeTo l3 "104" ⨟
  comm ⇐ WaitFor 3 3 None;
  assert (has_value comm) (
  deref comm (λ d,
  assert (bool_decide (d = "104"%string)) (
  cr ⇐ NCommitted 2;
  assert (3 <=? cr) (
  ReconnectAll ⨟
  final_agree ⇐ One "105" 5 true;
  assert (has_value final_agree) Pass)))))))))))))))))))))).

Definition PartitionB : script :=
  Begin ⨟
  one1 ⇐ One "initial" 5 false;
  assert (has_value one1) (
    foreach (seq 0 8) (λ i k,
      let iter := to_string (N.of_nat i) in
      leader ⇐ CheckOneLeader;
      assert (has_value leader) (
        value leader (λ l,
          ProposeTo l ("fig8_iter" +:+ iter) ⨟
          Sleep 50 ⨟
          picked ⇐ Pick 1 [l];
          index_at picked 0 (λ companion,
            Disconnect l ⨟
            Disconnect companion ⨟
            Sleep TIMEOUT ⨟
            foreach (upto 5) (λ node k,
              ProposeTo node ("fig8_new_" +:+ iter +:+ "_" +:+ to_string node) ⨟ k) (
              Sleep TIMEOUT ⨟
              Reconnect l ⨟
              Reconnect companion ⨟
              Sleep TIMEOUT ⨟
              k))))) (
      final_r ⇐ One "figure8_final" 5 true;
      assert (has_value final_r) Pass)).

Definition StaleLeaderDivergenceB : script :=
  Begin ⨟
  one1 ⇐ One "init" 5 false;
  assert (has_value one1) (
    leader1_opt ⇐ CheckOneLeader;
    assert (has_value leader1_opt) (
      value leader1_opt (λ leader1,
        foreach (upto 30) (λ i k, ProposeTo leader1 ("stale_" +:+ to_string i) ⨟ k) (
          Sleep 100 ⨟
          Disconnect leader1 ⨟
          Sleep TIMEOUT ⨟
          leader2_opt ⇐ CheckOneLeader;
          assert (has_value leader2_opt) (
            value leader2_opt (λ leader2,
              assert (negb (leader1 =? leader2)) (
                foreach (upto 30) (λ i k,
                  r ⇐ One ("valid_" +:+ to_string i) 4 true;
                  assert (has_value r) k) (
                  Disconnect leader2 ⨟
                  Reconnect leader1 ⨟
                  Sleep TIMEOUT ⨟
                  r ⇐ One "after_rejoin" 4 true;
                  assert (has_value r) (
                    Reconnect leader2 ⨟
                    Sleep TIMEOUT ⨟
                    final_r ⇐ One "final_all" 5 true;
                    assert (has_value final_r) Pass))))))))).

(** ** The fixture's logger *)

Section test_logger.
Context `{Spdlog R}.

(** [RaftTest::init_logger]; a [basic_logger_mt] is registered and writes to its file. *)
Definition RaftTest_init_logger (tester_verb : Z) (name : string) (r : R) : option (string * R) :=
  let logger_name := if bool_decide (name = EmptyString) then "raft_test"%string
                     else ("raft_test_" +:+ name)%string in
  r ← match spd_get logger_name r with
      | Some _ => Some r
      | None => spd_register (mkLogger logger_name false
                  [mkSink (basic_file_sink_mt ("logs/" +:+ logger_name +:+ ".log")%string) l_trace]
                  l_info) r
      end;
  r ← (if (tester_verb <? 1)%Z then disable_console_logging (spd_get logger_name r) true r
       else if (tester_verb <? 2)%Z then disable_console_logging (spd_get logger_name r) false r
       else Some r);
  Some (logger_name, r).

(** A test that is the first to use its logger writes to the file unless the verbosity
    is below 1; at no verbosity does it write to the console. *)
Lemma test_logger_sinks verb name r :
  let logger_name := if bool_decide (name = EmptyString) then "raft_test"%string
                     else ("raft_test_" +:+ name)%string in
  spd_get logger_name r = None →
  ∃ r', RaftTest_init_logger verb name r = Some (logger_name, r') ∧
    log l_info (Some logger_name) r' =
      Some (if (verb <? 1)%Z then []
            else [basic_file_sink_mt ("logs/" +:+ logger_name +:+ ".log")%string]).
Proof.
  intros logger_name Hnone. unfold RaftTest_init_logger. fold logger_name. rewrite Hnone.
  set (l := mkLogger logger_name false _ l_info).
  destruct (spd_register_free l r Hnone) as (r1 & -> & Hget). cbn [mbind option_bind].
  assert (spd_get logger_name r1 = Some l) as Hl by (by rewrite Hget, bool_decide_eq_true_2).
  unfold disable_console_logging. rewrite Hl. cbn [mbind option_bind].
  assert (∀ l' r2 n, lg_name l' = logger_name → spd_get logger_name r2 = Some l →
    n = logger_name → spd_get n (spd_update l' r2) = Some l') as Hup.
  { intros l' r2 n E Hr2 ->. rewrite spd_update_spec by (rewrite E; by eexists).
    by rewrite E, bool_decide_eq_true_2. }
  destruct (Z.ltb_spec verb 1) as [|_]; [|destruct (Z.ltb_spec verb 2) as [|_]]; eexists;
    (split; [reflexivity|]); unfold log; cbn [mbind option_bind].
  - by rewrite Hup.
  - by rewrite Hup.
  - by rewrite Hl.
Qed.
End test_logger.

(** The scenarios, with the number of nodes, the first port and the kind of fault
    injection that they are started with. *)
Definition scenarios : list (N * N * N * script) :=
  raft_tests ++
  [(4, 50051, 1, SymmetricEvenPartitionA);
   (3, 50051, 0, StrictNoReelectionOnReconnectA);
   (3, 50500, 0, LeaderStepdownOnHigherTermA);
   (5, 50061, 0, StabilityNoChurnA);
   (5, 50051, 0, MajorityRetainsLeaderA);
   (5, 50051, 1, NetworkPartitionA);
   (5, 50051, 0, DisconnectFollowersA);
   (3, 50251, 0, UniqueLeaderOverTimeA);
   (3, 50051, 0, ExampleTestA);
   (5, 50051, 0, Figure8UncommittedExtraB);
   (5, 50051, 1, PartitionB);
   (5, 50051, 1, StaleLeaderDivergenceB)].

(** ** The scenarios are supported *)

Lemma ok_SymmetricEvenPartitionA : supported 4 false (all 4) SymmetricEvenPartitionA.
Proof.
  unfold SymmetricEvenPartitionA. ok_step. ok_leader_as l Hl.
  destruct (next_server l 4) as [Hm Hne]; [done..|]. repeat ok_step.
  apply ok_no_leader_pair; [done..|]. repeat ok_step.
Qed.

Lemma ok_StrictNoReelectionOnReconnectA :
  supported 3 false (all 3) StrictNoReelectionOnReconnectA.
Proof.
  unfold StrictNoReelectionOnReconnectA. ok_step. ok_leader_as l Hl. repeat ok_step.
  apply (ok_reconnect 3 l _ []); [done|set_solver|]. ok_leader_as l2 Hl2.
  destruct (next_server l2 3) as [Hm Hne]; [done..|]. repeat ok_step.
  apply ok_no_leader_pair; [done..|].
  apply (ok_reconnect 3 _ _ [l2]); [done|set_solver|]. repeat ok_step.
  apply (ok_reconnect 3 _ _ []); [done|set_solver|]. repeat ok_step.
Qed.

Lemma ok_LeaderStepdownOnHigherTermA : supported 3 false (all 3) LeaderStepdownOnHigherTermA.
Proof.
  unfold LeaderStepdownOnHigherTermA. ok_step. ok_leader_as l Hl. repeat ok_step.
  apply (ok_reconnect 3 l _ []); [done|set_solver|]. repeat ok_step.
Qed.

Lemma ok_StabilityNoChurnA : supported 5 false (all 5) StabilityNoChurnA.
Proof. unfold StabilityNoChurnA. repeat ok_step. Qed.

Lemma ok_MajorityRetainsLeaderA : supported 5 false (all 5) MajorityRetainsLeaderA.
Proof.
  unfold MajorityRetainsLeaderA. ok_step. ok_leader_as l Hl. repeat ok_step.
  ok_pick_as ids Hnd Hlen Hids. apply ok_disconnects; [apply Hids|]. repeat ok_step.
Qed.

Lemma ok_NetworkPartitionA : supported 5 false (all 5) NetworkPartitionA.
Proof.
  unfold NetworkPartitionA. repeat ok_step. apply supported_foreach; [|repeat ok_step].
  intros i k _ Hk. ok_pick_as ids Hnd Hlen Hids. apply ok_disconnects; [apply Hids|]. ok_step.
  apply (ok_reconnects 5 ids _ []); [apply Hids|set_solver|]. by ok_step.
Qed.

Lemma ok_disconnect_followers iters l term :
  l < 5 → supported 5 true (without 5 []) (disconnect_followers iters (Some l) term).
Proof.
  revert l term. induction iters as [|iters IH]; intros l term Hl; cbn [disconnect_followers value];
    [repeat ok_step|].
  ok_pick_as ids Hnd Hlen Hids. apply ok_disconnects; [apply Hids|].
  ok_leader_as cl Hcl. repeat ok_step. apply supported_value. intros t _. ok_step.
  apply (ok_reconnects 5 ids _ []); [apply Hids|set_solver|].
  ok_leader_as l' Hl'. ok_step. by apply IH.
Qed.

Lemma ok_DisconnectFollowersA : supported 5 false (all 5) DisconnectFollowersA.
Proof.
  unfold DisconnectFollowersA. ok_step. ok_leader_as l Hl. repeat ok_step.
  by apply ok_disconnect_followers.
Qed.

Lemma ok_UniqueLeaderOverTimeA : supported 3 false (all 3) UniqueLeaderOverTimeA.
Proof.
  unfold UniqueLeaderOverTimeA. repeat ok_step. apply supported_foreach; [|done].
  intros i k _ Hk. repeat ok_step. done.
Qed.

Lemma ok_ExampleTestA : supported 3 false (all 3) ExampleTestA.
Proof. unfold ExampleTestA. repeat ok_step. Qed.

Lemma ok_PartitionB : supported 5 false (all 5) PartitionB.
Proof.
  unfold PartitionB. repeat ok_step. apply supported_foreach; [|repeat ok_step].
  intros i k _ Hk. ok_leader_as l Hl. repeat ok_step. ok_pick_as picked Hnd Hlen Hids.
  destruct picked as [|companion picked]; [done|]. destruct (Hids companion) as [Hc _]; [by left|].
  unfold index_at. cbn [lookup list_lookup]. repeat ok_step.
  apply supported_foreach; [intros node k' Hnode%elem_of_upto Hk'; by ok_step|]. repeat ok_step.
  apply (ok_reconnect 5 l _ [companion]); [done| |].
  { assert (companion ≠ l) by (destruct (Hids companion); set_solver). set_solver. }
  apply (ok_reconnect 5 companion _ []); [done|set_solver|]. by ok_step.
Qed.

Lemma ok_StaleLeaderDivergenceB : supported 5 false (all 5) StaleLeaderDivergenceB.
Proof.
  unfold StaleLeaderDivergenceB. do 3 ok_step. ok_leader_as l1 Hl1. repeat ok_step.
  apply supported_foreach; [intros i k _ Hk; by ok_step|]. do 3 ok_step.
  ok_leader_as l2 Hl2. repeat ok_step.
  apply supported_foreach; [intros i k _ Hk; by do 2 ok_step|]. ok_step.
  apply (ok_reconnect 5 l1 _ [l2]); [done|set_solver|]. repeat ok_step.
  apply (ok_reconnect 5 l2 _ []); [done|set_solver|]. repeat ok_step.
Qed.

(** A group of three without one of them. *)
Lemma rest_of_group (G : list N) x :
  NoDup G → length G = 3%nat → x ∈ G →
  ∃ g1 g2, filter (λ id, id ≠ x) G = [g1; g2] ∧ G ≡ₚ [x; g1; g2].
Proof.
  intros Hnd Hlen Hx. assert (G ≡ₚ x :: filter (λ id, id ≠ x) G) as Hp.
  { apply NoDup_Permutation; [done| |].
    - apply NoDup_cons. split; [by intros [? _]%list_elem_of_filter|by apply NoDup_filter].
    - intros y. rewrite elem_of_cons, list_elem_of_filter. destruct (decide (y = x)); naive_solver. }
  assert (length (filter (λ id, id ≠ x) G) = 2%nat) as Hf
    by (apply Permutation_length in Hp; simpl in Hp; lia).
  destruct (filter (λ id, id ≠ x) G) as [|g1 [|g2 [|? ?]]]; try done. by exists g1, g2.
Qed.

(** The test from the first partition on: [l1] and [f1] are cut off from [G]. *)
Lemma ok_figure8_rest l1 f1 l2_group k :
  NoDup (l1 :: f1 :: l2_group) → (∀ y, y ∈ l1 :: f1 :: l2_group → y < 5) → length l2_group = 3%nat →
  (∀ l2 g1 g2, l2 < 5 → g1 < 5 → g2 < 5 → g1 ≠ g2 → g1 ≠ l2 → l2 ∉ [l1; f1] → g1 ∉ [l1; f1] → 
     g2 ∉ [l1; f1] → filter (λ id, id ≠ l2) l2_group = [g1; g2] →
     supported 5 true (without 5 [l1; f1]) (k (Some l2))) →
  supported 5 true (without 5 [])
    (foreach l2_group (λ id k, Disconnect id ⨟ k) (
     ProposeTo l1 "102" ⨟
     Sleep 300 ⨟
     foreach [l1; f1] (λ id k, Disconnect id ⨟ k) (
     foreach l2_group (λ id k, Reconnect id ⨟ k) (Do CheckOneLeader k)))).
Proof.
  intros Hnd Hlt Hlen Hk.
  assert (∀ y, y ∈ l2_group → y < 5 ∧ y ∉ [l1; f1]) as HG.
  { intros y Hy. split; [apply Hlt; set_solver|].
    apply NoDup_cons in Hnd as [? [? _]%NoDup_cons]. set_solver. }
  apply ok_disconnects; [apply HG|].
  apply ok_propose; [apply Hlt; by left|intros _]. ok_step.
  apply ok_disconnects; [intros y Hy; apply Hlt; set_solver|].
  apply (ok_reconnects 5 l2_group _ [l1; f1]); [apply HG|set_solver|].
  ok_leader_as l2 Hl2.
  assert (l2 ∈ l2_group) as Hin.
  { pose proof (every_server 5 (l1 :: f1 :: l2_group) l2 Hnd Hlt) as H'.
    unfold vsize in H'. simpl in H'. rewrite Hlen in H'. specialize (H' eq_refl Hl2). set_solver. }
  do 2 apply NoDup_cons in Hnd as [_ Hnd].
  destruct (rest_of_group l2_group l2 Hnd Hlen Hin) as (g1 & g2 & Hf & Hp).
  assert (NoDup [l2; g1; g2]) as Hnd3 by (by rewrite <- Hp).
  apply NoDup_cons in Hnd3 as [Hg [Hg12 _]%NoDup_cons].
  apply (Hk l2 g1 g2); try (by apply HG; rewrite Hp; set_solver); set_solver.
Qed.

Lemma ok_Figure8UncommittedExtraB : supported 5 false (all 5) Figure8UncommittedExtraB.
Proof.
  unfold Figure8UncommittedExtraB. do 3 ok_step. ok_leader_as l1 Hl1. ok_step. cbn [deref].
  ok_pick_as others Hnd Hlen Hids.
  destruct others as [|f1 [|o1 [|o2 [|o3 [|? ?]]]]]; try (unfold vsize in Hlen; simpl in Hlen; lia).
  unfold index_at at 1 2 3 4. cbn [lookup list_lookup]. cbv zeta.
  assert (std_set [o1; o2; o3] ≡ₚ [o1; o2; o3]) as HG
    by (apply std_set_perm; by apply NoDup_cons in Hnd as [_ Hnd]).
  apply ok_figure8_rest.
  - rewrite HG. apply NoDup_cons. split; [|done]. intros Hin. destruct (Hids l1 Hin) as [_ []].
    by left.
  - intros y. rewrite HG. intros [->|Hy]%elem_of_cons; [done|by apply Hids].
  - by rewrite HG.
  - intros l2 g1 g2 Hl2 Hg1 Hg2 Hne Hne' ? ? ? Hf. ok_step. cbn [deref]. rewrite Hf. unfold index_at.
    cbn [lookup list_lookup]. repeat ok_step.
    apply (ok_reconnects 5 [l1; f1] _ [l2; g2; g1]); [set_solver..|].
    apply (ok_reconnect 5 g1 _ [l2; g2]); [done|set_solver|]. repeat ok_step.
Qed.

(** ** The scenarios as a whole *)

Lemma scenarios_supported :
  Forall (λ x, 0 < x.1.1.1 ∧ supported x.1.1.1 false (all x.1.1.1) x.2) scenarios.
Proof.
  apply Forall_app. split; [apply raft_tests_supported|].
  repeat (apply Forall_cons; split); try done; (split; [done|]); cbn [fst snd].
  - apply ok_SymmetricEvenPartitionA.
  - apply ok_StrictNoReelectionOnReconnectA.
  - apply ok_LeaderStepdownOnHigherTermA.
  - apply ok_StabilityNoChurnA.
  - apply ok_MajorityRetainsLeaderA.
  - apply ok_NetworkPartitionA.
  - apply ok_DisconnectFollowersA.
  - apply ok_UniqueLeaderOverTimeA.
  - apply ok_ExampleTestA.
  - apply ok_Figure8UncommittedExtraB.
  - apply ok_PartitionB.
  - apply ok_StaleLeaderDivergenceB.
Qed.

(** C38: every scenario of the four test programs over the tester, whatever states the nodes
    answer from (their terms below 2^31, which the tester's [int] can hold) and however the
    servers are shuffled, is free of undefined behaviour (no empty optional is
    dereferenced, no index is out of range), talks to the nodes only once they are
    started, names only servers that exist, and asks only for what the servers it has
    left connected can give: a leader, an agreement and a commit while a quorum and
    the expected number of servers are connected, no leader while there is no quorum. *)
Theorem scenarios_sound n port fail_type sc sc' t :
  (n, port, fail_type, sc) ∈ scenarios →
  rtc turn (sc, fixture (gen_raft_configs (gen_local_instances n port))) (sc', t) →
  sc' ≠ Crash ∧ ∀ c k, sc' = Do c k → asks n (begun t) (ups t) c.
Proof.
  intros Hin Hrun. pose proof scenarios_supported as Hall. rewrite Forall_forall in Hall.
  destruct (Hall _ Hin) as [Hn Hsup]. apply (sound_run n) in Hrun.
  - destruct Hrun as [E|(b & up & Hf & Hs)]; simpl in *; [by subst|]. split; [by intros ->|].
    intros c k ->. rewrite (fits_begun n b up t), (fits_ups n b up t) by done. apply Hs.
  - right. exists false, (all n). split; [apply fixture_fits|done].
Qed.

(** ** A run *)

Definition lab3 : tester := fixture (gen_raft_configs (gen_local_instances 3 50051)).

Definition leaderless : Env :=
  mkEnv (λ _, true) ∅ (λ _, false) (λ _ i, Some (mkWireState 1 false i)) (λ _, None)
    (λ _, mkGlance (TestConfig_init []) false []) 0 [] (λ _, None) [] (λ l, l).

Lemma lab3_ready : drift lab3 (all_ready lab3).
Proof. by split. Qed.

Lemma example_test_passes :
  ∃ t, play (replicate 6 calm) ExampleTestA (all_ready lab3) = Some (Pass, t) ∧ recorded t = false.
Proof. eexists. split; vm_compute; reflexivity. Qed.

(** [ReElectionA] passes on a cluster that is led by node 0, by node 1 while 0 is cut off,
    again by 0, by nobody while both are cut off, and in the end by 1. *)
Definition led_by (l : N) : Env :=
  mkEnv (λ _, true) ∅ (λ _, false) (λ _ i, Some (mkWireState 1 (i =? l) i)) (λ _, None)
    (λ _, mkGlance (TestConfig_init []) false []) 0 [] (λ _, None) [] (λ l, l).

Lemma re_election_passes :
  ∃ t, play (replicate 4 calm ++ [led_by 1; led_by 1] ++ replicate 5 calm ++ [leaderless; calm] ++
             replicate 5 (led_by 1)) ReElectionA (all_ready lab3) = Some (Pass, t) ∧
       recorded t = false.
Proof. eexists. split; vm_compute; reflexivity. Qed.

(** The split of four nodes passes when nobody leads while two are cut off, and is
    recorded as failed when one of the others keeps leading. *)
Definition lab4 : tester := fixture (gen_raft_configs (gen_local_instances 4 50051)).

Definition usurper : Env :=
  mkEnv (λ _, true) ∅ (λ _, false) (λ _ i, Some (mkWireState 1 (i =? 2) i)) (λ _, None)
    (λ _, mkGlance (TestConfig_init []) false []) 0 [] (λ _, None) [] (λ l, l).

Lemma partition_test_decides :
  (∃ t, play (replicate 5 calm ++ leaderless :: replicate 4 calm) SymmetricEvenPartitionA
          (all_ready lab4) = Some (Pass, t) ∧ recorded t = false) ∧
  (∃ t, play (replicate 5 calm ++ usurper :: replicate 4 calm) SymmetricEvenPartitionA
          (all_ready lab4) = Some (Pass, t) ∧ recorded t = true).
Proof. split; eexists; (split; [vm_compute; reflexivity|reflexivity]). Qed.

Lemma scenarios_sound_witness :
  ∃ k t, play [calm] ExampleTestA (all_ready lab3) = Some (Do CheckOneLeader k, t) ∧
    asks 3 (begun t) (ups t) CheckOneLeader.
Proof.
  eexists _, _. split; [vm_compute; reflexivity|].
  eapply (scenarios_sound 3 50051 0 ExampleTestA); [|  |reflexivity].
  - unfold scenarios. apply elem_of_app. do 9 right. by left.
  - eapply rtc_l; [apply T_drift, lab3_ready|].
    apply (play_turns [calm]); [by constructor; [apply calm_honest|]|]. vm_compute. reflexivity.
Defined.
