(* ===== verification/KvTests.v ===== *)
(** What the tests of [integration_tests/kv_test.cpp] expect of the deployed store
    ([Deployment.v]): a read that is called when all writes of its key have returned finds
    those writes, in real-time order when they did not overlap, each once in any case.

    The tests are histories of calls and returns of clients; that a history is explained by
    a sequential one is [Linearize.v] for operations through the log and [LeaseReads.v] for
    reads under the lease of the one node that answers. *)
From Stdlib Require Import Ascii.
From stdpp Require Import pretty sorting.
From S2P Require Import Prelude Types ConfigGen RaftState RaftNode RaftNodeFacts Cluster RaftSpec.
From S2P Require Import Refinement RefinementSteps Simulation LogSpec LogInv LogSafety.
From S2P Require Import Races Safety Replication KvCodec KvServer KvService KvClient EndToEnd.
From S2P Require Import Session Deployment Linearize LeaseReads NodeApp Wrapper TestCtrl CtrlLife Setup Fixture.

#[local] Open Scope N_scope.

(** ** Writes of a key *)

Definition writes (x : string) (f : command_fields) : Prop := f_op f ≠ GET ∧ f_key f = x.

#[export] Instance OpType_eq_dec : EqDecision OpType.
Proof. solve_decision. Defined.
#[export] Instance writes_dec x f : Decision (writes x f).
Proof. unfold writes. apply _. Defined.

Lemma kv_exec_other (m : gmap string string) f x : ¬ writes x f → kv_exec m f !! x = m !! x.
Proof.
  unfold writes, kv_exec, kv_store. intros Hn.
  destruct (f_op f); [|done|]; rewrite lookup_insert_ne; naive_solver.
Qed.

Lemma kv_exec_same (m m' : gmap string string) f x : m !! x = m' !! x → f_key f = x → kv_exec m f !! x = kv_exec m' f !! x.
Proof.
  unfold kv_exec, kv_store. intros Hm <-. destruct (f_op f); rewrite ?lookup_insert_eq, ?Hm; done.
Qed.

(** A key depends on its writes only. *)
Lemma kv_run_writes fs x : kv_run fs !! x = kv_run (filter (writes x) fs) !! x.
Proof.
  induction fs as [|f fs IH] using rev_ind; [done|].
  rewrite filter_app, filter_cons, filter_nil. unfold kv_run in *. rewrite !foldl_app.
  destruct (decide (writes x f)) as [[Hop Hk]|Hn]; simpl; [by apply kv_exec_same|by rewrite kv_exec_other].
Qed.

(** The operations of a history in the order of their calls. *)
Definition called (tr : list op_event) : list command_fields :=
  omap (λ ev, match ev with Invoke f => Some f | _ => None end) tr.

Lemma called_elem tr f : f ∈ called tr ↔ Invoke f ∈ tr.
Proof.
  unfold called. rewrite list_elem_of_omap. split.
  - intros ([] & ? & [= ->]). done.
  - intros H. by exists (Invoke f).
Qed.

(** [w] was called before [w']. *)
Definition called_before (tr : list op_event) (w w' : command_fields) : Prop :=
  ∃ j j', tr !! j = Some (Invoke w) ∧ tr !! j' = Some (Invoke w') ∧ (j < j')%nat.

(** [w] returned before [g] was called. *)
Definition returned_before (tr : list op_event) (w g : command_fields) : Prop :=
  ∃ k lease v j, tr !! k = Some (Return w lease v) ∧ tr !! j = Some (Invoke g) ∧ (k < j)%nat.

Lemma called_sorted tr : StronglySorted (called_before tr) (called tr).
Proof.
  assert (called tr = omap (λ j, match tr !! j with Some (Invoke f) => Some f | _ => None end)
                        (seq 0 (length tr))) as ->.
  { induction tr as [|ev tr IH] using rev_ind; [done|].
    unfold called in *. rewrite length_app, omap_app, IH. simpl.
    rewrite Nat.add_1_r, seq_S, omap_app. simpl. rewrite lookup_app_r, Nat.sub_diag by lia. simpl. f_equal.
    apply list_omap_ext, Forall2_same_length_lookup_2; [done|].
    intros k a b Ha Hb. simplify_eq. apply lookup_seq in Ha as [-> Hlt]. by rewrite lookup_app_l. }
  eapply StronglySorted_omap, StronglySorted_seq. intros j j' f f' Hlt Hf Hf'.
  exists j, j'. destruct (tr !! j) as [[]|], (tr !! j') as [[]|]; by simplify_eq.
Qed.

(** ** Histories that a sequential one explains *)

Section history.
Context (tr : list op_event) (S : list command_fields) (HS : linearizes_all tr S).
Context (Honce : ∀ i j f, tr !! i = Some (Invoke f) → tr !! j = Some (Invoke f) → i = j).
Context (Hafter : ∀ k j f lease v,
  tr !! k = Some (Return f lease v) → tr !! j = Some (Invoke f) → (j < k)%nat).

Lemma called_NoDup j : NoDup (called (take j tr)).
Proof using Honce.
  apply NoDup_alt. intros a b f Ha Hb.
  assert (∀ a b, called (take j tr) !! a = Some f → called (take j tr) !! b = Some f → ¬ (a < b)%nat) as H.
  { intros a' b' Ha' Hb' Hlt.
    destruct (StronglySorted_lt _ _ _ _ _ _ (called_sorted _) Ha' Hb' Hlt) as (i & i' & Hi & Hi' & ?).
    apply lookup_take_Some in Hi as [Hi _], Hi' as [Hi' _]. specialize (Honce _ _ _ Hi Hi'). lia. }
  pose proof (H a b Ha Hb). pose proof (H b a Hb Ha). lia.
Qed.

(** The writes of the key of [g] that took effect before place [k]. *)
Definition written (k : nat) (g : command_fields) : list command_fields :=
  filter (writes (f_key g)) (take k S).

Lemma returned_before_place w g k :
  returned_before tr w g → S !! k = Some g → ∃ a, S !! a = Some w ∧ (a < k)%nat.
Proof using HS.
  intros (m & lease & v & j & Hm & Hj & Hlt) Hk.
  destruct (la_answer _ _ HS w lease v) as (a & Ha & _); [by eapply list_elem_of_lookup_2|].
  exists a. split; [done|]. by eapply (la_order _ _ HS m j).
Qed.

(** The writes of the key of [g] did not overlap with it. *)
Definition apart (g : command_fields) : Prop :=
  ∀ w, Invoke w ∈ tr → writes (f_key g) w → returned_before tr w g ∨ returned_before tr g w.

Lemma called_earlier w g j :
  returned_before tr w g → tr !! j = Some (Invoke g) → Invoke w ∈ tr → w ∈ called (take j tr).
Proof using Honce Hafter.
  intros (m & lease & v & j0 & Hm & Hj0 & Hlt) Hj (i & Hi)%list_elem_of_lookup.
  pose proof (Honce _ _ _ Hj Hj0) as ->. pose proof (Hafter _ _ _ _ _ Hm Hi).
  apply called_elem, (list_elem_of_lookup_2 _ i). rewrite lookup_take_lt; [done|lia].
Qed.

Lemma written_elem k g j w :
  S !! k = Some g → tr !! j = Some (Invoke g) → apart g →
  w ∈ written k g ↔ w ∈ filter (writes (f_key g)) (called (take j tr)).
Proof using HS Honce Hafter.
  intros Hk Hj Hall. unfold written. rewrite !list_elem_of_filter. split; intros [Hw Hin]; split; try done.
  - apply list_elem_of_lookup in Hin as (a & [Ha Hlt]%lookup_take_Some).
    assert (Invoke w ∈ tr) as Hi by (by eapply (la_called _ _ HS), list_elem_of_lookup_2).
    destruct (Hall w Hi Hw) as [Hb|Hb]; [by eapply called_earlier|].
    destruct (returned_before_place g w a Hb Ha) as (k' & Hk' & ?).
    pose proof (NoDup_lookup _ _ _ _ (la_once _ _ HS) Hk Hk'). lia.
  - apply called_elem, list_elem_of_lookup in Hin as (i & [Hi Hlt]%lookup_take_Some).
    destruct (Hall w) as [Hb|(m & lease & v & i' & Hm & Hi' & ?)]; [by eapply list_elem_of_lookup_2|done| |].
    + destruct (returned_before_place w g k Hb Hk) as (a & Ha & Hak).
      apply (list_elem_of_lookup_2 _ a). by rewrite lookup_take_lt.
    + pose proof (Honce _ _ _ Hi Hi') as ->. pose proof (Hafter _ _ _ _ _ Hm Hj). lia.
Qed.

(** A read that overlaps with no write of its key finds exactly the writes that were called
    before it, in some order. *)
Lemma quiet_read g lease v j :
  Return g lease v ∈ tr → f_op g = GET → tr !! j = Some (Invoke g) → apart g →
  ∃ k, S !! k = Some g ∧ written k g ≡ₚ filter (writes (f_key g)) (called (take j tr)) ∧
    v = default EmptyString (kv_run (written k g) !! f_key g).
Proof using HS Honce Hafter.
  intros Hr Hop Hj Hall. destruct (la_answer _ _ HS g lease v Hr) as (k & Hk & ->). exists k.
  split_and!; [done| |].
  - apply NoDup_Permutation.
    + apply NoDup_filter. eapply sublist_NoDup; [apply (la_once _ _ HS)|apply sublist_take].
    + apply NoDup_filter, called_NoDup.
    + intros w. by apply written_elem.
  - unfold kv_answer, written. by rewrite Hop, <- kv_run_writes.
Qed.

(** Two operations that take effect in one order were not run in the other one. *)
Lemma effect_order a b w w' :
  (called_before tr w' w → returned_before tr w' w) →
  S !! a = Some w → S !! b = Some w' → (a < b)%nat → called_before tr w w'.
Proof using HS.
  intros Hseq Ha Hb Hlt.
  assert (Invoke w ∈ tr) as (j & Hj)%list_elem_of_lookup by (by eapply (la_called _ _ HS), list_elem_of_lookup_2).
  assert (Invoke w' ∈ tr) as (j' & Hj')%list_elem_of_lookup by (by eapply (la_called _ _ HS), list_elem_of_lookup_2).
  destruct (Nat.lt_total j j') as [?|[->|?]].
  - by exists j, j'.
  - simplify_eq. pose proof (NoDup_lookup _ _ _ _ (la_once _ _ HS) Ha Hb). lia.
  - destruct (returned_before_place w' w a) as (b' & Hb' & ?); [apply Hseq; by exists j', j|done|].
    pose proof (NoDup_lookup _ _ _ _ (la_once _ _ HS) Hb Hb'). lia.
Qed.

(** Writes that did not overlap take effect in the order of their calls. *)
Lemma written_sequential k g j :
  (∀ w w', writes (f_key g) w → writes (f_key g) w' → called_before tr w w' → returned_before tr w w') →
  written k g ≡ₚ filter (writes (f_key g)) (called (take j tr)) →
  written k g = filter (writes (f_key g)) (called (take j tr)).
Proof using HS Honce.
  intros Hseq Hperm. apply (StronglySorted_unique_strong (called_before tr)); [| | |done].
  - intros w w' _ _ (i & i' & Hi & Hi' & ?) (i1 & i1' & Hi1 & Hi1' & ?).
    pose proof (Honce _ _ _ Hi Hi1'). pose proof (Honce _ _ _ Hi' Hi1). lia.
  - apply (StronglySorted_filter (λ w w', writes (f_key g) w → writes (f_key g) w' → called_before tr w w'));
      [by auto|]. apply StronglySorted_alt. intros a b w w' [Ha _]%lookup_take_Some [Hb _]%lookup_take_Some Hlt Hw Hw'.
    eapply (effect_order a b); [by apply Hseq|done..].
  - eapply StronglySorted_filter, called_sorted. intros w w' _ _ (i & i' & Hi & Hi' & ?).
    apply lookup_take_Some in Hi as [Hi _], Hi' as [Hi' _]. by exists i, i'.
Qed.

(** A read among writes of its key that do not overlap. *)
Lemma sequential_read g lease v j :
  Return g lease v ∈ tr → f_op g = GET → tr !! j = Some (Invoke g) → apart g →
  (∀ w w', writes (f_key g) w → writes (f_key g) w' → called_before tr w w' → returned_before tr w w') →
  v = default EmptyString (kv_run (called (take j tr)) !! f_key g).
Proof using HS Honce Hafter.
  intros Hr Hop Hj Hall Hseq. destruct (quiet_read g lease v j Hr Hop Hj Hall) as (k & _ & Hperm & ->).
  by rewrite (written_sequential k g j Hseq Hperm), <- kv_run_writes.
Qed.
End history.

(** ** What a client may rely on *)

(** All successes came from one node, or no read was answered under the lease. *)
Definition fresh_answers (d : deployment) : Prop :=
  (∃ i, answers_only i d) ∨ ∀ f v, Return f true v ∉ trace d.

(** A history that is explained, and whose calls and returns are in order. *)
Record explained (tr : list op_event) (S : list command_fields) : Prop := {
  ex_linear : linearizes_all tr S;
  ex_once : ∀ i j f, tr !! i = Some (Invoke f) → tr !! j = Some (Invoke f) → i = j;
  ex_called : ∀ f lease v, Return f lease v ∈ tr → Invoke f ∈ tr;
  ex_after : ∀ k j f lease v,
    tr !! k = Some (Return f lease v) → tr !! j = Some (Invoke f) → (j < k)%nat }.

Lemma fresh_explained configs r ids d :
  full_mesh configs → configs ≠ [] → dreachable configs r ids d → fresh_answers d →
  ∃ S, explained (trace d) S.
Proof.
  intros Hmesh Hne Hd Hfresh. pose proof (dreachable_dinv configs r Hmesh ids d Hd) as Hinv.
  assert (∃ S, linearizes_all (trace d) S) as [S HS].
  { destruct Hfresh as [[i Ha]|Hn]; [by eapply one_node_linearizes|].
    destruct (deployment_linearizes configs r ids d Hmesh Hne Hd) as (j & q & _ & HS).
    exists (effective (committed_commands q)). split.
    - apply HS.
    - apply HS.
    - intros f [] v Hr; [by destruct (Hn f v)|by apply HS].
    - intros k m f [] v g Hk; [by apply list_elem_of_lookup_2, Hn in Hk|by eapply HS]. }
  exists S. split; [done|apply Hinv| |].
  - intros f lease v (k & Hk)%list_elem_of_lookup.
    destruct (di_returned _ _ _ Hinv k f lease v Hk) as [Hin _].
    eapply elem_of_submseteq; [exact Hin|apply sublist_submseteq, sublist_take].
  - intros k j f lease v. by eapply returned_after.
Qed.

(** ** Test programs

    What one client of a test does, with the value that the test asserts of a read.  What
    the test does to the cluster in between, and the pauses, are steps of the deployment. *)
Inductive kv_cmd :=
| TPut (key value : string)
| TAppend (key value : string)
| TGet (key expected : string).

Definition cmd_key (c : kv_cmd) : string :=
  match c with TPut key _ | TAppend key _ | TGet key _ => key end.

(** The request of the [n]-th operation of client [k]. *)
Definition request (k : N) (n : nat) (c : kv_cmd) : command_fields :=
  let seq := N.of_nat n + 1 in
  match c with
  | TPut key value => mkFields PUT k seq key value
  | TAppend key value => mkFields APPEND k seq key value
  | TGet key _ => mkFields GET k seq key EmptyString
  end.
Definition requests (k : N) (prog : list kv_cmd) : list command_fields := imap (request k) prog.

(** The assertions hold of a plain map. *)
Fixpoint passes (m : gmap string string) (prog : list kv_cmd) : bool :=
  match prog with
  | [] => true
  | c :: prog =>
      match c with TGet key e => bool_decide (default EmptyString (m !! key) = e) | _ => true end &&
      passes (kv_exec m (request 0 0 c)) prog
  end.

Lemma passes_at k prog n x e :
  passes ∅ prog = true → prog !! n = Some (TGet x e) →
  default EmptyString (kv_run (take n (requests k prog)) !! x) = e.
Proof.
  unfold requests, kv_run, kv_store.
  assert (∀ (g : nat → kv_cmd → command_fields) m n, (∀ m n c, kv_exec m (g n c) = kv_exec m (request 0 0 c)) →
    passes m prog = true → prog !! n = Some (TGet x e) →
    default EmptyString ((foldl kv_exec m (take n (imap g prog)) : gmap string string) !! x) = e) as H.
  { induction prog as [|c prog IH]; [done|]. intros g m [|n'] Hg [Hc Hp]%andb_true_iff Hn; simplify_eq/=.
    - by apply bool_decide_eq_true in Hc.
    - rewrite Hg. apply IH; [|done|done]. intros. apply Hg. }
  apply H. by intros m n' [].
Qed.

Lemma filter_within {A} (P Q : A → Prop) `{!∀ x, Decision (P x), !∀ x, Decision (Q x)} (l : list A) :
  (∀ x, x ∈ l → P x → Q x) → filter P (filter Q l) = filter P l.
Proof.
  induction l as [|x l IH]; intros Hl; [done|]. rewrite !filter_cons.
  assert (filter P (filter Q l) = filter P l) as E by (apply IH; set_solver).
  destruct (decide (Q x)) as [Hq|Hq]; [by rewrite filter_cons, E|].
  rewrite decide_False; [done|]. intros Hp. apply Hq, Hl; [by left|done].
Qed.

Lemma called_app tr tr' : called (tr ++ tr') = called tr ++ called tr'.
Proof. apply omap_app. Qed.

(** The operations of a client before the [n]-th are the first [n] of its program. *)
Lemma own_calls tr k prog n c j :
  filter (λ f, f_client f = k) (called tr) `prefix_of` requests k prog →
  prog !! n = Some c → tr !! j = Some (Invoke (request k n c)) →
  filter (λ f, f_client f = k) (called (take j tr)) = take n (requests k prog).
Proof.
  intros [rest Hreq] Hn Hj. rewrite <- (take_drop_middle _ _ _ Hj), called_app, filter_app in Hreq.
  simpl in Hreq. rewrite filter_cons, decide_True in Hreq by (by destruct c).
  set (done := filter (λ f, f_client f = k) (called (take j tr))) in *.
  assert (requests k prog !! length done = Some (request k n c)) as Hat.
  { rewrite Hreq, <- app_assoc. by apply list_lookup_middle. }
  unfold requests in Hat. rewrite list_lookup_imap in Hat. apply fmap_Some in Hat as (c' & Hc' & E).
  assert (length done = n) as <-.
  { apply (f_equal f_seq) in E. destruct c, c'; simpl in E; lia. }
  by rewrite Hreq, <- app_assoc, take_app_length.
Qed.

(** C39: on every orderly schedule, a test program whose client runs its operations one after
    the other, on keys that no other client writes, gets from the deployed store, while the
    answers are fresh, exactly the values that the program's assertions ask for, when those
    hold of a plain map. *)
Theorem program_holds configs r ids d k prog n x e lease v :
  full_mesh configs → configs ≠ [] → dreachable configs r ids d → fresh_answers d →
  passes ∅ prog = true →
  filter (λ f, f_client f = k) (called (trace d)) `prefix_of` requests k prog →
  (∀ w w', f_client w = k → f_client w' = k →
     called_before (trace d) w w' → returned_before (trace d) w w') →
  (∀ c w, c ∈ prog → Invoke w ∈ trace d → writes (cmd_key c) w → f_client w = k) →
  prog !! n = Some (TGet x e) → Return (request k n (TGet x e)) lease v ∈ trace d → v = e.
Proof.
  intros Hmesh Hne Hd Hfresh Hpass Hprog Hseq Hown Hn Hr.
  destruct (fresh_explained configs r ids d Hmesh Hne Hd Hfresh) as (S & HS).
  set (g := request k n (TGet x e)) in *.
  assert (Invoke g ∈ trace d) as (j & Hj)%list_elem_of_lookup by (by eapply (ex_called _ _ HS)).
  assert (∀ w, Invoke w ∈ trace d → writes x w → f_client w = k) as Hown'.
  { intros w. apply (Hown (TGet x e)). by eapply list_elem_of_lookup_2. }
  rewrite (sequential_read _ S (ex_linear _ _ HS) (ex_once _ _ HS) (ex_after _ _ HS) g lease v j Hr eq_refl Hj).
  - rewrite <- (passes_at k prog n x e Hpass Hn). f_equal. change (f_key g) with x.
    rewrite kv_run_writes, (kv_run_writes (take n _)). do 2 f_equal.
    rewrite <- (own_calls _ _ _ _ _ _ Hprog Hn Hj). symmetry. apply filter_within.
    intros w Hw. apply Hown', called_elem. rewrite <- (take_drop j (trace d)), called_app. set_solver.
  - intros w Hw Hwr. pose proof (Hown' w Hw Hwr). apply list_elem_of_lookup in Hw as (i & Hi).
    destruct (Nat.lt_total i j) as [?|[->|?]].
    + left. apply Hseq; [done..|]. by exists i, j.
    + rewrite Hi in Hj. injection Hj as ->. by destruct Hwr as [[] _].
    + right. apply Hseq; [done..|]. by exists j, i.
  - intros w w' Hw Hw' (i & i' & Hi & Hi' & Hlt). apply Hseq; [| |by exists i, i'];
      apply Hown'; try done; by eapply list_elem_of_lookup_2.
Qed.

(** ** The fixture *)

(** [SetUp]: three nodes, the ports of their tester services, and the addresses that
    [make_client] hands to a client. *)
Definition kv_fixture : layout := lay_out (gen_local_instances 3 50050) 55001.
Definition kv_addrs : list string :=
  (λ p, "localhost:" +:+ to_string p)%string <$> lay_kv_ports kv_fixture.

(** The nodes of the fixture are the deployment of the examples; a client asks them in the
    order of their ids. *)
Lemma kv_fixture_nodes :
  lay_configs kv_fixture = local3 ∧
  kv_addrs = ["localhost:51050"; "localhost:51051"; "localhost:51052"] ∧
  stubs_size (KvClient_init kv_addrs 1) = vsize local3.
Proof. split_and!; vm_compute; reflexivity. Qed.

(** [main]: the debugger's configuration and the result; no handler, no connection. *)
Definition kv_test_main (f : test_flags) (self : N) (failed : bool) : test_process :=
  mkTestProcess (mkDDBConfig (tf_ddb f) (tf_ddb_host_ip f) (tf_wait_for_attach f) (tf_ddb_app_wrapper f))
    None 0 None (if failed then 1 else 0).

(** The rest of [SetUp], which starts the nodes ([Setup.v]): [boot] are the processes in the
    order of their reports, [ok] the nodes that answer the request to run. *)
Definition kv_SetUp (StrSplit : string → string → list string) (has_runapp : bool) (f : test_flags)
    (boot : list (N * N)) (ok : N → bool) : option life :=
  bring_up_layout StrSplit has_runapp "../app/kv_node" "0.0.0.0:55000" 0 (Z.to_N (tf_raft_node_verb f))
    (Some (tp_ddb_conf (kv_test_main f 0 false))) kv_fixture boot ok.

Definition kv_TearDown (rpc : nat → N → bool) (late1 late2 : gset N) (l : life) : life :=
  kill_ctrl rpc late1 late2 l.

(** The fixture comes up under any flags and in any order of the reports. *)
Lemma kv_SetUp_runs StrSplit has_runapp f boot ok :
  (∀ port, StrSplit ("localhost:" +:+ to_string port)%string ":" = ["localhost"%string; to_string port]) →
  boot.*1 ≡ₚ [0; 1; 2] → (∀ id, ok id = true) →
  ∃ l, kv_SetUp StrSplit has_runapp f boot ok = Some l ∧ lf_alive l = list_to_map boot ∧
    (∀ i, i ∈ nodes (lf_ctrl l) ↔ i < 3) ∧
    lf_apply_threads l = (λ id, (id, true)) <$> nodes (lf_ctrl l).
Proof. intros Hs Hb Hok. by apply (local_cluster_runs StrSplit). Qed.

(** With three processes that report and answer, the fixture is up, a reader on each node;
    afterwards none is left. *)
Example kv_fixture_up :
  ∃ l, kv_SetUp Absl.StrSplit false default_flags [(0, 70); (1, 71); (2, 72)] (λ _, true) = Some l ∧
    (lf_apply_threads l).*2 = [true; true; true] ∧
    lf_node_threads l !! 2 = Some ("../app/kv_node --enable_ctrl --ctrl_addr 0.0.0.0:55000 --fail_type 0 " +:+
      "--verbosity 0 --id 2 --port 50052 --peers 0+localhost:50050,1+localhost:50051 " +:+
      "--node_tester_port 55003 > node_runner_2.log 2>&1 &") ∧
    lf_alive (kv_TearDown (λ _ _, true) ∅ ∅ l) = ∅.
Proof. eexists. split; [vm_compute; reflexivity|]. split_and!; vm_compute; reflexivity. Qed.

(** ** The tests *)

(** What the thread of a test does: an operation of its client, the search for the leader,
    requests to the controller, pauses (in seconds). *)
Inductive kv_action :=
| Op (c : kv_cmd)
| FindLeader
| DisconnectLeader
| ReconnectLeader
| DisconnectNode (id : N)
| ReconnectNode (id : N)
| Pause (s : N).

Definition ops_of (acts : list kv_action) : list kv_cmd :=
  omap (λ a, match a with Op c => Some c | _ => None end) acts.

(** The variable [leader_id], and the nodes that are cut off. *)
Record kv_env := mkKvEnv { leader_id : N; cut_off : gset N }.

Definition UINT64_MAX : N := pow64 - 1.

Fixpoint find_leader (states : list WireState) : N :=
  match states with
  | [] => UINT64_MAX
  | s :: states => if ws_is_leader s then ws_id s else find_leader states
  end.

Definition perform_kv (states : list WireState) (a : kv_action) (e : kv_env) : kv_env :=
  match a with
  | Op _ | Pause _ => e
  | FindLeader => mkKvEnv (find_leader states) (cut_off e)
  | DisconnectLeader =>
      if leader_id e =? UINT64_MAX then e else mkKvEnv (leader_id e) (cut_off e ∪ {[leader_id e]})
  | ReconnectLeader =>
      if leader_id e =? UINT64_MAX then e else mkKvEnv (leader_id e) (cut_off e ∖ {[leader_id e]})
  | DisconnectNode id => mkKvEnv (leader_id e) (cut_off e ∪ {[id]})
  | ReconnectNode id => mkKvEnv (leader_id e) (cut_off e ∖ {[id]})
  end.

Definition BasicOpsC : list kv_action :=
  Op <$> [TPut "key1" "hello"; TGet "key1" "hello"; TAppend "key1" " world"; TGet "key1" "hello world";
          TGet "nonexistent" ""].

Definition MultiKeyC : list kv_action :=
  let nth i := pretty (N.of_nat i) in
  Op <$> ((λ i, TPut ("key" +:+ nth i) ("value" +:+ nth i)) <$> seq 0 10) ++
         ((λ i, TGet ("key" +:+ nth i) ("value" +:+ nth i)) <$> seq 0 10).

(** Client [c] of five. *)
Definition ConcurrentC (c : nat) : list kv_action :=
  i ← seq 0 20;
  let name := "client" +:+ pretty (N.of_nat c) in
  let key := name +:+ "_key" +:+ pretty (N.of_nat i) in
  let value := name +:+ "_val" +:+ pretty (N.of_nat i) in
  [Op (TPut key value); Op (TGet key value)].

Definition LeaderFailureC : list kv_action :=
  [Op (TPut "survive" "value1"); FindLeader; DisconnectLeader; Pause 3; Op (TGet "survive" "value1");
   Op (TPut "survive2" "value2"); ReconnectLeader; Pause 2; Op (TGet "survive2" "value2")].

Definition PartitionStaleReadC : list kv_action :=
  [Op (TPut "partition_key" "original"); DisconnectNode 1; DisconnectNode 2; Pause 3;
   ReconnectNode 1; ReconnectNode 2; Pause 3; Op (TGet "partition_key" "original")].

Definition PutOverwriteC : list kv_action :=
  Op <$> [TPut "overwrite" "v1"; TGet "overwrite" "v1"; TPut "overwrite" "v2"; TGet "overwrite" "v2";
          TPut "overwrite" "v3"; TGet "overwrite" "v3"].

Definition kv_tests : list (list kv_action) :=
  [BasicOpsC; MultiKeyC; LeaderFailureC; PartitionStaleReadC; PutOverwriteC] ++ (ConcurrentC <$> seq 0 5).

(** What the tests assert holds of a plain map, and the clients of [ConcurrentC] have
    keys of their own. *)
Lemma programs_pass :
  forallb (passes ∅) (ops_of <$> kv_tests) = true ∧
  NoDup (c ← seq 0 5; omap (λ t, match t with TPut key _ => Some key | _ => None end) (ops_of (ConcurrentC c))).
Proof.
  split; [vm_compute; reflexivity|].
  match goal with |- NoDup ?l => apply (bool_decide_eq_true_1 (NoDup l)) end. vm_compute. reflexivity.
Qed.

(** An operation is made only while the nodes that are cut off leave a majority of three,
    and at the end none is. *)
Fixpoint served_by_majority (states : list WireState) (acts : list kv_action) (e : kv_env) : Prop :=
  match acts with
  | [] => cut_off e = ∅
  | a :: acts =>
      match a with Op _ => (size (cut_off e) ≤ 1)%nat | _ => True end ∧
      served_by_majority states acts (perform_kv states a e)
  end.

Lemma ops_served states ops e : cut_off e = ∅ → served_by_majority states (Op <$> ops) e.
Proof.
  revert e. induction ops as [|c ops IH]; intros e He; simpl; [done|].
  rewrite He, size_empty. split; [lia|by apply IH].
Qed.

(** Unfold the actions of a test. *)
Ltac perform_actions := cbn [served_by_majority perform_kv cut_off leader_id].

Lemma leader_failure_served states : served_by_majority states LeaderFailureC (mkKvEnv UINT64_MAX ∅).
Proof.
  unfold LeaderFailureC. perform_actions. destruct (N.eqb_spec (find_leader states) UINT64_MAX) as [E|E].
  - perform_actions. rewrite E, N.eqb_refl. perform_actions. rewrite size_empty. split_and!; try done; lia.
  - perform_actions. rewrite (proj2 (N.eqb_neq _ _) E). perform_actions.
    rewrite union_empty_l_L, size_empty, size_singleton, difference_diag_L, size_empty.
    split_and!; try done; lia.
Qed.

Lemma partition_served states : served_by_majority states PartitionStaleReadC (mkKvEnv UINT64_MAX ∅).
Proof.
  unfold PartitionStaleReadC. perform_actions.
  replace ((∅ ∪ {[1]} ∪ {[2]}) ∖ {[1]} ∖ {[2]}) with (∅ : gset N) by set_solver.
  rewrite size_empty. split_and!; try done; lia.
Qed.

(** The clients of [ConcurrentC] make operations only. *)
Lemma concurrent_ops c : ∃ ops, ConcurrentC c = Op <$> ops.
Proof.
  unfold ConcurrentC. induction (seq 0 20) as [|i turns [ops E]]; [by exists []|].
  rewrite bind_cons, E. by eexists (_ :: _ :: ops).
Qed.

Lemma tests_served acts states :
  acts ∈ kv_tests → served_by_majority states acts (mkKvEnv UINT64_MAX ∅).
Proof.
  revert acts. apply Forall_forall. unfold kv_tests. rewrite Forall_app. split.
  - rewrite !Forall_cons. split_and!;
      first [by apply ops_served|apply leader_failure_served|apply partition_served|by constructor].
  - apply Forall_fmap, Forall_forall. intros c _. unfold compose. destruct (concurrent_ops c) as [ops ->].
    by apply ops_served.
Qed.

(** ** Concurrent appends *)

(** When all writes of the key have returned before the read is called, they are all. *)
Lemma called_all tr S g j :
  explained tr S → tr !! j = Some (Invoke g) →
  (∀ w, Invoke w ∈ tr → writes (f_key g) w → returned_before tr w g) →
  filter (writes (f_key g)) (called (take j tr)) = filter (writes (f_key g)) (called tr).
Proof.
  intros HS Hj Hall. rewrite <- (take_drop j tr) at 2. rewrite called_app, filter_app.
  assert (filter (writes (f_key g)) (called (drop j tr)) = []) as ->; [|by rewrite app_nil_r].
  apply elem_of_nil_inv. intros w [Hw (i & Hi)%called_elem%list_elem_of_lookup]%list_elem_of_filter.
  rewrite lookup_drop in Hi.
  destruct (Hall w) as (m & lease & v & j0 & Hm & Hj0 & ?); [by eapply list_elem_of_lookup_2|done|].
  pose proof (ex_once _ _ HS _ _ _ Hj Hj0). pose proof (ex_after _ _ HS _ _ _ _ _ Hm Hi). lia.
Qed.

(** [while (iss >> token) token_count++] on an [istringstream]: words between white space. *)
Definition isspace (a : ascii) : bool :=
  let n := N_of_ascii a in (n =? 32) || ((9 <=? n) && (n <=? 13)).

Fixpoint tokens_from (inside : bool) (s : string) : nat :=
  match s with
  | EmptyString => if inside then 1%nat else 0%nat
  | String a s =>
      if isspace a then ((if inside then 1 else 0) + tokens_from false s)%nat else tokens_from true s
  end.
Definition token_count (s : string) : nat := tokens_from false s.

(** The value of append [i] of client [c], and all values of the test. *)
Definition append_value (c i : nat) : string :=
  "c" +:+ pretty (N.of_nat c) +:+ "i" +:+ pretty (N.of_nat i) +:+ " ".
Definition appended (clients appends : nat) : list string :=
  c ← seq 0 clients; append_value c <$> seq 0 appends.

(** A word with a space behind it. *)
Fixpoint word (s : string) : bool :=
  match s with
  | String a (String b EmptyString) => negb (isspace a) && isspace b
  | String a s => negb (isspace a) && word s
  | EmptyString => false
  end.

Lemma tokens_word w s b : word w = true → tokens_from b (w +:+ s) = S (token_count s).
Proof.
  revert b. induction w as [|a w IH]; intros b Hw; [done|]. destruct w as [|a' w].
  - simpl in Hw. by rewrite andb_false_r in Hw.
  - destruct w as [|a2 w].
    + simpl in Hw. apply andb_true_iff in Hw as [Ha Ha']. apply negb_true_iff in Ha.
      simpl. by rewrite Ha, Ha'.
    + change (negb (isspace a) && word (String a' (String a2 w)) = true) in Hw.
      apply andb_true_iff in Hw as [Ha Hw]. apply negb_true_iff in Ha.
      change (tokens_from b (String a ((String a' (String a2 w)) +:+ s)) = S (token_count s)).
      cbn [tokens_from]. rewrite Ha. by apply IH.
Qed.

Definition concat (ss : list string) : string := foldr String.append EmptyString ss.

Lemma tokens_concat ss : Forall (λ s, word s = true) ss → token_count (concat ss) = length ss.
Proof. induction 1 as [|s ss Hs _ IH]; [done|]. simpl. unfold token_count. by rewrite tokens_word, IH. Qed.

Lemma appends_run (m : gmap string string) x s fs :
  m !! x = Some s → Forall (λ f, f_op f = APPEND ∧ f_key f = x) fs →
  (foldl kv_exec m fs : gmap string string) !! x = Some (s +:+ concat (f_value <$> fs)).
Proof.
  intros Hm Hfs. revert m s Hm. induction Hfs as [|f fs [Hop Hk] _ IH]; intros m s Hm; simpl.
  - by rewrite string_app_nil_r.
  - rewrite (IH _ (s +:+ f_value f)); [by rewrite string_app_assoc|].
    unfold kv_exec, kv_store. rewrite Hop, Hk, lookup_insert_eq, Hm. done.
Qed.

(** The write that returned before the others were called is the first. *)
Lemma written_first tr S k g p ws :
  linearizes_all tr S → written S k g ≡ₚ p :: ws → (∀ w, w ∈ ws → returned_before tr p w) →
  ∃ ws', written S k g = p :: ws' ∧ ws' ≡ₚ ws.
Proof.
  intros HS Hperm Hfirst.
  assert (StronglySorted (λ w w', ¬ returned_before tr w' w) (written S k g)) as Hsort.
  { apply (StronglySorted_filter (λ w w', ¬ returned_before tr w' w)); [done|]. apply StronglySorted_alt.
    intros a b w w' [Ha _]%lookup_take_Some [Hb _]%lookup_take_Some Hlt Hret.
    destruct (returned_before_place tr S HS w' w a Hret Ha) as (b' & Hb' & ?).
    pose proof (NoDup_lookup _ _ _ _ (la_once _ _ HS) Hb Hb'). lia. }
  assert (p ∈ written S k g) as (l1 & l2 & E)%list_elem_of_split by (rewrite Hperm; by left).
  rewrite E in *. destruct l1 as [|w l1]; [by exists l2; split; [|by apply Permutation_cons_inv in Hperm]|].
  exfalso. assert (w ∈ ws) as Hw.
  { rewrite <- Permutation_middle in Hperm. apply Permutation_cons_inv in Hperm. rewrite <- Hperm. by left. }
  apply (StronglySorted_app_1_elem_of _ _ _ w p Hsort); [by left..|by apply Hfirst].
Qed.

(** C40: on every orderly schedule, concurrent appends to one key, once they and the write before them have returned,
    are all in the value that is read next, in some order: it has a word for each. *)
Theorem concurrent_appends configs r ids d p apps g lease v :
  full_mesh configs → configs ≠ [] → dreachable configs r ids d → fresh_answers d →
  filter (writes (f_key g)) (called (trace d)) = p :: apps →
  f_op p = PUT → f_value p = EmptyString →
  Forall (λ w, f_op w = APPEND) apps → Forall (λ w, word (f_value w) = true) apps →
  (∀ w, w ∈ apps → returned_before (trace d) p w) →
  (∀ w, w ∈ p :: apps → returned_before (trace d) w g) →
  Return g lease v ∈ trace d → f_op g = GET →
  token_count v = length apps ∧ ∃ ws, ws ≡ₚ apps ∧ v = concat (f_value <$> ws).
Proof.
  intros Hmesh Hne Hd Hfresh Hcalled Hop Hval Happ Hword Hfirst Hall Hr Hget.
  destruct (fresh_explained configs r ids d Hmesh Hne Hd Hfresh) as (S & Hex).
  pose proof (ex_linear _ _ Hex) as HS.
  assert (Invoke g ∈ trace d) as (j & Hj)%list_elem_of_lookup by (by eapply (ex_called _ _ Hex)).
  assert (∀ w, Invoke w ∈ trace d → writes (f_key g) w → returned_before (trace d) w g) as Hall'.
  { intros w Hw Hwr. apply Hall. rewrite <- Hcalled. apply list_elem_of_filter. by rewrite called_elem. }
  destruct (quiet_read _ S HS (ex_once _ _ Hex) (ex_after _ _ Hex) g lease v j Hr Hget Hj) as (k & _ & Hperm & ->).
  { intros w Hw Hwr. left. by apply Hall'. }
  rewrite (called_all _ S g j Hex Hj Hall'), Hcalled in Hperm. destruct (written_first _ S k g p apps HS Hperm Hfirst) as (ws & -> & Hws).
  assert (Forall (λ f, f_op f = APPEND ∧ f_key f = f_key g) ws) as Hk.
  { rewrite Hws. apply Forall_forall. intros w Hw. rewrite Forall_forall in Happ. split; [by apply Happ|].
    assert (w ∈ filter (writes (f_key g)) (called (trace d))) as [[_ ?] _]%list_elem_of_filter;
      [rewrite Hcalled; by right|done]. }
  assert (f_key p = f_key g) as Hp.
  { assert (p ∈ filter (writes (f_key g)) (called (trace d))) as [[_ ?] _]%list_elem_of_filter;
      [rewrite Hcalled; by left|done]. }
  assert (kv_run (p :: ws) !! f_key g = Some (concat (f_value <$> ws))) as ->.
  { unfold kv_run. simpl. rewrite (appends_run _ _ EmptyString); [done| |done].
    unfold kv_exec, kv_store. by rewrite Hop, Hp, Hval, lookup_insert_eq. }
  simpl. split; [|by exists ws]. rewrite tokens_concat, length_fmap; [by rewrite Hws|].
  apply Forall_fmap. rewrite Hws. done.
Qed.

(** ** The test with two clients and one append each *)

Definition setup_put : command_fields := mkFields PUT 1 1 "shared" "".
Definition first_append : command_fields := mkFields APPEND 2 1 "shared" (append_value 0 0).
Definition second_append : command_fields := mkFields APPEND 3 1 "shared" (append_value 1 0).
Definition final_get : command_fields := mkFields GET 1 2 "shared" "".

Definition entry_of (f : command_fields) : Entry := mkEntry 1 (default EmptyString (proposed f)).

(** One entry through the apply thread of node 0. *)
Definition take_one : list dlabel :=
  [DApply 0; DService 0 KExec; DService 0 KFinish; DService 0 KSet].

Definition concurrent_append : list dlabel :=
  (DRaft <$> elect0) ++
  [DInvoke 1 PUT "shared" ""; DSend 1 0; DService 0 (KPropose 0); DService 0 (KRegister 0)] ++
  (DRaft <$> (beat 0 1 3 2 (mkAppendEntriesRequest 1 0 0 0 [entry_of setup_put] 0) 0 ++
              [LApply 0; LApply 0])) ++
  take_one ++ [DService 0 (KGet 0); DReply 1;
   DInvoke 2 APPEND "shared" (append_value 0 0); DInvoke 3 APPEND "shared" (append_value 1 0);
   DSend 2 1; DSend 3 2; DService 0 (KPropose 2); DService 0 (KRegister 2);
   DService 0 (KPropose 1); DService 0 (KRegister 1)] ++
  (DRaft <$> ([LTop 0 (ms 10)] ++
     beat 0 1 5 4 (mkAppendEntriesRequest 1 0 1 1 [entry_of second_append; entry_of first_append] 1) (ms 10) ++
     [LApply 0; LApply 0; LApply 0])) ++
  take_one ++ take_one ++ [DService 0 (KGet 1); DService 0 (KGet 2); DReply 2; DReply 3;
   DInvoke 1 GET "shared" ""; DSend 1 3; DService 0 (KExpires 3 (ms 10)); DService 0 (KIndex 3);
   DService 0 (KRead 3); DReply 1].

Definition concurrent_trace : list op_event :=
  [Invoke setup_put; Return setup_put false ""; Invoke first_append; Invoke second_append;
   Return first_append false ""; Return second_append false ""; Invoke final_get;
   Return final_get true "c1i0 c0i0 "].

(** The thirty values of the test are words. *)
Lemma appended_words :
  length (appended 3 10) = 30%nat ∧ Forall (λ s, word s = true) (appended 3 10) ∧
  token_count (concat (appended 3 10)) = 30%nat.
Proof. split; [reflexivity|]. split; [|vm_compute; reflexivity]. by repeat constructor. Qed.

(** Event [k] is a return before the call of event [j]. *)
Ltac returned_at k j := eexists k, _, _, j; split_and!; [reflexivity|reflexivity|lia].

Lemma concurrent_put_first w :
  w ∈ [first_append; second_append] → returned_before concurrent_trace setup_put w.
Proof.
  intros [->|[->|[]%not_elem_of_nil]%elem_of_cons]%elem_of_cons;
    [returned_at 1%nat 2%nat|returned_at 1%nat 3%nat].
Qed.

Lemma concurrent_all_returned w :
  w ∈ [setup_put; first_append; second_append] → returned_before concurrent_trace w final_get.
Proof.
  intros [->|[->|[->|[]%not_elem_of_nil]%elem_of_cons]%elem_of_cons]%elem_of_cons;
    [returned_at 1%nat 6%nat|returned_at 4%nat 6%nat|returned_at 5%nat 6%nat].
Qed.

Lemma concurrent_appends_witness :
  ∃ d, drun concurrent_append (deploy local3 0 [1; 2; 3]) = Some d ∧ trace d = concurrent_trace ∧
    token_count "c1i0 c0i0 " = 2%nat ∧
    ∃ ws, ws ≡ₚ [first_append; second_append] ∧ "c1i0 c0i0 " = concat (f_value <$> ws).
Proof.
  eexists. split; [vm_compute; reflexivity|]. split; [reflexivity|].
  eapply (concurrent_appends local3 0 [1; 2; 3] _ setup_put [first_append; second_append] final_get true
            _ local3_mesh ltac:(discriminate)).
  - apply (drun_reachable local3 0 [1; 2; 3] concurrent_append (deploy local3 0 [1; 2; 3]));
      [apply dreach_boot|]. vm_compute. reflexivity.
  - left. exists 0. apply answers_only_iff. vm_compute.
    repeat constructor; first [by left|right; by repeat constructor].
  - reflexivity.
  - reflexivity.
  - reflexivity.
  - by repeat constructor.
  - by repeat constructor.
  - exact concurrent_put_first.
  - exact concurrent_all_returned.
  - apply (list_elem_of_lookup_2 _ 7). reflexivity.
  - reflexivity.
Defined.

(** [put_then_get] is a test of one client. *)
Definition put_get : list kv_cmd := [TPut "x" "a"; TGet "x" "a"].
Definition put_get_trace : list op_event :=
  [Invoke (request 1 0 (TPut "x" "a")); Return (request 1 0 (TPut "x" "a")) false "";
   Invoke (request 1 1 (TGet "x" "a")); Return (request 1 1 (TGet "x" "a")) true "a"].

Lemma put_get_sequential w w' :
  f_client w = 1 → f_client w' = 1 → called_before put_get_trace w w' → returned_before put_get_trace w w'.
Proof.
  intros _ _ (j & j' & Hj & Hj' & Hlt).
  destruct j as [|[|[|[|j]]]], j' as [|[|[|[|j']]]]; simplify_eq/=; try lia. returned_at 1%nat 2%nat.
Qed.

Lemma put_get_own c w : c ∈ put_get → Invoke w ∈ put_get_trace → writes (cmd_key c) w → f_client w = 1.
Proof.
  intros _ Hw%called_elem _. by apply elem_of_cons in Hw as [->|[->|[]%not_elem_of_nil]%elem_of_cons].
Qed.

Lemma program_holds_witness :
  ∃ d, drun put_then_get (deploy local3 0 [1]) = Some d ∧ trace d = put_get_trace ∧
    ∀ lease v, Return (request 1 1 (TGet "x" "a")) lease v ∈ trace d → v = "a".
Proof.
  eexists. split; [vm_compute; reflexivity|]. split; [reflexivity|]. intros lease v.
  eapply (program_holds local3 0 [1] _ 1 put_get 1 "x" "a" lease v local3_mesh ltac:(discriminate)).
  - apply (drun_reachable local3 0 [1] put_then_get (deploy local3 0 [1])); [apply dreach_boot|].
    vm_compute. reflexivity.
  - left. exists 0. apply answers_only_iff. vm_compute.
    repeat constructor; first [by left|right; by repeat constructor].
  - vm_compute. reflexivity.
  - exists []. reflexivity.
  - exact put_get_sequential.
  - exact put_get_own.
  - reflexivity.
Defined.
