(* ===== verification/QueueTests.v ===== *)
(** The unit tests of the channel, [unittests/internals/test_msg_queue.cpp], over the
    queue of [MsgQueue.v].

    A test has a main thread and perhaps one more, each a list of actions.  [control] is
    the test without time: the queue with its sleepers, what the threads have left to do,
    and the events so far; [world] adds the clock, which stamps the events.  The order of
    the steps is arbitrary, spurious wake-ups included; the clock does not go back.

    The schedules of a test are explored by computation ([explore]), up to the flags that
    say who is asleep; [explore_sound] lifts the result to every schedule. *)
From S2P Require Import Prelude RaftState RaftNode MsgQueue.
Import Queue.

#[local] Open Scope N_scope.

(** ** Tests *)

Inductive test_action :=
| Enq (v : Z)
| Deq (expected : option Z)
| IsEmpty (b : bool)
| SleepFor (d : Z)
| ReadClock
| Spawn
| Join.

(** [b] tells whether an expectation was met. *)
Inductive event :=
| EvClock (t : N)
| EvSleep (t : N) (d : Z)
| EvWoke (t : N) (d : Z)
| EvBlocked (t : N)
| EvExpect (b : bool).

Record control := mkControl {
  cq : state Z;
  todo : gmap N (list test_action);
  sleeping : gmap N Z;
  spawned : bool;
  events : list event }.

Definition emit (evs : list event) (c : control) : control :=
  mkControl (cq c) (todo c) (sleeping c) (spawned c) (events c ++ evs).
Definition set_cq (s : state Z) (c : control) : control :=
  mkControl s (todo c) (sleeping c) (spawned c) (events c).
(** The action of thread [t] is over. *)
Definition advance (t : N) (rest : list test_action) (c : control) : control :=
  mkControl (cq c) (<[t := rest]> (todo c)) (sleeping c) (spawned c) (events c).

(** What a test sees of the result of a call. *)
Definition expectation (a : test_action) (s : state Z) : list event :=
  match a, last (returned s) with
  | Deq (Some x), Some (_, RValue v) => [EvExpect (bool_decide (v = Some x))]
  | _, _ => []
  end.

(** After a step [s] of the queue in a call of [t]: the call has returned, or waits. *)
Definition after_call (t : N) (a : test_action) (rest : list test_action) (s : state Z) (first : bool)
    (c : control) : control :=
  match threads s !! t with
  | Some Idle => emit (expectation a s) (advance t rest (set_cq s c))
  | _ => emit (if first then [EvBlocked t] else []) (set_cq s c)
  end.

Inductive clabel := ClAct (t : N) | ClWake (t : N) | ClResume (t : N) | ClSpurious (t : N).

(** A thread begins its next action. *)
Definition begin_action (t : N) (a : test_action) (rest : list test_action) (c : control) : option control :=
  match a with
  | Enq v => s ← step (CallEnqueue t v) (cq c); Some (after_call t a rest s true c)
  | Deq _ => s ← step (CallDequeue t) (cq c); Some (after_call t a rest s true c)
  | IsEmpty b => Some (emit [EvExpect (Bool.eqb (empty (mq (cq c))) b)] (advance t rest c))
  | SleepFor d =>
      Some (emit [EvSleep t d]
              (mkControl (cq c) (todo c) (<[t := d]> (sleeping c)) (spawned c) (events c)))
  | ReadClock => Some (emit [EvClock t] (advance t rest c))
  | Spawn => Some (advance t rest (mkControl (cq c) (todo c) (sleeping c) true (events c)))
  | Join => match todo c !! 1 with Some [] => Some (advance t rest c) | _ => None end
  end.

Definition ctl_step (l : clabel) (c : control) : option control :=
  match l with
  | ClAct t =>
      match todo c !! t, sleeping c !! t, threads (cq c) !! t with
      | Some (a :: rest), None, Some Idle =>
          if spawned c || (t =? 0) then begin_action t a rest c else None
      | _, _, _ => None
      end
  | ClWake t =>
      match todo c !! t, sleeping c !! t with
      | Some (_ :: rest), Some d =>
          Some (emit [EvWoke t d]
                  (advance t rest
                     (mkControl (cq c) (todo c) (delete t (sleeping c)) (spawned c) (events c))))
      | _, _ => None
      end
  | ClResume t =>
      match todo c !! t with
      | Some (a :: rest) => s ← step (Resume t) (cq c); Some (after_call t a rest s false c)
      | _ => None
      end
  | ClSpurious t => s ← step (Spurious t) (cq c); Some (set_cq s c)
  end.

(** ** Time *)

Record world := mkWorld {
  ctl : control;
  clock : Z;
  stamps : list Z;
  until : gmap N Z }.

Inductive wlabel := Tick (d : Z) | Step (l : clabel).

(** [sleep_for] sets the time before which the thread does not wake. *)
Definition deadline (l : clabel) (w : world) : gmap N Z :=
  match l with
  | ClAct t =>
      match todo (ctl w) !! t with
      | Some (SleepFor d :: _) => <[t := (clock w + d)%Z]> (until w)
      | _ => until w
      end
  | _ => until w
  end.

Definition may_wake (l : clabel) (w : world) : bool :=
  match l with
  | ClWake t => match until w !! t with Some u => (u <=? clock w)%Z | None => false end
  | _ => true
  end.

Definition world_step (l : wlabel) (w : world) : option world :=
  match l with
  | Tick d => if (0 <=? d)%Z then Some (mkWorld (ctl w) (clock w + d) (stamps w) (until w)) else None
  | Step l =>
      if may_wake l w then
        c ← ctl_step l (ctl w);
        Some (mkWorld c (clock w)
                (stamps w ++ replicate (length (events c) - length (events (ctl w))) (clock w))
                (deadline l w))
      else None
  end.

(** ** The tests of the file *)

(** The [b]-th reading of the clock by thread 1 is at least [d] after the [a]-th. *)
Definition claim : Type := nat * nat * Z.

(** [unblocked] numbers the readings after which thread 1 makes a call that must not wait. *)
Record unit_test := mkTest {
  buffer : N;
  main_thread : list test_action;
  other_thread : list test_action;
  claims : list claim;
  unblocked : list nat }.

Definition begin_test (u : unit_test) : control :=
  mkControl (start (buffer u) 2) {[0 := main_thread u; 1 := other_thread u]} ∅ false [].

Definition begin_world (u : unit_test) (now : Z) : world :=
  mkWorld (begin_test u) now [] ∅.

Definition SimpleEnqueueAndDequeue : unit_test :=
  mkTest 100 [IsEmpty true; Enq 1; IsEmpty false; Deq None; IsEmpty true] [] [] [].

Definition EnqueueAndDequeueMultipleMessages : unit_test :=
  mkTest 100 [Enq 10; Enq 20; Enq 30; Deq (Some 10%Z); Deq (Some 20%Z); Deq (Some 30%Z); IsEmpty true]
    [] [] [].

Definition EnqueueUnbufferedQueue : unit_test :=
  mkTest 0 [Spawn; SleepFor (ms 1000); Deq (Some 99%Z); Join]
    [ReadClock; Enq 99; ReadClock] [(0%nat, 1%nat, ms 1000)] [].

Definition DequeueUnbufferedQueue : unit_test :=
  mkTest 0 [Spawn; SleepFor (ms 1000); Enq 99; Join]
    [ReadClock; Deq None; ReadClock] [(0%nat, 1%nat, ms 1000)] [].

Definition BufferedEnqueueBlocking : unit_test :=
  mkTest 1 [Spawn; SleepFor (ms 1000); Deq (Some 99%Z); Deq (Some 100%Z); Join]
    [ReadClock; Enq 99; ReadClock; ReadClock; Enq 100; ReadClock] [(2%nat, 3%nat, ms 1000)] [0%nat].

Definition BufferedDequeueBlocking : unit_test :=
  mkTest 1 [Spawn; SleepFor (ms 1000); Enq 99; SleepFor (ms 2000); Enq 100; Join]
    [ReadClock; Deq None; ReadClock; ReadClock; Deq None; ReadClock]
    [(0%nat, 1%nat, ms 1000); (2%nat, 3%nat, ms 2000)] [].

Definition unit_tests : list unit_test :=
  [SimpleEnqueueAndDequeue; EnqueueAndDequeueMultipleMessages; EnqueueUnbufferedQueue;
   DequeueUnbufferedQueue; BufferedEnqueueBlocking; BufferedDequeueBlocking].

(** ** Exploration *)

(** Everybody awake. *)
Definition wake (t : thread Z) : thread Z := wake_prod (wake_con t).
Definition awake_q (s : state Z) : state Z :=
  mkState (mq s) (wake <$> threads s) (returned s) (pushed s) (popped s).
Definition awake (c : control) : control := set_cq (awake_q (cq c)) c.

(** A step that gets on: not a wake-up that finds its condition false. *)
Definition gets_on (l : clabel) (c : control) : bool :=
  match l with
  | ClResume t => match threads (cq c) !! t with Some th => waits_for (mq (cq c)) th | None => false end
  | ClSpurious _ => false
  | _ => true
  end.

Definition labels : list clabel :=
  [ClAct 0; ClAct 1; ClWake 0; ClWake 1; ClResume 0; ClResume 1].

Definition successors (c : control) : list control :=
  omap (λ l, if gets_on l c then awake <$> ctl_step l c else None) labels.

(** [check] holds of [c] and of all that follows it. *)
Fixpoint explore (check : control → bool) (fuel : nat) (c : control) : bool :=
  check c &&
  match fuel, successors c with
  | _, [] => true
  | O, _ => false
  | S n, cs => forallb (explore check n) cs
  end.

Definition finished (c : control) : bool :=
  match todo c !! 0, todo c !! 1 with Some [], Some [] => true | _, _ => false end.

Definition met (ev : event) : bool := match ev with EvExpect b => b | _ => true end.

Definition sleeps_for (d : Z) (ev : event) : bool :=
  match ev with EvSleep 0 d' => (d =? d')%Z | _ => false end.

Definition wakes_from (d : Z) (ev : event) : bool :=
  match ev with EvWoke 0 d' => (d =? d')%Z | _ => false end.
Definition is_clock (ev : event) : bool := match ev with EvClock 1 => true | _ => false end.
Definition is_blocked (ev : event) : bool := match ev with EvBlocked 1 => true | _ => false end.

(** Reading [k] of the clock by thread 1 comes after the main thread's only sleep of [d];
    [n] readings have been seen. *)
Fixpoint clock_after_wake (k n : nat) (d : Z) (evs : list event) : bool :=
  match evs with
  | [] => true
  | ev :: evs =>
      if is_clock ev then negb (n =? k)%nat && clock_after_wake k (S n) d evs
      else if wakes_from d ev then negb (existsb (sleeps_for d) evs)
      else clock_after_wake k n d evs
  end.

(** The main thread slept for [d] before the reading that ends the claim. *)
Definition claim_ok (evs : list event) (cl : claim) : bool :=
  let '(_, b, d) := cl in clock_after_wake b 0 d evs.

(** Thread 1 did not wait between reading [k] and the next one. *)
Fixpoint no_wait (k n : nat) (evs : list event) : bool :=
  match evs with
  | [] => true
  | ev :: evs =>
      if is_clock ev then no_wait k (S n) evs
      else negb (is_blocked ev && (n =? S k)%nat) && no_wait k n evs
  end.

Definition sound (u : unit_test) (c : control) : bool :=
  forallb met (events c) && forallb (claim_ok (events c)) (claims u) &&
  forallb (λ k, no_wait k 0 (events c)) (unblocked u) &&
  (finished c || negb (match successors c with [] => true | _ => false end)).


(** ** Up to the flags of the sleepers *)

Definition sameq (s s' : state Z) : Prop := awake_q s = awake_q s'.

#[export] Instance sameq_equiv : Equivalence sameq.
Proof. split; unfold sameq; red; congruence. Qed.

Lemma wake_idem t : wake (wake t) = wake t.
Proof. by destruct t. Qed.

#[export] Instance awake_q_proper : Proper (sameq ==> eq) awake_q.
Proof. by intros s s'. Qed.

Lemma awake_q_idem s : sameq (awake_q s) s.
Proof.
  unfold sameq, awake_q. simpl. f_equal. rewrite <- map_fmap_compose. apply map_fmap_ext.
  intros i t _. apply wake_idem.
Qed.

Lemma sameq_fields s s' : sameq s s' →
  mq s = mq s' ∧ wake <$> threads s = wake <$> threads s' ∧ returned s = returned s' ∧
  pushed s = pushed s' ∧ popped s = popped s'.
Proof. unfold sameq, awake_q. intros H. by injection H. Qed.

Lemma sameq_thread s s' i : sameq s s' → wake <$> threads s !! i = wake <$> threads s' !! i.
Proof. intros (_ & H & _)%sameq_fields. by rewrite <- !lookup_fmap, H. Qed.

Lemma sameq_intro s s' :
  mq s = mq s' → wake <$> threads s = wake <$> threads s' → returned s = returned s' →
  pushed s = pushed s' → popped s = popped s' → sameq s s'.
Proof. unfold sameq, awake_q. by intros -> -> -> -> ->. Qed.

#[export] Instance goto_proper i t : Proper (sameq ==> sameq) (goto i t).
Proof.
  intros s s' (E1 & E2 & E3 & E4 & E5)%sameq_fields. apply sameq_intro; simpl; try done.
  by rewrite !fmap_insert, E2.
Qed.

#[export] Instance return_proper i r : Proper (sameq ==> sameq) (return_ i r).
Proof.
  intros s s' (E1 & E2 & E3 & E4 & E5)%sameq_fields. apply sameq_intro; simpl; try done.
  - by rewrite !fmap_insert, E2.
  - by rewrite E3.
Qed.

Lemma goto_same i s t t' : threads s !! i = Some t → wake t' = wake t → sameq (goto i t' s) s.
Proof.
  intros Ht E. apply sameq_intro; try done. simpl. rewrite fmap_insert, E, insert_id; [done|].
  by rewrite lookup_fmap, Ht.
Qed.

(** Notifications change flags only. *)
Lemma notify_same f s : (∀ t, wake (f t) = wake t) → sameq (notify f s) s.
Proof.
  intros Hf. apply sameq_intro; try done. simpl. rewrite <- map_fmap_compose.
  apply map_fmap_ext. intros i t _. apply Hf.
Qed.

Lemma wake_wake_con t : wake (wake_con t) = wake t.
Proof. by destruct t. Qed.
Lemma wake_wake_prod t : wake (wake_prod t) = wake t.
Proof. by destruct t. Qed.

#[export] Instance hand_over_proper i : Proper (sameq ==> sameq) (hand_over i).
Proof.
  intros s s' H. unfold hand_over. pose proof (sameq_fields _ _ H) as (-> & _).
  by destruct (handed_over (mq s')); rewrite H.
Qed.

#[export] Instance enqueue_proper i v : Proper (sameq ==> sameq) (enqueue i v).
Proof.
  intros s s' H. unfold enqueue. pose proof (sameq_fields _ _ H) as (-> & E2 & E3 & -> & ->).
  destruct (may_push (mq s')); [|by rewrite H]. destruct (closed_ (mq s')); [by rewrite H|].
  assert (sameq (notify wake_con (mkState (push v (mq s')) (threads s) (returned s) (pushed s' ++ [v]) (popped s')))
            (notify wake_con (mkState (push v (mq s')) (threads s') (returned s') (pushed s' ++ [v]) (popped s'))))
    as Hn.
  { rewrite !notify_same by apply wake_wake_con. by apply sameq_intro. }
  simpl. case_match; by rewrite Hn.
Qed.

#[export] Instance dequeue_proper i : Proper (sameq ==> sameq) (dequeue i).
Proof.
  intros s s' H. unfold dequeue. pose proof (sameq_fields _ _ H) as (-> & E2 & E3 & -> & ->).
  destruct (may_pop (mq s')); [|by rewrite H]. destruct (closed_ (mq s')); [by rewrite H|].
  destruct (pop (mq s')) as [[v q]|]; [|done].
  apply return_proper. rewrite !notify_same by apply wake_wake_prod. by apply sameq_intro.
Qed.

#[export] Instance close_notify_proper i : Proper (sameq ==> sameq) (close_notify i).
Proof.
  intros s s' H. apply return_proper.
  by rewrite !notify_same by (apply wake_wake_con || apply wake_wake_prod).
Qed.

(** ** Simulation *)

(** A call or a wake-up of a thread that is awake does the same when all are awake. *)
Lemma step_same l s s1 :
  step l s = Some s1 → (∀ i, l ≠ Spurious i) → no_try l = true → (∀ i, l ≠ CallClose i) →
  ∃ s2, step l (awake_q s) = Some s2 ∧ sameq s2 s1.
Proof.
  intros Hs Hsp Hnt Hcl. pose proof (awake_q_idem s) as Hq. unfold step in *. undo_bind.
  assert ((wake <$> threads s) !! actor l = Some (wake x)) as -> by (by rewrite lookup_fmap, H).
  destruct l; try (by destruct (Hsp i)); try (by destruct (Hcl i)); try done; simpl in *;
    destruct x as [|? []|[]|[]|]; simplify_eq/=; eexists; (split; [reflexivity|]); by f_equiv.
Qed.

Lemma idle_same s s' t : sameq s s' → threads s !! t = Some Idle ↔ threads s' !! t = Some Idle.
Proof.
  intros H. pose proof (sameq_thread s s' t H) as E.
  destruct (threads s !! t) as [[]|], (threads s' !! t) as [[]|]; naive_solver.
Qed.

Lemma after_call_same t a rest s s' b c :
  sameq s s' → awake (after_call t a rest s b (awake c)) = awake (after_call t a rest s' b c).
Proof.
  intros H. pose proof (idle_same s s' t H) as Hi. pose proof (sameq_fields s s' H) as (_ & _ & Er & _).
  assert (expectation a s = expectation a s') as He by (unfold expectation; by rewrite Er).
  unfold after_call, awake, set_cq, emit, advance. rewrite He.
  destruct (threads s !! t) as [[]|], (threads s' !! t) as [[]|]; simpl; try rewrite H; try done; naive_solver.
Qed.

(** A wake-up whose condition is false changes a flag only. *)
Lemma resume_waits t s s' th :
  threads s !! t = Some th → waits_for (mq s) th = false → step (Resume t) s = Some s' →
  sameq s' s ∧ ∃ th', threads s' !! t = Some th' ∧ th' ≠ Idle.
Proof.
  intros Ht Hw Hs. unfold step in Hs. simpl in Hs. rewrite Ht in Hs. simpl in Hs.
  assert (∀ th', wake th' = wake th → th' ≠ Idle →
    sameq (goto t th' s) s ∧ ∃ u, threads (goto t th' s) !! t = Some u ∧ u ≠ Idle) as Hg.
  { intros th' Hth Hn. split; [by eapply goto_same|exists th'; simpl; by rewrite lookup_insert_eq]. }
  destruct th as [|v []|[]|[]|]; simplify_eq/=;
    unfold enqueue, hand_over, dequeue; rewrite Hw; by apply Hg.
Qed.

Lemma gets_on_awake l c : gets_on l (awake c) = gets_on l c.
Proof.
  destruct l; try done. simpl. rewrite lookup_fmap. destruct (threads (cq c) !! t) as [[]|]; done.
Qed.

Lemma act_awake t a rest c c' :
  begin_action t a rest c = Some c' → ∃ c2, begin_action t a rest (awake c) = Some c2 ∧ awake c2 = awake c'.
Proof.
  intros Ha. pose proof (awake_q_idem (cq c)) as Hq. destruct a; simpl in *; undo_bind.
  - destruct (step_same _ _ _ H) as (s2 & -> & Hs2); try done. eexists. split; [done|].
    by apply after_call_same.
  - destruct (step_same _ _ _ H) as (s2 & -> & Hs2); try done. eexists. split; [done|].
    by apply after_call_same.
  - simplify_eq. eexists. split; [done|]. unfold awake, emit, advance, set_cq. simpl. by rewrite Hq.
  - simplify_eq. eexists. split; [done|]. unfold awake, emit, advance, set_cq. simpl. by rewrite Hq.
  - simplify_eq. eexists. split; [done|]. unfold awake, emit, advance, set_cq. simpl. by rewrite Hq.
  - simplify_eq. eexists. split; [done|]. unfold awake, emit, advance, set_cq. simpl. by rewrite Hq.
  - destruct (todo c !! 1) as [[]|]; simplify_eq. eexists. split; [done|].
    unfold awake, emit, advance, set_cq. simpl. by rewrite Hq.
Qed.

Lemma cstep_awake l c c' :
  ctl_step l c = Some c' →
  gets_on l c = false ∧ awake c' = awake c ∨
  gets_on l c = true ∧ ∃ c2, ctl_step l (awake c) = Some c2 ∧ awake c2 = awake c'.
Proof.
  intros Hs. pose proof (awake_q_idem (cq c)) as Hq. destruct l; simpl in Hs.
  - right. split; [done|]. simpl. destruct (todo c !! t) as [[|a rest]|]; try done.
    destruct (sleeping c !! t); [done|]. rewrite lookup_fmap.
    destruct (threads (cq c) !! t) as [[]|]; simplify_eq/=.
    destruct (spawned c || (t =? 0)); [|done]. by apply act_awake.
  - right. split; [done|]. simpl. destruct (todo c !! t) as [[|a rest]|]; try done.
    destruct (sleeping c !! t); simplify_eq. eexists. split; [done|].
    unfold awake, emit, advance, set_cq. simpl. by rewrite Hq.
  - destruct (todo c !! t) as [[|a rest]|] eqn:Htd; try done. undo_bind.
    destruct (threads (cq c) !! t) as [th|] eqn:Ht; [|unfold step in H; simpl in H; by rewrite Ht in H].
    destruct (waits_for (mq (cq c)) th) eqn:Hw.
    + right. split; [done|]. rewrite Htd. destruct (step_same _ _ _ H) as (s2 & -> & Hs2); try done.
      eexists. split; [done|]. by apply after_call_same.
    + left. split; [done|]. destruct (resume_waits _ _ _ _ Ht Hw H) as (Hsame & th' & Hth' & Hn).
      unfold after_call. rewrite Hth'. destruct th'; try done;
      unfold awake, emit, set_cq; simpl; rewrite app_nil_r, Hsame; by destruct c.
  - left. split; [done|]. undo_bind. unfold awake, set_cq. simpl. f_equal.
    assert (sameq x (cq c)) as Hx; [|by rewrite Hx].
    unfold step in H. simpl in H. destruct (threads (cq c) !! t) as [th|] eqn:Ht; [|done]. simpl in H.
    destruct th; simplify_eq; by eapply goto_same.
Qed.

(** ** Every schedule *)

(** [c] is reached by [k] steps that get on, and any number of others. *)
Inductive creach (u : unit_test) : nat → control → Prop :=
| creach_begin : creach u 0 (begin_test u)
| creach_step k l c c' :
    creach u k c → ctl_step l c = Some c' → creach u (if gets_on l c then S k else k) c'.

Lemma cstep_threads l c c' : ctl_step l c = Some c' → dom (todo c') = dom (todo c).
Proof.
  intros Hs.
  assert (∀ t x rest, todo c !! t = Some x → dom (<[t := rest]> (todo c)) = dom (todo c)) as Hd.
  { intros t x rest Ht. by eapply dom_insert_lookup_L. }
  assert (∀ t a rest s b x, todo c !! t = Some x → dom (todo (after_call t a rest s b c)) = dom (todo c)) as Hc.
  { intros t a rest s b x Ht. unfold after_call. destruct (threads s !! t) as [[]|]; simpl; eauto. }
  destruct l; simpl in Hs.
  - destruct (todo c !! t) as [[|a rest]|] eqn:Ht; try done. destruct (sleeping c !! t); [done|].
    destruct (threads (cq c) !! t) as [[]|]; try done. destruct (spawned c || (t =? 0)); [|done].
    destruct a; simpl in Hs; undo_bind; simplify_eq; simpl; eauto.
    destruct (todo c !! 1) as [[]|]; simplify_eq. simpl. eauto.
  - destruct (todo c !! t) as [[|a rest]|] eqn:Ht; try done. destruct (sleeping c !! t); simplify_eq. simpl. eauto.
  - destruct (todo c !! t) as [[|a rest]|] eqn:Ht; try done. undo_bind. eauto.
  - by undo_bind.
Qed.

Lemma creach_threads u k c : creach u k c → dom (todo c) = {[0; 1]}.
Proof.
  induction 1 as [|k l c c' _ IH Hs]; [|by rewrite (cstep_threads _ _ _ Hs)].
  simpl. rewrite dom_insert_L, dom_singleton_L. done.
Qed.

Lemma successors_elem l c c' :
  dom (todo c) = {[0; 1]} → ctl_step l c = Some c' → gets_on l c = true → awake c' ∈ successors c.
Proof.
  intros Hdom Hs Hg. unfold successors. apply list_elem_of_omap. exists l. rewrite Hg, Hs.
  split; [|done].
  assert (∀ t x, todo c !! t = Some x → t = 0 ∨ t = 1) as Ht.
  { intros t x Hx. apply elem_of_dom_2 in Hx. set_solver. }
  destruct l; simpl in Hs, Hg; [| | |done]; destruct (todo c !! t) as [x|] eqn:Hx; try done;
    destruct (Ht t x Hx) as [-> | ->]; set_solver.
Qed.

(** What is checked of the states with everybody awake holds of all. *)
Lemma explore_sound check u n k c :
  explore check n (awake (begin_test u)) = true → creach u k c →
  (k ≤ n)%nat ∧ explore check (n - k) (awake c) = true.
Proof.
  intros Hex. induction 1 as [|k l c c' Hr [Hk IH] Hs]; [by rewrite Nat.sub_0_r; split; [lia|]|].
  pose proof (creach_threads _ _ _ Hr) as Hdom.
  assert (∀ c2, ctl_step l (awake c) = Some c2 → gets_on l c = true → awake c2 = awake c' →
    (S k ≤ n)%nat ∧ explore check (n - S k) (awake c') = true) as Hnext.
  { intros c2 Hc2 Hg E. assert (awake c' ∈ successors (awake c)) as Hin.
    { rewrite <- E. apply (successors_elem l); [done|done|by rewrite gets_on_awake]. }
    destruct (successors (awake c)) as [|x xs] eqn:Ex; [by apply not_elem_of_nil in Hin|].
    destruct (n - k)%nat as [|m] eqn:Em; cbn [explore] in IH; rewrite Ex in IH;
      apply andb_true_iff in IH as [_ IH]; [done|].
    replace (n - S k)%nat with m by lia. split; [lia|].
    apply list_elem_of_In in Hin. by apply (proj1 (forallb_forall _ _) IH). }
  destruct (cstep_awake l c c' Hs) as [[Hg E]|(Hg & c2 & Hc2 & E)]; rewrite Hg;
    [by rewrite E|by eapply Hnext].
Qed.

Lemma explore_check check n c : explore check n c = true → check c = true.
Proof. destruct n; cbn [explore]; by intros [? _]%andb_true_iff. Qed.

(** ** Nobody sleeps through a wake-up *)

Definition all_rest (c : control) : Prop :=
  map_Forall (λ _ th, rests (mq (cq c)) th) (threads (cq c)).

Lemma step_rests l (s s' : state Z) :
  step l s = Some s' → no_try l = true → (∀ i, l ≠ CallClose i) →
  map_Forall (λ _ t, rests (mq s) t) (threads s) → map_Forall (λ _ t, rests (mq s') t) (threads s').
Proof.
  intros Hs Hnt Hcl H. unfold step in Hs. undo_bind.
  destruct l; try done; try (by destruct (Hcl i)); case_match; simplify_eq/=;
    case_guards; simplify_eq; eauto using rests_enqueue, rests_dequeue, rests_hand, rests_close_notify;
    try (by apply rests_insert).
  apply (rests_close_notify i s).
Qed.

(** The queue of a step comes from a step of the queue. *)
Lemma cstep_queue l c c' :
  ctl_step l c = Some c' → cq c' = cq c ∨
  ∃ ql, step ql (cq c) = Some (cq c') ∧ no_try ql = true ∧ ∀ i, ql ≠ CallClose i.
Proof.
  intros Hs.
  assert (∀ t a rest s b, cq (after_call t a rest s b c) = s) as Hq.
  { intros. unfold after_call. by destruct (threads s !! t) as [[]|]. }
  destruct l; simpl in Hs.
  - destruct (todo c !! t) as [[|a rest]|] eqn:Ht; try done. destruct (sleeping c !! t); [done|].
    destruct (threads (cq c) !! t) as [[]|]; try done. destruct (spawned c || (t =? 0)); [|done].
    destruct a; simpl in Hs; undo_bind; simplify_eq; try (by left).
    + right. exists (CallEnqueue t v). by rewrite Hq.
    + right. exists (CallDequeue t). by rewrite Hq.
    + left. destruct (todo c !! 1) as [[]|]; by simplify_eq.
  - left. destruct (todo c !! t) as [[|a rest]|]; try done. destruct (sleeping c !! t); by simplify_eq.
  - destruct (todo c !! t) as [[|a rest]|]; try done. undo_bind. right. exists (Resume t). by rewrite Hq.
  - undo_bind. right. by exists (Spurious t).
Qed.

Lemma creach_rests u k c : creach u k c → all_rest c.
Proof.
  induction 1 as [|k l c c' _ IH Hs].
  - intros i th Hth. by apply (start_threads (buffer u) 2) in Hth as ->.
  - unfold all_rest. destruct (cstep_queue _ _ _ Hs) as [->|(ql & Hq & Hnt & Hcl)]; [done|].
    by eapply step_rests.
Qed.

(** A step that gets on when everybody is awake can be taken. *)
Lemma cstep_real l c c2 :
  all_rest c → ctl_step l (awake c) = Some c2 → gets_on l c = true → ∃ c', ctl_step l c = Some c'.
Proof.
  intros Hr Hs Hg. destruct l; simpl in *; [| | |done].
  - destruct (todo c !! t) as [[|a rest]|]; try done. destruct (sleeping c !! t); [done|].
    rewrite lookup_fmap in Hs. destruct (threads (cq c) !! t) as [[]|] eqn:Ht; try done.
    destruct (spawned c || (t =? 0)); [|done].
    destruct a; simpl in *; eauto; try (unfold step; simpl; rewrite Ht; simpl; by eauto).
    destruct (todo c !! 1) as [[]|]; naive_solver.
  - destruct (todo c !! t) as [[|a rest]|]; try done. destruct (sleeping c !! t); naive_solver.
  - destruct (todo c !! t) as [[|a rest]|]; try done.
    destruct (threads (cq c) !! t) as [th|] eqn:Ht; [|done]. pose proof (Hr t th Ht) as Hrest.
    assert (sleeps th = false) as Hsl.
    { destruct (sleeps th) eqn:E; [|done]. specialize (Hrest E). congruence. }
    undo_bind. unfold step in *. simpl in *. rewrite lookup_fmap, Ht in H. rewrite Ht. simpl in *.
    destruct th as [|v []|[]|[]|]; simpl in *; try done; eauto.
Qed.

(** ** Time *)

(** What a step adds to the events, and whom it puts to sleep or wakes. *)
Definition timeless (ev : event) : Prop :=
  match ev with EvSleep _ _ | EvWoke _ _ => False | _ => True end.

Lemma cstep_events l c c' :
  ctl_step l c = Some c' →
  ∃ evs, events c' = events c ++ evs ∧
    match l with
    | ClAct t =>
        match todo c !! t with
        | Some (SleepFor d :: _) => evs = [EvSleep t d] ∧ sleeping c' = <[t := d]> (sleeping c)
        | _ => Forall timeless evs ∧ sleeping c' = sleeping c
        end
    | ClWake t => ∃ d, sleeping c !! t = Some d ∧ evs = [EvWoke t d] ∧ sleeping c' = delete t (sleeping c)
    | _ => Forall timeless evs ∧ sleeping c' = sleeping c
    end.
Proof.
  intros Hs.
  assert (∀ t a rest s b, ∃ evs, events (after_call t a rest s b c) = events c ++ evs ∧
    Forall timeless evs ∧ sleeping (after_call t a rest s b c) = sleeping c) as Hc.
  { intros t a rest s b. unfold after_call.
    assert (Forall timeless (expectation a s)) as He by (unfold expectation; repeat case_match; by repeat constructor).
    assert (Forall timeless (if b then [EvBlocked t] else [])) as Hb by (destruct b; by repeat constructor).
    destruct (threads s !! t) as [[]|]; simpl; eauto. }
  destruct l; simpl in Hs.
  - destruct (todo c !! t) as [[|a rest]|]; try done. destruct (sleeping c !! t); [done|].
    destruct (threads (cq c) !! t) as [[]|]; try done. destruct (spawned c || (t =? 0)); [|done].
    destruct a; simpl in Hs; undo_bind; simplify_eq; try apply Hc;
      try (eexists; split; [reflexivity|]; by repeat constructor).
    + exists []. split; [by rewrite app_nil_r|by repeat constructor].
    + destruct (todo c !! 1) as [[]|]; simplify_eq. exists []. split; [by rewrite app_nil_r|by repeat constructor].
  - destruct (todo c !! t) as [[|a rest]|]; try done. destruct (sleeping c !! t) as [d|] eqn:Hd; simplify_eq.
    eexists. split; [reflexivity|]. by exists d.
  - destruct (todo c !! t) as [[|a rest]|]; try done. undo_bind. apply Hc.
  - undo_bind. exists []. split; [by rewrite app_nil_r|by repeat constructor].
Qed.

(** [w] is reached, [k] steps having got on. *)
Inductive wreach (u : unit_test) : nat → world → Prop :=
| wreach_begin now : wreach u 0 (begin_world u now)
| wreach_tick k d w w' : wreach u k w → world_step (Tick d) w = Some w' → wreach u k w'
| wreach_step k l w w' :
    wreach u k w → world_step (Step l) w = Some w' →
    wreach u (if gets_on l (ctl w) then S k else k) w'.

Lemma wreach_creach u k w : wreach u k w → creach u k (ctl w).
Proof.
  induction 1 as [now|k d w w' _ IH Hs|k l w w' _ IH Hs].
  - constructor.
  - simpl in Hs. by case_guards.
  - simpl in Hs. destruct (may_wake l w); [|done]. undo_bind. by eapply creach_step.
Qed.

Record timed (w : world) : Prop := {
  ti_len : length (stamps w) = length (events (ctl w));
  ti_now : ∀ i s, stamps w !! i = Some s → (s ≤ clock w)%Z;
  ti_sorted : ∀ i j s s', (i ≤ j)%nat → stamps w !! i = Some s → stamps w !! j = Some s' → (s ≤ s')%Z;
  ti_until : ∀ t d, sleeping (ctl w) !! t = Some d → ∃ v, until w !! t = Some v ∧
    ∀ i s, events (ctl w) !! i = Some (EvSleep t d) → stamps w !! i = Some s → (s + d ≤ v)%Z;
  ti_slept : ∀ i j t d s s', events (ctl w) !! i = Some (EvSleep t d) →
    events (ctl w) !! j = Some (EvWoke t d) → (i < j)%nat →
    stamps w !! i = Some s → stamps w !! j = Some s' → (s + d ≤ s')%Z }.

Lemma timed_tick d w w' : world_step (Tick d) w = Some w' → timed w → timed w'.
Proof.
  simpl. destruct (0 <=? d)%Z eqn:Hd; [|done]. intros [= <-] [H1 H2 H3 H4 H5]. bool_to_prop.
  split; simpl; try done. intros i s Hi. specialize (H2 i s Hi). lia.
Qed.

(** New events, stamped with the time. *)
Lemma timed_more w c' evs un :
  timed w → events c' = events (ctl w) ++ evs →
  (∀ t d, sleeping c' !! t = Some d → ∃ v, un !! t = Some v ∧
     (sleeping (ctl w) !! t = Some d ∧ un !! t = until w !! t ∧ (EvSleep t d ∉ evs) ∨ (clock w + d ≤ v)%Z)) →
  (∀ t d, EvWoke t d ∈ evs → evs = [EvWoke t d] ∧ sleeping (ctl w) !! t = Some d ∧
     ∀ v, until w !! t = Some v → (v ≤ clock w)%Z) →
  timed (mkWorld c' (clock w)
           (stamps w ++ replicate (length (events c') - length (events (ctl w))) (clock w)) un).
Proof.
  intros [H1 H2 H3 H4 H5] Hev Hun Hwoke.
  assert (length (events c') - length (events (ctl w)) = length evs)%nat as El.
  { rewrite Hev, length_app. lia. }
  rewrite El.
  assert (∀ i s, (stamps w ++ replicate (length evs) (clock w)) !! i = Some s →
    stamps w !! i = Some s ∨ (length (stamps w) ≤ i)%nat ∧ s = clock w) as Hst.
  { intros i s [?|[? Hi]]%lookup_app_Some; [by left|]. right. apply lookup_replicate in Hi as [-> _]. done. }
  assert (∀ i s, (stamps w ++ replicate (length evs) (clock w)) !! i = Some s → (s ≤ clock w)%Z) as Hle.
  { intros i s [Hi|[_ ->]]%Hst; [by eapply H2|lia]. }
  assert (∀ i ev s, events c' !! i = Some ev → stamps w !! i = Some s → events (ctl w) !! i = Some ev) as Hold.
  { intros i ev s Hi Hs. rewrite Hev, lookup_app_l in Hi; [done|]. rewrite <- H1. by eapply lookup_lt_Some. }
  split; simpl; try done.
  - by rewrite Hev, !length_app, length_replicate, H1.
  - intros i j s s' Hij [Hi|[Hi ->]]%Hst Hj.
    + destruct (Hst _ _ Hj) as [Hj'|[_ ->]]; [by eapply H3|by eapply H2].
    + destruct (Hst _ _ Hj) as [Hj'|[_ ->]]; [apply lookup_lt_Some in Hj'; lia|lia].
  - intros t d Hd. destruct (Hun t d Hd) as (v & Hv & Hor). exists v. split; [done|].
    intros i s Hi Hs. destruct Hor as [(Hsl & E & Hn)|Hlt]; [|specialize (Hle i s Hs); lia].
    destruct (H4 t d Hsl) as (v' & Hv' & Hb). rewrite E, Hv' in Hv. simplify_eq.
    apply Hst in Hs as [Hs|[Hge ->]]; [by eapply Hb; [by eapply Hold|]|].
    destruct Hn. rewrite Hev, lookup_app_r in Hi by lia. by eapply list_elem_of_lookup_2.
  - intros i j t d s s' Hi Hj Hij Hs Hs'. apply Hst in Hs' as [Hs'|[Hge ->]].
    + assert (is_Some (stamps w !! i)) as [s0 Hs0].
      { apply lookup_lt_is_Some. apply lookup_lt_Some in Hs'. lia. }
      assert (s = s0) as -> by (rewrite (lookup_app_l_Some _ _ _ _ Hs0) in Hs; by simplify_eq).
      eapply H5; eauto.
    + rewrite Hev, lookup_app_r in Hj by lia. pose proof (list_elem_of_lookup_2 _ _ _ Hj) as Hin.
      destruct (Hwoke t d Hin) as (-> & Hsl & Hv). destruct (H4 t d Hsl) as (v & Hvv & Hb).
      specialize (Hv v Hvv). pose proof (lookup_lt_Some _ _ _ Hj) as Hlt. simpl in Hlt.
      apply Hst in Hs as [Hs|[Hge' _]]; [|lia].
      pose proof (Hb i s (Hold _ _ _ Hi Hs) Hs). lia.
Qed.

Lemma timeless_evs evs t d : Forall timeless evs → (EvSleep t d ∉ evs) ∧ (EvWoke t d ∉ evs).
Proof. rewrite Forall_forall. intros H. split; intros Hin; by apply H in Hin. Qed.

(** A step that puts nobody to sleep and wakes nobody. *)
Lemma timed_quiet w c' evs :
  timed w → events c' = events (ctl w) ++ evs → Forall timeless evs → sleeping c' = sleeping (ctl w) →
  timed (mkWorld c' (clock w)
           (stamps w ++ replicate (length (events c') - length (events (ctl w))) (clock w)) (until w)).
Proof.
  intros Hw Hev Ht Hsl. apply (timed_more w c' evs); [done|done| |].
  - rewrite Hsl. intros t d Hd. destruct (ti_until _ Hw t d Hd) as (v & Hv & _). exists v. split; [done|].
    left. split_and!; [done|done|by apply timeless_evs].
  - intros t d Hin. by apply (timeless_evs evs t d Ht) in Hin.
Qed.

Lemma timed_step l w w' : world_step (Step l) w = Some w' → timed w → timed w'.
Proof.
  simpl. intros Hs Hw. destruct (may_wake l w) eqn:Hmay; [|done]. undo_bind.
  destruct (cstep_events _ _ _ H) as (evs & Hev & Hl). destruct l; simpl in *.
  - destruct (todo (ctl w) !! t) as [[|[] rest]|]; try (by destruct Hl; eapply timed_quiet).
    destruct Hl as [-> Hsl]. apply (timed_more w x [EvSleep t d]); [done|done| |by intros ? ? ?%list_elem_of_singleton].
    intros t0 d0. rewrite Hsl, lookup_insert. case_decide as E.
    + intros [= <-]. subst t0. exists (clock w + d)%Z. rewrite lookup_insert_eq. split; [done|]. right. lia.
    + intros Hd0. destruct (ti_until _ Hw t0 d0 Hd0) as (v & Hv & _). exists v.
      rewrite lookup_insert_ne by done. split; [done|]. left.
      split_and!; [done|done|]. by intros [= ->]%list_elem_of_singleton.
  - destruct Hl as (d & Hd & -> & Hsl). destruct (until w !! t) as [v|] eqn:Hv; [|done]. bool_to_prop.
    apply (timed_more w x [EvWoke t d]); [done|done| |].
    + intros t0 d0. rewrite Hsl, lookup_delete_Some. intros [Hne Hd0].
      destruct (ti_until _ Hw t0 d0 Hd0) as (v0 & Hv0 & _). exists v0. split; [done|]. left.
      split_and!; [done|done|]. by intros ?%list_elem_of_singleton.
    + intros t0 d0 [= -> ->]%list_elem_of_singleton. split_and!; [done|done|]. intros v0 Hv0. by simplify_eq.
  - destruct Hl. by eapply timed_quiet.
  - destruct Hl. by eapply timed_quiet.
Qed.

Lemma wreach_timed u k w : wreach u k w → timed w.
Proof.
  induction 1 as [now|k d w w' _ IH Hs|k l w w' _ IH Hs]; [|by eapply timed_tick|by eapply timed_step].
  by split.
Qed.

(** A schedule, with the number of its steps that get on. *)
Fixpoint wrun (ls : list wlabel) (k : nat) (w : world) : option (nat * world) :=
  match ls with
  | [] => Some (k, w)
  | l :: ls =>
      w' ← world_step l w;
      wrun ls (match l with Step l => if gets_on l (ctl w) then S k else k | Tick _ => k end) w'
  end.

Lemma wrun_reach u ls : ∀ k w k' w',
  wreach u k w → wrun ls k w = Some (k', w') → wreach u k' w'.
Proof.
  induction ls as [|[d|l] ls IH]; intros k w k' w' Hw Hrun; cbn [wrun] in Hrun.
  - by simplify_eq.
  - apply bind_Some in Hrun as (w1 & H1 & Hrun). eapply IH; [|done]. by eapply wreach_tick.
  - apply bind_Some in Hrun as (w1 & H1 & Hrun). eapply IH; [|done]. by apply wreach_step.
Qed.

(** ** What the tests promise *)

(** The readings of the clock by thread 1 before event [j]. *)
Definition readings (j : nat) (evs : list event) : nat :=
  length (filter (λ ev, is_clock ev = true) (take j evs)).

(** Event [j] is reading [k]. *)
Definition reading (evs : list event) (k j : nat) : Prop :=
  evs !! j = Some (EvClock 1) ∧ readings j evs = k.

Lemma readings_S j ev evs :
  readings (S j) (ev :: evs) = ((if is_clock ev then 1 else 0) + readings j evs)%nat.
Proof. unfold readings. simpl. rewrite filter_cons. by destruct (is_clock ev). Qed.

Lemma clock_after_wake_spec k n d evs j :
  clock_after_wake k n d evs = true → evs !! j = Some (EvClock 1) → (n + readings j evs)%nat = k →
  ∃ m, (m < j)%nat ∧ evs !! m = Some (EvWoke 0 d) ∧
    ∀ i, evs !! i = Some (EvSleep 0 d) → (i < m)%nat.
Proof.
  revert n j. induction evs as [|ev evs IH]; intros n j Hc Hj Hn; [done|]. simpl in Hc.
  destruct j as [|j]; simpl in Hj.
  { injection Hj as ->. simpl in Hc. apply andb_true_iff in Hc as [Hc _].
    apply negb_true_iff, Nat.eqb_neq in Hc. unfold readings in Hn. simpl in Hn. lia. }
  rewrite readings_S in Hn.
  assert (∀ n', clock_after_wake k n' d evs = true → (n' + readings j evs)%nat = k →
    ∃ m, (m < S j)%nat ∧ (ev :: evs) !! m = Some (EvWoke 0 d) ∧
      ∀ i, (ev :: evs) !! i = Some (EvSleep 0 d) → (i < m)%nat) as Hnext.
  { intros n' Hc' Hn'. destruct (IH n' j Hc' Hj Hn') as (m & Hm & Hmw & Hms).
    exists (S m). split_and!; [lia|done|]. intros [|i] Hi; [lia|]. specialize (Hms i Hi). lia. }
  destruct (is_clock ev).
  - apply andb_true_iff in Hc as [_ Hc]. apply (Hnext (S n)); [done|lia].
  - destruct (wakes_from d ev) eqn:Hw; [|by apply (Hnext n)].
    destruct ev as [| |[] d'| |]; try done. simpl in Hw. apply Z.eqb_eq in Hw as <-.
    exists 0%nat. split_and!; [lia|done|]. intros [|i] Hi; simplify_eq/=. apply negb_true_iff in Hc.
    assert (existsb (sleeps_for d) evs = true); [|congruence].
    apply existsb_exists. exists (EvSleep 0 d). split; [|simpl; apply Z.eqb_refl].
    apply list_elem_of_In. by eapply list_elem_of_lookup_2.
Qed.

Lemma no_wait_spec k n evs j :
  no_wait k n evs = true → evs !! j = Some (EvBlocked 1) → (n + readings j evs)%nat ≠ S k.
Proof.
  revert n j. induction evs as [|ev evs IH]; intros n j Hc Hj; [done|]. simpl in Hc.
  destruct j as [|j]; simpl in Hj.
  - injection Hj as ->. simpl in Hc. apply andb_true_iff in Hc as [Hc _].
    apply negb_true_iff, Nat.eqb_neq in Hc. unfold readings. simpl. lia.
  - rewrite readings_S. destruct (is_clock ev).
    + specialize (IH (S n) j Hc Hj). lia.
    + apply andb_true_iff in Hc as [_ Hc]. by apply IH.
Qed.

(** The bound on the steps that get on in a test. *)
Definition steps_bound : nat := 20.

Lemma unit_tests_explored u :
  u ∈ unit_tests → explore (sound u) steps_bound (awake (begin_test u)) = true.
Proof. revert u. apply Forall_forall. repeat constructor; vm_compute; reflexivity. Qed.

Lemma unit_tests_sound u k w :
  u ∈ unit_tests → wreach u k w → (k ≤ steps_bound)%nat ∧ sound u (awake (ctl w)) = true.
Proof.
  intros Hu Hw. destruct (explore_sound _ _ _ _ _ (unit_tests_explored u Hu) (wreach_creach _ _ _ Hw)) as [Hk He].
  split; [done|by eapply explore_check].
Qed.

(** Enough time lets a step be taken that the control allows. *)
Lemma test_goes_on w :
  timed w → all_rest (ctl w) → successors (awake (ctl w)) ≠ [] →
  ∃ d l w1 w2, gets_on l (ctl w) = true ∧ world_step (Tick d) w = Some w1 ∧ world_step (Step l) w1 = Some w2.
Proof.
  intros Ht Hr Hne. destruct (successors (awake (ctl w))) as [|x xs] eqn:E; [done|].
  assert (x ∈ successors (awake (ctl w))) as Hx by (rewrite E; by left).
  apply list_elem_of_omap in Hx as (l & _ & Hl). destruct (gets_on l (awake (ctl w))) eqn:Hg; [|done].
  rewrite gets_on_awake in Hg. destruct (ctl_step l (awake (ctl w))) as [c2|] eqn:Hc2; [|done].
  destruct (cstep_real l _ _ Hr Hc2 Hg) as [c' Hc'].
  assert (∃ d, (0 ≤ d)%Z ∧ may_wake l (mkWorld (ctl w) (clock w + d) (stamps w) (until w)) = true) as (d & Hd & Hm).
  { destruct l; try (by exists 0%Z). simpl in *.
    destruct (todo (ctl w) !! t) as [[|a rest]|]; try done.
    destruct (sleeping (ctl w) !! t) as [z|] eqn:Hz; [|done].
    destruct (ti_until _ Ht t z Hz) as (v & -> & _). exists (Z.max 0 (v - clock w)). split; [lia|].
    apply Z.leb_le. lia. }
  exists d, l. do 2 eexists. split_and!; [done| |].
  - simpl. by rewrite (proj2 (Z.leb_le 0 d) Hd).
  - simpl. by rewrite Hm, Hc'.
Qed.

(** C29: on every schedule of the threads of a unit test, whatever the clock does in
    between: all expectations on values and on emptiness are met; a reading of the clock
    that a test compares with an earlier one comes at least the asserted time after it, if
    the earlier one was made before the main thread went to sleep; the call that must not
    wait does not; and the test ends: after at most [steps_bound] steps that get on, and
    until then one is possible once time has passed. *)
Theorem unit_tests_hold u k w :
  u ∈ unit_tests → wreach u k w →
  (∀ b, EvExpect b ∈ events (ctl w) → b = true) ∧
  (∀ a b d i j m s s', (a, b, d) ∈ claims u →
     reading (events (ctl w)) a i → reading (events (ctl w)) b j →
     events (ctl w) !! m = Some (EvSleep 0 d) → (i < m)%nat →
     stamps w !! i = Some s → stamps w !! j = Some s' → (s + d ≤ s')%Z) ∧
  (∀ n j, n ∈ unblocked u → events (ctl w) !! j = Some (EvBlocked 1) →
     readings j (events (ctl w)) ≠ S n) ∧
  (k ≤ steps_bound)%nat ∧
  (finished (ctl w) = false → ∃ d l w1 w2, gets_on l (ctl w) = true ∧
     world_step (Tick d) w = Some w1 ∧ world_step (Step l) w1 = Some w2).
Proof.
  intros Hu Hw. pose proof (wreach_timed _ _ _ Hw) as Ht. pose proof (wreach_creach _ _ _ Hw) as Hc.
  destruct (unit_tests_sound u k w Hu Hw) as [Hk Hs]. unfold sound in Hs.
  apply andb_true_iff in Hs as [[[Hmet Hcl]%andb_true_iff Hnw]%andb_true_iff Hfin].
  rewrite forallb_forall in Hmet, Hcl, Hnw. split_and!; [| | |done|].
  - intros b Hb%list_elem_of_In. by apply (Hmet (EvExpect b)).
  - intros a b d i j m s s' Hin [Hi _] [Hj Hb] Hm Him Hsi Hsj.
    apply list_elem_of_In, Hcl in Hin. simpl in Hin.
    destruct (clock_after_wake_spec _ 0 _ _ j Hin Hj Hb) as (p & Hp & Hpw & Hps).
    pose proof (Hps m Hm) as Hmp.
    assert (∃ x, stamps w !! m = Some x) as [x Hx].
    { apply lookup_lt_is_Some. rewrite (ti_len _ Ht). by eapply lookup_lt_Some. }
    assert (∃ y, stamps w !! p = Some y) as [y Hy].
    { apply lookup_lt_is_Some. rewrite (ti_len _ Ht). by eapply lookup_lt_Some. }
    pose proof (ti_slept _ Ht _ _ _ _ _ _ Hm Hpw Hmp Hx Hy).
    pose proof (ti_sorted _ Ht i m s x ltac:(lia) Hsi Hx).
    pose proof (ti_sorted _ Ht p j y s' ltac:(lia) Hy Hsj). lia.
  - intros n j Hn%list_elem_of_In Hj. by apply (no_wait_spec n 0), Hj; apply Hnw.
  - intros Hf. apply test_goes_on; [done|by eapply creach_rests|].
    change (finished (awake (ctl w))) with (finished (ctl w)) in Hfin. rewrite Hf in Hfin.
    by destruct (successors (awake (ctl w))).
Qed.

(** ** Schedules of a test *)

(** The producer reads the clock [late] after the main thread has gone to sleep. *)
Definition unbuffered_run (before late : Z) : list wlabel :=
  [Step (ClAct 0); Tick before] ++
  (if (late =? 0)%Z then [Step (ClAct 1); Step (ClAct 0)] else [Step (ClAct 0); Tick late; Step (ClAct 1)]) ++
  [Step (ClAct 1); Tick (ms 1000 - late)%Z; Step (ClWake 0); Step (ClAct 0); Step (ClResume 1);
   Step (ClAct 1); Step (ClAct 0)].

Lemma unit_tests_hold_witness :
  ∃ w, wrun (unbuffered_run 5 0) 0 (begin_world EnqueueUnbufferedQueue 0) = Some (9%nat, w) ∧
    finished (ctl w) = true ∧
    (∀ b, EvExpect b ∈ events (ctl w) → b = true) ∧
    (∀ s s', stamps w !! 0%nat = Some s → stamps w !! 5%nat = Some s' → (s + ms 1000 ≤ s')%Z).
Proof.
  eexists. split; [vm_compute; reflexivity|]. split; [vm_compute; reflexivity|].
  edestruct (unit_tests_hold EnqueueUnbufferedQueue 9) as (Hexp & Hcl & _ & _ & _).
  - right. right. by left.
  - eapply (wrun_reach EnqueueUnbufferedQueue (unbuffered_run 5 0) 0); [apply (wreach_begin _ 0)|].
    vm_compute. reflexivity.
  - split; [exact Hexp|]. intros s s'.
    apply (Hcl 0%nat 1%nat (ms 1000) 0%nat 5%nat 1%nat s s'); [by left|done..|lia].
Defined.

(** The assertion is a race: a thread that is scheduled late measures less. *)
Lemma late_thread_measures_less :
  ∃ w, wrun (unbuffered_run 0 (ms 999)) 0 (begin_world EnqueueUnbufferedQueue 0) = Some (9%nat, w) ∧
    finished (ctl w) = true ∧ reading (events (ctl w)) 0 1 ∧ reading (events (ctl w)) 1 5 ∧
    stamps w !! 1%nat = Some (ms 999) ∧ stamps w !! 5%nat = Some (ms 1000).
Proof. eexists. split; [vm_compute; reflexivity|]. split_and!; vm_compute; try done; by split. Qed.
